(* ===== verification/_CoqProject ===== *)
-Q . S2P
Prelude.v
Text.v
Net.v
UserIds.v
Merkle.v
ServerTrust.v
KeyTransparency.v
DegradedLimiter.v
RedisStore.v
PrivacyPass.v
SendLimits.v
Issuance.v
Pow.v
Sentinel.v
CallRegistry.v
Signaling.v
SealedSend.v
TokenFlow.v
Tokens.v
DeviceAuth.v
Intake.v
Mailbox.v
MailboxPaging.v
MailboxGaps.v
Delivery.v
Catchup.v
MailboxProps.v
Dispatch.v
SealedDispatch.v
