(* ===== verification/Prelude.v ===== *)
(** * Konstruct server: a verification development

    Konstruct is the server of an end-to-end encrypted messenger: a set of Rust
    services that share Redis and Postgres. A client reaches them through a
    gateway. The key service hands out the key bundles of other users with
    proofs from a transparency log. The messaging service queues sealed
    envelopes, guarded against abuse by a rate limiter, by Privacy Pass tokens
    and by the Sentinel service (trust levels, quotas, blocks, spam reports).
    The signaling service sets up calls and relays their signals between
    devices. This library models the parts that carry the server's own logic,
    each as executable definitions translated from the source, and proves what
    makes them correct.

    ** The files

    - [Prelude] (this file): results and their notation, machine integers with
      their wrap-around, bytes and big-endian numbers, decimal printing and
      parsing of integers, tactics and list lemmas shared by the rest.
    - [Merkle]: key-service/src/kt.rs, the pure half. RFC 6962 tree hash,
      inclusion proofs, their verification, the signed bytes of a tree head.
    - [ServerTrust]: construct-crypto/src/pqc/hybrid.rs (Ed25519 + ML-DSA-65
      signatures and key layouts, module [Hybrid]) and server_trust.rs
      (delegations of the offline root and the delegated signer). The schemes
      are records of operations with a class of laws.
    - [KeyTransparency]: key-service/src/kt.rs, the database half. The log table,
      the appending transaction, snapshots, and the proofs that go out with a
      bundle, built on [Merkle] and signed through [ServerTrust].
    - [DegradedLimiter]: construct-rate-limit/src/degraded.rs. The circuit
      breaker in front of Redis and the bounded in-memory counters used while it
      is open, with its sixteen shards and cap on tracked keys.
    - [RedisStore]: the interface of Redis. A class [Redis] of connections with
      one operation, a class [RedisLaws] saying what the documentation promises
      of each command the components issue, the two situations [available] and
      [outage] under which theorems are stated, the scripts shared by several
      components, and an instance [mem] that satisfies the laws.
    - [Sentinel]: construct-sentinel-service/src/core.rs, every method, over
      Redis, four tables and the degraded limiter.
    - [CallRegistry]: signaling-service/src/registry.rs and forwarded.rs. The
      calls and channels of one instance, the copies in Redis the instances
      share, delivery, cleanup and pub/sub.
    - [Signaling]: signaling-service/src/rate_limiter.rs and service.rs. Call
      set-up, the signal stream in both directions, its rate limits.
    - [SealedSend]: messaging-service/src/spent_tag.rs and token_redeem.rs. The
      replay cache of delivery tags, token redemption and spend units.
    - [Tokens]: construct-queue/src/tokens.rs. Refresh tokens with their per-user
      index, blocklists, and the tokens and results of device linking.
    - [Text]: the string functions of the Rust standard library the sources use.
    - [Net]: the address parser and printer of the standard library,
      construct-federation/src/ssrf.rs (which hosts a server may be sent to), the
      buckets of client addresses of construct-rate-limit/src/lib.rs and the
      address extraction of messaging-service/src/sealed_ip.rs.
    - [SendLimits]: the sliding window of construct-rate-limit/src/lib.rs, the
      limit per address of sealed_ip.rs and the trust-based limits of
      messaging-service/src/trust.rs.
    - [PrivacyPass]: construct-crypto/src/privacy_pass.rs. Tokens, the batched
      proof of the issuer's key, the sealed box, the keys of the environment, over
      classes of the curve and of the symmetric primitives.
    - [Issuance]: construct-queue/src/rate_limiting.rs and [issue_tokens] of
      identity-service/src/main.rs. [TokenFlow] composes it with [PrivacyPass] and
      [SealedSend].
    - [Pow]: construct-pow/src/lib.rs, construct-queue/src/pow.rs and the adaptive
      difficulty of construct-auth-service/src/devices.rs.
    - [DeviceAuth]: construct-auth-service/src/devices.rs. Challenges,
      registration, login and lockout, over [Pow], [Issuance], [Tokens] and two
      tables with the statements of construct-db.
    - [UserIds]: construct-types/src/user_id.rs. User addresses and route ids.
    - [Intake]: messaging-service/src/intake.rs. The tags an account publishes so
      that its contacts owe no token, the publishing script, the check.
    - [Mailbox]: construct-queue/src/delivery.rs, gap.rs, dedup.rs,
      push_outstanding.rs and the mailbox half of lib.rs: the Redis streams of a
      user and of each device, definitions only. [MailboxPaging] holds the theory
      of reading them page by page and of merging the two, [MailboxGaps] that a
      loss is always reported, [MailboxProps] idempotency keys and purges.
    - [Delivery]: messaging-service/src/core.rs [dispatch_envelope], stream.rs
      [poll_messages], grpc.rs [get_pending_messages], receipts.rs and the
      conversion of envelope.rs, definitions only. [Catchup] proves what a device
      gets from polling and fetching, [Dispatch] what a dispatch stores and,
      together with [Catchup], that it arrives.
    - [SealedDispatch]: messaging-service/src/envelope.rs
      [dispatch_sealed_sender], on top of [UserIds], [Intake], [SealedSend] and
      [Delivery].

    ** How the code is modelled

    A struct is a record, an enum an inductive type with the same constructors, a
    method a function from the state to the state and its result; the functions
    keep the names of the source. Machine integers are [Z] with their wrapping,
    saturating or checked arithmetic written out. Fallible code returns [result]
    or [option]; a result the source ignores is ignored here. State kept in Redis
    is reached only through [exec], one call per command or script in the order
    of the source, and every call may fail, with or without having been executed.
    A Lua script is one function on the keyspace, since Redis runs it atomically.
    SQL statements are functions on lists of rows; which statement fails is an
    argument. Concurrency between instances and requests appears as explicit
    sequences of operations on the shared store: interleaved appends in
    [KeyTransparency], runs of attempts in [SealedSend] and [Tokens], two
    registries over one Redis in [CallRegistry]. The clock is an argument.

    Third-party code is a parameter with the documented facts that are used of
    it as hypotheses: SHA-256 (32-byte output), the two signature schemes (a
    signature made with a key verifies under it), hex, base64, JSON and protobuf
    encoders (decoding an encoded value returns it), the ristretto255 group (a
    vector space over its scalars, canonical encodings), HKDF, ChaCha20-Poly1305
    and X25519 (opening undoes sealing), Argon2, the registers of HyperLogLog. Nothing is assumed of SHA-256 that a 32-byte function cannot
    have: soundness of the tree is stated as "or these inputs collide". Every
    theorem with hypotheses has a witness that applies it to concrete values.

    ** What the theorems show

    - The log: a proof that verifies proves the leaf at that index, every leaf has
      a proof that verifies, the table only grows and stays numbered without
      gaps, and the proofs returned with a bundle verify against one snapshot and
      its signed head whatever other requests append meanwhile.
    - Server keys: what a delegated signer signs verifies under the delegation it
      names, inside its window; the delegations served are the ones still needed.
    - Rate limits: the fallback limiter admits exactly its limit per key and
      window and stays bounded; the breaker follows its three states; Sentinel's
      windows admit exactly the limit of the trust level, with Redis and without.
    - Sentinel: the block check answers what the table says after every change,
      reports escalate exactly at the thresholds, the block list is paged without
      loss; what the checks do during an outage.
    - Calls: every instance reads the state the updates of a call mean (a
      refinement of the record of the call by memory and Redis together), a
      removed call is gone everywhere, outsiders change nothing, a call is set up
      only through all gates, a declined caller is refused for the cooldown, the
      end of the caller's stream ends the call, the cleanup removes exactly what
      its rules say and runs on one instance at a time.
    - Delivery: a dispatched envelope is in a mailbox when it is acknowledged,
      whatever Redis loses; it is stored once per mailbox however often it is
      sent; polling and fetching end and hand over everything that waits, merged
      from two streams; an entry that was evicted, purged or swept before it was
      read is reported as a gap; end to end, what is dispatched reaches a polling
      device.
    - Sealed sends: under enforcement nothing unpaid is delivered, a free pass
      needs a tag the recipient published and has not rotated away, and an
      acknowledged sealed envelope is stored exactly if its tag is fresh.
    - Addresses: what parses is well formed, and printing is parsed back; the
      filter of federation hosts refuses exactly the reserved blocks, and a host it
      accepts resolves to public addresses only; addresses share a rate bucket
      exactly if they share the unit that is limited.
    - Limits of sends: the sliding window decides like a count of the accepted
      events of the window, the hourly limit admits exactly the rest of its
      window, the daily fan-out never refuses a recipient already written to, the
      limit per address survives an outage.
    - Privacy Pass: the hour's cap bounds what is issued and what is left is
      granted; honest batches have proofs that verify; an accepted proof of a
      false batch needs the transcript's hash to hit one scalar; tokens issued,
      finalized and sealed by an honest client are redeemed.
    - Devices: a solution is accepted exactly if the hash is below the bound of
      its difficulty; a registration establishes its checks and adds exactly one
      device and user; a challenge serves one of a sequence of registrations; a
      login succeeds exactly under its conditions; failures lock a device at the
      configured number.
    - Tokens: a Privacy Pass token is spent once and pays for a bounded number of
      envelopes of one message to one recipient, a delivery tag is new once, a
      refresh token is rotated once, logout from all devices leaves no session,
      and a device-link result reads back as it was written.

    Some theorems state behaviour that differs from what the comments in the
    source intend; their names say what happens ([cross_instance_reap],
    [call_id_takeover], [block_check_fails_open], [send_check_outage],
    [equal_ids_lose_one], [rotation_keeps_grace], [failed_publish_stores],
    [key_address_oracle], [challenge_spent_twice], [timestamp_wraps],
    [identity_conflict_unreported], and the lemmas [trust_level_outage],
    [revoke_all_outage] and [longer_delay_dropped]).

    ** Bounds and fuel

    The recursions of the Merkle tree split their list at a power of two and are
    not structural: they carry fuel equal to the length of the list, and the
    lemmas of [Merkle] show that any fuel of at least the length gives the same
    result; the loop that finds the power of two carries the length as well. The
    loops that poll a stream and fetch page by page carry fuel too, and the
    theorems about them show that one more than the number of stored entries is
    enough. All other loops run over lists. Numeric limits (window sizes, caps, times to
    live) are the constants of the source.

    ** What is not modelled

    gRPC, HTTP, TLS and proxy plumbing, configuration, metrics and logging, push
    delivery, media storage and the transport obfuscation are input and output.
    Elliptic-curve and post-quantum arithmetic is third-party. The per-stream
    token bucket of the signaling service computes in floating point and enters
    as a verdict; so do the verdicts of token authentication and of the two
    database checks of a new call.

    Next in the plan: the sending handlers of the messaging service, device
    recovery and linking of the identity service, the prekey handlers of the key
    service, and the group service. *)

From Stdlib Require Export Strings.Byte Strings.Ascii.
From stdpp Require Export base gmap strings list numbers tactics option.
From Stdlib Require Import DecimalString DecimalN DecimalFacts.

#[global] Set Default Goal Selector "!".

(** ** Results

    Rust's [Result<T, E>], with [?] as a monadic bind in a scope of its own. *)

Inductive result (A E : Type) : Type :=
| Ok (a : A)
| Err (e : E).
Arguments Ok {A E} a.
Arguments Err {A E} e.

Declare Scope rust_scope.
Delimit Scope rust_scope with rust.

Notation "'let?' x := m 'in' k" :=
  (match m with Ok x => k | Err e => Err e end)
    (at level 10, x name, m at level 100, k at level 200) : rust_scope.
Notation "'let?' ' pat := m 'in' k" :=
  (match m with Ok pat => k | Err e => Err e end)
    (at level 10, pat pattern, m at level 100, k at level 200) : rust_scope.
Notation "'let*' x := m 'in' k" :=
  (match m with Some x => k | None => None end)
    (at level 10, x name, m at level 100, k at level 200) : rust_scope.
Open Scope rust_scope.

Definition is_ok {A E} (r : result A E) : bool :=
  match r with Ok _ => true | Err _ => false end.

Definition ok_or {A E} (o : option A) (e : E) : result A E :=
  match o with Some a => Ok a | None => Err e end.

Definition result_ok {A E} (r : result A E) : option A :=
  match r with Ok a => Some a | Err _ => None end.

#[export] Instance result_eq_dec {A E} `{EqDecision A, EqDecision E} :
  EqDecision (result A E).
Proof. solve_decision. Defined.

(** ** Tactics *)

(** Splits every [match] and [if] of the goal (or of a hypothesis), keeping the
    equation, and closes the branches that contradict each other. *)
Ltac split_matches :=
  repeat (case_match; simplify_eq/=; try done).

Ltac split_matches_in H :=
  repeat (match type of H with
          | context [match ?x with _ => _ end] => destruct x eqn:?
          end; simplify_eq/=; try done).

Ltac bool_to_prop :=
  repeat match goal with
  | H : _ && _ = true |- _ => apply andb_true_iff in H as [? ?]
  | H : _ || _ = false |- _ => apply orb_false_iff in H as [? ?]
  | H : negb _ = true |- _ => apply negb_true_iff in H
  | H : negb _ = false |- _ => apply negb_false_iff in H
  | H : (_ =? _)%Z = true |- _ => apply Z.eqb_eq in H
  | H : (_ =? _)%Z = false |- _ => apply Z.eqb_neq in H
  | H : (_ <? _)%Z = true |- _ => apply Z.ltb_lt in H
  | H : (_ <? _)%Z = false |- _ => apply Z.ltb_ge in H
  | H : (_ <=? _)%Z = true |- _ => apply Z.leb_le in H
  | H : (_ <=? _)%Z = false |- _ => apply Z.leb_gt in H
  | H : (_ =? _)%nat = true |- _ => apply Nat.eqb_eq in H
  | H : (_ =? _)%nat = false |- _ => apply Nat.eqb_neq in H
  | H : (_ <? _)%nat = true |- _ => apply Nat.ltb_lt in H
  | H : (_ <? _)%nat = false |- _ => apply Nat.ltb_ge in H
  | H : (_ <=? _)%nat = true |- _ => apply Nat.leb_le in H
  | H : (_ <=? _)%nat = false |- _ => apply Nat.leb_gt in H
  | H : bool_decide _ = true |- _ => apply bool_decide_eq_true in H
  | H : bool_decide _ = false |- _ => apply bool_decide_eq_false in H
  end.

Create HintDb rust discriminated.
Create Rewrite HintDb rust_rw.

(** ** Machine integers

    An integer of the source is a [Z]; the operations below are the ones the
    source uses, with their width written out. *)

Open Scope Z_scope.

Definition u32_max : Z := 4294967295.
Definition u64_max : Z := 18446744073709551615.
Definition i32_max : Z := 2147483647.
Definition i32_min : Z := -2147483648.
Definition i64_max : Z := 9223372036854775807.
Definition i64_min : Z := -9223372036854775808.

Definition in_u32 (z : Z) : Prop := 0 <= z <= u32_max.
Definition in_u64 (z : Z) : Prop := 0 <= z <= u64_max.
Definition in_i64 (z : Z) : Prop := i64_min <= z <= i64_max.

(** [u32::wrapping_add], which is also what [AtomicU32::fetch_add] does. *)
Definition wrap_u32 (z : Z) : Z := z mod (u32_max + 1).
Definition wrap_u64 (z : Z) : Z := z mod (u64_max + 1).

(** [u32::saturating_add], [u64::saturating_sub], [i64::saturating_sub],
    [u64::saturating_mul]. *)
Definition saturating_add_u32 (a b : Z) : Z := Z.min u32_max (a + b).
Definition saturating_sub_u64 (a b : Z) : Z := Z.max 0 (a - b).
Definition saturating_mul_u64 (a b : Z) : Z := Z.min u64_max (a * b).
Definition saturating_sub_i64 (a b : Z) : Z :=
  Z.max i64_min (Z.min i64_max (a - b)).

Lemma wrap_u64_id z : in_u64 z -> wrap_u64 z = z.
Proof. unfold in_u64, wrap_u64. intros. apply Z.mod_small. lia. Qed.

Lemma wrap_u32_id z : in_u32 z -> wrap_u32 z = z.
Proof. unfold in_u32, wrap_u32. intros. apply Z.mod_small. lia. Qed.

(** ** Strings

    A [&str] of the source is the Rocq string of its UTF-8 bytes, so [len] is
    [String.length] and [as_bytes] is [as_bytes] below. *)

Abbreviation bytes := (list byte).

#[export] Instance byte_eq_dec : EqDecision byte := Byte.byte_eq_dec.

Definition as_bytes (s : string) : bytes := String.list_byte_of_string s.

Lemma as_bytes_inj s t : as_bytes s = as_bytes t -> s = t.
Proof.
  intros H. rewrite <- (String.string_of_list_byte_of_string s),
    <- (String.string_of_list_byte_of_string t). unfold as_bytes in H. by rewrite H.
Qed.

Lemma length_as_bytes s : length (as_bytes s) = String.length s.
Proof.
  induction s as [|c s IH]; [done|]. unfold as_bytes in *. cbn. by rewrite <- IH.
Qed.

Definition str_is_empty (s : string) : bool :=
  match s with EmptyString => true | _ => false end.

Lemma str_is_empty_spec s : str_is_empty s = true <-> s = EmptyString.
Proof. by destruct s. Qed.

(** ** Decimal numbers: [to_string] and [parse]

    [u64::from_str] accepts an optional plus sign and at least one decimal
    digit, and refuses a value that does not fit; [i64::from_str] also accepts
    a minus sign. *)

Definition dec_of_N (n : N) : string := NilZero.string_of_uint (N.to_uint n).

Definition parse_digits (s : string) : option Z :=
  match NilZero.uint_of_string s with
  | Some d => Some (Z.of_N (N.of_uint d))
  | None => None
  end.

Definition to_string (z : Z) : string :=
  if z <? 0 then String "-"%char (dec_of_N (Z.to_N (- z))) else dec_of_N (Z.to_N z).

Definition parse_u64 (s : string) : option Z :=
  let digits := match s with
                | String "+"%char rest => rest
                | _ => s
                end in
  let* v := parse_digits digits in
  if v <=? u64_max then Some v else None.

Definition parse_i64 (s : string) : option Z :=
  match s with
  | String "-"%char rest =>
      let* v := parse_digits rest in
      if - v <? i64_min then None else Some (- v)
  | String "+"%char rest =>
      let* v := parse_digits rest in
      if v <=? i64_max then Some v else None
  | _ =>
      let* v := parse_digits s in
      if v <=? i64_max then Some v else None
  end.

Lemma N_to_uint_nonnil n : N.to_uint n <> Decimal.Nil.
Proof.
  intros H. pose proof (Unsigned.of_to n) as Hn. rewrite H in Hn. cbn in Hn.
  subst n. discriminate.
Qed.

Lemma parse_digits_dec n : parse_digits (dec_of_N n) = Some (Z.of_N n).
Proof.
  unfold parse_digits, dec_of_N.
  rewrite NilZero.usu by apply N_to_uint_nonnil. by rewrite Unsigned.of_to.
Qed.

(** A printed number starts with neither sign. *)
Lemma dec_of_N_head n :
  match dec_of_N n with String "-"%char _ | String "+"%char _ => False | _ => True end.
Proof.
  unfold dec_of_N, NilZero.string_of_uint. destruct (N.to_uint n); try done.
Qed.

Lemma dec_of_N_unsigned {A} n (f g : string -> A) (h : A) :
  match dec_of_N n with
  | String "-"%char r => f r
  | String "+"%char r => g r
  | _ => h
  end = h.
Proof.
  pose proof (dec_of_N_head n) as Hh.
  destruct (dec_of_N n) as [|c r]; [done|].
  destruct c as [[] [] [] [] [] [] [] []]; done.
Qed.

Lemma parse_u64_to_string z : in_u64 z -> parse_u64 (to_string z) = Some z.
Proof.
  intros Hz. unfold in_u64 in Hz. unfold to_string.
  destruct (Z.ltb_spec z 0); [lia|].
  unfold parse_u64.
  assert (match dec_of_N (Z.to_N z) with
          | String "+"%char rest => rest
          | _ => dec_of_N (Z.to_N z)
          end = dec_of_N (Z.to_N z)) as ->.
  { pose proof (dec_of_N_head (Z.to_N z)) as Hh.
    destruct (dec_of_N (Z.to_N z)) as [|c r]; [done|].
    destruct c as [[] [] [] [] [] [] [] []]; done. }
  rewrite parse_digits_dec, Z2N.id by lia.
  destruct (Z.leb_spec z u64_max); [done|lia].
Qed.

Lemma parse_i64_to_string z : in_i64 z -> parse_i64 (to_string z) = Some z.
Proof.
  intros Hz. unfold in_i64 in Hz. unfold to_string.
  destruct (Z.ltb_spec z 0) as [Hneg|Hpos].
  - unfold parse_i64. rewrite parse_digits_dec, Z2N.id by lia.
    destruct (Z.ltb_spec (- - z) i64_min); [lia|]. f_equal. lia.
  - unfold parse_i64.
    rewrite (dec_of_N_unsigned _
      (fun r => let* v := parse_digits r in if - v <? i64_min then None else Some (- v))
      (fun r => let* v := parse_digits r in if v <=? i64_max then Some v else None)).
    rewrite parse_digits_dec, Z2N.id by lia.
    destruct (Z.leb_spec z i64_max); [done|lia].
Qed.

Lemma parse_digits_nonneg s v : parse_digits s = Some v -> 0 <= v.
Proof. unfold parse_digits. destruct (NilZero.uint_of_string s); [|done]. intros [= <-]. lia. Qed.

Lemma parse_digits_empty : parse_digits "" = None.
Proof. done. Qed.

Lemma parse_i64_empty : parse_i64 "" = None.
Proof. done. Qed.

#[export] Hint Rewrite parse_u64_to_string parse_i64_to_string
  using (unfold in_u64, in_i64 in *; lia) : rust_rw.

(** ** Big-endian encodings *)

Definition byte_of_Z (z : Z) : byte :=
  match Byte.of_N (Z.to_N (z mod 256)) with Some b => b | None => x00 end.

Definition Z_of_byte (b : byte) : Z := Z.of_N (Byte.to_N b).

Fixpoint be_bytes (k : nat) (z : Z) : bytes :=
  match k with
  | O => []
  | S k' => byte_of_Z (z / 256 ^ Z.of_nat k') :: be_bytes k' z
  end.

Definition be_value (l : bytes) : Z :=
  fold_left (fun acc b => acc * 256 + Z_of_byte b) l 0.

Lemma Z_of_byte_of_Z z : Z_of_byte (byte_of_Z z) = z mod 256.
Proof.
  unfold Z_of_byte, byte_of_Z.
  assert (0 <= z mod 256 < 256) as Hz by (apply Z.mod_pos_bound; lia).
  destruct (Byte.of_N _) as [b|] eqn:Hb.
  - apply Byte.to_of_N in Hb. rewrite Hb. lia.
  - apply Byte.of_N_None_iff in Hb. lia.
Qed.

Lemma length_be_bytes k z : length (be_bytes k z) = k.
Proof. induction k; cbn; congruence. Qed.

Lemma be_value_acc l a :
  fold_left (fun acc b => acc * 256 + Z_of_byte b) l a
  = a * 256 ^ Z.of_nat (length l) + be_value l.
Proof.
  revert a. unfold be_value. induction l as [|b l IH]; intros a; cbn [fold_left length].
  - change (256 ^ Z.of_nat 0) with 1. lia.
  - rewrite IH, (IH (0 * 256 + _)). rewrite Nat2Z.inj_succ, Z.pow_succ_r by lia. lia.
Qed.

Lemma be_value_be_bytes k z : be_value (be_bytes k z) = z mod 256 ^ Z.of_nat k.
Proof.
  induction k as [|k IH]; [cbn; by rewrite Z.mod_1_r|].
  cbn [be_bytes]. unfold be_value. cbn [fold_left].
  rewrite be_value_acc, length_be_bytes, IH, Z_of_byte_of_Z.
  rewrite Nat2Z.inj_succ, Z.pow_succ_r by lia.
  rewrite (Z.mul_comm 256), Z.rem_mul_r by lia. lia.
Qed.

Lemma be_bytes_inj k a b :
  0 <= a < 256 ^ Z.of_nat k -> 0 <= b < 256 ^ Z.of_nat k ->
  be_bytes k a = be_bytes k b -> a = b.
Proof.
  intros Ha Hb H. apply (f_equal be_value) in H.
  rewrite !be_value_be_bytes, !Z.mod_small in H by lia. done.
Qed.

(** ** Lists *)

Lemma app_inj_same_length {A} (l1 l2 k1 k2 : list A) :
  length l1 = length k1 -> l1 ++ l2 = k1 ++ k2 -> l1 = k1 /\ l2 = k2.
Proof. intros. by apply app_inj_1. Qed.

(** ** Counting admitted requests *)

Fixpoint count_true (l : list bool) : Z :=
  match l with [] => 0 | b :: rest => (if b then 1 else 0) + count_true rest end.

Lemma count_true_threshold c limit n start :
  0 < limit -> 0 <= c ->
  count_true (map (fun i => c + Z.of_nat i <=? limit) (seq start n))
  = Z.min (Z.of_nat n) (Z.max 0 (limit - c - Z.of_nat start + 1)).
Proof.
  intros Hl Hc. revert start. induction n as [|n IH]; intros start; cbn [seq map count_true]; [lia|].
  rewrite IH. destruct (Z.leb_spec (c + Z.of_nat start) limit); lia.
Qed.

(** How many elements satisfy [p]. *)
Definition count_if {A} (p : A -> bool) (l : list A) : Z :=
  Z.of_nat (length (List.filter p l)).
