(* ===== verification/Text.v ===== *)
(** * Text

    The string functions of the Rust standard library the sources use. A [&str]
    is the Rocq string of its UTF-8 bytes; a function on characters that are all
    ASCII is one on these bytes. *)

From S2P Require Import Prelude.
From Stdlib Require Import DecimalString.

(** ** Splitting *)

(** [str::split_once]. *)
Fixpoint split_once (c : ascii) (s : string) : option (string * string) :=
  match s with
  | EmptyString => None
  | String a rest =>
      if Ascii.eqb a c then Some (EmptyString, rest)
      else match split_once c rest with
           | Some (l, r) => Some (String a l, r)
           | None => None
           end
  end.

(** [str::split] on a character: the pieces, at least one. *)
Fixpoint split_char (c : ascii) (s : string) : list string :=
  match s with
  | EmptyString => [EmptyString]
  | String a rest =>
      if Ascii.eqb a c then EmptyString :: split_char c rest
      else match split_char c rest with
           | piece :: more => String a piece :: more
           | [] => [String a EmptyString]
           end
  end.

(** [str::rsplit_once]. *)
Fixpoint rsplit_once (c : ascii) (s : string) : option (string * string) :=
  match s with
  | EmptyString => None
  | String x rest =>
      match rsplit_once c rest with
      | Some (a, b) => Some (String x a, b)
      | None => if Ascii.eqb x c then Some ("", rest) else None
      end
  end.

(** [s.chars().take(n)]: a character is a byte that does not continue one,
    with the bytes that continue it. *)
Definition is_continuation (a : ascii) : bool :=
  let n := N_of_ascii a in (128 <=? n)%N && (n <? 192)%N.

Fixpoint take_chars (n : nat) (s : string) : string :=
  match s with
  | EmptyString => EmptyString
  | String a rest =>
      if is_continuation a then String a (take_chars n rest)
      else match n with O => EmptyString | S n' => String a (take_chars n' rest) end
  end.

(** [str::strip_prefix]. *)
Fixpoint strip_prefix (p s : string) : option string :=
  match p, s with
  | EmptyString, _ => Some s
  | String a p, String b s => if Ascii.eqb a b then strip_prefix p s else None
  | _, _ => None
  end.

(** [str::contains] of a string. *)
Fixpoint str_contains (needle s : string) : bool :=
  String.prefix needle s ||
  match s with EmptyString => false | String _ rest => str_contains needle rest end.

(** The characters of a string: a byte that does not continue one, with those that do. *)
Fixpoint chars (s : string) : list string :=
  match s with
  | EmptyString => []
  | String a rest =>
      match chars rest with
      | (String b _ as c) :: more => if is_continuation b then String a c :: more else String a "" :: c :: more
      | other => String a "" :: other
      end
  end.

(** [char::is_whitespace]: the characters with the Unicode property [White_Space]. *)
Definition is_whitespace (c : string) : bool :=
  match map Z_of_byte (as_bytes c) with
  | [a] => ((9 <=? a) && (a <=? 13)) || (a =? 32)
  | [194; b] => (b =? 133) || (b =? 160)
  | [225; 154; 128] => true
  | [226; 128; c] => ((128 <=? c) && (c <=? 138)) || (c =? 168) || (c =? 169) || (c =? 175)
  | [226; 129; 159] => true
  | [227; 128; 128] => true
  | _ => false
  end.

Fixpoint drop_while {A} (p : A -> bool) (l : list A) : list A :=
  match l with x :: rest => if p x then drop_while p rest else l | [] => [] end.

(** [str::trim]. *)
Definition trim (s : string) : string :=
  String.concat "" (rev (drop_while is_whitespace (rev (drop_while is_whitespace (chars s))))).

(** ** ASCII case *)

Definition to_ascii_lowercase (a : ascii) : ascii :=
  let n := N_of_ascii a in
  if (65 <=? n)%N && (n <=? 90)%N then ascii_of_N (n + 32) else a.

Fixpoint eq_ignore_ascii_case (s t : string) : bool :=
  match s, t with
  | EmptyString, EmptyString => true
  | String a s, String b t =>
      Ascii.eqb (to_ascii_lowercase a) (to_ascii_lowercase b) && eq_ignore_ascii_case s t
  | _, _ => false
  end.

Fixpoint str_map (f : ascii -> ascii) (s : string) : string :=
  match s with EmptyString => EmptyString | String a s => String (f a) (str_map f s) end.

(** [char::is_ascii_digit] and [char::is_ascii_alphanumeric]. *)
Definition is_ascii_digit (a : ascii) : bool :=
  let n := N_of_ascii a in (48 <=? n)%N && (n <=? 57)%N.

Definition is_ascii_alphanumeric (a : ascii) : bool :=
  let n := N_of_ascii a in
  ((48 <=? n)%N && (n <=? 57)%N) || ((97 <=? n)%N && (n <=? 122)%N) || ((65 <=? n)%N && (n <=? 90)%N).

(** [str::to_ascii_lowercase]. *)
Definition to_lowercase (s : string) : string := str_map to_ascii_lowercase s.

(** [s.chars().all(p)] for an ASCII predicate. *)
Fixpoint str_all (p : ascii -> bool) (s : string) : bool :=
  match s with EmptyString => true | String a s => p a && str_all p s end.

(** ** UTF-8

    [std::str::from_utf8] accepts exactly the well-formed sequences. *)

Definition in_range (lo hi : Z) (b : byte) : bool := (lo <=? Z_of_byte b) && (Z_of_byte b <=? hi).

Fixpoint utf8_valid (l : bytes) : bool :=
  match l with
  | [] => true
  | a :: l1 =>
      if in_range 0 127 a then utf8_valid l1
      else match l1 with
      | [] => false
      | b :: l2 =>
          if in_range 194 223 a then in_range 128 191 b && utf8_valid l2
          else match l2 with
          | [] => false
          | c :: l3 =>
              let tail2 := in_range 128 191 c in
              if in_range 224 224 a then in_range 160 191 b && tail2 && utf8_valid l3
              else if in_range 237 237 a then in_range 128 159 b && tail2 && utf8_valid l3
              else if in_range 225 239 a then in_range 128 191 b && tail2 && utf8_valid l3
              else match l3 with
              | [] => false
              | d :: l4 =>
                  let tail3 := tail2 && in_range 128 191 d in
                  if in_range 240 240 a then in_range 144 191 b && tail3 && utf8_valid l4
                  else if in_range 241 243 a then in_range 128 191 b && tail3 && utf8_valid l4
                  else if in_range 244 244 a then in_range 128 143 b && tail3 && utf8_valid l4
                  else false
              end
          end
      end
  end.

(** [from_utf8(b).ok()]: the string of these bytes. *)
Definition from_utf8 (l : bytes) : option string :=
  if utf8_valid l then Some (String.string_of_list_byte l) else None.

Lemma from_utf8_as_bytes s : utf8_valid (as_bytes s) = true -> from_utf8 (as_bytes s) = Some s.
Proof.
  intros Hv. unfold from_utf8. rewrite Hv. unfold as_bytes.
  by rewrite String.string_of_list_byte_of_string.
Qed.

(** ** Lemmas *)

Lemma str_app_assoc (s t u : string) : (s +:+ t) +:+ u = s +:+ (t +:+ u).
Proof. induction s as [|a s IH]; [done|].
  change (String a ((s +:+ t) +:+ u) = String a (s +:+ (t +:+ u))). by rewrite IH. Qed.

Lemma str_app_cancel s t u : s +:+ t = s +:+ u -> t = u.
Proof.
  induction s as [|a s IH]; intros E; [exact E|].
  change (String a (s +:+ t) = String a (s +:+ u)) in E. injection E as E. by apply IH.
Qed.

Lemma split_once_app c s t :
  str_all (fun a => negb (Ascii.eqb a c)) s = true ->
  split_once c (s +:+ String c t) = Some (s, t).
Proof.
  induction s as [|a s IH]; intros H.
  - change (EmptyString +:+ String c t) with (String c t). cbn. by rewrite Ascii.eqb_refl.
  - change (String a s +:+ String c t) with (String a (s +:+ String c t)). cbn in *. apply andb_true_iff in H as [Ha Hs]. apply negb_true_iff in Ha. rewrite Ha. by rewrite IH.
Qed.

Lemma split_char_none c s :
  str_all (fun a => negb (Ascii.eqb a c)) s = true -> split_char c s = [s].
Proof.
  induction s as [|a s IH]; [done|]. cbn. intros [Ha Hs]%andb_true_iff.
  apply negb_true_iff in Ha. by rewrite Ha, IH.
Qed.

Lemma split_char_app c s t :
  str_all (fun a => negb (Ascii.eqb a c)) s = true ->
  split_char c (s +:+ String c t) = s :: split_char c t.
Proof.
  induction s as [|a s IH]; intros H.
  - change (EmptyString +:+ String c t) with (String c t). cbn. by rewrite Ascii.eqb_refl.
  - change (String a s +:+ String c t) with (String a (s +:+ String c t)). cbn in *.
    apply andb_true_iff in H as [Ha Hs]. apply negb_true_iff in Ha. by rewrite Ha, IH.
Qed.

Lemma str_all_app p s t : str_all p (s +:+ t) = str_all p s && str_all p t.
Proof. induction s as [|a s IH]; [done|]. change (String a s +:+ t) with (String a (s +:+ t)). cbn. by rewrite IH, andb_assoc. Qed.

Lemma str_all_impl (p q : ascii -> bool) s :
  (forall a, p a = true -> q a = true) -> str_all p s = true -> str_all q s = true.
Proof.
  intros Hpq. induction s as [|a s IH]; [done|]. cbn. rewrite !andb_true_iff. intros [Ha Hs]. split; auto.
Qed.

Lemma rsplit_once_app c s a b : rsplit_once c s = Some (a, b) -> s = a +:+ String c b.
Proof.
  revert a. induction s as [|x s IH]; [done|]. intros a. cbn. destruct (rsplit_once c s) as [[a' b']|] eqn:E.
  - intros [= <- <-]. by rewrite (IH a' eq_refl).
  - destruct (Ascii.eqb_spec x c) as [->|]; [|done]. by intros [= <- <-].
Qed.

Lemma split_char_all p c s :
  Forall (fun l => str_all p l = true) (split_char c s) -> str_all (fun a => p a || Ascii.eqb a c) s = true.
Proof.
  induction s as [|a s IH]; [done|]. cbn. destruct (Ascii.eqb_spec a c) as [->|].
  - intros [_ Hs]%list.Forall_cons. rewrite orb_true_r. by apply IH.
  - destruct (split_char c s) as [|l ls]; intros [Hl Hs]%list.Forall_cons; cbn in Hl;
      apply andb_true_iff in Hl as [Ha Hl]; rewrite Ha; cbn; apply IH; [done|by constructor].
Qed.

Lemma concat_cons_split c x l :
  str_all (fun a => negb (Ascii.eqb a c)) x = true ->
  Forall (fun s => str_all (fun a => negb (Ascii.eqb a c)) s = true) l ->
  split_char c (String.concat (String c "") (x :: l)) = x :: l.
Proof.
  revert x. induction l as [|y l IH]; intros x Hx Hl.
  - by apply split_char_none.
  - apply list.Forall_cons in Hl as [Hy Hl].
    change (String.concat (String c "") (x :: y :: l)) with (x +:+ String c (String.concat (String c "") (y :: l))).
    by rewrite split_char_app, IH.
Qed.

(** A number is printed with decimal digits. *)
Lemma to_string_digits z : 0 <= z -> str_all is_ascii_digit (to_string z) = true.
Proof.
  intros Hz. unfold to_string. destruct (Z.ltb_spec z 0); [lia|].
  unfold dec_of_N, NilZero.string_of_uint. destruct (N.to_uint (Z.to_N z)) as [|d|d|d|d|d|d|d|d|d|d];
    [done|..]; cbn; by induction d.
Qed.

Lemma to_string_inj x y : in_u64 x -> in_u64 y -> to_string x = to_string y -> x = y.
Proof.
  intros Hx Hy E. apply (f_equal parse_u64) in E. rewrite !parse_u64_to_string in E by done. by injection E.
Qed.
