(* ===== verification/Net.v ===== *)
(** * Network addresses

    The parser and printer of [std::net::IpAddr] as the sources use them, and the two
    places that judge an address: construct-federation/src/ssrf.rs, which decides what a
    server may dial, and [client_rate_bucket] of construct-rate-limit/src/lib.rs with
    [extract_client_ip] of messaging-service/src/sealed_ip.rs, which decide what one
    sender is. DNS resolution is a parameter. *)

From S2P Require Import Prelude Text.

Module Net.

(** ** [std::net] *)

(** Four octets. *)
Record Ipv4Addr := { oct0 : Z; oct1 : Z; oct2 : Z; oct3 : Z }.
(** Eight segments of sixteen bits. *)
Definition Ipv6Addr := list Z.

Inductive IpAddr := V4 (a : Ipv4Addr) | V6 (a : Ipv6Addr).

#[global] Instance Ipv4Addr_eq_dec : EqDecision Ipv4Addr.
Proof. solve_decision. Defined.

Definition octet (z : Z) : Prop := 0 <= z < 256.
Definition v4_ok (a : Ipv4Addr) : Prop := octet (oct0 a) /\ octet (oct1 a) /\ octet (oct2 a) /\ octet (oct3 a).
Definition v6_ok (a : Ipv6Addr) : Prop := length a = 8%nat /\ Forall (fun s => 0 <= s < 65536) a.
Definition ip_ok (a : IpAddr) : Prop := match a with V4 a => v4_ok a | V6 a => v6_ok a end.

(** [char::to_digit]. *)
Definition to_digit (radix : Z) (a : ascii) : option Z :=
  let n := Z.of_N (N_of_ascii a) in
  let d := if (48 <=? n) && (n <=? 57) then n - 48
           else if (97 <=? n) && (n <=? 122) then n - 87
           else if (65 <=? n) && (n <=? 90) then n - 55 else 36 in
  if d <? radix then Some d else None.

(** The digits at the front of the text: their value, their number, the rest. *)
Fixpoint read_digits (radix acc : Z) (count : nat) (s : string) : Z * nat * string :=
  match s with
  | String a rest =>
      match to_digit radix a with
      | Some d => read_digits radix (acc * radix + d) (S count) rest
      | None => (acc, count, s)
      end
  | EmptyString => (acc, count, s)
  end.

Definition peek_is (c : ascii) (s : string) : bool :=
  match s with String a _ => Ascii.eqb a c | EmptyString => false end.

(** [Parser::read_number]: at most [max_digits] digits, a value up to [max]. *)
Definition read_number (radix max : Z) (max_digits : nat) (allow_zero_prefix : bool) (s : string)
    : option (Z * string) :=
  let '(v, n, rest) := read_digits radix 0 0 s in
  if (max_digits <? n)%nat || (n =? 0)%nat then None
  else if negb allow_zero_prefix && peek_is "0" s && (1 <? n)%nat then None
  else if v <=? max then Some (v, rest) else None.

Definition read_char (c : ascii) (s : string) : option string :=
  match s with String a rest => if Ascii.eqb a c then Some rest else None | EmptyString => None end.

Definition read_octet (s : string) : option (Z * string) := read_number 10 255 3 false s.

Definition read_ipv4_addr (s : string) : option (Ipv4Addr * string) :=
  let* p := read_octet s in
  let* s1 := read_char "." p.2 in
  let* q := read_octet s1 in
  let* s2 := read_char "." q.2 in
  let* t := read_octet s2 in
  let* s3 := read_char "." t.2 in
  let* u := read_octet s3 in
  Some ({| oct0 := p.1; oct1 := q.1; oct2 := t.1; oct3 := u.1 |}, u.2).

(** [read_separator]: the colon in front of every group but the first. *)
Definition after_colon (first : bool) (s : string) : option string :=
  if first then Some s else read_char ":" s.

(** [read_groups]: up to [limit] groups, the last two possibly as an IPv4 address; the
    groups, whether such an address was read, the rest. *)
Fixpoint read_groups (limit : nat) (first : bool) (s : string) : list Z * bool * string :=
  match limit with
  | O => ([], false, s)
  | S n =>
      let group :=
        match (let* s1 := after_colon first s in read_number 16 65535 4 true s1) with
        | Some (g, rest) => let '(gs, v4, rest') := read_groups n false rest in (g :: gs, v4, rest')
        | None => ([], false, s)
        end in
      match n, (let* s1 := after_colon first s in read_ipv4_addr s1) with
      | S _, Some (a, rest) => ([oct0 a * 256 + oct1 a; oct2 a * 256 + oct3 a], true, rest)
      | _, _ => group
      end
  end.

Definition read_ipv6_addr (s : string) : option (Ipv6Addr * string) :=
  let '(hd, hd_v4, s1) := read_groups 8 true s in
  if (length hd =? 8)%nat then Some (hd, s1)
  else if hd_v4 then None
  else
    let* s2 := read_char ":" s1 in
    let* s3 := read_char ":" s2 in
    let '(tl, _, s4) := read_groups (8 - (length hd + 1)) true s3 in
    Some (hd ++ repeat 0 (8 - length hd - length tl) ++ tl, s4).

(** [str::parse::<IpAddr>]. *)
Definition parse_ip (s : string) : option IpAddr :=
  let* p := match read_ipv4_addr s with
            | Some (a, rest) => Some (V4 a, rest)
            | None => let* p := read_ipv6_addr s in Some (V6 p.1, p.2)
            end in
  if str_is_empty p.2 then Some p.1 else None.

Definition seg (i : nat) (a : Ipv6Addr) : Z := nth i a 0.

Definition to_ipv4_mapped (a : Ipv6Addr) : option Ipv4Addr :=
  match a with
  | [a0; a1; a2; a3; a4; a5; x; y] =>
      if (a0 =? 0) && (a1 =? 0) && (a2 =? 0) && (a3 =? 0) && (a4 =? 0) && (a5 =? 65535)
      then Some {| oct0 := x / 256; oct1 := x mod 256; oct2 := y / 256; oct3 := y mod 256 |}
      else None
  | _ => None
  end.

Definition show_v4 (a : Ipv4Addr) : string :=
  to_string (oct0 a) +:+ "." +:+ to_string (oct1 a) +:+ "." +:+ to_string (oct2 a) +:+ "." +:+ to_string (oct3 a).

Definition hex_char (d : Z) : ascii := ascii_of_N (Z.to_N (if d <? 10 then 48 + d else 87 + d)).

(** [{:x}] of a segment. *)
Definition show_hex (z : Z) : string :=
  let d i := String (hex_char (z / 16 ^ i mod 16)) in
  let s0 := d 0 "" in
  let s1 := if z <? 16 then s0 else d 1 s0 in
  let s2 := if z <? 256 then s1 else d 2 s1 in
  if z <? 4096 then s2 else d 3 s2.

Definition fmt_subslice (l : list Z) : string := String.concat ":" (map show_hex l).

(** The longest run of zero segments: its start and length. *)
Fixpoint longest_zeroes (i : nat) (cur best : nat * nat) (l : list Z) : nat * nat :=
  match l with
  | [] => best
  | s :: rest =>
      if s =? 0 then
        let cur' := ((if (cur.2 =? 0)%nat then i else cur.1), S cur.2) in
        longest_zeroes (S i) cur' (if (best.2 <? cur'.2)%nat then cur' else best) rest
      else longest_zeroes (S i) (0%nat, 0%nat) best rest
  end.

Definition show_v6 (a : Ipv6Addr) : string :=
  match to_ipv4_mapped a with
  | Some v4 => "::ffff:" +:+ show_v4 v4
  | None =>
      let '(start, len) := longest_zeroes 0 (0%nat, 0%nat) (0%nat, 0%nat) a in
      if (1 <? len)%nat
      then fmt_subslice (take start a) +:+ "::" +:+ fmt_subslice (drop (start + len) a)
      else fmt_subslice a
  end.

Example parse_v4_octal : parse_ip "127.0.0.01" = None. Proof. reflexivity. Qed.
Example parse_v6_mapped :
  (let* a := parse_ip "::ffff:203.0.113.9" in match a with V6 s => to_ipv4_mapped s | _ => None end)
  = Some {| oct0 := 203; oct1 := 0; oct2 := 113; oct3 := 9 |}.
Proof. reflexivity. Qed.
Example show_parse_v6 :
  (let* a := parse_ip "2001:db8:85a3:8d3::1" in match a with V6 s => Some (show_v6 s) | _ => None end)
  = Some "2001:db8:85a3:8d3::1".
Proof. vm_compute. reflexivity. Qed.

(** ** Which addresses may be dialled *)

Definition is_private (a : Ipv4Addr) : bool :=
  (oct0 a =? 10) || ((oct0 a =? 172) && (16 <=? oct1 a) && (oct1 a <=? 31))
  || ((oct0 a =? 192) && (oct1 a =? 168)).
Definition is_loopback (a : Ipv4Addr) : bool := oct0 a =? 127.
Definition is_link_local (a : Ipv4Addr) : bool := (oct0 a =? 169) && (oct1 a =? 254).
Definition is_broadcast (a : Ipv4Addr) : bool :=
  (oct0 a =? 255) && (oct1 a =? 255) && (oct2 a =? 255) && (oct3 a =? 255).
Definition is_documentation (a : Ipv4Addr) : bool :=
  ((oct0 a =? 192) && (oct1 a =? 0) && (oct2 a =? 2)) || ((oct0 a =? 198) && (oct1 a =? 51) && (oct2 a =? 100))
  || ((oct0 a =? 203) && (oct1 a =? 0) && (oct2 a =? 113)).
Definition is_unspecified (a : Ipv4Addr) : bool :=
  (oct0 a =? 0) && (oct1 a =? 0) && (oct2 a =? 0) && (oct3 a =? 0).
Definition is_multicast (a : Ipv4Addr) : bool := (224 <=? oct0 a) && (oct0 a <=? 239).

Definition is_public_v4 (v4 : Ipv4Addr) : bool :=
  if is_private v4 || is_loopback v4 || is_link_local v4 || is_broadcast v4 || is_documentation v4
     || is_unspecified v4 || is_multicast v4 then false
  else if (oct0 v4 =? 100) && (Z.land (oct1 v4) 192 =? 64) then false
  else if (oct0 v4 =? 198) && ((oct1 v4 =? 18) || (oct1 v4 =? 19)) then false
  else if (oct0 v4 =? 192) && (oct1 v4 =? 0) && (oct2 v4 =? 0) then false
  else true.

Definition is_loopback_v6 (a : Ipv6Addr) : bool := bool_decide (a = [0; 0; 0; 0; 0; 0; 0; 1]).
Definition is_unspecified_v6 (a : Ipv6Addr) : bool := bool_decide (a = [0; 0; 0; 0; 0; 0; 0; 0]).
Definition is_multicast_v6 (a : Ipv6Addr) : bool := Z.land (seg 0 a) 65280 =? 65280.

Definition is_public_v6 (v6 : Ipv6Addr) : bool :=
  if is_loopback_v6 v6 || is_unspecified_v6 v6 || is_multicast_v6 v6 then false
  else if Z.land (seg 0 v6) 65472 =? 65152 then false
  else if Z.land (seg 0 v6) 65024 =? 64512 then false
  else match to_ipv4_mapped v6 with
       | Some v4 => is_public_v4 v4
       | None =>
           if (seg 0 v6 =? 256) && (seg 1 v6 =? 0) && (seg 2 v6 =? 0) && (seg 3 v6 =? 0) then false else true
       end.

Definition is_public_ip (ip : IpAddr) : bool :=
  match ip with V4 v4 => is_public_v4 v4 | V6 v6 => is_public_v6 v6 end.

(** *** The same, by address blocks

    An address as a number, and a block as a prefix of so many bits. *)

Definition v4_value (a : Ipv4Addr) : Z := ((oct0 a * 256 + oct1 a) * 256 + oct2 a) * 256 + oct3 a.
Definition v6_value (a : Ipv6Addr) : Z := fold_left (fun acc s => acc * 65536 + s) a 0.

Definition in_block (bits : Z) (x : Z) (b : Z * Z) : bool :=
  x / 2 ^ (bits - b.2) =? b.1 / 2 ^ (bits - b.2).

Definition block (text : string) (len : Z) : Z * Z :=
  (match parse_ip text with Some (V4 a) => v4_value a | Some (V6 a) => v6_value a | None => 0 end, len).

Definition reserved_v4 : list (Z * Z) :=
  [block "10.0.0.0" 8; block "172.16.0.0" 12; block "192.168.0.0" 16; block "127.0.0.0" 8;
   block "169.254.0.0" 16; block "255.255.255.255" 32; block "192.0.2.0" 24; block "198.51.100.0" 24;
   block "203.0.113.0" 24; block "0.0.0.0" 32; block "224.0.0.0" 4; block "100.64.0.0" 10;
   block "198.18.0.0" 15; block "192.0.0.0" 24].

Definition reserved_v6 : list (Z * Z) :=
  [block "::1" 128; block "::" 128; block "ff00::" 8; block "fe80::" 10; block "fc00::" 7; block "100::" 64].

Definition mapped_v6 : Z * Z := block "::ffff:0.0.0.0" 96.

(** An address no server should be made to dial. *)
Definition reserved (ip : IpAddr) : bool :=
  match ip with
  | V4 a => existsb (in_block 32 (v4_value a)) reserved_v4
  | V6 a =>
      existsb (in_block 128 (v6_value a)) reserved_v6
      || (in_block 128 (v6_value a) mapped_v6 && existsb (in_block 32 (v6_value a mod 2 ^ 32)) reserved_v4)
  end.

(** The bits of a number below [2 ^ n] above bit [k]. *)
Lemma high_bits n k x :
  0 <= k -> 0 <= n -> 0 <= x < 2 ^ n -> Z.land x (Z.ldiff (Z.ones n) (Z.ones k)) = x / 2 ^ k * 2 ^ k.
Proof.
  intros Hk Hn Hx. rewrite !Z.ldiff_land, Z.land_assoc, Z.land_ones, Z.mod_small by lia.
  by rewrite <- Z.ldiff_land, Z.ldiff_ones_r, Z.shiftl_mul_pow2, Z.shiftr_div_pow2 by lia.
Qed.

Lemma high_bits_test n k x m c :
  0 <= k -> 0 <= n -> 0 <= x < 2 ^ n -> m = Z.ldiff (Z.ones n) (Z.ones k) ->
  (Z.land x m =? c * 2 ^ k) = (x / 2 ^ k =? c).
Proof.
  intros Hk Hn Hx ->. rewrite high_bits by done. pose proof (Z.pow_pos_nonneg 2 k ltac:(lia) Hk).
  destruct (Z.eqb_spec (x / 2 ^ k) c) as [->|Hne]; [apply Z.eqb_refl|]. apply Z.eqb_neq. nia.
Qed.

Lemma land_cgnat x : octet x -> (Z.land x 192 =? 64) = (x / 64 =? 1).
Proof. intros Hx. by apply (high_bits_test 8 6 x 192 1). Qed.

Lemma land_multicast x : 0 <= x < 65536 -> (Z.land x 65280 =? 65280) = (x / 256 =? 255).
Proof. intros Hx. by apply (high_bits_test 16 8 x 65280 255). Qed.

Lemma land_link_local x : 0 <= x < 65536 -> (Z.land x 65472 =? 65152) = (x / 64 =? 1018).
Proof. intros Hx. by apply (high_bits_test 16 6 x 65472 1018). Qed.

Lemma land_unique_local x : 0 <= x < 65536 -> (Z.land x 65024 =? 64512) = (x / 512 =? 126).
Proof. intros Hx. by apply (high_bits_test 16 9 x 65024 126). Qed.

(** A test that an address is in a block, by the quotient the block compares. *)
Lemma in_block_quotient bits x base len q c :
  x / 2 ^ (bits - len) = q -> base / 2 ^ (bits - len) = c -> in_block bits x (base, len) = (q =? c).
Proof. intros <- <-. reflexivity. Qed.

Lemma v4_quotients a :
  v4_ok a ->
  let x := v4_value a in
  x / 2 ^ (32 - 4) = oct0 a / 16 /\ x / 2 ^ (32 - 8) = oct0 a /\ x / 2 ^ (32 - 10) = oct0 a * 4 + oct1 a / 64 /\
  x / 2 ^ (32 - 12) = oct0 a * 16 + oct1 a / 16 /\ x / 2 ^ (32 - 15) = oct0 a * 128 + oct1 a / 2 /\
  x / 2 ^ (32 - 16) = oct0 a * 256 + oct1 a /\ x / 2 ^ (32 - 24) = (oct0 a * 256 + oct1 a) * 256 + oct2 a /\
  x / 2 ^ (32 - 32) = x.
Proof.
  destruct a as [a b c d]. unfold v4_ok, octet, v4_value. cbn [oct0 oct1 oct2 oct3]. intros (Ha & Hb & Hc & Hd).
  cbn -[Z.div Z.mul Z.add]. split_and!; Z.div_mod_to_equations; lia.
Qed.

(** Two tests that hold of the same numbers. *)
Lemma block_test (s t : bool) : (s = true <-> t = true) -> s = t.
Proof. apply eq_true_iff_eq. Qed.

Ltac block_arith :=
  repeat match goal with
         | |- context [?x / 2 ^ (?b - ?n)] => let c := eval vm_compute in (x / 2 ^ (b - n)) in change (x / 2 ^ (b - n)) with c
         end;
  Z.div_mod_to_equations; lia.

Lemma if_negb_andb (b c : bool) : (if b then false else c) = negb b && c.
Proof. by destruct b. Qed.

Lemma public_v4_exact a :
  v4_ok a -> is_public_v4 a = negb (existsb (in_block 32 (v4_value a)) reserved_v4).
Proof.
  intros Hok. destruct (v4_quotients a Hok) as (H4 & H8 & H10 & H12 & H15 & H16 & H24 & H32).
  let l := eval vm_compute in reserved_v4 in change reserved_v4 with l. cbn [existsb].
  rewrite !(in_block_quotient _ _ _ _ _ _ H4 eq_refl), !(in_block_quotient _ _ _ _ _ _ H8 eq_refl),
    !(in_block_quotient _ _ _ _ _ _ H10 eq_refl), !(in_block_quotient _ _ _ _ _ _ H12 eq_refl),
    !(in_block_quotient _ _ _ _ _ _ H15 eq_refl), !(in_block_quotient _ _ _ _ _ _ H16 eq_refl),
    !(in_block_quotient _ _ _ _ _ _ H24 eq_refl), !(in_block_quotient _ _ _ _ _ _ H32 eq_refl). clear H4 H8 H10 H12 H15 H16 H24 H32.
  destruct a as [a b c d]. unfold v4_ok, octet, v4_value in *. cbn [oct0 oct1 oct2 oct3] in *.
  unfold is_public_v4, is_private, is_loopback, is_link_local, is_broadcast, is_documentation,
    is_unspecified, is_multicast. cbn [oct0 oct1 oct2 oct3]. destruct Hok as (Ha & Hb & Hc & Hd).
  rewrite land_cgnat by done.
  rewrite (block_test (a * 16 + b / 16 =? _) ((a =? 172) && (16 <=? b) && (b <=? 31))) by block_arith.
  rewrite (block_test (a * 256 + b =? 3232235520 / _) ((a =? 192) && (b =? 168))) by block_arith.
  rewrite (block_test (a * 256 + b =? 2851995648 / _) ((a =? 169) && (b =? 254))) by block_arith.
  rewrite (block_test (_ =? 4294967295 / _) ((a =? 255) && (b =? 255) && (c =? 255) && (d =? 255))) by block_arith.
  rewrite (block_test (_ =? 3221225984 / _) ((a =? 192) && (b =? 0) && (c =? 2))) by block_arith.
  rewrite (block_test (_ =? 3325256704 / _) ((a =? 198) && (b =? 51) && (c =? 100))) by block_arith.
  rewrite (block_test (_ =? 3405803776 / _) ((a =? 203) && (b =? 0) && (c =? 113))) by block_arith.
  rewrite (block_test ((_ * 256 + d) =? 0 / _) ((a =? 0) && (b =? 0) && (c =? 0) && (d =? 0))) by block_arith.
  rewrite (block_test (a / 16 =? _) ((224 <=? a) && (a <=? 239))) by block_arith.
  rewrite (block_test (a * 4 + b / 64 =? _) ((a =? 100) && (b / 64 =? 1))) by block_arith.
  rewrite (block_test (a * 128 + b / 2 =? _) ((a =? 198) && ((b =? 18) || (b =? 19)))) by block_arith.
  rewrite (block_test (_ =? 3221225472 / _) ((a =? 192) && (b =? 0) && (c =? 0))) by block_arith.
  change (167772160 / 2 ^ (32 - 8)) with 10. change (2130706432 / 2 ^ (32 - 8)) with 127.
  by rewrite !if_negb_andb, !negb_orb, !andb_true_r, !andb_assoc.
Qed.

Lemma list8 {A} (l : list A) :
  length l = 8%nat -> exists a b c d e f g h, l = [a; b; c; d; e; f; g; h].
Proof. do 9 (destruct l as [|? l]; try done). intros _. by repeat eexists. Qed.

(** The segments of an address as the quotients the blocks compare. *)
Lemma v6_quotients a b c d e f g h :
  v6_ok [a; b; c; d; e; f; g; h] ->
  let x := v6_value [a; b; c; d; e; f; g; h] in
  x / 2 ^ (128 - 7) = a / 512 /\ x / 2 ^ (128 - 8) = a / 256 /\ x / 2 ^ (128 - 10) = a / 64 /\
  x / 2 ^ (128 - 64) = ((a * 65536 + b) * 65536 + c) * 65536 + d /\
  x / 2 ^ (128 - 96) = ((((a * 65536 + b) * 65536 + c) * 65536 + d) * 65536 + e) * 65536 + f /\
  x / 2 ^ (128 - 128) = x /\ x mod 2 ^ 32 = g * 65536 + h.
Proof.
  intros [_ Hok]. repeat (apply list.Forall_cons in Hok as [? Hok]). clear Hok.
  unfold v6_value. cbn -[Z.div Z.modulo Z.mul Z.add]. split_and!; Z.div_mod_to_equations; lia.
Qed.

Lemma mapped_v4 g h :
  0 <= g < 65536 -> 0 <= h < 65536 ->
  let a := {| oct0 := g / 256; oct1 := g mod 256; oct2 := h / 256; oct3 := h mod 256 |} in
  v4_ok a /\ v4_value a = g * 65536 + h.
Proof.
  intros Hg Hh. unfold v4_ok, octet, v4_value. cbn [oct0 oct1 oct2 oct3].
  split; [split_and!|]; Z.div_mod_to_equations; lia.
Qed.

Lemma v6_small l k :
  v6_ok l -> 0 <= k < 65536 -> bool_decide (l = [0; 0; 0; 0; 0; 0; 0; k]) = (v6_value l =? k).
Proof.
  intros Hok Hk. destruct (list8 l (proj1 Hok)) as (s0 & s1 & s2 & s3 & s4 & s5 & s6 & s7 & ->).
  destruct Hok as [_ Hok]. repeat (apply list.Forall_cons in Hok as [? Hok]). clear Hok.
  apply block_test. rewrite bool_decide_eq_true. unfold v6_value. cbn [fold_left]. split.
  - intros [= -> -> -> -> -> -> -> ->]. lia.
  - intros Hx. assert (s0 = 0 /\ s1 = 0 /\ s2 = 0 /\ s3 = 0 /\ s4 = 0 /\ s5 = 0 /\ s6 = 0 /\ s7 = k) by lia.
    by destruct_and?; subst.
Qed.

Lemma public_v6_exact a : v6_ok a -> is_public_v6 a = negb (reserved (V6 a)).
Proof.
  intros Hok. destruct (list8 a (proj1 Hok)) as (s0 & s1 & s2 & s3 & s4 & s5 & s6 & s7 & ->).
  destruct (v6_quotients _ _ _ _ _ _ _ _ Hok) as (H7 & H8 & H10 & H64 & H96 & H128 & Hlow).
  cbn [reserved]. rewrite Hlow. let l := eval vm_compute in reserved_v6 in change reserved_v6 with l.
  let l := eval vm_compute in mapped_v6 in change mapped_v6 with l. cbn [existsb].
  rewrite !(in_block_quotient _ _ _ _ _ _ H7 eq_refl), !(in_block_quotient _ _ _ _ _ _ H8 eq_refl),
    !(in_block_quotient _ _ _ _ _ _ H10 eq_refl), !(in_block_quotient _ _ _ _ _ _ H64 eq_refl),
    !(in_block_quotient _ _ _ _ _ _ H96 eq_refl), !(in_block_quotient _ _ _ _ _ _ H128 eq_refl).
  clear H7 H8 H10 H64 H96 H128 Hlow. pose proof Hok as [_ Hs]. repeat (apply list.Forall_cons in Hs as [? Hs]). clear Hs.
  unfold is_public_v6, is_multicast_v6, is_loopback_v6, is_unspecified_v6, seg. cbn [nth].
  rewrite land_multicast, land_link_local, land_unique_local by done.
  change (338953138925153547590470800371487866880 / _) with 255. change (338288524927261089654018896841347694592 / _) with 1018.
  change (334965454937798799971759379190646833152 / _) with 126. change (1 / 2 ^ (128 - 128)) with 1. change (0 / 2 ^ (128 - 128)) with 0.
  rewrite !v6_small by (done || lia). unfold to_ipv4_mapped.
  set (loop := v6_value _ =? 1). set (zero := v6_value _ =? 0).
  rewrite (block_test (_ * 65536 + s3 =? _) ((s0 =? 256) && (s1 =? 0) && (s2 =? 0) && (s3 =? 0))) by block_arith.
  rewrite (block_test (_ * 65536 + s5 =? _) ((s0 =? 0) && (s1 =? 0) && (s2 =? 0) && (s3 =? 0) && (s4 =? 0) && (s5 =? 65535)))
    by block_arith.
  destruct (mapped_v4 s6 s7) as [Hv4 <-]; [done..|]. rewrite <- (negb_involutive (existsb _ _)), <- public_v4_exact by done.
  destruct ((s0 =? 0) && (s1 =? 0) && (s2 =? 0) && (s3 =? 0) && (s4 =? 0) && (s5 =? 65535)) eqn:Hm.
  - assert (s0 = 0) as -> by lia. cbn [Z.eqb andb]. cbn. by destruct loop, zero, (is_public_v4 _).
  - clearbody loop zero. clear Hm. by destruct loop, zero, (s0 / 256 =? 255), (s0 / 64 =? 1018), (s0 / 512 =? 126),
      ((s0 =? 256) && (s1 =? 0) && (s2 =? 0) && (s3 =? 0)).
Qed.

Lemma public_reserved ip : ip_ok ip -> is_public_ip ip = negb (reserved ip).
Proof. destruct ip; [apply public_v4_exact|apply public_v6_exact]. Qed.


(** ** Which names may be dialled *)

(** [str::trim_end_matches('.')]. *)
Fixpoint trim_end_dots (s : string) : string :=
  match s with
  | EmptyString => EmptyString
  | String a rest =>
      match trim_end_dots rest with
      | EmptyString => if Ascii.eqb a "." then EmptyString else String a EmptyString
      | t => String a t
      end
  end.

(** [str::ends_with]. *)
Fixpoint ends_with (suffix s : string) : bool :=
  String.eqb s suffix || match s with EmptyString => false | String _ rest => ends_with suffix rest end.

Definition parse_u16 (s : string) : option Z :=
  let* v := parse_u64 s in if v <=? 65535 then Some v else None.

Inductive HostError :=
| EmptyOrTooLong | NotBareHost | InvalidPort | EmptyHost | IpLiteral | LabelLength | LabelCharacters
| LabelHyphen | SpecialUse | ResolutionFailed | NonPublic (ip : IpAddr) | NoAddresses.

Definition check_label (label : string) : result unit HostError :=
  if str_is_empty label || (63 <? Z.of_nat (String.length label)) then Err LabelLength
  else if negb (str_all (fun c => is_ascii_alphanumeric c || Ascii.eqb c "-") label) then Err LabelCharacters
  else if String.prefix "-" label || ends_with "-" label then Err LabelHyphen
  else Ok tt.

Fixpoint check_labels (labels : list string) : result unit HostError :=
  match labels with
  | [] => Ok tt
  | l :: rest => let? _ := check_label l in check_labels rest
  end.

Definition special_use (host : string) : bool :=
  String.eqb host "localhost"
  || existsb (fun suffix => ends_with suffix host)
       [".localhost"; ".local"; ".internal"; ".intranet"; ".lan"; ".home"; ".corp"]
  || String.eqb host "metadata.google.internal" || ends_with ".metadata.google.internal" host.

(** The host part, in front of an optional port. *)
Definition host_part (lower : string) : result string HostError :=
  match rsplit_once ":" lower with
  | Some (h, p) =>
      if str_all is_ascii_digit p && negb (str_is_empty p) && (Z.of_nat (String.length p) <=? 5) then
        let? port := ok_or (parse_u16 p) InvalidPort in
        if port =? 0 then Err InvalidPort else Ok h
      else Ok lower
  | None => Ok lower
  end.

Definition validate_federation_hostname (domain : string) : result unit HostError :=
  let raw := trim domain in
  if str_is_empty raw || (253 <? Z.of_nat (String.length raw)) then Err EmptyOrTooLong
  else
    let lower := to_lowercase raw in
    if existsb (fun needle => str_contains needle lower)
         ["://"; "/"; "\"; "@"; "?"; "#"; " "; String "009" ""; "%"] then Err NotBareHost
    else
      let? h := host_part lower in
      let host := trim_end_dots h in
      if str_is_empty host then Err EmptyHost
      else if bool_decide (is_Some (parse_ip host)) || String.prefix "[" host then Err IpLiteral
      else
        let? _ := check_labels (split_char "." host) in
        if special_use host then Err SpecialUse else Ok tt.

Definition split_host_port (domain : string) : string * Z :=
  match rsplit_once ":" domain with
  | Some (h, p) =>
      if negb (str_is_empty h) && str_all is_ascii_digit p then
        match parse_u16 p with
        | Some port => if port =? 0 then (domain, 443) else (h, port)
        | None => (domain, 443)
        end
      else (domain, 443)
  | None => (domain, 443)
  end.

Section Resolution.
(** [to_socket_addrs] of a host and a port. *)
Context (to_socket_addrs : string -> Z -> option (list IpAddr)).

Definition assert_hostname_resolves_public (domain : string) : result unit HostError :=
  let? _ := validate_federation_hostname domain in
  let lower := to_lowercase (trim domain) in
  let '(h, port) := split_host_port lower in
  let? addrs := ok_or (to_socket_addrs (trim_end_dots h) port) ResolutionFailed in
  match List.find (fun ip => negb (is_public_ip ip)) addrs with
  | Some ip => Err (NonPublic ip)
  | None => match addrs with [] => Err NoAddresses | _ => Ok tt end
  end.

End Resolution.

(** *** The name that is checked is the name that is resolved *)

Lemma check_labels_ok l :
  check_labels l = Ok tt ->
  Forall (fun x => str_is_empty x = false /\ Z.of_nat (String.length x) <= 63 /\
    str_all (fun c => is_ascii_alphanumeric c || Ascii.eqb c "-") x = true /\
    String.prefix "-" x = false /\ ends_with "-" x = false) l.
Proof.
  induction l as [|x l IH]; [constructor|]. cbn. unfold check_label.
  destruct (str_is_empty x) eqn:He; [done|]. destruct (Z.ltb_spec 63 (Z.of_nat (String.length x))); [done|]. cbn.
  destruct (str_all _ x) eqn:Ha; [|done]. cbn -[String.prefix ends_with]. destruct (String.prefix "-" x) eqn:Hp; [done|].
  destruct (ends_with "-" x) eqn:Hw; [done|]. cbn. intros Hl. constructor; [|by apply IH]. split_and!; by auto.
Qed.

(** What is trimmed from the end are dots. *)
Lemma trim_end_dots_all p s :
  p "."%char = true -> str_all p (trim_end_dots s) = true -> str_all p s = true.
Proof.
  intros Hdot. induction s as [|a s IH]; [done|]. cbn. destruct (trim_end_dots s) as [|b t].
  - destruct (Ascii.eqb_spec a ".") as [->|]; cbn; intros Hs; rewrite (IH eq_refl).
    + by rewrite Hdot.
    + by rewrite andb_true_r in Hs |- *.
  - intros [Ha Hs]%andb_true_iff. by rewrite Ha, (IH Hs).
Qed.

Lemma parse_u16_pos p port : parse_u16 p = Some port -> str_all is_ascii_digit p = true -> port <> 0 -> 0 < port <= 65535.
Proof.
  unfold parse_u16, parse_u64. intros E Hd Hn.
  assert (match p with String "+" rest => rest | _ => p end = p) as Hp.
  { destruct p as [|a p]; [done|]. cbn in Hd. apply andb_true_iff in Hd as [Ha _]. by destruct a as [[] [] [] [] [] [] [] []]. }
  rewrite Hp in E. destruct (parse_digits p) as [v|] eqn:Hv; [|done]. apply parse_digits_nonneg in Hv. cbn in E.
  destruct (v <=? u64_max); [|done]. cbn in E. destruct (Z.leb_spec v 65535); [|done]. injection E as <-. lia.
Qed.

Lemma labels_no_colon h : check_labels (split_char "." (trim_end_dots h)) = Ok tt -> rsplit_once ":" h = None.
Proof.
  intros Hl. destruct (rsplit_once ":" h) as [[a b]|] eqn:E; [|done]. exfalso. apply rsplit_once_app in E.
  assert (str_all (fun c => (is_ascii_alphanumeric c || Ascii.eqb c "-") || Ascii.eqb c ".") h = true) as Ha.
  { apply trim_end_dots_all; [done|]. apply split_char_all. eapply list.Forall_impl; [by apply check_labels_ok|]. intros x Hx. apply Hx. }
  rewrite E, str_all_app in Ha. cbn in Ha. by rewrite andb_false_r in Ha.
Qed.

(** Both functions find the same host in a name that passes the checks. *)
Lemma host_part_agrees lower h :
  host_part lower = Ok h -> check_labels (split_char "." (trim_end_dots h)) = Ok tt -> h <> "" ->
  exists port, split_host_port lower = (h, port) /\ 0 < port <= 65535.
Proof.
  unfold host_part, split_host_port. intros E Hl Hne.
  destruct (rsplit_once ":" lower) as [[h' p]|] eqn:Er; [|injection E as <-; by exists 443].
  destruct (str_all is_ascii_digit p) eqn:Hd; cbn in E; [|injection E as <-; by rewrite (labels_no_colon _ Hl) in Er].
  destruct (negb (str_is_empty p) && _); [|injection E as <-; by rewrite (labels_no_colon _ Hl) in Er].
  destruct (parse_u16 p) as [port|] eqn:Hp; [|done]. cbn in E. destruct (Z.eqb_spec port 0); [done|]. injection E as <-.
  destruct (str_is_empty h') eqn:He; [by apply str_is_empty_spec in He|]. cbn. exists port. split; [done|]. by eapply parse_u16_pos.
Qed.

(** C24: A domain that passes the guard leads nowhere but to public addresses. The host
    that is resolved is the host whose labels were checked: letters, digits and inner
    hyphens only, no address literal and no special-use name; it resolves, to addresses
    of which none is in a reserved block; the port is a port. *)
Theorem ssrf_guard to_socket_addrs domain :
  assert_hostname_resolves_public to_socket_addrs domain = Ok tt ->
  exists host port addrs,
    split_host_port (to_lowercase (trim domain)) = (host, port) /\ 0 < port <= 65535 /\
    to_socket_addrs (trim_end_dots host) port = Some addrs /\ addrs <> [] /\
    (forall ip, ip ∈ addrs -> ip_ok ip -> reserved ip = false) /\
    parse_ip (trim_end_dots host) = None /\ special_use (trim_end_dots host) = false /\
    Forall (fun l => str_is_empty l = false /\ Z.of_nat (String.length l) <= 63 /\
      str_all (fun c => is_ascii_alphanumeric c || Ascii.eqb c "-") l = true /\
      String.prefix "-" l = false /\ ends_with "-" l = false) (split_char "." (trim_end_dots host)).
Proof.
  unfold assert_hostname_resolves_public, validate_federation_hostname. intros E.
  destruct (str_is_empty (trim domain) || _); [done|]. destruct (existsb _ _); [done|].
  destruct (host_part _) as [h|] eqn:Hh; [|done]. cbn in E.
  destruct (str_is_empty (trim_end_dots h)) eqn:He; [done|].
  destruct (parse_ip (trim_end_dots h)) eqn:Hip; [by rewrite bool_decide_true in E|]. rewrite bool_decide_false in E by (by intros []).
  destruct (String.prefix "[" _); [done|]. cbn in E. destruct (check_labels _) as [[]|] eqn:Hl; [|done]. cbn in E.
  destruct (special_use _) eqn:Hs; [done|]. cbn in E.
  destruct (host_part_agrees _ _ Hh Hl) as (port & Hsp & Hport); [by intros ->|]. rewrite Hsp in E.
  destruct (to_socket_addrs _ _) as [addrs|] eqn:Hr; [|done]. cbn in E.
  destruct (List.find _ addrs) eqn:Hf; [done|]. exists h, port, addrs.
  split_and!; try done; try lia; [by intros ->| |by apply check_labels_ok].
  intros ip Hin Hok. rewrite <- (negb_involutive (reserved ip)), <- (public_reserved ip Hok).
  apply (find_none _ _ Hf). by apply list_elem_of_In.
Qed.

Example accepts_public : validate_federation_hostname "a.b.Example.org:8443" = Ok tt. Proof. reflexivity. Qed.
Example rejects_metadata : validate_federation_hostname "169.254.169.254" = Err IpLiteral. Proof. reflexivity. Qed.
Example rejects_internal : validate_federation_hostname "svc.internal" = Err SpecialUse. Proof. reflexivity. Qed.

(** ** Which addresses are one sender *)

(** A bucket of the per-address limits: an IPv4 address, or the first 64 bits of another. *)
Definition rate_bucket (ip : IpAddr) : string :=
  match ip with
  | V4 v4 => show_v4 v4
  | V6 v6 =>
      match to_ipv4_mapped v6 with
      | Some v4 => show_v4 v4
      | None => show_v6 (take 4 v6 ++ [0; 0; 0; 0]) +:+ "/64"
      end
  end.

Definition client_rate_bucket (client_ip : string) : string :=
  let raw := trim client_ip in
  if str_is_empty raw then "unknown"
  else
    let bare := match strip_prefix "[" raw with
                | Some rest => match split_once "]" rest with
                               | Some (inner, _) => Some inner
                               | None => None
                               end
                | None => Some raw
                end in
    match bare with
    | None => raw
    | Some bare =>
        let bare := hd bare (split_char "%" bare) in
        let parsed := match parse_ip bare with
                      | Some ip => Some ip
                      | None => match rsplit_once ":" bare with
                                | Some (host, _) => if str_contains ":" host then parse_ip bare else parse_ip host
                                | None => parse_ip bare
                                end
                      end in
        match parsed with Some ip => rate_bucket ip | None => raw end
    end.

(** The headers a request may carry; a value that is not visible ASCII is absent. *)
Record Metadata := { x_forwarded_for : option string; x_real_ip : option string }.

Definition extract_client_ip (m : Metadata) : string :=
  let real := match x_real_ip m with Some ip => trim ip | None => "unknown" end in
  match x_forwarded_for m with
  | Some forwarded =>
      let ip := trim (default "" (list.last (split_char "," forwarded))) in
      if str_is_empty ip then real else ip
  | None => real
  end.

(** *** Printing is injective *)

Lemma show_v4_split a :
  v4_ok a -> split_char "." (show_v4 a) = [to_string (oct0 a); to_string (oct1 a); to_string (oct2 a); to_string (oct3 a)].
Proof.
  unfold v4_ok, octet. intros (H0 & H1 & H2 & H3). unfold show_v4.
  assert (forall z, 0 <= z -> str_all (fun x => negb (Ascii.eqb x ".")) (to_string z) = true) as Hd.
  { intros z Hz. eapply str_all_impl; [|by apply to_string_digits]. by intros [[] [] [] [] [] [] [] []]. }
  change ("." +:+ to_string (oct3 a)) with (String "." (to_string (oct3 a))).
  change ("." +:+ to_string (oct2 a) +:+ ?t) with (String "." (to_string (oct2 a) +:+ t)).
  change ("." +:+ to_string (oct1 a) +:+ ?t) with (String "." (to_string (oct1 a) +:+ t)).
  by rewrite !split_char_app, split_char_none by (apply Hd; lia).
Qed.

Lemma show_v4_inj a b : v4_ok a -> v4_ok b -> show_v4 a = show_v4 b -> a = b.
Proof.
  intros Ha Hb E. apply (f_equal (split_char ".")) in E. rewrite !show_v4_split in E by done. injection E as E0 E1 E2 E3.
  destruct a, b. unfold v4_ok, octet in *. cbn in *.
  apply to_string_inj in E0, E1, E2, E3; [by subst|unfold in_u64, u64_max; lia..].
Qed.

Lemma to_digit_hex d : 0 <= d < 16 -> to_digit 16 (hex_char d) = Some d.
Proof.
  intros Hd. assert (d = Z.of_nat (Z.to_nat d)) as -> by lia. assert (Z.to_nat d < 16)%nat as Hn by lia.
  revert Hn. generalize (Z.to_nat d). clear. intros n Hn. do 16 (destruct n; [reflexivity|]). lia.
Qed.

(** Reading back what was printed. *)
Definition hex_value (s : string) : Z := (read_digits 16 0 0 s).1.1.

Lemma hex_value_show z : 0 <= z < 65536 -> hex_value (show_hex z) = z.
Proof.
  intros Hz. unfold hex_value, show_hex.
  assert (forall i, 0 <= i -> to_digit 16 (hex_char (z / 16 ^ i mod 16)) = Some (z / 16 ^ i mod 16)) as Hd.
  { intros i Hi. apply to_digit_hex. apply Z.mod_pos_bound. lia. }
  destruct (Z.ltb_spec z 4096), (Z.ltb_spec z 256), (Z.ltb_spec z 16); try lia; cbn -[Z.pow Z.div Z.modulo hex_char to_digit];
    rewrite !Hd by lia; cbn -[Z.pow Z.div Z.modulo]; Z.div_mod_to_equations; lia.
Qed.

Lemma show_hex_free z : 0 <= z < 65536 ->
  str_all (fun x => negb (Ascii.eqb x ":")) (show_hex z) = true /\ show_hex z <> "".
Proof.
  intros Hz.
  assert (forall i, negb (Ascii.eqb (hex_char (z / 16 ^ i mod 16)) ":") = true) as Hd.
  { intros i. destruct (Ascii.eqb_spec (hex_char (z / 16 ^ i mod 16)) ":") as [E|]; [|done].
    apply (f_equal (to_digit 16)) in E. rewrite to_digit_hex in E; [done|]. apply Z.mod_pos_bound. lia. }
  unfold show_hex. destruct (z <? 4096), (z <? 256), (z <? 16); cbn -[Z.pow Z.div Z.modulo hex_char Ascii.eqb]; by rewrite !Hd.
Qed.

Lemma fmt_subslice_inj l l' :
  Forall (fun s => 0 <= s < 65536) l -> Forall (fun s => 0 <= s < 65536) l' ->
  fmt_subslice l = fmt_subslice l' -> l = l'.
Proof.
  intros Hl Hl' E. unfold fmt_subslice in E. apply (f_equal (split_char ":")) in E.
  assert (forall m, Forall (fun s => 0 <= s < 65536) m -> m = [] \/
    split_char ":" (String.concat ":" (map show_hex m)) = map show_hex m /\ head (map show_hex m) <> Some "") as Hs.
  { intros [|x m] Hm; [by left|]. right. apply list.Forall_cons in Hm as [Hx Hm]. cbn [map]. split.
    - apply concat_cons_split; [by apply show_hex_free|]. rewrite List.Forall_map.
      eapply list.Forall_impl; [exact Hm|]. intros y Hy. by apply show_hex_free.
    - cbn. intros [= Hx']. by apply (show_hex_free x). }
  assert (map show_hex l = map show_hex l') as Hm.
  { destruct (Hs l Hl) as [->|[Es Hh]], (Hs l' Hl') as [->|[Es' Hh']]; [done|..].
    - rewrite Es' in E. cbn in E. rewrite <- E in Hh'. done.
    - rewrite Es in E. cbn in E. rewrite E in Hh. done.
    - by rewrite Es, Es' in E. }
  clear E Hs. revert l' Hl' Hm. induction Hl as [|x l Hx Hl IH]; intros [|y l'] Hl' Hm; try done.
  apply list.Forall_cons in Hl' as [Hy Hl']. injection Hm as Hxy Hm. f_equal; [|by apply IH].
  by rewrite <- (hex_value_show x Hx), <- (hex_value_show y Hy), Hxy.
Qed.

(** A masked address prints its prefix up to the last segment that is not zero. *)
Lemma show_prefix s0 s1 s2 s3 :
  exists k, (k <= 4)%nat /\ drop k [s0; s1; s2; s3] = repeat 0 (4 - k) /\
    show_v6 [s0; s1; s2; s3; 0; 0; 0; 0] = fmt_subslice (take k [s0; s1; s2; s3]) +:+ "::".
Proof.
  assert (to_ipv4_mapped [s0; s1; s2; s3; 0; 0; 0; 0] = None) as Hm
    by (cbn; by rewrite andb_false_r).
  unfold show_v6. rewrite Hm.
  destruct (Z.eqb_spec s3 0) as [->|H3]; [|exists 4%nat].
  1: destruct (Z.eqb_spec s2 0) as [->|H2]; [|exists 3%nat].
  1: destruct (Z.eqb_spec s1 0) as [->|H1]; [|exists 2%nat].
  1: destruct (Z.eqb_spec s0 0) as [->|H0]; [exists 0%nat|exists 1%nat].
  all: split_and!; [lia|done|]; unfold longest_zeroes; cbn [Z.eqb];
    rewrite ?(proj2 (Z.eqb_neq _ _) H0), ?(proj2 (Z.eqb_neq _ _) H1), ?(proj2 (Z.eqb_neq _ _) H2), ?(proj2 (Z.eqb_neq _ _) H3);
    try reflexivity;
    repeat match goal with |- context [if ?s =? 0 then _ else _] => destruct (s =? 0) end; reflexivity.
Qed.

Lemma str_app_cancel_r s s' t : s +:+ t = s' +:+ t -> s = s'.
Proof.
  intros E. apply (f_equal String.list_ascii_of_string) in E.
  assert (forall u v, String.list_ascii_of_string (u +:+ v) = String.list_ascii_of_string u ++ String.list_ascii_of_string v) as Ha.
  { intros u v. induction u as [|a u IH]; [done|]. change (String a u +:+ v) with (String a (u +:+ v)). cbn. by rewrite IH. }
  rewrite !Ha in E. apply app_inv_tail in E.
  by rewrite <- (String.string_of_list_ascii_of_string s), <- (String.string_of_list_ascii_of_string s'), E.
Qed.

Lemma bucket_v6_inj a b :
  v6_ok a -> v6_ok b ->
  show_v6 (take 4 a ++ [0; 0; 0; 0]) +:+ "/64" = show_v6 (take 4 b ++ [0; 0; 0; 0]) +:+ "/64" -> take 4 a = take 4 b.
Proof.
  intros [La Ha] [Lb Hb] E. apply str_app_cancel_r in E.
  apply list8 in La as (a0 & a1 & a2 & a3 & a4 & a5 & a6 & a7 & ->). apply list8 in Lb as (b0 & b1 & b2 & b3 & b4 & b5 & b6 & b7 & ->).
  apply (Forall_take _ 4) in Ha. apply (Forall_take _ 4) in Hb. cbn [take app] in *.
  destruct (show_prefix a0 a1 a2 a3) as (k & Hk & Hka & Ea), (show_prefix b0 b1 b2 b3) as (j & Hj & Hjb & Eb).
  rewrite Ea, Eb in E. apply str_app_cancel_r in E.
  apply fmt_subslice_inj in E; [|by apply Forall_take..].
  assert (k = j) as -> by (apply (f_equal length) in E; rewrite !length_take in E; cbn in E; lia).
  by rewrite <- (take_drop j [a0; a1; a2; a3]), <- (take_drop j [b0; b1; b2; b3]), E, Hka, Hjb.
Qed.

(** *** A parsed address is an address *)

Lemma to_digit_nonneg radix a d : to_digit radix a = Some d -> 0 <= d.
Proof.
  unfold to_digit. set (n := Z.of_N (N_of_ascii a)). assert (0 <= n) by (subst n; lia). clearbody n.
  destruct (Z.leb_spec 48 n), (Z.leb_spec n 57), (Z.leb_spec 97 n), (Z.leb_spec n 122), (Z.leb_spec 65 n), (Z.leb_spec n 90);
    cbn -[Z.ltb]; try lia; (match goal with |- (if ?t then _ else _) = _ -> _ => destruct t end); intros [= <-]; lia.
Qed.

Lemma read_digits_nonneg radix acc c s : 0 <= radix -> 0 <= acc -> 0 <= (read_digits radix acc c s).1.1.
Proof.
  intros Hr. revert acc c. induction s as [|a s IH]; intros acc c Ha; [done|]. cbn.
  destruct (to_digit radix a) as [d|] eqn:E; [|done]. apply to_digit_nonneg in E. apply IH. nia.
Qed.

Lemma read_number_range radix max digits z s v rest :
  0 <= radix -> read_number radix max digits z s = Some (v, rest) -> 0 <= v <= max.
Proof.
  intros Hr. unfold read_number. pose proof (read_digits_nonneg radix 0 0 s Hr) as Hn.
  destruct (read_digits radix 0 0 s) as [[v' c] rest']. cbn in Hn. destruct (_ || _); [done|]. destruct (_ && _); [done|].
  destruct (Z.leb_spec v' max); [|done]. intros [= <- _]. lia.
Qed.

Lemma read_ipv4_ok s a rest : read_ipv4_addr s = Some (a, rest) -> v4_ok a.
Proof.
  unfold read_ipv4_addr, read_octet. intros E.
  repeat match type of E with
  | context [read_number 10 255 3 false ?x] =>
      let H := fresh "Hr" in destruct (read_number 10 255 3 false x) as [[? ?]|] eqn:H; [|done]; apply read_number_range in H; [|lia]; cbn in E
  | context [read_char "." ?x] => destruct (read_char "." x); [|done]; cbn in E
  end.
  injection E as <- _. unfold v4_ok, octet. cbn. lia.
Qed.

Lemma read_groups_ok limit first s gs v4 rest :
  read_groups limit first s = (gs, v4, rest) -> (length gs <= limit)%nat /\ Forall (fun g => 0 <= g < 65536) gs.
Proof.
  revert first s gs v4 rest. induction limit as [|n IH]; intros first s gs v4 rest; cbn [read_groups]; [by intros [= <- _ _]|].
  set (grp := match (let* s1 := after_colon first s in read_number 16 65535 4 true s1) with Some _ => _ | None => _ end).
  assert (grp = (gs, v4, rest) -> (length gs <= S n)%nat /\ Forall (fun g => 0 <= g < 65536) gs) as Hgrp.
  { subst grp. destruct (let* s1 := after_colon first s in _) as [[g r]|] eqn:E; [|intros [= <- _ _]; cbn; split; [lia|constructor]].
    destruct (read_groups n false r) as [[gs' v4'] rest'] eqn:Er. apply IH in Er as [Hl Hf]. intros [= <- _ _]. cbn. split; [lia|].
    constructor; [|done]. destruct (after_colon first s); [|done]. cbn in E. apply read_number_range in E; lia. }
  destruct n as [|n]; [exact Hgrp|]. destruct (let* s1 := after_colon first s in read_ipv4_addr s1) as [[a r]|] eqn:E; [|exact Hgrp].
  intros [= <- _ _]. cbn. split; [lia|]. destruct (after_colon first s); [|done]. cbn in E. apply read_ipv4_ok in E.
  unfold v4_ok, octet in E. repeat constructor; lia.
Qed.

Lemma parse_ip_ok s ip : parse_ip s = Some ip -> ip_ok ip.
Proof.
  unfold parse_ip. intros E. destruct (read_ipv4_addr s) as [[a r]|] eqn:E4.
  - cbn in E. destruct (str_is_empty r); [|done]. injection E as <-. by eapply read_ipv4_ok.
  - unfold read_ipv6_addr in E. destruct (read_groups 8 true s) as [[hd v4] s1] eqn:Eh. apply read_groups_ok in Eh as [Hl Hf].
    destruct (Nat.eqb_spec (length hd) 8) as [H8|H8].
    + cbn in E. destruct (str_is_empty s1); [|done]. injection E as <-. by split.
    + destruct v4; [done|]. destruct (read_char ":" s1) as [s2|]; [|done]. cbn in E. destruct (read_char ":" s2) as [s3|]; [|done].
      cbn [mbind option_bind] in E. destruct (read_groups _ true s3) as [[tl v4'] s4] eqn:Et. apply read_groups_ok in Et as [Ht Hft].
      cbn in E. destruct (str_is_empty s4); [|done]. injection E as <-. split.
      * rewrite !length_app, repeat_length. lia.
      * apply list.Forall_app. split; [done|]. apply list.Forall_app. split; [|done]. apply list.Forall_forall.
        intros x Hx. apply list_elem_of_In, repeat_spec in Hx. lia.
Qed.

(** *** Buckets *)

(** What a limit counts as one sender: an IPv4 address, or a network of 64 bits. *)
Definition rate_unit (ip : IpAddr) : Ipv4Addr + list Z :=
  match ip with
  | V4 a => inl a
  | V6 a => match to_ipv4_mapped a with Some v4 => inl v4 | None => inr (take 4 a) end
  end.

(** A text that is an address and nothing else. *)
Definition plain_address (s : string) (ip : IpAddr) : Prop :=
  trim s = s /\ strip_prefix "[" s = None /\ split_char "%" s = [s] /\ parse_ip s = Some ip.

Lemma plain_bucket s ip : plain_address s ip -> client_rate_bucket s = rate_bucket ip.
Proof.
  intros (Ht & Hb & Hz & Hp). unfold client_rate_bucket. rewrite Ht, Hb, Hz. cbn [hd]. rewrite Hp.
  by destruct s.
Qed.

Lemma mapped_ok a v4 : v6_ok a -> to_ipv4_mapped a = Some v4 -> v4_ok v4.
Proof.
  intros [La Ha]. apply list8 in La as (a0 & a1 & a2 & a3 & a4 & a5 & g & h & ->). cbn.
  destruct (_ && _); [|done]. intros [= <-].
  repeat (apply list.Forall_cons in Ha as [? Ha]). by apply mapped_v4.
Qed.

Lemma show_v4_no_slash a t : v4_ok a -> show_v4 a <> t +:+ "/64".
Proof.
  intros Hok E. assert (str_all (fun x => negb (Ascii.eqb x "/")) (show_v4 a) = true) as Ha.
  { unfold show_v4. rewrite !str_all_app. unfold v4_ok, octet in Hok.
    assert (forall z, 0 <= z -> str_all (fun x => negb (Ascii.eqb x "/")) (to_string z) = true) as Hd.
    { intros z Hz. eapply str_all_impl; [|by apply to_string_digits]. by intros [[] [] [] [] [] [] [] []]. }
    by rewrite !Hd by lia. }
  rewrite E, str_all_app in Ha. by rewrite andb_false_r in Ha.
Qed.

(** C35: Two senders share a bucket of the per-address limits exactly if they are one
    IPv4 address, however written, or one IPv6 network of 64 bits. *)
Theorem bucket_exact s t a b :
  plain_address s a -> plain_address t b ->
  client_rate_bucket s = client_rate_bucket t <-> rate_unit a = rate_unit b.
Proof.
  intros Hs Ht. rewrite (plain_bucket s a Hs), (plain_bucket t b Ht).
  destruct Hs as (_ & _ & _ & Ha%parse_ip_ok), Ht as (_ & _ & _ & Hb%parse_ip_ok).
  assert (forall ip, ip_ok ip -> exists u, rate_unit ip = u /\ match u with
    | inl v4 => rate_bucket ip = show_v4 v4 /\ v4_ok v4
    | inr p => exists v6, ip = V6 v6 /\ p = take 4 v6 /\ rate_bucket ip = show_v6 (take 4 v6 ++ [0; 0; 0; 0]) +:+ "/64" end) as Hu.
  { intros [v4|v6] Hok; cbn; [by eexists|]. destruct (to_ipv4_mapped v6) eqn:Hm; eexists; (split; [done|]); cbn.
    - split; [done|]. by eapply mapped_ok.
    - by exists v6. }
  destruct (Hu a Ha) as ([v|p] & -> & Hua), (Hu b Hb) as ([w|q] & -> & Hub).
  - destruct Hua as [-> Hv], Hub as [-> Hw]. split; [by intros ->%show_v4_inj|by intros [= ->]].
  - destruct Hua as [-> Hv], Hub as (y & -> & -> & ->). split; [by intros ?%show_v4_no_slash|done].
  - destruct Hua as (x & -> & -> & ->), Hub as [-> Hw]. split; [intros E; by symmetry in E; apply show_v4_no_slash in E|done].
  - destruct Hua as (x & -> & -> & ->), Hub as (y & -> & -> & ->). split; [by intros ->%bucket_v6_inj|by intros [= ->]].
Qed.

Example bucket_port : client_rate_bucket "[2001:db8:85a3:8d3::1]:44310" = "2001:db8:85a3:8d3::/64". Proof. vm_compute. reflexivity. Qed.
Example bucket_zone : client_rate_bucket "fe80::1%en0" = "fe80::/64". Proof. vm_compute. reflexivity. Qed.
Example bucket_mapped : client_rate_bucket "::ffff:203.0.113.9" = client_rate_bucket "203.0.113.9:44310". Proof. vm_compute. reflexivity. Qed.
Example rightmost_hop : extract_client_ip {| x_forwarded_for := Some "1.1.1.1, 8.8.8.8, 203.0.113.9"; x_real_ip := None |} = "203.0.113.9". Proof. vm_compute. reflexivity. Qed.

(** ** The theorems at work *)


Definition sample_resolver (host : string) (port : Z) : option (list IpAddr) :=
  if String.eqb host "peer.example.org" then Some [V4 {| oct0 := 8; oct1 := 8; oct2 := 8; oct3 := 8 |}] else None.

Lemma ssrf_guard_witness :
  exists port, split_host_port "peer.example.org.:8443" = ("peer.example.org.", port) /\ 0 < port <= 65535.
Proof.
  destruct (ssrf_guard sample_resolver "Peer.Example.org.:8443") as (host & port & addrs & Hs & Hp & _).
  - vm_compute. reflexivity.
  - exists port. vm_compute in Hs. injection Hs as <- <-. split; [reflexivity|exact Hp].
Defined.

Lemma bucket_exact_witness :
  client_rate_bucket "2001:db8:85a3:8d3::1" = client_rate_bucket "2001:db8:85a3:8d3:ffff:ffff:ffff:ffff".
Proof.
  apply (bucket_exact "2001:db8:85a3:8d3::1" "2001:db8:85a3:8d3:ffff:ffff:ffff:ffff"
    (V6 [8193; 3512; 34211; 2259; 0; 0; 0; 1]) (V6 [8193; 3512; 34211; 2259; 65535; 65535; 65535; 65535])).
  - repeat split; vm_compute; reflexivity.
  - repeat split; vm_compute; reflexivity.
  - vm_compute. reflexivity.
Defined.

End Net.
