(* ===== verification/UserIds.v ===== *)
(** * User addresses

    Models crates/construct-types/src/user_id.rs: the three forms of a user address,
    their parser and printer, and the route id of a recovery key. UUIDs and hex are
    third-party code, a record of functions; SHA-256 and the classification of
    characters outside ASCII are parameters. *)

From S2P Require Import Prelude Text.

Module UserIds.

Section UserIds.
Context {Uuid : Type} `{EqDecision Uuid}.
Context (uuid_parse_str : string -> option Uuid) (uuid_to_string : Uuid -> string).
Context (hex_encode : bytes -> string) (hex_decode : string -> option bytes) (sha256 : bytes -> bytes).
(** [char::is_alphanumeric] of a character outside ASCII, given as its bytes. *)
Context (is_alphanumeric_wide : string -> bool).

Definition IDENTITY_KEY_TYPE_ED25519 : Z := 1.

Definition RouteId := string.

(** [identity_key_type] is an [i16]; [to_be_bytes] is its two's complement. *)
Definition compute (identity_public_key : bytes) (identity_key_type : Z) : RouteId :=
  hex_encode (sha256 (be_bytes 2 (identity_key_type mod 65536) ++ identity_public_key)).

Definition of_account (recovery_public_key : bytes) : RouteId :=
  compute recovery_public_key IDENTITY_KEY_TYPE_ED25519.

Definition is_ascii_hexdigit (a : ascii) : bool :=
  let n := N_of_ascii a in
  ((48 <=? n)%N && (n <=? 57)%N) || ((97 <=? n)%N && (n <=? 102)%N) || ((65 <=? n)%N && (n <=? 70)%N).

(** [RouteId::from_str]; a character that is not ASCII is not a hex digit. *)
Definition from_str (s : string) : option RouteId :=
  if negb (String.length s =? 64)%nat || negb (str_all is_ascii_hexdigit s) then None
  else Some (to_lowercase s).

Inductive UserId :=
| Local (uuid : Uuid)
| Federated (uuid : Uuid) (domain : string)
| Identity (identity_public_key : bytes) (route_id : RouteId).

Inductive UserIdError :=
| Empty | EmptyDomain | InvalidUuid (s : string) | InvalidDomain (s : string)
| InvalidIdentityKey (s : string).

Definition domain_char (c : string) : bool :=
  match c with
  | String a EmptyString => is_ascii_alphanumeric a || Ascii.eqb a "." || Ascii.eqb a "-"
  | wide => is_alphanumeric_wide wide
  end.

Definition is_valid_domain (domain : string) : bool :=
  if str_is_empty domain then false
  else if negb (str_contains "." domain) then false
  else forallb domain_char (chars domain).

Definition parse (s : string) : result UserId UserIdError :=
  if str_is_empty s then Err Empty
  else
    match strip_prefix "ed25519:" s with
    | Some encoded_key =>
        let? key := ok_or (hex_decode encoded_key) (InvalidIdentityKey encoded_key) in
        if negb (length key =? 32)%nat then Err (InvalidIdentityKey encoded_key)
        else Ok (Identity key (of_account key))
    | None =>
        match split_once "@" s with
        | Some (uuid_part, domain_part) =>
            if str_is_empty domain_part then Err EmptyDomain
            else if negb (is_valid_domain domain_part) then Err (InvalidDomain domain_part)
            else
              let? uuid := ok_or (uuid_parse_str uuid_part) (InvalidUuid uuid_part) in
              Ok (Federated uuid domain_part)
        | None =>
            let? uuid := ok_or (uuid_parse_str s) (InvalidUuid s) in
            Ok (Local uuid)
        end
    end.

Definition is_local (u : UserId) : bool :=
  match u with Local _ | Identity _ _ => true | _ => false end.

Definition is_federated (u : UserId) : bool :=
  match u with Federated _ _ => true | _ => false end.

Definition domain (u : UserId) : option string :=
  match u with Federated _ d => Some d | _ => None end.

Definition uuid (u : UserId) : option Uuid :=
  match u with Local i | Federated i _ => Some i | Identity _ _ => None end.

Definition route_id (u : UserId) : option RouteId :=
  match u with Identity _ r => Some r | _ => None end.

Definition is_from_domain (u : UserId) (d : string) : bool :=
  match u with Federated _ d' => String.eqb d' d | _ => false end.

(** [Display]. *)
Definition to_string (u : UserId) : string :=
  match u with
  | Local i => uuid_to_string i
  | Federated i d => uuid_to_string i +:+ "@" +:+ d
  | Identity k _ => "ed25519:" +:+ hex_encode k
  end.

(** ** What an address is *)

(** An address of the type: a usable domain, or a key of the right length with its own
    route id. *)
Definition wf (u : UserId) : Prop :=
  match u with
  | Local _ => True
  | Federated _ d => is_valid_domain d = true
  | Identity k r => length k = 32%nat /\ r = of_account k
  end.


(** What is used of the printed form of a UUID, and of hex. *)
Context (Huuid : forall i, uuid_parse_str (uuid_to_string i) = Some i)
        (Hplain : forall i, str_all (fun a => is_ascii_hexdigit a || Ascii.eqb a "-") (uuid_to_string i) = true)
        (Hnonempty : forall i, str_is_empty (uuid_to_string i) = false)
        (Hhex : forall b, hex_decode (hex_encode b) = Some b).

Lemma uuid_no_at i t : split_once "@" (uuid_to_string i +:+ String "@" t) = Some (uuid_to_string i, t).
Proof using Hplain.
  apply split_once_app. specialize (Hplain i). induction (uuid_to_string i) as [|a s IH]; [done|].
  cbn in *. apply andb_true_iff in Hplain as [Ha Hs]. rewrite (IH Hs), andb_true_r.
  destruct (Ascii.eqb_spec a "@"); [by subst|done].
Qed.

Lemma split_once_none c s : str_all (fun a => negb (Ascii.eqb a c)) s = true -> split_once c s = None.
Proof using Type.
  induction s as [|a s IH]; [done|]. cbn. intros [Ha Hs]%andb_true_iff.
  apply negb_true_iff in Ha. by rewrite Ha, IH.
Qed.

Lemma uuid_only i : split_once "@" (uuid_to_string i) = None.
Proof using Hplain.
  apply split_once_none. specialize (Hplain i). induction (uuid_to_string i) as [|a s IH]; [done|].
  cbn in *. apply andb_true_iff in Hplain as [Ha Hs]. rewrite (IH Hs), andb_true_r.
  destruct (Ascii.eqb_spec a "@"); [by subst|done].
Qed.

(** A UUID has no colon, so its text never begins a key address. *)
Lemma no_key_prefix s t q :
  str_all (fun a => is_ascii_hexdigit a || Ascii.eqb a "-") s = true ->
  str_all (fun a => negb (Ascii.eqb a "@")) q = true ->
  (t = "" \/ exists d, t = String "@" d) -> strip_prefix (q +:+ ":") (s +:+ t) = None.
Proof using Type.
  revert q. induction s as [|a s IH]; intros q Hs Hq Ht.
  - change ("" +:+ t) with t. destruct q as [|b q].
    + destruct Ht as [->|[d ->]]; reflexivity.
    + change (String b q +:+ ":") with (String b (q +:+ ":")). destruct Ht as [->|[d ->]]; [reflexivity|].
      cbn in Hq |- *. by destruct (Ascii.eqb_spec b "@").
  - change (String a s +:+ t) with (String a (s +:+ t)). cbn in Hs. apply andb_true_iff in Hs as [Ha Hs].
    destruct q as [|b q].
    + change ("" +:+ ":") with ":". cbn [strip_prefix]. destruct (Ascii.eqb_spec ":" a) as [<-|]; done.
    + change (String b q +:+ ":") with (String b (q +:+ ":")). cbn [strip_prefix].
      cbn in Hq. apply andb_true_iff in Hq as [_ Hq]. destruct (Ascii.eqb b a); [|done]. by apply IH.
Qed.

Lemma uuid_not_key i t : t = "" \/ (exists d, t = String "@" d) ->
  strip_prefix "ed25519:" (uuid_to_string i +:+ t) = None.
Proof using Hplain.
  intros Ht. change "ed25519:" with ("ed25519" +:+ ":"). by apply no_key_prefix; [apply Hplain|..].
Qed.

Lemma str_app_nil s : s +:+ "" = s.
Proof using Type. induction s as [|a s IH]; [done|]. change (String a (s +:+ "") = String a s). by rewrite IH. Qed.

Lemma strip_prefix_app s t : strip_prefix s (s +:+ t) = Some t.
Proof using Type.
  induction s as [|a s IH]; [done|]. change (String a s +:+ t) with (String a (s +:+ t)). cbn.
  by rewrite Ascii.eqb_refl.
Qed.

(** Printing and parsing of an address are inverse: the text of every well-formed
    address parses back to it. *)
Theorem parse_to_string u : wf u -> parse (to_string u) = Ok u.
Proof using Huuid Hplain Hnonempty Hhex.
  assert (forall i t, str_is_empty (uuid_to_string i +:+ t) = false) as Hne.
  { intros i t. specialize (Hnonempty i). by destruct (uuid_to_string i). }
  destruct u as [i|i d|k r]; cbn [wf to_string]; unfold parse.
  - intros _. rewrite Hnonempty. rewrite <- (str_app_nil (uuid_to_string i)) at 1.
    rewrite uuid_not_key by by left. by rewrite uuid_only, Huuid.
  - intros Hd. change ("@" +:+ d) with (String "@" d). rewrite Hne, uuid_not_key by eauto.
    rewrite uuid_no_at. assert (str_is_empty d = false) as -> by by destruct d.
    by rewrite Hd, Huuid.
  - intros [Hk ->]. change (str_is_empty ("ed25519:" +:+ hex_encode k)) with false.
    rewrite strip_prefix_app, Hhex. cbn. by rewrite Hk.
Qed.

End UserIds.

Definition sample_parse (s : string) : option unit := if String.eqb s "0a-1" then Some tt else None.
Definition sample_decode (s : string) : option bytes := Some (as_bytes s).


Lemma parse_to_string_witness :
  parse sample_parse String.string_of_list_byte sample_decode (fun b => b) (fun _ => false) "0a-1@b.org"
    = Ok (Federated tt "b.org").
Proof.
  apply (parse_to_string sample_parse (fun _ => "0a-1") String.string_of_list_byte sample_decode (fun b => b)
    (fun _ => false)) with (u := Federated tt "b.org").
  - by intros [].
  - reflexivity.
  - reflexivity.
  - intros b. unfold sample_decode, as_bytes. by rewrite String.list_byte_of_string_of_list_byte.
  - reflexivity.
Defined.

End UserIds.
