(* ===== verification/Merkle.v ===== *)
(** * Key transparency: the Merkle tree of the key log

    Models the pure half of key-service/src/kt.rs: the leaf and node hashes,
    the RFC 6962 tree hash [merkle_root], the generation of inclusion proofs and
    their verification. SHA-256 is a third-party function and is a parameter;
    what is used of it is that it returns 32 bytes. A claim about what an
    adversary can do never assumes that the hash is injective, which no 32-byte
    hash is: it says "or two of the inputs hashed here, in this log and in this
    proof, collide", with those inputs named ([tree_input], [path_input]). *)

From S2P Require Import Prelude.

Module Merkle.

(** ** [split]: the largest power of two strictly below [n]

    The loop [while k < n { k <<= 1 }]; [k] doubles, so [n] iterations are
    more than enough. A slice of 32-byte arrays is shorter than [2^58], so the
    shift never drops a bit. *)

Fixpoint split_loop (fuel k n : nat) : nat :=
  match fuel with
  | O => k
  | S fuel' => if (k <? n)%nat then split_loop fuel' (2 * k) n else k
  end.

Definition split (n : nat) : nat := Nat.div2 (split_loop n 1 n).

Lemma split_loop_spec fuel k n e :
  (0 < k -> k = 2 ^ e -> (k < 2 * n \/ k = 1) -> n <= k + fuel ->
   exists e', e <= e' /\ split_loop fuel k n = 2 ^ e' /\ n <= 2 ^ e' /\
              (2 ^ e' < 2 * n \/ 2 ^ e' = 1))%nat.
Proof.
  revert k e. induction fuel as [|fuel IH]; intros k e Hk He Hlt Hn; cbn [split_loop].
  - exists e. repeat split; subst; lia.
  - destruct (Nat.ltb_spec k n) as [Hkn|Hkn].
    + destruct (IH (2 * k)%nat (S e)) as (e' & ? & ? & ? & ?); subst;
        rewrite ?Nat.pow_succ_r'; try lia.
      exists e'. repeat split; auto; lia.
    + exists e. repeat split; subst; lia.
Qed.

(** [split n] is a power of two with [split n < n <= 2 * split n]. *)
Lemma split_spec n :
  (2 <= n -> exists e, split n = 2 ^ e /\ 2 ^ e < n <= 2 * 2 ^ e)%nat.
Proof.
  intros Hn. unfold split.
  destruct (split_loop_spec n 1 n 0) as (e' & _ & He & Hle & Hlt); [lia|done|lia|lia|].
  rewrite He in *. destruct e' as [|e]; [cbn in *; lia|].
  exists e. rewrite Nat.pow_succ_r', Nat.div2_double. rewrite Nat.pow_succ_r' in *. lia.
Qed.

Lemma split_bounds n : (2 <= n -> 0 < split n < n)%nat.
Proof.
  intros Hn. destruct (split_spec n Hn) as (e & -> & ?).
  pose proof (Nat.pow_nonzero 2 e). lia.
Qed.

Section WithHash.
Context (sha256 : bytes -> bytes).

(** ** Hashing primitives *)

Definition leaf_hash (device_id : string) (identity_key_raw : bytes) : bytes :=
  sha256 (x00 :: as_bytes device_id ++ identity_key_raw).

Definition hybrid_leaf_hash (device_id : string) (hybrid_identity_key : bytes) : bytes :=
  sha256 (x02 :: as_bytes device_id ++ hybrid_identity_key).

Definition node_hash (left right : bytes) : bytes :=
  sha256 (x01 :: left ++ right).

(** ** The tree hash

    The recursion is on the two halves of the slice; the slice length bounds
    its depth, and [merkle_root_eq] is the recursion equation without fuel. *)

Fixpoint merkle_root_fuel (fuel : nat) (leaves : list bytes) : bytes :=
  match leaves with
  | [] => sha256 []
  | [leaf] => leaf
  | _ =>
      match fuel with
      | O => sha256 []
      | S fuel' =>
          let k := split (length leaves) in
          let left := merkle_root_fuel fuel' (take k leaves) in
          let right := merkle_root_fuel fuel' (drop k leaves) in
          node_hash left right
      end
  end.

Definition merkle_root (leaves : list bytes) : bytes :=
  merkle_root_fuel (length leaves) leaves.

(** ** Inclusion proofs, innermost sibling first *)

Fixpoint inclusion_proof_fuel (fuel : nat) (leaves : list bytes) (index : nat) : list bytes :=
  let n := length leaves in
  if (n =? 1)%nat then []
  else
    match fuel with
    | O => []
    | S fuel' =>
        let k := split n in
        if (index <? k)%nat then
          inclusion_proof_fuel fuel' (take k leaves) index ++ [merkle_root (drop k leaves)]
        else
          inclusion_proof_fuel fuel' (drop k leaves) (index - k) ++ [merkle_root (take k leaves)]
    end.

Definition inclusion_proof_inner (leaves : list bytes) (index : nat) : list bytes :=
  inclusion_proof_fuel (length leaves) leaves index.

Definition generate_inclusion_proof (leaves : list bytes) (index : nat)
    : option (list bytes * bytes) :=
  if (length leaves =? 0)%nat || (length leaves <=? index)%nat then None
  else
    let proof := inclusion_proof_inner leaves index in
    let root := merkle_root leaves in
    Some (proof, root).

(** ** Verification

    The source peels siblings off the end of the proof; the model recurses on
    the reversed proof. [split] asserts [n >= 2] and the verifier is compiled
    only into test builds, where that assertion is armed: a proof that is
    longer than the tree is deep panics, which is [None] here. *)

Fixpoint inclusion_reconstruct_rev (leaf : bytes) (rproof : list bytes) (index size : nat)
    : option bytes :=
  match rproof with
  | [] => if (size =? 1)%nat && (index =? 0)%nat then Some leaf else None
  | sibling :: inner =>
      if (size <? 2)%nat then None
      else
        let k := split size in
        if (index <? k)%nat then
          let* left := inclusion_reconstruct_rev leaf inner index k in
          Some (node_hash left sibling)
        else
          let* right := inclusion_reconstruct_rev leaf inner (index - k) (size - k) in
          Some (node_hash sibling right)
  end.

Definition inclusion_reconstruct (leaf : bytes) (proof : list bytes) (index size : nat)
    : option bytes :=
  inclusion_reconstruct_rev leaf (rev proof) index size.

Definition verify_inclusion (leaf : bytes) (proof : list bytes) (index tree_size : nat)
    (root : bytes) : bool :=
  if (tree_size =? 0)%nat || (tree_size <=? index)%nat then false
  else bool_decide (inclusion_reconstruct leaf proof index tree_size = Some root).

(** ** Signed tree heads *)

Definition tree_head_label : bytes := as_bytes "ConstructKT-v1".

Definition tree_head_signable (tree_size : Z) (root : bytes) : bytes :=
  tree_head_label ++ be_bytes 8 tree_size ++ root.

(** ** Lemmas: fuel is irrelevant *)

Lemma merkle_root_fuel_enough f1 f2 leaves :
  (length leaves <= f1 -> length leaves <= f2 ->
   merkle_root_fuel f1 leaves = merkle_root_fuel f2 leaves)%nat.
Proof.
  revert f2 leaves. induction f1 as [|f1 IH]; intros f2 leaves H1 H2.
  - destruct leaves; [by destruct f2 | cbn in H1; lia].
  - destruct leaves as [|a [|b leaves]]; [by destruct f2 | by destruct f2 |].
    destruct f2 as [|f2]; [cbn in H2; lia|].
    cbn [merkle_root_fuel].
    pose proof (split_bounds (length (a :: b :: leaves))) as Hs.
    cbn [length] in *.
    f_equal; apply IH; rewrite ?length_take, ?length_drop; cbn [length]; lia.
Qed.

(** The recursion of the source. *)
Lemma merkle_root_eq leaves :
  (2 <= length leaves)%nat ->
  merkle_root leaves =
  node_hash (merkle_root (take (split (length leaves)) leaves))
            (merkle_root (drop (split (length leaves)) leaves)).
Proof.
  intros Hn. unfold merkle_root at 1.
  pose proof (split_bounds _ Hn) as Hs.
  destruct leaves as [|a [|b leaves]]; [cbn in Hn; lia | cbn in Hn; lia |].
  set (l := a :: b :: leaves) in *.
  change (merkle_root_fuel (length l) l) with
    (node_hash (merkle_root_fuel (S (length leaves)) (take (split (length l)) l))
               (merkle_root_fuel (S (length leaves)) (drop (split (length l)) l))).
  unfold merkle_root.
  assert (length l = S (S (length leaves))) as Hl by done.
  f_equal; apply merkle_root_fuel_enough; rewrite ?length_take, ?length_drop; lia.
Qed.

Lemma inclusion_proof_fuel_enough f1 f2 leaves index :
  (length leaves <= f1 -> length leaves <= f2 -> 1 <= length leaves ->
   inclusion_proof_fuel f1 leaves index = inclusion_proof_fuel f2 leaves index)%nat.
Proof.
  revert f2 leaves index. induction f1 as [|f1 IH]; intros f2 leaves index H1 H2 H0; [lia|].
  destruct f2 as [|f2]; [lia|].
  cbn [inclusion_proof_fuel].
  destruct (Nat.eqb_spec (length leaves) 1); [done|].
  pose proof (split_bounds (length leaves)) as Hs.
  destruct (index <? _)%nat; f_equal; apply IH;
    rewrite ?length_take, ?length_drop; lia.
Qed.

Lemma inclusion_proof_eq leaves index :
  (2 <= length leaves)%nat ->
  inclusion_proof_inner leaves index =
  let k := split (length leaves) in
  if (index <? k)%nat
  then inclusion_proof_inner (take k leaves) index ++ [merkle_root (drop k leaves)]
  else inclusion_proof_inner (drop k leaves) (index - k) ++ [merkle_root (take k leaves)].
Proof.
  intros Hn. pose proof (split_bounds _ Hn) as Hs. cbn zeta.
  unfold inclusion_proof_inner at 1.
  destruct (length leaves) as [|m] eqn:Hl; [lia|].
  cbn [inclusion_proof_fuel]. rewrite Hl.
  destruct (Nat.eqb_spec (S m) 1); [lia|].
  destruct (index <? _)%nat; f_equal; apply inclusion_proof_fuel_enough;
    rewrite ?length_take, ?length_drop; lia.
Qed.

(** ** Completeness: a generated proof verifies *)

Lemma reconstruct_snoc leaf proof sibling index size :
  (2 <= size)%nat ->
  inclusion_reconstruct leaf (proof ++ [sibling]) index size =
  (if (index <? split size)%nat then
     let* left := inclusion_reconstruct leaf proof index (split size) in
     Some (node_hash left sibling)
   else
     let* right := inclusion_reconstruct leaf proof (index - split size) (size - split size) in
     Some (node_hash sibling right)).
Proof.
  intros Hs. unfold inclusion_reconstruct. rewrite rev_app_distr. cbn [rev app].
  cbn [inclusion_reconstruct_rev]. destruct (Nat.ltb_spec size 2); [lia|]. done.
Qed.

Lemma reconstruct_generated leaves index leaf :
  leaves !! index = Some leaf ->
  inclusion_reconstruct leaf (inclusion_proof_inner leaves index) index (length leaves)
  = Some (merkle_root leaves).
Proof.
  remember (length leaves) as n eqn:Hn. revert leaves index Hn.
  induction (lt_wf n) as [n _ IH]. intros leaves index Hn Hi.
  pose proof (lookup_lt_Some _ _ _ Hi) as Hlt.
  destruct (decide (n = 1%nat)) as [->|Hn1].
  - destruct leaves as [|a [|]]; try done. destruct index as [|index]; [|cbn in Hlt; lia].
    by simplify_eq/=.
  - assert (2 <= length leaves)%nat as Hlen by lia.
    pose proof (split_bounds _ Hlen) as Hs.
    rewrite inclusion_proof_eq, merkle_root_eq by done. cbn zeta. subst n.
    destruct (Nat.ltb_spec index (split (length leaves))) as [Hk|Hk];
      rewrite reconstruct_snoc by done.
    + destruct (Nat.ltb_spec index (split (length leaves))); [|lia].
      rewrite (IH (split (length leaves))); [done|lia| |].
      * rewrite length_take. lia.
      * by rewrite lookup_take_lt.
    + destruct (Nat.ltb_spec index (split (length leaves))); [lia|].
      rewrite (IH (length leaves - split (length leaves))%nat); [done|lia| |].
      * by rewrite length_drop.
      * rewrite lookup_drop. rewrite <- Hi. f_equal. lia.
Qed.

Lemma generate_inclusion_proof_Some leaves index :
  (index < length leaves)%nat ->
  generate_inclusion_proof leaves index =
  Some (inclusion_proof_inner leaves index, merkle_root leaves).
Proof.
  intros Hi. unfold generate_inclusion_proof.
  destruct (Nat.eqb_spec (length leaves) 0); [lia|].
  destruct (Nat.leb_spec (length leaves) index); [lia|]. done.
Qed.

Lemma verify_generated leaves index leaf :
  leaves !! index = Some leaf ->
  verify_inclusion leaf (inclusion_proof_inner leaves index) index (length leaves)
    (merkle_root leaves) = true.
Proof.
  intros Hi. pose proof (lookup_lt_Some _ _ _ Hi).
  unfold verify_inclusion.
  destruct (Nat.eqb_spec (length leaves) 0); [lia|].
  destruct (Nat.leb_spec (length leaves) index); [lia|]. cbn.
  rewrite reconstruct_generated by done. by apply bool_decide_eq_true.
Qed.

(** A proof has at most [log2_up n] hashes. *)
Lemma length_inclusion_proof_log leaves index e :
  (1 <= length leaves <= 2 ^ e -> length (inclusion_proof_inner leaves index) <= e)%nat.
Proof.
  remember (length leaves) as n eqn:Hn. revert leaves index e Hn.
  induction (lt_wf n) as [n _ IH]. intros leaves index e Hn [H1 He].
  destruct (decide (n = 1%nat)) as [->|Hn1].
  - unfold inclusion_proof_inner. rewrite <- Hn. cbn. rewrite <- Hn. cbn. lia.
  - assert (2 <= length leaves)%nat as Hlen by lia.
    rewrite inclusion_proof_eq by done. cbn zeta. subst n.
    destruct (split_spec _ Hlen) as (e' & Hs & Hlt & Hle). rewrite Hs.
    assert (e' < e)%nat as Hee by (apply (Nat.pow_lt_mono_r_iff 2); lia).
    pose proof (Nat.pow_nonzero 2 e').
    destruct (index <? _)%nat; rewrite length_app; cbn [length].
    + enough (length (inclusion_proof_inner (take (2 ^ e') leaves) index) <= e')%nat by lia.
      eapply (IH (2 ^ e')%nat); [lia|rewrite length_take; lia|lia].
    + enough (length (inclusion_proof_inner (drop (2 ^ e') leaves) (index - 2 ^ e')) <= e')%nat
        by lia.
      eapply (IH (length leaves - 2 ^ e')%nat); [lia|by rewrite length_drop|lia].
Qed.

(** ** Binding: what a root commits to *)

(** The inputs hashed when the root of a log is computed: one per inner node. *)
Inductive tree_input : list bytes -> bytes -> Prop :=
| ti_node leaves :
    (2 <= length leaves)%nat ->
    tree_input leaves (x01 :: merkle_root (take (split (length leaves)) leaves)
                           ++ merkle_root (drop (split (length leaves)) leaves))
| ti_left leaves x :
    (2 <= length leaves)%nat -> tree_input (take (split (length leaves)) leaves) x ->
    tree_input leaves x
| ti_right leaves x :
    (2 <= length leaves)%nat -> tree_input (drop (split (length leaves)) leaves) x ->
    tree_input leaves x.

(** The inputs hashed when a proof is checked: one per sibling. *)
Inductive path_input (leaf : bytes) : list bytes -> nat -> nat -> bytes -> Prop :=
| pi_left sib inner index size h :
    (index < split size)%nat -> inclusion_reconstruct_rev leaf inner index (split size) = Some h ->
    path_input leaf (sib :: inner) index size (x01 :: h ++ sib)
| pi_right sib inner index size h :
    (split size <= index)%nat ->
    inclusion_reconstruct_rev leaf inner (index - split size) (size - split size) = Some h ->
    path_input leaf (sib :: inner) index size (x01 :: sib ++ h)
| pi_inner_left sib inner index size x :
    (index < split size)%nat -> path_input leaf inner index (split size) x ->
    path_input leaf (sib :: inner) index size x
| pi_inner_right sib inner index size x :
    (split size <= index)%nat -> path_input leaf inner (index - split size) (size - split size) x ->
    path_input leaf (sib :: inner) index size x.

(** Two different inputs with one hash, the first in [A] and the second in [B]. *)
Definition collision (A B : bytes -> Prop) : Prop :=
  exists x y, A x /\ B y /\ x <> y /\ sha256 x = sha256 y.

Lemma collision_mono (A B A' B' : bytes -> Prop) :
  (forall x, A x -> A' x) -> (forall x, B x -> B' x) -> collision A B -> collision A' B'.
Proof. intros HA HB (x & y & ? & ? & ? & ?). exists x, y. auto. Qed.

Definition hash32 (h : bytes) : Prop := length h = 32%nat.

Context (sha256_len : forall x, hash32 (sha256 x)).

Lemma node_hash_binding l r l' r' :
  hash32 l -> hash32 l' ->
  node_hash l r = node_hash l' r' ->
  (l = l' /\ r = r') \/
  collision (fun x => x = x01 :: l' ++ r') (fun y => y = x01 :: l ++ r).
Proof using Type*.
  intros Hl Hl' H.
  destruct (decide (x01 :: l ++ r = x01 :: l' ++ r')) as [Heq|Hne].
  - left. injection Heq as Heq. apply app_inj_same_length; [congruence|done].
  - right. exists (x01 :: l' ++ r'), (x01 :: l ++ r). by split_and!.
Qed.

Lemma merkle_root_len leaves : Forall hash32 leaves -> hash32 (merkle_root leaves).
Proof using Type*.
  intros Hl. destruct (decide (2 <= length leaves)%nat).
  - rewrite merkle_root_eq by done. apply sha256_len.
  - destruct leaves as [|a [|b leaves]]; [apply sha256_len| |cbn in *; lia].
    by inversion Hl.
Qed.

Lemma reconstruct_len leaf rproof index size h :
  hash32 leaf -> inclusion_reconstruct_rev leaf rproof index size = Some h -> hash32 h.
Proof using Type*.
  intros Hleaf. destruct rproof; cbn; intros; split_matches; apply sha256_len.
Qed.

Lemma reconstruct_sound leaves leaf rproof index :
  Forall hash32 leaves -> hash32 leaf -> Forall hash32 rproof ->
  inclusion_reconstruct_rev leaf rproof index (length leaves) = Some (merkle_root leaves) ->
  leaves !! index = Some leaf \/
  collision (tree_input leaves) (path_input leaf rproof index (length leaves)).
Proof using Type*.
  revert leaves index. induction rproof as [|sib rproof IH];
    intros leaves index Hls Hleaf Hproof H; cbn [inclusion_reconstruct_rev] in H.
  - case_match eqn:E; [|done]. bool_to_prop. subst. simplify_eq.
    destruct leaves as [|a [|]]; try done. by left.
  - destruct (Nat.ltb_spec (length leaves) 2); [done|].
    inversion Hproof as [|? ? Hsib Hproof']; subst.
    pose proof (split_bounds (length leaves)) as Hs.
    assert (Forall hash32 (take (split (length leaves)) leaves)) by by apply Forall_take.
    assert (Forall hash32 (drop (split (length leaves)) leaves)) by by apply Forall_drop.
    rewrite merkle_root_eq in H by done.
    destruct (Nat.ltb_spec index (split (length leaves))) as [Hk|Hk];
      (destruct (inclusion_reconstruct_rev _ _ _ _) as [h|] eqn:Hh; [|discriminate H]);
      injection H as H.
    + apply node_hash_binding in H; [|exact (reconstruct_len _ _ _ _ _ Hleaf Hh)|by apply merkle_root_len].
      destruct H as [[-> ->]|Hcol].
      2:{ right. revert Hcol. apply collision_mono; intros x ->; by constructor. }
      destruct (IH (take (split (length leaves)) leaves) index) as [Hi|Hcol]; auto.
      { rewrite length_take, Nat.min_l by lia. done. }
      * left. rewrite lookup_take_lt in Hi by done. done.
      * right. revert Hcol. rewrite length_take, Nat.min_l by lia.
        apply collision_mono; intros x Hx; [by apply ti_left|by apply pi_inner_left].
    + apply node_hash_binding in H; [|done|by apply merkle_root_len].
      destruct H as [[-> ->]|Hcol].
      2:{ right. revert Hcol. apply collision_mono; intros x ->; by constructor. }
      destruct (IH (drop (split (length leaves)) leaves) (index - split (length leaves))%nat)
        as [Hi|Hcol]; auto.
      { rewrite length_drop. done. }
      * left. rewrite lookup_drop in Hi. rewrite <- Hi. f_equal. lia.
      * right. revert Hcol. rewrite length_drop.
        apply collision_mono; intros x Hx; [by apply ti_right|by apply pi_inner_right].
Qed.

Lemma merkle_root_binding l1 l2 :
  Forall hash32 l1 -> Forall hash32 l2 -> length l1 = length l2 ->
  merkle_root l1 = merkle_root l2 -> l1 = l2 \/ collision (tree_input l2) (tree_input l1).
Proof using Type*.
  remember (length l1) as n eqn:Hn. revert l1 l2 Hn.
  induction (lt_wf n) as [n _ IH]. intros l1 l2 Hn H1 H2 Hlen H.
  destruct (decide (n < 2)%nat) as [Hs|Hs].
  - destruct l1 as [|a [|]], l2 as [|b [|]]; cbn in *; try lia; [by left|].
    left. unfold merkle_root in H. cbn in H. by subst.
  - pose proof (split_bounds n) as Hb. rewrite (merkle_root_eq l1), (merkle_root_eq l2) in H by lia.
    rewrite <- Hn, <- Hlen in H.
    apply node_hash_binding in H as [[Hl Hr]|Hcol]; auto using merkle_root_len, Forall_take.
    2:{ right. revert Hcol. apply collision_mono; intros x ->;
        [rewrite Hlen|rewrite Hn]; apply ti_node; lia. }
    destruct (IH (split n) ltac:(lia) (take (split n) l1) (take (split n) l2)) as [Hl'|Hcol];
      rewrite ?length_take; auto using Forall_take; try lia.
    2:{ right. revert Hcol. apply collision_mono; intros x Hx; apply ti_left; try lia; congruence. }
    destruct (IH (n - split n)%nat ltac:(lia) (drop (split n) l1) (drop (split n) l2)) as [Hr'|Hcol];
      rewrite ?length_drop; auto using Forall_drop; try lia.
    2:{ right. revert Hcol. apply collision_mono; intros x Hx; apply ti_right; try lia; congruence. }
    left. rewrite <- (take_drop (split n) l1), <- (take_drop (split n) l2). congruence.
Qed.

Lemma tree_head_signable_inj n1 n2 r1 r2 :
  in_u64 n1 -> in_u64 n2 ->
  tree_head_signable n1 r1 = tree_head_signable n2 r2 -> n1 = n2 /\ r1 = r2.
Proof.
  unfold in_u64, u64_max. intros H1 H2 H. unfold tree_head_signable in H.
  apply app_inv_head in H.
  apply app_inj_same_length in H as [Hn Hr]; [|by rewrite !length_be_bytes].
  apply be_bytes_inj in Hn; [done| |]; change (256 ^ Z.of_nat 8) with 18446744073709551616; lia.
Qed.

End WithHash.

(** ** Properties *)

(** C21: the log server can prove every leaf it holds. For each position of the
    log, [generate_inclusion_proof] returns the root of the log and a proof of
    at most [log2_up n] hashes that [verify_inclusion] accepts for the leaf at
    that position; for a position outside the log it returns nothing. *)
Theorem inclusion_complete (sha256 : bytes -> bytes) leaves index :
  match leaves !! index with
  | Some leaf =>
      exists proof,
        generate_inclusion_proof sha256 leaves index = Some (proof, merkle_root sha256 leaves)
        /\ verify_inclusion sha256 leaf proof index (length leaves)
             (merkle_root sha256 leaves) = true
        /\ (length proof <= Nat.log2_up (length leaves))%nat
  | None => generate_inclusion_proof sha256 leaves index = None
  end.
Proof.
  destruct (leaves !! index) as [leaf|] eqn:Hi.
  - pose proof (lookup_lt_Some _ _ _ Hi) as Hlt. eexists. split_and!.
    + by apply generate_inclusion_proof_Some.
    + by apply verify_generated.
    + apply length_inclusion_proof_log. split; [lia|].
      destruct (decide (length leaves = 1%nat)) as [->|]; [done|].
      apply Nat.log2_up_spec. lia.
  - apply lookup_ge_None in Hi. unfold generate_inclusion_proof.
    destruct (Nat.leb_spec (length leaves) index); [|lia]. by rewrite orb_true_r.
Qed.

(** C1: nobody can prove a leaf the log does not hold. Against the root of a
    log of 32-byte leaves, a proof that [verify_inclusion] accepts at a position
    is a proof of the leaf that is at that position, unless one of the inputs
    hashed in checking it has the same hash as a different one of those hashed in
    computing the root. *)
Theorem inclusion_sound (sha256 : bytes -> bytes) leaves leaf proof index
  (Hlen : forall x, hash32 (sha256 x))
  (Hleaves : Forall hash32 leaves) (Hleaf : hash32 leaf) (Hproof : Forall hash32 proof)
  (Hverify : verify_inclusion sha256 leaf proof index (length leaves)
               (merkle_root sha256 leaves) = true) :
  leaves !! index = Some leaf \/
  collision sha256 (tree_input sha256 leaves)
    (path_input sha256 leaf (rev proof) index (length leaves)).
Proof.
  unfold verify_inclusion in Hverify. case_match; [done|].
  apply bool_decide_eq_true in Hverify.
  apply (reconstruct_sound sha256 Hlen leaves leaf (rev proof)); auto.
  by apply List.Forall_rev.
Qed.

(** a tree head commits to the whole log. Two logs of the same number of
    32-byte leaves whose heads have the same signed bytes are the same log,
    unless an inner node of one and a different inner node of the other have the
    same hash; and heads of logs of different sizes never have the same signed
    bytes. *)
Theorem tree_head_binding (sha256 : bytes -> bytes) log1 log2
  (Hlen : forall x, hash32 (sha256 x))
  (H1 : Forall hash32 log1) (H2 : Forall hash32 log2)
  (Hs1 : in_u64 (Z.of_nat (length log1))) (Hs2 : in_u64 (Z.of_nat (length log2)))
  (Heq : tree_head_signable (Z.of_nat (length log1)) (merkle_root sha256 log1)
         = tree_head_signable (Z.of_nat (length log2)) (merkle_root sha256 log2)) :
  log1 = log2 \/ collision sha256 (tree_input sha256 log2) (tree_input sha256 log1).
Proof.
  apply tree_head_signable_inj in Heq as [Hn Hr]; [|done|done].
  apply merkle_root_binding; auto. lia.
Qed.

(** *** Witnesses *)

(** A 32-byte function to evaluate the model with: its input, cut or padded. *)
Definition toy_sha256 (l : bytes) : bytes := take 32 (l ++ replicate 32 x00).

Lemma toy_sha256_len x : hash32 (toy_sha256 x).
Proof. unfold hash32, toy_sha256. rewrite length_take, length_app, length_replicate. lia. Qed.

Definition toy_leaves : list bytes :=
  [leaf_hash toy_sha256 "dev-0" [x01]; leaf_hash toy_sha256 "dev-1" [x02];
   hybrid_leaf_hash toy_sha256 "dev-1" [x03]; leaf_hash toy_sha256 "dev-2" [x04];
   leaf_hash toy_sha256 "dev-3" [x05]].

Example toy_proof_runs :
  option_map (fun p => length (fst p)) (generate_inclusion_proof toy_sha256 toy_leaves 2)
  = Some 3%nat.
Proof. reflexivity. Qed.

Lemma inclusion_sound_witness :
  exists proof,
    verify_inclusion toy_sha256 (hybrid_leaf_hash toy_sha256 "dev-1" [x03]) proof 2 5
      (merkle_root toy_sha256 toy_leaves) = true
    /\ (toy_leaves !! 2%nat = Some (hybrid_leaf_hash toy_sha256 "dev-1" [x03])
        \/ collision toy_sha256 (tree_input toy_sha256 toy_leaves)
             (path_input toy_sha256 (hybrid_leaf_hash toy_sha256 "dev-1" [x03]) (rev proof) 2 5)).
Proof.
  exists (inclusion_proof_inner toy_sha256 toy_leaves 2). split; [vm_compute; reflexivity|].
  apply (inclusion_sound toy_sha256 toy_leaves _ (inclusion_proof_inner toy_sha256 toy_leaves 2)).
  - apply toy_sha256_len.
  - repeat constructor.
  - reflexivity.
  - vm_compute; repeat constructor.
  - vm_compute; reflexivity.
Defined.

Lemma tree_head_binding_witness :
  toy_leaves = toy_leaves \/
  collision toy_sha256 (tree_input toy_sha256 toy_leaves) (tree_input toy_sha256 toy_leaves).
Proof.
  apply (tree_head_binding toy_sha256 toy_leaves toy_leaves).
  - apply toy_sha256_len.
  - repeat constructor.
  - repeat constructor.
  - vm_compute; split; discriminate.
  - vm_compute; split; discriminate.
  - reflexivity.
Defined.

End Merkle.
