(* ===== verification/ServerTrust.v ===== *)
(** * Hybrid signatures and delegated server keys

    Models crates/construct-crypto/src/pqc/hybrid.rs (the Ed25519 + ML-DSA-65
    signature: key layout, signing, verification, prekey sign-messages) and
    crates/construct-crypto/src/server_trust.rs (delegations of the offline
    root, and the signer of a delegated key). The two signature schemes and the
    shared construct-server-trust crate are third-party code: records of
    functions, with their documented laws as a class. *)

From S2P Require Import Prelude.

Module Hybrid.

(** ** The interface of a signature scheme over byte strings *)

Record sig_scheme := SigScheme {
  ss_public : bytes -> bytes;                     (* seed -> public key *)
  ss_sign : bytes -> bytes -> option bytes;       (* seed, message -> signature *)
  ss_verify : bytes -> bytes -> bytes -> bool;    (* public key, message, signature *)
}.

(** What the callers rely on: sizes, and that a signature made with a seed
    verifies under the seed's public key. *)
Class SigSchemeLaws (S : sig_scheme) (seed_len pk_len sig_len : nat) : Prop := {
  ss_public_len seed : length seed = seed_len -> length (ss_public S seed) = pk_len;
  ss_sign_len seed m s : ss_sign S seed m = Some s -> length s = sig_len;
  ss_sign_verify seed m s :
    length seed = seed_len -> ss_sign S seed m = Some s ->
    ss_verify S (ss_public S seed) m s = true;
}.

Definition ED25519_PUBLIC_KEY_SIZE : nat := 32.
Definition ED25519_SECRET_KEY_SIZE : nat := 32.
Definition ED25519_SIGNATURE_SIZE : nat := 64.
Definition ML_DSA_65_PUBLIC_KEY_SIZE : nat := 1952.
Definition ML_DSA_65_SECRET_KEY_SIZE : nat := 32.
Definition ML_DSA_65_SIGNATURE_SIZE : nat := 3309.
Definition HYBRID_SIG_PUBLIC_KEY_SIZE : nat :=
  ED25519_PUBLIC_KEY_SIZE + ML_DSA_65_PUBLIC_KEY_SIZE.
Definition HYBRID_SIG_SECRET_KEY_SIZE : nat :=
  ED25519_SECRET_KEY_SIZE + ML_DSA_65_SECRET_KEY_SIZE + ML_DSA_65_PUBLIC_KEY_SIZE.
Definition HYBRID_SIGNATURE_SIZE : nat :=
  ED25519_SIGNATURE_SIZE + ML_DSA_65_SIGNATURE_SIZE.

Inductive hybrid_error :=
| PublicKeySize | SignatureSize | Ed25519Failed | MlDsaFailed
| PrivateKeySize | MlDsaSigningFailed | VerifyingKeySize.

(** ** Prekey sign-messages *)

Definition build_prekey_sign_message (suite_id : byte) (public_key : bytes) : bytes :=
  as_bytes "KonstruktX3DH-v1" ++ [x00; suite_id] ++ public_key.

Definition KYBER_PREKEY_SIGN_SUITE_V2 : byte := x11.

Definition build_kyber_prekey_sign_message_v2 (created_at : Z) (public_key : bytes) : bytes :=
  build_prekey_sign_message KYBER_PREKEY_SIGN_SUITE_V2 (be_bytes 8 created_at ++ public_key).

Section WithSchemes.
Context (ed mldsa : sig_scheme).

(** ** Splitting *)

Definition split_hybrid_public_key (hybrid_pk : bytes) : result (bytes * bytes) hybrid_error :=
  if negb (length hybrid_pk =? HYBRID_SIG_PUBLIC_KEY_SIZE)%nat then Err PublicKeySize
  else Ok (take ED25519_PUBLIC_KEY_SIZE hybrid_pk, drop ED25519_PUBLIC_KEY_SIZE hybrid_pk).

Definition split_hybrid_signature (hybrid_sig : bytes) : result (bytes * bytes) hybrid_error :=
  if negb (length hybrid_sig =? HYBRID_SIGNATURE_SIZE)%nat then Err SignatureSize
  else Ok (take ED25519_SIGNATURE_SIZE hybrid_sig, drop ED25519_SIGNATURE_SIZE hybrid_sig).

(** ** Verification: both halves *)

Definition verify_hybrid_signature (hybrid_public_key message hybrid_signature : bytes)
    : result unit hybrid_error :=
  let? '(ed_pk, mldsa_pk) := split_hybrid_public_key hybrid_public_key in
  let? '(ed_sig, mldsa_sig) := split_hybrid_signature hybrid_signature in
  if negb (ss_verify ed ed_pk message ed_sig) then Err Ed25519Failed
  else if negb (ss_verify mldsa mldsa_pk message mldsa_sig) then Err MlDsaFailed
  else Ok tt.

Definition verify_hybrid_kyber_prekey_signature_v2
    (hybrid_verifying_key : bytes) (created_at : Z) (kyber_public_key hybrid_signature : bytes)
    : result unit hybrid_error :=
  let message := build_kyber_prekey_sign_message_v2 created_at kyber_public_key in
  verify_hybrid_signature hybrid_verifying_key message hybrid_signature.

Definition verify_kyber_prekey_signature_v2
    (verifying_key : bytes) (created_at : Z) (public_key signature : bytes)
    : result unit hybrid_error :=
  if negb (length verifying_key =? ED25519_PUBLIC_KEY_SIZE)%nat then Err VerifyingKeySize
  else if negb (length signature =? ED25519_SIGNATURE_SIZE)%nat then Err SignatureSize
  else
    let message := build_kyber_prekey_sign_message_v2 created_at public_key in
    if ss_verify ed verifying_key message signature then Ok tt else Err Ed25519Failed.

(** ** Key generation and signing *)

Definition hybrid_signature_keypair_from_seeds (ed25519_seed mldsa_seed : bytes)
    : bytes * bytes :=
  let mldsa_pk := ss_public mldsa mldsa_seed in
  (ed25519_seed ++ mldsa_seed ++ mldsa_pk, ss_public ed ed25519_seed ++ mldsa_pk).

Definition hybrid_sign (private_key message : bytes) : result bytes hybrid_error :=
  if negb (length private_key =? HYBRID_SIG_SECRET_KEY_SIZE)%nat then Err PrivateKeySize
  else
    let ed25519_seed := take 32 private_key in
    let mldsa_seed := take ML_DSA_65_SECRET_KEY_SIZE (drop 32 private_key) in
    match ss_sign ed ed25519_seed message with
    | None => Err Ed25519Failed
    | Some ed_sig =>
        match ss_sign mldsa mldsa_seed message with
        | None => Err MlDsaSigningFailed
        | Some mldsa_sig => Ok (ed_sig ++ mldsa_sig)
        end
    end.

(** ** Lemmas *)

Lemma verify_hybrid_both pk m s :
  verify_hybrid_signature pk m s = Ok tt <->
  length pk = HYBRID_SIG_PUBLIC_KEY_SIZE /\ length s = HYBRID_SIGNATURE_SIZE /\
  ss_verify ed (take ED25519_PUBLIC_KEY_SIZE pk) m (take ED25519_SIGNATURE_SIZE s) = true /\
  ss_verify mldsa (drop ED25519_PUBLIC_KEY_SIZE pk) m (drop ED25519_SIGNATURE_SIZE s) = true.
Proof.
  unfold verify_hybrid_signature, split_hybrid_public_key, split_hybrid_signature.
  destruct (Nat.eqb_spec (length pk) HYBRID_SIG_PUBLIC_KEY_SIZE); cbn [negb];
    [|split; [done|intros (?&?&?&?); done]].
  destruct (Nat.eqb_spec (length s) HYBRID_SIGNATURE_SIZE); cbn [negb];
    [|split; [done|intros (?&?&?&?); done]].
  destruct (ss_verify ed _ _ _); cbn [negb]; [|split; [done|intros (?&?&?&?); done]].
  destruct (ss_verify mldsa _ _ _); cbn [negb]; [|split; [done|intros (?&?&?&?); done]].
  done.
Qed.

Context `{!SigSchemeLaws ed 32 ED25519_PUBLIC_KEY_SIZE ED25519_SIGNATURE_SIZE}.
Context `{!SigSchemeLaws mldsa 32 ML_DSA_65_PUBLIC_KEY_SIZE ML_DSA_65_SIGNATURE_SIZE}.

Lemma hybrid_sign_verify es ms m s :
  length es = 32%nat -> length ms = 32%nat ->
  hybrid_sign (hybrid_signature_keypair_from_seeds es ms).1 m = Ok s ->
  verify_hybrid_signature (hybrid_signature_keypair_from_seeds es ms).2 m s = Ok tt.
Proof using Type*.
  intros He Hm. unfold hybrid_sign, hybrid_signature_keypair_from_seeds. cbn [fst snd].
  pose proof (ss_public_len (S := ed) _ He) as Hpe.
  pose proof (ss_public_len (S := mldsa) _ Hm) as Hpm.
  case_match; [done|].
  rewrite (take_app_length' es) by done. rewrite (drop_app_length' es) by done.
  rewrite (take_app_length' ms) by done.
  destruct (ss_sign ed es m) as [se|] eqn:Hse; [|done].
  destruct (ss_sign mldsa ms m) as [sm|] eqn:Hsm; [|done].
  intros [= <-]. apply verify_hybrid_both.
  pose proof (ss_sign_len (S := ed) _ _ _ Hse) as Hle.
  pose proof (ss_sign_len (S := mldsa) _ _ _ Hsm) as Hlm.
  rewrite !length_app, Hpe, Hpm, Hle, Hlm.
  rewrite (take_app_length' (ss_public ed es)), (drop_app_length' (ss_public ed es)) by done.
  rewrite (take_app_length' se), (drop_app_length' se) by done.
  repeat split; eapply ss_sign_verify; eauto.
Qed.

Lemma hybrid_private_key_len es ms :
  length es = 32%nat -> length ms = 32%nat ->
  length (hybrid_signature_keypair_from_seeds es ms).1 = HYBRID_SIG_SECRET_KEY_SIZE.
Proof using Type*.
  intros He Hm. cbn [hybrid_signature_keypair_from_seeds fst].
  by rewrite !length_app, He, Hm, (ss_public_len (S := mldsa) _ Hm).
Qed.

Lemma hybrid_sign_total es ms m :
  length es = 32%nat -> length ms = 32%nat ->
  (forall seed m, is_Some (ss_sign ed seed m)) ->
  (forall seed m, is_Some (ss_sign mldsa seed m)) ->
  exists s, hybrid_sign (hybrid_signature_keypair_from_seeds es ms).1 m = Ok s.
Proof using Type*.
  intros He Hm Hte Htm. unfold hybrid_sign.
  rewrite hybrid_private_key_len, Nat.eqb_refl by done. cbn [negb].
  destruct (Hte (take 32 (hybrid_signature_keypair_from_seeds es ms).1) m) as [se ->].
  destruct (Htm (take ML_DSA_65_SECRET_KEY_SIZE
                   (drop 32 (hybrid_signature_keypair_from_seeds es ms).1)) m) as [sm ->].
  eauto.
Qed.

End WithSchemes.

Lemma kyber_message_inj t1 t2 k1 k2 :
  in_u64 t1 -> in_u64 t2 ->
  build_kyber_prekey_sign_message_v2 t1 k1 = build_kyber_prekey_sign_message_v2 t2 k2 ->
  t1 = t2 /\ k1 = k2.
Proof.
  unfold in_u64, u64_max. intros H1 H2 H.
  unfold build_kyber_prekey_sign_message_v2, build_prekey_sign_message in H.
  apply app_inv_head in H. apply app_inv_head in H.
  apply app_inj_same_length in H as [Hn Hr]; [|by rewrite !length_be_bytes].
  apply be_bytes_inj in Hn; [done| |]; change (256 ^ Z.of_nat 8) with 18446744073709551616; lia.
Qed.

End Hybrid.

Module ServerTrust.
Import Hybrid.

Inductive Purpose := SenderCert | KtHead | StickerManifest.

#[global] Instance Purpose_eq_dec : EqDecision Purpose.
Proof. solve_decision. Defined.

(** The fields of [construct_server_trust::Delegation]. *)
Record Delegation := {
  d_purpose : Purpose;
  d_not_before : Z;
  d_not_after : Z;
  d_public_key : bytes;
  d_root_signature : bytes;
}.

Definition key_env (purpose : Purpose) : string :=
  match purpose with
  | SenderCert => "SERVER_TRUST_SENDER_CERT_KEY"
  | KtHead => "SERVER_TRUST_KT_HEAD_KEY"
  | StickerManifest => "SERVER_TRUST_STICKER_MANIFEST_KEY"
  end.

Record DelegatedSigner := {
  ds_purpose : Purpose;
  ds_private_key : bytes;
  ds_kid : bytes;
  ds_not_before : Z;
  ds_not_after : Z;
}.

Inductive trust_error :=
| NoDelegation
| NotRooted
| OutsideWindow
| SignFailed (e : hybrid_error).

Definition saturating_add_i64 (a b : Z) : Z := Z.max i64_min (Z.min i64_max (a + b)).

Section WithTrustCrate.
(** The construct-server-trust crate: the bytes a root and a delegated key
    sign, the key id, and how long after its window a purpose's delegation is
    still needed. *)
Context (ed mldsa : sig_scheme).
Context (signable : Delegation -> bytes).
Context (kid_of : bytes -> bytes).
Context (server_signable : Purpose -> bytes -> bytes -> bytes).
Context (grace_secs : Purpose -> option Z).

Definition servable_delegations (delegations : list Delegation) (now : Z) : list Delegation :=
  List.filter (fun d =>
    match grace_secs (d_purpose d) with
    | Some grace => now <=? saturating_add_i64 (d_not_after d) grace
    | None => true
    end) delegations.

Definition is_rooted (delegation : Delegation) (roots : list bytes) : bool :=
  let message := signable delegation in
  existsb (fun r =>
    is_ok (verify_hybrid_signature ed mldsa r message (d_root_signature delegation))) roots.

(** [Iterator::max_by_key]: the last of the elements with the largest key. *)
Definition max_by_not_after (ds : list Delegation) : option Delegation :=
  fold_left (fun best d =>
    match best with
    | None => Some d
    | Some b => if d_not_after b <=? d_not_after d then Some d else Some b
    end) ds None.

Definition names_key (purpose : Purpose) (public_key : bytes) (d : Delegation) : bool :=
  bool_decide (d_purpose d = purpose) && bool_decide (d_public_key d = public_key).

Definition new (purpose : Purpose) (seeds : bytes) (delegations : list Delegation)
    (roots : list bytes) : result DelegatedSigner trust_error :=
  let '(private_key, public_key) :=
    hybrid_signature_keypair_from_seeds ed mldsa (take 32 seeds) (drop 32 seeds) in
  let kid := kid_of public_key in
  match max_by_not_after (List.filter (names_key purpose public_key) delegations) with
  | None => Err NoDelegation
  | Some d =>
      if negb (bool_decide (roots = [])) && negb (is_rooted d roots) then Err NotRooted
      else Ok {| ds_purpose := purpose; ds_private_key := private_key; ds_kid := kid;
                 ds_not_before := d_not_before d; ds_not_after := d_not_after d |}
  end.

Definition sign (s : DelegatedSigner) (body : bytes) (signed_at : Z)
    : result bytes trust_error :=
  if (signed_at <? ds_not_before s) || (ds_not_after s <? signed_at) then Err OutsideWindow
  else
    match hybrid_sign ed mldsa (ds_private_key s)
            (server_signable (ds_purpose s) (ds_kid s) body) with
    | Ok sig => Ok sig
    | Err e => Err (SignFailed e)
    end.

(** ** Lemmas *)

Lemma max_by_not_after_acc ds b :
  exists m,
    fold_left (fun best d =>
      match best with
      | None => Some d
      | Some b => if d_not_after b <=? d_not_after d then Some d else Some b
      end) ds (Some b) = Some m
    /\ (m = b \/ In m ds)
    /\ d_not_after b <= d_not_after m
    /\ (forall d, In d ds -> d_not_after d <= d_not_after m).
Proof.
  revert b. induction ds as [|d ds IH]; intros b; cbn [fold_left].
  - exists b. repeat split; auto; [lia|done].
  - destruct (Z.leb_spec (d_not_after b) (d_not_after d)).
    + destruct (IH d) as (m & -> & Hm & Hle & Hall). exists m. repeat split; [|lia|].
      * destruct Hm as [->|]; right; cbn; auto.
      * intros d' [->|Hd']; auto.
    + destruct (IH b) as (m & -> & Hm & Hle & Hall). exists m. repeat split; [|lia|].
      * destruct Hm as [->|]; [by left|right; cbn; auto].
      * intros d' [->|Hd']; auto. lia.
Qed.

Lemma max_by_not_after_spec ds :
  match max_by_not_after ds with
  | None => ds = []
  | Some m => In m ds /\ forall d, In d ds -> d_not_after d <= d_not_after m
  end.
Proof.
  unfold max_by_not_after. destruct ds as [|d ds]; [done|]. cbn [fold_left].
  destruct (max_by_not_after_acc ds d) as (m & -> & Hm & Hle & Hall).
  split.
  - destruct Hm as [->|]; cbn; auto.
  - intros d' [->|Hd']; auto.
Qed.

Lemma names_key_spec purpose pk d :
  names_key purpose pk d = true <-> d_purpose d = purpose /\ d_public_key d = pk.
Proof. unfold names_key. by rewrite andb_true_iff, !bool_decide_eq_true. Qed.

(** What a signer that was built carries. *)
Lemma new_Ok purpose seeds delegations roots s :
  new purpose seeds delegations roots = Ok s ->
  let kp := hybrid_signature_keypair_from_seeds ed mldsa (take 32 seeds) (drop 32 seeds) in
  exists d,
    In d delegations /\ d_purpose d = purpose /\ d_public_key d = kp.2 /\
    (forall d', In d' delegations -> d_purpose d' = purpose -> d_public_key d' = kp.2 ->
                d_not_after d' <= d_not_after d) /\
    (roots <> [] -> exists r, In r roots /\
       verify_hybrid_signature ed mldsa r (signable d) (d_root_signature d) = Ok tt) /\
    s = {| ds_purpose := purpose; ds_private_key := kp.1; ds_kid := kid_of kp.2;
           ds_not_before := d_not_before d; ds_not_after := d_not_after d |}.
Proof.
  unfold new. cbn zeta.
  destruct (hybrid_signature_keypair_from_seeds _ _ _ _) as [sk pk]. cbn [fst snd].
  pose proof (max_by_not_after_spec (List.filter (names_key purpose pk) delegations)) as Hmax.
  destruct (max_by_not_after _) as [d|]; [|done].
  destruct Hmax as [Hin Hmax]. apply List.filter_In in Hin as [Hin [Hp Hk]%names_key_spec].
  case_match eqn:Hr; [done|]. intros [= <-]. exists d. repeat split; auto.
  - intros d' ? ? ?. apply Hmax, List.filter_In. split; [done|]. by apply names_key_spec.
  - intros Hne. apply andb_false_iff in Hr as [Hr|Hr].
    + apply negb_false_iff, bool_decide_eq_true in Hr. done.
    + apply negb_false_iff, existsb_exists in Hr as (r & Hr1 & Hr2). exists r. split; [done|].
      destruct (verify_hybrid_signature _ _ _ _ _) as [[]|]; done.
Qed.

End WithTrustCrate.

(** ** Properties *)

(** C31: a delegated key signs exactly inside its delegation's window, and what
    it signs verifies. When [new] builds a signer, there is a delegation of the
    offline root among the given ones that names the signer's own public key for
    the signer's purpose, no delegation of that key lasts longer, and it is
    signed by one of the configured roots if any is configured. Asked to sign at
    a time outside that delegation's window the signer refuses; inside it, a
    signature it returns verifies under the delegated public key as a hybrid
    signature over the purpose, key id and body, and it does return one whenever
    the two underlying schemes do. *)
Theorem delegated_signature_verifies
  (ed mldsa : sig_scheme) signable kid_of server_signable
  (Hed : SigSchemeLaws ed 32 ED25519_PUBLIC_KEY_SIZE ED25519_SIGNATURE_SIZE)
  (Hml : SigSchemeLaws mldsa 32 ML_DSA_65_PUBLIC_KEY_SIZE ML_DSA_65_SIGNATURE_SIZE)
  purpose seeds delegations roots s
  (Hseeds : length seeds = 64%nat)
  (Hnew : new ed mldsa signable kid_of purpose seeds delegations roots = Ok s) :
  exists d,
    In d delegations /\ d_purpose d = purpose /\
    (forall d', In d' delegations -> d_purpose d' = purpose ->
       d_public_key d' = d_public_key d -> d_not_after d' <= d_not_after d) /\
    (roots <> [] -> exists r, In r roots /\
       verify_hybrid_signature ed mldsa r (signable d) (d_root_signature d) = Ok tt) /\
    forall body t,
      (~ (d_not_before d <= t <= d_not_after d) ->
         sign ed mldsa server_signable s body t = Err OutsideWindow) /\
      (forall sig, sign ed mldsa server_signable s body t = Ok sig ->
         d_not_before d <= t <= d_not_after d /\
         verify_hybrid_signature ed mldsa (d_public_key d)
           (server_signable purpose (kid_of (d_public_key d)) body) sig = Ok tt) /\
      (d_not_before d <= t <= d_not_after d ->
         (forall seed m, is_Some (ss_sign ed seed m)) ->
         (forall seed m, is_Some (ss_sign mldsa seed m)) ->
         exists sig, sign ed mldsa server_signable s body t = Ok sig).
Proof.
  apply new_Ok in Hnew as (d & Hin & Hp & Hk & Hmax & Hroot & ->).
  exists d. rewrite Hk. repeat (split; [done|]). intros body t. unfold sign. cbn.
  destruct (Z.ltb_spec t (d_not_before d)), (Z.ltb_spec (d_not_after d) t); cbn;
    (split; [try done; intros; lia|]); try (split; [done|intros; lia]).
  split.
  - intros sig Hsig. split; [lia|].
    destruct (hybrid_sign _ _ _ _) as [sig'|] eqn:Hs; [|done]. injection Hsig as ->.
    eapply (hybrid_sign_verify ed mldsa); [..|exact Hs];
      rewrite ?length_take, ?length_drop; lia.
  - intros _ Htot1 Htot2. edestruct (hybrid_sign_total ed mldsa) as [sig Hs];
      [..|eexists; cbn in Hs; rewrite Hs; reflexivity]; auto;
      rewrite ?length_take, ?length_drop; lia.
Qed.

(** [/.well-known] keeps serving every delegation a client may still need.
    A delegation is dropped from what is served only when its purpose has a
    grace period and the time is past the end of its window plus that grace; in
    particular a delegation whose window is still open is always served. *)
Theorem servable_keeps_needed grace_secs delegations now d
  (Hgrace : forall p g, grace_secs p = Some g -> 0 <= g)
  (Hd : in_i64 (d_not_after d)) (Hnow : in_i64 now) :
  In d (servable_delegations grace_secs delegations now) <->
  In d delegations /\
  (now <= d_not_after d \/
   match grace_secs (d_purpose d) with
   | Some g => now <= d_not_after d + g
   | None => True
   end).
Proof.
  unfold servable_delegations. rewrite List.filter_In.
  unfold in_i64, saturating_add_i64, i64_min, i64_max in *.
  destruct (grace_secs (d_purpose d)) as [g|] eqn:Hg.
  - specialize (Hgrace _ _ Hg). rewrite Z.leb_le. intuition lia.
  - intuition.
Qed.

(** *** Witnesses: two toy schemes with the real sizes *)

Definition toy_scheme (pk_len sig_len : nat) : sig_scheme := {|
  ss_public seed := take pk_len (seed ++ replicate pk_len x00);
  ss_sign seed m := Some (take sig_len ((seed ++ m) ++ replicate sig_len x00));
  ss_verify pk m s := bool_decide (take sig_len ((take 32 pk ++ m) ++ replicate sig_len x00) = s);
|}.

Lemma toy_scheme_laws pk_len sig_len :
  (32 <= pk_len)%nat -> SigSchemeLaws (toy_scheme pk_len sig_len) 32 pk_len sig_len.
Proof.
  intros Hpk. split.
  - intros seed Hs. cbn. rewrite length_take, length_app, length_replicate. lia.
  - intros seed m s [= <-]. rewrite length_take, length_app, length_replicate. lia.
  - intros seed m s Hs [= <-]. cbn. apply bool_decide_eq_true.
    rewrite take_take, Nat.min_l by lia. by rewrite (take_app_length' seed).
Qed.

Definition toy_ed := toy_scheme ED25519_PUBLIC_KEY_SIZE ED25519_SIGNATURE_SIZE.
Definition toy_mldsa := toy_scheme ML_DSA_65_PUBLIC_KEY_SIZE ML_DSA_65_SIGNATURE_SIZE.
Definition toy_seeds : bytes := replicate 32 x05 ++ replicate 32 x06.

Definition toy_delegation : Delegation := {|
  d_purpose := KtHead; d_not_before := 1000; d_not_after := 2000;
  d_public_key :=
    (hybrid_signature_keypair_from_seeds toy_ed toy_mldsa (take 32 toy_seeds)
       (drop 32 toy_seeds)).2;
  d_root_signature := [];
|}.

Lemma delegated_signature_verifies_witness :
  exists s d,
    new toy_ed toy_mldsa (fun _ => []) (take 4) KtHead toy_seeds [toy_delegation] [] = Ok s
    /\ In d [toy_delegation]
    /\ (forall body sig,
          sign toy_ed toy_mldsa (fun _ k b => k ++ b) s body 1500 = Ok sig ->
          verify_hybrid_signature toy_ed toy_mldsa (d_public_key d)
            (take 4 (d_public_key d) ++ body) sig = Ok tt).
Proof.
  eexists.
  edestruct (delegated_signature_verifies toy_ed toy_mldsa (fun _ => []) (take 4)
    (fun _ k b => k ++ b)) with (purpose := KtHead) (seeds := toy_seeds)
    (delegations := [toy_delegation]) (roots := @nil bytes) as (d & Hin & _ & _ & _ & Hsign).
  - apply toy_scheme_laws. vm_compute. lia.
  - apply toy_scheme_laws. unfold ML_DSA_65_PUBLIC_KEY_SIZE. lia.
  - reflexivity.
  - reflexivity.
  - exists d. split; [reflexivity|]. split; [exact Hin|].
    intros body sig Hs. destruct (Hsign body 1500) as (_ & Hv & _). by apply Hv.
Defined.

Lemma servable_keeps_needed_witness :
  In toy_delegation (servable_delegations (fun _ => Some 600) [toy_delegation] 2600).
Proof.
  apply (servable_keeps_needed (fun _ => Some 600) [toy_delegation] 2600 toy_delegation).
  - intros p g [= <-]. lia.
  - vm_compute. split; discriminate.
  - vm_compute. split; discriminate.
  - split; [left; reflexivity|]. right. vm_compute. discriminate.
Defined.

End ServerTrust.
