(* ===== verification/KeyTransparency.v ===== *)
(** * Key transparency: the append-only log and the proofs of a bundle

    Models the database half of key-service/src/kt.rs: the [kt_leaves] table
    with its stored [tree_index], [db_ensure_leaf] (one transaction under an
    advisory lock), [db_get_all_leaves], [proofs_from_snapshot] and
    [build_kt_proofs]. The SQL statements are translated to functions on the
    list of rows. A statement may fail: [fault] says which one does, and a
    transaction that is not committed leaves the table as it was. Other requests
    append between the transactions of one [build_kt_proofs]; that interference
    is explicit. *)

From stdpp Require Import sorting.
From S2P Require Import Prelude Merkle ServerTrust.

Module KeyTransparency.
Import Merkle.

Definition LEAF_KIND_IDENTITY : Z := 0.
Definition LEAF_KIND_HYBRID : Z := 1.

(** A row of [kt_leaves], as migrations 044, 047 and 073 leave the table. *)
Record KtRow := {
  row_device_id : string;
  row_leaf_hash : bytes;
  row_leaf_kind : Z;
  row_tree_index : Z;
}.

Inductive kt_error :=
| DbError (context : string)
| LeafHashSize
| NoSuchIndex (index : Z).

(** ** SQL

    [SELECT .. ORDER BY tree_index DESC LIMIT 1] over the rows of a series. *)

Definition in_series (device_id : string) (leaf_kind : Z) (r : KtRow) : bool :=
  bool_decide (row_device_id r = device_id) && (row_leaf_kind r =? leaf_kind).

Definition order_desc_limit_1 (rows : list KtRow) : option KtRow :=
  fold_left (fun best r =>
    match best with
    | None => Some r
    | Some b => if row_tree_index b <? row_tree_index r then Some r else Some b
    end) rows None.

Definition select_latest (table : list KtRow) (device_id : string) (leaf_kind : Z)
    : option KtRow :=
  order_desc_limit_1 (List.filter (in_series device_id leaf_kind) table).

(** [COALESCE(MAX(tree_index), -1) + 1] *)
Definition next_tree_index (table : list KtRow) : Z :=
  fold_right (fun r m => Z.max (row_tree_index r) m) (-1) table + 1.

(** [ORDER BY tree_index ASC] *)
Definition tree_le (a b : KtRow) : Prop := row_tree_index a <= row_tree_index b.

#[export] Instance tree_le_dec a b : Decision (tree_le a b).
Proof. unfold tree_le. apply _. Defined.

#[export] Instance tree_le_trans : Transitive tree_le.
Proof. intros a b c. unfold tree_le. lia. Qed.

#[export] Instance tree_le_total : Total tree_le.
Proof. intros a b. unfold tree_le. lia. Qed.

Definition order_by_tree_index (table : list KtRow) : list KtRow :=
  merge_sort tree_le table.

(** ** [db_ensure_leaf] *)

Definition db_ensure_leaf (fault : string -> bool) (table : list KtRow)
    (device_id : string) (leaf_kind : Z) (lhash : bytes)
    : list KtRow * result Z kt_error :=
  if fault "kt_ensure_leaf: begin failed"%string
  then (table, Err (DbError "kt_ensure_leaf: begin failed"))
  else if fault "kt_ensure_leaf: lock failed"%string
  then (table, Err (DbError "kt_ensure_leaf: lock failed"))
  else if fault "kt_ensure_leaf: fetch latest failed"%string
  then (table, Err (DbError "kt_ensure_leaf: fetch latest failed"))
  else
    let insert :=
      let row := {| row_device_id := device_id; row_leaf_hash := lhash;
                    row_leaf_kind := leaf_kind; row_tree_index := next_tree_index table |} in
      if fault "kt_ensure_leaf: insert failed"%string
      then (table, Err (DbError "kt_ensure_leaf: insert failed"))
      else if fault "kt_ensure_leaf: commit failed"%string
      then (table, Err (DbError "kt_ensure_leaf: commit failed"))
      else (table ++ [row], Ok (wrap_u64 (row_tree_index row))) in
    match select_latest table device_id leaf_kind with
    | Some existing =>
        if bool_decide (row_leaf_hash existing = lhash) then
          if fault "kt_ensure_leaf: commit failed"%string
          then (table, Err (DbError "kt_ensure_leaf: commit failed"))
          else (table, Ok (wrap_u64 (row_tree_index existing)))
        else insert
    | None => insert
    end.

(** ** [db_get_all_leaves] *)

Fixpoint collect_leaf_hashes (rows : list KtRow) : result (list bytes) kt_error :=
  match rows with
  | [] => Ok []
  | r :: rest =>
      if negb (length (row_leaf_hash r) =? 32)%nat then Err LeafHashSize
      else let? hs := collect_leaf_hashes rest in Ok (row_leaf_hash r :: hs)
  end.

Definition db_get_all_leaves (fault : string -> bool) (table : list KtRow)
    : result (list bytes) kt_error :=
  if fault "kt_get_all_leaves: fetch failed"%string
  then Err (DbError "kt_get_all_leaves: fetch failed")
  else collect_leaf_hashes (order_by_tree_index table).

(** ** Proofs *)

Record KtProof := {
  leaf_index : Z;
  tree_size : Z;
  root_hash : bytes;
  proof_hashes : list bytes;
  tree_head_signature : bytes;
}.

Record SignedTreeHead := {
  sth_tree_size : Z;
  sth_root_hash : bytes;
  sth_kid : bytes;
  sth_signature : bytes;
}.

Record KtProofs := {
  identity : KtProof;
  hybrid : option KtProof;
  head : option SignedTreeHead;
}.

Section WithCrypto.
(** SHA-256, the Ed25519 bundle key, and the delegated head signer (its key id
    and its [sign], see ServerTrust.v) with the body it signs. *)
Context (sha256 : bytes -> bytes).
Context (signing_key : bytes -> bytes).
Context (kt_head_body : Z -> bytes -> bytes).
Context (head_signer : option (bytes * (bytes -> Z -> result bytes ServerTrust.trust_error))).

Definition proofs_from_snapshot (all_leaves : list bytes) (identity_index : Z)
    (hybrid_index : option Z) (now : Z) : result KtProofs kt_error :=
  let size := Z.of_nat (length all_leaves) in
  let proof_at (index : Z) :=
    ok_or (generate_inclusion_proof sha256 all_leaves (Z.to_nat index)) (NoSuchIndex index) in
  let? '(identity_hashes, root) := proof_at identity_index in
  let ed25519_head := signing_key (tree_head_signable size root) in
  let proof (index : Z) (hashes : list bytes) :=
    {| leaf_index := index; tree_size := size; root_hash := root;
       proof_hashes := hashes; tree_head_signature := ed25519_head |} in
  let? hybrid_proof :=
    match hybrid_index with
    | Some index => let? '(hashes, _) := proof_at index in Ok (Some (proof index hashes))
    | None => Ok None
    end in
  let signed_head :=
    match head_signer with
    | Some (kid, sign) =>
        match sign (kt_head_body size root) now with
        | Ok signature =>
            Some {| sth_tree_size := size; sth_root_hash := root;
                    sth_kid := kid; sth_signature := signature |}
        | Err _ => None
        end
    | None => None
    end in
  Ok {| identity := proof identity_index identity_hashes;
        hybrid := hybrid_proof; head := signed_head |}.

(** [between1] and [between2] are what other requests do to the table after the
    first and after the second transaction. *)
Definition build_kt_proofs (fault : string -> bool) (between1 between2 : list KtRow -> list KtRow)
    (table : list KtRow) (device_id : string) (identity_key : bytes)
    (hybrid_identity_key : option bytes) (now : Z)
    : list KtRow * result KtProofs kt_error :=
  match db_ensure_leaf fault table device_id LEAF_KIND_IDENTITY
          (leaf_hash sha256 device_id identity_key) with
  | (t1, Err e) => (t1, Err e)
  | (t1, Ok identity_index) =>
      let t1 := between1 t1 in
      let '(t2, hybrid_index) :=
        match hybrid_identity_key with
        | Some key =>
            match db_ensure_leaf fault t1 device_id LEAF_KIND_HYBRID
                    (hybrid_leaf_hash sha256 device_id key) with
            | (t2, Ok i) => (t2, Ok (Some i))
            | (t2, Err e) => (t2, Err e)
            end
        | None => (t1, Ok None)
        end in
      match hybrid_index with
      | Err e => (t2, Err e)
      | Ok hybrid_index =>
          let t3 := between2 t2 in
          match db_get_all_leaves fault t3 with
          | Err e => (t3, Err e)
          | Ok all_leaves =>
              (t3, proofs_from_snapshot all_leaves identity_index hybrid_index now)
          end
      end
  end.

End WithCrypto.

(** ** The invariant of the log

    Row [i] of the table is at tree position [i] and holds a 32-byte hash; the
    table is shorter than [i64::MAX]. *)

Record log_wf (table : list KtRow) : Prop := {
  log_dense : forall i r, table !! i = Some r -> row_tree_index r = Z.of_nat i;
  log_hash32 : Forall (fun r => hash32 (row_leaf_hash r)) table;
}.

Lemma log_wf_nil : log_wf [].
Proof. split; [done|constructor]. Qed.

Lemma next_tree_index_wf table :
  log_wf table -> next_tree_index table = Z.of_nat (length table).
Proof.
  intros [Hd _]. unfold next_tree_index.
  enough (fold_right (fun r m => Z.max (row_tree_index r) m) (-1) table
          = Z.of_nat (length table) - 1) by lia.
  induction table as [|r table IH] using rev_ind; [done|].
  rewrite fold_right_app, length_app. cbn [fold_right length].
  assert (row_tree_index r = Z.of_nat (length table)) as ->.
  { apply Hd. by rewrite lookup_app_r, Nat.sub_diag by lia. }
  assert (fold_right (fun r m => Z.max (row_tree_index r) m) (-1) table
          = Z.of_nat (length table) - 1) as IH'.
  { apply IH. intros i r' Hi. apply Hd. rewrite lookup_app_l; [done|].
    by eapply lookup_lt_Some. }
  clear IH Hd.
  assert (forall b, -1 <= b ->
    fold_right (fun r m => Z.max (row_tree_index r) m) b table
    = Z.max b (fold_right (fun r m => Z.max (row_tree_index r) m) (-1) table)) as Hb.
  { clear IH'. induction table as [|r' table IH]; intros b Hb'; cbn [fold_right]; [lia|].
    rewrite IH by done. lia. }
  rewrite Hb, IH' by lia. lia.
Qed.

Lemma log_wf_snoc table r :
  log_wf table -> row_tree_index r = Z.of_nat (length table) -> hash32 (row_leaf_hash r) ->
  log_wf (table ++ [r]).
Proof.
  intros [Hd Hh] Hr Hl. split.
  - intros i r' Hi. apply lookup_app_Some in Hi as [Hi|[Hi Hr']]; [by apply Hd|].
    destruct (i - length table)%nat as [|k] eqn:Hk; [|done]. injection Hr' as <-.
    rewrite Hr. lia.
  - apply Forall_app. split; [done|]. by repeat constructor.
Qed.

Lemma log_wf_lookup table i r :
  log_wf table -> r ∈ table -> row_tree_index r = Z.of_nat i -> table !! i = Some r.
Proof.
  intros [Hd _] Hr Hi. apply list_elem_of_lookup in Hr as [j Hj].
  pose proof (Hd _ _ Hj). assert (i = j) as -> by lia. done.
Qed.

Lemma order_desc_limit_1_in rows r : order_desc_limit_1 rows = Some r -> In r rows.
Proof.
  unfold order_desc_limit_1.
  assert (forall best, fold_left (fun best r =>
    match best with
    | None => Some r
    | Some b => if row_tree_index b <? row_tree_index r then Some r else Some b
    end) rows best = Some r -> best = Some r \/ In r rows) as H.
  { induction rows as [|a rows IH]; intros best; cbn [fold_left]; [by left|].
    intros Hf. apply IH in Hf as [Hf|Hf]; [|right; by right].
    destruct best as [b|]; [|right; left; congruence].
    case_match; [right; left; congruence|by left]. }
  intros Hf. by destruct (H _ Hf).
Qed.

Lemma select_latest_Some table device_id kind r :
  select_latest table device_id kind = Some r ->
  r ∈ table /\ row_device_id r = device_id /\ row_leaf_kind r = kind.
Proof.
  intros H. apply order_desc_limit_1_in, List.filter_In in H as [Hin Hs].
  unfold in_series in Hs. bool_to_prop. rewrite list_elem_of_In. done.
Qed.

(** The tree order is the row order. *)
Lemma order_by_tree_index_wf table : log_wf table -> order_by_tree_index table = table.
Proof.
  intros Hwf. unfold order_by_tree_index.
  pose proof (StronglySorted_merge_sort tree_le table) as Hs1.
  pose proof (merge_sort_Permutation tree_le table) as Hp.
  assert (StronglySorted tree_le table) as Hs2.
  { destruct Hwf as [Hd _]. clear Hs1 Hp. induction table as [|r table IH] using rev_ind;
      [constructor|].
    apply StronglySorted_app_2; [| |by repeat constructor].
    - intros a b Ha Hb. apply list_elem_of_singleton in Hb as ->.
      apply list_elem_of_lookup in Ha as [i Hi]. unfold tree_le.
      rewrite (Hd i a), (Hd (length table) r).
      + apply lookup_lt_Some in Hi. lia.
      + by rewrite lookup_app_r, Nat.sub_diag by lia.
      + rewrite lookup_app_l; [done|]. by eapply lookup_lt_Some.
    - apply IH. intros i a Hi. apply Hd. rewrite lookup_app_l; [done|].
      by eapply lookup_lt_Some. }
  apply (StronglySorted_unique_strong tree_le); [|done|done|done].
  intros a b Ha Hb Hab Hba. unfold tree_le in *. rewrite Hp in Ha.
  apply list_elem_of_lookup in Ha as [i Hi]. apply list_elem_of_lookup in Hb as [j Hj].
  pose proof (log_dense _ Hwf _ _ Hi). pose proof (log_dense _ Hwf _ _ Hj).
  assert (i = j) as -> by lia. congruence.
Qed.

Lemma order_desc_limit_1_snoc rows r :
  (forall a, In a rows -> row_tree_index a < row_tree_index r) ->
  order_desc_limit_1 (rows ++ [r]) = Some r.
Proof.
  intros H. unfold order_desc_limit_1. rewrite fold_left_app. cbn [fold_left].
  destruct (fold_left _ rows None) as [b|] eqn:Hb; [|done].
  apply order_desc_limit_1_in in Hb. apply H in Hb.
  destruct (Z.ltb_spec (row_tree_index b) (row_tree_index r)); [done|lia].
Qed.

(** A row just appended is the latest of its series. *)
Lemma select_latest_snoc table r :
  log_wf table -> row_tree_index r = Z.of_nat (length table) ->
  select_latest (table ++ [r]) (row_device_id r) (row_leaf_kind r) = Some r.
Proof.
  intros [Hd _] Hr. unfold select_latest. rewrite List.filter_app. cbn [List.filter].
  assert (in_series (row_device_id r) (row_leaf_kind r) r = true) as ->.
  { unfold in_series. by rewrite bool_decide_true, Z.eqb_refl by done. }
  apply order_desc_limit_1_snoc. intros a [Ha _]%List.filter_In.
  apply list_elem_of_In, list_elem_of_lookup in Ha as [i Hi].
  rewrite (Hd _ _ Hi), Hr. apply lookup_lt_Some in Hi. lia.
Qed.

(** What one call of [db_ensure_leaf] does to a well-formed log: it appends at
    most one row, never touches the others, and the position it returns holds
    the asked-for leaf, which is then the latest of its series. *)
Definition ensured (table table' : list KtRow) (device_id : string) (kind : Z) (lhash : bytes)
    (res : result Z kt_error) : Prop :=
  log_wf table' /\
  match res with
  | Err _ => table' = table
  | Ok i =>
      (table' = table \/ exists r, table' = table ++ [r]) /\
      exists r, table' !! Z.to_nat i = Some r /\ 0 <= i /\
        row_device_id r = device_id /\ row_leaf_kind r = kind /\ row_leaf_hash r = lhash /\
        row_tree_index r = i /\ select_latest table' device_id kind = Some r
  end.

Section EnsureLeaf.
Context (fault : string -> bool) (table : list KtRow).
Context (Hwf : log_wf table) (Hsize : Z.of_nat (length table) < i64_max).
Context (device_id : string) (kind : Z) (lhash : bytes) (Hhash : hash32 lhash).

Lemma ensured_existing r :
  select_latest table device_id kind = Some r -> row_leaf_hash r = lhash ->
  ensured table table device_id kind lhash (Ok (wrap_u64 (row_tree_index r))).
Proof using Hwf Hsize.
  intros Hs Hl. pose proof (select_latest_Some _ _ _ _ Hs) as (Hin & Hdev & Hk).
  apply list_elem_of_lookup in Hin as [i Hi].
  pose proof (log_dense _ Hwf _ _ Hi) as Hidx. pose proof (lookup_lt_Some _ _ _ Hi).
  rewrite wrap_u64_id by (unfold in_u64, u64_max, i64_max in *; lia).
  split; [done|]. split; [by left|]. exists r. rewrite Hidx, Nat2Z.id.
  repeat split; auto; lia.
Qed.

Lemma ensured_insert :
  let row := {| row_device_id := device_id; row_leaf_hash := lhash;
                row_leaf_kind := kind; row_tree_index := next_tree_index table |} in
  ensured table (table ++ [row]) device_id kind lhash (Ok (wrap_u64 (row_tree_index row))).
Proof using Hwf Hsize Hhash.
  intros row.
  assert (row_tree_index row = Z.of_nat (length table)) as Hrow by by apply next_tree_index_wf.
  rewrite wrap_u64_id by (unfold in_u64, u64_max, i64_max in *; lia).
  split; [by apply log_wf_snoc|]. split; [eauto|]. exists row.
  rewrite Hrow, Nat2Z.id, lookup_app_r, Nat.sub_diag by lia.
  repeat split; auto; try lia. by apply (select_latest_snoc table row).
Qed.

Lemma db_ensure_leaf_ensured :
  ensured table (db_ensure_leaf fault table device_id kind lhash).1 device_id kind lhash
    (db_ensure_leaf fault table device_id kind lhash).2.
Proof using Hwf Hsize Hhash.
  unfold db_ensure_leaf.
  destruct (fault _); [by split|]. destruct (fault _); [by split|]. destruct (fault _); [by split|].
  destruct (select_latest table device_id kind) as [r|] eqn:Hs; [case_bool_decide|].
  - destruct (fault _); [by split|]. by apply ensured_existing.
  - destruct (fault _); [by split|]. destruct (fault _); [by split|]. apply ensured_insert.
  - destruct (fault _); [by split|]. destruct (fault _); [by split|]. apply ensured_insert.
Qed.

End EnsureLeaf.

Lemma ensured_prefix t t' d k h res : ensured t t' d k h res -> t `prefix_of` t'.
Proof.
  intros [_ H]. destruct res as [i|e]; [|by subst].
  destruct H as [[->|[r ->]] _]; [done|by apply prefix_app_r].
Qed.

Lemma collect_leaf_hashes_wf rows :
  Forall (fun r => hash32 (row_leaf_hash r)) rows ->
  collect_leaf_hashes rows = Ok (map row_leaf_hash rows).
Proof.
  induction 1 as [|r rows Hr _ IH]; [done|]. cbn [collect_leaf_hashes map].
  unfold hash32 in Hr. rewrite Hr, IH. done.
Qed.

Lemma db_get_all_leaves_wf fault table :
  log_wf table -> fault "kt_get_all_leaves: fetch failed"%string = false ->
  db_get_all_leaves fault table = Ok (map row_leaf_hash table).
Proof.
  intros Hwf Hf. unfold db_get_all_leaves. rewrite Hf, order_by_tree_index_wf by done.
  apply collect_leaf_hashes_wf, Hwf.
Qed.

(** A proof, with the head it is relative to. *)
Definition proof_ok (sha256 signing_key : bytes -> bytes) (all_leaves : list bytes)
    (leaf : bytes) (p : KtProof) : Prop :=
  0 <= leaf_index p /\ tree_size p = Z.of_nat (length all_leaves) /\
  root_hash p = merkle_root sha256 all_leaves /\
  verify_inclusion sha256 leaf (proof_hashes p) (Z.to_nat (leaf_index p))
    (Z.to_nat (tree_size p)) (root_hash p) = true /\
  tree_head_signature p = signing_key (tree_head_signable (tree_size p) (root_hash p)).

Lemma proofs_from_snapshot_ok sha256 signing_key body signer leaves i oj leaf now :
  0 <= i -> leaves !! Z.to_nat i = Some leaf ->
  match oj with Some j => 0 <= j /\ is_Some (leaves !! Z.to_nat j) | None => True end ->
  exists ps, proofs_from_snapshot sha256 signing_key body signer leaves i oj now = Ok ps /\
    leaf_index (identity ps) = i /\
    proof_ok sha256 signing_key leaves leaf (identity ps) /\
    match oj with
    | None => hybrid ps = None
    | Some j => exists p, hybrid ps = Some p /\ leaf_index p = j /\
        forall l, leaves !! Z.to_nat j = Some l -> proof_ok sha256 signing_key leaves l p
    end /\
    match head ps with
    | None => True
    | Some h => sth_tree_size h = Z.of_nat (length leaves) /\
                sth_root_hash h = merkle_root sha256 leaves
    end.
Proof.
  intros Hi Hleaf Hj. unfold proofs_from_snapshot.
  rewrite generate_inclusion_proof_Some by by eapply lookup_lt_Some. cbn [ok_or].
  assert (forall j l, 0 <= j -> leaves !! Z.to_nat j = Some l ->
    proof_ok sha256 signing_key leaves l
      {| leaf_index := j; tree_size := Z.of_nat (length leaves);
         root_hash := merkle_root sha256 leaves;
         proof_hashes := inclusion_proof_inner sha256 leaves (Z.to_nat j);
         tree_head_signature := signing_key (tree_head_signable (Z.of_nat (length leaves))
                                  (merkle_root sha256 leaves)) |}) as Hok.
  { intros j l Hj0 Hl. repeat split; cbn; auto. rewrite Nat2Z.id. by apply verify_generated. }
  destruct oj as [j|].
  - destruct Hj as [Hj0 [lj Hlj]].
    rewrite generate_inclusion_proof_Some by by eapply lookup_lt_Some. cbn [ok_or].
    eexists. split; [done|]. cbn. repeat split; eauto 6 using verify_generated.
    + by apply Hok.
    + split_matches.
  - eexists. split; [done|]. cbn. repeat split; eauto 6.
    + by apply Hok.
    + split_matches.
Qed.

(** ** Histories: requests that append, one transaction after the other *)

Record ensure_req := {
  rq_device : string; rq_kind : Z; rq_hash : bytes; rq_fault : string -> bool;
}.

Definition ensure_step (table : list KtRow) (rq : ensure_req) : list KtRow :=
  (db_ensure_leaf (rq_fault rq) table (rq_device rq) (rq_kind rq) (rq_hash rq)).1.

Definition ensure_all (reqs : list ensure_req) (table : list KtRow) : list KtRow :=
  fold_left ensure_step reqs table.

Lemma ensured_length t t' d k h res :
  ensured t t' d k h res -> (length t' <= S (length t))%nat.
Proof.
  intros [_ H]. destruct res as [i|e]; [|by subst; lia].
  destruct H as [[->|[r ->]] _]; [lia|]. rewrite length_app. cbn. lia.
Qed.

Lemma ensure_all_spec reqs table :
  log_wf table -> Forall (fun rq => hash32 (rq_hash rq)) reqs ->
  Z.of_nat (length table + length reqs) <= i64_max ->
  log_wf (ensure_all reqs table) /\ table `prefix_of` ensure_all reqs table /\
  (length (ensure_all reqs table) <= length table + length reqs)%nat.
Proof.
  intros Hwf Hall. revert table Hwf.
  induction Hall as [|rq reqs Hrq _ IH]; intros table Hwf Hsize; cbn [ensure_all fold_left length] in *.
  - split_and!; auto. lia.
  - assert (ensured table (ensure_step table rq) (rq_device rq) (rq_kind rq) (rq_hash rq)
              (db_ensure_leaf (rq_fault rq) table (rq_device rq) (rq_kind rq) (rq_hash rq)).2)
      as He by (apply db_ensure_leaf_ensured; auto; lia).
    pose proof (ensured_length _ _ _ _ _ _ He). pose proof (ensured_prefix _ _ _ _ _ _ He).
    destruct (IH (ensure_step table rq)) as (H1 & H2 & H3); [apply He|lia|].
    split_and!; [done|by transitivity (ensure_step table rq)|unfold ensure_all in *; lia].
Qed.

Lemma map_lookup_hash (t : list KtRow) i r :
  t !! i = Some r -> map row_leaf_hash t !! i = Some (row_leaf_hash r).
Proof. intros H. change (map row_leaf_hash t) with (row_leaf_hash <$> t). by rewrite list_lookup_fmap, H. Qed.

Lemma ensure_no_fault_Ok fault table d k h :
  (forall c, fault c = false) -> exists i, (db_ensure_leaf fault table d k h).2 = Ok i.
Proof. intros Hf. unfold db_ensure_leaf. rewrite !Hf. split_matches; eauto. Qed.

(** One successful append and whatever other requests append after it. *)
Lemma ensure_then fault t others d k h :
  (forall c, fault c = false) -> log_wf t -> Forall (fun rq => hash32 (rq_hash rq)) others ->
  hash32 h -> Z.of_nat (length t + length others + 1) <= i64_max ->
  exists t1 i r, db_ensure_leaf fault t d k h = (t1, Ok i) /\ 0 <= i /\ row_leaf_hash r = h /\
    let t' := ensure_all others t1 in
    log_wf t' /\ t `prefix_of` t' /\ (length t' <= length t + length others + 1)%nat /\
    t' !! Z.to_nat i = Some r.
Proof.
  intros Hf Hwf Ho Hh Hsize.
  pose proof (db_ensure_leaf_ensured fault t Hwf ltac:(lia) d k h Hh) as He.
  destruct (ensure_no_fault_Ok fault t d k h Hf) as [i Hi].
  destruct (db_ensure_leaf fault t d k h) as [t1 res]. cbn [fst snd] in *. subst res.
  pose proof (ensured_length _ _ _ _ _ _ He) as Hl1.
  pose proof (ensured_prefix _ _ _ _ _ _ He) as Hp1.
  destruct He as (Hwf1 & _ & r & Hr & Hi0 & _ & _ & Hrh & _).
  destruct (ensure_all_spec others t1 Hwf1 Ho ltac:(lia)) as (Hwf2 & Hp2 & Hl2).
  exists t1, i, r. split_and!; auto; [by transitivity t1|lia|by eapply prefix_lookup_Some].
Qed.

(** ** Properties *)

(** one append of the key log. On a well-formed log (row [i] at tree position
    [i], 32-byte hashes), whichever statement of the transaction fails,
    [db_ensure_leaf] leaves the log well formed and keeps every row it held, in
    place. When it succeeds, the position it returns holds a leaf of that device
    and kind with the given hash, that leaf is the latest of its series, and
    asking again returns the same position and appends nothing. *)
Theorem ensure_leaf_correct fault table device_id kind lhash
  (Hwf : log_wf table) (Hsize : Z.of_nat (length table) < i64_max) (Hhash : hash32 lhash) :
  let '(table', res) := db_ensure_leaf fault table device_id kind lhash in
  log_wf table' /\ table `prefix_of` table' /\
  match res with
  | Err _ => table' = table
  | Ok i =>
      (exists r, table' !! Z.to_nat i = Some r /\ row_device_id r = device_id /\
         row_leaf_kind r = kind /\ row_leaf_hash r = lhash /\ row_tree_index r = i /\
         select_latest table' device_id kind = Some r) /\
      db_ensure_leaf fault table' device_id kind lhash = (table', Ok i)
  end.
Proof.
  pose proof (db_ensure_leaf_ensured fault table Hwf Hsize device_id kind lhash Hhash) as He.
  destruct (db_ensure_leaf fault table device_id kind lhash) as [t' res] eqn:E. cbn [fst snd] in He.
  split; [apply He|]. split; [by eapply ensured_prefix|].
  destruct He as [Hwf' He]. destruct res as [i|e]; [|done].
  destruct He as (Ht & r & Hr & Hi & Hd & Hk & Hl & Hidx & Hlatest).
  split; [by exists r|].
  assert (fault "kt_ensure_leaf: begin failed" = false /\ fault "kt_ensure_leaf: lock failed" = false
    /\ fault "kt_ensure_leaf: fetch latest failed" = false
    /\ fault "kt_ensure_leaf: commit failed" = false)%string as (F1 & F2 & F3 & F4).
  { unfold db_ensure_leaf in E. repeat (case_match; simplify_eq; try done). }
  unfold db_ensure_leaf. rewrite F1, F2, F3, F4, Hlatest, bool_decide_true by done.
  rewrite Hidx, wrap_u64_id; [done|].
  assert (Z.to_nat i < length t')%nat by by eapply lookup_lt_Some.
  assert (length t' <= S (length table))%nat.
  { destruct Ht as [->|[r' ->]]; [lia|]. rewrite length_app. cbn. lia. }
  unfold in_u64, u64_max, i64_max in *. lia.
Qed.

(** C5: the proofs a key bundle carries verify, whatever runs concurrently.
    Starting from a well-formed log, with any other requests appending between
    the transactions of [build_kt_proofs], a run whose statements succeed
    returns proofs such that: the identity proof verifies for
    [leaf_hash device_id identity_key], the hybrid proof (present exactly when
    the device has a hybrid key) verifies for its hybrid leaf, both are relative
    to one size and one root, the root of the log that was loaded, both carry the
    bundle key's signature of that head, and the delegated head, if one was
    signed, is the same head. The log that is left extends the one it started
    from. *)
Theorem build_kt_proofs_correct sha256 signing_key body signer fault others1 others2 table
  device_id identity_key hybrid_key now
  (Hsha : forall x, hash32 (sha256 x)) (Hwf : log_wf table) (Hfault : forall c, fault c = false)
  (Ho1 : Forall (fun rq => hash32 (rq_hash rq)) others1)
  (Ho2 : Forall (fun rq => hash32 (rq_hash rq)) others2)
  (Hsize : Z.of_nat (length table + length others1 + length others2 + 2) <= i64_max) :
  exists table' ps,
    build_kt_proofs sha256 signing_key body signer fault (ensure_all others1)
      (ensure_all others2) table device_id identity_key hybrid_key now = (table', Ok ps) /\
    log_wf table' /\ table `prefix_of` table' /\
    let leaves := map row_leaf_hash table' in
    proof_ok sha256 signing_key leaves (leaf_hash sha256 device_id identity_key) (identity ps) /\
    match hybrid_key with
    | None => hybrid ps = None
    | Some key => exists p, hybrid ps = Some p /\
        proof_ok sha256 signing_key leaves (hybrid_leaf_hash sha256 device_id key) p
    end /\
    match head ps with
    | None => True
    | Some h => sth_tree_size h = tree_size (identity ps) /\
                sth_root_hash h = root_hash (identity ps)
    end.
Proof.
  unfold build_kt_proofs.
  destruct (ensure_then fault table others1 device_id LEAF_KIND_IDENTITY
    (leaf_hash sha256 device_id identity_key)) as (t1 & i & r1 & -> & Hi0 & <- & Hwf1 & Hp1 & Hl1 & Hr1);
    [done..|apply Hsha|lia|].
  set (t1' := ensure_all others1 t1) in *.
  destruct hybrid_key as [key|].
  - destruct (ensure_then fault t1' others2 device_id LEAF_KIND_HYBRID
      (hybrid_leaf_hash sha256 device_id key)) as (t2 & j & r2 & -> & Hj0 & <- & Hwf2 & Hp2 & Hl2 & Hr2);
      [done..|apply Hsha|lia|].
    rewrite db_get_all_leaves_wf by done.
    pose proof (prefix_lookup_Some _ _ _ _ Hr1 Hp2) as Hr1'.
    edestruct (proofs_from_snapshot_ok sha256 signing_key body signer
      (map row_leaf_hash (ensure_all others2 t2)) i (Some j))
      as (ps & -> & _ & Hok & (p & Hh & _ & Hpok) & Hhead);
      [done|by apply map_lookup_hash|split; [done|by rewrite (map_lookup_hash _ _ _ Hr2)]|].
    exists (ensure_all others2 t2), ps. split_and!; auto.
    + by transitivity t1'.
    + exists p. split; [done|]. by apply Hpok, map_lookup_hash.
    + destruct Hok as (_ & -> & -> & _). by destruct (head ps).
  - destruct (ensure_all_spec others2 t1') as (Hwf2 & Hp2 & Hl2); [done..|lia|].
    rewrite db_get_all_leaves_wf by done.
    pose proof (prefix_lookup_Some _ _ _ _ Hr1 Hp2) as Hr1'.
    edestruct (proofs_from_snapshot_ok sha256 signing_key body signer
      (map row_leaf_hash (ensure_all others2 t1')) i None)
      as (ps & -> & _ & Hok & Hh & Hhead); [done|by apply map_lookup_hash|done|].
    exists (ensure_all others2 t1'), ps. split_and!; auto.
    + by transitivity t1'.
    + destruct Hok as (_ & -> & -> & _). by destruct (head ps).
Qed.

(** the key log is append-only under failures and interleaving. Any sequence
    of [db_ensure_leaf] transactions, each with any of its statements failing,
    keeps a well-formed log well formed, keeps every leaf at its position, and
    therefore keeps the root that was published for every earlier size: the root
    over the first [n] leaves of the later log is the root of the earlier log. *)
Theorem log_append_only sha256 reqs table
  (Hwf : log_wf table) (Hreqs : Forall (fun rq => hash32 (rq_hash rq)) reqs)
  (Hsize : Z.of_nat (length table + length reqs) <= i64_max) :
  let table' := ensure_all reqs table in
  log_wf table' /\ table `prefix_of` table' /\
  (forall fault, fault "kt_get_all_leaves: fetch failed"%string = false ->
   exists leaves, db_get_all_leaves fault table' = Ok leaves /\
     length leaves = length table' /\
     merkle_root sha256 (take (length table) leaves)
     = merkle_root sha256 (map row_leaf_hash table)).
Proof.
  destruct (ensure_all_spec reqs table Hwf Hreqs Hsize) as (Hwf' & Hp & _).
  split; [done|]. split; [done|]. intros fault Hf.
  rewrite db_get_all_leaves_wf by done. eexists. split; [done|].
  split; [by rewrite length_map|]. destruct Hp as [k ->].
  by rewrite map_app, take_app_length' by by rewrite length_map.
Qed.

(** *** Witnesses *)

Definition no_fault : string -> bool := fun _ => false.

Definition toy_req (d : string) (kind : Z) (b : byte) : ensure_req :=
  {| rq_device := d; rq_kind := kind; rq_hash := toy_sha256 [b]; rq_fault := no_fault |}.

Definition toy_log : list KtRow :=
  ensure_all [toy_req "a" 0 x01; toy_req "b" 0 x02; toy_req "a" 0 x03; toy_req "a" 0 x03] [].

Example toy_log_positions : map row_tree_index toy_log = [0; 1; 2].
Proof. reflexivity. Qed.

Lemma toy_log_wf : log_wf toy_log.
Proof.
  apply (ensure_all_spec [toy_req "a" 0 x01; toy_req "b" 0 x02; toy_req "a" 0 x03;
    toy_req "a" 0 x03] []).
  - apply log_wf_nil.
  - repeat constructor.
  - vm_compute. discriminate.
Qed.

Lemma ensure_leaf_correct_witness :
  let '(table', res) := db_ensure_leaf no_fault toy_log "c" 1 (toy_sha256 [x07]) in
  res = Ok 3 /\ log_wf table'.
Proof.
  pose proof (ensure_leaf_correct no_fault toy_log "c" 1 (toy_sha256 [x07])
    toy_log_wf ltac:(vm_compute; reflexivity) eq_refl) as H.
  destruct (db_ensure_leaf no_fault toy_log "c" 1 (toy_sha256 [x07])) as [t r] eqn:E.
  vm_compute in E. injection E as <- <-. split; [reflexivity|]. apply H.
Defined.

Lemma build_kt_proofs_correct_witness :
  exists table' ps,
    build_kt_proofs toy_sha256 (take 8) (fun _ r => r) None no_fault
      (ensure_all [toy_req "x" 0 x08]) (ensure_all [toy_req "y" 0 x09]) toy_log "d" [x0a]
      (Some [x0b]) 7 = (table', Ok ps)
    /\ tree_size (identity ps) = 7 /\ log_wf table'.
Proof.
  destruct (build_kt_proofs_correct toy_sha256 (take 8) (fun _ r => r) None no_fault
    [toy_req "x" 0 x08] [toy_req "y" 0 x09] toy_log "d" [x0a] (Some [x0b]) 7)
    as (t & ps & Hb & Hwf & _ & Hid & _).
  - apply toy_sha256_len.
  - apply toy_log_wf.
  - reflexivity.
  - repeat constructor.
  - repeat constructor.
  - vm_compute. discriminate.
  - exists t, ps. split; [exact Hb|]. split; [|exact Hwf].
    destruct Hid as (_ & Hs & _). rewrite Hs.
    assert (t = (build_kt_proofs toy_sha256 (take 8) (fun _ r => r) None no_fault
      (ensure_all [toy_req "x" 0 x08]) (ensure_all [toy_req "y" 0 x09]) toy_log "d" [x0a]
      (Some [x0b]) 7).1) as -> by by rewrite Hb.
    vm_compute. reflexivity.
Defined.

Lemma log_append_only_witness :
  log_wf (ensure_all [toy_req "z" 1 x0c] toy_log).
Proof.
  apply (log_append_only toy_sha256 [toy_req "z" 1 x0c] toy_log).
  - apply toy_log_wf.
  - repeat constructor.
  - vm_compute. discriminate.
Defined.

End KeyTransparency.
