(* ===== verification/DegradedLimiter.v ===== *)
(** * The degraded rate limiter: circuit breaker and bounded fallback counters

    Models crates/construct-rate-limit/src/degraded.rs. The atomics and the
    sixteen mutex-protected shards of [DegradedLimiter] are the fields of a
    record; each method is one step on it. Hashes and counters keep their
    machine widths. *)

From S2P Require Import Prelude.

Module DegradedLimiter.

Definition TRIP_THRESHOLD : Z := 5.
Definition COOLDOWN_MS : Z := 5000.
Definition SHARDS : nat := 16.
Definition MAX_TRACKED_KEYS : Z := 50000.

Inductive BreakerState := Closed | Open | HalfOpen.

#[global] Instance BreakerState_eq_dec : EqDecision BreakerState.
Proof. solve_decision. Defined.

Record DegradedOutcome := { allowed : bool; tracked_flag : bool }.

Record Entry := { window_start : Z; count : Z }.

Abbreviation Shard := (gmap Z Entry).

Record t := {
  consecutive_failures : Z;
  open_until_ms : Z;
  shards : list Shard;
  tracked : Z;
}.

Definition new : t := {|
  consecutive_failures := 0;
  open_until_ms := 0;
  shards := replicate SHARDS ∅;
  tracked := 0;
|}.

(** ** Breaker *)

Definition state (l : t) (now_ms : Z) : BreakerState :=
  if open_until_ms l =? 0 then Closed
  else if now_ms <? open_until_ms l then Open
  else HalfOpen.

Definition should_skip_redis (l : t) (now_ms : Z) : bool :=
  bool_decide (state l now_ms = Open).

Definition record_success (l : t) : t := {|
  consecutive_failures := 0; open_until_ms := 0;
  shards := shards l; tracked := tracked l;
|}.

Definition record_failure (l : t) (now_ms : Z) : t * bool :=
  let failures := wrap_u32 (consecutive_failures l + 1) in
  let l1 := {| consecutive_failures := failures; open_until_ms := open_until_ms l;
               shards := shards l; tracked := tracked l |} in
  if failures <? TRIP_THRESHOLD then (l1, false)
  else
    let was_open := negb (open_until_ms l =? 0) in
    ({| consecutive_failures := failures; open_until_ms := now_ms + COOLDOWN_MS;
        shards := shards l; tracked := tracked l |}, negb was_open).

(** ** Fallback counters *)

Definition fxhash (s : string) : Z :=
  fold_left (fun h b => wrap_u64 (Z.lxor h (Z_of_byte b) * 1099511628211))
    (as_bytes s) 14695981039346656037.

Definition purge_stale (shard : Shard) (ws : Z) : Shard * Z :=
  let kept := filter (fun kv => window_start kv.2 = ws) shard in
  (kept, Z.of_nat (size shard) - Z.of_nat (size kept)).

Definition with_shard (l : t) (idx : nat) (s : Shard) (n : Z) : t := {|
  consecutive_failures := consecutive_failures l;
  open_until_ms := open_until_ms l;
  shards := <[idx := s]> (shards l);
  tracked := n;
|}.

Definition window_of (window_secs now_secs : Z) : Z :=
  now_secs - now_secs mod (Z.max window_secs 1).

Definition shard_of (h : Z) : nat := Z.to_nat (h mod Z.of_nat SHARDS).

Definition charge_hash (l : t) (hash limit ws : Z) : t * DegradedOutcome :=
  let idx := shard_of hash in
  let shard := default ∅ (shards l !! idx) in
  match shard !! hash with
  | Some entry =>
      if window_start entry =? ws then
        let entry' := {| window_start := window_start entry;
                         count := saturating_add_u32 (count entry) 1 |} in
        (with_shard l idx (<[hash := entry']> shard) (tracked l),
         {| allowed := count entry' <=? limit; tracked_flag := true |})
      else
        (with_shard l idx (<[hash := {| window_start := ws; count := 1 |}]> shard) (tracked l),
         {| allowed := true; tracked_flag := true |})
  | None =>
      let '(shard, n) :=
        if MAX_TRACKED_KEYS <=? tracked l then
          let '(kept, dropped) := purge_stale shard ws in
          (kept, if 0 <? dropped then tracked l - dropped else tracked l)
        else (shard, tracked l) in
      if MAX_TRACKED_KEYS <=? n then
        (with_shard l idx shard n, {| allowed := true; tracked_flag := false |})
      else
        (with_shard l idx (<[hash := {| window_start := ws; count := 1 |}]> shard) (n + 1),
         {| allowed := true; tracked_flag := true |})
  end.

Definition charge (l : t) (key : string) (limit window_secs now_secs : Z)
    : t * DegradedOutcome :=
  if limit <=? 0 then (l, {| allowed := false; tracked_flag := true |})
  else charge_hash l (fxhash key) limit (window_of window_secs now_secs).

Definition clear (l : t) : t := {|
  consecutive_failures := consecutive_failures l;
  open_until_ms := open_until_ms l;
  shards := map (fun _ => ∅) (shards l);
  tracked := 0;
|}.

(** ** The invariant

    [tracked] is the number of entries, and never passes the cap; an entry sits
    in the shard its hash selects. *)

Fixpoint total (ss : list Shard) : Z :=
  match ss with
  | [] => 0
  | s :: rest => Z.of_nat (size s) + total rest
  end.

Record wf (l : t) : Prop := {
  wf_shards : length (shards l) = SHARDS;
  wf_tracked : tracked l = total (shards l);
  wf_bound : tracked l <= MAX_TRACKED_KEYS;
  wf_place : forall i s h e,
    shards l !! i = Some s -> s !! h = Some e -> shard_of h = i /\ 1 <= count e <= u32_max;
}.

Lemma shard_of_lt h : (shard_of h < SHARDS)%nat.
Proof.
  unfold shard_of. assert (0 <= h mod Z.of_nat SHARDS < Z.of_nat SHARDS)
    by (apply Z.mod_pos_bound; unfold SHARDS; lia). lia.
Qed.

Lemma total_insert ss i s s' :
  ss !! i = Some s ->
  total (<[i := s']> ss) = total ss - Z.of_nat (size s) + Z.of_nat (size s').
Proof.
  revert i. induction ss as [|a ss IH]; intros i Hi; [done|].
  destruct i as [|i]; [injection Hi as ->; cbn; lia|].
  change (Z.of_nat (size a) + total (<[i := s']> ss)
    = Z.of_nat (size a) + total ss - Z.of_nat (size s) + Z.of_nat (size s')).
  rewrite (IH i); [lia|done].
Qed.

Lemma total_nonneg ss : 0 <= total ss.
Proof. induction ss; cbn; lia. Qed.

Lemma wf_shard l h : wf l -> exists s, shards l !! shard_of h = Some s.
Proof.
  intros Hwf. apply lookup_lt_is_Some. rewrite (wf_shards _ Hwf). apply shard_of_lt.
Qed.

Lemma wf_new : wf new.
Proof.
  split; [done|done|done|]. intros i s h e Hs He.
  apply lookup_replicate in Hs as [-> _]. by rewrite lookup_empty in He.
Qed.

(** Replacing one shard and the count keeps the invariant when the count moves
    with the shard's size and every entry is either old or well placed. *)
Lemma wf_with_shard l h s s' n :
  wf l -> shards l !! shard_of h = Some s ->
  n = tracked l - Z.of_nat (size s) + Z.of_nat (size s') -> n <= MAX_TRACKED_KEYS ->
  (forall k e, s' !! k = Some e ->
     s !! k = Some e \/ (shard_of k = shard_of h /\ 1 <= count e <= u32_max)) ->
  wf (with_shard l (shard_of h) s' n).
Proof.
  intros Hwf Hs Hn Hmax Hs'. split; cbn.
  - rewrite length_insert. apply Hwf.
  - rewrite (total_insert _ _ s) by done. rewrite <- (wf_tracked _ Hwf). done.
  - done.
  - intros i s0 k e Hi He. destruct (decide (i = shard_of h)) as [->|Hne].
    + rewrite list_lookup_insert_eq in Hi by by eapply lookup_lt_Some. simplify_eq.
      destruct (Hs' _ _ He) as [Hold|Hnew]; [by eapply (wf_place _ Hwf)|done].
    + rewrite list_lookup_insert_ne in Hi by done. by eapply (wf_place _ Hwf).
Qed.

Lemma purge_stale_spec s ws kept dropped :
  purge_stale s ws = (kept, dropped) ->
  dropped = Z.of_nat (size s) - Z.of_nat (size kept) /\ 0 <= dropped /\
  (forall k e, kept !! k = Some e <-> s !! k = Some e /\ window_start e = ws).
Proof.
  unfold purge_stale. intros [= <- <-]. split; [done|]. split.
  - assert (size (filter (fun kv : Z * Entry => window_start kv.2 = ws) s) <= size s)%nat.
    { rewrite <- !size_dom. apply subseteq_size. apply dom_filter_subseteq. }
    lia.
  - intros k e. by rewrite map_lookup_filter_Some.
Qed.

Lemma saturating_add_u32_bounds c :
  1 <= c <= u32_max -> 1 <= saturating_add_u32 c 1 <= u32_max.
Proof. unfold saturating_add_u32, u32_max. lia. Qed.

Lemma charge_hash_wf l h limit ws : wf l -> wf (charge_hash l h limit ws).1.
Proof.
  intros Hwf. destruct (wf_shard l h Hwf) as [s Hs]. unfold charge_hash. rewrite Hs.
  change (default ∅ (Some s)) with s.
  pose proof (wf_tracked _ Hwf) as Ht. pose proof (wf_bound _ Hwf) as Hb.
  destruct (s !! h) as [e|] eqn:He.
  - destruct (wf_place _ Hwf _ _ _ _ Hs He) as [Hp Hc].
    assert (forall e', size (<[h := e']> s) = size s) as Hsz
      by (intros; by apply map_size_insert_Some).
    case_match; cbn [fst]; apply (wf_with_shard l h s);
      rewrite ?Hsz; auto; try lia; intros k e' Hk;
      apply lookup_insert_Some in Hk as [[<- <-]|[? Hk]]; auto; right; split; auto; cbn;
      [by apply saturating_add_u32_bounds|unfold u32_max; lia].
  - destruct (MAX_TRACKED_KEYS <=? tracked l) eqn:Hfull; cbn [fst].
    + destruct (purge_stale s ws) as [kept dropped] eqn:Hp.
      apply purge_stale_spec in Hp as (Hd & Hd0 & Hkept).
      assert (kept !! h = None) as Hnone.
      { destruct (kept !! h) eqn:E; [|done]. apply Hkept in E as [E _]. congruence. }
      assert ((if 0 <? dropped then tracked l - dropped else tracked l)
              = tracked l - dropped) as -> by (destruct (Z.ltb_spec 0 dropped); lia).
      case_match; bool_to_prop; cbn [fst]; apply (wf_with_shard l h s); auto; try lia.
      * intros k e Hk. left. by apply Hkept.
      * rewrite map_size_insert_None by done. lia.
      * intros k e Hk. apply lookup_insert_Some in Hk as [[<- <-]|[? Hk]].
        -- right. split; [done|]. cbn. unfold u32_max. lia.
        -- left. by apply Hkept.
    + rewrite Hfull. bool_to_prop. cbn [fst]. apply (wf_with_shard l h s); auto; try lia.
      * rewrite map_size_insert_None by done. lia.
      * intros k e Hk. apply lookup_insert_Some in Hk as [[<- <-]|[? Hk]]; auto.
        right. split; [done|]. cbn. unfold u32_max. lia.
Qed.

Lemma charge_wf l key limit w now : wf l -> wf (charge l key limit w now).1.
Proof. intros. unfold charge. case_match; [done|]. by apply charge_hash_wf. Qed.

Lemma record_success_wf l : wf l -> wf (record_success l).
Proof. intros []; by split. Qed.

Lemma record_failure_wf l now : wf l -> wf (record_failure l now).1.
Proof. intros []. unfold record_failure. case_match; by split. Qed.

Lemma clear_wf l : wf l -> wf (clear l).
Proof.
  intros [Hs _ _ _]. split; cbn.
  - by rewrite length_map.
  - clear Hs. induction (shards l) as [|a ss IH]; cbn; [done|]. by rewrite <- IH.
  - done.
  - intros i s h e Hi He. change (map (fun _ => ∅) (shards l))
      with ((fun _ : Shard => (∅ : Shard)) <$> shards l) in Hi.
    apply list_lookup_fmap_Some in Hi as (? & -> & _). by rewrite lookup_empty in He.
Qed.

#[export] Hint Resolve charge_wf record_success_wf record_failure_wf clear_wf wf_new : rust.

(** ** Reachable limiters *)

Inductive step : t -> t -> Prop :=
| step_charge l key limit w now : step l (charge l key limit w now).1
| step_success l : step l (record_success l)
| step_failure l now : step l (record_failure l now).1
| step_clear l : step l (clear l).

Lemma reachable_wf l : rtc step new l -> wf l.
Proof.
  assert (forall a b, rtc step a b -> wf a -> wf b) as H.
  { induction 1 as [|a b c Hab _ IH]; [done|]. intros Ha. apply IH.
    destruct Hab; auto with rust. }
  intros Hr. eapply H; eauto with rust.
Qed.

(** ** Counting inside one window *)

Definition count_of (l : t) (h ws : Z) : Z :=
  match default ∅ (shards l !! shard_of h) !! h with
  | Some e => if window_start e =? ws then count e else 0
  | None => 0
  end.

Lemma count_of_nonneg l h ws : wf l -> 0 <= count_of l h ws.
Proof.
  intros Hwf. unfold count_of. destruct (wf_shard l h Hwf) as [s Hs]. rewrite Hs.
  change (default ∅ (Some s)) with s. destruct (s !! h) as [e|] eqn:He; [|done].
  destruct (wf_place _ Hwf _ _ _ _ Hs He). case_match; lia.
Qed.

Lemma lookup_with_shard l h s' n k :
  wf l ->
  default ∅ (shards (with_shard l (shard_of h) s' n) !! shard_of k) !! k
  = if decide (shard_of k = shard_of h) then s' !! k
    else default ∅ (shards l !! shard_of k) !! k.
Proof.
  intros Hwf. cbn. case_decide as Hd.
  - rewrite Hd, list_lookup_insert_eq; [done|]. rewrite (wf_shards _ Hwf). apply shard_of_lt.
  - by rewrite list_lookup_insert_ne.
Qed.

(** The effect of one charge on the count of the charged hash. *)
Lemma charge_hash_same l h limit ws :
  wf l -> 1 <= limit < u32_max ->
  let '(l', out) := charge_hash l h limit ws in
  if tracked_flag out then
    allowed out = (count_of l h ws + 1 <=? limit) /\
    count_of l' h ws = saturating_add_u32 (count_of l h ws) 1
  else allowed out = true /\ count_of l' h ws = count_of l h ws.
Proof.
  intros Hwf Hlim. destruct (wf_shard l h Hwf) as [s Hs].
  assert (count_of l h ws = match s !! h with
          | Some e => if window_start e =? ws then count e else 0
          | None => 0
          end) as -> by (unfold count_of; by rewrite Hs).
  unfold charge_hash. rewrite Hs. change (default ∅ (Some s)) with s.
  assert (forall s' n, s' !! h = Some {| window_start := ws; count := 1 |} ->
    count_of (with_shard l (shard_of h) s' n) h ws = saturating_add_u32 0 1) as Hfresh.
  { intros s' n Hl. unfold count_of. rewrite lookup_with_shard, decide_True, Hl by done.
    cbn. by rewrite Z.eqb_refl. }
  destruct (s !! h) as [e|] eqn:He.
  - destruct (wf_place _ Hwf _ _ _ _ Hs He) as [_ Hc].
    destruct (Z.eqb_spec (window_start e) ws) as [Hw|Hw]; cbn.
    + unfold count_of. rewrite lookup_with_shard, decide_True, lookup_insert_eq by done. cbn.
      rewrite Hw, Z.eqb_refl. split; [|done].
      unfold saturating_add_u32, u32_max in *. destruct (Z.leb_spec (count e + 1) limit);
        [apply Z.leb_le; lia|apply Z.leb_gt; lia].
    + split; [symmetry; apply Z.leb_le; lia|]. apply Hfresh. by rewrite lookup_insert_eq.
  - destruct (MAX_TRACKED_KEYS <=? tracked l) eqn:Hfull.
    + destruct (purge_stale s ws) as [kept dropped] eqn:Hp.
      apply purge_stale_spec in Hp as (_ & _ & Hkept).
      destruct (MAX_TRACKED_KEYS <=? (if 0 <? dropped then _ else _)); cbn.
      * split; [done|]. unfold count_of. rewrite lookup_with_shard, decide_True by done.
        destruct (kept !! h) as [e|] eqn:E; [|done]. apply Hkept in E as [E _]. congruence.
      * split; [symmetry; apply Z.leb_le; lia|]. apply Hfresh. by rewrite lookup_insert_eq.
    + rewrite Hfull. cbn.
      split; [symmetry; apply Z.leb_le; lia|]. apply Hfresh. by rewrite lookup_insert_eq.
Qed.

(** A hash counted in this window goes on being counted. *)
Lemma charge_hash_tracked l h limit ws :
  1 <= count_of l h ws -> tracked_flag (charge_hash l h limit ws).2 = true.
Proof.
  unfold count_of, charge_hash. intros Hc.
  destruct (default ∅ (shards l !! shard_of h) !! h) as [e|]; [|lia].
  by destruct (window_start e =? ws); [|lia].
Qed.

Lemma record_failure_count l now h ws : count_of (record_failure l now).1 h ws = count_of l h ws.
Proof. unfold record_failure. by case_match. Qed.

(** A charge of another hash in the same window leaves the count alone, even
    when it purges the shard. *)
Lemma charge_hash_other l h k limit ws :
  wf l -> k <> h -> count_of (charge_hash l h limit ws).1 k ws = count_of l k ws.
Proof.
  intros Hwf Hne. destruct (wf_shard l h Hwf) as [s Hs].
  assert (forall s' n, (forall e, s' !! k = Some e /\ window_start e = ws <->
                                 s !! k = Some e /\ window_start e = ws) ->
    count_of (with_shard l (shard_of h) s' n) k ws = count_of l k ws) as Hkeep.
  { intros s' n Hs'. unfold count_of. rewrite lookup_with_shard by done.
    case_decide as Hd; [|done]. rewrite Hd, Hs. change (default ∅ (Some s)) with s.
    destruct (s' !! k) as [e|] eqn:E1, (s !! k) as [e'|] eqn:E2; try done.
    - destruct (Z.eqb_spec (window_start e) ws) as [Hw|Hw].
      + destruct (Hs' e) as [[? _] _]; [done|]. simplify_eq. by rewrite Z.eqb_refl.
      + destruct (Z.eqb_spec (window_start e') ws) as [Hw'|]; [|done].
        destruct (Hs' e') as [_ [? _]]; [done|]. simplify_eq.
    - destruct (Z.eqb_spec (window_start e) ws) as [Hw|]; [|done].
      by destruct (Hs' e) as [[? _] _].
    - destruct (Z.eqb_spec (window_start e') ws) as [Hw|]; [|done].
      by destruct (Hs' e') as [_ [? _]]. }
  unfold charge_hash. rewrite Hs. change (default ∅ (Some s)) with s.
  destruct (s !! h) as [e|] eqn:He.
  - case_match; cbn [fst]; apply Hkeep; intros e'; by rewrite lookup_insert_ne.
  - destruct (MAX_TRACKED_KEYS <=? tracked l).
    + destruct (purge_stale s ws) as [kept dropped] eqn:Hp.
      apply purge_stale_spec in Hp as (_ & _ & Hkept).
      case_match; cbn [fst]; apply Hkeep; intros e'; rewrite ?lookup_insert_ne by done;
        rewrite Hkept; tauto.
    + case_match; cbn [fst]; apply Hkeep; intros e'; rewrite ?lookup_insert_ne by done; tauto.
Qed.

(** A run of charges, in any order of keys. *)
Record event := { ev_key : string; ev_limit : Z; ev_window : Z; ev_now : Z }.

Fixpoint run_charges (l : t) (evs : list event) : t * list DegradedOutcome :=
  match evs with
  | [] => (l, [])
  | e :: rest =>
      let '(l1, out) := charge l (ev_key e) (ev_limit e) (ev_window e) (ev_now e) in
      let '(l2, outs) := run_charges l1 rest in
      (l2, out :: outs)
  end.

(** How many of the outcomes satisfy [p], among the events of hash [h]. *)
Fixpoint tally (h : Z) (p : DegradedOutcome -> bool) (evs : list event)
    (outs : list DegradedOutcome) : Z :=
  match evs, outs with
  | e :: evs', o :: outs' =>
      (if (fxhash (ev_key e) =? h) && p o then 1 else 0) + tally h p evs' outs'
  | _, _ => 0
  end.

Definition counted_and_allowed (o : DegradedOutcome) : bool := tracked_flag o && allowed o.

Lemma tally_nonneg h p evs outs : 0 <= tally h p evs outs.
Proof.
  revert outs. induction evs as [|e evs IH]; intros [|o outs]; cbn [tally]; try lia.
  specialize (IH outs). case_match; lia.
Qed.

Lemma run_charges_tally l h L ws evs :
  wf l -> 1 <= L < u32_max -> Z.of_nat (length evs) + count_of l h ws < u32_max ->
  0 <= count_of l h ws ->
  Forall (fun e => 1 <= ev_limit e < u32_max /\ window_of (ev_window e) (ev_now e) = ws /\
                   (fxhash (ev_key e) = h -> ev_limit e = L)) evs ->
  let outs := (run_charges l evs).2 in
  tally h counted_and_allowed evs outs
  = Z.min (tally h tracked_flag evs outs) (Z.max 0 (L - count_of l h ws)).
Proof.
  intros Hwf HL. revert l Hwf. induction evs as [|e evs IH]; intros l Hwf Hlen Hc0 Hall; cbn zeta.
  - cbn. lia.
  - inversion Hall as [|? ? (Hlim & Hws & HeqL) Hall']; subst.
    cbn [run_charges]. unfold charge. destruct (Z.leb_spec (ev_limit e) 0); [lia|].
    pose proof (charge_hash_wf l (fxhash (ev_key e)) (ev_limit e)
      (window_of (ev_window e) (ev_now e)) Hwf) as Hwf'.
    destruct (Z.eqb_spec (fxhash (ev_key e)) h) as [<-|Hne].
    + pose proof (charge_hash_same l (fxhash (ev_key e)) (ev_limit e)
        (window_of (ev_window e) (ev_now e)) Hwf Hlim) as Hsame.
      destruct (charge_hash _ _ _ _) as [l1 out]. cbn [fst] in *.
      set (c := count_of l _ _) in *.
      assert (0 <= count_of l1 (fxhash (ev_key e)) (window_of (ev_window e) (ev_now e))
              <= c + 1) as Hc1.
      { destruct (tracked_flag out); destruct Hsame as [_ ->];
          unfold saturating_add_u32, u32_max in *; lia. }
      specialize (IH l1 Hwf'). cbn [length] in Hlen.
      destruct (run_charges l1 evs) as [l2 outs]. cbn [snd] in *. cbn [tally].
      rewrite Z.eqb_refl. cbn [andb]. rewrite IH by (auto; lia). clear IH.
      pose proof (tally_nonneg (fxhash (ev_key e)) tracked_flag evs outs).
      unfold counted_and_allowed. rewrite HeqL in Hsame by done.
      destruct (tracked_flag out); destruct Hsame as [-> ->]; cbn [andb]; [|lia].
      unfold saturating_add_u32, u32_max in *.
      destruct (Z.leb_spec (c + 1) L); lia.
    + pose proof (charge_hash_other l (fxhash (ev_key e)) h (ev_limit e)
        (window_of (ev_window e) (ev_now e)) Hwf (not_eq_sym Hne)) as Hoth.
      destruct (charge_hash _ _ _ _) as [l1 out]. cbn [fst] in *.
      specialize (IH l1 Hwf'). cbn [length] in Hlen.
      destruct (run_charges l1 evs) as [l2 outs]. cbn [snd] in *. cbn [tally].
      destruct (Z.eqb_spec (fxhash (ev_key e)) h); [done|]. cbn [andb].
      rewrite Hoth in IH. rewrite IH by (auto; lia). lia.
Qed.

(** ** The breaker against its specification

    The specification keeps only the current streak of failures and the time of
    the last one. *)

Inductive breaker_event := Success | Failure (now_ms : Z).

Definition breaker_step (l : t) (e : breaker_event) : t * bool :=
  match e with
  | Success => (record_success l, false)
  | Failure now => record_failure l now
  end.

(** The limiter after a trace, and how often a caller was told to log that the
    breaker opened. *)
Fixpoint breaker_run (l : t) (tr : list breaker_event) : t * Z :=
  match tr with
  | [] => (l, 0)
  | e :: rest =>
      let '(l1, opened) := breaker_step l e in
      let '(l2, n) := breaker_run l1 rest in
      (l2, (if opened then 1 else 0) + n)
  end.

Record streak := { streak_len : Z; last_failure : Z }.

Definition streak_step (s : streak) (e : breaker_event) : streak :=
  match e with
  | Success => {| streak_len := 0; last_failure := 0 |}
  | Failure now => {| streak_len := streak_len s + 1; last_failure := now |}
  end.

(** The streak after a trace, and the number of outages: streaks that reached
    the threshold. *)
Fixpoint streak_run (s : streak) (tr : list breaker_event) : streak * Z :=
  match tr with
  | [] => (s, 0)
  | e :: rest =>
      let s1 := streak_step s e in
      let '(s2, n) := streak_run s1 rest in
      (s2, (if streak_len s1 =? TRIP_THRESHOLD then 1 else 0) + n)
  end.

Definition breaker_abs (l : t) (s : streak) : Prop :=
  consecutive_failures l = streak_len s /\
  open_until_ms l =
    if streak_len s <? TRIP_THRESHOLD then 0 else last_failure s + COOLDOWN_MS.

Definition event_ok (e : breaker_event) : Prop :=
  match e with Success => True | Failure now => 0 <= now end.

Lemma breaker_step_refines l s e :
  breaker_abs l s -> 0 <= streak_len s < u32_max ->
  (TRIP_THRESHOLD <= streak_len s -> 0 <= last_failure s) -> event_ok e ->
  breaker_abs (breaker_step l e).1 (streak_step s e) /\
  (breaker_step l e).2 = (streak_len (streak_step s e) =? TRIP_THRESHOLD).
Proof.
  intros [Hf Ho] Hs Hl He. destruct e as [|now]; [done|]. cbn in *.
  unfold record_failure. rewrite Hf, wrap_u32_id by (unfold in_u32; lia).
  unfold breaker_abs, TRIP_THRESHOLD, COOLDOWN_MS, u32_max in *.
  destruct (Z.ltb_spec (streak_len s + 1) 5); cbn.
  - destruct (Z.ltb_spec (streak_len s) 5); [|lia].
    destruct (Z.ltb_spec (streak_len s + 1) 5); [|lia].
    split; [done|]. symmetry. apply Z.eqb_neq. lia.
  - rewrite Ho. split.
    + destruct (Z.ltb_spec (streak_len s + 1) 5); [lia|done].
    + destruct (Z.ltb_spec (streak_len s) 5); cbn.
      * symmetry. apply Z.eqb_eq. lia.
      * destruct (Z.eqb_spec (last_failure s + 5000) 0); [lia|]. cbn.
        symmetry. apply Z.eqb_neq. lia.
Qed.

Lemma breaker_run_refines tr l s :
  breaker_abs l s -> 0 <= streak_len s -> streak_len s + Z.of_nat (length tr) <= u32_max ->
  (TRIP_THRESHOLD <= streak_len s -> 0 <= last_failure s) -> Forall event_ok tr ->
  breaker_abs (breaker_run l tr).1 (streak_run s tr).1 /\
  (breaker_run l tr).2 = (streak_run s tr).2.
Proof.
  revert l s. induction tr as [|e tr IH]; intros l s Ha Hs Hlen Hl Hall; [done|].
  inversion Hall as [|? ? He Hall']; subst. cbn [length] in Hlen.
  destruct (breaker_step_refines l s e Ha ltac:(lia) Hl He) as [Ha' Hr].
  cbn [breaker_run streak_run]. destruct (breaker_step l e) as [l1 opened]. cbn [fst snd] in *.
  destruct (IH l1 (streak_step s e)) as [IH1 IH2]; auto.
  - destruct e; cbn; lia.
  - destruct e; cbn; lia.
  - destruct e; cbn in *; lia.
  - destruct (breaker_run l1 tr), (streak_run (streak_step s e) tr). cbn [fst snd] in *.
    split; [done|]. by rewrite Hr, IH2.
Qed.

(** ** Properties *)

(** the fallback table is bounded. In every state the limiter can reach from
    [new] by charging, recording successes and failures, and clearing, the
    [tracked] counter is exactly the number of entries the sixteen shards hold
    and is at most [MAX_TRACKED_KEYS], every entry sits in the shard its hash
    selects, and the counter never goes below zero. *)
Theorem limiter_bounded l
  (Hreach : rtc step new l) :
  length (shards l) = SHARDS /\ tracked l = total (shards l) /\
  0 <= tracked l <= MAX_TRACKED_KEYS /\
  (forall i s h e, shards l !! i = Some s -> s !! h = Some e -> shard_of h = i).
Proof.
  apply reachable_wf in Hreach as [H1 H2 H3 H4]. repeat split; auto.
  - rewrite H2. apply total_nonneg.
  - intros. by eapply H4.
Qed.

(** the degraded ceiling. Charge any sequence of events of one window, of any
    mix of keys, to any reachable limiter; let all events of one key (more
    precisely, of one hash) carry the same positive limit [L]. Then among that
    key's events that were counted, the number allowed is exactly the smaller of
    their number and what was left of [L] when the sequence started: never more
    than the limit, never a refusal while quota remains, and other keys' traffic
    (purges of full shards included) changes neither. *)
Theorem degraded_ceiling l evs key L ws
  (Hreach : rtc step new l) (HL : 1 <= L < u32_max)
  (Hlen : Z.of_nat (length evs) + count_of l (fxhash key) ws < u32_max)
  (Hevs : Forall (fun e => 1 <= ev_limit e < u32_max /\
                           window_of (ev_window e) (ev_now e) = ws /\
                           (fxhash (ev_key e) = fxhash key -> ev_limit e = L)) evs) :
  let outs := (run_charges l evs).2 in
  tally (fxhash key) counted_and_allowed evs outs
  = Z.min (tally (fxhash key) tracked_flag evs outs)
          (Z.max 0 (L - count_of l (fxhash key) ws)).
Proof. apply run_charges_tally; auto using reachable_wf, count_of_nonneg. Qed.

(** C29: the circuit breaker refines its specification. After any trace of fewer
    than [2^32] Redis outcomes, the breaker is closed if the current streak of
    failures is shorter than five, open until five seconds after the last
    failure otherwise, and half-open from then on; and the callers told to log
    an opening are exactly one per streak that reached five. *)
Theorem breaker_refines_spec tr now
  (Hlen : Z.of_nat (length tr) <= u32_max) (Hok : Forall event_ok tr) :
  let '(l, reports) := breaker_run new tr in
  let '(s, outages) := streak_run {| streak_len := 0; last_failure := 0 |} tr in
  reports = outages /\
  state l now =
    (if streak_len s <? TRIP_THRESHOLD then Closed
     else if now <? last_failure s + COOLDOWN_MS then Open else HalfOpen) /\
  should_skip_redis l now =
    (TRIP_THRESHOLD <=? streak_len s) && (now <? last_failure s + COOLDOWN_MS).
Proof.
  destruct (breaker_run_refines tr new {| streak_len := 0; last_failure := 0 |})
    as [[Hf Ho] Hn]; auto; [by split|cbn; lia|cbn; lia|].
  assert (TRIP_THRESHOLD <= streak_len (streak_run {| streak_len := 0; last_failure := 0 |} tr).1 ->
          0 <= last_failure (streak_run {| streak_len := 0; last_failure := 0 |} tr).1) as Hpos.
  { intros _. assert (forall s, 0 <= last_failure s -> 0 <= last_failure (streak_run s tr).1) as H.
    { clear Hf Ho Hn. induction Hok as [|e tr' He _ IH]; intros s Hs; [done|]. cbn [streak_run].
      specialize (IH ltac:(cbn [length] in Hlen; lia) (streak_step s e)).
      destruct (streak_run (streak_step s e) tr') as [s2 n]. cbn in *. apply IH.
      destruct e; cbn in *; lia. }
    apply H. cbn. lia. }
  destruct (breaker_run new tr) as [l n]. destruct (streak_run _ tr) as [s m]. cbn [fst snd] in *.
  unfold should_skip_redis, state. rewrite Ho. split; [done|].
  unfold TRIP_THRESHOLD, COOLDOWN_MS in *.
  destruct (Z.ltb_spec (streak_len s) 5), (Z.leb_spec 5 (streak_len s)); try lia; [done|].
  destruct (Z.eqb_spec (last_failure s + 5000) 0); [lia|]. by case_match.
Qed.

(** *** Witnesses *)

Definition toy_limiter : t := (charge new "alice" 3 3600 7200).1.

Lemma toy_reachable : rtc step new toy_limiter.
Proof. apply rtc_once. constructor. Qed.

Lemma limiter_bounded_witness : 0 <= tracked toy_limiter <= MAX_TRACKED_KEYS.
Proof. apply (limiter_bounded toy_limiter toy_reachable). Defined.

Definition toy_event (k : string) (n : Z) : event :=
  {| ev_key := k; ev_limit := 3; ev_window := 3600; ev_now := n |}.

Lemma degraded_ceiling_witness :
  tally (fxhash "alice") counted_and_allowed
    [toy_event "alice" 7201; toy_event "bob" 7300; toy_event "alice" 7202; toy_event "alice" 7203]
    (run_charges toy_limiter
       [toy_event "alice" 7201; toy_event "bob" 7300; toy_event "alice" 7202;
        toy_event "alice" 7203]).2
  = 2.
Proof.
  rewrite (degraded_ceiling toy_limiter
    [toy_event "alice" 7201; toy_event "bob" 7300; toy_event "alice" 7202; toy_event "alice" 7203]
    "alice" 3 7200 toy_reachable).
  - vm_compute. reflexivity.
  - vm_compute. split; [discriminate|reflexivity].
  - vm_compute. reflexivity.
  - repeat (constructor; [vm_compute; repeat split; done|]). constructor.
Defined.

Lemma breaker_refines_spec_witness :
  state (breaker_run new [Failure 10; Failure 11; Failure 12; Failure 13; Failure 14]).1 20 = Open.
Proof.
  pose proof (breaker_refines_spec
    [Failure 10; Failure 11; Failure 12; Failure 13; Failure 14] 20) as H.
  destruct (breaker_run new _) as [l n] eqn:E. apply H.
  - vm_compute. discriminate.
  - repeat constructor; vm_compute; discriminate.
Defined.

End DegradedLimiter.
