(* ===== verification/RedisStore.v ===== *)
(** * The interface to Redis

    Redis is a service the sources only talk to. Its connection is a parameter
    of every component that uses it: a type [R] with [exec], which runs one
    command and answers [None] when the call returns an error. What the code
    relies on are two laws. [exec_ok]: a call that returns an answer did what the
    command is documented to do, as written in [cmd_doc] over a keyspace of typed
    values with their time to live. [exec_err]: a call that returns an error was
    either not executed or executed with its answer lost. Keys expire between
    commands, never during one: [expires]. *)

From S2P Require Import Prelude Text.

Module Redis.

(** A stream: entries in the order of their ids [(ms, seq)], the last id it
    generated, the largest id [XDEL] removed, and how many entries were ever
    added. *)
Abbreviation sid := (Z * Z)%type.

Record stream := Stream {
  s_entries : list (sid * gmap string string);
  s_last : sid;
  s_max_deleted : sid;
  s_added : Z;
}.

Definition sid_ltb (a b : sid) : bool := (a.1 <? b.1) || ((a.1 =? b.1) && (a.2 <? b.2)).
Definition sid_max (a b : sid) : sid := if sid_ltb a b then b else a.

Inductive value :=
| VStr (s : string)
| VHash (h : gmap string string)
| VSet (m : gset string)
| VZset (m : gmap string Z)
| VStream (s : stream).

(** A key's value and, unless the key is persistent, its remaining seconds. *)
Record entry := Entry { e_val : value; e_ttl : option Z }.

Abbreviation keyspace := (gmap string entry).

#[local] Set Warnings "-register-all".

(** [redis::Value], for the replies the source takes apart itself. *)
Inductive rvalue :=
| RvNil
| RvInt (n : Z)
| RvBulkString (s : string)
| RvSimpleString (s : string)
| RvArray (l : list rvalue)
| RvMap (l : list (rvalue * rvalue)).

Inductive reply :=
| RNil
| ROk
| RInt (n : Z)
| RBulk (s : string)
| RList (l : list string)
| RMap (m : gmap string string)
| RPairs (l : list (string * string))
| REntries (l : list (string * gmap string string))
| RValue (v : rvalue)
| RErr (msg : string).                        (* an error reply whose text is read *)

Inductive cmd :=
| GET (k : string)
| SET (k v : string)
| SETEX (k v : string) (ttl : Z)
| SETNXEX (k v : string) (ttl : Z)
| DEL (k : string)
| DEL2 (k1 k2 : string)                       (* [DEL] with two keys *)
| GETDEL (k : string)
| EXISTS (k : string)
| EXPIRE (k : string) (ttl : Z)
| TTL (k : string)
| INCR (k : string)
| HSET (k : string) (fields : list (string * string))
| HGETALL (k : string)
| SADD (k : string) (members : list string)
| SREM (k m : string)
| SMEMBERS (k : string)
| SISMEMBER (k m : string)
| SCARD (k : string)
| ZADD (k m : string) (score : Z)
| ZREMRANGEBYSCORE (k : string) (max : Z)     (* from -inf to [max] inclusive *)
| ZCOUNT (k : string) (min : Z)               (* from [min] inclusive to +inf *)
| PUBLISH (channel payload : string)
| XADD (k : string) (now : Z) (evict : nat) (maxlen : Z) (fields : list (string * string))
    (* [XADD k MAXLEN ~ maxlen * fields]; [now] is the server's clock in
       milliseconds, [evict] how many entries beyond [maxlen] it chooses to evict *)
| XREAD (k from : string) (count : Z)         (* [COUNT 0] is no limit *)
| XRANGE (k : string)                         (* from - to + *)
| XREVRANGE1 (k : string) (max : sid)         (* from (max to -, COUNT 1 *)
| XDEL (k : string) (ids : list string)
| XTRIM_MINID (k : string) (min : sid)
| XINFO (k : string)
| XSETID (k last max_deleted : string)
| SCAN (prefix : string)                      (* the whole iteration, MATCH prefix* *)
| DELS (ks : list string)                     (* [DEL] with a list of keys *)
| SCANGET (prefix : string)                   (* the [SCAN_GET_LUA] script on [prefix*] *)
| EVAL (script : keyspace -> option (keyspace * reply)).

(** ** Documented behaviour

    [None] is an error reply (wrong type, not an integer, invalid expiry); it
    changes nothing. *)

Definition set_val (ks : keyspace) (k : string) (v : value) : keyspace :=
  <[k := Entry v (from_option e_ttl None (ks !! k))]> ks.

Definition as_hash (ks : keyspace) (k : string) : option (gmap string string) :=
  match ks !! k with
  | None => Some ∅
  | Some (Entry (VHash h) _) => Some h
  | Some _ => None
  end.

Definition as_set (ks : keyspace) (k : string) : option (gset string) :=
  match ks !! k with
  | None => Some ∅
  | Some (Entry (VSet m) _) => Some m
  | Some _ => None
  end.

Definition as_zset (ks : keyspace) (k : string) : option (gmap string Z) :=
  match ks !! k with
  | None => Some ∅
  | Some (Entry (VZset m) _) => Some m
  | Some _ => None
  end.

Definition doc_incr (ks : keyspace) (k : string) : option (keyspace * reply) :=
  let* n := match ks !! k with
            | None => Some 0
            | Some (Entry (VStr s) _) => parse_i64 s
            | Some _ => None
            end in
  if i64_max <=? n then None
  else Some (set_val ks k (VStr (to_string (n + 1))), RInt (n + 1)).

Definition doc_expire (ks : keyspace) (k : string) (ttl : Z) : keyspace * reply :=
  match ks !! k with
  | None => (ks, RInt 0)
  | Some e => (if ttl <=? 0 then delete k ks else <[k := Entry (e_val e) (Some ttl)]> ks, RInt 1)
  end.

Definition set_or_drop (ks : keyspace) (k : string) (empty : bool) (v : value) : keyspace :=
  if empty then delete k ks else set_val ks k v.

(** Every key that starts with [prefix], with its value; a key that is not a
    string is an error of the script's [GET]. *)
Definition scan_get (prefix : string) (ks : keyspace) : option (list (string * string)) :=
  mapM (fun kv => match e_val (snd kv) with VStr s => Some (fst kv, s) | _ => None end)
    (List.filter (fun kv => String.prefix prefix (fst kv)) (map_to_list ks)).

(** ** Streams *)

Definition show_sid (i : sid) : string := to_string i.1 +:+ "-" +:+ to_string i.2.

(** An id as the server reads it: [ms-seq], or [ms] for [ms-0]. *)
Definition read_sid (s : string) : option sid :=
  match split_once "-" s with
  | Some (ms, seq) => let* m := parse_u64 ms in let* q := parse_u64 seq in Some (m, q)
  | None => let* m := parse_u64 s in Some (m, 0)
  end.

Definition no_stream : stream := Stream [] (0, 0) (0, 0) 0.

Definition as_stream (ks : keyspace) (k : string) : option (option stream) :=
  match ks !! k with
  | None => Some None
  | Some (Entry (VStream s) _) => Some (Some s)
  | Some _ => None
  end.

(** The next id: the clock, unless the last id is not behind it. *)
Definition next_sid (now : Z) (last : sid) : sid :=
  if last.1 <? now then (now, 0)
  else if last.2 <? u64_max then (last.1, last.2 + 1) else (last.1 + 1, 0).

Definition stream_add (now : Z) (evict : nat) (maxlen : Z) (fields : gmap string string)
    (s : stream) : stream :=
  let i := next_sid now (s_last s) in
  let l := s_entries s ++ [(i, fields)] in
  let excess := (length l - Z.to_nat maxlen)%nat in
  Stream (drop (Nat.min evict excess) l) i (s_max_deleted s) (s_added s + 1).

Definition stream_after (from : sid) (s : stream) : list (sid * gmap string string) :=
  List.filter (fun e => sid_ltb from e.1) (s_entries s).

Definition show_entries (l : list (sid * gmap string string)) : list (string * gmap string string) :=
  map (fun e => (show_sid e.1, e.2)) l.

Definition stream_del (ids : list sid) (s : stream) : stream :=
  let gone := List.filter (fun e => bool_decide (e.1 ∈ ids)) (s_entries s) in
  Stream (List.filter (fun e => negb (bool_decide (e.1 ∈ ids))) (s_entries s)) (s_last s)
    (fold_left sid_max (map fst gone) (s_max_deleted s)) (s_added s).

(** Trimming moves no mark but the entries. *)
Definition stream_trim (min : sid) (s : stream) : stream :=
  Stream (List.filter (fun e => negb (sid_ltb e.1 min)) (s_entries s)) (s_last s)
    (s_max_deleted s) (s_added s).

Definition last_entry_id (s : stream) : sid := from_option fst (0, 0) (list.last (s_entries s)).

Definition entry_value (e : sid * gmap string string) : rvalue :=
  RvArray [RvBulkString (show_sid e.1);
           RvArray (flat_map (fun kv => [RvBulkString kv.1; RvBulkString kv.2]) (map_to_list e.2))].

Definition option_value (o : option (sid * gmap string string)) : rvalue :=
  match o with Some e => entry_value e | None => RvNil end.

(** The reply of [XINFO STREAM], without the counters of its memory layout. *)
Definition info_fields (s : stream) : list (rvalue * rvalue) :=
  [(RvBulkString "length", RvInt (Z.of_nat (length (s_entries s))));
   (RvBulkString "last-generated-id", RvBulkString (show_sid (s_last s)));
   (RvBulkString "max-deleted-entry-id", RvBulkString (show_sid (s_max_deleted s)));
   (RvBulkString "entries-added", RvInt (s_added s));
   (RvBulkString "groups", RvInt 0);
   (RvBulkString "first-entry", option_value (head (s_entries s)));
   (RvBulkString "last-entry", option_value (list.last (s_entries s)))].

(** The same fields as a flat array, which is their shape in RESP2. *)
Definition flat_fields (l : list (rvalue * rvalue)) : list rvalue :=
  flat_map (fun kv => [kv.1; kv.2]) l.

Definition WRONGTYPE : string := "WRONGTYPE Operation against a key holding the wrong kind of value".
Definition NO_SUCH_KEY : string := "ERR no such key".

Definition stream_doc (c : cmd) (ks : keyspace) : option (keyspace * reply) :=
  match c with
  | XADD k now evict maxlen fields =>
      let* o := as_stream ks k in
      let s := stream_add now evict maxlen (list_to_map (reverse fields)) (default no_stream o) in
      Some (set_val ks k (VStream s), RBulk (show_sid (s_last s)))
  | XREAD k from count =>
      match as_stream ks k with
      | None => Some (ks, RErr WRONGTYPE)
      | Some o =>
          let s := default no_stream o in
          let* start := if String.eqb from "$" then Some (s_last s) else read_sid from in
          let l := stream_after start s in
          Some (ks, REntries (show_entries (if count <=? 0 then l else take (Z.to_nat count) l)))
      end
  | XRANGE k =>
      let* o := as_stream ks k in
      Some (ks, REntries (show_entries (s_entries (default no_stream o))))
  | XREVRANGE1 k max =>
      let* o := as_stream ks k in
      let below := List.filter (fun e => sid_ltb e.1 max) (s_entries (default no_stream o)) in
      Some (ks, RValue (RvArray (map entry_value (option_list (list.last below)))))
  | XDEL k ids =>
      let* o := as_stream ks k in
      let* sids := mapM read_sid ids in
      match o with
      | None => Some (ks, RInt 0)
      | Some s =>
          let s' := stream_del sids s in
          Some (set_val ks k (VStream s'),
                RInt (Z.of_nat (length (s_entries s)) - Z.of_nat (length (s_entries s'))))
      end
  | XTRIM_MINID k min =>
      let* o := as_stream ks k in
      match o with
      | None => Some (ks, RInt 0)
      | Some s =>
          let s' := stream_trim min s in
          Some (set_val ks k (VStream s'),
                RInt (Z.of_nat (length (s_entries s)) - Z.of_nat (length (s_entries s'))))
      end
  | XINFO k =>
      match ks !! k with
      | None => Some (ks, RErr NO_SUCH_KEY)
      | Some (Entry (VStream s) _) =>
          Some (ks, RValue (RvMap (info_fields s)))
      | Some _ => Some (ks, RErr WRONGTYPE)
      end
  | XSETID k last max_deleted =>
      let* i := read_sid last in
      let* m := read_sid max_deleted in
      match ks !! k with
      | Some (Entry (VStream s) _) =>
          if sid_ltb i (last_entry_id s) || sid_ltb i (s_max_deleted s) || sid_ltb i m then None
          else Some (set_val ks k (VStream (Stream (s_entries s) i m (s_added s))), ROk)
      | _ => None
      end
  | _ => None
  end.

Definition cmd_doc (c : cmd) (ks : keyspace) : option (keyspace * reply) :=
  match c with
  | GET k =>
      match ks !! k with
      | None => Some (ks, RNil)
      | Some (Entry (VStr s) _) => Some (ks, RBulk s)
      | Some _ => None
      end
  | SET k v => Some (<[k := Entry (VStr v) None]> ks, ROk)
  | SETEX k v ttl =>
      if ttl <=? 0 then None else Some (<[k := Entry (VStr v) (Some ttl)]> ks, ROk)
  | SETNXEX k v ttl =>
      if ttl <=? 0 then None
      else match ks !! k with
           | Some _ => Some (ks, RNil)
           | None => Some (<[k := Entry (VStr v) (Some ttl)]> ks, ROk)
           end
  | DEL k => Some (delete k ks, RInt (if ks !! k is Some _ then 1 else 0))
  | DEL2 k1 k2 =>
      let ks1 := delete k1 ks in
      Some (delete k2 ks1, RInt ((if ks !! k1 is Some _ then 1 else 0)
                                 + (if ks1 !! k2 is Some _ then 1 else 0)))
  | GETDEL k =>
      match ks !! k with
      | None => Some (ks, RNil)
      | Some (Entry (VStr s) _) => Some (delete k ks, RBulk s)
      | Some _ => None
      end
  | EXISTS k => Some (ks, RInt (if ks !! k is Some _ then 1 else 0))
  | EXPIRE k ttl => Some (doc_expire ks k ttl)
  | TTL k =>
      Some (ks, RInt (match ks !! k with
                      | None => -2
                      | Some e => default (-1) (e_ttl e)
                      end))
  | INCR k => doc_incr ks k
  | HSET k fields =>
      let* h := as_hash ks k in
      Some (set_val ks k (VHash (list_to_map (reverse fields) ∪ h)),
            RInt (Z.of_nat (size (list_to_map (reverse fields) ∪ h : gmap string string))
                  - Z.of_nat (size h)))
  | HGETALL k => let* h := as_hash ks k in Some (ks, RMap h)
  | SADD k members =>
      let* m := as_set ks k in
      Some (set_val ks k (VSet (list_to_set members ∪ m)),
            RInt (Z.of_nat (size (list_to_set members ∪ m : gset string)) - Z.of_nat (size m)))
  | SREM k x =>
      let* m := as_set ks k in
      Some (set_or_drop ks k (bool_decide (m ∖ {[x]} = ∅)) (VSet (m ∖ {[x]})),
            RInt (if bool_decide (x ∈ m) then 1 else 0))
  | SMEMBERS k => let* m := as_set ks k in Some (ks, RList (elements m))
  | SISMEMBER k x =>
      let* m := as_set ks k in Some (ks, RInt (if bool_decide (x ∈ m) then 1 else 0))
  | SCARD k => let* m := as_set ks k in Some (ks, RInt (Z.of_nat (size m)))
  | ZADD k x score =>
      let* m := as_zset ks k in
      Some (set_val ks k (VZset (<[x := score]> m)),
            RInt (if m !! x is Some _ then 0 else 1))
  | ZREMRANGEBYSCORE k max =>
      let* m := as_zset ks k in
      let kept := filter (fun kv => max < kv.2) m in
      Some (set_or_drop ks k (bool_decide (kept = ∅)) (VZset kept),
            RInt (Z.of_nat (size m) - Z.of_nat (size kept)))
  | ZCOUNT k min =>
      let* m := as_zset ks k in
      Some (ks, RInt (Z.of_nat (size (filter (fun kv => min <= kv.2) m))))
  | PUBLISH _ _ => Some (ks, RInt 0)
  | XADD _ _ _ _ _ | XREAD _ _ _ | XRANGE _ | XREVRANGE1 _ _ | XDEL _ _ | XTRIM_MINID _ _
  | XINFO _ | XSETID _ _ _ => stream_doc c ks
  | SCAN prefix => Some (ks, RList (List.filter (String.prefix prefix) (map fst (map_to_list ks))))
  | DELS l =>
      Some (fold_left (fun m k => delete k m) l ks,
            RInt (Z.of_nat (size ks) - Z.of_nat (size (fold_left (fun m k => delete k m) l ks))))
  | SCANGET prefix => let* l := scan_get prefix ks in Some (ks, RPairs l)
  | EVAL script => script ks
  end.

(** ** The connection *)

Class Redis (R : Type) := exec : R -> cmd -> R * option reply.

(** Is [rep] an answer the documentation allows where it describes [doc]? The
    number of receivers of a message, the order of a set's members and the order
    of a scan, which may repeat a key, are not documented, and [XINFO] answers in
    the shape of the connection's protocol; every other answer is the documented
    one. *)
Definition answer_ok (c : cmd) (doc rep : reply) : Prop :=
  match c with
  | PUBLISH _ _ => exists n, rep = RInt n
  | SMEMBERS _ => exists l0 l, doc = RList l0 /\ rep = RList l /\ l ≡ₚ l0
  | SCANGET _ => exists l0 l, doc = RPairs l0 /\ rep = RPairs l /\ l ≡ₚ l0
  | XINFO _ => rep = doc \/ exists l, doc = RValue (RvMap l) /\ rep = RValue (RvArray (flat_fields l))
  | SCAN _ => exists l0 l, doc = RList l0 /\ rep = RList l /\ forall k, k ∈ l <-> k ∈ l0
  | _ => rep = doc
  end.

Definition exact_answer (c : cmd) : bool :=
  match c with PUBLISH _ _ | SMEMBERS _ | SCANGET _ | SCAN _ | XINFO _ => false | _ => true end.

Class RedisLaws (R : Type) `{Redis R} := {
  keys : R -> keyspace;
  exec_ok r c r' rep :
    exec r c = (r', Some rep) ->
    exists doc, cmd_doc c (keys r) = Some (keys r', doc) /\ answer_ok c doc rep;
  exec_err r c r' :
    exec r c = (r', None) ->
    keys r' = keys r \/ exists rep, cmd_doc c (keys r) = Some (keys r', rep);
}.

(** An outage: no call returns an answer, and it goes on. *)
Definition outage {R} `{Redis R} (Down : R -> Prop) : Prop :=
  forall r c, Down r -> (exec r c).2 = None /\ Down (exec r c).1.

(** Calls answer: every command without a documented error returns. *)
Definition available {R} `{RedisLaws R} (Up : R -> Prop) : Prop :=
  forall r c, Up r -> Up (exec r c).1 /\ (is_Some (cmd_doc c (keys r)) -> is_Some (exec r c).2).

Section Calls.
Context {R : Type} `{Redis R}.

(** The typed results of the redis crate. *)
Definition exec_int (r : R) (c : cmd) : R * option Z :=
  match exec r c with
  | (r', Some (RInt n)) => (r', Some n)
  | (r', _) => (r', None)
  end.

Definition exec_bool (r : R) (c : cmd) : R * option bool :=
  match exec r c with
  | (r', Some (RInt n)) => (r', Some (negb (n =? 0)))
  | (r', _) => (r', None)
  end.

Definition exec_unit (r : R) (c : cmd) : R * option unit :=
  match exec r c with
  | (r', Some _) => (r', Some tt)
  | (r', None) => (r', None)
  end.

Definition exec_opt_string (r : R) (c : cmd) : R * option (option string) :=
  match exec r c with
  | (r', Some RNil) => (r', Some None)
  | (r', Some (RBulk s)) => (r', Some (Some s))
  | (r', Some ROk) => (r', Some (Some "OK"))
  | (r', _) => (r', None)
  end.

(** [redis::pipe()]: every command is sent, whatever the earlier ones answer;
    the result is an error if one of the answers is. *)
Fixpoint pipe (r : R) (cs : list cmd) : R * option unit :=
  match cs with
  | [] => (r, Some tt)
  | c :: rest =>
      let '(r1, a) := exec r c in
      let '(r2, b) := pipe r1 rest in
      (r2, match a, b with Some _, Some _ => Some tt | _, _ => None end)
  end.

End Calls.

(** The counter script shared by the rate limiters:
    [INCR], then [EXPIRE] when the counter is new. *)
Definition incr_expire (k : string) (ttl : Z) (ks : keyspace) : option (keyspace * reply) :=
  match doc_incr ks k with
  | Some (ks1, RInt n) =>
      Some (if n =? 1 then (doc_expire ks1 k ttl).1 else ks1, RInt n)
  | other => other
  end.

(** ** Expiry: between commands, any key with a time to live may be gone or
    have less of it; a persistent key stays. *)
Definition expires (ks ks' : keyspace) : Prop :=
  forall k,
    match ks !! k with
    | None => ks' !! k = None
    | Some (Entry v None) => ks' !! k = Some (Entry v None)
    | Some (Entry v (Some t)) =>
        ks' !! k = None \/ exists t', t' <= t /\ ks' !! k = Some (Entry v (Some t'))
    end.

#[export] Instance expires_preorder : PreOrder expires.
Proof.
  split.
  - intros ks k. destruct (ks !! k) as [[v [t|]]|]; [|done..]. right. exists t. split; [lia|done].
  - intros a b c Hab Hbc k. specialize (Hab k). specialize (Hbc k).
    destruct (a !! k) as [[v [t|]]|].
    + destruct Hab as [Hb|(t' & Ht & Hb)]; rewrite Hb in Hbc; [by left|].
      destruct Hbc as [?|(t'' & ? & ?)]; [by left|]. right. exists t''. split; [lia|done].
    + by rewrite Hab in Hbc.
    + by rewrite Hab in Hbc.
Qed.

(** ** Lemmas about successful calls *)

Section Laws.
Context {R : Type} `{RedisLaws R}.

Lemma exec_exact r c r' rep :
  exec r c = (r', Some rep) -> exact_answer c = true -> cmd_doc c (keys r) = Some (keys r', rep).
Proof.
  intros E Hc. destruct (exec_ok _ _ _ _ E) as (doc & Hd & Ha).
  rewrite Hd. by destruct c; cbn in Hc, Ha; subst.
Qed.

Lemma exec_int_ok r c r' n :
  exec_int r c = (r', Some n) -> exact_answer c = true ->
  cmd_doc c (keys r) = Some (keys r', RInt n).
Proof.
  unfold exec_int. destruct (exec r c) as [r1 [[]|]] eqn:E; intros [= -> ->] Hc.
  by apply exec_exact.
Qed.

Lemma exec_bool_exists r k r' b :
  exec_bool r (EXISTS k) = (r', Some b) ->
  keys r' = keys r /\ b = bool_decide (is_Some (keys r !! k)).
Proof.
  unfold exec_bool. destruct (exec r _) as [r1 [[]|]] eqn:E; intros [= -> <-].
  pose proof (exec_exact _ _ _ _ E eq_refl) as Hd. cbn in Hd. injection Hd as Hk Hn. split; [done|].
  subst n. destruct (keys r !! k); [|done]. by rewrite bool_decide_true.
Qed.

Lemma exec_get_ok r k r' o :
  exec_opt_string r (GET k) = (r', Some o) ->
  keys r' = keys r /\
  match keys r !! k with
  | None => o = None
  | Some e => exists s, e_val e = VStr s /\ o = Some s
  end.
Proof.
  unfold exec_opt_string. destruct (exec r _) as [r1 [rep|]] eqn:E; [|done].
  pose proof (exec_exact _ _ _ _ E eq_refl) as Hd. cbn in Hd.
  destruct (keys r !! k) as [[[] ?]|] eqn:Hk; simplify_eq.
  - intros [= -> <-]. split; [done|]. cbn. eauto.
  - by intros [= -> <-].
Qed.

Lemma exec_setex_ok r k v ttl r' :
  exec_unit r (SETEX k v ttl) = (r', Some tt) ->
  keys r' = <[k := Entry (VStr v) (Some ttl)]> (keys r) /\ 0 < ttl.
Proof.
  unfold exec_unit. destruct (exec r _) as [r1 [rep|]] eqn:E; [|done]. intros [= ->].
  pose proof (exec_exact _ _ _ _ E eq_refl) as Hd. cbn in Hd.
  destruct (Z.leb_spec ttl 0); [done|]. by injection Hd as <- _.
Qed.

Lemma exec_unit_ok r c r' :
  exec_unit r c = (r', Some tt) -> exists rep, cmd_doc c (keys r) = Some (keys r', rep).
Proof.
  unfold exec_unit. destruct (exec r c) as [r1 [rep|]] eqn:E; intros [= ->].
  destruct (exec_ok _ _ _ _ E) as (doc & Hd & _). by exists doc.
Qed.

(** A command documented to change nothing changes nothing, answered or not. *)
Lemma exec_read_keys r c r' o :
  exec r c = (r', o) ->
  (forall ks ks' rep, cmd_doc c ks = Some (ks', rep) -> ks' = ks) ->
  keys r' = keys r.
Proof.
  intros E Hro. destruct o as [rep|].
  - apply exec_ok in E as (doc & E & _). by eapply Hro.
  - apply exec_err in E as [?|[rep E]]; [done|]. by eapply Hro.
Qed.

(** What a pipeline does to the keyspace, if no command of it is an error. *)
Fixpoint pipe_doc (cs : list cmd) (ks : keyspace) : option keyspace :=
  match cs with
  | [] => Some ks
  | c :: rest => let* p := cmd_doc c ks in pipe_doc rest (fst p)
  end.

Context (Up : R -> Prop) (Hup : available Up).

(** A command with a documented answer gets one, and does what is documented. *)
Lemma available_exec r c ks' doc :
  Up r -> cmd_doc c (keys r) = Some (ks', doc) ->
  exists r' rep, exec r c = (r', Some rep) /\ answer_ok c doc rep /\ keys r' = ks' /\ Up r'.
Proof using Hup.
  intros Hr Hd. destruct (Hup r c Hr) as [Hr' Hs]. destruct Hs as [rep Hrep]; [by rewrite Hd|].
  destruct (exec r c) as [r' o] eqn:E. cbn in *. subst o.
  destruct (exec_ok _ _ _ _ E) as (doc' & Hd' & Ha). rewrite Hd in Hd'. simplify_eq. eauto 6.
Qed.

Lemma available_exact r c ks' rep :
  Up r -> exact_answer c = true -> cmd_doc c (keys r) = Some (ks', rep) ->
  exists r', exec r c = (r', Some rep) /\ keys r' = ks' /\ Up r'.
Proof using Hup.
  intros Hr Hc Hd. destruct (available_exec _ _ _ _ Hr Hd) as (r' & rep' & E & _ & Hk & Hr').
  exists r'. pose proof (exec_exact _ _ _ _ E Hc) as Hd'. rewrite Hd in Hd'. by simplify_eq.
Qed.

Lemma available_pipe cs r ks' :
  Up r -> pipe_doc cs (keys r) = Some ks' ->
  exists r', pipe r cs = (r', Some tt) /\ keys r' = ks' /\ Up r'.
Proof using Hup.
  revert r. induction cs as [|c cs IH]; intros r Hr Hd; cbn in *; [by simplify_eq; eauto|].
  destruct (cmd_doc c (keys r)) as [[ks1 doc]|] eqn:Hc; [|done]. cbn in Hd.
  destruct (available_exec _ _ _ _ Hr Hc) as (r1 & rep & E & _ & Hk1 & Hr1). rewrite E.
  rewrite <- Hk1 in Hd. destruct (IH r1 Hr1 Hd) as (r2 & E2 & Hk2 & Hr2). rewrite E2. eauto.
Qed.

End Laws.

(** The counter script keeps its promise: after it answers [n], the key holds
    [n], and it has a time to live if it is new or had one. *)
Lemma incr_expire_spec k ttl ks ks' rep :
  incr_expire k ttl ks = Some (ks', rep) -> 0 < ttl ->
  exists n, rep = RInt n /\
    match ks !! k with
    | None => n = 1 /\ ks' = <[k := Entry (VStr "1") (Some ttl)]> ks
    | Some e => exists s m, e_val e = VStr s /\ parse_i64 s = Some m /\ n = m + 1 /\
        ks' = <[k := Entry (VStr (to_string n))
                      (if n =? 1 then Some ttl else e_ttl e)]> ks
    end.
Proof.
  intros H Httl. unfold incr_expire, doc_incr in H.
  destruct (ks !! k) as [[[s| | | |] t]|] eqn:Hk; try done.
  - destruct (parse_i64 s) as [m|] eqn:Hm; [|done]. destruct (Z.leb_spec i64_max m); [done|].
    exists (m + 1). unfold set_val, doc_expire in H. rewrite Hk in H. cbn [from_option e_ttl] in H.
    rewrite lookup_insert_eq in H. cbn in H. destruct (Z.leb_spec ttl 0); [lia|].
    injection H as <- <-. split; [done|]. exists s, m. split_and!; auto. cbn.
    destruct (m + 1 =? 1); [by rewrite insert_insert_eq|done].
  - cbn in H. unfold set_val, doc_expire in H. rewrite Hk, lookup_insert_eq in H. cbn in H.
    destruct (Z.leb_spec ttl 0); [lia|]. injection H as <- <-.
    exists 1. split; [done|]. split; [done|]. by rewrite insert_insert_eq.
Qed.

(** ** Counters *)

(** The number a counter key holds. *)
Definition counter (ks : keyspace) (k : string) : option Z :=
  match ks !! k with
  | None => Some 0
  | Some (Entry (VStr s) _) => parse_i64 s
  | Some _ => None
  end.

Definition has_ttl (ks : keyspace) (k : string) : Prop :=
  match ks !! k with Some e => is_Some (e_ttl e) | None => False end.

Lemma incr_expire_counter k ttl ks ks' n :
  incr_expire k ttl ks = Some (ks', RInt n) -> 0 < ttl ->
  (forall c, counter ks k = Some c -> 0 <= c < i64_max ->
     n = c + 1 /\ counter ks' k = Some (c + 1)) /\
  (has_ttl ks k \/ ks !! k = None -> has_ttl ks' k) /\
  (forall j, j <> k -> ks' !! j = ks !! j).
Proof.
  intros Hi Httl. apply incr_expire_spec in Hi as (n' & [= <-] & Hk); [|done].
  unfold counter, has_ttl. destruct (ks !! k) as [[v t]|] eqn:E.
  - destruct Hk as (s & m & Hv & Hm & -> & ->). cbn in Hv. subst v.
    rewrite lookup_insert_eq. cbn. split_and!.
    + intros c Hc Hr. rewrite Hm in Hc. injection Hc as ->. split; [done|].
      apply parse_i64_to_string. unfold in_i64, i64_min, i64_max in *. lia.
    + intros [Ht|?]; [|done]. destruct (m + 1 =? 1); [by eexists|done].
    + intros j Hj. by rewrite lookup_insert_ne.
  - destruct Hk as [-> ->]. rewrite lookup_insert_eq. split_and!.
    + by intros c [= <-] _.
    + intros _. by eexists.
    + intros j Hj. by rewrite lookup_insert_ne.
Qed.

(** The counter script always succeeds on a counter below the integer range. *)
Lemma incr_expire_total k ttl ks c :
  counter ks k = Some c -> c < i64_max -> is_Some (incr_expire k ttl ks).
Proof.
  unfold counter, incr_expire, doc_incr.
  destruct (ks !! k) as [[[s| | | |] t]|]; [intros ->; intros Hc|done..|by cbn].
  destruct (Z.leb_spec i64_max c); [lia|]. eauto.
Qed.

(** ** Connections that only moved on

    [moved r r']: [r'] is the connection after some commands on [r]. *)

Definition moved {R} `{Redis R} : R -> R -> Prop := rtc (fun r r' => exists c, r' = (exec r c).1).

Lemma moved_exec {R} `{Redis R} (r : R) c : moved r (exec r c).1.
Proof. apply rtc_once. by exists c. Qed.

Lemma moved_up {R} `{RedisLaws R} (Up : R -> Prop) r r' :
  available Up -> moved r r' -> Up r -> Up r'.
Proof.
  intros Hup. induction 1 as [|r1 r2 r3 [c ->] _ IH]; [done|]. intros Hr. apply IH. by apply Hup.
Qed.

(** A command that is not documented to touch a key leaves it, answered or not. *)
Lemma exec_frame {R} `{RedisLaws R} (r : R) c k :
  (forall ks ks' rep, cmd_doc c ks = Some (ks', rep) -> ks' !! k = ks !! k) ->
  keys (exec r c).1 !! k = keys r !! k.
Proof.
  intros Hf. destruct (exec r c) as [r' [rep|]] eqn:E; cbn.
  - destruct (exec_ok _ _ _ _ E) as (doc & Hd & _). by eapply Hf.
  - destruct (exec_err _ _ _ E) as [->|[rep Hd]]; [done|]. by eapply Hf.
Qed.

(** The commands on one key touch no other. *)
Definition single_key (c : cmd) : option string :=
  match c with
  | GET k | SET k _ | SETEX k _ _ | SETNXEX k _ _ | DEL k | GETDEL k | EXISTS k | EXPIRE k _ | TTL k | INCR k
  | SADD k _ | SREM k _ | SCARD k | ZADD k _ _ | ZREMRANGEBYSCORE k _ | ZCOUNT k _ => Some k
  | _ => None
  end.

Lemma single_key_frame {R} `{RedisLaws R} (r : R) c k k' :
  single_key c = Some k -> k <> k' -> keys (exec r c).1 !! k' = keys r !! k'.
Proof.
  intros Hc Hk. apply exec_frame. intros ks ks' rep.
  destruct c; cbn in Hc; try done; injection Hc as ->; cbn [cmd_doc];
    unfold doc_incr, doc_expire, set_or_drop, set_val; intros E;
    repeat case_match; simplify_eq; rewrite ?lookup_insert_ne, ?lookup_delete_ne by done; done.
Qed.

Lemma exec_int_fst {R} `{Redis R} (r : R) c : (exec_int r c).1 = (exec r c).1.
Proof. unfold exec_int. by destruct (exec r c) as [r' [[]|]]. Qed.
Lemma exec_bool_fst {R} `{Redis R} (r : R) c : (exec_bool r c).1 = (exec r c).1.
Proof. unfold exec_bool. by destruct (exec r c) as [r' [[]|]]. Qed.
Lemma exec_unit_fst {R} `{Redis R} (r : R) c : (exec_unit r c).1 = (exec r c).1.
Proof. unfold exec_unit. by destruct (exec r c) as [r' [|]]. Qed.
Lemma exec_opt_string_fst {R} `{Redis R} (r : R) c : (exec_opt_string r c).1 = (exec r c).1.
Proof. unfold exec_opt_string. by destruct (exec r c) as [r' [[]|]]. Qed.

Lemma pipe_frame {R} `{RedisLaws R} cs (r : R) k :
  Forall (fun c => forall ks ks' rep, cmd_doc c ks = Some (ks', rep) -> ks' !! k = ks !! k) cs ->
  keys (pipe r cs).1 !! k = keys r !! k.
Proof.
  intros Hall. revert r. induction Hall as [|c cs Hc _ IH]; intros r; [done|]. cbn.
  pose proof (exec_frame r c k Hc) as He. destruct (exec r c) as [r1 a]. cbn in He.
  specialize (IH r1). destruct (pipe r1 cs) as [r2 b]. cbn in *. congruence.
Qed.

(** ** A reference server

    A keyspace in memory, reachable or not; it discharges the interface. *)

Record mem := Mem { mem_keys : keyspace; mem_up : bool }.

#[export] Instance mem_redis : Redis mem := fun r c =>
  if mem_up r then
    match cmd_doc c (mem_keys r) with
    | Some (ks, rep) => (Mem ks true, Some rep)
    | None => (r, None)
    end
  else (r, None).

Lemma mem_exec_ok (r : mem) c r' rep :
  exec r c = (r', Some rep) ->
  exists doc, cmd_doc c (mem_keys r) = Some (mem_keys r', doc) /\ answer_ok c doc rep.
Proof.
  destruct r as [ks up]. unfold exec, mem_redis. cbn [mem_up mem_keys]. destruct up; [|done].
  destruct (cmd_doc c ks) as [[ks1 rep1]|] eqn:E; intros [= <- <-]; cbn [mem_keys].
  exists rep1. split; [done|]. destruct c; try done; cbn in E.
  - destruct (as_set ks k); simplify_eq. by do 2 eexists.
  - simplify_eq. by eexists.
  - by left.
  - simplify_eq. by do 2 eexists.
  - destruct (scan_get _ ks); simplify_eq. by do 2 eexists.
Qed.

Lemma mem_exec_err (r : mem) c r' :
  exec r c = (r', None) ->
  mem_keys r' = mem_keys r \/ exists rep, cmd_doc c (mem_keys r) = Some (mem_keys r', rep).
Proof.
  unfold exec, mem_redis. destruct (mem_up r); [|intros [= <-]; by left].
  destruct (cmd_doc c (mem_keys r)) as [[? ?]|]; [done|]. intros [= <-]. by left.
Qed.

#[export] Instance mem_laws : RedisLaws mem :=
  {| keys := mem_keys; exec_ok := mem_exec_ok; exec_err := mem_exec_err |}.

Lemma mem_outage : outage (fun r : mem => mem_up r = false).
Proof. intros r c Hr. unfold exec, mem_redis. by rewrite Hr. Qed.

Lemma mem_available : available (fun r : mem => mem_up r = true).
Proof.
  intros r c Hr. unfold exec, mem_redis. rewrite Hr.
  destruct (cmd_doc c (mem_keys r)) as [[ks rep]|] eqn:E; cbn; split; auto.
  intros [x Hx]. cbn in Hx. congruence.
Qed.

End Redis.
