(* ===== verification/PrivacyPass.v ===== *)
(** * Privacy Pass tokens

    Models construct-crypto/src/privacy_pass.rs: the evaluation and redemption of VOPRF
    tokens, the batched DLEQ proof that a batch was evaluated under the published key, the
    sealed box a token travels in, and the keys of the environment. The curve
    (curve25519-dalek), SHA-512, HKDF, ChaCha20-Poly1305, X25519 and base64 are libraries:
    their operations are the classes [Ristretto] and [Primitives], what they document the
    classes of laws. The client's half of the protocol (blinding, unblinding, sealing) is
    not code of this server; it is defined here as the protocol describes it, to state what
    an honest client gets. *)

From Stdlib Require Import Field.
From S2P Require Import Prelude Text Net.

Module PrivacyPass.

(** ** The libraries *)

(** Scalars are integers modulo the order of the group; points are the ristretto255 group. *)
Class Ristretto (Scalar Point : Type) := {
  Scalar_eq_dec :: EqDecision Scalar;
  Point_eq_dec :: EqDecision Point;
  scalar_zero : Scalar; scalar_one : Scalar;
  scalar_add : Scalar -> Scalar -> Scalar; scalar_mul : Scalar -> Scalar -> Scalar;
  scalar_neg : Scalar -> Scalar; invert : Scalar -> Scalar;
  identity : Point; RISTRETTO_BASEPOINT_POINT : Point;
  point_add : Point -> Point -> Point; point_neg : Point -> Point;
  scale : Scalar -> Point -> Point;
  compress : Point -> bytes; decompress : bytes -> option Point;
  scalar_to_bytes : Scalar -> bytes;
  from_bytes_mod_order : bytes -> Scalar; from_canonical_bytes : bytes -> option Scalar;
  scalar_from_hash : bytes -> Scalar; point_from_hash : bytes -> Point;
}.

Definition point_sub {Scalar Point} `{Ristretto Scalar Point} (p q : Point) : Point := point_add p (point_neg q).

Class RistrettoLaws (Scalar Point : Type) `{Ristretto Scalar Point} := {
  scalar_field : field_theory scalar_zero scalar_one scalar_add scalar_mul
    (fun x y => scalar_add x (scalar_neg y)) scalar_neg (fun x y => scalar_mul x (invert y)) invert eq;
  point_add_assoc p q r : point_add p (point_add q r) = point_add (point_add p q) r;
  point_add_comm p q : point_add p q = point_add q p;
  point_add_id p : point_add p identity = p;
  point_add_neg p : point_add p (point_neg p) = identity;
  scale_add_l x y p : scale (scalar_add x y) p = point_add (scale x p) (scale y p);
  scale_add_r x p q : scale x (point_add p q) = point_add (scale x p) (scale x q);
  scale_mul x y p : scale (scalar_mul x y) p = scale x (scale y p);
  scale_one p : scale scalar_one p = p;
  basepoint_not_identity : RISTRETTO_BASEPOINT_POINT <> identity;
  compress_length p : length (compress p) = 32%nat;
  decompress_compress p : decompress (compress p) = Some p;
  compress_decompress b p : decompress b = Some p -> compress p = b;
  scalar_to_bytes_length x : length (scalar_to_bytes x) = 32%nat;
  from_canonical_to_bytes x : from_canonical_bytes (scalar_to_bytes x) = Some x;
}.

Class Primitives := {
  sha512 : bytes -> bytes;
  hkdf_sha512 : bytes -> bytes -> nat -> bytes;
  hkdf_sha256 : bytes -> bytes -> nat -> option bytes;
  x25519_public : bytes -> bytes;
  diffie_hellman : bytes -> bytes -> bytes;
  aead_encrypt : bytes -> bytes -> bytes -> bytes;
  aead_decrypt : bytes -> bytes -> bytes -> option bytes;
  base64_encode : bytes -> string;
  base64_decode : string -> option bytes;
}.

Class PrimitivesLaws `{Primitives} := {
  hkdf_sha512_length ikm info n : (n <= 255 * 64)%nat -> length (hkdf_sha512 ikm info n) = n;
  hkdf_sha256_some ikm info n : (n <= 255 * 32)%nat -> is_Some (hkdf_sha256 ikm info n);
  x25519_public_length s : length (x25519_public s) = 32%nat;
  diffie_hellman_comm a b : diffie_hellman a (x25519_public b) = diffie_hellman b (x25519_public a);
  aead_length k n p : length (aead_encrypt k n p) = (length p + 16)%nat;
  aead_correct k n p : aead_decrypt k n (aead_encrypt k n p) = Some p;
}.

(** ** The code *)

Section Code.
Context {Scalar Point : Type} `{Ristretto Scalar Point} `{Primitives}.

Definition TOKEN_ENC_INFO : bytes := as_bytes "construct-token-enc-v1".
Definition TOKEN_SEAL_INFO : bytes := as_bytes "construct-token-seal-v1".
Definition PP_HKDF_INFO : bytes := as_bytes "ConstructPP-v1".
Definition DLEQ_DOMAIN : bytes := as_bytes "ConstructPP-DLEQ-v1".

Inductive PrivacyPassError := SealedBoxTooShort | DecryptFailed | InvalidEphemeralKey.

Definition derive_token_enc_static_secret (seed_b64 : string) : option bytes :=
  let* seed_bytes := base64_decode (trim seed_b64) in
  if negb (length seed_bytes =? 32)%nat then None else hkdf_sha256 seed_bytes TOKEN_ENC_INFO 32.

Definition derive_token_enc_public_key_base64 (seed_b64 : string) : option string :=
  let* static_secret := derive_token_enc_static_secret seed_b64 in
  Some (base64_encode (x25519_public static_secret)).

Definition is_ascii_hexdigit (a : ascii) : bool := bool_decide (is_Some (Net.to_digit 16 a)).

(** The pairs of [as_chunks::<2>]; a last odd character is the remainder. *)
Fixpoint hex_pairs (s : string) : option bytes :=
  match s with
  | String a (String b rest) =>
      let* hi := Net.to_digit 16 a in
      let* lo := Net.to_digit 16 b in
      let* more := hex_pairs rest in
      Some (byte_of_Z (Z.lor (Z.shiftl hi 4) lo) :: more)
  | _ => Some []
  end.

Definition issuer_key_from_hex (hex_str : string) : option bytes :=
  let s := trim hex_str in
  if negb (String.length s =? 64)%nat || negb (str_all is_ascii_hexdigit s) then None else hex_pairs s.

Definition issuer_public_key (k_scalar_bytes : bytes) : bytes :=
  compress (scale (from_bytes_mod_order k_scalar_bytes) RISTRETTO_BASEPOINT_POINT).

Definition issuer_public_key_base64 (hex_str : string) : option string :=
  let* k := issuer_key_from_hex hex_str in Some (base64_encode (issuer_public_key k)).

Definition EPH_LEN : nat := 32.
Definition NONCE_LEN : nat := 12.
Definition TAG_LEN : nat := 16.

Definition open_sealed_token_bytes (sealed server_secret : bytes) : result bytes PrivacyPassError :=
  if (length sealed <? EPH_LEN + NONCE_LEN + TAG_LEN)%nat then Err SealedBoxTooShort
  else
    let ephemeral_pub := take EPH_LEN sealed in
    let nonce := take NONCE_LEN (drop EPH_LEN sealed) in
    let ciphertext_and_tag := drop (EPH_LEN + NONCE_LEN) sealed in
    match hkdf_sha256 (diffie_hellman server_secret ephemeral_pub) TOKEN_SEAL_INFO 32 with
    | None => Err DecryptFailed
    | Some sym_key => ok_or (aead_decrypt sym_key nonce ciphertext_and_tag) DecryptFailed
    end.

Definition hash_to_ristretto (data : bytes) : Point := point_from_hash (sha512 data).

Definition derive_token (n_compressed nonce : bytes) : bytes := hkdf_sha512 (n_compressed ++ nonce) PP_HKDF_INFO 32.

Definition verify_token (token nonce k_scalar_bytes : bytes) : bool :=
  let k := from_bytes_mod_order k_scalar_bytes in
  let n := scale k (hash_to_ristretto nonce) in
  bool_decide (derive_token (compress n) nonce = token).

Definition dleq_hash_to_scalar (parts : list bytes) : Scalar := scalar_from_hash (sha512 (concat parts)).

(** [CompressedRistretto::from_slice] and [decompress]. *)
Definition from_slice (b : bytes) : option bytes := if (length b =? 32)%nat then Some b else None.

Definition decompress_nonidentity (b : bytes) : option Point :=
  let* c := from_slice b in
  let* p := decompress c in
  if bool_decide (p = identity) then None else Some p.

Fixpoint decompress_pairs (pairs : list (bytes * bytes)) : option (list (Point * Point)) :=
  match pairs with
  | [] => Some []
  | (b, z) :: rest =>
      let* bp := decompress_nonidentity b in
      let* zp := decompress_nonidentity z in
      let* more := decompress_pairs rest in
      Some ((bp, zp) :: more)
  end.

Definition batch_seed (k_pub : bytes) (pairs : list (bytes * bytes)) : bytes :=
  sha512 (DLEQ_DOMAIN ++ [Byte.x00] ++ k_pub ++ concat (map (fun p => p.1 ++ p.2) pairs)).

(** The coefficient of one pair of the batch. *)
Definition coefficient (seed : bytes) (i : nat) (p : bytes * bytes) : Scalar :=
  dleq_hash_to_scalar [DLEQ_DOMAIN; [Byte.x01]; seed; be_bytes 4 (wrap_u32 (Z.of_nat i)); p.1; p.2].

Fixpoint composite_loop (seed : bytes) (i : nat) (pairs : list (bytes * bytes)) (pts : list (Point * Point))
    (m zc : Point) : Point * Point :=
  match pairs, pts with
  | p :: pairs', (b, z) :: pts' =>
      let d := coefficient seed i p in
      composite_loop seed (S i) pairs' pts' (point_add m (scale d b)) (point_add zc (scale d z))
  | _, _ => (m, zc)
  end.

Definition compute_composites (k_pub : bytes) (blinded evaluated : list bytes) : option (Point * Point) :=
  if (length blinded =? 0)%nat || negb (length blinded =? length evaluated)%nat then None
  else
    let pairs := combine blinded evaluated in
    let* pts := decompress_pairs pairs in
    Some (composite_loop (batch_seed k_pub pairs) 0 pairs pts identity identity).

Definition challenge (k_pub : bytes) (m zc a1 a2 : Point) : Scalar :=
  dleq_hash_to_scalar [DLEQ_DOMAIN; [Byte.x03]; k_pub; compress m; compress zc; compress a1; compress a2].

Definition generate_dleq_proof (k_scalar_bytes : bytes) (blinded evaluated : list bytes) : option bytes :=
  let k := from_bytes_mod_order k_scalar_bytes in
  let k_pub := issuer_public_key k_scalar_bytes in
  match compute_composites k_pub blinded evaluated with
  | None => None
  | Some (m, zc) =>
      let t := dleq_hash_to_scalar [DLEQ_DOMAIN; [Byte.x02]; scalar_to_bytes k; compress m; compress zc] in
      let a1 := scale t RISTRETTO_BASEPOINT_POINT in
      let a2 := scale t m in
      let c := challenge k_pub m zc a1 a2 in
      let s := scalar_add t (scalar_mul c k) in
      Some (scalar_to_bytes c ++ scalar_to_bytes s)
  end.

Definition verify_dleq_proof (issuer_public : bytes) (blinded evaluated : list bytes) (proof : bytes) : bool :=
  match from_canonical_bytes (take 32 proof), from_canonical_bytes (drop 32 proof) with
  | Some c, Some s =>
      match from_slice issuer_public ≫= decompress with
      | None => false
      | Some k_point =>
          match compute_composites issuer_public blinded evaluated with
          | None => false
          | Some (m, zc) =>
              let a1p := point_sub (scale s RISTRETTO_BASEPOINT_POINT) (scale c k_point) in
              let a2p := point_sub (scale s m) (scale c zc) in
              bool_decide (challenge issuer_public m zc a1p a2p = c)
          end
      end
  | _, _ => false
  end.

End Code.

(** ** The group as a vector space over the scalars *)

Section Algebra.
Context {Scalar Point : Type} `{RistrettoLaws Scalar Point}.

Add Field scalars : scalar_field.

Lemma point_cancel (p q r : Point) : point_add p q = point_add p r -> q = r.
Proof.
  intros E. apply (f_equal (point_add (point_neg p))) in E. revert E.
  by rewrite !point_add_assoc, (point_add_comm (point_neg p)), point_add_neg, !(point_add_comm identity), !point_add_id.
Qed.

Lemma add_sub (p q : Point) : point_sub (point_add p q) q = p.
Proof. unfold point_sub. by rewrite <- point_add_assoc, point_add_neg, point_add_id. Qed.

Lemma sub_identity (p q : Point) : point_sub p q = identity -> p = q.
Proof.
  intros E. apply (point_cancel (point_neg q)). rewrite (point_add_comm _ q), point_add_neg, point_add_comm.
  exact E.
Qed.

Lemma scale_zero (p : Point) : scale scalar_zero p = identity.
Proof.
  apply (point_cancel (scale scalar_zero p)). rewrite <- scale_add_l, point_add_id. f_equal. ring.
Qed.

Lemma scale_identity (x : Scalar) : scale x identity = identity.
Proof. apply (point_cancel (scale x identity)). by rewrite <- scale_add_r, !point_add_id. Qed.

Lemma scale_neg_l x (p : Point) : scale (scalar_neg x) p = point_neg (scale x p).
Proof.
  apply (point_cancel (scale x p)). rewrite <- scale_add_l, point_add_neg, <- (scale_zero p). f_equal. ring.
Qed.

Lemma scale_neg_r x (p : Point) : scale x (point_neg p) = point_neg (scale x p).
Proof. apply (point_cancel (scale x p)). by rewrite <- scale_add_r, !point_add_neg, scale_identity. Qed.

(** A group of prime order: a multiple is the identity only of zero or of the identity. *)
Lemma scale_integral x (p : Point) : scale x p = identity -> x = scalar_zero \/ p = identity.
Proof.
  intros E. destruct (decide (x = scalar_zero)) as [|Hx]; [by left|right].
  assert (scalar_mul (invert x) x = scalar_one) as Hi by (by apply (Finv_l scalar_field)).
  by rewrite <- (scale_one p), <- Hi, scale_mul, E, scale_identity.
Qed.

Lemma scale_inj x y (p : Point) : p <> identity -> scale x p = scale y p -> x = y.
Proof.
  intros Hp E. destruct (scale_integral (scalar_add x (scalar_neg y)) p) as [Hz|]; [|..|done].
  - by rewrite scale_add_l, scale_neg_l, E, point_add_neg.
  - replace x with (scalar_add (scalar_add x (scalar_neg y)) y) by ring. rewrite Hz. ring.
Qed.

(** The verifier's equation undoes the prover's response. *)
Lemma response_opens t c k (p : Point) :
  point_sub (scale (scalar_add t (scalar_mul c k)) p) (scale c (scale k p)) = scale t p.
Proof. by rewrite scale_add_l, scale_mul, add_sub. Qed.

Lemma unblind_blind r k (p : Point) : r <> scalar_zero -> scale (invert r) (scale k (scale r p)) = scale k p.
Proof. intros Hr. rewrite <- !scale_mul. f_equal. by field. Qed.

End Algebra.

(** ** The client's half of the protocol *)

Section Client.
Context {Scalar Point : Type} `{Ristretto Scalar Point} `{Primitives}.

(** A nonce is hashed to the group and multiplied by a random scalar. *)
Definition blind (nonce : bytes) (r : Scalar) : bytes := compress (scale r (hash_to_ristretto nonce)).

(** The answer is decompressed, the blinding taken off and the token derived. *)
Definition finalize (nonce : bytes) (r : Scalar) (evaluated : bytes) : option bytes :=
  let* z := decompress evaluated in Some (derive_token (compress (scale (invert r) z)) nonce).

(** The box: ephemeral public key, nonce, ciphertext with tag. *)
Definition seal_box (server_pub ephemeral_secret box_nonce plaintext : bytes) : option bytes :=
  let* sym_key := hkdf_sha256 (diffie_hellman ephemeral_secret server_pub) TOKEN_SEAL_INFO 32 in
  Some (x25519_public ephemeral_secret ++ box_nonce ++ aead_encrypt sym_key box_nonce plaintext).

(** The server's evaluation of one blinded point. *)
Definition evaluate_point (k_bytes : bytes) (p : Point) : bytes := compress (scale (from_bytes_mod_order k_bytes) p).

End Client.

(** ** Proofs of a batch *)

Section Batches.
Context {Scalar Point : Type} `{RistrettoLaws Scalar Point} `{Primitives}.

Lemma decompress_nonidentity_compress (p : Point) : p <> identity -> decompress_nonidentity (compress p) = Some p.
Proof.
  intros Hp. unfold decompress_nonidentity, from_slice.
  rewrite compress_length. cbn [Nat.eqb]. by rewrite decompress_compress, bool_decide_false.
Qed.

Lemma decompress_pairs_length pairs (pts : list (Point * Point)) :
  decompress_pairs pairs = Some pts -> length pts = length pairs.
Proof.
  revert pts. induction pairs as [|[b z] pairs IH]; intros pts; cbn; [by intros [= <-]|].
  destruct (decompress_nonidentity b); [|done]. destruct (decompress_nonidentity z); [|done].
  destruct (decompress_pairs pairs); [|done]. intros [= <-]. cbn. by rewrite (IH _ eq_refl).
Qed.

(** A batch evaluated with one key different from zero decompresses to points of which
    each second is that multiple of the first. *)
Lemma honest_pairs kb (ps : list Point) :
  from_bytes_mod_order kb <> scalar_zero -> Forall (fun p => p <> identity) ps ->
  decompress_pairs (combine (map compress ps) (map (evaluate_point kb) ps)) =
  Some (map (fun p => (p, scale (from_bytes_mod_order kb) p)) ps).
Proof.
  intros Hk Hps. induction Hps as [|p ps Hp _ IH]; [done|]. cbn [map combine decompress_pairs].
  rewrite decompress_nonidentity_compress by done. unfold evaluate_point at 1.
  rewrite decompress_nonidentity_compress, IH; [done|]. by intros [|]%scale_integral.
Qed.

Lemma composite_linear seed i pairs (pts : list (Point * Point)) k (m : Point) :
  Forall (fun p => p.2 = scale k p.1) pts ->
  (composite_loop seed i pairs pts m (scale k m)).2 = scale k (composite_loop seed i pairs pts m (scale k m)).1.
Proof.
  intros Hp. revert i pairs m. induction Hp as [|[b z] pts Hz _ IH]; intros i [|pr pairs] m; cbn [composite_loop]; [done..|].
  cbn in Hz. subst z. specialize (IH (S i) pairs (point_add m (scale (coefficient seed i pr) b))).
  rewrite scale_add_r in IH. rewrite <- !scale_mul in IH |- *.
  by rewrite (Rmul_comm (F_R scalar_field) k) in IH.
Qed.

Lemma honest_composites kb (ps : list Point) k_pub :
  ps <> [] -> from_bytes_mod_order kb <> scalar_zero -> Forall (fun p => p <> identity) ps ->
  exists m, compute_composites k_pub (map compress ps) (map (evaluate_point kb) ps) =
    Some (m, scale (from_bytes_mod_order kb) m).
Proof.
  intros Hne Hk Hps. unfold compute_composites. rewrite !length_map, Nat.eqb_refl.
  destruct ps as [|p0 ps]; [done|]. set (l := p0 :: ps) in *. cbn [length Nat.eqb orb negb l]. fold l.
  rewrite (honest_pairs kb l Hk Hps). set (pairs := combine _ _).
  pose proof (composite_linear (batch_seed k_pub pairs) 0 pairs (map (fun p => (p, scale (from_bytes_mod_order kb) p)) l)
    (from_bytes_mod_order kb) identity) as E.
  rewrite scale_identity in E. destruct (composite_loop _ _ _ _ _ _) as [m zc]. exists m.
  cbn [fst snd] in E. rewrite <- E; [done|]. by apply List.Forall_map, list.Forall_true.
Qed.

Lemma decode_compressed (p : Point) : from_slice (compress p) ≫= decompress = Some p.
Proof. unfold from_slice. rewrite compress_length. apply decompress_compress. Qed.

(** The proof of an honest batch is generated, is 64 bytes long and verifies. *)
Lemma honest_proof kb (ps : list Point) :
  ps <> [] -> from_bytes_mod_order kb <> scalar_zero -> Forall (fun p => p <> identity) ps ->
  exists proof, generate_dleq_proof kb (map compress ps) (map (evaluate_point kb) ps) = Some proof /\
    length proof = 64%nat /\
    verify_dleq_proof (issuer_public_key kb) (map compress ps) (map (evaluate_point kb) ps) proof = true.
Proof.
  intros Hne Hk Hps. destruct (honest_composites kb ps (issuer_public_key kb) Hne Hk Hps) as [m Hm].
  unfold generate_dleq_proof, verify_dleq_proof. rewrite Hm. eexists. split; [reflexivity|].
  rewrite length_app, !scalar_to_bytes_length. split; [done|].
  rewrite take_app_length', drop_app_length' by (symmetry; apply scalar_to_bytes_length).
  rewrite !from_canonical_to_bytes. unfold issuer_public_key at 1. rewrite decode_compressed, !response_opens.
  by apply bool_decide_true.
Qed.

Lemma sub_cross (a b c d : Point) : point_sub a b = point_sub c d -> point_sub a c = point_sub b d.
Proof.
  unfold point_sub. intros E. apply (f_equal (fun x => point_add (point_add x b) (point_neg c))) in E.
  rewrite <- (point_add_assoc a (point_neg b) b), (point_add_comm (point_neg b)), point_add_neg, point_add_id in E.
  rewrite E, <- !point_add_assoc, (point_add_comm c), <- !point_add_assoc, (point_add_comm (point_neg c)), point_add_neg, point_add_id.
  apply point_add_comm.
Qed.

Lemma scale_sub_l x y (p : Point) : point_sub (scale x p) (scale y p) = scale (scalar_add x (scalar_neg y)) p.
Proof. unfold point_sub. by rewrite scale_add_l, scale_neg_l. Qed.

(** Two answers to the same commitments with different challenges give the key. *)
Lemma special_sound k (m zc : Point) c s c' s' :
  let K := scale k RISTRETTO_BASEPOINT_POINT in
  point_sub (scale s RISTRETTO_BASEPOINT_POINT) (scale c K) = point_sub (scale s' RISTRETTO_BASEPOINT_POINT) (scale c' K) ->
  point_sub (scale s m) (scale c zc) = point_sub (scale s' m) (scale c' zc) ->
  c = c' \/ zc = scale k m.
Proof.
  cbn zeta. intros E1%sub_cross E2%sub_cross. rewrite !scale_sub_l in E1, E2. rewrite <- scale_mul in E1.
  apply scale_inj in E1; [|apply basepoint_not_identity]. rewrite E1, scale_mul in E2.
  set (dc := scalar_add c (scalar_neg c')) in *.
  destruct (scale_integral dc (point_sub zc (scale k m))) as [Hz|Hz].
  - unfold point_sub at 1. rewrite scale_add_r, scale_neg_r, E2. apply point_add_neg.
  - left. pose proof scalar_field as F. apply (f_equal (fun x => scalar_add x c')) in Hz. unfold dc in Hz.
    rewrite <- (Radd_assoc (F_R F)), (Radd_comm (F_R F) _ c'), (Ropp_def (F_R F)), (Radd_comm (F_R F) c), !(Radd_0_l (F_R F)) in Hz.
    exact Hz.
  - right. by apply sub_identity.
Qed.

(** Another key over the whole batch shows unless the combination of its points vanishes. *)
Lemma composites_other_key k_pub blinded evaluated (pts : list (Point * Point)) (m zc : Point) k k' :
  decompress_pairs (combine blinded evaluated) = Some pts -> compute_composites k_pub blinded evaluated = Some (m, zc) ->
  Forall (fun p => p.2 = scale k' p.1) pts -> zc = scale k m -> k' = k \/ m = identity.
Proof.
  intros Hp Hc Hall Hz. unfold compute_composites in Hc. destruct (_ || _); [done|]. rewrite Hp in Hc. injection Hc as Hc.
  pose proof (composite_linear (batch_seed k_pub (combine blinded evaluated)) 0 (combine blinded evaluated) pts k' identity Hall) as E.
  rewrite scale_identity, Hc in E. cbn in E. destruct (decide (m = identity)); [by right|left].
  apply (scale_inj _ _ m); congruence.
Qed.

End Batches.

(** ** What the protocol gives *)

Section Properties.
Context {Scalar Point : Type} `{RistrettoLaws Scalar Point} `{PrimitivesLaws}.

Lemma open_seal server_secret ephemeral_secret box_nonce plaintext box :
  length box_nonce = NONCE_LEN -> seal_box (x25519_public server_secret) ephemeral_secret box_nonce plaintext = Some box ->
  open_sealed_token_bytes box server_secret = Ok plaintext.
Proof.
  intros Hn. unfold seal_box, open_sealed_token_bytes. destruct (hkdf_sha256 _ _ _) as [key|] eqn:Ek; [|done].
  intros [= <-]. rewrite diffie_hellman_comm in Ek.
  rewrite !length_app, x25519_public_length, aead_length, Hn.
  destruct (Nat.ltb_spec (32 + (NONCE_LEN + (length plaintext + 16))) (EPH_LEN + NONCE_LEN + TAG_LEN)) as [Hl|_];
    [unfold EPH_LEN, NONCE_LEN, TAG_LEN in Hl; lia|].
  rewrite take_app_length', Ek by (by rewrite x25519_public_length).
  rewrite drop_app_length' by (by rewrite x25519_public_length).
  rewrite take_app_length', app_assoc, drop_app_length' by (by rewrite ?length_app, ?x25519_public_length, Hn).
  by rewrite aead_correct.
Qed.

Lemma token_verifies kb nonce r (z : Point) :
  r <> scalar_zero -> z = scale (from_bytes_mod_order kb) (scale r (hash_to_ristretto nonce)) ->
  verify_token (derive_token (compress (scale (invert r) z)) nonce) nonce kb = true.
Proof. intros Hr ->. unfold verify_token. rewrite unblind_blind by done. by apply bool_decide_true. Qed.

(** the proof of a batch is complete. For every batch of points that are not the
    identity, evaluated under an issuer key that is not zero, a proof is generated, is 64
    bytes long, and verifies against the published commitment of that key. *)
Theorem dleq_complete kb (ps : list Point) :
  ps <> [] -> from_bytes_mod_order kb <> scalar_zero -> Forall (fun p => p <> identity) ps ->
  exists proof, generate_dleq_proof kb (map compress ps) (map (evaluate_point kb) ps) = Some proof /\
    length proof = 64%nat /\
    verify_dleq_proof (issuer_public_key kb) (map compress ps) (map (evaluate_point kb) ps) proof = true.
Proof. apply honest_proof. Qed.


End Properties.

(** ** A small group and simple primitives *)

Inductive F5 := N0 | N1 | N2 | N3 | N4.
#[export] Instance F5_eq_dec : EqDecision F5.
Proof. solve_decision. Defined.

Definition f5_val (x : F5) : Z := match x with N0 => 0 | N1 => 1 | N2 => 2 | N3 => 3 | N4 => 4 end.
Definition f5 (z : Z) : F5 :=
  match z mod 5 with 0 => N0 | 1 => N1 | 2 => N2 | 3 => N3 | _ => N4 end.
Definition f5_bytes (x : F5) : bytes := byte_of_Z (f5_val x) :: repeat Byte.x00 31.
Definition f5_decode (b : bytes) : option F5 :=
  List.find (fun x => bool_decide (f5_bytes x = b)) [N0; N1; N2; N3; N4].

#[export] Instance small_group : Ristretto F5 F5 := {|
  scalar_zero := N0; scalar_one := N1;
  scalar_add := fun x y => f5 (f5_val x + f5_val y); scalar_mul := fun x y => f5 (f5_val x * f5_val y);
  scalar_neg := fun x => f5 (- f5_val x); invert := fun x => f5 (f5_val x ^ 3);
  identity := N0; RISTRETTO_BASEPOINT_POINT := N2;
  point_add := fun x y => f5 (f5_val x + f5_val y); point_neg := fun x => f5 (- f5_val x);
  scale := fun x p => f5 (f5_val x * f5_val p);
  compress := f5_bytes; decompress := f5_decode;
  scalar_to_bytes := f5_bytes; from_bytes_mod_order := fun b => f5 (be_value b);
  from_canonical_bytes := f5_decode;
  scalar_from_hash := fun b => f5 (be_value b); point_from_hash := fun b => f5 (be_value b) |}.

Ltac small_cases := intros; repeat match goal with x : F5 |- _ => destruct x end; try reflexivity.

Lemma f5_decode_sound b x : f5_decode b = Some x -> f5_bytes x = b.
Proof. intros E%List.find_some. by destruct E as [_ E%bool_decide_eq_true]. Qed.

#[export] Instance small_group_laws : RistrettoLaws F5 F5.
Proof.
  constructor; cbn; [|try (small_cases; done)..].
  - split; [split; small_cases|done|done|]. small_cases. done.
  - intros b p. apply f5_decode_sound.
Qed.

Definition pad (n : nat) (b : bytes) : bytes := take n (b ++ repeat Byte.x00 n).
#[global] Arguments pad : simpl never.
Definition byte_sum (b : bytes) : Z := foldr (fun x acc => Z_of_byte x + acc) 0 b.

#[export] Instance simple_primitives : Primitives := {|
  sha512 := fun b => [byte_of_Z (byte_sum b mod 256)];
  hkdf_sha512 := fun ikm info n => pad n (ikm ++ info);
  hkdf_sha256 := fun ikm info n => Some (pad n (ikm ++ info));
  x25519_public := pad 32;
  diffie_hellman := fun a b => [byte_of_Z ((byte_sum (pad 32 a) + byte_sum (pad 32 b)) mod 256)];
  aead_encrypt := fun _ _ p => p ++ repeat Byte.x00 16;
  aead_decrypt := fun _ _ c => Some (take (length c - 16) c);
  base64_encode := String.string_of_list_byte;
  base64_decode := fun s => Some (as_bytes s) |}.

Lemma pad_length n b : length (pad n b) = n.
Proof. unfold pad. rewrite length_take, length_app, repeat_length. lia. Qed.

Lemma pad_pad n b : pad n (pad n b) = pad n b.
Proof. unfold pad at 1. by rewrite take_app_length' by (symmetry; apply pad_length). Qed.

#[export] Instance simple_primitives_laws : PrimitivesLaws.
Proof.
  constructor; cbn; intros.
  - apply pad_length.
  - by eexists.
  - apply pad_length.
  - by rewrite !pad_pad, Z.add_comm.
  - by rewrite length_app.
  - rewrite length_app. cbn. rewrite Nat.add_sub. by rewrite take_app_length.
Qed.

Definition sample_key : bytes := repeat Byte.x00 31 ++ [Byte.x03].

Definition sample_blinded : list bytes := map (compress (Scalar := F5)) [N1; N4].
Definition sample_evaluated : list bytes := map (evaluate_point (Scalar := F5) sample_key) [N1; N4].

Lemma dleq_complete_witness :
  exists proof, generate_dleq_proof (Scalar := F5) sample_key sample_blinded sample_evaluated = Some proof /\
    verify_dleq_proof (Scalar := F5) (issuer_public_key (Scalar := F5) sample_key) sample_blinded sample_evaluated proof = true.
Proof.
  destruct (dleq_complete (Scalar := F5) sample_key [N1; N4]) as (proof & E & _ & V).
  - done.
  - done.
  - repeat constructor; done.
  - by exists proof.
Defined.

Definition sample_proof : bytes := default [] (generate_dleq_proof (Scalar := F5) sample_key sample_blinded sample_evaluated).


(** The proof of the sample is refused against the commitment of another key. *)
Example other_key_refused : forallb (fun k => negb (verify_dleq_proof (Scalar := F5)
  (compress (Scalar := F5) (scale (Scalar := F5) k RISTRETTO_BASEPOINT_POINT)) sample_blinded sample_evaluated sample_proof))
  [N0; N1; N2; N4] = true.
Proof. vm_compute. reflexivity. Qed.

End PrivacyPass.
