(* ===== verification/SendLimits.v ===== *)
(** * The limits of the messaging service

    Models construct-rate-limit/src/lib.rs [sliding_window_check_and_record] and
    [is_user_in_warmup_cached], messaging-service/src/sealed_ip.rs
    [check_sealed_ip_limit], and messaging-service/src/trust.rs: the sliding window over a
    sorted set, the per-address window of sealed sends with its fallback (DegradedLimiter.v)
    and its buckets (Net.v), the hourly limit and the daily limit of recipients. The
    clocks are arguments. Redis's HyperLogLog and the text form of a floating-point number
    are parameters. *)

From S2P Require Import Prelude Text Net DegradedLimiter RedisStore.

Module SendLimits.
Import Redis.

Section Windows.
Context {R : Type} `{Redis R}.

(** ** The sliding window *)

(** The clock is read twice: in milliseconds for the score, in nanoseconds, if they fit,
    for the member. *)
Definition sliding_window_check_and_record (r : R) (key : string) (max_events window_seconds now_ms : Z)
    (nanos : option Z) : R * result bool unit :=
  let window_start_ms := now_ms - window_seconds * 1000 in
  match exec_int r (ZREMRANGEBYSCORE key window_start_ms) with
  | (r1, None) => (r1, Err tt)
  | (r1, Some _) =>
      match exec_int r1 (ZCOUNT key (window_start_ms + 1)) with
      | (r2, None) => (r2, Err tt)
      | (r2, Some n) =>
          let count := wrap_u32 n in
          if max_events <=? count then (r2, Ok false)
          else
            let member := match nanos with
                          | Some n => to_string n
                          | None => to_string now_ms +:+ "-" +:+ to_string count
                          end in
            match exec_int r2 (ZADD key member now_ms) with
            | (r3, None) => (r3, Err tt)
            | (r3, Some _) =>
                match exec_bool r3 (EXPIRE key (window_seconds + 60)) with
                | (r4, None) => (r4, Err tt)
                | (r4, Some _) => (r4, Ok true)
                end
            end
      end
  end.

(** ** Sealed sends per address *)

Inductive SealedIpDecision := Allow | Limited.
#[global] Instance SealedIpDecision_eq_dec : EqDecision SealedIpDecision.
Proof. solve_decision. Defined.

(** A cast [u32 as i32]. *)
Definition as_i32 (z : Z) : Z := if i32_max <? z then z - (u32_max + 1) else z.

Definition charge_locally (l : DegradedLimiter.t) (key : string) (limit now_secs : Z)
    : DegradedLimiter.t * SealedIpDecision :=
  let '(l', out) := DegradedLimiter.charge l key (as_i32 limit) 60 now_secs in
  (l', if DegradedLimiter.allowed out then Allow else Limited).

(** The readings of the clocks by one check. *)
Record Clocks := { ck_now_ms : Z; ck_window_ms : Z; ck_nanos : option Z; ck_now_secs : Z }.

Definition check_sealed_ip_limit (limit : Z) (r : R) (l : DegradedLimiter.t) (client_ip : string) (c : Clocks)
    : R * DegradedLimiter.t * SealedIpDecision :=
  let key := "sealed_ip:" +:+ Net.client_rate_bucket client_ip in
  let now_ms := ck_now_ms c in
  if DegradedLimiter.should_skip_redis l now_ms then
    let '(l', d) := charge_locally l key limit (ck_now_secs c) in (r, l', d)
  else
    match sliding_window_check_and_record r key limit 60 (ck_window_ms c) (ck_nanos c) with
    | (r', Ok allowed) =>
        let l1 := if bool_decide (DegradedLimiter.state l now_ms = DegradedLimiter.Closed) then l
                  else DegradedLimiter.clear l in
        (r', DegradedLimiter.record_success l1, if allowed then Allow else Limited)
    | (r', Err _) =>
        let '(l1, _) := DegradedLimiter.record_failure l now_ms in
        let '(l2, d) := charge_locally l1 key limit (ck_now_secs c) in
        (r', l2, d)
    end.

(** ** The warm-up period, cached *)

Definition WARMUP_CACHE_TTL_SECS : Z := 600.

(** [parse_u8] of a cached value; the query may fail. *)
Definition is_user_in_warmup_cached (r : R) (is_user_in_warmup : option bool) (user_id : string)
    : R * result bool unit :=
  let key := "rl:warmup:" +:+ user_id in
  let '(r1, cached) := match exec_opt_string r (GET key) with
                       | (r', Some (Some s)) =>
                           (r', let* v := parse_u64 s in if v <=? 255 then Some v else None)
                       | (r', _) => (r', None)
                       end in
  match cached with
  | Some v => (r1, Ok (v =? 1))
  | None =>
      match is_user_in_warmup with
      | None => (r1, Err tt)
      | Some in_warmup =>
          let r2 := (exec_unit r1 (SETEX key (if in_warmup then "1" else "0") WARMUP_CACHE_TTL_SECS)).1 in
          (r2, Ok in_warmup)
      end
  end.

(** ** Trust levels *)

Inductive TrustLevel := New | Warming | Trusted.

Context {F64 : Type} (f64_ltb : F64 -> F64 -> bool) (f64_zero : F64).
Context (f64_show : F64 -> string) (f64_parse : string -> option F64).

Record MessagingConfig := {
  trust_new_max_age_hours : F64;
  trust_warming_max_age_hours : F64;
  hourly_limit_new : Z;
  hourly_limit_warming : Z;
  hourly_limit_trusted : Z;
  fanout_limit_new : Z;
  fanout_limit_warming : Z;
}.

Definition from_age_hours (hours : F64) (config : MessagingConfig) : TrustLevel :=
  if f64_ltb hours (trust_new_max_age_hours config) then New
  else if f64_ltb hours (trust_warming_max_age_hours config) then Warming
  else Trusted.

Definition hourly_limit (t : TrustLevel) (config : MessagingConfig) : Z :=
  match t with
  | New => hourly_limit_new config
  | Warming => hourly_limit_warming config
  | Trusted => hourly_limit_trusted config
  end.

Definition fanout_limit (t : TrustLevel) (config : MessagingConfig) : option Z :=
  match t with
  | New => Some (fanout_limit_new config)
  | Warming => Some (fanout_limit_warming config)
  | Trusted => None
  end.

(** [get_user_account_age_hours] answers, answers that there is no age, or fails. *)
Definition get_trust_level (r : R) (age_query : option (option F64)) (user_id : string)
    (config : MessagingConfig) : R * TrustLevel :=
  let cache_key := "trust:" +:+ user_id in
  let '(r1, cached) := match exec_opt_string r (GET cache_key) with
                       | (r', Some (Some s)) => (r', f64_parse s)
                       | (r', _) => (r', None)
                       end in
  match cached with
  | Some hours => (r1, from_age_hours hours config)
  | None =>
      let age_hours := default f64_zero (default None age_query) in
      let r2 := (exec_unit r1 (SETEX cache_key (f64_show age_hours) 3600)).1 in
      (r2, from_age_hours age_hours config)
  end.

(** ** The hourly limit *)

Inductive RetryAfter := RetryAfterSecs (secs : Z).

Definition two (a b : Z) : reply := RValue (RvArray [RvInt a; RvInt b]).

Definition exec_two (r : R) (c : cmd) : R * option (Z * Z) :=
  match exec r c with
  | (r', Some (RValue (RvArray [RvInt a; RvInt b]))) => (r', Some (a, b))
  | (r', _) => (r', None)
  end.

(** [{1, count}] when counted, [{0, ttl}] when refused. *)
Definition hourly_script (k : string) (limit : Z) (ks : keyspace) : option (keyspace * reply) :=
  let* current := counter ks k in
  if limit <=? current then
    let ttl := match ks !! k with None => -2 | Some e => default (-1) (e_ttl e) end in
    if ttl <? 0 then Some ((doc_expire ks k 3600).1, two 0 3600)
    else Some (ks, two 0 ttl)
  else
    match incr_expire k 3600 ks with
    | Some (ks1, RInt count) => Some (ks1, two 1 count)
    | _ => None
    end.

Definition hourly_key (user_id : string) : string := "rate:msg:{" +:+ user_id +:+ "}:hour".

Definition check_hourly_rate (r : R) (user_id : string) (limit : Z) : R * result Z RetryAfter :=
  let '(r1, (allowed, value)) := match exec_two r (EVAL (hourly_script (hourly_key user_id) limit)) with
                                 | (r', Some p) => (r', p)
                                 | (r', None) => (r', (1, 0))
                                 end in
  (r1, if allowed =? 1 then Ok value else Err (RetryAfterSecs (Z.max value 1))).

(** ** The daily limit of recipients *)

(** Redis keeps a HyperLogLog in a string: merging one into another key, adding an element
    (was a register altered?), estimating the count. Each fails on other strings. *)
Context (pf_merge : option string -> option string -> option string)
        (pf_add : option string -> string -> option (string * bool))
        (pf_count : option string -> option Z).

Definition as_string (ks : keyspace) (k : string) : option (option string) :=
  match ks !! k with
  | None => Some None
  | Some (Entry (VStr s) _) => Some (Some s)
  | Some _ => None
  end.

Definition fanout_script (key probe recipient : string) (limit : Z) (ks : keyspace) : option (keyspace * reply) :=
  let* p := as_string ks probe in
  let* h := as_string ks key in
  let* merged := pf_merge p h in
  let* probed := pf_add (Some merged) recipient in
  let ks1 := delete probe ks in
  if probed.2 then
    let* n := pf_count h in
    if limit <=? n then Some (ks1, two 0 0)
    else
      let* added := pf_add h recipient in
      let ks2 := (doc_expire (set_val ks1 key (VStr added.1)) key 172800).1 in
      let* n' := pf_count (Some added.1) in
      Some (ks2, two 1 n')
  else
    let* n := pf_count h in
    Some (ks1, two 1 n).

Definition secs_until_next_utc_day (now : Z) : Z := 86400 - now mod 86400.

Definition fanout_key (user_id : string) (now : Z) : string :=
  "fanout:" +:+ user_id +:+ ":" +:+ to_string (now / 86400).

Definition check_fanout_rate (r : R) (user_id recipient_id : string) (limit now : Z) : R * result Z RetryAfter :=
  let key := fanout_key user_id now in
  let '(r1, (allowed, count)) :=
    match exec_two r (EVAL (fanout_script key (key +:+ ":probe") recipient_id limit)) with
    | (r', Some p) => (r', p)
    | (r', None) => (r', (1, 0))
    end in
  (r1, if allowed =? 1 then Ok count else Err (RetryAfterSecs (secs_until_next_utc_day now))).

(** ** Both limits *)

Inductive LimitName := Hourly | Fanout.

Definition check_send_limits (is_own_copy : string -> string -> bool) (r : R) (trust : TrustLevel)
    (config : MessagingConfig) (sender_id recipient_id : string) (now : Z)
    : R * option (LimitName * RetryAfter) :=
  if is_own_copy sender_id recipient_id then (r, None)
  else
    match check_hourly_rate r sender_id (hourly_limit trust config) with
    | (r1, Err retry) => (r1, Some (Hourly, retry))
    | (r1, Ok _) =>
        match fanout_limit trust config with
        | None => (r1, None)
        | Some limit =>
            match check_fanout_rate r1 sender_id recipient_id limit now with
            | (r2, Err retry) => (r2, Some (Fanout, retry))
            | (r2, Ok _) => (r2, None)
            end
        end
    end.

End Windows.
(** ** What the sliding window counts *)

Section Sliding.
Context {R : Type} `{RedisLaws R}.
Context (key : string) (max_events window_seconds : Z).
Context (Hmax : 0 <= max_events <= u32_max) (Hwin : 0 < window_seconds).

#[local] Abbreviation check := (fun r t n =>
  sliding_window_check_and_record r key max_events window_seconds t (Some n)).

(** The events of a window that ends at [t]. *)
Definition live (t : Z) (m : gmap string Z) : gmap string Z :=
  filter (fun kv => t - window_seconds * 1000 < kv.2) m.

Lemma exec_zset r c m m' rep :
  exact_answer c = true -> as_zset (keys r) key = Some m ->
  (forall ks', cmd_doc c (keys r) = Some (ks', rep) -> as_zset ks' key = Some m') ->
  (forall ks' rep', cmd_doc c (keys r) = Some (ks', rep') -> rep' = rep) ->
  forall r' o, exec r c = (r', o) ->
  (as_zset (keys r') key = Some m \/ as_zset (keys r') key = Some m') /\
  (forall x, o = Some x -> x = rep /\ as_zset (keys r') key = Some m').
Proof using Type.
  intros Hc Hm Hd Hrep r' [x|] E.
  - pose proof (exec_exact _ _ _ _ E Hc) as Hx. pose proof (Hrep _ _ Hx) as ->. apply Hd in Hx. split; [by right|].
    by intros ? [= <-].
  - split; [|done]. destruct (exec_err _ _ _ E) as [->|[rep' Hx]]; [by left|]. pose proof (Hrep _ _ Hx) as ->. right. by apply Hd.
Qed.

Lemma as_zset_set ks k v m : k = key -> v = VZset m -> as_zset (set_val ks k v) key = Some m.
Proof. intros -> ->. unfold as_zset, set_val. by rewrite lookup_insert_eq. Qed.

(** One call: what it leaves in the set, and what its answer means. *)
Lemma check_effect r t n r' res m :
  check r t n = (r', res) -> as_zset (keys r) key = Some m ->
  Z.of_nat (size (live t m)) <= u32_max ->
  exists m', as_zset (keys r') key = Some m' /\
    (m' = m \/ m' = live t m \/
     m' = <[to_string n := t]> (live t m) /\ Z.of_nat (size (live t m)) < max_events) /\
    match res with
    | Ok true => m' = <[to_string n := t]> (live t m) /\ Z.of_nat (size (live t m)) < max_events
    | Ok false => m' = live t m /\ max_events <= Z.of_nat (size (live t m))
    | Err _ => True
    end.
Proof using Hmax Hwin.
  intros E Hm Hsz. unfold sliding_window_check_and_record in E.
  set (t0 := t - window_seconds * 1000) in E. unfold exec_int, exec_bool in E.
  destruct (exec r (ZREMRANGEBYSCORE key t0)) as [r1 o1] eqn:E1.
  destruct (exec_zset r (ZREMRANGEBYSCORE key t0) m (live t m)
    (RInt (Z.of_nat (size m) - Z.of_nat (size (live t m)))) eq_refl Hm) with (r' := r1) (o := o1) as [H1 H1a]; [| |done|].
  { cbn. rewrite Hm. cbn. intros ks' [= <-]. unfold set_or_drop. case_bool_decide as Hem.
    - unfold as_zset. rewrite lookup_delete_eq. by rewrite <- Hem.
    - by apply as_zset_set. }
  { cbn. rewrite Hm. cbn. by intros ks' rep' [= _ <-]. }
  destruct o1 as [rep1|]; [|injection E as <- <-; destruct H1 as [H1|H1]; eexists; (split; [exact H1|]); auto].
  destruct (H1a _ eq_refl) as [-> Hm1]. clear H1 H1a. cbn in E.
  destruct (exec r1 (ZCOUNT key (t0 + 1))) as [r2 o2] eqn:E2.
  destruct (exec_zset r1 (ZCOUNT key (t0 + 1)) (live t m) (live t m) (RInt (Z.of_nat (size (live t m)))) eq_refl Hm1)
    with (r' := r2) (o := o2) as [H2 H2a]; [| |done|].
  { cbn. rewrite Hm1. cbn. by intros ks' [= <- _]. }
  { cbn. rewrite Hm1. cbn. intros ks' rep' [= _ <-]. do 3 f_equal. apply map_filter_id. intros k v Hv.
    apply map_lookup_filter_Some in Hv as [_ Hv]. cbn in *. lia. }
  assert (as_zset (keys r2) key = Some (live t m)) as Hm2 by tauto.
  destruct o2 as [rep2|]; [|injection E as <- <-; eexists; split; [exact Hm2|]; auto].
  destruct (H2a _ eq_refl) as [-> _]. clear H2 H2a. cbn in E. rewrite wrap_u32_id in E by (unfold in_u32; lia).
  destruct (Z.leb_spec max_events (Z.of_nat (size (live t m)))) as [Hfull|Hroom].
  { injection E as <- <-. exists (live t m). auto. }
  destruct (exec r2 (ZADD key (to_string n) t)) as [r3 o3] eqn:E3.
  destruct (exec_zset r2 (ZADD key (to_string n) t) (live t m) (<[to_string n := t]> (live t m))
    (RInt (if live t m !! to_string n is Some _ then 0 else 1)) eq_refl Hm2) with (r' := r3) (o := o3) as [H3 H3a]; [| |done|].
  { cbn. rewrite Hm2. cbn. intros ks' [= <-]. by apply as_zset_set. }
  { cbn. rewrite Hm2. cbn. by intros ks' rep' [= _ <-]. }
  destruct o3 as [rep3|]; [|injection E as <- <-; destruct H3 as [H3|H3]; eexists; (split; [exact H3|]); auto].
  destruct (H3a _ eq_refl) as [-> Hm3]. clear H3 H3a. cbn in E.
  destruct (exec r3 (EXPIRE key (window_seconds + 60))) as [r4 o4] eqn:E4.
  assert (as_zset (keys r4) key = Some (<[to_string n := t]> (live t m))) as Hm4.
  { destruct (exec_zset r3 (EXPIRE key (window_seconds + 60)) (<[to_string n := t]> (live t m)) (<[to_string n := t]> (live t m))
      (snd (doc_expire (keys r3) key (window_seconds + 60))) eq_refl Hm3) with (r' := r4) (o := o4) as [? _]; [| |done|tauto].
    - cbn. intros ks' [= Hks]. unfold doc_expire in Hks. unfold as_zset in Hm3 |- *.
      destruct (keys r3 !! key) as [[v ttl]|] eqn:Hk; [|by injection Hks as <-; rewrite Hk].
      destruct (Z.leb_spec (window_seconds + 60) 0); [lia|]. injection Hks as <-. by rewrite lookup_insert_eq.
    - cbn. intros ks' rep' [= Hks]. by rewrite Hks. }
  exists (<[to_string n := t]> (live t m)).
  destruct o4 as [[]|]; injection E as <- <-; (split; [exact Hm4|]); auto.
Qed.

(** *** Histories of one window

    Checks in the order of their clock, with distinct nanoseconds; in between other
    traffic that leaves the key, and its expiry, once whatever it may hold is older than
    the window. *)

Record event := { ev_t : Z; ev_n : Z; ev_res : result bool unit }.

Inductive history : list event -> Z -> R -> Prop :=
| history_start c r : as_zset (keys r) key = Some ∅ -> history [] c r
| history_check h c r t n r' res :
    history h c r -> c <= t -> in_u64 n -> n ∉ map ev_n h -> check r t n = (r', res) ->
    history (h ++ [{| ev_t := t; ev_n := n; ev_res := res |}]) t r'
| history_other h c r r' :
    history h c r -> as_zset (keys r') key = as_zset (keys r) key -> history h c r'
| history_expire h c r t r' :
    history h c r -> c <= t ->
    (forall e, e ∈ h -> ev_res e <> Ok false -> ev_t e + window_seconds * 1000 <= t) ->
    as_zset (keys r') key = Some ∅ -> history h t r'.

Record window_inv (h : list event) (c : Z) (r : R) (m : gmap string Z) : Prop := {
  wi_set : as_zset (keys r) key = Some m;
  wi_held e : e ∈ h -> ev_res e = Ok true -> c - window_seconds * 1000 < ev_t e ->
    m !! to_string (ev_n e) = Some (ev_t e);
  wi_from k u : m !! k = Some u -> c - window_seconds * 1000 < u ->
    exists e, e ∈ h /\ k = to_string (ev_n e) /\ u = ev_t e /\ ev_res e <> Ok false;
  wi_size : Z.of_nat (size (live c m)) <= max_events;
  wi_nodup : NoDup (map ev_n h);
  wi_range e : e ∈ h -> in_u64 (ev_n e);
}.

Lemma live_lookup t m k u : live t m !! k = Some u <-> m !! k = Some u /\ t - window_seconds * 1000 < u.
Proof using Type. unfold live. by rewrite map_lookup_filter_Some. Qed.

Lemma live_later c t m : c <= t -> live t m ⊆ live c m.
Proof using Hmax Hwin.
  intros Hc. apply map_subseteq_spec. intros k u Hk. apply live_lookup in Hk as [Hk Hu]. apply live_lookup. split; [done|lia].
Qed.

Lemma live_size c t m : c <= t -> (size (live t m) <= size (live c m))%nat.
Proof using Hmax Hwin. intros Hc. apply map_subseteq_size. by apply live_later. Qed.

Lemma live_live c t m : c <= t -> live t (live c m) = live t m.
Proof using Hmax Hwin.
  intros Hc. apply map_eq. intros k. apply option_eq. intros u. rewrite !live_lookup. intuition lia.
Qed.

Lemma window_inv_check h c r m t n r' res :
  window_inv h c r m -> c <= t -> in_u64 n -> n ∉ map ev_n h -> check r t n = (r', res) ->
  exists m', window_inv (h ++ [{| ev_t := t; ev_n := n; ev_res := res |}]) t r' m'.
Proof using Hmax Hwin.
  intros [Hs Hh Hf Hz Hn Hr] Hc Hu Hfresh E. set (e := {| ev_t := t; ev_n := n; ev_res := res |}).
  pose proof (live_size c t m Hc) as Hsz.
  destruct (check_effect _ _ _ _ _ _ E Hs) as (m' & Hs' & Hm' & Hres); [unfold u32_max in *; lia|].
  assert (NoDup (map ev_n (h ++ [e])) /\ forall d, d ∈ h ++ [e] -> in_u64 (ev_n d)) as [Hn' Hr'].
  { rewrite map_app. split.
    - apply list.NoDup_app. split_and!; [done| |apply list.NoDup_singleton]. intros x Hx Hx'.
      apply list_elem_of_singleton in Hx'. cbn in Hx'. by subst.
    - intros d [Hd| ->%list_elem_of_singleton]%elem_of_app; [by apply Hr|done]. }
  assert (forall k u, m !! k = Some u -> t - window_seconds * 1000 < u ->
    exists d, d ∈ h ++ [e] /\ k = to_string (ev_n d) /\ u = ev_t d /\ ev_res d <> Ok false) as Hfrom.
  { intros k u Hk Hlt. destruct (Hf k u Hk) as (d & Hd & ? & ? & ?); [lia|]. exists d. split_and!; try done. apply elem_of_app. by left. }
  assert (forall d, d ∈ h -> ev_res d = Ok true -> t - window_seconds * 1000 < ev_t d ->
    live t m !! to_string (ev_n d) = Some (ev_t d)) as Hheld.
  { intros d Hd Hok Hlt. apply live_lookup. split; [|lia]. apply Hh; [done|done|lia]. }
  exists m'. destruct Hm' as [->|[->|[-> Hroom]]].
  - split; try done.
    + intros d [Hd| ->%list_elem_of_singleton]%elem_of_app Hok Hlt; [apply Hh; [done|done|lia]|].
      cbn in Hok. subst res. destruct Hres as [Hm _]. rewrite Hm. by rewrite lookup_insert_eq.
    + lia.
  - split; try done.
    + intros d [Hd| ->%list_elem_of_singleton]%elem_of_app Hok Hlt; [by apply Hheld|].
      cbn in Hok. subst res. destruct Hres as [Hm _]. rewrite Hm. by rewrite lookup_insert_eq.
    + intros k u [Hk Hu']%live_lookup Hlt. by apply Hfrom.
    + rewrite live_live by lia. lia.
  - split; try done.
    + intros d [Hd| ->%list_elem_of_singleton]%elem_of_app Hok Hlt.
      * rewrite lookup_insert_ne; [by apply Hheld|]. intros Heq. apply to_string_inj in Heq; [|done|by apply Hr].
        apply Hfresh. rewrite Heq. by apply list_elem_of_fmap_2.
      * by rewrite lookup_insert_eq.
    + intros k u Hk Hlt. destruct (decide (k = to_string n)) as [->|Hne].
      * rewrite lookup_insert_eq in Hk. injection Hk as <-. exists e. split_and!; [apply elem_of_app; right; left|done|done|].
        cbn. intros ->. destruct Hres as [_ Hfull]. lia.
      * rewrite lookup_insert_ne in Hk by done. apply live_lookup in Hk as [Hk _]. by apply Hfrom.
    + assert (size (live t (<[to_string n := t]> (live t m))) <= S (size (live t m)))%nat; [|lia].
      etrans; [apply map_subseteq_size, map_filter_subseteq|].
      rewrite map_size_insert. destruct (live t m !! to_string n); cbn; lia.
Qed.

Lemma history_inv h c r : history h c r -> exists m, window_inv h c r m.
Proof using Hmax Hwin.
  induction 1 as [c r Hs|h c r t n r' res Hh [m IH] Hc Hu Hf E|h c r r' Hh [m IH] Hs|h c r t r' Hh [m IH] Hc Hold Hs].
  - exists ∅. split; [done|set_solver|set_solver| |constructor|set_solver].
    unfold live. rewrite map_filter_empty, map_size_empty. lia.
  - by eapply window_inv_check.
  - exists m. destruct IH. split; try done. by rewrite Hs.
  - exists ∅. destruct IH as [_ _ _ _ Hn Hr]. split; try done.
    + intros e He Hok Hlt. specialize (Hold e He). rewrite Hok in Hold. specialize (Hold ltac:(done)). lia.
    + unfold live. rewrite map_filter_empty, map_size_empty. lia.
Qed.

(** *** The reference: how many accepted events the window holds *)

Definition accepted (e : event) : bool := bool_decide (ev_res e = Ok true).

Definition used (h : list event) (t : Z) : Z :=
  count_if (fun e => accepted e && (t - window_seconds * 1000 <? ev_t e)) h.

#[local] Abbreviation members h t :=
  (map (fun e => to_string (ev_n e)) (List.filter (fun e => accepted e && (t - window_seconds * 1000 <? ev_t e)) h)).

Lemma members_nodup h t :
  NoDup (map ev_n h) -> (forall e, e ∈ h -> in_u64 (ev_n e)) -> NoDup (members h t).
Proof using Type.
  induction h as [|e h IH]; intros Hn Hr; [constructor|]. apply list.NoDup_cons in Hn as [He Hn].
  assert (NoDup (members h t)) as Hm by (apply IH; [done|]; intros d Hd; apply Hr; by right).
  cbn. destruct (_ && _); [|done]. cbn. apply list.NoDup_cons. split; [|done].
  intros (d & Heq & Hd)%list_elem_of_fmap. apply list_elem_of_In, filter_In in Hd as [Hd _]. apply list_elem_of_In in Hd.
  apply to_string_inj in Heq; [|apply Hr; by left|apply Hr; by right]. apply He. rewrite Heq. by apply list_elem_of_fmap_2.
Qed.

Lemma used_members h c r m t :
  window_inv h c r m -> c <= t ->
  used h t <= Z.of_nat (size (live t m)) /\
  ((forall e, e ∈ h -> ev_res e <> Err tt) -> Z.of_nat (size (live t m)) <= used h t).
Proof using Hmax Hwin.
  intros [_ Hh Hf _ Hn Hr] Hc. unfold used, count_if. rewrite <- (length_map (fun e => to_string (ev_n e))).
  pose proof (members_nodup h t Hn Hr) as Hnd. rewrite <- size_dom, <- (size_list_to_set (C := gset string) _ Hnd). split.
  - enough (list_to_set (members h t) ⊆ dom (live t m)) as Hsub by (apply subseteq_size in Hsub; lia).
    intros k Hk. apply elem_of_list_to_set, list_elem_of_fmap in Hk as (e & -> & He).
    apply list_elem_of_In, filter_In in He as [He Ht]. apply list_elem_of_In in He. apply andb_true_iff in Ht as [Ha Ht].
    apply bool_decide_eq_true in Ha. apply elem_of_dom. exists (ev_t e). apply live_lookup. split; [apply Hh; [done|done|lia]|lia].
  - intros Hclean. enough (dom (live t m) ⊆ list_to_set (members h t)) as Hsub by (apply subseteq_size in Hsub; lia).
    intros k [u [Hk Hu]%live_lookup]%elem_of_dom. destruct (Hf k u Hk) as (e & He & -> & -> & Hres); [lia|].
    apply elem_of_list_to_set, list_elem_of_fmap. exists e. split; [done|]. apply list_elem_of_In, filter_In.
    split; [by apply list_elem_of_In|]. apply andb_true_iff. split; [|lia]. apply bool_decide_eq_true.
    specialize (Hclean e He). destruct (ev_res e) as [[]|[]]; done.
Qed.


End Sliding.
(** ** Sealed sends while Redis is away *)

Section Outage.
Context {R : Type} `{Redis R} (Down : R -> Prop) (Hout : outage Down) (limit : Z).

(** A run of checks, and how many of a bucket's were allowed. *)
Fixpoint sealed_run (r : R) (l : DegradedLimiter.t) (checks : list (string * Clocks))
    : DegradedLimiter.t * list SealedIpDecision :=
  match checks with
  | [] => (l, [])
  | (ip, c) :: rest =>
      let '(r1, l1, d) := check_sealed_ip_limit limit r l ip c in
      let '(l2, ds) := sealed_run r1 l1 rest in
      (l2, d :: ds)
  end.

Definition bucket_hash (ip : string) : Z :=
  DegradedLimiter.fxhash ("sealed_ip:" +:+ Net.client_rate_bucket ip).

Fixpoint tally (h : Z) (checks : list (string * Clocks)) (ds : list SealedIpDecision) (p : SealedIpDecision -> bool) : Z :=
  match checks, ds with
  | (ip, _) :: checks', d :: ds' => (if (bucket_hash ip =? h) && p d then 1 else 0) + tally h checks' ds' p
  | _, _ => 0
  end.

Lemma decisions_nonneg h checks ds p : 0 <= tally h checks ds p.
Proof using Type. revert ds. induction checks as [|[ip c] checks IH]; intros [|d ds]; cbn; try lia. specialize (IH ds). case_match; lia. Qed.

Lemma charge_room l h lim ws :
  DegradedLimiter.tracked l < DegradedLimiter.MAX_TRACKED_KEYS ->
  let '(l', out) := DegradedLimiter.charge_hash l h lim ws in
  DegradedLimiter.tracked_flag out = true /\ DegradedLimiter.tracked l' <= DegradedLimiter.tracked l + 1.
Proof using Type.
  intros Hl. unfold DegradedLimiter.charge_hash. destruct (_ !! h) as [e|].
  - destruct (_ =? ws); cbn; split; try done; lia.
  - apply Z.leb_gt in Hl. rewrite Hl. cbv beta iota. rewrite Hl. cbn. split; [done|lia].
Qed.

(** In an outage a check is one charge of the fallback table. *)
Lemma check_down r l ip c :
  Down r -> 1 <= limit <= i32_max ->
  exists r' l1, Down r' /\
    (l1 = l \/ l1 = (DegradedLimiter.record_failure l (ck_now_ms c)).1) /\
    let '(l2, out) := DegradedLimiter.charge_hash l1 (bucket_hash ip) limit (DegradedLimiter.window_of 60 (ck_now_secs c)) in
    check_sealed_ip_limit limit r l ip c = (r', l2, if DegradedLimiter.allowed out then Allow else Limited).
Proof using Hout.
  intros Hd Hlim. unfold check_sealed_ip_limit, charge_locally, DegradedLimiter.charge, as_i32.
  destruct (Z.ltb_spec i32_max limit); [lia|]. destruct (Z.leb_spec limit 0); [lia|]. fold (bucket_hash ip).
  destruct (DegradedLimiter.should_skip_redis l (ck_now_ms c)).
  - exists r, l. destruct (DegradedLimiter.charge_hash l _ _ _) as [l2 out]. auto.
  - unfold sliding_window_check_and_record, exec_int. destruct (Hout r (ZREMRANGEBYSCORE
      ("sealed_ip:" +:+ Net.client_rate_bucket ip) (ck_window_ms c - 60 * 1000)) Hd) as [Hn Hd'].
    destruct (exec r _) as [r1 o]. cbn in Hn, Hd'. subst o. destruct (DegradedLimiter.record_failure l (ck_now_ms c)) as [l1 b] eqn:Ef.
    exists r1, l1. destruct (DegradedLimiter.charge_hash l1 _ _ _) as [l2 out]. cbn. auto.
Qed.

(** C34: While Redis is away the per-address gate of sealed sends stays a gate. In an
    outage every check is answered, and within one minute, while the fallback table has
    room, the sends of one bucket are allowed exactly up to the limit, less what the
    bucket had used, whatever other senders do. *)
Theorem sealed_ip_outage r l checks h ws :
  Down r -> DegradedLimiter.wf l -> 1 <= limit <= i32_max ->
  Forall (fun x => DegradedLimiter.window_of 60 (ck_now_secs x.2) = ws) checks ->
  DegradedLimiter.tracked l + Z.of_nat (length checks) <= DegradedLimiter.MAX_TRACKED_KEYS ->
  DegradedLimiter.count_of l h ws + Z.of_nat (length checks) < u32_max ->
  let ds := (sealed_run r l checks).2 in
  length ds = length checks /\
  tally h checks ds (fun d => bool_decide (d = Allow))
  = Z.min (tally h checks ds (fun _ => true)) (Z.max 0 (limit - DegradedLimiter.count_of l h ws)).
Proof using Hout.
  intros Hd Hwf Hlim. revert r l Hd Hwf. induction checks as [|[ip c] checks IH]; intros r l Hd Hwf Hall Hroom Hcnt ds.
  { subst ds. cbn. pose proof (DegradedLimiter.count_of_nonneg l h ws Hwf). split; [done|lia]. }
  subst ds. apply list.Forall_cons in Hall as [Hws Hall]. cbn [length snd] in *.
  destruct (check_down r l ip c Hd Hlim) as (r' & l1 & Hd' & Hl1 & Hchk).
  assert (DegradedLimiter.wf l1 /\ DegradedLimiter.tracked l1 = DegradedLimiter.tracked l
          /\ DegradedLimiter.count_of l1 h ws = DegradedLimiter.count_of l h ws) as (Hwf1 & Ht1 & Hc1).
  { destruct Hl1 as [->| ->]; [done|]. split_and!; [by apply DegradedLimiter.record_failure_wf| |apply DegradedLimiter.record_failure_count].
    unfold DegradedLimiter.record_failure. cbn zeta. by destruct (_ <? _). }
  pose proof (charge_room l1 (bucket_hash ip) limit ws ltac:(lia)) as Hr.
  pose proof (DegradedLimiter.charge_hash_wf l1 (bucket_hash ip) limit ws Hwf1) as Hwf2.
  pose proof (DegradedLimiter.charge_hash_same l1 (bucket_hash ip) limit ws Hwf1 ltac:(unfold i32_max, u32_max in *; lia)) as Hsame.
  pose proof (DegradedLimiter.charge_hash_other l1 (bucket_hash ip) h limit ws Hwf1) as Hoth.
  pose proof (DegradedLimiter.count_of_nonneg l h ws Hwf) as Hnn.
  rewrite Hws in Hchk. destruct (DegradedLimiter.charge_hash l1 (bucket_hash ip) limit ws) as [l2 out].
  destruct Hr as [Htf Ht2]. rewrite Htf in Hsame. destruct Hsame as [Hal Hc2]. cbn [fst] in *.
  cbn [sealed_run]. rewrite Hchk.
  assert (DegradedLimiter.count_of l2 h ws =
    if bucket_hash ip =? h then saturating_add_u32 (DegradedLimiter.count_of l h ws) 1 else DegradedLimiter.count_of l h ws) as Hcl2.
  { destruct (Z.eqb_spec (bucket_hash ip) h) as [<-|Hne]; [by rewrite Hc2, Hc1|by rewrite Hoth, Hc1]. }
  specialize (IH r' l2 Hd' Hwf2 Hall ltac:(lia)). rewrite Hcl2 in IH.
  destruct (sealed_run r' l2 checks) as [l3 ds]. cbn [snd fst length tally] in *.
  pose proof (decisions_nonneg h checks ds (fun _ => true)).
  unfold saturating_add_u32 in *. rewrite andb_true_r. destruct (Z.eqb_spec (bucket_hash ip) h) as [<-|Hne].
  - destruct IH as [Hlen IH]; [lia|]. split; [lia|]. rewrite Hc1 in Hal. rewrite Hal, IH. cbn [andb].
    destruct (Z.leb_spec (DegradedLimiter.count_of l (bucket_hash ip) ws + 1) limit);
      [rewrite bool_decide_true by done|rewrite bool_decide_false by done]; lia.
  - destruct IH as [Hlen IH]; [lia|]. split; [lia|]. cbn [andb]. rewrite IH. lia.
Qed.

End Outage.
(** ** The hourly limit and the daily recipients *)

Section Limits.
Context {R : Type} `{RedisLaws R} (Up : R -> Prop) (Hup : available Up).

Lemma available_two r script ks' a b :
  Up r -> script (keys r) = Some (ks', two a b) ->
  exists r', exec_two r (EVAL script) = (r', Some (a, b)) /\ keys r' = ks' /\ Up r'.
Proof using Hup.
  intros Hr Hs. destruct (available_exact Up Hup r (EVAL script) ks' (two a b) Hr eq_refl Hs) as (r' & E & Hk & Hr').
  exists r'. unfold exec_two. by rewrite E.
Qed.

Lemma hourly_step r user limit c :
  Up r -> counter (keys r) (hourly_key user) = Some c -> 0 <= c -> limit <= u32_max ->
  exists r' retry, 1 <= retry /\ Up r' /\
    check_hourly_rate r user limit = (r', if c <? limit then Ok (c + 1) else Err (RetryAfterSecs retry)) /\
    counter (keys r') (hourly_key user) = Some (if c <? limit then c + 1 else c) /\
    (limit <= c -> keys r' !! hourly_key user = None \/ has_ttl (keys r') (hourly_key user)) /\
    (forall k, k <> hourly_key user -> keys r' !! k = keys r !! k).
Proof using Hup.
  intros Hr Hc Hc0 Hlim. set (k := hourly_key user) in *.
  assert (exists ks' a b, hourly_script k limit (keys r) = Some (ks', two a b) /\
    (if c <? limit then a = 1 /\ b = c + 1 /\ counter ks' k = Some (c + 1)
     else a = 0 /\ counter ks' k = Some c /\ (ks' !! k = None \/ has_ttl ks' k)) /\
    (forall j, j <> k -> ks' !! j = keys r !! j)) as (ks' & a & b & Hs & Hif & Hoth).
  { unfold hourly_script. rewrite Hc. cbn [mbind option_bind]. destruct (Z.leb_spec limit c), (Z.ltb_spec c limit); try lia.
    - unfold doc_expire. destruct (keys r !! k) as [[v ttl]|] eqn:Hk; cbn.
      + destruct (Z.ltb_spec (default (-1) ttl) 0) as [Ht|Ht]; do 3 eexists; (split; [reflexivity|]); cbn.
        * split; [split_and!; [done| |right; unfold has_ttl; by rewrite lookup_insert_eq]|intros j Hj; by rewrite lookup_insert_ne].
          unfold counter in Hc |- *. rewrite Hk in Hc. by rewrite lookup_insert_eq.
        * split; [split_and!; [done|done|right; unfold has_ttl; rewrite Hk]|done]. destruct ttl; [by eexists|cbn in Ht; lia].
      + do 3 eexists. split; [reflexivity|]. split; [split_and!; [done|done|by left]|done].
    - destruct (incr_expire_total k 3600 (keys r) c Hc) as [[ks1 rep] Hi]; [unfold i64_max, u32_max in *; lia|].
      destruct (incr_expire_spec _ _ _ _ _ Hi ltac:(lia)) as (n & -> & _). rewrite Hi.
      destruct (incr_expire_counter _ _ _ _ _ Hi ltac:(lia)) as (Hn & _ & Ho).
      destruct (Hn c Hc) as [-> Hc']; [unfold i64_max, u32_max in *; lia|]. do 3 eexists. split; [reflexivity|]. auto. }
  destruct (available_two r _ _ _ _ Hr Hs) as (r' & E & <- & Hr'). exists r', (Z.max b 1).
  unfold check_hourly_rate. fold k. rewrite E. split_and!; [lia|done| | | |done].
  - destruct (c <? limit); destruct Hif as [-> Hif]; [destruct Hif as [-> _]|]; done.
  - destruct (c <? limit); tauto.
  - intros Hle. destruct (Z.ltb_spec c limit); [lia|]. tauto.
Qed.

Fixpoint hourly_run (r : R) (user : string) (limit : Z) (n : nat) : R * list (result Z RetryAfter) :=
  match n with
  | O => (r, [])
  | S n =>
      let '(r1, o) := check_hourly_rate r user limit in
      let '(r2, os) := hourly_run r1 user limit n in
      (r2, o :: os)
  end.

(** The hourly limit is exact and does not count what it refuses. With Redis
    answering, of any number of sends in one window the first ones are admitted, each with
    its number, until the limit is reached; every later one is refused with a positive
    time to wait, and the counter stays at the limit, with an expiry that lets it go. *)
Theorem hourly_rate_exact r user limit n c :
  Up r -> counter (keys r) (hourly_key user) = Some c -> 0 <= c -> limit <= u32_max ->
  let '(r', os) := hourly_run r user limit n in
  length os = n /\
  (forall i o, os !! i = Some o ->
     if c + Z.of_nat i <? limit then o = Ok (c + Z.of_nat i + 1)
     else exists secs, o = Err (RetryAfterSecs secs) /\ 1 <= secs) /\
  counter (keys r') (hourly_key user) = Some (Z.max c (Z.min (c + Z.of_nat n) limit)) /\
  (n <> 0%nat -> limit < c + Z.of_nat n -> keys r' !! hourly_key user = None \/ has_ttl (keys r') (hourly_key user)) /\
  (forall k, k <> hourly_key user -> keys r' !! k = keys r !! k).
Proof using Hup.
  revert r c. induction n as [|n IH]; intros r c Hr Hc Hc0 Hlim; cbn [hourly_run].
  { split_and!; try done. rewrite Hc. f_equal. lia. }
  destruct (hourly_step r user limit c Hr Hc Hc0 Hlim) as (r1 & retry & Hretry & Hr1 & E & Hc1 & Httl & Hoth).
  rewrite E. specialize (IH r1 (if c <? limit then c + 1 else c) Hr1 Hc1 ltac:(case_match; lia) Hlim).
  destruct (hourly_run r1 user limit n) as [r2 os] eqn:Er. destruct IH as (Hlen & Hos & Hfin & Httl2 & Hoth2).
  split_and!; [cbn; lia| | | |intros k Hk; by rewrite Hoth2, Hoth].
  - intros [|i] o Hi; cbn in Hi.
    + injection Hi as <-. replace (c + Z.of_nat 0) with c by lia. destruct (c <? limit); [done|eauto].
    + specialize (Hos i o Hi). destruct (Z.ltb_spec c limit).
      * replace (c + Z.of_nat (S i)) with (c + 1 + Z.of_nat i) by lia. exact Hos.
      * destruct (Z.ltb_spec (c + Z.of_nat i) limit); [lia|]. destruct (Z.ltb_spec (c + Z.of_nat (S i)) limit); [lia|]. exact Hos.
  - rewrite Hfin. f_equal. destruct (Z.ltb_spec c limit); lia.
  - intros _ Hlt. destruct n as [|n]; [|apply Httl2; [done|case_match; lia]].
    cbn in Er. injection Er as <- _. apply Httl. lia.
Qed.

(** What the documentation promises of a HyperLogLog: an element that was added is known,
    adding others does not make it unknown, and a copy knows what the original knows. *)
Context (pf_merge : option string -> option string -> option string)
        (pf_add : option string -> string -> option (string * bool))
        (pf_count : option string -> option Z).

Definition known (o : option string) (x : string) : Prop := exists h, pf_add o x = Some (h, false).

Record HllLaws (valid : option string -> Prop) : Prop := {
  hll_empty : valid None;
  hll_count o : valid o -> is_Some (pf_count o);
  hll_copy o : valid o -> exists h, pf_merge None o = Some h /\ forall x, snd <$> pf_add (Some h) x = snd <$> pf_add o x;
  hll_add o x : valid o -> exists h b, pf_add o x = Some (h, b) /\ valid (Some h) /\ known (Some h) x;
  hll_mono o x y h b : valid o -> known o x -> pf_add o y = Some (h, b) -> known (Some h) x;
}.

Context (valid : option string -> Prop) (Hll : HllLaws valid).

#[local] Abbreviation fanout := (check_fanout_rate pf_merge pf_add pf_count).

(** The recipients of the day, as far as the store holds them. *)
Definition day_state (ks : keyspace) (user : string) (now : Z) (o : option string) : Prop :=
  as_string ks (fanout_key user now) = Some o /\ ks !! (fanout_key user now +:+ ":probe") = None /\ valid o.

Lemma probe_key_ne user now : fanout_key user now +:+ ":probe" <> fanout_key user now.
Proof using Type.
  intros E. apply (f_equal String.length) in E.
  assert (forall a b, String.length (a +:+ b) = (String.length a + String.length b)%nat) as Hl.
  { intros a b. induction a as [|x a IH]; [done|]. change (String x a +:+ b) with (String x (a +:+ b)). cbn. by rewrite IH. }
  rewrite Hl in E. cbn in E. lia.
Qed.

(** One check: a known recipient passes, a new one passes while there is room. *)
Lemma fanout_step r user x limit now o :
  Up r -> day_state (keys r) user now o ->
  exists r' o' res, fanout r user x limit now = (r', res) /\ Up r' /\ day_state (keys r') user now o' /\
    (forall y, known o y -> known o' y) /\
    match res with
    | Ok _ => known o' x
    | Err (RetryAfterSecs secs) => o' = o /\ ~ known o x /\ (exists n, pf_count o = Some n /\ limit <= n) /\ 1 <= secs <= 86400
    end.
Proof using Hup Hll.
  intros Hr (Hs & Hp & Hv). set (k := fanout_key user now) in *.
  destruct (hll_copy _ Hll o Hv) as (h & Hm & Hsnd). destruct (hll_add _ Hll o x Hv) as (h1 & b & Ha & Hv1 & Hk1).
  destruct (hll_count _ Hll o Hv) as [n Hn]. destruct (hll_count _ Hll (Some h1) Hv1) as [n1 Hn1].
  pose proof (Hsnd x) as Hx. rewrite Ha in Hx. destruct (pf_add (Some h) x) as [[h2 b2]|] eqn:Ha2; [|done]. cbn in Hx. injection Hx as ->.
  assert (as_string (delete (k +:+ ":probe") (keys r)) k = Some o) as Hdel.
  { unfold as_string. rewrite lookup_delete_ne by apply probe_key_ne. exact Hs. }
  assert (exists ks' o' a c, fanout_script pf_merge pf_add pf_count k (k +:+ ":probe") x limit (keys r) = Some (ks', two a c) /\
    day_state ks' user now o' /\ (forall y, known o y -> known o' y) /\
    (a = 1 /\ known o' x \/ a = 0 /\ o' = o /\ ~ known o x /\ limit <= n)) as (ks' & o' & a & c & Hscr & Hd & Hmono & Hres).
  { unfold fanout_script. unfold as_string at 1. rewrite Hp. cbn [mbind option_bind]. rewrite Hs. cbn [mbind option_bind]. rewrite Hm. cbn [mbind option_bind].
    rewrite Ha2. cbn [mbind option_bind snd]. rewrite Hn. cbn [mbind option_bind]. destruct b.
    - destruct (Z.leb_spec limit n).
      + do 4 eexists. split; [reflexivity|]. split; [split_and!; [exact Hdel|apply lookup_delete_eq|done]|]. split; [done|]. right.
        split_and!; try done. intros [h' Hh']. congruence.
      + rewrite Ha. cbn [mbind option_bind fst]. rewrite Hn1. cbn [mbind option_bind]. eexists. exists (Some h1), 1, n1. split; [reflexivity|].
        unfold doc_expire, set_val. rewrite lookup_insert_eq. cbn [Z.leb Z.compare fst e_val]. split_and!.
        * unfold day_state, as_string. fold k. rewrite lookup_insert_eq. split_and!; try done.
          rewrite !lookup_insert_ne by (intros E; by apply (probe_key_ne user now)). apply lookup_delete_eq.
        * intros y Hy. exact (hll_mono _ Hll o y x h1 true Hv Hy Ha).
        * by left.
    - do 4 eexists. split; [reflexivity|]. split; [split_and!; [exact Hdel|apply lookup_delete_eq|done]|]. split; [done|]. left.
      split; [done|]. by exists h1. }
  destruct (available_two r _ _ _ _ Hr Hscr) as (r' & E & <- & Hr').
  exists r', o', (if a =? 1 then Ok c else Err (RetryAfterSecs (secs_until_next_utc_day now))).
  unfold check_fanout_rate. fold k. rewrite E. split_and!; try done.
  destruct Hres as [[-> Hk]|(-> & -> & Hnk & Hle)]; [done|]. cbn. split_and!; eauto.
  all: unfold secs_until_next_utc_day; pose proof (Z.mod_pos_bound now 86400 ltac:(lia)); lia.
Qed.

Fixpoint fanout_run (r : R) (user : string) (limit now : Z) (xs : list string) : R * list (result Z RetryAfter) :=
  match xs with
  | [] => (r, [])
  | x :: xs =>
      let '(r1, o) := fanout r user x limit now in
      let '(r2, os) := fanout_run r1 user limit now xs in
      (r2, o :: os)
  end.

Lemma fanout_run_known xs r user limit now o :
  Up r -> day_state (keys r) user now o ->
  forall j x res, known o x -> xs !! j = Some x -> (fanout_run r user limit now xs).2 !! j = Some res -> exists n, res = Ok n.
Proof using Hup Hll.
  revert r o. induction xs as [|y xs IH]; intros r o Hr Hd j x res Hk Hx Hres; [done|]. cbn in Hres.
  destruct (fanout_step r user y limit now o Hr Hd) as (r1 & o1 & res1 & E & Hr1 & Hd1 & Hmono & Hout). rewrite E in Hres.
  destruct (fanout_run r1 user limit now xs) as [r2 os] eqn:Er. cbn in Hres. destruct j as [|j]; cbn in Hx, Hres.
  - simplify_eq. destruct res as [n|[secs]]; [by exists n|]. by destruct Hout as (_ & Hnk & _).
  - eapply (IH r1 o1); [done|done|by apply Hmono|exact Hx|]. by rewrite Er.
Qed.

(** C33: The daily limit of recipients never cuts a sender off from someone it already wrote
    to that day: with Redis answering, in any sequence of sends of one day a recipient
    that was let through once is let through every time after, however many new ones
    were counted or refused in between. *)
Theorem fanout_keeps_known r user limit now o xs i j x a res :
  Up r -> day_state (keys r) user now o -> (i < j)%nat -> xs !! i = Some x -> xs !! j = Some x ->
  let outs := (fanout_run r user limit now xs).2 in
  outs !! i = Some (Ok a) -> outs !! j = Some res -> exists n, res = Ok n.
Proof using Hup Hll.
  revert r o i j. induction xs as [|y xs IH]; intros r o i j Hr Hd Hij Hxi Hxj outs Hi Hj; [done|]. subst outs. cbn in Hi, Hj.
  destruct (fanout_step r user y limit now o Hr Hd) as (r1 & o1 & res1 & E & Hr1 & Hd1 & Hmono & Hout). rewrite E in Hi, Hj.
  destruct (fanout_run r1 user limit now xs) as [r2 os] eqn:Er. cbn in Hi, Hj.
  destruct j as [|j]; [lia|]. destruct i as [|i]; cbn in Hxi, Hxj, Hi, Hj.
  - simplify_eq. eapply (fanout_run_known xs r1 user limit now o1 Hr1 Hd1 j x); [done|done|]. by rewrite Er.
  - eapply (IH r1 o1 i j); [done|done|lia|done|done| |]; by rewrite Er.
Qed.

End Limits.
(** ** The theorems at work *)


Definition sample_clocks : Clocks := {| ck_now_ms := 7200000; ck_window_ms := 7200000; ck_nanos := None; ck_now_secs := 7200 |}.
Definition sample_checks : list (string * Clocks) :=
  [("203.0.113.9", sample_clocks); ("203.0.113.9:443", sample_clocks); ("::ffff:203.0.113.9", sample_clocks)].

Lemma sealed_ip_outage_witness :
  tally (bucket_hash "203.0.113.9") sample_checks (sealed_run 2 (Mem ∅ false) DegradedLimiter.new sample_checks).2
    (fun d => bool_decide (d = Allow)) = 2.
Proof.
  destruct (sealed_ip_outage (fun r : mem => mem_up r = false) mem_outage 2 (Mem ∅ false) DegradedLimiter.new sample_checks
    (bucket_hash "203.0.113.9") 7200) as [_ Ht].
  - reflexivity.
  - apply DegradedLimiter.wf_new.
  - vm_compute. split; discriminate.
  - repeat (constructor; [vm_compute; reflexivity|]). constructor.
  - vm_compute. discriminate.
  - vm_compute. reflexivity.
  - rewrite Ht. vm_compute. reflexivity.
Defined.

Lemma hourly_rate_exact_witness :
  counter (keys (hourly_run (Mem ∅ true) "alice" 2 5).1) (hourly_key "alice") = Some 2.
Proof.
  pose proof (hourly_rate_exact (fun r : mem => mem_up r = true) mem_available (Mem ∅ true) "alice" 2 5 0
    eq_refl eq_refl ltac:(lia) ltac:(unfold u32_max; lia)) as Hh.
  destruct (hourly_run (Mem ∅ true) "alice" 2 5) as [r' os]. apply Hh.
Defined.

(** A HyperLogLog with a single register. *)
Definition one_merge (p h : option string) : option string :=
  Some (if bool_decide (p = Some "1" \/ h = Some "1") then "1" else "0").
Definition one_add (o : option string) (x : string) : option (string * bool) :=
  Some ("1", negb (bool_decide (o = Some "1"))).
Definition one_count (o : option string) : option Z := Some (if bool_decide (o = Some "1") then 1 else 0).

Lemma one_laws : HllLaws one_merge one_add one_count (fun _ => True).
Proof.
  split.
  - done.
  - intros o _. by eexists.
  - intros o _. eexists. split; [reflexivity|]. intros x. cbn. do 2 f_equal.
    destruct (decide (o = Some "1")) as [->|Hne]; [done|]. rewrite (bool_decide_false (_ \/ _)) by (by intros [|]).
    by rewrite !bool_decide_false.
  - intros o x _. do 2 eexists. split; [reflexivity|]. split; [done|]. by eexists.
  - intros o x y h b _ _ [= <- _]. by eexists.
Qed.

Lemma fanout_keeps_known_witness :
  exists n, (fanout_run one_merge one_add one_count (Mem ∅ true) "alice" 1 5 ["bob"; "carol"; "bob"]).2 !! 2%nat = Some (Ok n).
Proof.
  destruct (fanout_keeps_known (fun r : mem => mem_up r = true) mem_available one_merge one_add one_count (fun _ => True) one_laws
    (Mem ∅ true) "alice" 1 5 None ["bob"; "carol"; "bob"] 0 2 "bob" 1 (Ok 1)) as [n Hn].
  - reflexivity.
  - repeat split.
  - lia.
  - reflexivity.
  - reflexivity.
  - vm_compute. reflexivity.
  - vm_compute. reflexivity.
  - exists n. rewrite <- Hn. vm_compute. reflexivity.
Defined.

End SendLimits.
