(* ===== verification/Issuance.v ===== *)
(** * Counters of the queue and the issuing of tokens

    Models construct-queue/src/rate_limiting.rs (generic counters, failed logins,
    temporary blocks, the hourly reservation of Privacy Pass tokens) and, of
    identity-service/src/main.rs, [effective_issuance_cap], [issuance_grant] and
    [issue_tokens]. The verdict of the access token and the answer of the age lookup are
    arguments, as are the clocks. *)

From S2P Require Import Prelude Text RedisStore PrivacyPass.

Module Issuance.
Import Redis PrivacyPass.

Section Counters.
Context {R : Type} `{Redis R}.

Definition SECONDS_PER_HOUR : Z := 3600.
Definition FAILED_LOGIN_WINDOW_SECS : Z := 900.

Definition increment_rate_limit (r : R) (key : string) (ttl_seconds : Z) : R * result Z unit :=
  match exec_int r (EVAL (incr_expire ("rate:" +:+ key) ttl_seconds)) with
  | (r1, Some count) => (r1, Ok count)
  | (r1, None) => (r1, Err tt)
  end.

Definition login_key (username : string) : string := "rate:login:" +:+ username.

Definition increment_failed_login_count (r : R) (username : string) : R * result Z unit :=
  match exec_int r (INCR (login_key username)) with
  | (r1, None) => (r1, Err tt)
  | (r1, Some n) =>
      let count := wrap_u32 n in
      if count =? 1 then
        match exec_bool r1 (EXPIRE (login_key username) FAILED_LOGIN_WINDOW_SECS) with
        | (r2, Some _) => (r2, Ok count)
        | (r2, None) => (r2, Err tt)
        end
      else (r1, Ok count)
  end.

Definition reset_failed_login_count (r : R) (username : string) : R * result unit unit :=
  match exec_int r (DEL (login_key username)) with
  | (r1, Some _) => (r1, Ok tt)
  | (r1, None) => (r1, Err tt)
  end.

Definition block_user_temporarily (r : R) (user_id : string) (duration_seconds : Z) (reason : string)
    : R * result unit unit :=
  match exec_unit r (SETEX ("blocked:" +:+ user_id) reason (wrap_u64 duration_seconds)) with
  | (r1, Some _) => (r1, Ok tt)
  | (r1, None) => (r1, Err tt)
  end.

Definition is_user_blocked (r : R) (user_id : string) : R * result (option string) unit :=
  match exec_opt_string r (GET ("blocked:" +:+ user_id)) with
  | (r1, Some reason) => (r1, Ok reason)
  | (r1, None) => (r1, Err tt)
  end.

Definition privacy_pass_hour_key (user_id : string) (now : Z) : string :=
  "rate:pp_tokens:" +:+ user_id +:+ ":" +:+ to_string (now / 3600).

Definition parse_u32 (s : string) : option Z :=
  let* v := parse_u64 s in if v <=? u32_max then Some v else None.

Definition token_issuance_count (r : R) (user_id : string) (now : Z) : R * result Z unit :=
  match exec_opt_string r (GET (privacy_pass_hour_key user_id now)) with
  | (r1, Some None) => (r1, Ok 0)
  | (r1, Some (Some s)) => (r1, ok_or (parse_u32 s) tt)
  | (r1, None) => (r1, Err tt)
  end.

(** The compare-and-swap of a reservation. *)
Definition reserve_script (k : string) (grant cap : Z) (ks : keyspace) : option (keyspace * reply) :=
  let* count := counter ks k in
  if (grant <=? 0) || (cap <? count + grant) then Some (ks, RInt 0)
  else if i64_max <? count + grant then None
  else
    let newcount := count + grant in
    let ks1 := set_val ks k (VStr (to_string newcount)) in
    Some (if newcount =? grant then (doc_expire ks1 k SECONDS_PER_HOUR).1 else ks1, RInt grant).

Definition try_reserve_token_issuance (r : R) (user_id : string) (grant cap now : Z) : R * result Z unit :=
  match exec_int r (EVAL (reserve_script (privacy_pass_hour_key user_id now) grant cap)) with
  | (r1, Some reserved) => (r1, Ok (wrap_u32 reserved))
  | (r1, None) => (r1, Err tt)
  end.

(** ** Issuing *)

(** Times in nanoseconds. *)
Definition effective_issuance_cap (registered_at : option Z) (now maturity_hours young_cap full_cap : Z) : Z * bool :=
  let mature := match registered_at with
                | Some t => maturity_hours * 3600000000000 <=? now - t
                | None => false
                end in
  if mature then (full_cap, true) else (Z.min young_cap full_cap, false).

Definition issuance_grant (already want cap : Z) : Z := Z.min (Z.max 0 (cap - already)) want.

(** One attempt reads the clock twice: for the count and for the reservation. *)
Fixpoint reserve_loop (r : R) (user_id : string) (wanted cap : Z) (attempts : list (Z * Z)) : R * result Z unit :=
  match attempts with
  | [] => (r, Ok 0)
  | (now, now') :: rest =>
      match token_issuance_count r user_id now with
      | (r1, Err e) => (r1, Err e)
      | (r1, Ok already) =>
          let want := issuance_grant already wanted cap in
          if want =? 0 then (r1, Ok 0)
          else match try_reserve_token_issuance r1 user_id want cap now' with
               | (r2, Err e) => (r2, Err e)
               | (r2, Ok got) => if 0 <? got then (r2, Ok got) else reserve_loop r2 user_id wanted cap rest
               end
      end
  end.

Inductive PointError := WrongSize | WrongLength | NotOnCurve | IdentityPoint.
Inductive IssueError :=
| NotConfigured | Unauthenticated | PointCount | BadPoint (why : PointError) | LimitError | Exhausted (cap : Z).

Context {Scalar Point : Type} `{Ristretto Scalar Point} `{Primitives}.

(** One turn of the decoding loop. *)
Definition decode_point (raw : bytes) : result Point PointError :=
  if negb (length raw =? 32)%nat then Err WrongSize
  else
    let? compressed := ok_or (from_slice raw) WrongLength in
    let? point := ok_or (decompress compressed) NotOnCurve in
    if bool_decide (point = identity) then Err IdentityPoint else Ok point.

Fixpoint decode_points (l : list bytes) : result (list (Point * bytes)) IssueError :=
  match l with
  | [] => Ok []
  | raw :: rest =>
      match decode_point raw with
      | Err why => Err (BadPoint why)
      | Ok p => let? more := decode_points rest in Ok ((p, raw) :: more)
      end
  end.

Record IssueTokensResponse := {
  evaluated_points : list bytes;
  server_pubkey : bytes;
  dleq_proof : bytes;
  issuer_key_version : Z;
}.

Record Issuer := {
  token_issuer_key : option bytes;
  token_issuance_max_per_hour : Z;
  token_issuance_young_max_per_hour : Z;
  token_issuance_maturity_hours : Z;
  token_issuer_key_version : Z;
}.

Definition issue_tokens (cfg : Issuer) (user : option string) (registered_at : option Z) (now : Z)
    (clock : nat -> Z * Z) (r : R) (blinded_points : list bytes) : R * result IssueTokensResponse IssueError :=
  match token_issuer_key cfg, user with
  | None, _ => (r, Err NotConfigured)
  | Some _, None => (r, Err Unauthenticated)
  | Some k, Some user_id =>
      if (length blinded_points =? 0)%nat || (20 <? length blinded_points)%nat then (r, Err PointCount)
      else
        let '(effective_cap, _) := effective_issuance_cap registered_at now (token_issuance_maturity_hours cfg)
          (token_issuance_young_max_per_hour cfg) (token_issuance_max_per_hour cfg) in
        match decode_points blinded_points with
        | Err e => (r, Err e)
        | Ok decoded =>
            match reserve_loop r user_id (Z.of_nat (length decoded)) effective_cap (map clock (seq 0 3)) with
            | (r1, Err _) => (r1, Err LimitError)
            | (r1, Ok grant) =>
                if grant =? 0 then (r1, Err (Exhausted effective_cap))
                else
                  let decoded := take (Z.to_nat grant) decoded in
                  let evaluated := map (fun d => evaluate_point k d.1) decoded in
                  (r1, Ok {| evaluated_points := evaluated; server_pubkey := issuer_public_key k;
                             dleq_proof := default [] (generate_dleq_proof k (map snd decoded) evaluated);
                             issuer_key_version := token_issuer_key_version cfg |})
            end
        end
  end.

End Counters.
(** ** How many tokens an hour gives *)

Section Bounds.
Context {R : Type} `{RedisLaws R}.
Context {Scalar Point : Type} `{Ristretto Scalar Point} `{Primitives}.
Context (cfg : Issuer) (user : string) (hour : Z).
Context (Hcfg : 0 <= token_issuance_max_per_hour cfg <= u32_max).

#[local] Abbreviation hour_key := (privacy_pass_hour_key user (hour * 3600)).
#[local] Abbreviation issue := (issue_tokens cfg).

Lemma hour_key_eq now : now / 3600 = hour -> privacy_pass_hour_key user now = hour_key.
Proof using Type. intros <-. unfold privacy_pass_hour_key. by rewrite Z.div_mul by lia. Qed.

Lemma counter_set_val ks k z : in_i64 z -> counter (set_val ks k (VStr (to_string z))) k = Some z.
Proof using Type. intros Hz. unfold counter, set_val. rewrite lookup_insert_eq. by apply parse_i64_to_string. Qed.

Lemma counter_expire ks k ttl : 0 < ttl -> counter (doc_expire ks k ttl).1 k = counter ks k.
Proof using Type.
  intros Ht. unfold counter, doc_expire. destruct (ks !! k) as [e|] eqn:E; cbn; [|by rewrite E].
  destruct (Z.leb_spec ttl 0); [lia|]. rewrite lookup_insert_eq. by destruct e.
Qed.

(** The script: what it answers and what the counter is after it. *)
Lemma reserve_script_effect k grant cap ks c :
  counter ks k = Some c -> 0 <= c -> cap <= u32_max ->
  exists ks' c', counter ks' k = Some c' /\
    if (grant <=? 0) || (cap <? c + grant) then reserve_script k grant cap ks = Some (ks, RInt 0) /\ c' = c /\ ks' = ks
    else reserve_script k grant cap ks = Some (ks', RInt grant) /\ c' = c + grant.
Proof using Type.
  intros Hc Hc0 Hcap. unfold reserve_script. rewrite Hc. cbn [mbind option_bind].
  destruct ((grant <=? 0) || (cap <? c + grant)) eqn:Hb; [by exists ks, c|].
  destruct (Z.ltb_spec i64_max (c + grant)); [unfold i64_max, u32_max in *; lia|].
  eexists _, (c + grant). split; [|split; reflexivity].
  assert (counter (set_val ks k (VStr (to_string (c + grant)))) k = Some (c + grant)) as Hs
    by (apply counter_set_val; unfold in_i64, i64_min, i64_max, u32_max in *; lia).
  destruct (c + grant =? grant); [|exact Hs]. rewrite counter_expire by (unfold SECONDS_PER_HOUR; lia). exact Hs.
Qed.

Lemma try_reserve_effect r grant cap now r' res c :
  try_reserve_token_issuance r user grant cap now = (r', res) -> now / 3600 = hour ->
  counter (keys r) hour_key = Some c -> 0 <= c -> cap <= u32_max ->
  exists c', counter (keys r') hour_key = Some c' /\ c <= c' <= Z.max c cap /\
    (forall got, res = Ok got -> 0 < got -> got = grant /\ c' = c + got).
Proof using Type.
  unfold try_reserve_token_issuance, exec_int. intros E Hh Hc Hc0 Hcap. rewrite (hour_key_eq now Hh) in E.
  destruct (reserve_script_effect hour_key grant cap (keys r) c Hc Hc0 Hcap) as (ks' & c' & Hc' & Hs).
  destruct (exec r (EVAL (reserve_script hour_key grant cap))) as [r1 o] eqn:Ex.
  assert (forall rep, reserve_script hour_key grant cap (keys r) = Some (keys r1, rep) ->
    exists c', counter (keys r1) hour_key = Some c' /\ c <= c' <= Z.max c cap /\
      exists got, rep = RInt got /\ (0 < got -> got = grant /\ c' = c + got) /\ wrap_u32 got = got) as Hrep.
  { intros rep Hd. destruct ((grant <=? 0) || (cap <? c + grant)) eqn:Hb.
    - destruct Hs as (Hs & -> & ->). rewrite Hs in Hd. injection Hd as <- <-. exists c. split_and!; [done|lia|lia|].
      exists 0. split_and!; [done|lia|done].
    - destruct Hs as (Hs & ->). rewrite Hs in Hd. injection Hd as <- <-. exists (c + grant).
      apply orb_false_iff in Hb as [Hb1 Hb2]. split_and!; [done|lia|lia|]. exists grant.
      split_and!; [done|done|]. apply wrap_u32_id. unfold in_u32. lia. }
  destruct o as [rep|].
  - destruct (Hrep rep (exec_exact _ _ _ _ Ex eq_refl)) as (c1 & Hc1 & Hr & got & -> & Hgot & Hw). injection E as <- <-.
    rewrite Hw. exists c1. split_and!; [done|lia|lia|]. intros ? [= <-]. done.
  - injection E as <- <-. destruct (exec_err _ _ _ Ex) as [Hk|[rep Hd]].
    + exists c. rewrite Hk. split_and!; [done|lia|lia|done].
    + destruct (Hrep rep Hd) as (c1 & Hc1 & Hr & _). exists c1. split_and!; [done|lia|lia|done].
Qed.

Lemma issuance_count_keys r now r' res : token_issuance_count r user now = (r', res) -> keys r' = keys r.
Proof using Type.
  unfold token_issuance_count, exec_opt_string. intros E. destruct (exec r _) as [r1 o] eqn:Ex.
  assert (keys r1 = keys r) as Hk.
  { eapply exec_read_keys; [exact Ex|]. cbn. intros ks ks' rep Hd. destruct (ks !! _) as [[[] ?]|]; by simplify_eq. }
  by destruct o as [[]|]; injection E as <- _.
Qed.

Lemma reserve_loop_effect attempts r wanted cap r' res c :
  reserve_loop r user wanted cap attempts = (r', res) -> Forall (fun t => t.1 / 3600 = hour /\ t.2 / 3600 = hour) attempts ->
  counter (keys r) hour_key = Some c -> 0 <= c -> 0 <= cap <= u32_max -> 0 <= wanted ->
  exists c', counter (keys r') hour_key = Some c' /\ c <= c' <= Z.max c cap /\
    (forall got, res = Ok got -> 0 <= got <= wanted /\ c + got <= c').
Proof using Type.
  revert r c. induction attempts as [|[t t'] attempts IH]; intros r c E Hh Hc Hc0 Hcap Hw.
  { injection E as <- <-. exists c. split_and!; [done|lia|lia|]. intros ? [= <-]. lia. }
  apply list.Forall_cons in Hh as [[_ Ht'] Hh]. cbn in Ht', E. destruct (token_issuance_count r user t) as [r1 cnt] eqn:Et.
  apply issuance_count_keys in Et. destruct cnt as [already|]; [|injection E as <- <-; exists c; rewrite Et; split_and!; [done|lia|lia|done]].
  set (want := issuance_grant already wanted cap) in E. assert (0 <= want <= wanted) as Hwant by (unfold want, issuance_grant; lia).
  destruct (Z.eqb_spec want 0); [injection E as <- <-; exists c; rewrite Et; split_and!; [done|lia|lia|]; intros ? [= <-]; lia|].
  destruct (try_reserve_token_issuance r1 user want cap t') as [r2 res2] eqn:Er.
  destruct (try_reserve_effect _ _ _ _ _ _ c Er Ht') as (c2 & Hc2 & Hle & Hgot); [by rewrite Et|done|lia|].
  destruct res2 as [got|]; [|injection E as <- <-; exists c2; split_and!; [done|lia|lia|done]].
  destruct (Z.ltb_spec 0 got).
  - injection E as <- <-. destruct (Hgot got eq_refl) as [-> ->]; [done|]. exists (c + want). split_and!; [done|lia|lia|].
    intros ? [= <-]. lia.
  - destruct (IH r2 c2 E Hh Hc2) as (c' & Hc' & Hle' & Hres); [lia|done|done|]. exists c'. split_and!; [done|lia|lia|].
    intros g Hg. destruct (Hres g Hg). lia.
Qed.

Definition issued (res : result IssueTokensResponse IssueError) : Z :=
  match res with Ok resp => Z.of_nat (length (evaluated_points resp)) | Err _ => 0 end.

(** A request of this user in this hour. *)
Record request := { rq_registered : option Z; rq_now : Z; rq_clock : nat -> Z * Z; rq_points : list bytes }.
Definition in_hour (q : request) : Prop := forall i, (rq_clock q i).1 / 3600 = hour /\ (rq_clock q i).2 / 3600 = hour.

Lemma issue_effect r q r' res c :
  issue (Some user) (rq_registered q) (rq_now q) (rq_clock q) r (rq_points q) = (r', res) -> in_hour q ->
  0 <= token_issuance_young_max_per_hour cfg ->
  counter (keys r) hour_key = Some c -> 0 <= c ->
  exists c', counter (keys r') hour_key = Some c' /\ c + issued res <= c' <= Z.max c (token_issuance_max_per_hour cfg).
Proof using Hcfg.
  intros E Hq Hy Hc Hc0. unfold issue_tokens in E.
  assert (forall e, (r', res) = (r, Err e) -> exists c', counter (keys r') hour_key = Some c' /\
    c + issued res <= c' <= Z.max c (token_issuance_max_per_hour cfg)) as Herr.
  { intros e [= -> ->]. exists c. cbn. split_and!; [done|lia|lia]. }
  destruct (token_issuer_key cfg) as [key|]; [|by eapply Herr]. destruct (_ || _); [by eapply Herr|].
  destruct (effective_issuance_cap _ _ _ _ _) as [cap m] eqn:Ecap.
  assert (0 <= cap <= token_issuance_max_per_hour cfg) as Hcap.
  { unfold effective_issuance_cap in Ecap. destruct (rq_registered q) as [t|]; [destruct (_ <=? _)|]; injection Ecap as <- _; lia. }
  destruct (decode_points (rq_points q)) as [decoded|]; [|by eapply Herr].
  destruct (reserve_loop r user _ cap _) as [r1 g] eqn:El.
  destruct (reserve_loop_effect _ _ _ _ _ _ c El) as (c' & Hc' & Hle & Hg); try done; try lia.
  { apply list.Forall_forall. intros x (i & -> & _)%list_elem_of_fmap. apply Hq. }
  destruct g as [grant|]; [|injection E as <- <-; exists c'; cbn; split_and!; [done|lia|lia]].
  destruct (Hg grant eq_refl) as [Hgr Hsum].
  destruct (Z.eqb_spec grant 0); injection E as <- <-; exists c'; cbn.
  - split_and!; [done|lia|lia].
  - rewrite length_map, length_take. split_and!; [done|lia|lia].
Qed.

(** Requests of one user, in any order, from any instance. *)
Fixpoint issue_run (r : R) (qs : list request) : R * Z :=
  match qs with
  | [] => (r, 0)
  | q :: rest =>
      let '(r1, res) := issue (Some user) (rq_registered q) (rq_now q) (rq_clock q) r (rq_points q) in
      let '(r2, n) := issue_run r1 rest in
      (r2, issued res + n)
  end.

(** C22: An hour gives a user no more tokens than its cap. In any sequence of requests of
    one user within one hour, whatever Redis loses, the tokens issued together with what
    the hour had already given stay within the full cap, or, if that was passed before,
    none are issued. *)
Theorem issuance_capped r qs c :
  0 <= token_issuance_young_max_per_hour cfg -> Forall in_hour qs ->
  counter (keys r) hour_key = Some c -> 0 <= c ->
  (issue_run r qs).2 <= Z.max 0 (token_issuance_max_per_hour cfg - c).
Proof using Hcfg.
  intros Hy. revert r c. induction qs as [|q qs IH]; intros r c Hq Hc Hc0; [cbn; lia|].
  apply list.Forall_cons in Hq as [Hq Hqs]. cbn. destruct (issue _ _ _ _ r _) as [r1 res] eqn:E.
  destruct (issue_effect _ _ _ _ c E Hq Hy Hc Hc0) as (c1 & Hc1 & Hle).
  assert (0 <= issued res) by (destruct res; cbn; lia).
  specialize (IH r1 c1 Hqs Hc1 ltac:(lia)). destruct (issue_run r1 qs) as [r2 n]. cbn in *. lia.
Qed.

(** The hour's key is absent or holds the number as it was written. *)
Definition holds_count (ks : keyspace) (c : Z) : Prop :=
  ks !! hour_key = None /\ c = 0 \/ exists ttl, ks !! hour_key = Some (Entry (VStr (to_string c)) ttl).

Lemma holds_counter ks c : holds_count ks c -> 0 <= c <= u32_max -> counter ks hour_key = Some c.
Proof using Type.
  intros [[Hk ->]|[ttl Hk]] Hc; unfold counter; rewrite Hk; [done|].
  apply parse_i64_to_string. unfold in_i64, i64_min, i64_max, u32_max in *. lia.
Qed.

Lemma issuance_count_up (Up : R -> Prop) r now c :
  available Up -> Up r -> now / 3600 = hour -> holds_count (keys r) c -> 0 <= c <= u32_max ->
  exists r', token_issuance_count r user now = (r', Ok c) /\ keys r' = keys r /\ Up r'.
Proof using Type.
  intros Hup Hr Hh Hc Hc0. unfold token_issuance_count, exec_opt_string. rewrite (hour_key_eq now Hh).
  destruct Hc as [[Hk ->]|[ttl Hk]].
  - destruct (available_exact Up Hup r (GET hour_key) (keys r) RNil Hr eq_refl) as (r' & E & Hkr & Hr'); [cbn; by rewrite Hk|].
    exists r'. by rewrite E.
  - destruct (available_exact Up Hup r (GET hour_key) (keys r) (RBulk (to_string c)) Hr eq_refl) as (r' & E & Hkr & Hr'); [cbn; by rewrite Hk|].
    exists r'. rewrite E. unfold parse_u32. rewrite parse_u64_to_string by (unfold in_u64, u64_max, u32_max in *; lia). cbn.
    destruct (Z.leb_spec c u32_max); [done|lia].
Qed.

Lemma reserve_loop_up (Up : R -> Prop) r wanted cap t t' rest c :
  available Up -> Up r -> t / 3600 = hour -> t' / 3600 = hour -> holds_count (keys r) c ->
  0 <= c <= u32_max -> 0 <= cap <= u32_max -> 0 <= wanted ->
  let grant := issuance_grant c wanted cap in
  exists r', reserve_loop r user wanted cap ((t, t') :: rest) = (r', Ok grant) /\
    if grant =? 0 then keys r' = keys r else counter (keys r') hour_key = Some (c + grant).
Proof using Type.
  intros Hup Hr Ht Ht' Hh Hc Hcap Hw grant. cbn [reserve_loop].
  destruct (issuance_count_up Up r t c Hup Hr Ht Hh Hc) as (r1 & -> & Hk1 & Hr1). fold grant.
  destruct (Z.eqb_spec grant 0) as [->|Hg]; [by exists r1|].
  unfold try_reserve_token_issuance, exec_int. rewrite (hour_key_eq t' Ht').
  destruct (reserve_script_effect hour_key grant cap (keys r1) c) as (ks' & c' & Hc' & Hs);
    [rewrite Hk1; by apply holds_counter|lia|lia|].
  assert ((grant <=? 0) || (cap <? c + grant) = false) as Hb.
  { unfold grant, issuance_grant in *. destruct (Z.leb_spec (Z.min (Z.max 0 (cap - c)) wanted) 0); [lia|]. cbn. lia. }
  rewrite Hb in Hs. destruct Hs as [Hs ->].
  destruct (available_exact Up Hup r1 (EVAL (reserve_script hour_key grant cap)) ks' (RInt grant) Hr1 eq_refl Hs) as (r2 & E & Hk2 & _).
  exists r2. rewrite E. rewrite wrap_u32_id by (unfold in_u32, grant, issuance_grant in *; lia).
  destruct (Z.ltb_spec 0 grant); [|unfold grant, issuance_grant in *; lia]. split; [done|]. by rewrite Hk2.
Qed.

Lemma decode_points_length l decoded : decode_points l = Ok decoded -> length decoded = length l.
Proof using Type.
  revert decoded. induction l as [|x l IH]; intros d E; cbn in E; [by injection E as <-|].
  destruct (decode_point x); [|done]. destruct (decode_points l) as [d'|]; [|done]. injection E as <-.
  cbn. by rewrite (IH d' eq_refl).
Qed.

(** What a configured issuer answers while Redis does. *)
Lemma issue_answer (Up : R -> Prop) r q c key :
  available Up -> Up r -> in_hour q -> token_issuer_key cfg = Some key ->
  holds_count (keys r) c -> 0 <= c <= u32_max -> 0 <= token_issuance_young_max_per_hour cfg ->
  (1 <= length (rq_points q) <= 20)%nat ->
  let cap := (effective_issuance_cap (rq_registered q) (rq_now q) (token_issuance_maturity_hours cfg)
               (token_issuance_young_max_per_hour cfg) (token_issuance_max_per_hour cfg)).1 in
  let grant := issuance_grant c (Z.of_nat (length (rq_points q))) cap in
  let '(r', res) := issue (Some user) (rq_registered q) (rq_now q) (rq_clock q) r (rq_points q) in
  match decode_points (rq_points q) with
  | Err e => res = Err e /\ keys r' = keys r
  | Ok decoded =>
      if grant =? 0 then res = Err (Exhausted cap) /\ keys r' = keys r
      else
        let granted := take (Z.to_nat grant) decoded in
        let evaluated := map (fun d => evaluate_point key d.1) granted in
        res = Ok {| evaluated_points := evaluated; server_pubkey := issuer_public_key key;
                    dleq_proof := default [] (generate_dleq_proof key (map snd granted) evaluated);
                    issuer_key_version := token_issuer_key_version cfg |} /\
        counter (keys r') hour_key = Some (c + grant)
  end.
Proof using Hcfg.
  intros Hup Hr Hq Hkey Hc Hc0 Hy Hlen cap grant. unfold issue_tokens. rewrite Hkey.
  destruct (Nat.eqb_spec (length (rq_points q)) 0); [lia|]. destruct (Nat.ltb_spec 20 (length (rq_points q))); [lia|]. cbn [orb].
  destruct (effective_issuance_cap _ _ _ _ _) as [cap' m] eqn:Ecap. cbn [fst] in cap. subst cap.
  assert (0 <= cap' <= token_issuance_max_per_hour cfg) as Hcap.
  { unfold effective_issuance_cap in Ecap. destruct (rq_registered q) as [t|]; [destruct (_ <=? _)|]; injection Ecap as <- _; lia. }
  destruct (decode_points (rq_points q)) as [decoded|e] eqn:Ed; [|done].
  rewrite (decode_points_length _ _ Ed). cbn [seq map]. destruct (rq_clock q 0) as [t t'] eqn:Et.
  destruct (Hq 0%nat) as [Ht Ht']. rewrite Et in Ht, Ht'.
  destruct (reserve_loop_up Up r (Z.of_nat (length (rq_points q))) cap' t t' [rq_clock q 1; rq_clock q 2] c)
    as (r' & -> & Hk); try done; try lia. fold grant in Hk |- *.
  by destruct (Z.eqb_spec grant 0).
Qed.

(** C28: A request gets what is left. With Redis answering and no other request of the user
    in between, a request of valid points gets exactly as many evaluations as the cap
    leaves room for, of its first points in order, and the counter moves by that number;
    when nothing is left, or a point is malformed, it is refused and the store does not
    change. *)
Theorem issuance_exact (Up : R -> Prop) r q c key :
  available Up -> Up r -> in_hour q -> token_issuer_key cfg = Some key ->
  holds_count (keys r) c -> 0 <= c <= u32_max -> 0 <= token_issuance_young_max_per_hour cfg ->
  (1 <= length (rq_points q) <= 20)%nat ->
  let cap := (effective_issuance_cap (rq_registered q) (rq_now q) (token_issuance_maturity_hours cfg)
               (token_issuance_young_max_per_hour cfg) (token_issuance_max_per_hour cfg)).1 in
  let grant := issuance_grant c (Z.of_nat (length (rq_points q))) cap in
  let '(r', res) := issue (Some user) (rq_registered q) (rq_now q) (rq_clock q) r (rq_points q) in
  match decode_points (rq_points q) with
  | Err e => res = Err e /\ keys r' = keys r
  | Ok decoded =>
      if grant =? 0 then res = Err (Exhausted cap) /\ keys r' = keys r
      else exists resp, res = Ok resp /\
        evaluated_points resp = map (fun d => evaluate_point key d.1) (take (Z.to_nat grant) decoded) /\
        counter (keys r') hour_key = Some (c + grant)
  end.
Proof using Hcfg.
  intros Hup Hr Hq Hkey Hc Hc0 Hy Hlen cap grant.
  pose proof (issue_answer Up r q c key Hup Hr Hq Hkey Hc Hc0 Hy Hlen) as Ha. cbn zeta in Ha.
  destruct (issue _ _ _ _ _ _) as [r' res]. destruct (decode_points _) as [decoded|e]; [|done].
  fold cap in Ha. fold grant in Ha. destruct (grant =? 0); [done|]. destruct Ha as [-> Hk]. by eexists.
Qed.

End Bounds.
(** ** The theorems at work *)

Definition sample_issuer : Issuer := {|
  token_issuer_key := Some sample_key; token_issuance_max_per_hour := 3;
  token_issuance_young_max_per_hour := 3; token_issuance_maturity_hours := 24; token_issuer_key_version := 1 |}.

Definition sample_point : bytes := compress (Scalar := F5) N2.
Definition sample_request (n : nat) : request := {|
  rq_registered := None; rq_now := 0; rq_clock := fun _ => (0, 0); rq_points := repeat sample_point n |}.

#[local] Abbreviation sample_run := (issue_run (Scalar := F5) sample_issuer "alice").

Lemma issuance_capped_witness :
  (sample_run (Mem ∅ true) [sample_request 2; sample_request 2; sample_request 2]).2 <= 3.
Proof.
  apply (issuance_capped (Scalar := F5) sample_issuer "alice" 0
    ltac:(cbn; unfold u32_max; lia) (Mem ∅ true) [sample_request 2; sample_request 2; sample_request 2] 0).
  - cbn. lia.
  - repeat constructor.
  - reflexivity.
  - lia.
Defined.

Example second_request_gets_the_rest :
  (sample_run (Mem ∅ true) [sample_request 2; sample_request 2; sample_request 2]).2 = 3.
Proof. vm_compute. reflexivity. Qed.

Lemma issuance_exact_witness :
  exists resp, (issue_tokens (Scalar := F5) sample_issuer (Some "alice") None 0 (fun _ => (0, 0)) (Mem ∅ true)
    (repeat sample_point 5)).2 = Ok resp /\ length (evaluated_points resp) = 3%nat.
Proof.
  pose proof (issuance_exact (Scalar := F5) sample_issuer "alice" 0
    ltac:(cbn; unfold u32_max; lia) (fun r : mem => mem_up r = true) (Mem ∅ true) (sample_request 5) 0 sample_key
    mem_available eq_refl (fun _ => conj eq_refl eq_refl) eq_refl (or_introl (conj eq_refl eq_refl))
    ltac:(unfold u32_max; lia) ltac:(cbn; lia) ltac:(cbn; lia)) as Hx.
  cbn zeta in Hx. change (rq_points (sample_request 5)) with (repeat sample_point 5) in Hx.
  assert (decode_points (Scalar := F5) (repeat sample_point 5) = Ok (repeat (N2, sample_point) 5)) as Ed by reflexivity.
  rewrite Ed in Hx.
  destruct (issue_tokens _ _ _ _ _ _ _) as [r' res] in Hx |- *. destruct Hx as (resp & -> & Hev & _).
  exists resp. split; [reflexivity|]. rewrite Hev. vm_compute. reflexivity.
Defined.

End Issuance.
