(* ===== verification/Pow.v ===== *)
(** * Proof of work

    Models construct-pow/src/lib.rs (the Argon2id puzzle and its check), the challenge
    store of construct-queue/src/pow.rs, and the adaptive difficulty of
    construct-auth-service/src/devices.rs. Argon2, base64, hex and the JSON of serde are
    libraries and parameters. Times are nanoseconds since the epoch. *)

From S2P Require Import Prelude Text RedisStore.

Module Pow.
Import Redis.

(** ** The puzzle *)

Definition leading_zeros (b : Z) : Z := if b =? 0 then 8 else 7 - Z.log2 b.

Fixpoint count_leading_zero_bits (hash_bytes : bytes) : Z :=
  match hash_bytes with
  | [] => 0
  | b :: rest => if Z_of_byte b =? 0 then 8 + count_leading_zero_bits rest else leading_zeros (Z_of_byte b)
  end.

Definition POW_SALT_PREFIX : string := "kpow2:".

(** [&s[..n]]: a panic unless [n] is the start of a character. *)
Definition slice_to (n : nat) (s : string) : option string :=
  match String.get n s with
  | Some a => if is_continuation a then None else Some (String.substring 0 n s)
  | None => if (String.length s =? n)%nat then Some s else None
  end.

Definition derive_pow_salt (challenge : string) : option string :=
  let* challenge_prefix := slice_to (Nat.min 16 (String.length challenge)) challenge in
  Some (POW_SALT_PREFIX +:+ challenge_prefix).

Definition MEMORY_COST_KIB : Z := 32 * 1024.
Definition TIME_COST : Z := 2.
Definition PARALLELISM : Z := 1.
Definition HASH_LENGTH : Z := 32.

Section Puzzle.
Context {Params : Type} (build_params : Z -> Z -> Z -> Z -> option Params).
Context (encode_b64 : bytes -> option string).
(** The hash part of the PHC string, which is optional there. *)
Context (hash_password : Params -> bytes -> string -> option (option bytes)).
Context (hex_encode : bytes -> string).

(** [None] is the panic of the salt's slice. *)
Definition verify_pow_solution (challenge : string) (nonce : Z) (claimed_hash : string) (required_difficulty : Z)
    : option bool :=
  let input := challenge +:+ to_string nonce in
  match build_params MEMORY_COST_KIB TIME_COST PARALLELISM HASH_LENGTH with
  | None => Some false
  | Some params =>
      let* derived_salt := derive_pow_salt challenge in
      match encode_b64 (as_bytes derived_salt) with
      | None => Some false
      | Some salt =>
          match hash_password params (as_bytes input) salt with
          | None | Some None => Some false
          | Some (Some computed) =>
              if negb (String.eqb (hex_encode computed) claimed_hash) then Some false
              else Some (negb (count_leading_zero_bits computed <? required_difficulty))
          end
      end
  end.

End Puzzle.

(** ** The store of challenges *)

Definition CH_PREFIX : string := "pow:ch:".
Definition IPCH_PREFIX : string := "pow:ipch:".
Definition IPREG_PREFIX : string := "pow:ipreg:".
Definition IP_ZSET_TTL_SECS : Z := 3600.

Record PowChallengeRecord := {
  difficulty : Z;
  used : bool;
  requester_ip : option string;
  expires_at : Z;
}.

Definition timestamp_millis (ns : Z) : Z := ns / 1000000.
Definition timestamp (ns : Z) : Z := ns / 1000000000.

Section Store.
Context {R : Type} `{Redis R}.
Context (to_json : PowChallengeRecord -> string) (from_json : string -> option PowChallengeRecord).

(** The request is added to a window of its address, which outlives it by an hour. *)
Definition record_in_window (r : R) (zkey member : string) (now : Z) : R * result unit unit :=
  match exec_int r (ZADD zkey member (timestamp_millis now)) with
  | (r1, None) => (r1, Err tt)
  | (r1, Some _) =>
      match exec_bool r1 (EXPIRE zkey IP_ZSET_TTL_SECS) with
      | (r2, None) => (r2, Err tt)
      | (r2, Some _) => (r2, Ok tt)
      end
  end.

Definition create_pow_challenge (r : R) (challenge : string) (difficulty : Z) (requester_ip : option string)
    (ttl_seconds now : Z) : R * result PowChallengeRecord unit :=
  let record := {| difficulty := difficulty; used := false; requester_ip := requester_ip;
                   expires_at := now + ttl_seconds * 1000000000 |} in
  match exec_unit r (SETEX (CH_PREFIX +:+ challenge) (to_json record) (Z.max ttl_seconds 1)) with
  | (r1, None) => (r1, Err tt)
  | (r1, Some _) =>
      match requester_ip with
      | None => (r1, Ok record)
      | Some ip =>
          match record_in_window r1 (IPCH_PREFIX +:+ ip) challenge now with
          | (r2, Err e) => (r2, Err e)
          | (r2, Ok _) => (r2, Ok record)
          end
      end
  end.

Definition get_pow_challenge (r : R) (challenge : string) : R * result (option PowChallengeRecord) unit :=
  match exec_opt_string r (GET (CH_PREFIX +:+ challenge)) with
  | (r1, None) => (r1, Err tt)
  | (r1, Some None) => (r1, Ok None)
  | (r1, Some (Some s)) =>
      match from_json s with
      | None => (r1, Err tt)
      | Some record => (r1, Ok (Some record))
      end
  end.

Definition with_used (c : PowChallengeRecord) : PowChallengeRecord :=
  {| difficulty := difficulty c; used := true; requester_ip := requester_ip c; expires_at := expires_at c |}.

Definition mark_pow_challenge_used (r : R) (challenge : string) (now : Z) : R * result unit unit :=
  let key := CH_PREFIX +:+ challenge in
  match exec_opt_string r (GET key) with
  | (r1, None) => (r1, Err tt)
  | (r1, Some None) => (r1, Ok tt)
  | (r1, Some (Some s)) =>
      match from_json s with
      | None => (r1, Err tt)
      | Some record =>
          match exec_int r1 (TTL key) with
          | (r2, None) => (r2, Err tt)
          | (r2, Some ttl) =>
              let new_json := to_json (with_used record) in
              match exec_unit r2 (if 0 <? ttl then SETEX key new_json ttl else SET key new_json) with
              | (r3, None) => (r3, Err tt)
              | (r3, Some _) =>
                  match requester_ip record with
                  | None => (r3, Ok tt)
                  | Some ip => record_in_window r3 (IPREG_PREFIX +:+ ip) challenge now
                  end
              end
          end
      end
  end.

Definition count_pow_window (r : R) (zkey : string) (minutes now : Z) : R * result Z unit :=
  let cutoff := timestamp_millis now - minutes * 60 * 1000 in
  match exec_int r (ZREMRANGEBYSCORE zkey cutoff) with
  | (r1, None) => (r1, Err tt)
  | (r1, Some _) =>
      match exec_int r1 (ZCOUNT zkey cutoff) with
      | (r2, None) => (r2, Err tt)
      | (r2, Some count) => (r2, Ok count)
      end
  end.

Definition count_pow_challenges_by_ip (r : R) (ip : string) (minutes now : Z) : R * result Z unit :=
  count_pow_window r (IPCH_PREFIX +:+ ip) minutes now.

Definition count_pow_registrations_by_ip (r : R) (ip : string) (minutes now : Z) : R * result Z unit :=
  count_pow_window r (IPREG_PREFIX +:+ ip) minutes now.

End Store.

(** ** Adaptive difficulty *)

Record AdaptivePowParams := { ap_difficulty : Z; retry_after_secs : Z }.

Definition adaptive_pow_params (base_difficulty count : Z) : AdaptivePowParams :=
  let tier := wrap_u32 (Z.quot count 10) in
  {| ap_difficulty := Z.min (wrap_u32 (base_difficulty + wrap_u32 (tier * 2))) 20;
     retry_after_secs := if 2 <=? tier then Z.min (30 * Z.shiftl 1 (Z.min (tier - 2) 6)) 3600 else 0 |}.

Definition adaptive_pow_params_registration (base_difficulty reg_count : Z) : AdaptivePowParams :=
  let count := wrap_u32 reg_count in
  let extra := Z.max 0 (count - 2) in
  {| ap_difficulty := Z.min (wrap_u32 (base_difficulty + wrap_u32 (extra * 2))) 20;
     retry_after_secs := if 2 <=? count then Z.min (60 * Z.shiftl 1 (Z.min (count - 2) 6)) 3600 else 0 |}.

(** The casts of the stored difficulty. *)
Definition as_i16 (z : Z) : Z := (z + 32768) mod 65536 - 32768.
Definition i16_as_u32 (z : Z) : Z := wrap_u32 z.

(** The choice between the two in [get_pow_challenge] of devices.rs. *)
Definition stricter_params (params_reg params_challenge : AdaptivePowParams) : AdaptivePowParams :=
  if ap_difficulty params_challenge <=? ap_difficulty params_reg then
    {| ap_difficulty := ap_difficulty params_reg;
       retry_after_secs := Z.max (retry_after_secs params_reg) (retry_after_secs params_challenge) |}
  else params_challenge.

(** ** The difficulty is a bound on the hash *)

Lemma Z_of_byte_range b : 0 <= Z_of_byte b < 256.
Proof. unfold Z_of_byte. pose proof (Byte.to_N_bounded b). lia. Qed.

Lemma be_value_cons b l : be_value (b :: l) = Z_of_byte b * 256 ^ Z.of_nat (length l) + be_value l.
Proof. unfold be_value at 1. cbn [fold_left]. by rewrite be_value_acc. Qed.

Lemma be_value_range l : 0 <= be_value l < 256 ^ Z.of_nat (length l).
Proof.
  induction l as [|b l IH]; [by cbn|]. rewrite be_value_cons. cbn [length]. rewrite Nat2Z.inj_succ, Z.pow_succ_r by lia.
  pose proof (Z_of_byte_range b). nia.
Qed.

Lemma pow_256 n : 256 ^ Z.of_nat n = 2 ^ (8 * Z.of_nat n).
Proof. rewrite Z.pow_mul_r by lia. done. Qed.

Lemma leading_zero_bits_bound l d :
  0 <= d <= 8 * Z.of_nat (length l) -> d <= count_leading_zero_bits l <-> be_value l < 2 ^ (8 * Z.of_nat (length l) - d).
Proof.
  revert d. induction l as [|b l IH]; intros d Hd.
  { cbn in Hd |- *. replace d with 0 by lia. cbn. lia. }
  rewrite be_value_cons. pose proof (be_value_range l) as Hr. cbn [length count_leading_zero_bits] in *.
  rewrite pow_256 in *. set (n := Z.of_nat (length l)) in *. rewrite Nat2Z.inj_succ in Hd |- *. fold n in Hd |- *.
  pose proof (Z_of_byte_range b) as Hb. destruct (Z.eqb_spec (Z_of_byte b) 0) as [->|Hnz].
  - destruct (decide (d <= 8)) as [Hd8|Hd8].
    + split; [intros _|intros _].
      * assert (2 ^ (8 * n) <= 2 ^ (8 * Z.succ n - d)) by (apply Z.pow_le_mono_r; lia). lia.
      * specialize (IH 0 ltac:(lia)). rewrite Z.sub_0_r in IH. apply proj2 in IH. specialize (IH (proj2 Hr)). lia.
    + specialize (IH (d - 8) ltac:(lia)). replace (8 * Z.succ n - d) with (8 * n - (d - 8)) by lia. lia.
  - unfold leading_zeros. destruct (Z.eqb_spec (Z_of_byte b) 0) as [|_]; [done|].
    pose proof (Z.log2_spec (Z_of_byte b) ltac:(lia)) as [Hl1 Hl2]. pose proof (Z.log2_nonneg (Z_of_byte b)) as Hl0.
    set (g := Z.log2 (Z_of_byte b)) in *. split; intros Hx.
    + assert (2 ^ Z.succ g * 2 ^ (8 * n) <= 2 ^ (8 * Z.succ n - d)) by (rewrite <- Z.pow_add_r by lia; apply Z.pow_le_mono_r; lia).
      nia.
    + apply Z.nlt_ge. intros Hgt.
      assert (2 ^ (8 * Z.succ n - d) <= 2 ^ g * 2 ^ (8 * n)) by (rewrite <- Z.pow_add_r by lia; apply Z.pow_le_mono_r; lia).
      nia.
Qed.

(** ** The parameters of a challenge *)

Lemma wrap_u32_small z : 0 <= z <= u32_max -> wrap_u32 z = z.
Proof. unfold wrap_u32, u32_max. intros. apply Z.mod_small. lia. Qed.

(** Within the range of the configuration the tiers neither wrap nor leave the bounds, and
    grow with the counts. *)
Lemma adaptive_bounds base count :
  0 <= base <= 20 -> 0 <= count <= 1000000000 ->
  base <= ap_difficulty (adaptive_pow_params base count) <= 20 /\
  0 <= retry_after_secs (adaptive_pow_params base count) <= 3600.
Proof.
  intros Hb Hc. unfold adaptive_pow_params. cbn [ap_difficulty retry_after_secs].
  pose proof (Z.quot_div_nonneg count 10 ltac:(lia) ltac:(lia)) as ->.
  assert (0 <= count / 10 <= 100000000) by (split; [apply Z.div_pos; lia|apply Z.div_le_upper_bound; lia]).
  rewrite (wrap_u32_small (count / 10)), (wrap_u32_small (count / 10 * 2)), wrap_u32_small by (unfold u32_max; lia).
  split; [lia|]. destruct (Z.leb_spec 2 (count / 10)); [|lia].
  assert (0 <= Z.shiftl 1 (Z.min (count / 10 - 2) 6)) by (apply Z.shiftl_nonneg; lia). lia.
Qed.

Lemma registration_bounds base count :
  0 <= base <= 20 -> 0 <= count <= 1000000000 ->
  base <= ap_difficulty (adaptive_pow_params_registration base count) <= 20 /\
  0 <= retry_after_secs (adaptive_pow_params_registration base count) <= 3600.
Proof.
  intros Hb Hc. unfold adaptive_pow_params_registration. cbn [ap_difficulty retry_after_secs].
  rewrite (wrap_u32_small count), (wrap_u32_small (Z.max 0 (count - 2) * 2)), wrap_u32_small by (unfold u32_max; lia).
  split; [lia|]. destruct (Z.leb_spec 2 count); [|lia].
  assert (0 <= Z.shiftl 1 (Z.min (count - 2) 6)) by (apply Z.shiftl_nonneg; lia). lia.
Qed.

Lemma stricter_is_max p q : ap_difficulty (stricter_params p q) = Z.max (ap_difficulty p) (ap_difficulty q).
Proof. unfold stricter_params. destruct (Z.leb_spec (ap_difficulty q) (ap_difficulty p)); cbn; lia. Qed.

Lemma stricter_retry p q :
  0 <= retry_after_secs p <= 3600 -> 0 <= retry_after_secs q <= 3600 -> 0 <= retry_after_secs (stricter_params p q) <= 3600.
Proof. unfold stricter_params. destruct (_ <=? _); cbn; lia. Qed.

(** The longer delay is not always the one that is sent: an address with two registrations
    and ten challenges in the hour is given the delay of neither table but none. *)
Example longer_delay_dropped :
  retry_after_secs (adaptive_pow_params_registration 8 2) = 60 /\
  retry_after_secs (stricter_params (adaptive_pow_params_registration 8 2) (adaptive_pow_params 8 10)) = 0.
Proof. split; reflexivity. Qed.

(** ** The puzzle *)

Lemma slice_ascii n s : (n <= String.length s)%nat -> str_all (fun a => negb (is_continuation a)) s = true -> is_Some (slice_to n s).
Proof.
  intros Hn Ha. unfold slice_to. destruct (String.get n s) as [a|] eqn:E.
  - assert (is_continuation a = false) as ->; [|by eexists]. clear Hn. revert n E. induction s as [|b s IH]; intros n E; [by destruct n|].
    cbn in Ha. apply andb_true_iff in Ha as [Hb Ha]. destruct n as [|n]; [injection E as <-; by apply negb_true_iff|]. by eapply IH.
  - destruct (Nat.eqb_spec (String.length s) n) as [|Hne]; [by eexists|]. exfalso. clear Ha. revert n Hn E Hne.
    induction s as [|b s IH]; intros [|n] Hn E Hne; cbn in *; try done; try lia. eapply (IH n); [lia|done|lia].
Qed.

(** The salt of a challenge of plain characters exists. *)
Lemma salt_exists s : str_all (fun a => negb (is_continuation a)) s = true -> is_Some (derive_pow_salt s).
Proof.
  intros Ha. unfold derive_pow_salt. destruct (slice_ascii (Nat.min 16 (String.length s)) s ltac:(lia) Ha) as [p ->]. by eexists.
Qed.

Section Solutions.
Context {Params : Type} (build_params : Z -> Z -> Z -> Z -> option Params) (encode_b64 : bytes -> option string)
  (hash_password : Params -> bytes -> string -> option (option bytes)) (hex_encode : bytes -> string).

(** C32: the check of a solution is a bound on the hash. For a challenge whose salt and
    Argon2 hash can be computed, a solution is accepted at a difficulty exactly if the
    claimed text is the hexadecimal form of that hash and the hash, read as a big-endian
    number, is below 2 to the number of its bits less the difficulty. *)
Theorem pow_solution_exact challenge nonce claimed d salt b64 params h :
  derive_pow_salt challenge = Some salt -> build_params MEMORY_COST_KIB TIME_COST PARALLELISM HASH_LENGTH = Some params ->
  encode_b64 (as_bytes salt) = Some b64 -> hash_password params (as_bytes (challenge +:+ to_string nonce)) b64 = Some (Some h) ->
  0 <= d <= 8 * Z.of_nat (length h) ->
  verify_pow_solution build_params encode_b64 hash_password hex_encode challenge nonce claimed d = Some true <->
  hex_encode h = claimed /\ be_value h < 2 ^ (8 * Z.of_nat (length h) - d).
Proof.
  intros Hs Hp Hb Hh Hd. unfold verify_pow_solution. rewrite Hp, Hs, Hb, Hh. rewrite <- (leading_zero_bits_bound h d Hd).
  destruct (String.eqb_spec (hex_encode h) claimed) as [->|Hne]; cbn [negb].
  - destruct (Z.ltb_spec (count_leading_zero_bits h) d); cbn [negb].
    + split; [done|]. intros [_ Hx]. lia.
    + by split.
  - split; [done|]. by intros [Hx _].
Qed.

End Solutions.

(** the difficulty of a challenge stays in its bounds. For a base of at most 20 and any
    counts of a window, the difficulty chosen is the larger of the two tables', lies between
    the base and 20, survives the store as a 16-bit number, and the delay is at most an
    hour. *)
Theorem challenge_params_bounded base count reg_count :
  0 <= base <= 20 -> 0 <= count <= 1000000000 -> 0 <= reg_count <= 1000000000 ->
  let p := stricter_params (adaptive_pow_params_registration base reg_count) (adaptive_pow_params base count) in
  ap_difficulty p = Z.max (ap_difficulty (adaptive_pow_params_registration base reg_count)) (ap_difficulty (adaptive_pow_params base count)) /\
  base <= ap_difficulty p <= 20 /\ i16_as_u32 (as_i16 (ap_difficulty p)) = ap_difficulty p /\
  0 <= retry_after_secs p <= 3600.
Proof.
  intros Hb Hc Hr p. destruct (adaptive_bounds base count Hb Hc) as [Ha Hra], (registration_bounds base reg_count Hb Hr) as [Hg Hrg].
  unfold p. rewrite stricter_is_max. split; [done|]. split; [lia|]. split.
  - unfold i16_as_u32, as_i16. rewrite Z.mod_small by lia. rewrite wrap_u32_small by (unfold u32_max; lia). lia.
  - by apply stricter_retry.
Qed.

(** ** A used challenge stays used *)

Section Spent.
Context {R : Type} `{RedisLaws R}.
Context (to_json : PowChallengeRecord -> string) (from_json : string -> option PowChallengeRecord).
Context (json_roundtrip : forall c, from_json (to_json c) = Some c).

(** No registration can use the challenge: its record is gone, unreadable or used. *)
Definition spent (challenge : string) (ks : keyspace) : Prop :=
  forall s ttl c, ks !! (CH_PREFIX +:+ challenge) = Some (Entry (VStr s) ttl) -> from_json s = Some c -> used c = true.

Lemma exec_preserves (P : keyspace -> Prop) (r : R) c :
  (forall ks' d, cmd_doc c (keys r) = Some (ks', d) -> P ks') -> P (keys r) -> P (keys (exec r c).1).
Proof.
  intros Hc Hp. destruct (exec r c) as [r' [rep|]] eqn:E; cbn [fst].
  - apply exec_ok in E as (d & Hd & _). by eapply Hc.
  - by apply exec_err in E as [->|[d Hd]]; [|eapply Hc].
Qed.

Lemma challenge_key_inj c c' : CH_PREFIX +:+ c = CH_PREFIX +:+ c' -> c = c'.
Proof. intros E. by repeat (injection E as E). Qed.

Lemma spent_other ch k v ks : k <> CH_PREFIX +:+ ch -> spent ch ks -> spent ch (<[k := v]> ks).
Proof. intros Hk Hs s ttl c. rewrite lookup_insert_ne by done. apply Hs. Qed.

Lemma spent_used ch ch' c ttl ks :
  spent ch ks -> spent ch (<[CH_PREFIX +:+ ch' := Entry (VStr (to_json (with_used c))) ttl]> ks).
Proof using json_roundtrip.
  intros Hs s t c'. destruct (decide (ch = ch')) as [->|Hne].
  - rewrite lookup_insert_eq. intros [= <- <-]. rewrite json_roundtrip. by intros [= <-].
  - rewrite lookup_insert_ne by (intros E%challenge_key_inj; congruence). apply Hs.
Qed.

Lemma spent_frame ch ks ks' : ks' !! (CH_PREFIX +:+ ch) = ks !! (CH_PREFIX +:+ ch) -> spent ch ks -> spent ch ks'.
Proof. intros E Hs s ttl c. rewrite E. apply Hs. Qed.

Lemma ipreg_not_challenge ip ch : IPREG_PREFIX +:+ ip <> CH_PREFIX +:+ ch.
Proof. done. Qed.
Lemma ipch_not_challenge ip ch : IPCH_PREFIX +:+ ip <> CH_PREFIX +:+ ch.
Proof. done. Qed.

Lemma window_frame (r : R) zkey member now k :
  zkey <> k -> keys (record_in_window r zkey member now).1 !! k = keys r !! k.
Proof.
  intros Hk. unfold record_in_window. pose proof (single_key_frame r (ZADD zkey member (timestamp_millis now)) zkey k eq_refl Hk) as H1.
  rewrite <- exec_int_fst in H1. destruct (exec_int r _) as [r1 [n|]]; [|done]. cbn [fst] in H1.
  pose proof (single_key_frame r1 (EXPIRE zkey IP_ZSET_TTL_SECS) zkey k eq_refl Hk) as H2.
  rewrite <- exec_bool_fst in H2. destruct (exec_bool r1 _) as [r2 [b|]]; cbn [fst] in *; congruence.
Qed.

Lemma count_frame (r : R) zkey minutes now k :
  zkey <> k -> keys (count_pow_window r zkey minutes now).1 !! k = keys r !! k.
Proof.
  intros Hk. unfold count_pow_window. set (cutoff := _ - _).
  pose proof (single_key_frame r (ZREMRANGEBYSCORE zkey cutoff) zkey k eq_refl Hk) as H1.
  rewrite <- exec_int_fst in H1. destruct (exec_int r _) as [r1 [n|]]; [|done]. cbn [fst] in H1.
  pose proof (single_key_frame r1 (ZCOUNT zkey cutoff) zkey k eq_refl Hk) as H2.
  rewrite <- exec_int_fst in H2. destruct (exec_int r1 _) as [r2 [b|]]; cbn [fst] in *; congruence.
Qed.

Lemma read_get (r : R) k : keys (exec_opt_string r (GET k)).1 = keys r.
Proof.
  rewrite exec_opt_string_fst. destruct (exec r (GET k)) as [r' o] eqn:E. apply (exec_read_keys _ _ _ _ E).
  intros ks ks' rep. cbn. by repeat case_match; intros; simplify_eq.
Qed.

Lemma read_ttl (r : R) k : keys (exec_int r (TTL k)).1 = keys r.
Proof.
  rewrite exec_int_fst. destruct (exec r (TTL k)) as [r' o] eqn:E. apply (exec_read_keys _ _ _ _ E).
  intros ks ks' rep. cbn. by intros [= <- _].
Qed.

Lemma get_challenge_keys (r : R) challenge : keys (get_pow_challenge from_json r challenge).1 = keys r.
Proof.
  unfold get_pow_challenge. pose proof (read_get r (CH_PREFIX +:+ challenge)) as Hk.
  destruct (exec_opt_string r _) as [r1 [[s|]|]]; [destruct (from_json s)|..]; exact Hk.
Qed.

(** A spent challenge is never handed out as unused. *)
Lemma get_spent (r : R) challenge r' c :
  spent challenge (keys r) -> get_pow_challenge from_json r challenge = (r', Ok (Some c)) -> used c = true.
Proof.
  intros Hs. unfold get_pow_challenge. destruct (exec_opt_string r _) as [r1 [[s|]|]] eqn:E; [|done..].
  destruct (from_json s) as [c'|] eqn:Ej; [|done]. intros [= <- <-].
  apply exec_get_ok in E as [_ E]. destruct (keys r !! (CH_PREFIX +:+ challenge)) as [[v ttl]|] eqn:Ek; [|done].
  destruct E as (s' & Ev & [= <-]). cbn in Ev. subst v. by eapply Hs.
Qed.

(** The write that marks a challenge, answered or not, keeps every spent one spent. *)
Lemma mark_write_keeps (r : R) ch ch' c ttl :
  spent ch (keys r) ->
  spent ch (keys (exec_unit r (if 0 <? ttl then SETEX (CH_PREFIX +:+ ch') (to_json (with_used c)) ttl
                               else SET (CH_PREFIX +:+ ch') (to_json (with_used c)))).1).
Proof using json_roundtrip.
  intros Hs. rewrite exec_unit_fst. apply exec_preserves; [|done]. intros ks' d.
  destruct (Z.ltb_spec 0 ttl); cbn.
  - destruct (Z.leb_spec ttl 0); [lia|]. intros [= <- _]. by apply spent_used.
  - intros [= <- _]. by apply spent_used.
Qed.

Lemma mark_keeps (r : R) ch ch' now :
  spent ch (keys r) -> spent ch (keys (mark_pow_challenge_used to_json from_json r ch' now).1).
Proof using json_roundtrip.
  intros Hs. unfold mark_pow_challenge_used. pose proof (read_get r (CH_PREFIX +:+ ch')) as H1.
  destruct (exec_opt_string r _) as [r1 [[s|]|]]; cbn [fst] in H1 |- *; [|by rewrite H1..].
  destruct (from_json s) as [c|]; [|cbn [fst]; by rewrite H1].
  pose proof (read_ttl r1 (CH_PREFIX +:+ ch')) as H2.
  destruct (exec_int r1 _) as [r2 [ttl|]]; cbn [fst] in H2 |- *; [|by rewrite H2, H1].
  pose proof (mark_write_keeps r2 ch ch' c ttl ltac:(by rewrite H2, H1)) as H3.
  destruct (exec_unit r2 _) as [r3 [u|]]; cbn [fst] in H3; [|done].
  destruct (requester_ip c) as [ip|]; [|done].
  eapply spent_frame; [by apply window_frame, ipreg_not_challenge|done].
Qed.

(** A mark that is answered spends the challenge. *)
Lemma mark_spends (r : R) ch now r' :
  mark_pow_challenge_used to_json from_json r ch now = (r', Ok tt) -> spent ch (keys r').
Proof using json_roundtrip.
  unfold mark_pow_challenge_used. destruct (exec_opt_string r _) as [r1 [[s|]|]] eqn:E; [|..|done].
  2: { intros [= <-]. apply exec_get_ok in E as [Hk E]. intros s ttl c Hl. rewrite Hk in Hl. rewrite Hl in E.
       by destruct E as (? & _ & ?). }
  destruct (from_json s) as [c|]; [|done]. destruct (exec_int r1 _) as [r2 [ttl|]]; [|done].
  destruct (exec_unit r2 _) as [r3 [u|]] eqn:E3; [|done].
  assert (spent ch (keys r3)) as Hs.
  { destruct u. apply exec_unit_ok in E3 as [rep Hd]. intros s' t c'.
    destruct (Z.ltb_spec 0 ttl); cbn in Hd; [destruct (Z.leb_spec ttl 0); [lia|]|]; injection Hd as <- _;
      rewrite lookup_insert_eq; intros [= <- <-]; rewrite json_roundtrip; by intros [= <-]. }
  destruct (requester_ip c) as [ip|]; [|by intros [= <-]].
  pose proof (window_frame r3 (IPREG_PREFIX +:+ ip) ch now _ (ipreg_not_challenge ip ch)) as Hf.
  intros Ew. rewrite Ew in Hf. by eapply spent_frame.
Qed.

(** Time only makes records disappear. *)
Lemma expiry_keeps ch ks ks' : expires ks ks' -> spent ch ks -> spent ch ks'.
Proof.
  intros He Hs s ttl c Hl Hj. specialize (He (CH_PREFIX +:+ ch)). destruct (ks !! _) as [[v [t|]]|] eqn:E.
  - destruct He as [He|(t' & _ & He)]; [congruence|]. rewrite He in Hl. simplify_eq. by eapply Hs.
  - rewrite He in Hl. simplify_eq. by eapply Hs.
  - congruence.
Qed.

End Spent.

(** ** The theorems at work *)

(** Records as the binary digits of their number: a text form that reads back. *)
Fixpoint string_of_pos (p : positive) : string :=
  match p with xH => "" | xO q => String "0" (string_of_pos q) | xI q => String "1" (string_of_pos q) end.
Fixpoint pos_of_string (s : string) : positive :=
  match s with "" => xH | String a rest => if Ascii.eqb a "1" then xI (pos_of_string rest) else xO (pos_of_string rest) end.

Lemma pos_of_string_of_pos p : pos_of_string (string_of_pos p) = p.
Proof. induction p as [p IH|p IH|]; cbn; congruence. Qed.

Definition sample_to_json (c : PowChallengeRecord) : string :=
  string_of_pos (encode (difficulty c, used c, requester_ip c, expires_at c)).
Definition sample_from_json (s : string) : option PowChallengeRecord :=
  match decode (A := Z * bool * option string * Z) (pos_of_string s) with
  | Some (d, u, ip, t) => Some {| difficulty := d; used := u; requester_ip := ip; expires_at := t |}
  | None => None
  end.

Lemma sample_json c : sample_from_json (sample_to_json c) = Some c.
Proof.
  unfold sample_from_json, sample_to_json. rewrite pos_of_string_of_pos, decode_encode. by destruct c.
Qed.

Definition sample_build (_ _ _ _ : Z) : option unit := Some tt.
Definition sample_b64 (_ : bytes) : option string := Some "salt".
Definition sample_hash (_ : unit) (_ : bytes) (_ : string) : option (option bytes) := Some (Some [Byte.x00; Byte.x0f]).
Definition sample_hex (_ : bytes) : string := "000f".

Lemma pow_solution_exact_witness :
  verify_pow_solution sample_build sample_b64 sample_hash sample_hex "abc" 7 "000f" 12 = Some true <->
  sample_hex [Byte.x00; Byte.x0f] = "000f" /\ be_value [Byte.x00; Byte.x0f] < 2 ^ (8 * 2 - 12).
Proof.
  apply (pow_solution_exact sample_build sample_b64 sample_hash sample_hex "abc" 7 "000f" 12 "kpow2:abc" "salt" tt
    [Byte.x00; Byte.x0f]); [reflexivity..|]. cbn. lia.
Defined.

Example twelve_bits_not_thirteen :
  verify_pow_solution sample_build sample_b64 sample_hash sample_hex "abc" 7 "000f" 12 = Some true /\
  verify_pow_solution sample_build sample_b64 sample_hash sample_hex "abc" 7 "000f" 13 = Some false.
Proof. split; reflexivity. Qed.

Lemma challenge_params_bounded_witness :
  8 <= ap_difficulty (stricter_params (adaptive_pow_params_registration 8 5) (adaptive_pow_params 8 4)) <= 20.
Proof. apply (challenge_params_bounded 8 4 5); lia. Defined.

End Pow.
