(* ===== verification/Sentinel.v ===== *)
(** * Sentinel: trust levels, quotas, blocks and spam reports

    Models crates/construct-sentinel-service/src/core.rs. The service keeps no
    state of its own but the degraded limiter (DegradedLimiter.v): everything
    else is in Redis (RedisStore.v) and in four Postgres tables, which are
    records of a [Db]. A query may fail ([fault] says which). The methods are
    state-passing computations with an error, in the order the source issues
    its commands; a result the source ignores is ignored here. Time stands still
    during one call: [now_us] is its clock, in microseconds. Metrics and log
    lines are not modelled. *)

From S2P Require Import Prelude DegradedLimiter RedisStore.

Module Sentinel.
Import Redis.

(** ** Constants *)

Definition REPORTS_KEY_TTL : Z := 7 * 24 * 3600.
Definition BAN_FLAG_TTL : Z := 7 * 24 * 3600.
Definition BLOCKS_CACHE_TTL : Z := 300.
Definition REPORT_RATE_LIMIT : Z := 10.
Definition REPORTS_WINDOW_TTL : Z := 24 * 3600.
Definition MSG_WINDOW_TTL : Z := 3600.
Definition OWN_COPY_LIMIT_HOUR : Z := 2000.
Definition AUTO_FLAG_REPORTS : Z := 3.
Definition AUTO_BAN_REPORTS : Z := 5.
Definition MIN_UNIQUE_REPORTERS_FOR_FLAG : Z := 2.
Definition MIN_UNIQUE_REPORTERS_FOR_BAN : Z := 3.

Definition msg_key (device_id : string) : string := "sentinel:rate:msg:" +:+ device_id.
Definition user_msg_key (user_id : string) : string := "sentinel:rate:msg:user:" +:+ user_id.
Definition own_copy_key (user_id : string) : string := "sentinel:rate:own_copy:user:" +:+ user_id.
Definition rcpt_key (device_id : string) : string := "sentinel:rate:rcpt:" +:+ device_id.
Definition ban_key (device_id : string) : string := "sentinel:ban:" +:+ device_id.
Definition flag_key (device_id : string) : string := "sentinel:flag:" +:+ device_id.
Definition blocks_key (blocker : string) : string := "sentinel:blocks:" +:+ blocker.
Definition report_rate_key (reporter : string) : string := "sentinel:rate:report:" +:+ reporter.
Definition reports_key (reported : string) : string := "sentinel:reports:" +:+ reported.
Definition reporters_key (reported : string) : string := "sentinel:reporters:" +:+ reported.
Definition violations_key : string := "sentinel:violations:24h".

(** ** Trust levels *)

Inductive TrustLevel := New | Warming | Trusted | Flagged | Banned.

#[global] Instance TrustLevel_eq_dec : EqDecision TrustLevel.
Proof. solve_decision. Defined.

Definition msg_limit_hour (l : TrustLevel) : Z :=
  match l with New => 10 | Warming => 50 | Trusted => 200 | Flagged => 5 | Banned => 0 end.

Definition has_own_copy_window (l : TrustLevel) : bool :=
  match l with Flagged | Banned => false | _ => true end.

Definition recipient_limit_day (l : TrustLevel) : Z :=
  match l with New => 3 | Warming => 10 | Trusted => 50 | Flagged => 1 | Banned => 0 end.

Definition group_msg_limit_day (l : TrustLevel) : Z :=
  match l with New => 0 | Warming => 20 | Trusted => 100 | Flagged => 0 | Banned => 0 end.

Record QuotaOutcome := {
  q_allowed : bool; q_remaining : option Z; q_limit : Z; q_degraded : bool;
}.

Definition quota_outcome (used limit : Z) : QuotaOutcome := {|
  q_allowed := (0 <? limit) && (used <=? limit);
  q_remaining := Some (Z.max (limit - used) 0);
  q_limit := limit;
  q_degraded := false;
|}.

Record SendPermission := {
  p_allowed : bool; p_reason : string; p_retry_after : Z;
}.

Definition denied (reason : string) (retry : Z) : SendPermission :=
  {| p_allowed := false; p_reason := reason; p_retry_after := retry |}.
Definition permitted : SendPermission :=
  {| p_allowed := true; p_reason := ""; p_retry_after := 0 |}.

(** ** State *)

Record FlagRow := {
  is_banned : bool; ban_reason : option string; banned_at : option Z;
  ban_expires_at : option Z; is_flagged : bool; flagged_at : option Z;
}.

(** [device_flags] and [devices] by device id (their primary keys);
    [device_blocks] in creation order, [spam_reports] likewise. *)
Record Db := {
  device_flags : gmap string FlagRow;
  devices : gmap string Z;
  device_blocks : list (string * string);
  spam_reports : list (string * string * string);
}.

Inductive query :=
| QFlags | QDevices | QBlocks | QInsertBlock | QDeleteBlock | QListBlocks
| QInsertReport | QSetFlag | QSetBan | QClearBan | QClearFlag.

Inductive err := RedisError | DbError (q : query) | ReportRateLimited.

Section WithRedis.
Context {R : Type} `{Redis R}.

Record core := Core { db : Db; redis : R; limiter : DegradedLimiter.t }.

Definition M (A : Type) : Type := core -> core * result A err.

#[export] Instance M_ret : MRet M := fun A a s => (s, Ok a).
#[export] Instance M_bind : MBind M := fun A B f m s =>
  match m s with
  | (s', Ok a) => f a s'
  | (s', Err e) => (s', Err e)
  end.

Definition throw {A} (e : err) : M A := fun s => (s, Err e).

(** A Redis call whose error the caller handles, and one with [?]. *)
Definition on_redis {A} (run : R -> R * option A) : M (option A) := fun s =>
  let '(r, o) := run (redis s) in
  ({| db := db s; redis := r; limiter := limiter s |}, Ok o).

Definition must {A} (m : M (option A)) : M A :=
  o ← m; match o with Some a => mret a | None => throw RedisError end.

Definition with_limiter {A} (f : DegradedLimiter.t -> DegradedLimiter.t * A) : M A := fun s =>
  let '(l, a) := f (limiter s) in
  ({| db := db s; redis := redis s; limiter := l |}, Ok a).

Section WithClock.
Context (fault : query -> bool) (now_us : Z).

Definition now_ms : Z := now_us / 1000.
Definition now_secs : Z := now_us / 1000000.

(** A query on the tables: reads them and may replace them. *)
Definition on_db {A} (q : query) (f : Db -> Db * A) : M A := fun s =>
  if fault q then (s, Err (DbError q))
  else let '(d, a) := f (db s) in
       ({| db := d; redis := redis s; limiter := limiter s |}, Ok a).

(** ** Flags and bans *)

Definition upsert_flags (device_id : string) (f : FlagRow -> FlagRow) (d : Db) : Db * unit :=
  let row := default {| is_banned := false; ban_reason := None; banned_at := None;
                        ban_expires_at := None; is_flagged := false; flagged_at := None |}
               (device_flags d !! device_id) in
  ({| device_flags := <[device_id := f row]> (device_flags d); devices := devices d;
      device_blocks := device_blocks d; spam_reports := spam_reports d |}, tt).

Definition update_flags (device_id : string) (f : FlagRow -> FlagRow) (d : Db) : Db * unit :=
  ({| device_flags := alter f device_id (device_flags d); devices := devices d;
      device_blocks := device_blocks d; spam_reports := spam_reports d |}, tt).

Definition set_flagged (device_id : string) : M unit :=
  _ ← must (on_redis (fun r => exec_unit r (SETEX (flag_key device_id) "1" BAN_FLAG_TTL)));
  on_db QSetFlag (upsert_flags device_id (fun row =>
    {| is_banned := is_banned row; ban_reason := ban_reason row; banned_at := banned_at row;
       ban_expires_at := ban_expires_at row; is_flagged := true;
       flagged_at := Some now_us |})).

Definition set_banned (device_id reason : string) : M unit :=
  _ ← must (on_redis (fun r => exec_unit r (SETEX (ban_key device_id) "1" BAN_FLAG_TTL)));
  on_db QSetBan (upsert_flags device_id (fun row =>
    {| is_banned := true; ban_reason := Some reason; banned_at := Some now_us;
       ban_expires_at := ban_expires_at row; is_flagged := is_flagged row;
       flagged_at := flagged_at row |})).

Definition clear_ban (device_id : string) : M unit :=
  _ ← must (on_redis (fun r => exec_unit r (DEL (ban_key device_id))));
  on_db QClearBan (update_flags device_id (fun row =>
    {| is_banned := false; ban_reason := None; banned_at := banned_at row;
       ban_expires_at := None; is_flagged := is_flagged row; flagged_at := flagged_at row |})).

Definition clear_flag (device_id : string) : M unit :=
  _ ← must (on_redis (fun r => exec_unit r (DEL (flag_key device_id))));
  on_db QClearFlag (update_flags device_id (fun row =>
    {| is_banned := is_banned row; ban_reason := ban_reason row; banned_at := banned_at row;
       ban_expires_at := ban_expires_at row; is_flagged := false;
       flagged_at := flagged_at row |})).

(** ** Trust level *)

(** [TimeDelta::num_hours] and [num_seconds] truncate towards zero. *)
Definition num_hours (d : Z) : Z := Z.quot d 3600000000.
Definition num_seconds (d : Z) : Z := Z.quot d 1000000.

Definition level_of_age (age_hours : Z) : TrustLevel :=
  if age_hours <? 48 then New else if age_hours <? 168 then Warming else Trusted.

Definition age_based_level (device_id : string) : M TrustLevel :=
  created ← on_db QDevices (fun d => (d, devices d !! device_id));
  match created with
  | None => mret New
  | Some ts => mret (level_of_age (num_hours (now_us - ts)))
  end.

Definition trust_level_inner (device_id : string) : M TrustLevel :=
  b ← on_redis (fun r => exec_bool r (EXISTS (ban_key device_id)));
  if default false b then mret Banned
  else
    f ← on_redis (fun r => exec_bool r (EXISTS (flag_key device_id)));
    if default false f then mret Flagged
    else
      row ← on_db QFlags (fun d => (d, device_flags d !! device_id));
      match row with
      | Some row =>
          if is_banned row then
            match ban_expires_at row with
            | Some expires_at =>
                if expires_at <? now_us then
                  _ ← clear_ban device_id; age_based_level device_id
                else
                  let remaining := Z.max (num_seconds (expires_at - now_us)) 1 in
                  _ ← on_redis (fun r => exec_unit r (SETEX (ban_key device_id) "1" remaining));
                  mret Banned
            | None =>
                _ ← on_redis (fun r => exec_unit r (SETEX (ban_key device_id) "1" BAN_FLAG_TTL));
                mret Banned
            end
          else if is_flagged row then
            _ ← on_redis (fun r => exec_unit r (SETEX (flag_key device_id) "1" BAN_FLAG_TTL));
            mret Flagged
          else age_based_level device_id
      | None => age_based_level device_id
      end.

Definition trust_level (device_id : string) : M TrustLevel := fun s =>
  match trust_level_inner device_id s with
  | (s', Ok level) => (s', Ok level)
  | (s', Err _) => (s', Ok Flagged)
  end.

(** ** Quotas *)

(** A counter that is not an [i32] is a conversion error of the redis crate. *)
Definition window_used (key : string) : M Z :=
  v ← must (on_redis (fun r => exec_opt_string r (GET key)));
  match v with
  | None => mret 0
  | Some s =>
      match parse_i64 s with
      | Some n => if (i32_min <=? n) && (n <=? i32_max) then mret n else throw RedisError
      | None => throw RedisError
      end
  end.

Definition incr_window (key : string) (ttl_secs : Z) : M (option Z) :=
  on_redis (fun r => exec_int r (EVAL (incr_expire key ttl_secs))).

Definition msg_quota (device_id : string) (trust : TrustLevel) : M (Z * Z) :=
  let limit := msg_limit_hour trust in
  if limit <=? 0 then mret (0, limit)
  else used ← window_used (msg_key device_id); mret (Z.max (limit - used) 0, limit).

Definition recipient_quota (device_id : string) (trust : TrustLevel) : M (Z * Z) :=
  let limit := recipient_limit_day trust in
  if limit <=? 0 then mret (0, limit)
  else used ← window_used (rcpt_key device_id); mret (Z.max (limit - used) 0, limit).

Definition charge_locally (key : string) (limit ttl_secs : Z) : M QuotaOutcome :=
  out ← with_limiter (fun l => DegradedLimiter.charge l key limit ttl_secs now_secs);
  mret {| q_allowed := DegradedLimiter.allowed out; q_remaining := None; q_limit := limit;
          q_degraded := true |}.

Definition charge_window (key : string) (limit ttl_secs : Z) : M QuotaOutcome :=
  if limit <=? 0 then mret (quota_outcome 0 limit)
  else
    skip ← with_limiter (fun l => (l, DegradedLimiter.should_skip_redis l now_ms));
    if (skip : bool) then charge_locally key limit ttl_secs
    else
      used ← incr_window key ttl_secs;
      match used with
      | Some used =>
          _ ← with_limiter (fun l =>
                let l1 := if bool_decide (DegradedLimiter.state l now_ms
                                          = DegradedLimiter.Closed)
                          then l else DegradedLimiter.clear l in
                (DegradedLimiter.record_success l1, tt));
          mret (quota_outcome used limit)
      | None =>
          _ ← with_limiter (fun l => DegradedLimiter.record_failure l now_ms);
          charge_locally key limit ttl_secs
      end.

Definition consume_msg_quota (device_id : string) (trust : TrustLevel) : M QuotaOutcome :=
  charge_window (msg_key device_id) (msg_limit_hour trust) MSG_WINDOW_TTL.

Definition consume_user_msg_quota (user_id : string) (trust : TrustLevel) : M QuotaOutcome :=
  charge_window (user_msg_key user_id) (msg_limit_hour trust) MSG_WINDOW_TTL.

Definition consume_own_copy_quota (user_id : string) : M QuotaOutcome :=
  charge_window (own_copy_key user_id) OWN_COPY_LIMIT_HOUR MSG_WINDOW_TTL.

Definition record_violation : M unit :=
  _ ← on_redis (fun r => exec_int r (INCR violations_key));
  _ ← on_redis (fun r => exec_bool r (EXPIRE violations_key REPORTS_WINDOW_TTL));
  mret tt.

(** ** Blocks *)

Definition blocked_by (d : Db) (blocker : string) : list string :=
  map snd (List.filter (fun p => bool_decide (fst p = blocker)) (device_blocks d)).

Definition is_blocked (blocker target : string) : M bool :=
  c ← on_redis (fun r => exec_bool r (SISMEMBER (blocks_key blocker) target));
  if default false c then mret true
  else
    e ← must (on_redis (fun r => exec_bool r (EXISTS (blocks_key blocker))));
    if (e : bool) then mret false
    else
      rows ← on_db QBlocks (fun d => (d, blocked_by d blocker));
      _ ← match rows with
          | [] => mret tt
          | _ => must (on_redis (fun r => exec_unit r (SADD (blocks_key blocker) rows)))
          end;
      _ ← must (on_redis (fun r => exec_unit r (EXPIRE (blocks_key blocker) BLOCKS_CACHE_TTL)));
      mret (bool_decide (target ∈ rows)).

Definition invalidate_block_cache (blocker : string) : M unit :=
  _ ← on_redis (fun r => exec_unit r (DEL (blocks_key blocker))); mret tt.

Definition with_blocks (d : Db) (l : list (string * string)) : Db :=
  {| device_flags := device_flags d; devices := devices d; device_blocks := l;
     spam_reports := spam_reports d |}.

(** [INSERT .. ON CONFLICT DO NOTHING] and [DELETE] on [device_blocks]. *)
Definition insert_block (blocker blocked : string) (l : list (string * string)) :=
  if bool_decide ((blocker, blocked) ∈ l) then l else l ++ [(blocker, blocked)].
Definition delete_block (blocker blocked : string) (l : list (string * string)) :=
  List.filter (fun p => negb (bool_decide (p = (blocker, blocked)))) l.

Definition block_device (blocker blocked : string) : M unit :=
  _ ← on_db QInsertBlock (fun d =>
        (with_blocks d (insert_block blocker blocked (device_blocks d)), tt));
  invalidate_block_cache blocker.

Definition unblock_device (blocker blocked : string) : M unit :=
  _ ← on_db QDeleteBlock (fun d =>
        (with_blocks d (delete_block blocker blocked (device_blocks d)), tt));
  invalidate_block_cache blocker.

(** Newest first, one page and whether more follow. *)
Definition get_blocked_devices (blocker : string) (page page_size : Z) : M (list string * bool) :=
  let limit := Z.min (Z.max page_size 1) 100 in
  let offset := Z.max page 0 * limit in
  rows ← on_db QListBlocks (fun d =>
           (d, take (Z.to_nat (limit + 1))
                 (drop (Z.to_nat offset) (rev (blocked_by d blocker)))));
  mret (take (Z.to_nat limit) rows, limit <? Z.of_nat (length rows)).

(** ** Send permission *)

Definition check_send_permission (caller_device_id target_device_id : string)
    (caller_user_id : option string) : M SendPermission :=
  trust ← trust_level caller_device_id;
  if bool_decide (trust = Banned) then
    _ ← record_violation; mret (denied "Device is banned" 0)
  else
    blocked ← is_blocked target_device_id caller_device_id;
    if (blocked : bool) then
      _ ← record_violation; mret (denied "Recipient has blocked this device" 0)
    else
      device_quota ← consume_msg_quota caller_device_id trust;
      if negb (q_allowed device_quota) then
        _ ← record_violation; mret (denied "Hourly message limit reached" 3600)
      else
        match caller_user_id with
        | Some user_id =>
            if str_is_empty user_id then mret permitted
            else
              user_quota ← consume_user_msg_quota user_id trust;
              if negb (q_allowed user_quota) then
                _ ← record_violation; mret (denied "User hourly message limit reached" 3600)
              else mret permitted
        | None => mret permitted
        end.

Definition check_own_copy_permission (caller_device_id caller_user_id : string)
    : M SendPermission :=
  trust ← trust_level caller_device_id;
  if negb (has_own_copy_window trust) then
    check_send_permission caller_device_id caller_device_id (Some caller_user_id)
  else
    q ← consume_own_copy_quota caller_user_id;
    if negb (q_allowed q) then
      _ ← record_violation;
      mret (denied "Hourly limit on copies to own devices reached" 3600)
    else mret permitted.

(** ** Spam reports *)

Definition must_int (c : cmd) : M Z := must (on_redis (fun r => exec_int r c)).
Definition must_unit (c : cmd) : M unit := must (on_redis (fun r => exec_unit r c)).

Definition report_spam (report_id reporter reported category : string) : M string :=
  report_count ← must_int (INCR (report_rate_key reporter));
  _ ← (if report_count =? 1
       then must_unit (EXPIRE (report_rate_key reporter) REPORTS_WINDOW_TTL) else mret tt);
  if REPORT_RATE_LIMIT <? report_count then throw ReportRateLimited
  else
    _ ← on_db QInsertReport (fun d =>
          ({| device_flags := device_flags d; devices := devices d;
              device_blocks := device_blocks d;
              spam_reports := spam_reports d ++ [(reporter, reported, category)] |}, tt));
    total ← must_int (INCR (reports_key reported));
    _ ← (if total =? 1 then must_unit (EXPIRE (reports_key reported) REPORTS_KEY_TTL)
         else mret tt);
    _ ← must_unit (SADD (reporters_key reported) [reporter]);
    _ ← (if total =? 1 then must_unit (EXPIRE (reporters_key reported) REPORTS_KEY_TTL)
         else mret tt);
    unique_count ← must_int (SCARD (reporters_key reported));
    _ ← (if (AUTO_BAN_REPORTS <=? total) && (MIN_UNIQUE_REPORTERS_FOR_BAN <=? unique_count)
         then set_banned reported "Automatic ban: 5+ spam reports from unique reporters"
         else if (AUTO_FLAG_REPORTS <=? total) && (MIN_UNIQUE_REPORTERS_FOR_FLAG <=? unique_count)
         then set_flagged reported
         else mret tt);
    mret report_id.

End WithClock.
End WithRedis.
Arguments core : clear implicits.

(** ** Sequencing *)

Section Seq.
Context {R : Type} `{Redis R}.

Lemma bind_Ok {A B} (m : M A) (f : A -> M B) (s s' : core R) a :
  m s = (s', Ok a) -> (m ≫= f) s = f a s'.
Proof. intros E. unfold mbind, M_bind. by rewrite E. Qed.

Lemma bind_Err {A B} (m : M A) (f : A -> M B) (s s' : core R) e :
  m s = (s', Err e) -> (m ≫= f) s = (s', Err e).
Proof. intros E. unfold mbind, M_bind. by rewrite E. Qed.

Lemma bind_inv {A B} (m : M A) (f : A -> M B) (s s' : core R) b :
  (m ≫= f) s = (s', Ok b) -> exists s1 a, m s = (s1, Ok a) /\ f a s1 = (s', Ok b).
Proof.
  unfold mbind, M_bind. destruct (m s) as [s1 [a|e]] eqn:E; [|done]. eauto.
Qed.

Lemma on_db_Ok fault {A} q (f : Db -> Db * A) (s : core R) :
  fault q = false ->
  on_db fault q f s =
  ({| db := (f (db s)).1; redis := redis s; limiter := limiter s |}, Ok (f (db s)).2).
Proof. intros Hq. unfold on_db. rewrite Hq. by destruct (f (db s)). Qed.

Lemma core_eta (s : core R) :
  {| db := db s; redis := redis s; limiter := limiter s |} = s.
Proof. by destruct s. Qed.

(** ** During an outage of Redis *)

Context (Down : R -> Prop) (Hout : outage Down).

(** Only the connection moved, and it is still down. *)
Definition down_step (s s' : core R) : Prop :=
  db s' = db s /\ limiter s' = limiter s /\ Down (redis s').

Lemma down_step_trans s1 s2 s3 : down_step s1 s2 -> down_step s2 s3 -> down_step s1 s3.
Proof using Type. unfold down_step. intuition congruence. Qed.

Lemma on_redis_down {A} (run : R -> R * option A) (s : core R) :
  (forall r, Down r -> (run r).2 = None /\ Down (run r).1) -> Down (redis s) ->
  exists s', on_redis run s = (s', Ok None) /\ down_step s s'.
Proof using Type.
  intros Hrun Hd. unfold on_redis. destruct (Hrun _ Hd) as [H1 H2].
  destruct (run (redis s)) as [r o]. cbn in *. subst o. eexists. split; [done|]. done.
Qed.

Lemma exec_int_down c r : Down r -> (exec_int r c).2 = None /\ Down (exec_int r c).1.
Proof using Hout.
  intros Hd. destruct (Hout r c Hd) as [H1 H2]. unfold exec_int.
  destruct (exec r c) as [r' [?|]]; done.
Qed.
Lemma exec_bool_down c r : Down r -> (exec_bool r c).2 = None /\ Down (exec_bool r c).1.
Proof using Hout.
  intros Hd. destruct (Hout r c Hd) as [H1 H2]. unfold exec_bool.
  destruct (exec r c) as [r' [?|]]; done.
Qed.
Lemma exec_unit_down c r : Down r -> (exec_unit r c).2 = None /\ Down (exec_unit r c).1.
Proof using Hout.
  intros Hd. destruct (Hout r c Hd) as [H1 H2]. unfold exec_unit.
  destruct (exec r c) as [r' [?|]]; done.
Qed.

(** The level the tables say: Postgres is the authority. *)
Definition age_level (d : Db) (now_us : Z) (device_id : string) : TrustLevel :=
  match devices d !! device_id with
  | None => New
  | Some ts => level_of_age (num_hours (now_us - ts))
  end.

Definition ban_expired (row : FlagRow) (now_us : Z) : bool :=
  match ban_expires_at row with Some e => e <? now_us | None => false end.

Definition db_level (d : Db) (now_us : Z) (device_id : string) : TrustLevel :=
  match device_flags d !! device_id with
  | Some row =>
      if is_banned row then
        if ban_expired row now_us then age_level d now_us device_id else Banned
      else if is_flagged row then Flagged
      else age_level d now_us device_id
  | None => age_level d now_us device_id
  end.

(** A device whose row still carries a temporary ban that has run out. *)
Definition expired_ban_pending (d : Db) (now_us : Z) (device_id : string) : bool :=
  match device_flags d !! device_id with
  | Some row => is_banned row && ban_expired row now_us
  | None => false
  end.

Definition outage_level (d : Db) (now_us : Z) (device_id : string) : TrustLevel :=
  if expired_ban_pending d now_us device_id then Flagged else db_level d now_us device_id.

Lemma age_based_level_Ok fault now_us device_id (s : core R) :
  fault QDevices = false ->
  age_based_level fault now_us device_id s = (s, Ok (age_level (db s) now_us device_id)).
Proof using Type.
  intros Hq. unfold age_based_level. erewrite bind_Ok by by apply on_db_Ok. cbn [fst snd].
  rewrite core_eta. unfold age_level. by destruct (devices (db s) !! device_id).
Qed.

Ltac redis_down s' Hs' :=
  match goal with
  | Hd : Down (redis ?s) |- context [on_redis ?run ?s] =>
      destruct (on_redis_down run s) as (s' & -> & Hs');
      [eauto using exec_int_down, exec_bool_down, exec_unit_down|exact Hd|]
  end.

Ltac down_done :=
  do 2 eexists; split; [reflexivity|]; split; [eapply down_step_trans; eassumption|done].

Lemma clear_ban_down fault device_id (s : core R) :
  Down (redis s) -> exists s', clear_ban fault device_id s = (s', Err RedisError) /\ down_step s s'.
Proof using Hout.
  intros Hd. unfold clear_ban, must, mbind, M_bind. redis_down s1 Hs1. by exists s1.
Qed.

Lemma trust_level_down fault now_us device_id (s : core R) :
  Down (redis s) -> fault QFlags = false -> fault QDevices = false ->
  exists s', trust_level fault now_us device_id s
             = (s', Ok (outage_level (db s) now_us device_id)) /\ down_step s s'.
Proof using Hout.
  intros Hd Hq1 Hq2. unfold trust_level.
  enough (exists s' r, trust_level_inner fault now_us device_id s = (s', r) /\ down_step s s' /\
    match r with Ok l => l | Err _ => Flagged end = outage_level (db s) now_us device_id) as Hx.
  { destruct Hx as (s' & r & -> & Hs & Hr). exists s'. split; [|done]. destruct r; by rewrite Hr. }
  unfold trust_level_inner, mbind at 1, M_bind at 1. redis_down s1 Hs1. cbn [default from_option].
  destruct Hs1 as (Hb1 & Hl1 & Hd1). unfold mbind at 1, M_bind at 1. redis_down s2 Hs2.
  destruct Hs2 as (Hb2 & Hl2 & Hd2). change (default false None) with false. cbn iota.
  erewrite bind_Ok by by apply on_db_Ok. cbn [fst snd]. rewrite core_eta.
  assert (down_step s s2) as Hs2 by (unfold down_step; intuition congruence).
  unfold outage_level, expired_ban_pending, db_level, ban_expired. rewrite Hb2, Hb1.
  destruct (device_flags (db s) !! device_id) as [row|].
  2:{ rewrite age_based_level_Ok by done. rewrite Hb2, Hb1. eauto. }
  destruct (is_banned row); cbn [andb].
  - destruct (ban_expires_at row) as [e|].
    + destruct (e <? now_us).
      * destruct (clear_ban_down fault device_id s2 Hd2) as (s3 & Hc & Hs3).
        erewrite bind_Err by exact Hc. down_done.
      * unfold mbind, M_bind. redis_down s3 Hs3. down_done.
    + unfold mbind, M_bind. redis_down s3 Hs3. down_done.
  - destruct (is_flagged row).
    + unfold mbind, M_bind. redis_down s3 Hs3. down_done.
    + rewrite age_based_level_Ok by done. rewrite Hb2, Hb1. eauto.
Qed.

Lemma record_violation_down (s : core R) :
  Down (redis s) -> exists s', record_violation s = (s', Ok tt) /\ down_step s s'.
Proof using Hout.
  intros Hd. unfold record_violation, mbind, M_bind. redis_down s1 Hs1.
  destruct (Hs1) as (_ & _ & Hd1). redis_down s2 Hs2. eauto using down_step_trans.
Qed.

Lemma is_blocked_down fault blocker target (s : core R) :
  Down (redis s) ->
  exists s', is_blocked fault blocker target s = (s', Err RedisError) /\ down_step s s'.
Proof using Hout.
  intros Hd. unfold is_blocked, must, mbind, M_bind. redis_down s1 Hs1.
  change (default false None) with false. cbn iota.
  destruct (Hs1) as (_ & _ & Hd1). redis_down s2 Hs2. eauto using down_step_trans.
Qed.

(** The limiter a window is charged to when Redis does not answer. *)
Definition degraded_limiter (l : DegradedLimiter.t) (now_us : Z) : DegradedLimiter.t :=
  if DegradedLimiter.should_skip_redis l (now_ms now_us) then l
  else (DegradedLimiter.record_failure l (now_ms now_us)).1.

Lemma charge_locally_eq now_us key limit ttl (s : core R) :
  charge_locally now_us key limit ttl s =
  let '(l', out) := DegradedLimiter.charge (limiter s) key limit ttl (now_secs now_us) in
  ({| db := db s; redis := redis s; limiter := l' |},
   Ok {| q_allowed := DegradedLimiter.allowed out; q_remaining := None;
         q_limit := limit; q_degraded := true |}).
Proof using Type.
  unfold charge_locally, with_limiter, mbind, M_bind. by destruct (DegradedLimiter.charge _ _ _ _ _).
Qed.

Lemma charge_window_down now_us key limit ttl (s : core R) :
  Down (redis s) -> 0 < limit ->
  let '(l', out) := DegradedLimiter.charge (degraded_limiter (limiter s) now_us) key limit ttl
                      (now_secs now_us) in
  exists s', charge_window now_us key limit ttl s
    = (s', Ok {| q_allowed := DegradedLimiter.allowed out; q_remaining := None;
                 q_limit := limit; q_degraded := true |}) /\
    db s' = db s /\ limiter s' = l' /\ Down (redis s').
Proof using Hout.
  intros Hd Hlim. unfold charge_window. destruct (Z.leb_spec limit 0); [lia|].
  unfold degraded_limiter. erewrite bind_Ok by (unfold with_limiter; reflexivity).
  rewrite core_eta.
  destruct (DegradedLimiter.should_skip_redis (limiter s) (now_ms now_us)).
  - rewrite charge_locally_eq. destruct (DegradedLimiter.charge _ _ _ _ _) as [l' out]. eauto.
  - unfold incr_window, mbind, M_bind. redis_down s1 Hs1. destruct Hs1 as (Hb1 & Hl1 & Hd1).
    unfold with_limiter. rewrite Hl1.
    destruct (DegradedLimiter.record_failure (limiter s) (now_ms now_us)) as [l1 b].
    rewrite charge_locally_eq. cbn [fst limiter db redis].
    destruct (DegradedLimiter.charge l1 _ _ _ _) as [l' out]. eauto.
Qed.

Lemma degraded_limiter_count l now_us h ws :
  DegradedLimiter.wf l ->
  DegradedLimiter.wf (degraded_limiter l now_us) /\
  DegradedLimiter.count_of (degraded_limiter l now_us) h ws = DegradedLimiter.count_of l h ws.
Proof using Type.
  intros Hwf. unfold degraded_limiter. case_match; [done|].
  split; [by apply DegradedLimiter.record_failure_wf|apply DegradedLimiter.record_failure_count].
Qed.

(** One check of a copy to an own device during an outage. *)
Lemma own_copy_down fault now_us dev user (s : core R) c ws :
  Down (redis s) -> fault QFlags = false -> fault QDevices = false ->
  has_own_copy_window (outage_level (db s) now_us dev) = true ->
  DegradedLimiter.wf (limiter s) ->
  DegradedLimiter.window_of MSG_WINDOW_TTL (now_secs now_us) = ws ->
  DegradedLimiter.count_of (limiter s) (DegradedLimiter.fxhash (own_copy_key user)) ws = c ->
  1 <= c < u32_max ->
  exists s' p, check_own_copy_permission fault now_us dev user s = (s', Ok p) /\
    p_allowed p = (c + 1 <=? OWN_COPY_LIMIT_HOUR) /\
    db s' = db s /\ Down (redis s') /\ DegradedLimiter.wf (limiter s') /\
    DegradedLimiter.count_of (limiter s') (DegradedLimiter.fxhash (own_copy_key user)) ws = c + 1.
Proof using Hout.
  intros Hd Hq1 Hq2 Hlev Hwf Hws Hc Hcr. unfold check_own_copy_permission.
  destruct (trust_level_down fault now_us dev s Hd Hq1 Hq2) as (s1 & E1 & Hb1 & Hl1 & Hd1).
  erewrite bind_Ok by exact E1. rewrite Hlev. cbn [negb].
  pose proof (charge_window_down now_us (own_copy_key user) OWN_COPY_LIMIT_HOUR MSG_WINDOW_TTL s1
    Hd1 ltac:(done)) as Hch. rewrite Hl1 in Hch.
  set (h := DegradedLimiter.fxhash (own_copy_key user)) in *.
  destruct (degraded_limiter_count (limiter s) now_us h ws Hwf) as [Hwf' Hc'].
  unfold DegradedLimiter.charge in Hch. fold h in Hch. rewrite Hws in Hch.
  change (OWN_COPY_LIMIT_HOUR <=? 0) with false in Hch. cbn iota in Hch.
  pose proof (DegradedLimiter.charge_hash_same _ h OWN_COPY_LIMIT_HOUR ws Hwf' ltac:(done)) as Hs.
  pose proof (DegradedLimiter.charge_hash_wf _ h OWN_COPY_LIMIT_HOUR ws Hwf') as Hw.
  pose proof (DegradedLimiter.charge_hash_tracked (degraded_limiter (limiter s) now_us) h
    OWN_COPY_LIMIT_HOUR ws ltac:(lia)) as Ht.
  destruct (DegradedLimiter.charge_hash _ h OWN_COPY_LIMIT_HOUR ws) as [l' out].
  cbn [fst snd] in *. rewrite Ht in Hs. destruct Hs as [Ha Hn]. rewrite Hc', Hc in *.
  destruct Hch as (s2 & E2 & Hb2 & Hl2 & Hd2). unfold consume_own_copy_quota.
  erewrite bind_Ok by exact E2. cbn [q_allowed].
  assert (DegradedLimiter.count_of (limiter s2) h ws = c + 1) as Hc2.
  { rewrite Hl2, Hn. unfold saturating_add_u32. lia. }
  destruct (DegradedLimiter.allowed out); cbn [negb].
  - do 2 eexists. split; [reflexivity|]. cbn. split_and!; try congruence.
  - destruct (record_violation_down s2 Hd2) as (s3 & E3 & Hb3 & Hl3 & Hd3).
    erewrite bind_Ok by exact E3. do 2 eexists. split; [reflexivity|]. cbn.
    split_and!; congruence.
Qed.

(** Checks one after the other, each with its own clock. *)
Fixpoint own_copy_run (fault : query -> bool) (dev user : string) (clocks : list Z) (s : core R)
    : core R * list bool :=
  match clocks with
  | [] => (s, [])
  | now :: rest =>
      let '(s1, p) := check_own_copy_permission fault now dev user s in
      let '(s2, ps) := own_copy_run fault dev user rest s1 in
      (s2, (match p with Ok p => p_allowed p | Err _ => false end) :: ps)
  end.

Lemma own_copy_run_down fault dev user clocks (s : core R) c ws :
  Down (redis s) -> fault QFlags = false -> fault QDevices = false ->
  DegradedLimiter.wf (limiter s) ->
  Forall (fun now => has_own_copy_window (outage_level (db s) now dev) = true /\
            DegradedLimiter.window_of MSG_WINDOW_TTL (now_secs now) = ws) clocks ->
  DegradedLimiter.count_of (limiter s) (DegradedLimiter.fxhash (own_copy_key user)) ws = c ->
  1 <= c -> c + Z.of_nat (length clocks) < u32_max ->
  (own_copy_run fault dev user clocks s).2
  = map (fun i => c + Z.of_nat i <=? OWN_COPY_LIMIT_HOUR) (seq 1 (length clocks)).
Proof using Hout.
  intros Hd Hq1 Hq2 Hwf Hall Hc Hc1 Hlen. revert s c Hd Hwf Hall Hc Hc1 Hlen.
  induction clocks as [|now clocks IH]; intros s c Hd Hwf Hall Hc Hc1 Hlen; [done|].
  inversion Hall as [|? ? [Hlev Hws] Hall']; subst x l. cbn [length] in Hlen.
  destruct (own_copy_down fault now dev user s c ws) as (s1 & p & E & Hp & Hb1 & Hd1 & Hwf1 & Hcc);
    auto; [lia|].
  cbn [own_copy_run]. rewrite E. specialize (IH s1 (c + 1) Hd1 Hwf1).
  rewrite Hb1 in IH. specialize (IH Hall' Hcc ltac:(lia) ltac:(lia)).
  destruct (own_copy_run fault dev user clocks s1) as [s2 ps]. cbn [snd] in *. rewrite IH, Hp.
  cbn [length seq map]. f_equal.
  rewrite <- (seq_shift (length clocks) 1), map_map. apply map_ext. intros i. f_equal. lia.
Qed.

End Seq.

(** ** While Redis answers *)

Section Answered.
Context {R : Type} `{RedisLaws R}.

Context (Up : R -> Prop) (Hup : available Up).

(** One charge of a window while Redis answers and the breaker is closed. *)
Lemma charge_window_up now_us key limit ttl (s : core R) c :
  Up (redis s) -> 0 < limit -> 0 < ttl ->
  DegradedLimiter.open_until_ms (limiter s) = 0 ->
  counter (keys (redis s)) key = Some c -> 0 <= c < i64_max ->
  exists s', charge_window now_us key limit ttl s = (s', Ok (quota_outcome (c + 1) limit)) /\
    db s' = db s /\ Up (redis s') /\
    DegradedLimiter.open_until_ms (limiter s') = 0 /\
    counter (keys (redis s')) key = Some (c + 1) /\
    (has_ttl (keys (redis s)) key \/ keys (redis s) !! key = None ->
     has_ttl (keys (redis s')) key).
Proof using Hup.
  intros Hr Hlim Httl Hopen Hc Hrange. unfold charge_window.
  destruct (Z.leb_spec limit 0); [lia|].
  erewrite bind_Ok by (unfold with_limiter; reflexivity). rewrite core_eta.
  assert (forall t, DegradedLimiter.state (limiter s) t = DegradedLimiter.Closed) as Hcl
    by (intros t; unfold DegradedLimiter.state; by rewrite Hopen).
  unfold DegradedLimiter.should_skip_redis. rewrite Hcl, bool_decide_false by done.
  destruct (Hup (redis s) (EVAL (incr_expire key ttl)) Hr) as [Hr' Hsome].
  destruct Hsome as [rep Hrep]; [apply (incr_expire_total _ _ _ c); [done|lia]|].
  destruct (exec (redis s) (EVAL (incr_expire key ttl))) as [r' o] eqn:E. cbn in Hr', Hrep. subst o.
  pose proof (exec_exact _ _ _ _ E eq_refl) as Hd. cbn in Hd.
  destruct (incr_expire_spec _ _ _ _ _ Hd Httl) as (n & -> & _).
  destruct (incr_expire_counter _ _ _ _ _ Hd Httl) as (Hcount & Hkeepttl & _).
  destruct (Hcount c Hc Hrange) as [-> Hc'].
  erewrite bind_Ok by (unfold incr_window, on_redis, exec_int; by rewrite E).
  unfold with_limiter, mbind, M_bind. cbn. rewrite Hcl, bool_decide_true by done.
  eexists. split; [done|]. cbn. auto.
Qed.

(** A run of charges of one window, each with its own clock. *)
Fixpoint charge_run (key : string) (limit ttl : Z) (clocks : list Z) (s : core R)
    : core R * list bool :=
  match clocks with
  | [] => (s, [])
  | now :: rest =>
      let '(s1, q) := charge_window now key limit ttl s in
      let '(s2, qs) := charge_run key limit ttl rest s1 in
      (s2, (match q with Ok q => q_allowed q | Err _ => false end) :: qs)
  end.

Lemma charge_run_up key limit ttl clocks (s : core R) c :
  Up (redis s) -> 0 < limit -> 0 < ttl ->
  DegradedLimiter.open_until_ms (limiter s) = 0 ->
  counter (keys (redis s)) key = Some c -> 0 <= c ->
  c + Z.of_nat (length clocks) < i64_max ->
  let '(s', qs) := charge_run key limit ttl clocks s in
  qs = map (fun i => c + Z.of_nat i <=? limit) (seq 1 (length clocks)) /\
  counter (keys (redis s')) key = Some (c + Z.of_nat (length clocks)) /\
  (clocks <> [] -> has_ttl (keys (redis s)) key \/ keys (redis s) !! key = None ->
   has_ttl (keys (redis s')) key).
Proof using Hup.
  revert s c. induction clocks as [|now clocks IH]; intros s c Hr Hlim Httl Hop Hc Hc0 Hlen.
  - cbn. rewrite Z.add_0_r. split; [done|]. split; [done|]. done.
  - cbn [length] in Hlen. cbn [charge_run].
    destruct (charge_window_up now key limit ttl s c) as (s1 & -> & _ & Hr1 & Hop1 & Hc1 & Ht1);
      auto; [lia|].
    specialize (IH s1 (c + 1) Hr1 Hlim Httl Hop1 Hc1).
    destruct (charge_run key limit ttl clocks s1) as [s2 qs] eqn:E.
    destruct IH as (-> & Hc2 & Ht2); [lia|lia|]. cbn [length map seq]. split_and!.
    + f_equal; [cbn [quota_outcome q_allowed]; destruct (Z.ltb_spec 0 limit); [done|lia]|].
      rewrite <- (seq_shift (length clocks) 1), map_map. apply map_ext. intros i. f_equal. lia.
    + rewrite Hc2. f_equal. lia.
    + intros _ Ht. destruct clocks as [|now' clocks]; [|apply Ht2; auto; left; by apply Ht1].
      cbn in E. injection E as <-. by apply Ht1.
Qed.

(** ** The block cache *)

(** A cached block list is the one the table has. *)
Definition cache_coherent (s : core R) : Prop :=
  forall b e, keys (redis s) !! blocks_key b = Some e ->
    e_val e = VSet (list_to_set (blocked_by (db s) b)).

Lemma blocks_key_inj a b : blocks_key a = blocks_key b -> a = b.
Proof. unfold blocks_key. intros E. by simplify_eq/=. Qed.

Lemma exec_up r c ks' rep :
  Up r -> exact_answer c = true -> cmd_doc c (keys r) = Some (ks', rep) ->
  exists r', exec r c = (r', Some rep) /\ keys r' = ks' /\ Up r'.
Proof using Hup. by apply available_exact. Qed.

Lemma on_redis_up {A} (run : R -> R * option A) r' a (s : core R) :
  run (redis s) = (r', Some a) ->
  on_redis run s = ({| db := db s; redis := r'; limiter := limiter s |}, Ok (Some a)).
Proof using Type. intros E. unfold on_redis. by rewrite E. Qed.

Lemma must_up {A} (run : R -> R * option A) r' a (s : core R) :
  run (redis s) = (r', Some a) ->
  must (on_redis run) s = ({| db := db s; redis := r'; limiter := limiter s |}, Ok a).
Proof using Type. intros E. unfold must. by erewrite bind_Ok by by apply on_redis_up. Qed.

(** Writing a block list to the cache: the members, then the time to live. An
    empty list leaves no key, since [EXPIRE] of an absent key does nothing. *)
Definition cache_rows (k : string) (rows : list string) : M (R := R) unit :=
  _ ← match rows with
      | [] => mret tt
      | _ => must (on_redis (fun r => exec_unit r (SADD k rows)))
      end;
  must (on_redis (fun r => exec_unit r (EXPIRE k BLOCKS_CACHE_TTL))).

Lemma M_bind_assoc {A B C} (m : M (R := R) A) (f : A -> M B) (g : B -> M C) s s' b :
  (m ≫= f) s = (s', Ok b) -> (m ≫= (fun a => f a ≫= g)) s = g b s'.
Proof using Type.
  intros E. unfold mbind, M_bind in *. destruct (m s) as [s1 [a|e]]; [|done]. by rewrite E.
Qed.

Lemma cache_rows_up k rows (s : core R) :
  Up (redis s) -> keys (redis s) !! k = None ->
  exists s', cache_rows k rows s = (s', Ok tt) /\ Up (redis s') /\
    db s' = db s /\ limiter s' = limiter s /\
    (rows = [] /\ keys (redis s') = keys (redis s) \/
     keys (redis s') = <[k := Entry (VSet (list_to_set rows)) (Some BLOCKS_CACHE_TTL)]>
                         (keys (redis s))).
Proof using Hup.
  intros Hr Hk. unfold cache_rows. destruct rows as [|x rows].
  - erewrite bind_Ok by reflexivity.
    destruct (exec_up (redis s) (EXPIRE k BLOCKS_CACHE_TTL) (keys (redis s)) (RInt 0))
      as (r1 & E1 & Hk1 & Hr1); [done..|cbn; unfold doc_expire; by rewrite Hk|].
    eexists. split; [apply must_up; unfold exec_unit; rewrite E1; reflexivity|]. cbn. auto 6.
  - edestruct (exec_up (redis s) (SADD k (x :: rows))) as (r1 & E1 & Hk1 & Hr1);
      [done..|cbn [cmd_doc]; unfold as_set; rewrite Hk; reflexivity|].
    unfold set_val in Hk1. rewrite Hk, union_empty_r_L in Hk1.
    erewrite bind_Ok by (apply must_up; unfold exec_unit; rewrite E1; reflexivity).
    edestruct (exec_up r1 (EXPIRE k BLOCKS_CACHE_TTL)) as (r2 & E2 & Hk2 & Hr2);
      [done..|cbn [cmd_doc]; unfold doc_expire; rewrite Hk1, lookup_insert_eq; reflexivity|].
    eexists. split; [apply must_up; cbn [redis]; unfold exec_unit; rewrite E2; reflexivity|].
    cbn [redis db limiter]. split_and!; auto. right. rewrite Hk2. cbn. by rewrite insert_insert_eq.
Qed.

(** [is_blocked] while Redis answers and the cache is coherent: it answers what
    the table says, keeps the cache coherent, and leaves the table and the
    limiter alone. *)
Lemma is_blocked_up fault blocker target (s : core R) :
  Up (redis s) -> cache_coherent s -> fault QBlocks = false ->
  exists s', is_blocked fault blocker target s
             = (s', Ok (bool_decide (target ∈ blocked_by (db s) blocker))) /\
    Up (redis s') /\ cache_coherent s' /\ db s' = db s /\ limiter s' = limiter s.
Proof using Hup.
  intros Hr Hco Hq. unfold is_blocked. set (k := blocks_key blocker).
  set (rows := blocked_by (db s) blocker).
  destruct (keys (redis s) !! k) as [[v t]|] eqn:Hk.
  - pose proof (Hco _ _ Hk) as Hv. cbn in Hv. subst v. fold rows in Hk.
    destruct (exec_up (redis s) (SISMEMBER k target) (keys (redis s))
      (RInt (if bool_decide (target ∈ (list_to_set rows : gset string)) then 1 else 0)))
      as (r1 & E1 & Hk1 & Hr1); [done..|cbn; unfold as_set; by rewrite Hk|].
    erewrite bind_Ok by (apply on_redis_up; unfold exec_bool; rewrite E1; reflexivity).
    case_bool_decide as Hin; rewrite elem_of_list_to_set in Hin; cbn.
    + rewrite bool_decide_true by done. eexists. split; [reflexivity|]. cbn.
      split_and!; auto. intros b e He. cbn in *. rewrite Hk1 in He. by apply Hco.
    + rewrite bool_decide_false by done.
      destruct (exec_up r1 (EXISTS k) (keys r1) (RInt 1)) as (r2 & E2 & Hk2 & Hr2);
        [done..|cbn; by rewrite Hk1, Hk|].
      erewrite bind_Ok by (apply must_up; cbn; unfold exec_bool; rewrite E2; reflexivity).
      cbn. eexists. split; [reflexivity|]. cbn. split_and!; auto.
      intros b e He. cbn in *. rewrite Hk2, Hk1 in He. by apply Hco.
  - destruct (exec_up (redis s) (SISMEMBER k target) (keys (redis s)) (RInt 0))
      as (r1 & E1 & Hk1 & Hr1); [done..|cbn; unfold as_set; by rewrite Hk|].
    erewrite bind_Ok by (apply on_redis_up; unfold exec_bool; rewrite E1; reflexivity). cbn.
    destruct (exec_up r1 (EXISTS k) (keys r1) (RInt 0)) as (r2 & E2 & Hk2 & Hr2);
      [done..|cbn; by rewrite Hk1, Hk|].
    erewrite bind_Ok by (apply must_up; cbn; unfold exec_bool; rewrite E2; reflexivity). cbn.
    erewrite bind_Ok by by apply on_db_Ok. cbn [fst snd]. fold rows.
    destruct (cache_rows_up k rows {| db := db s; redis := r2; limiter := limiter s |})
      as (s4 & E4 & Hr4 & Hb4 & Hl4 & Hk4); [done|cbn; congruence|].
    unfold cache_rows in E4. rewrite (M_bind_assoc _ _ _ _ _ _ E4).
    eexists. split; [reflexivity|]. split_and!; auto.
    intros b e He. rewrite Hb4. cbn in Hk4. destruct Hk4 as [[_ Hk4]|Hk4]; rewrite Hk4 in He.
    + rewrite Hk2, Hk1 in He. by apply Hco.
    + destruct (decide (b = blocker)) as [->|Hne].
      * fold k in He. rewrite lookup_insert_eq in He. by injection He as <-.
      * rewrite lookup_insert_ne in He by by intros ?%blocks_key_inj.
        rewrite Hk2, Hk1 in He. by apply Hco.
Qed.

(** Dropping a blocker's cached list after changing only that blocker's rows. *)
Lemma invalidate_up blocker (s : core R) (d0 : Db) :
  Up (redis s) ->
  (forall b e, b <> blocker -> keys (redis s) !! blocks_key b = Some e ->
     e_val e = VSet (list_to_set (blocked_by d0 b))) ->
  (forall b, b <> blocker -> blocked_by (db s) b = blocked_by d0 b) ->
  exists s', invalidate_block_cache blocker s = (s', Ok tt) /\
    Up (redis s') /\ cache_coherent s' /\ db s' = db s /\ limiter s' = limiter s.
Proof using Hup.
  intros Hr Hold Hsame. unfold invalidate_block_cache.
  edestruct (exec_up (redis s) (DEL (blocks_key blocker))) as (r1 & E1 & Hk1 & Hr1); [done..|].
  erewrite bind_Ok by (apply on_redis_up; unfold exec_unit; rewrite E1; reflexivity).
  eexists. split; [reflexivity|]. cbn. split_and!; auto.
  intros b e He. cbn in *. rewrite Hk1 in He.
  destruct (decide (b = blocker)) as [->|Hne]; [by rewrite lookup_delete_eq in He|].
  rewrite lookup_delete_ne in He by by intros ?%blocks_key_inj. rewrite Hsame by done.
  by apply Hold.
Qed.

Lemma blocked_by_spec d b x : x ∈ blocked_by d b <-> (b, x) ∈ device_blocks d.
Proof using Type.
  unfold blocked_by. rewrite list_elem_of_In, in_map_iff, list_elem_of_In. split.
  - intros ([b' x'] & <- & [Hin Hb]%List.filter_In). cbn in Hb.
    apply bool_decide_eq_true in Hb. by subst.
  - intros Hin. exists (b, x). split; [done|]. apply List.filter_In. split; [done|].
    by apply bool_decide_eq_true.
Qed.

Lemma block_device_up fault blocker blocked (s : core R) :
  Up (redis s) -> cache_coherent s -> fault QInsertBlock = false ->
  exists s', block_device fault blocker blocked s = (s', Ok tt) /\
    Up (redis s') /\ cache_coherent s' /\ limiter s' = limiter s /\
    (forall b x, x ∈ blocked_by (db s') b <->
                 x ∈ blocked_by (db s) b \/ (b = blocker /\ x = blocked)).
Proof using Hup.
  intros Hr Hco Hq. unfold block_device.
  set (l := insert_block blocker blocked (device_blocks (db s))).
  erewrite bind_Ok by by apply on_db_Ok. cbn [fst snd]. fold l.
  assert (forall b x, x ∈ blocked_by (with_blocks (db s) l) b <->
                      x ∈ blocked_by (db s) b \/ (b = blocker /\ x = blocked)) as Hl.
  { intros b x. rewrite !blocked_by_spec. cbn. unfold l, insert_block. case_bool_decide as Hin.
    - split; [tauto|]. intros [?|[-> ->]]; done.
    - rewrite elem_of_app, list_elem_of_singleton. intuition congruence. }
  edestruct (invalidate_up blocker {| db := with_blocks (db s) l; redis := redis s;
    limiter := limiter s |} (db s)) as (s' & E & Hr' & Hco' & Hb' & Hl'); [done| | |].
  - intros b e _ He. by apply Hco.
  - intros b Hne. unfold blocked_by. cbn. unfold l, insert_block. case_bool_decide; [done|].
    rewrite List.filter_app. cbn [List.filter fst]. rewrite bool_decide_false by done.
    by rewrite app_nil_r.
  - exists s'. split_and!; auto. intros b x. rewrite Hb'. apply Hl.
Qed.

Lemma delete_block_other blocker blocked b (bs : list (string * string)) :
  b <> blocker ->
  List.filter (fun p => bool_decide (fst p = b)) (delete_block blocker blocked bs)
  = List.filter (fun p => bool_decide (fst p = b)) bs.
Proof using Type.
  intros Hne. unfold delete_block. induction bs as [|[b' x'] bs IH]; [done|]. cbn [List.filter].
  destruct (decide ((b', x') = (blocker, blocked))) as [Heq|Hneq].
  - rewrite (bool_decide_true _ Heq). cbn [negb fst]. injection Heq as -> ->.
    by rewrite (bool_decide_false (blocker = b)) by congruence.
  - rewrite (bool_decide_false _ Hneq). cbn. case_bool_decide; by rewrite IH.
Qed.

Lemma unblock_device_up fault blocker blocked (s : core R) :
  Up (redis s) -> cache_coherent s -> fault QDeleteBlock = false ->
  exists s', unblock_device fault blocker blocked s = (s', Ok tt) /\
    Up (redis s') /\ cache_coherent s' /\ limiter s' = limiter s /\
    (forall b x, x ∈ blocked_by (db s') b <->
                 x ∈ blocked_by (db s) b /\ ~ (b = blocker /\ x = blocked)).
Proof using Hup.
  intros Hr Hco Hq. unfold unblock_device.
  set (l := delete_block blocker blocked (device_blocks (db s))).
  erewrite bind_Ok by by apply on_db_Ok. cbn [fst snd]. fold l.
  assert (forall b x, x ∈ blocked_by (with_blocks (db s) l) b <->
                      x ∈ blocked_by (db s) b /\ ~ (b = blocker /\ x = blocked)) as Hl.
  { intros b x. rewrite !blocked_by_spec. cbn. unfold l, delete_block.
    rewrite !list_elem_of_In, List.filter_In, negb_true_iff, bool_decide_eq_false.
    split; intros [? Hn]; (split; [done|]); [intros [-> ->]; done|].
    intros [= -> ->]. by apply Hn. }
  edestruct (invalidate_up blocker {| db := with_blocks (db s) l; redis := redis s;
    limiter := limiter s |} (db s)) as (s' & E & Hr' & Hco' & Hb' & Hl'); [done| | |].
  - intros b e _ He. by apply Hco.
  - intros b Hne. unfold blocked_by. cbn. f_equal. by apply delete_block_other.
  - exists s'. split_and!; auto. intros b x. rewrite Hb'. apply Hl.
Qed.


(** ** Spam reports *)

Lemma must_unit_up c (s : core R) ks' rep :
  Up (redis s) -> exact_answer c = true ->
  cmd_doc c (keys (redis s)) = Some (ks', rep) ->
  exists r', must_unit c s = ({| db := db s; redis := r'; limiter := limiter s |}, Ok tt) /\
    keys r' = ks' /\ Up r'.
Proof using Hup.
  intros Hr Hc Hd. destruct (exec_up _ _ _ _ Hr Hc Hd) as (r' & E & Hk & Hr').
  exists r'. split; [|done]. apply must_up. unfold exec_unit. by rewrite E.
Qed.

Lemma must_int_up c (s : core R) ks' n :
  Up (redis s) -> exact_answer c = true ->
  cmd_doc c (keys (redis s)) = Some (ks', RInt n) ->
  exists r', must_int c s = ({| db := db s; redis := r'; limiter := limiter s |}, Ok n) /\
    keys r' = ks' /\ Up r'.
Proof using Hup.
  intros Hr Hc Hd. destruct (exec_up _ _ _ _ Hr Hc Hd) as (r' & E & Hk & Hr').
  exists r'. split; [|done]. apply must_up. unfold exec_int. by rewrite E.
Qed.

Definition only_key (k : string) (ks ks' : keyspace) : Prop :=
  forall j, j <> k -> ks' !! j = ks !! j.

Lemma incr_up k c (s : core R) :
  Up (redis s) -> counter (keys (redis s)) k = Some c -> 0 <= c < i64_max ->
  exists r', must_int (INCR k) s
             = ({| db := db s; redis := r'; limiter := limiter s |}, Ok (c + 1)) /\
    only_key k (keys (redis s)) (keys r') /\ counter (keys r') k = Some (c + 1) /\ Up r'.
Proof using Hup.
  intros Hr Hc Hrange.
  edestruct (must_int_up (INCR k)) as (r' & E & Hk & Hr'); [exact Hr|done| |].
  - cbn. unfold doc_incr. unfold counter in Hc. rewrite Hc.
    destruct (Z.leb_spec i64_max c); [lia|]. reflexivity.
  - exists r'. rewrite E, Hk. split_and!; auto.
    + intros j Hj. unfold set_val. by rewrite lookup_insert_ne.
    + unfold counter, set_val. rewrite lookup_insert_eq. apply parse_i64_to_string.
      unfold in_i64, i64_min, i64_max in *. lia.
Qed.

(** A key's value, its time to live apart. *)
Definition val_at (ks : keyspace) (k : string) : option value := option_map e_val (ks !! k).

Lemma val_at_counter ks ks' k : val_at ks' k = val_at ks k -> counter ks' k = counter ks k.
Proof using Type.
  unfold val_at, counter. intros E.
  destruct (ks !! k) as [[? ?]|], (ks' !! k) as [[? ?]|]; by simplify_eq/=.
Qed.

Lemma val_at_set ks ks' k : val_at ks' k = val_at ks k -> as_set ks' k = as_set ks k.
Proof using Type.
  unfold val_at, as_set. intros E.
  destruct (ks !! k) as [[? ?]|], (ks' !! k) as [[? ?]|]; by simplify_eq/=.
Qed.

Lemma only_key_val k ks ks' j : only_key k ks ks' -> j <> k -> val_at ks' j = val_at ks j.
Proof using Type. intros Ho Hj. unfold val_at. by rewrite Ho. Qed.

(** Setting a time to live changes neither what a key counts nor its members. *)
Lemma expire_up (b : bool) k ttl (s : core R) :
  Up (redis s) -> 0 < ttl ->
  exists r', (if b then must_unit (EXPIRE k ttl) else mret tt) s
             = ({| db := db s; redis := r'; limiter := limiter s |}, Ok tt) /\
    (forall j, val_at (keys r') j = val_at (keys (redis s)) j) /\ Up r'.
Proof using Hup.
  intros Hr Httl. destruct b.
  - edestruct (must_unit_up (EXPIRE k ttl)) as (r' & E & Hk & Hr'); [exact Hr|done| |].
    { cbn [cmd_doc]. by rewrite (surjective_pairing (doc_expire _ _ _)). }
    exists r'. split_and!; auto. intros j. rewrite Hk. unfold val_at, doc_expire.
    destruct (keys (redis s) !! k) as [e|] eqn:He; [|done]. destruct (Z.leb_spec ttl 0); [lia|].
    cbn. destruct (decide (j = k)) as [->|]; [by rewrite lookup_insert_eq, He|].
    by rewrite lookup_insert_ne.
  - exists (redis s). rewrite core_eta. by split_and!.
Qed.

(** What the thresholds decide on [total] reports by [unique] reporters. *)
Inductive verdict := VNone | VFlag | VBan.

Definition spam_verdict (total unique : Z) : verdict :=
  if (AUTO_BAN_REPORTS <=? total) && (MIN_UNIQUE_REPORTERS_FOR_BAN <=? unique) then VBan
  else if (AUTO_FLAG_REPORTS <=? total) && (MIN_UNIQUE_REPORTERS_FOR_FLAG <=? unique) then VFlag
  else VNone.

Definition with_report (d : Db) (r : string * string * string) : Db :=
  {| device_flags := device_flags d; devices := devices d; device_blocks := device_blocks d;
     spam_reports := spam_reports d ++ [r] |}.

(** The verdict in the table of flags, and in Redis. *)
Definition verdict_row (v : verdict) (old new : option FlagRow) : Prop :=
  match v with
  | VNone => new = old
  | VFlag => exists row, new = Some row /\ is_flagged row = true /\
               is_banned row = from_option is_banned false old
  | VBan => exists row, new = Some row /\ is_banned row = true /\
               is_flagged row = from_option is_flagged false old
  end.

Definition verdict_key (v : verdict) (device_id : string) (ks : keyspace) : Prop :=
  match v with
  | VNone => True
  | VFlag => ks !! flag_key device_id = Some (Entry (VStr "1") (Some BAN_FLAG_TTL))
  | VBan => ks !! ban_key device_id = Some (Entry (VStr "1") (Some BAN_FLAG_TTL))
  end.

Definition apply_verdict (fault : query -> bool) (now_us : Z) (v : verdict) (reported : string)
    : M (R := R) unit :=
  match v with
  | VBan => set_banned fault now_us reported "Automatic ban: 5+ spam reports from unique reporters"
  | VFlag => set_flagged fault now_us reported
  | VNone => mret tt
  end.

Lemma apply_verdict_up fault now_us v reported (s : core R) :
  Up (redis s) -> fault QSetBan = false -> fault QSetFlag = false ->
  exists s', apply_verdict fault now_us v reported s = (s', Ok tt) /\ Up (redis s') /\
    limiter s' = limiter s /\ spam_reports (db s') = spam_reports (db s) /\
    verdict_row v (device_flags (db s) !! reported) (device_flags (db s') !! reported) /\
    (forall d, d <> reported -> device_flags (db s') !! d = device_flags (db s) !! d) /\
    verdict_key v reported (keys (redis s')).
Proof using Hup.
  intros Hr Hb Hf. destruct v; cbn [apply_verdict].
  - exists s. by split_and!.
  - edestruct (must_unit_up (SETEX (flag_key reported) "1" BAN_FLAG_TTL)) as (r' & E & Hk & Hr');
      [exact Hr|done|reflexivity|]. unfold set_flagged. erewrite bind_Ok by exact E.
    rewrite on_db_Ok by done. eexists. split; [reflexivity|]. cbn. rewrite Hk.
    split_and!; auto.
    + rewrite lookup_insert_eq. eexists. split; [done|]. cbn.
      by destruct (device_flags (db s) !! reported).
    + intros d Hd. by rewrite lookup_insert_ne.
    + by rewrite lookup_insert_eq.
  - edestruct (must_unit_up (SETEX (ban_key reported) "1" BAN_FLAG_TTL)) as (r' & E & Hk & Hr');
      [exact Hr|done|reflexivity|]. unfold set_banned. erewrite bind_Ok by exact E.
    rewrite on_db_Ok by done. eexists. split; [reflexivity|]. cbn. rewrite Hk.
    split_and!; auto.
    + rewrite lookup_insert_eq. eexists. split; [done|]. cbn.
      by destruct (device_flags (db s) !! reported).
    + intros d Hd. by rewrite lookup_insert_ne.
    + by rewrite lookup_insert_eq.
Qed.

(** The counting half of a report: the totals it reads are the ones before it,
    with this report and this reporter added. *)
Definition count_report (reporter reported : string) : M (R := R) (Z * Z) :=
  total ← must_int (INCR (reports_key reported));
  _ ← (if total =? 1 then must_unit (EXPIRE (reports_key reported) REPORTS_KEY_TTL) else mret tt);
  _ ← must_unit (SADD (reporters_key reported) [reporter]);
  _ ← (if total =? 1 then must_unit (EXPIRE (reporters_key reported) REPORTS_KEY_TTL)
       else mret tt);
  unique_count ← must_int (SCARD (reporters_key reported));
  mret (total, unique_count).

Lemma count_report_up reporter reported t m (s : core R) :
  Up (redis s) -> counter (keys (redis s)) (reports_key reported) = Some t -> 0 <= t < i64_max ->
  as_set (keys (redis s)) (reporters_key reported) = Some m ->
  exists r', count_report reporter reported s
    = ({| db := db s; redis := r'; limiter := limiter s |},
       Ok (t + 1, Z.of_nat (size ({[reporter]} ∪ m)))) /\ Up r' /\
    counter (keys r') (reports_key reported) = Some (t + 1) /\
    as_set (keys r') (reporters_key reported) = Some ({[reporter]} ∪ m).
Proof using Hup.
  intros Hr Ht Hrange Hm. unfold count_report.
  assert (reporters_key reported <> reports_key reported) as Hne by done.
  destruct (incr_up _ _ _ Hr Ht Hrange) as (r1 & E1 & Ho1 & Hc1 & Hr1).
  erewrite bind_Ok by exact E1.
  destruct (expire_up (t + 1 =? 1) (reports_key reported) REPORTS_KEY_TTL
    {| db := db s; redis := r1; limiter := limiter s |}) as (r2 & E2 & Hv2 & Hr2); [done..|].
  erewrite bind_Ok by exact E2. cbn [db redis limiter] in *.
  assert (as_set (keys r2) (reporters_key reported) = Some m) as Hm2.
  { rewrite <- Hm. apply val_at_set. rewrite Hv2. by apply (only_key_val (reports_key reported)). }
  edestruct (must_unit_up (SADD (reporters_key reported) [reporter])
    {| db := db s; redis := r2; limiter := limiter s |})
    as (r3 & E3 & Hk3 & Hr3); [done|done|cbn [cmd_doc redis]; rewrite Hm2; reflexivity|].
  erewrite bind_Ok by exact E3. cbn [db redis limiter] in *.
  destruct (expire_up (t + 1 =? 1) (reporters_key reported) REPORTS_KEY_TTL
    {| db := db s; redis := r3; limiter := limiter s |}) as (r4 & E4 & Hv4 & Hr4); [done..|].
  erewrite bind_Ok by exact E4. cbn [db redis limiter] in *.
  assert (as_set (keys r4) (reporters_key reported) = Some ({[reporter]} ∪ m)) as Hm4.
  { erewrite val_at_set by apply Hv4. rewrite Hk3. unfold as_set, set_val.
    rewrite lookup_insert_eq. cbn. by rewrite (right_id_L ∅ (∪)). }
  edestruct (must_int_up (SCARD (reporters_key reported))
    {| db := db s; redis := r4; limiter := limiter s |})
    as (r5 & E5 & Hk5 & Hr5); [done|done|cbn [cmd_doc redis]; rewrite Hm4; reflexivity|].
  erewrite bind_Ok by exact E5. cbn [db redis limiter]. exists r5. rewrite Hk5. split_and!; auto.
  rewrite <- Hc1. apply val_at_counter. rewrite Hv4, Hk3, <- Hv2.
  apply (only_key_val (reporters_key reported)); [|done].
  intros j Hj. unfold set_val. by rewrite lookup_insert_ne.
Qed.

(** A report that is not rate limited is recorded, counted and judged. *)
Lemma report_spam_tail fault now_us (report_id reporter reported : string) (s s' : core R) t u :
  count_report reporter reported s = (s', Ok (t, u)) ->
  (total ← must_int (INCR (reports_key reported));
   _ ← (if total =? 1 then must_unit (EXPIRE (reports_key reported) REPORTS_KEY_TTL)
        else mret tt);
   _ ← must_unit (SADD (reporters_key reported) [reporter]);
   _ ← (if total =? 1 then must_unit (EXPIRE (reporters_key reported) REPORTS_KEY_TTL)
        else mret tt);
   unique_count ← must_int (SCARD (reporters_key reported));
   _ ← (if (AUTO_BAN_REPORTS <=? total) && (MIN_UNIQUE_REPORTERS_FOR_BAN <=? unique_count)
        then set_banned fault now_us reported
               "Automatic ban: 5+ spam reports from unique reporters"
        else if (AUTO_FLAG_REPORTS <=? total) && (MIN_UNIQUE_REPORTERS_FOR_FLAG <=? unique_count)
        then set_flagged fault now_us reported
        else mret tt);
   mret report_id) s
  = (_ ← apply_verdict fault now_us (spam_verdict t u) reported; mret report_id) s'.
Proof using Type.
  intros E. unfold count_report in E.
  apply bind_inv in E as (s1 & n & E1 & E). erewrite bind_Ok by exact E1.
  apply bind_inv in E as (s2 & [] & E2 & E). erewrite bind_Ok by exact E2.
  apply bind_inv in E as (s3 & [] & E3 & E). erewrite bind_Ok by exact E3.
  apply bind_inv in E as (s4 & [] & E4 & E). erewrite bind_Ok by exact E4.
  apply bind_inv in E as (s5 & k & E5 & E). erewrite bind_Ok by exact E5.
  injection E as -> -> ->. unfold spam_verdict.
  destruct ((AUTO_BAN_REPORTS <=? t) && _); [done|]. by destruct ((AUTO_FLAG_REPORTS <=? t) && _).
Qed.

Lemma report_spam_up fault now_us report_id reporter reported category (s : core R) c t m :
  Up (redis s) -> fault QInsertReport = false -> fault QSetBan = false ->
  fault QSetFlag = false ->
  counter (keys (redis s)) (report_rate_key reporter) = Some c -> 0 <= c < REPORT_RATE_LIMIT ->
  counter (keys (redis s)) (reports_key reported) = Some t -> 0 <= t < i64_max ->
  as_set (keys (redis s)) (reporters_key reported) = Some m ->
  let v := spam_verdict (t + 1) (Z.of_nat (size ({[reporter]} ∪ m))) in
  exists s', report_spam fault now_us report_id reporter reported category s
             = (s', Ok report_id) /\
    Up (redis s') /\
    spam_reports (db s') = spam_reports (db s) ++ [(reporter, reported, category)] /\
    verdict_row v (device_flags (db s) !! reported) (device_flags (db s') !! reported) /\
    (forall d, d <> reported -> device_flags (db s') !! d = device_flags (db s) !! d) /\
    verdict_key v reported (keys (redis s')).
Proof using Hup.
  intros Hr Hq1 Hq2 Hq3 Hc Hcr Ht Htr Hm v. unfold report_spam.
  assert (reports_key reported <> report_rate_key reporter) as Hne1 by done.
  assert (reporters_key reported <> report_rate_key reporter) as Hne2 by done.
  unfold REPORT_RATE_LIMIT in Hcr.
  destruct (incr_up _ _ _ Hr Hc) as (r1 & E1 & Ho1 & _ & Hr1); [unfold i64_max; lia|].
  erewrite bind_Ok by exact E1.
  destruct (expire_up (c + 1 =? 1) (report_rate_key reporter) REPORTS_WINDOW_TTL
    {| db := db s; redis := r1; limiter := limiter s |}) as (r2 & E2 & Hv2 & Hr2); [done..|].
  erewrite bind_Ok by exact E2. cbn [db redis limiter] in *.
  destruct (Z.ltb_spec REPORT_RATE_LIMIT (c + 1)); [unfold REPORT_RATE_LIMIT in *; lia|].
  erewrite bind_Ok by by apply on_db_Ok. cbn [fst snd db redis limiter].
  set (d1 := {| device_flags := device_flags (db s); devices := _; device_blocks := _;
                spam_reports := _ |}).
  destruct (count_report_up reporter reported t m
    {| db := d1; redis := r2; limiter := limiter s |}) as (r3 & E3 & Hr3 & _);
    [done| |done| |].
  { rewrite <- Ht. apply val_at_counter. cbn. rewrite Hv2. by apply (only_key_val _ _ _ _ Ho1). }
  { rewrite <- Hm. apply val_at_set. cbn. rewrite Hv2. by apply (only_key_val _ _ _ _ Ho1). }
  rewrite (report_spam_tail fault now_us report_id reporter reported _ _ _ _ E3).
  destruct (apply_verdict_up fault now_us v reported
    {| db := d1; redis := r3; limiter := limiter s |}) as (s' & E & Hr' & _ & Hrep & Hrow & Hoth & Hkey);
    [done..|].
  erewrite bind_Ok by exact E. exists s'. split_and!; auto.
Qed.

Lemma report_spam_limited fault now_us report_id reporter reported category (s : core R) c :
  Up (redis s) ->
  counter (keys (redis s)) (report_rate_key reporter) = Some c -> REPORT_RATE_LIMIT <= c < i64_max ->
  exists s', report_spam fault now_us report_id reporter reported category s
             = (s', Err ReportRateLimited) /\ db s' = db s.
Proof using Hup.
  intros Hr Hc Hcr. unfold report_spam, REPORT_RATE_LIMIT in *.
  destruct (incr_up _ _ _ Hr Hc) as (r1 & E1 & _ & _ & Hr1); [lia|].
  erewrite bind_Ok by exact E1. destruct (Z.eqb_spec (c + 1) 1); [lia|].
  erewrite bind_Ok by reflexivity. destruct (Z.ltb_spec 10 (c + 1)); [|lia].
  eexists. by split.
Qed.

End Answered.

(** ** Pages of the block list *)

Lemma take_pages {A} (n lim : nat) (l : list A) :
  concat (map (fun i => take lim (drop (i * lim) l)) (seq 0 n)) = take (n * lim) l.
Proof.
  induction n as [|n IH]; [done|].
  rewrite seq_S, map_app, concat_app, IH. cbn [map concat Nat.add]. rewrite app_nil_r.
  rewrite Nat.mul_succ_l. apply take_take_drop.
Qed.

(** ** Properties *)

Section Properties.
Context {R : Type} `{RedisLaws R}.

(** the hourly message ceiling. While Redis answers and the breaker is closed,
    charging a device's hourly window [n] times, at any clocks, from a counter at
    [c], admits exactly the smaller of [n] and what is left of the level's limit;
    the counter ends at [c + n], so refused messages are counted too; and the
    window's key has a time to live afterwards, unless it was already there
    without one. *)
Theorem hourly_ceiling (Up : R -> Prop) (s : core R) device_id trust clocks c
  (Hup : available Up) (Hr : Up (redis s)) (Htrust : 0 < msg_limit_hour trust)
  (Hclosed : DegradedLimiter.open_until_ms (limiter s) = 0)
  (Hc : counter (keys (redis s)) (msg_key device_id) = Some c) (Hc0 : 0 <= c)
  (Hlen : c + Z.of_nat (length clocks) < i64_max) :
  let limit := msg_limit_hour trust in
  let '(s', qs) := charge_run (msg_key device_id) limit MSG_WINDOW_TTL clocks s in
  count_true qs = Z.min (Z.of_nat (length clocks)) (Z.max 0 (limit - c)) /\
  counter (keys (redis s')) (msg_key device_id) = Some (c + Z.of_nat (length clocks)) /\
  (clocks <> [] ->
   has_ttl (keys (redis s)) (msg_key device_id) \/ keys (redis s) !! msg_key device_id = None ->
   has_ttl (keys (redis s')) (msg_key device_id)).
Proof.
  intros limit. pose proof (charge_run_up Up Hup (msg_key device_id) limit MSG_WINDOW_TTL clocks s c
    Hr Htrust ltac:(done) Hclosed Hc Hc0 Hlen) as Hrun.
  destruct (charge_run _ _ _ _ _) as [s' qs]. destruct Hrun as (-> & Hcount & Httl).
  split_and!; auto. rewrite count_true_threshold by auto. unfold limit. lia.
Qed.

(** the trust level during a Redis outage. When no Redis call answers, the
    level is the one Postgres records (its flags, bans and the device's age) and
    nothing but the connection changes, with one exception: a device whose
    temporary ban has run out but is still in the table is [Flagged], because the
    method clears the ban in Redis first and gives up. *)
Theorem trust_level_outage (Down : R -> Prop) (s : core R) fault now_us device_id
  (Hout : outage Down) (Hd : Down (redis s))
  (Hq1 : fault QFlags = false) (Hq2 : fault QDevices = false) :
  exists s', trust_level fault now_us device_id s
      = (s', Ok (if expired_ban_pending (db s) now_us device_id then Flagged
                 else db_level (db s) now_us device_id)) /\
    db s' = db s /\ limiter s' = limiter s /\ Down (redis s').
Proof. apply (trust_level_down Down Hout); auto. Qed.

(** the send check during a Redis outage. For a device that is not banned,
    [check_send_permission] returns an error: the block check gives up at its
    first required Redis call, so neither hourly window is charged, the fallback
    limiter is untouched, and its ceiling never applies on this path. A banned
    device is still refused. *)
Theorem send_check_outage (Down : R -> Prop) (s : core R) fault now_us caller target user
  (Hout : outage Down) (Hd : Down (redis s))
  (Hq1 : fault QFlags = false) (Hq2 : fault QDevices = false) :
  exists s', db s' = db s /\ limiter s' = limiter s /\
    check_send_permission fault now_us caller target user s =
    (s', if bool_decide (outage_level (db s) now_us caller = Banned)
         then Ok (denied "Device is banned" 0) else Err RedisError).
Proof.
  destruct (trust_level_down Down Hout fault now_us caller s) as (s1 & E1 & Hb1 & Hl1 & Hd1); auto.
  unfold check_send_permission. erewrite bind_Ok by exact E1. case_bool_decide.
  - destruct (record_violation_down Down Hout s1 Hd1) as (s2 & E2 & Hb2 & Hl2 & _).
    erewrite bind_Ok by exact E2. exists s2. split_and!; [congruence..|done].
  - destruct (is_blocked_down Down Hout fault target caller s1 Hd1) as (s2 & E2 & Hb2 & Hl2 & _).
    erewrite bind_Err by exact E2. exists s2. split_and!; [congruence..|done].
Qed.

(** the own-copy ceiling during a Redis outage. Checks of copies to the
    caller's own devices, at any clocks of one hour window of the fallback
    limiter which already counts [c] for this user, all return a decision, and
    the number permitted is exactly the smaller of their number and what is left
    of [OWN_COPY_LIMIT_HOUR]. *)
Theorem own_copy_outage_ceiling (Down : R -> Prop) (s : core R) fault dev user clocks c ws
  (Hout : outage Down) (Hd : Down (redis s))
  (Hq1 : fault QFlags = false) (Hq2 : fault QDevices = false)
  (Hwf : DegradedLimiter.wf (limiter s))
  (Hclocks : Forall (fun now => has_own_copy_window (outage_level (db s) now dev) = true /\
               DegradedLimiter.window_of MSG_WINDOW_TTL (now_secs now) = ws) clocks)
  (Hc : DegradedLimiter.count_of (limiter s) (DegradedLimiter.fxhash (own_copy_key user)) ws = c)
  (Hc1 : 1 <= c) (Hlen : c + Z.of_nat (length clocks) < u32_max) :
  count_true (own_copy_run fault dev user clocks s).2
  = Z.min (Z.of_nat (length clocks)) (Z.max 0 (OWN_COPY_LIMIT_HOUR - c)).
Proof.
  rewrite (own_copy_run_down Down Hout fault dev user clocks s c ws) by auto.
  rewrite count_true_threshold by (unfold OWN_COPY_LIMIT_HOUR; lia). f_equal. lia.
Qed.

(** C30: blocking and unblocking take effect at once. While Redis answers, from any
    state whose cached block lists agree with the table, after [block_device] or
    [unblock_device] returns, [is_blocked] answers for every pair what the table
    now says: the pair blocked is blocked (unblocked is not), every other pair is
    as before; and the cache still agrees with the table. *)
Theorem block_list_exact (Up : R -> Prop) (s : core R) fault (block : bool) a b
  (Hup : available Up) (Hr : Up (redis s)) (Hco : cache_coherent s)
  (Hq : forall q, fault q = false) :
  exists s1, (if block then block_device fault a b else unblock_device fault a b) s = (s1, Ok tt) /\
    cache_coherent s1 /\
    (forall a' b', b' ∈ blocked_by (db s1) a' <->
       if decide ((a', b') = (a, b)) then block = true else b' ∈ blocked_by (db s) a') /\
    (forall a' b', exists s2, is_blocked fault a' b' s1
         = (s2, Ok (bool_decide (b' ∈ blocked_by (db s1) a'))) /\
       cache_coherent s2 /\ db s2 = db s1).
Proof.
  assert (exists s1, (if block then block_device fault a b else unblock_device fault a b) s
                     = (s1, Ok tt) /\ Up (redis s1) /\ cache_coherent s1 /\
    (forall a' b', b' ∈ blocked_by (db s1) a' <->
       if decide ((a', b') = (a, b)) then block = true else b' ∈ blocked_by (db s) a'))
    as (s1 & E & Hr1 & Hco1 & Hb).
  { destruct block.
    - destruct (block_device_up Up Hup fault a b s) as (s1 & E & ? & ? & _ & Hb); auto.
      exists s1. split_and!; auto. intros a' b'. rewrite Hb.
      destruct (decide _) as [?|Hne]; [simplify_eq; intuition congruence|]. split; [|tauto].
      intros [?|[-> ->]]; done.
    - destruct (unblock_device_up Up Hup fault a b s) as (s1 & E & ? & ? & _ & Hb); auto.
      exists s1. split_and!; auto. intros a' b'. rewrite Hb.
      destruct (decide _) as [?|Hne]; [simplify_eq; intuition congruence|]. split; [tauto|]. intros ?.
      split; [done|]. by intros [-> ->]. }
  exists s1. split_and!; auto. intros a' b'.
  destruct (is_blocked_up Up Hup fault a' b' s1) as (s2 & E2 & _ & ? & ? & _); eauto.
Qed.

(** a device passes the block check when [SISMEMBER] fails and [EXISTS]
    answers: the membership error is read as "not a member" and the existing set
    as a complete answer, whatever the table says. *)
Theorem block_check_fails_open (s : core R) fault blocker target r1 r2
  (H1 : exec (redis s) (SISMEMBER (blocks_key blocker) target) = (r1, None))
  (H2 : exec r1 (EXISTS (blocks_key blocker)) = (r2, Some (RInt 1))) :
  exists s', is_blocked fault blocker target s = (s', Ok false) /\ db s' = db s.
Proof.
  unfold is_blocked, must, on_redis, exec_bool, mbind, M_bind.
  rewrite H1. cbn [default from_option redis]. rewrite H2. cbn. eexists. by split.
Qed.

(** spam reports escalate by total and by distinct reporters. While Redis
    answers, a reporter with fewer than ten reports in the window has the report
    recorded; the reported device is banned exactly if this is at least the fifth
    report and at least the third distinct reporter, otherwise flagged exactly if
    at least the third report and the second reporter; no other device's row
    changes, and the flag is in Redis too. From ten reports on the call is refused
    and the tables are as before. *)
Theorem spam_escalation (Up : R -> Prop) (s : core R) fault now_us id reporter reported category c t m
  (Hup : available Up) (Hr : Up (redis s)) (Hq : forall q, fault q = false)
  (Hc : counter (keys (redis s)) (report_rate_key reporter) = Some c) (Hc0 : 0 <= c < i64_max)
  (Ht : counter (keys (redis s)) (reports_key reported) = Some t) (Ht0 : 0 <= t < i64_max)
  (Hm : as_set (keys (redis s)) (reporters_key reported) = Some m) :
  let v := spam_verdict (t + 1) (Z.of_nat (size ({[reporter]} ∪ m))) in
  exists s', report_spam fault now_us id reporter reported category s =
      (s', if c <? REPORT_RATE_LIMIT then Ok id else Err ReportRateLimited) /\
    if c <? REPORT_RATE_LIMIT then
      spam_reports (db s') = spam_reports (db s) ++ [(reporter, reported, category)] /\
      verdict_row v (device_flags (db s) !! reported) (device_flags (db s') !! reported) /\
      (forall d, d <> reported -> device_flags (db s') !! d = device_flags (db s) !! d) /\
      verdict_key v reported (keys (redis s'))
    else db s' = db s.
Proof.
  intros v. destruct (Z.ltb_spec c REPORT_RATE_LIMIT).
  - destruct (report_spam_up Up Hup fault now_us id reporter reported category s c t m)
      as (s' & E & _ & Hx); eauto; lia.
  - eapply (report_spam_limited Up Hup); eauto; lia.
Qed.

(** the pages of the block list cover it. Reading pages [0 .. n-1] of any
    requested size gives, concatenated, the first entries of the list newest
    first, each once and in order, and a page says more follow exactly if the
    list goes on after it. *)
Theorem blocked_pages_exact (s : core R) fault blocker page_size n
  (Hq : fault QListBlocks = false) :
  let lim := Z.min (Z.max page_size 1) 100 in
  let all := rev (blocked_by (db s) blocker) in
  let page i := match (get_blocked_devices fault blocker i page_size s).2 with
                | Ok p => p | Err _ => ([], false) end in
  concat (map (fun i => (page (Z.of_nat i)).1) (seq 0 n)) = take (n * Z.to_nat lim) all /\
  (forall i, 0 <= i -> (page i).2 = bool_decide (i * lim + lim < Z.of_nat (length all))).
Proof.
  intros lim all page.
  assert (forall i, 0 <= i -> page i =
    (take (Z.to_nat lim) (drop (Z.to_nat i * Z.to_nat lim) all),
     bool_decide (i * lim + lim < Z.of_nat (length all)))) as Hpage.
  { intros i Hi. unfold page, get_blocked_devices. erewrite bind_Ok by by apply on_db_Ok.
    cbn [fst snd mret M_ret]. fold lim all. rewrite take_take, length_take, length_drop.
    rewrite (Z.max_l i 0), Z2Nat.inj_mul by (unfold lim; lia).
    replace (Z.to_nat lim `min` Z.to_nat (lim + 1))%nat with (Z.to_nat lim) by lia. f_equal.
    case_bool_decide; [apply Z.ltb_lt|apply Z.ltb_ge]; unfold lim in *; nia. }
  split.
  - rewrite <- take_pages. f_equal. apply map_ext. intros i. rewrite Hpage by lia.
    cbn. by rewrite Nat2Z.id.
  - intros i Hi. by rewrite Hpage.
Qed.

End Properties.

(** *** Witnesses *)

Definition hour : Z := 3600000000.

(** Alice's device is a year old, Bob has blocked Mallory. *)
Definition toy_db : Db := {|
  device_flags := ∅;
  devices := <["alice" := 0]> ∅;
  device_blocks := [("bob", "mallory"); ("bob", "trudy"); ("bob", "eve")];
  spam_reports := [];
|}.
Definition toy_now : Z := 8760 * hour.
Definition no_fault (q : query) : bool := false.
Definition toy_up : core mem :=
  {| db := toy_db; redis := Mem ∅ true; limiter := DegradedLimiter.new |}.
Definition toy_down : core mem :=
  {| db := toy_db; redis := Mem ∅ false; limiter := DegradedLimiter.new |}.

Lemma hourly_ceiling_witness :
  count_true (charge_run (msg_key "alice") 10 MSG_WINDOW_TTL (replicate 12 toy_now) toy_up).2 = 10.
Proof.
  pose proof (hourly_ceiling (fun r : mem => mem_up r = true) toy_up "alice" New
    (replicate 12 toy_now) 0 mem_available eq_refl eq_refl eq_refl eq_refl ltac:(lia)
    ltac:(vm_compute; done)) as Hc.
  cbn [msg_limit_hour] in Hc. destruct (charge_run _ _ _ _ _) as [s' qs]. apply Hc.
Defined.

Lemma trust_level_outage_witness :
  exists s', trust_level no_fault toy_now "alice" toy_down = (s', Ok Trusted).
Proof.
  destruct (trust_level_outage (fun r : mem => mem_up r = false) toy_down no_fault toy_now "alice"
    mem_outage eq_refl eq_refl eq_refl) as (s' & E & _). exists s'. exact E.
Defined.

Lemma send_check_outage_witness :
  exists s', check_send_permission no_fault toy_now "alice" "bob" (Some "u1") toy_down
             = (s', Err RedisError).
Proof.
  destruct (send_check_outage (fun r : mem => mem_up r = false) toy_down no_fault toy_now "alice"
    "bob" (Some "u1") mem_outage eq_refl eq_refl eq_refl) as (s' & _ & _ & E). exists s'. exact E.
Defined.

Definition toy_charged : DegradedLimiter.t :=
  (DegradedLimiter.charge DegradedLimiter.new (own_copy_key "u1") OWN_COPY_LIMIT_HOUR MSG_WINDOW_TTL
     (now_secs toy_now)).1.

Lemma own_copy_outage_ceiling_witness :
  count_true (own_copy_run no_fault "alice" "u1" [toy_now; toy_now + 1; toy_now + 2]
                {| db := toy_db; redis := Mem ∅ false; limiter := toy_charged |}).2 = 3.
Proof.
  rewrite (own_copy_outage_ceiling (fun r : mem => mem_up r = false)
    {| db := toy_db; redis := Mem ∅ false; limiter := toy_charged |} no_fault "alice" "u1"
    [toy_now; toy_now + 1; toy_now + 2] 1
    (DegradedLimiter.window_of MSG_WINDOW_TTL (now_secs toy_now)) mem_outage
    eq_refl eq_refl eq_refl).
  - reflexivity.
  - apply DegradedLimiter.charge_wf, DegradedLimiter.wf_new.
  - repeat (constructor; [vm_compute; done|]). constructor.
  - vm_compute. reflexivity.
  - lia.
  - vm_compute. reflexivity.
Defined.

Lemma block_list_exact_witness :
  exists s1 s2, block_device no_fault "alice" "mallory" toy_up = (s1, Ok tt) /\
    is_blocked no_fault "alice" "mallory" s1 = (s2, Ok true).
Proof.
  destruct (block_list_exact (fun r : mem => mem_up r = true) toy_up no_fault true "alice" "mallory"
    mem_available eq_refl) as (s1 & E & _ & Hb & Hi); [by intros b e ?|done|].
  destruct (Hi "alice" "mallory") as (s2 & E2 & _). exists s1, s2. split; [done|].
  rewrite bool_decide_true in E2; [done|]. by apply Hb.
Defined.

Lemma block_check_fails_open_witness :
  let s := {| db := toy_db; redis := Mem (<[blocks_key "bob" := Entry (VStr "1") None]> ∅) true;
              limiter := DegradedLimiter.new |} in
  "mallory" ∈ blocked_by toy_db "bob" /\
  exists s', is_blocked no_fault "bob" "mallory" s = (s', Ok false) /\ db s' = db s.
Proof.
  intros s. split; [by left|].
  apply (block_check_fails_open s no_fault "bob" "mallory" (redis s) (redis s)); reflexivity.
Defined.

Lemma spam_escalation_witness :
  exists s', report_spam no_fault toy_now "id" "carol" "mallory" "spam" toy_up = (s', Ok "id") /\
    device_flags (db s') !! "mallory" = None.
Proof.
  destruct (spam_escalation (fun r : mem => mem_up r = true) toy_up no_fault toy_now "id" "carol"
    "mallory" "spam" 0 0 ∅ mem_available eq_refl (fun _ => eq_refl) eq_refl ltac:(done)
    eq_refl ltac:(done) eq_refl) as (s' & E & Hx).
  exists s'. split; [exact E|]. destruct Hx as (_ & Hrow & _). exact Hrow.
Defined.

Lemma blocked_pages_exact_witness :
  concat (map (fun i => (match (get_blocked_devices no_fault "bob" (Z.of_nat i) 2 toy_up).2 with
                         | Ok p => p | Err _ => ([], false) end).1) (seq 0 2))
  = ["eve"; "trudy"; "mallory"].
Proof. exact (proj1 (blocked_pages_exact toy_up no_fault "bob" 2 2 eq_refl)). Defined.

End Sentinel.
