(* ===== verification/CallRegistry.v ===== *)
(** * Call registry of the signaling service

    Models signaling-service/src/registry.rs and forwarded.rs: the calls one
    instance holds in memory, the copy of each call in Redis that the other
    instances read, the channels of the connected devices, and the delivery of
    signals to them, here or through the pub/sub channel of another instance.

    An instance is a [registry] record with its connection to Redis
    (RedisStore.v); its methods are state-passing functions, and two instances
    share a Redis by passing the connection on. The clock of a call is an
    argument. The protobuf, base64 and JSON encoders are the operations of the
    class [Wire]; the order in which a [HashMap] is iterated is a parameter. *)

From S2P Require Import Prelude Text RedisStore.

Module CallRegistry.
Import Redis.

Definition MAX_SIGNAL_DESTINATIONS : nat := 5.
Definition ACTIVE_CALLS_SET_KEY : string := "signaling:active_calls".
Definition CLEANUP_LOCK_KEY : string := "signaling:cleanup_lock".

Record CallState := {
  call_id : string;
  caller_user_id : string;
  callee_user_id : string;
  caller_device_id : string;
  accepted_callee_device_id : option string;
  created_at : Z;
  offered_at_ms : Z;
  ringing_at_ms : option Z;
  answered_at_ms : option Z;
  caller_last_keepalive_at : Z;
  callee_last_keepalive_at : Z;
}.

Inductive CallRole := Caller | Callee.
#[global] Instance CallRole_eq_dec : EqDecision CallRole.
Proof. solve_decision. Defined.

Definition role_of (st : CallState) (user_id : string) : option CallRole :=
  if bool_decide (caller_user_id st = user_id) then Some Caller
  else if bool_decide (callee_user_id st = user_id) then Some Callee
  else None.

(** The gRPC statuses of this service. *)
Inductive Code :=
| PermissionDenied | NotFound | Unavailable | InvalidArgument | ResourceExhausted
| FailedPrecondition | Internal | Unauthenticated.
Record Status := { code : Code; message : string }.

Definition not_a_participant : Status :=
  {| code := PermissionDenied; message := "Not a participant in this call" |}.
Definition not_the_stream_device : Status :=
  {| code := PermissionDenied;
     message := "sender_device_id does not match the authenticated device" |}.

(** ** Messages

    [P] is the type of the message bodies the service only passes on. *)

Record CallHangup := {
  reason : Z; hangup_device_id : string; hangup_at : Z; hangup_message : option string;
}.

Inductive Signal (P : Type) :=
| Offer (p : P) | Answer (p : P) | IceCandidate (p : P) | IceCandidates (p : P)
| MediaUpdate (p : P) | Ringing (p : P) | Connected (p : P) | Busy (p : P)
| Hangup (h : CallHangup).
Arguments Offer {P} p. Arguments Answer {P} p. Arguments IceCandidate {P} p.
Arguments IceCandidates {P} p. Arguments MediaUpdate {P} p. Arguments Ringing {P} p.
Arguments Connected {P} p. Arguments Busy {P} p. Arguments Hangup {P} h.

Record WebRtcSignal (P : Type) := {
  sig_call_id : string; signal : option (Signal P); sender_device_id : string; timestamp : Z;
}.
Arguments sig_call_id {P}. Arguments signal {P}. Arguments sender_device_id {P}.
Arguments timestamp {P}.

Record IncomingCall := {
  ic_call_id : string; caller_id : string; caller_name : string; caller_avatar : bytes;
  call_type : Z; offered_at : Z;
}.
Record SignalErrorInfo := { err_code : Z; err_message : string }.

Inductive ForwardedSignal (P : Type) :=
| FSignal (s : WebRtcSignal P) | FIncomingCall (c : IncomingCall) | FError (e : SignalErrorInfo).
Arguments FSignal {P} s. Arguments FIncomingCall {P} c. Arguments FError {P} e.

Inductive Response (P : Type) :=
| RSignal (s : WebRtcSignal P) | RIncomingCall (c : IncomingCall) | RError (e : SignalErrorInfo)
| RPong (timestamp server_timestamp : Z).
Arguments RSignal {P} s. Arguments RIncomingCall {P} c. Arguments RError {P} e.
Arguments RPong {P} timestamp server_timestamp.

Definition SignalResponse (P : Type) : Type := option (Response P).

Record InstanceEnvelope := {
  env_user_id : string; env_device_id : option string; response_b64 : string;
}.

Definition signal_response_from_forwarded {P} (f : ForwardedSignal P) : SignalResponse P :=
  match f with
  | FSignal s => Some (RSignal s)
  | FIncomingCall c => Some (RIncomingCall c)
  | FError e => Some (RError e)
  end.

Definition forwarded_from_signal_response {P} (r : SignalResponse P) : option (ForwardedSignal P) :=
  let* r := r in
  match r with
  | RSignal s => Some (FSignal s)
  | RIncomingCall c => Some (FIncomingCall c)
  | RError e => Some (FError e)
  | RPong _ _ => None
  end.

(** The numbers of the enums the service compares with. *)
Definition HangupReason_Declined : Z := 3.
Definition HangupReason_Timeout : Z := 4.
Definition HangupReason_ConnectionFailed : Z := 5.
Definition SignalErrorCode_CalleeOffline : Z := 1.
Definition SignalErrorCode_RateLimited : Z := 3.

(** Code outside the repository: the encoders of protobuf, base64 and JSON. *)
Class Wire (P : Type) := {
  encode_to_vec : SignalResponse P -> bytes;
  decode : bytes -> option (SignalResponse P);
  base64_encode : bytes -> string;
  base64_decode : string -> option bytes;
  json_to_string : InstanceEnvelope -> option string;
  json_from_str : string -> option InstanceEnvelope;
}.

(** What an encoder and its decoder promise. *)
Class WireLaws (P : Type) `{Wire P} := {
  decode_encode r : decode (encode_to_vec r) = Some r;
  base64_decode_encode b : base64_decode (base64_encode b) = Some b;
  json_from_to e s : json_to_string e = Some s -> json_from_str s = Some e;
}.

Definition encode_signal_response_base64 {P} `{Wire P} (r : SignalResponse P) : string :=
  base64_encode (encode_to_vec r).

Definition decode_signal_response_base64 {P} `{Wire P} (s : string) : option (SignalResponse P) :=
  let* b := base64_decode s in decode b.

(** ** The registry *)

Section Registry.
Context {P : Type} `{Wire P} {R : Type} `{Redis R}.

(** A [broadcast::Sender] is a number; [live] are the ones with a receiver, so
    whose [send] succeeds, and [delivered] is what was sent on them, in order. *)
Record registry := Registry {
  calls : gmap string CallState;
  active_calls : gmap string string;
  user_channels : gmap string (gmap string nat);
  instance_id : string;
  redis : R;
  next_tx : nat;
  live : gset nat;
  delivered : list (nat * ForwardedSignal P);
}.

Definition St (A : Type) : Type := registry -> registry * A.

#[export] Instance St_ret : MRet St := fun A a s => (s, a).
#[export] Instance St_bind : MBind St := fun A B f m s => let '(s', a) := m s in f a s'.

Definition set_calls (c : gmap string CallState) (s : registry) : registry :=
  Registry c (active_calls s) (user_channels s) (instance_id s) (redis s) (next_tx s) (live s)
    (delivered s).
Definition set_active (a : gmap string string) (s : registry) : registry :=
  Registry (calls s) a (user_channels s) (instance_id s) (redis s) (next_tx s) (live s)
    (delivered s).
Definition set_channels (u : gmap string (gmap string nat)) (s : registry) : registry :=
  Registry (calls s) (active_calls s) u (instance_id s) (redis s) (next_tx s) (live s)
    (delivered s).
Definition set_redis (r : R) (s : registry) : registry :=
  Registry (calls s) (active_calls s) (user_channels s) (instance_id s) r (next_tx s) (live s)
    (delivered s).
Definition set_delivered (d : list (nat * ForwardedSignal P)) (s : registry) : registry :=
  Registry (calls s) (active_calls s) (user_channels s) (instance_id s) (redis s) (next_tx s)
    (live s) d.

Definition gets {A} (f : registry -> A) : St A := fun s => (s, f s).
Definition modify (f : registry -> registry) : St unit := fun s => (f s, tt).

Definition on_redis {A} (run : R -> R * option A) : St (option A) := fun s =>
  let '(r, o) := run (redis s) in (set_redis r s, o).

Definition new (instance : string) (r : R) : registry :=
  Registry ∅ ∅ ∅ instance r 0 ∅ [].

Definition online_key (user_id device_id : string) : string :=
  "signaling:online:" +:+ user_id +:+ ":" +:+ device_id.
Definition call_key (call_id : string) : string := "call:" +:+ call_id.
Definition active_call_key (user_id : string) : string := "user:" +:+ user_id +:+ ":active_call".
Definition instance_channel (instance : string) : string := "signaling:instance:" +:+ instance.

Definition register_user (user_id device_id : string) : St nat := fun s =>
  let tx := next_tx s in
  (Registry (calls s) (active_calls s)
     (<[user_id := <[device_id := tx]> (default ∅ (user_channels s !! user_id))]>
        (user_channels s))
     (instance_id s) (redis s) (S tx) (live s) (delivered s), tx).

(** [tx.subscribe()], and the end of the receiver it returned. *)
Definition subscribe (tx : nat) : St unit := fun s =>
  (Registry (calls s) (active_calls s) (user_channels s) (instance_id s) (redis s) (next_tx s)
     ({[tx]} ∪ live s) (delivered s), tt).
Definition drop_receiver (tx : nat) : St unit := fun s =>
  (Registry (calls s) (active_calls s) (user_channels s) (instance_id s) (redis s) (next_tx s)
     (live s ∖ {[tx]}) (delivered s), tt).

Definition unregister_user (user_id device_id : string) : St unit :=
  users ← gets user_channels;
  match users !! user_id with
  | None => mret tt
  | Some devices =>
      let devices := delete device_id devices in
      _ ← modify (set_channels (if bool_decide (devices = ∅) then delete user_id users
                                else <[user_id := devices]> users));
      _ ← on_redis (fun r => exec_unit r (DEL (online_key user_id device_id)));
      mret tt
  end.

Definition touch_online (user_id device_id : string) : St unit :=
  inst ← gets instance_id;
  _ ← on_redis (fun r => pipe r [SETEX (online_key user_id device_id) inst 90]);
  mret tt.

Definition lookup_device_instance (user_id device_id : string) : St (option string) :=
  o ← on_redis (fun r => exec_opt_string r (GET (online_key user_id device_id)));
  mret (mjoin o).

Definition exec_pairs (r : R) (c : cmd) : R * option (list (string * string)) :=
  match exec r c with
  | (r', Some (RPairs l)) => (r', Some l)
  | (r', _) => (r', None)
  end.

Definition device_of_key (key : string) : string :=
  match rsplit_once ":" key with Some (_, d) => d | None => "" end.

Definition list_online_devices (user_id : string) : St (list (string * string)) :=
  o ← on_redis (fun r => exec_pairs r (SCANGET ("signaling:online:" +:+ user_id +:+ ":")));
  mret (List.filter (fun p => negb (str_is_empty (fst p)))
          (map (fun kv => (device_of_key (fst kv), snd kv)) (default [] o))).

(** ** Delivery *)

Definition tx_send (tx : nat) (f : ForwardedSignal P) : St bool := fun s =>
  if bool_decide (tx ∈ live s) then (set_delivered (delivered s ++ [(tx, f)]) s, true)
  else (s, false).

(** The order a [HashMap] of senders is iterated in. *)
Context (iter : gmap string nat -> list (string * nat)).

Definition get_user_senders (user_id : string) : St (list (string * nat)) :=
  gets (fun s => match user_channels s !! user_id with
                 | Some devices => iter devices
                 | None => []
                 end).

Definition publish_to_instance (instance : string) (env : InstanceEnvelope) : St bool :=
  match json_to_string env with
  | None => mret false
  | Some payload =>
      o ← on_redis (fun r => exec_int r (PUBLISH (instance_channel instance) payload));
      mret (match o with Some _ => true | None => false end)
  end.

Fixpoint local_loop (target : option string) (f : ForwardedSignal P)
    (targets : list (string * nat)) (sent : nat) : St nat :=
  match targets with
  | [] => mret sent
  | (device_id, tx) :: rest =>
      if match target with Some t => negb (bool_decide (device_id = t)) | None => false end
      then local_loop target f rest sent
      else if (MAX_SIGNAL_DESTINATIONS <=? sent)%nat then mret sent
      else ok ← tx_send tx f;
           local_loop target f rest (if (ok : bool) then S sent else sent)
  end.

Definition send_local_to_user (user_id : string) (target : option string)
    (f : ForwardedSignal P) : St nat :=
  targets ← get_user_senders user_id; local_loop target f targets 0.

Fixpoint remote_loop (user_id : string) (except : option string) (self b64 : string)
    (devices : list (string * string)) (published : nat) : St nat :=
  match devices with
  | [] => mret published
  | (device_id, instance) :: rest =>
      if (MAX_SIGNAL_DESTINATIONS <=? published)%nat then mret published
      else if bool_decide (Some device_id = except) then
        remote_loop user_id except self b64 rest published
      else if bool_decide (instance = self) then
        remote_loop user_id except self b64 rest published
      else
        ok ← publish_to_instance instance
               {| env_user_id := user_id; env_device_id := Some device_id;
                  response_b64 := b64 |};
        remote_loop user_id except self b64 rest
          (if (ok : bool) then S published else published)
  end.

Definition send_remote_to_user (user_id : string) (target except : option string)
    (f : ForwardedSignal P) : St nat :=
  let b64 := encode_signal_response_base64 (signal_response_from_forwarded f) in
  self ← gets instance_id;
  match target with
  | Some device_id =>
      if bool_decide (Some device_id = except) then mret 0%nat
      else
        inst ← lookup_device_instance user_id device_id;
        match inst with
        | None => mret 0%nat
        | Some instance =>
            if bool_decide (instance = self) then mret 0%nat
            else
              ok ← publish_to_instance instance
                     {| env_user_id := user_id; env_device_id := Some device_id;
                        response_b64 := b64 |};
              mret (if (ok : bool) then 1%nat else 0%nat)
        end
  | None =>
      devices ← list_online_devices user_id;
      remote_loop user_id except self b64 devices 0
  end.

Definition send_to_user (user_id : string) (target : option string) (f : ForwardedSignal P)
    : St nat :=
  local_sent ← send_local_to_user user_id target f;
  remote_sent ← send_remote_to_user user_id target None f;
  mret (local_sent + remote_sent)%nat.

Fixpoint except_loop (except : string) (f : ForwardedSignal P)
    (targets : list (string * nat)) (sent : nat) : St nat :=
  match targets with
  | [] => mret sent
  | (device_id, tx) :: rest =>
      if bool_decide (device_id = except) then except_loop except f rest sent
      else ok ← tx_send tx f;
           except_loop except f rest (if (ok : bool) then S sent else sent)
  end.

Definition send_to_user_except (user_id except : string) (f : ForwardedSignal P) : St nat :=
  targets ← get_user_senders user_id;
  local_sent ← except_loop except f targets 0;
  remote_sent ← send_remote_to_user user_id None (Some except) f;
  mret (local_sent + remote_sent)%nat.

(** ** Calls *)

Section Clock.
Context (now_s now_ms : Z).

(** The fields of a new call's hash. *)
Definition call_fields (st : CallState) : list (string * string) :=
  [("call_id", call_id st);
   ("caller_user_id", caller_user_id st);
   ("caller_device_id", caller_device_id st);
   ("callee_user_id", callee_user_id st);
   ("accepted_callee_device_id", "");
   ("offer_b64", "");
   ("caller_name", "");
   ("caller_avatar_b64", "");
   ("created_at_s", to_string (created_at st));
   ("offered_at_ms", to_string (offered_at_ms st));
   ("ringing_at_ms", "");
   ("answered_at_ms", "");
   ("caller_last_keepalive_at_s", to_string (caller_last_keepalive_at st));
   ("callee_last_keepalive_at_s", to_string (callee_last_keepalive_at st))].

Definition new_call (id caller caller_device callee : string) (offered : Z) : CallState := {|
  call_id := id; caller_user_id := caller; callee_user_id := callee;
  caller_device_id := caller_device; accepted_callee_device_id := None;
  created_at := now_s; offered_at_ms := offered; ringing_at_ms := None; answered_at_ms := None;
  caller_last_keepalive_at := now_s; callee_last_keepalive_at := now_s |}.

Definition create_call (id caller caller_device callee : string) (offered : Z) : St unit :=
  let st := new_call id caller caller_device callee offered in
  _ ← modify (fun s => set_calls (<[id := st]> (calls s)) s);
  _ ← modify (fun s => set_active (<[callee := id]> (<[caller := id]> (active_calls s))) s);
  _ ← on_redis (fun r => pipe r
        [HSET (call_key id) (call_fields st);
         EXPIRE (call_key id) 300;
         SETEX (active_call_key caller) id 300;
         SETEX (active_call_key callee) id 300;
         SADD ACTIVE_CALLS_SET_KEY [id];
         EXPIRE ACTIVE_CALLS_SET_KEY 300]);
  mret tt.

Definition store_call_metadata (id name : string) (avatar : bytes) : St unit :=
  let name := take_chars 128 name in
  let avatar_b64 := if (length avatar <=? 4096)%nat then base64_encode avatar else "" in
  _ ← on_redis (fun r => pipe r
        [HSET (call_key id) [("caller_name", name); ("caller_avatar_b64", avatar_b64)];
         EXPIRE (call_key id) 300]);
  mret tt.

Definition remove_call (id : string) : St unit :=
  cs ← gets calls;
  match cs !! id with
  | None => mret tt
  | Some st =>
      _ ← modify (set_calls (delete id cs));
      _ ← modify (fun s => set_active (delete (callee_user_id st)
                                        (delete (caller_user_id st) (active_calls s))) s);
      _ ← on_redis (fun r => pipe r
            [DEL (call_key id);
             DEL (active_call_key (caller_user_id st));
             DEL (active_call_key (callee_user_id st));
             SREM ACTIVE_CALLS_SET_KEY id]);
      mret tt
  end.

Definition exec_map (r : R) (c : cmd) : R * option (gmap string string) :=
  match exec r c with
  | (r', Some (RMap m)) => (r', Some m)
  | (r', _) => (r', None)
  end.

Definition parse_field_u64 (h : gmap string string) (k : string) : option Z :=
  h !! k ≫= parse_u64.
Definition parse_field_i64 (h : gmap string string) (k : string) : option Z :=
  h !! k ≫= parse_i64.

(** The state a hash describes. *)
Definition parse_call (id : string) (h : gmap string string) : option CallState :=
  if bool_decide (h = ∅) then None
  else
    let* caller := h !! "caller_user_id" in
    let* callee := h !! "callee_user_id" in
    let* device := h !! "caller_device_id" in
    let accepted := h !! "accepted_callee_device_id" ≫= fun s =>
                      if str_is_empty s then None else Some s in
    let created := default now_s (parse_field_u64 h "created_at_s") in
    Some {| call_id := id; caller_user_id := caller; callee_user_id := callee;
            caller_device_id := device; accepted_callee_device_id := accepted;
            created_at := created;
            offered_at_ms := default now_ms (parse_field_i64 h "offered_at_ms");
            ringing_at_ms := parse_field_i64 h "ringing_at_ms";
            answered_at_ms := parse_field_i64 h "answered_at_ms";
            caller_last_keepalive_at :=
              default created (parse_field_u64 h "caller_last_keepalive_at_s");
            callee_last_keepalive_at :=
              default created (parse_field_u64 h "callee_last_keepalive_at_s") |}.

Definition load_call_state (id : string) : St (option CallState) :=
  cs ← gets calls;
  match cs !! id with
  | Some st => mret (Some st)
  | None =>
      m ← on_redis (fun r => exec_map r (HGETALL (call_key id)));
      match m ≫= parse_call id with
      | None => mret None
      | Some st =>
          _ ← modify (fun s => set_calls (<[id := st]> (calls s)) s);
          mret (Some st)
      end
  end.

Definition call_exists_in_redis (id : string) : St bool :=
  o ← on_redis (fun r => exec_bool r (EXISTS (call_key id))); mret (default false o).

Definition get_user_call (user_id : string) : St (option string) :=
  active ← gets active_calls;
  match active !! user_id with
  | Some id =>
      e ← call_exists_in_redis id;
      if (e : bool) then mret (Some id)
      else _ ← remove_call id; mret None
  | None =>
      o ← on_redis (fun r => exec_opt_string r (GET (active_call_key user_id)));
      match mjoin o with
      | None => mret None
      | Some id =>
          e ← call_exists_in_redis id;
          if (e : bool) then
            _ ← modify (fun s => set_active (<[user_id := id]> (active_calls s)) s);
            mret (Some id)
          else
            _ ← on_redis (fun r => exec_unit r (DEL (active_call_key user_id)));
            mret None
      end
  end.

Definition call_ended_by_disconnect (user_id device_id : string) : St (option CallState) :=
  o ← get_user_call user_id;
  match o with
  | None => mret None
  | Some id =>
      o ← load_call_state id;
      match o with
      | None => mret None
      | Some st =>
          if bool_decide (caller_user_id st = user_id) && bool_decide (caller_device_id st = device_id)
          then mret (Some st)
          else if bool_decide (callee_user_id st = user_id)
                  && bool_decide (accepted_callee_device_id st = Some device_id)
          then
            others ← list_online_devices user_id;
            mret (match others with [] => Some st | _ => None end)
          else mret None
      end
  end.

(** One field of a call's hash, with the time to live renewed. *)
Definition hset_expire (id : string) (fields : list (string * string)) : St unit :=
  _ ← on_redis (fun r => pipe r [HSET (call_key id) fields; EXPIRE (call_key id) 300]); mret tt.

Definition with_keepalives (st : CallState) (caller callee : Z) : CallState := {|
  call_id := call_id st; caller_user_id := caller_user_id st; callee_user_id := callee_user_id st;
  caller_device_id := caller_device_id st;
  accepted_callee_device_id := accepted_callee_device_id st; created_at := created_at st;
  offered_at_ms := offered_at_ms st; ringing_at_ms := ringing_at_ms st;
  answered_at_ms := answered_at_ms st; caller_last_keepalive_at := caller;
  callee_last_keepalive_at := callee |}.

Definition note_keepalive (user_id : string) : St unit :=
  o ← get_user_call user_id;
  match o with
  | None => mret tt
  | Some id =>
      o ← load_call_state id;
      match o with
      | None => mret tt
      | Some st =>
          match role_of st user_id with
          | Some Caller =>
              _ ← hset_expire id [("caller_last_keepalive_at_s", to_string now_s)];
              modify (fun s => set_calls (<[id :=
                with_keepalives st now_s (callee_last_keepalive_at st)]> (calls s)) s)
          | Some Callee =>
              _ ← hset_expire id [("callee_last_keepalive_at_s", to_string now_s)];
              modify (fun s => set_calls (<[id :=
                with_keepalives st (caller_last_keepalive_at st) now_s]> (calls s)) s)
          | None => mret tt
          end
      end
  end.

Definition with_ringing (st : CallState) (t : Z) : CallState := {|
  call_id := call_id st; caller_user_id := caller_user_id st; callee_user_id := callee_user_id st;
  caller_device_id := caller_device_id st;
  accepted_callee_device_id := accepted_callee_device_id st; created_at := created_at st;
  offered_at_ms := offered_at_ms st; ringing_at_ms := Some t; answered_at_ms := answered_at_ms st;
  caller_last_keepalive_at := caller_last_keepalive_at st;
  callee_last_keepalive_at := callee_last_keepalive_at st |}.

Definition note_ringing (id : string) : St unit :=
  o ← load_call_state id;
  match o with
  | None => mret tt
  | Some st =>
      match ringing_at_ms st with
      | Some _ => mret tt
      | None =>
          _ ← hset_expire id [("ringing_at_ms", to_string now_ms)];
          modify (fun s => set_calls (<[id := with_ringing st now_ms]> (calls s)) s)
      end
  end.

Definition with_answer (st : CallState) (accepted : option string) (t : Z) : CallState := {|
  call_id := call_id st; caller_user_id := caller_user_id st; callee_user_id := callee_user_id st;
  caller_device_id := caller_device_id st; accepted_callee_device_id := accepted;
  created_at := created_at st; offered_at_ms := offered_at_ms st;
  ringing_at_ms := ringing_at_ms st; answered_at_ms := Some t;
  caller_last_keepalive_at := caller_last_keepalive_at st;
  callee_last_keepalive_at := callee_last_keepalive_at st |}.

Definition note_connected (id : string) (callee_device : option string) : St unit :=
  o ← load_call_state id;
  match o with
  | None => mret tt
  | Some st =>
      let accepted := match accepted_callee_device_id st with
                      | None => callee_device
                      | Some d => Some d
                      end in
      let newly_answered := match answered_at_ms st with None => true | Some _ => false end in
      if negb newly_answered && match callee_device with None => true | Some _ => false end
      then mret tt
      else
        let t := default now_ms (answered_at_ms st) in
        _ ← on_redis (fun r => pipe r
              (HSET (call_key id) [("answered_at_ms", to_string t)]
               :: match accepted with
                  | Some d => [HSET (call_key id) [("accepted_callee_device_id", d)]]
                  | None => []
                  end
               ++ [EXPIRE (call_key id) 300]));
        modify (fun s => set_calls (<[id := with_answer st accepted t]> (calls s)) s)
  end.

Definition is_user_busy (user_id : string) : St bool :=
  o ← get_user_call user_id; mret (match o with Some _ => true | None => false end).

Definition forward_signal (id from_user from_device : string) (f : ForwardedSignal P)
    : St (result unit Status) :=
  o ← load_call_state id;
  match o with
  | None => mret (Err {| code := NotFound; message := "Call " +:+ id +:+ " not found" |})
  | Some st =>
      let target :=
        if bool_decide (caller_user_id st = from_user) then
          Some (callee_user_id st, accepted_callee_device_id st)
        else if bool_decide (callee_user_id st = from_user) then
          Some (caller_user_id st, Some (caller_device_id st))
        else None in
      match target with
      | None => mret (Err not_a_participant)
      | Some (target_user, target_device) =>
          sent ← (if bool_decide (target_user = from_user)
                  then send_to_user_except target_user from_device f
                  else send_to_user target_user target_device f);
          mret (if (sent =? 0)%nat
                then Err {| code := Unavailable; message := "Peer is offline" |}
                else Ok tt)
      end
  end.

(** ** Cleanup *)

Inductive CleanupAction :=
| ErrorToCaller (id caller caller_device : string) (code : Z) (message : string)
| HangupBoth (id caller caller_device callee : string) (callee_device : option string) (reason : Z)
| RemoveCall (id : string).

Definition cleanup_decide (st : CallState) : list CleanupAction :=
  let hangup reason :=
    [HangupBoth (call_id st) (caller_user_id st) (caller_device_id st) (callee_user_id st)
       (accepted_callee_device_id st) reason; RemoveCall (call_id st)] in
  if 300 <? saturating_sub_u64 now_s (created_at st) then [RemoveCall (call_id st)]
  else if match ringing_at_ms st, answered_at_ms st with
          | None, None => 45000 <? saturating_sub_i64 now_ms (offered_at_ms st)
          | _, _ => false
          end
  then [ErrorToCaller (call_id st) (caller_user_id st) (caller_device_id st)
          SignalErrorCode_CalleeOffline "No ringing from callee"; RemoveCall (call_id st)]
  else if match ringing_at_ms st, answered_at_ms st with
          | Some t, None =>
              (30000 <? saturating_sub_i64 now_ms t)
              && (30 <? saturating_sub_u64 now_s (caller_last_keepalive_at st))
              && (30 <? saturating_sub_u64 now_s (callee_last_keepalive_at st))
          | _, _ => false
          end
  then hangup HangupReason_Timeout
  else if (60 <? saturating_sub_u64 now_s (caller_last_keepalive_at st))
          || (60 <? saturating_sub_u64 now_s (callee_last_keepalive_at st))
  then hangup HangupReason_ConnectionFailed
  else [].

Definition server_hangup (id : string) (why : Z) : ForwardedSignal P :=
  FSignal {| sig_call_id := id;
             signal := Some (Hangup {| reason := why; hangup_device_id := "server";
                                       hangup_at := now_ms; hangup_message := None |});
             sender_device_id := "server"; timestamp := now_ms |}.

Definition run_action (a : CleanupAction) : St unit :=
  match a with
  | ErrorToCaller _ caller device c m =>
      _ ← send_to_user caller (Some device) (FError {| err_code := c; err_message := m |}); mret tt
  | HangupBoth id caller device callee callee_device why =>
      _ ← send_to_user caller (Some device) (server_hangup id why);
      _ ← send_to_user callee callee_device (server_hangup id why);
      mret tt
  | RemoveCall id => remove_call id
  end.

Definition try_acquire_cleanup_lock : St bool :=
  inst ← gets instance_id;
  o ← on_redis (fun r => match exec r (SETNXEX CLEANUP_LOCK_KEY inst 4) with
                         | (r', Some ROk) => (r', Some tt)
                         | (r', _) => (r', None)
                         end);
  mret (match o with Some _ => true | None => false end).

Definition list_active_call_ids : St (list string) :=
  o ← on_redis (fun r => match exec r (SMEMBERS ACTIVE_CALLS_SET_KEY) with
                         | (r', Some (RList l)) => (r', Some l)
                         | (r', _) => (r', None)
                         end);
  mret (default [] o).

Fixpoint collect_actions (ids : list string) : St (list CleanupAction) :=
  match ids with
  | [] => mret []
  | id :: rest =>
      o ← load_call_state id;
      later ← collect_actions rest;
      mret (match o with Some st => cleanup_decide st | None => [] end ++ later)
  end.

Fixpoint run_actions (acts : list CleanupAction) : St unit :=
  match acts with
  | [] => mret tt
  | a :: rest => _ ← run_action a; run_actions rest
  end.

(** One tick of [cleanup_loop]. *)
Definition cleanup_tick : St unit :=
  ok ← try_acquire_cleanup_lock;
  if (ok : bool) then
    ids ← list_active_call_ids;
    acts ← collect_actions ids;
    run_actions acts
  else mret tt.

End Clock.

(** ** Messages of other instances *)

(** One message of [run_pubsub_connection]. *)
Definition handle_pubsub (payload : string) : St unit :=
  match json_from_str payload with
  | None => mret tt
  | Some env =>
      match decode_signal_response_base64 (response_b64 env) with
      | None => mret tt
      | Some resp =>
          match forwarded_from_signal_response resp with
          | None => mret tt
          | Some f => _ ← send_local_to_user (env_user_id env) (env_device_id env) f; mret tt
          end
      end
  end.

End Registry.

(** ** A call's hash *)

Definition opt_to_string (o : option Z) : string :=
  match o with Some t => to_string t | None => "" end.

(** The hash describes the state. *)
Record stored (h : gmap string string) (st : CallState) : Prop := {
  st_caller : h !! "caller_user_id" = Some (caller_user_id st);
  st_callee : h !! "callee_user_id" = Some (callee_user_id st);
  st_device : h !! "caller_device_id" = Some (caller_device_id st);
  st_accepted : h !! "accepted_callee_device_id" = Some (default "" (accepted_callee_device_id st));
  st_created : h !! "created_at_s" = Some (to_string (created_at st));
  st_offered : h !! "offered_at_ms" = Some (to_string (offered_at_ms st));
  st_ringing : h !! "ringing_at_ms" = Some (opt_to_string (ringing_at_ms st));
  st_answered : h !! "answered_at_ms" = Some (opt_to_string (answered_at_ms st));
  st_caller_ka : h !! "caller_last_keepalive_at_s"
                 = Some (to_string (caller_last_keepalive_at st));
  st_callee_ka : h !! "callee_last_keepalive_at_s"
                 = Some (to_string (callee_last_keepalive_at st));
}.

(** Times fit their integers, and an accepted device has a name. *)
Record call_wf (st : CallState) : Prop := {
  wf_created : in_u64 (created_at st);
  wf_offered : in_i64 (offered_at_ms st);
  wf_ringing : forall t, ringing_at_ms st = Some t -> in_i64 t;
  wf_answered : forall t, answered_at_ms st = Some t -> in_i64 t;
  wf_caller_ka : in_u64 (caller_last_keepalive_at st);
  wf_callee_ka : in_u64 (callee_last_keepalive_at st);
  wf_accepted : accepted_callee_device_id st <> Some "";
}.

Lemma parse_opt o :
  (forall t, o = Some t -> in_i64 t) -> parse_i64 (opt_to_string o) = o.
Proof. intros Ho. destruct o as [t|]; [|done]. by apply parse_i64_to_string, Ho. Qed.

(** Reading the hash back gives the state, whatever the reader's clock. *)
Lemma parse_stored now_s now_ms h st :
  stored h st -> call_wf st -> parse_call now_s now_ms (call_id st) h = Some st.
Proof.
  intros [H1 H2 H3 H4 H5 H6 H7 H8 H9 H10] Hwf. unfold parse_call, parse_field_u64, parse_field_i64.
  rewrite bool_decide_false by (intros ->; by rewrite lookup_empty in H1).
  rewrite H1, H2, H3, H4, H5, H6, H7, H8, H9, H10. cbn [mbind option_bind].
  rewrite !parse_u64_to_string by apply Hwf. rewrite parse_i64_to_string by apply Hwf.
  rewrite !parse_opt by apply Hwf. pose proof (wf_accepted _ Hwf) as Ha.
  destruct st as [? ? ? ? [[|a d]|]]; cbn in *; congruence.
Qed.

Lemma stored_new now_s id caller device callee offered h :
  let st := new_call now_s id caller device callee offered in
  stored (list_to_map (reverse (call_fields st)) ∪ h) st.
Proof. split; apply lookup_union_Some_l; cbn; by simplify_map_eq. Qed.

Lemma call_wf_new now_s id caller device callee offered :
  in_u64 now_s -> in_i64 offered -> call_wf (new_call now_s id caller device callee offered).
Proof. by split. Qed.

(** ** Operations while Redis answers *)

Section Mirror.
Context {P : Type} `{Wire P} {R : Type} `{RedisLaws R}.
Context (Up : R -> Prop) (Hup : available Up).

Lemma St_bind_eq {A B} (m : St (P := P) (R := R) A) (f : A -> St B) s s' a :
  m s = (s', a) -> (m ≫= f) s = f a s'.
Proof using Type. intros E. unfold mbind, St_bind. by rewrite E. Qed.

Lemma on_redis_pipe cs (s : registry (P := P)) ks' :
  Up (redis s) -> pipe_doc cs (keys (redis s)) = Some ks' ->
  exists r', on_redis (fun r => pipe r cs) s = (set_redis r' s, Some tt) /\
    keys r' = ks' /\ Up r'.
Proof using Hup.
  intros Hr Hd. destruct (available_pipe Up Hup _ _ _ Hr Hd) as (r' & E & Hk & Hr').
  exists r'. unfold on_redis. by rewrite E.
Qed.

(** The call [id] is held in memory and in Redis, in the same state, and both
    parties are marked as in it. *)
Record mirror (s : registry (P := P) (R := R)) (id : string) (st : CallState) : Prop := {
  mi_calls : calls s !! id = Some st;
  mi_id : call_id st = id;
  mi_wf : call_wf st;
  mi_hash : exists h t, keys (redis s) !! call_key id = Some (Entry (VHash h) t) /\ stored h st;
  mi_caller : active_calls s !! caller_user_id st = Some id;
  mi_callee : active_calls s !! callee_user_id st = Some id;
  mi_up : Up (redis s);
}.

Lemma load_mirror now_s now_ms s id st :
  mirror s id st -> load_call_state now_s now_ms id s = (s, Some st).
Proof using Type.
  intros Hm. unfold load_call_state. erewrite St_bind_eq by reflexivity.
  by rewrite (mi_calls _ _ _ Hm).
Qed.

Lemma get_user_call_mirror s id st user :
  mirror s id st -> active_calls s !! user = Some id ->
  exists r', get_user_call user s = (set_redis r' s, Some id) /\
    keys r' = keys (redis s) /\ Up r'.
Proof using Hup.
  intros Hm Ha. unfold get_user_call. erewrite St_bind_eq by reflexivity. rewrite Ha.
  destruct (mi_hash _ _ _ Hm) as (h & t & Hk & _).
  destruct (available_exact Up Hup (redis s) (EXISTS (call_key id)) (keys (redis s)) (RInt 1))
    as (r' & E & Hk' & Hr'); [apply Hm|done|cbn; by rewrite Hk|].
  exists r'. unfold call_exists_in_redis, on_redis, exec_bool, mbind, St_bind. by rewrite E.
Qed.

(** Writing fields of the hash and holding the new state. *)
Lemma mirror_set_redis s id st r' :
  mirror s id st -> keys r' = keys (redis s) -> Up r' -> mirror (set_redis r' s) id st.
Proof using Type. intros [] Hk Hr. split; auto. cbn. by rewrite Hk. Qed.

Lemma mirror_update s id st st' cs h' t r' :
  mirror s id st -> call_id st' = id -> call_wf st' ->
  caller_user_id st' = caller_user_id st -> callee_user_id st' = callee_user_id st ->
  stored h' st' ->
  keys r' = <[call_key id := Entry (VHash h') t]> (keys (redis s)) -> Up r' ->
  cs = <[id := st']> (calls s) ->
  mirror (set_calls cs (set_redis r' s)) id st'.
Proof using Type.
  intros [Hm1 Hm2 Hm3 Hm4 Hm5 Hm6 Hm7] Hid Hwf Hc1 Hc2 Hst Hk Hr ->. split; cbn; auto.
  - by rewrite lookup_insert_eq.
  - rewrite Hk, lookup_insert_eq. eauto.
  - congruence.
  - congruence.
Qed.

Lemma hset_expire_mirror s id st fields :
  mirror s id st ->
  exists h r', hset_expire id fields s = (set_redis r' s, tt) /\ stored h st /\
    keys r' = <[call_key id := Entry (VHash (list_to_map (reverse fields) ∪ h)) (Some 300)]>
                (keys (redis s)) /\ Up r'.
Proof using Hup.
  intros Hm. destruct (mi_hash _ _ _ Hm) as (h & t & Hk & Hs). unfold hset_expire.
  edestruct (on_redis_pipe [HSET (call_key id) fields; EXPIRE (call_key id) 300] s)
    as (r' & E & Hk' & Hr'); [apply Hm| |].
  - cbn. unfold as_hash, set_val, doc_expire. rewrite Hk. cbn. rewrite lookup_insert_eq. cbn.
    rewrite insert_insert_eq. reflexivity.
  - exists h, r'. erewrite St_bind_eq by exact E. by split_and!.
Qed.

Lemma hset_one k v (h : gmap string string) : list_to_map (reverse [(k, v)]) ∪ h = <[k := v]> h.
Proof using Type. cbn. by rewrite <- insert_union_l, (left_id_L ∅ (∪)). Qed.

Lemma hset_two k v k' v' (h : gmap string string) :
  list_to_map (reverse [(k, v); (k', v')]) ∪ h = <[k' := v']> (<[k := v]> h).
Proof using Type. cbn. by rewrite <- !insert_union_l, (left_id_L ∅ (∪)). Qed.

Ltac stored_tac Hs := destruct Hs; split; cbn; by simplify_map_eq.

Lemma note_ringing_mirror now_s now_ms s id st :
  mirror s id st -> in_i64 now_ms ->
  exists s', note_ringing now_s now_ms id s = (s', tt) /\
    mirror s' id (match ringing_at_ms st with Some _ => st | None => with_ringing st now_ms end).
Proof using Hup.
  intros Hm Hnow. unfold note_ringing. erewrite St_bind_eq by by apply load_mirror. cbn iota beta.
  destruct (ringing_at_ms st) as [t|] eqn:Ht; [by exists s|].
  destruct (hset_expire_mirror s id st [("ringing_at_ms", to_string now_ms)] Hm)
    as (h & r' & E & Hs & Hk & Hr).
  erewrite St_bind_eq by exact E. eexists. split; [reflexivity|]. rewrite hset_one in Hk.
  eapply mirror_update; eauto; [apply Hm| |].
  - destruct (mi_wf _ _ _ Hm). split; cbn; auto. by intros t [= <-].
  - stored_tac Hs.
Qed.

Lemma note_keepalive_mirror now_s now_ms s id st user :
  mirror s id st -> in_u64 now_s -> role_of st user <> None ->
  exists s', note_keepalive now_s now_ms user s = (s', tt) /\
    mirror s' id (match role_of st user with
                  | Some Caller => with_keepalives st now_s (callee_last_keepalive_at st)
                  | _ => with_keepalives st (caller_last_keepalive_at st) now_s
                  end).
Proof using Hup.
  intros Hm Hnow Hrole. unfold note_keepalive.
  destruct (get_user_call_mirror s id st user Hm) as (r1 & E1 & Hk1 & Hr1).
  { unfold role_of in Hrole. case_bool_decide; [subst; apply Hm|].
    case_bool_decide; [subst; apply Hm|done]. }
  erewrite St_bind_eq by exact E1. cbn iota beta.
  assert (mirror (set_redis r1 s) id st) as Hm1 by by apply mirror_set_redis.
  erewrite St_bind_eq by by apply load_mirror. cbn iota beta.
  destruct (role_of st user) as [[]|]; [| |done].
  - destruct (hset_expire_mirror _ id st [("caller_last_keepalive_at_s", to_string now_s)] Hm1)
      as (h & r' & E & Hs & Hk & Hr).
    erewrite St_bind_eq by exact E. eexists. split; [reflexivity|].
    rewrite hset_one in Hk.
    eapply (mirror_update (set_redis r1 s)); eauto; [apply Hm| |].
    + destruct (mi_wf _ _ _ Hm). by split.
    + stored_tac Hs.
  - destruct (hset_expire_mirror _ id st [("callee_last_keepalive_at_s", to_string now_s)] Hm1)
      as (h & r' & E & Hs & Hk & Hr).
    erewrite St_bind_eq by exact E. eexists. split; [reflexivity|].
    rewrite hset_one in Hk.
    eapply (mirror_update (set_redis r1 s)); eauto; [apply Hm| |].
    + destruct (mi_wf _ _ _ Hm). by split.
    + stored_tac Hs.
Qed.

(** The state after [note_connected]: the first callee device named stays, the
    first answer time stays. *)
Definition connected_state (st : CallState) (dev : option string) (now_ms : Z) : CallState :=
  if match answered_at_ms st, dev with Some _, None => true | _, _ => false end then st
  else with_answer st (match accepted_callee_device_id st with None => dev | Some d => Some d end)
         (default now_ms (answered_at_ms st)).

Lemma note_connected_mirror now_s now_ms s id st dev :
  mirror s id st -> in_i64 now_ms -> dev <> Some "" ->
  exists s', note_connected now_s now_ms id dev s = (s', tt) /\
    mirror s' id (connected_state st dev now_ms).
Proof using Hup.
  intros Hm Hnow Hdev. unfold note_connected, connected_state.
  erewrite St_bind_eq by by apply load_mirror. cbn iota beta.
  destruct (mi_hash _ _ _ Hm) as (h & t & Hk & Hs).
  remember (match accepted_callee_device_id st with None => dev | Some d => Some d end)
    as acc eqn:Eacc.
  set (ts := default now_ms (answered_at_ms st)).
  assert (acc <> Some "") as Hacc.
  { destruct (mi_wf _ _ _ Hm). subst acc. by destruct (accepted_callee_device_id st). }
  assert (call_wf (with_answer st acc ts)) as Hwf.
  { destruct (mi_wf _ _ _ Hm) as [? ? ? Hans]. split; cbn; auto. intros t' [= <-]. unfold ts.
    destruct (answered_at_ms st); cbn; auto. }
  set (h1 := <["answered_at_ms" := to_string ts]> h).
  set (h2 := match acc with Some d => <["accepted_callee_device_id" := d]> h1 | None => h1 end).
  assert (stored h2 (with_answer st acc ts)) as Hs2.
  { unfold h2, h1. destruct Hs as [? ? ? Ha].
    destruct acc as [d|]; split; cbn; simplify_map_eq; auto.
    by destruct (accepted_callee_device_id st). }
  destruct (on_redis_pipe (HSET (call_key id) [("answered_at_ms", to_string ts)]
      :: match acc with Some d => [HSET (call_key id) [("accepted_callee_device_id", d)]]
         | None => [] end ++ [EXPIRE (call_key id) 300]) s
      (<[call_key id := Entry (VHash h2) (Some 300)]> (keys (redis s)))) as (r' & E & Hk' & Hr');
    [apply Hm| |].
  { unfold h2, h1. destruct acc as [d|]; cbn [pipe_doc cmd_doc app as_hash set_val fst];
      unfold as_hash, set_val, doc_expire; rewrite Hk; cbn;
      rewrite ?lookup_insert_eq; cbn; rewrite ?lookup_insert_eq; cbn;
      rewrite <- ?insert_union_l, ?(left_id_L ∅ (∪)), ?insert_insert_eq; done. }
  assert (mirror (set_calls (<[id := with_answer st acc ts]> (calls s)) (set_redis r' s)) id
            (with_answer st acc ts)) as Hm' by (eapply mirror_update; eauto; apply Hm).
  destruct (answered_at_ms st) as [ta|], dev as [d|]; cbn [negb andb].
  2:{ by exists s. }
  all: erewrite St_bind_eq by exact E; eexists; split; [reflexivity|exact Hm'].
Qed.

Lemma store_metadata_mirror s id st name avatar :
  mirror s id st ->
  exists s', store_call_metadata id name avatar s = (s', tt) /\ mirror s' id st.
Proof using Hup.
  intros Hm. destruct (hset_expire_mirror s id st
    [("caller_name", take_chars 128 name);
     ("caller_avatar_b64", if (length avatar <=? 4096)%nat then base64_encode avatar else "")] Hm)
    as (h & r' & E & Hs & Hk & Hr). rewrite hset_two in Hk.
  exists (set_redis r' s). split; [exact E|]. destruct Hm. split; cbn; auto.
  rewrite Hk, lookup_insert_eq. do 2 eexists. split; [done|]. stored_tac Hs.
Qed.

Lemma create_call_mirror now_s s id caller device callee offered h0 m0 :
  Up (redis s) -> in_u64 now_s -> in_i64 offered ->
  as_hash (keys (redis s)) (call_key id) = Some h0 ->
  as_set (keys (redis s)) ACTIVE_CALLS_SET_KEY = Some m0 ->
  exists s', create_call now_s id caller device callee offered s = (s', tt) /\
    mirror s' id (new_call now_s id caller device callee offered) /\
    calls s' = <[id := new_call now_s id caller device callee offered]> (calls s).
Proof using Hup.
  intros Hr Hnow Hoff Hh Hset. unfold create_call.
  set (st := new_call now_s id caller device callee offered).
  erewrite St_bind_eq by reflexivity. erewrite St_bind_eq by reflexivity.
  set (s1 := set_active _ _).
  edestruct (on_redis_pipe
    [HSET (call_key id) (call_fields st); EXPIRE (call_key id) 300;
     SETEX (active_call_key caller) id 300; SETEX (active_call_key callee) id 300;
     SADD ACTIVE_CALLS_SET_KEY [id]; EXPIRE ACTIVE_CALLS_SET_KEY 300] s1) as (r' & E & Hk & Hr');
    [exact Hr| |].
  { cbn [pipe_doc cmd_doc fst]. change (redis s1) with (redis s). rewrite Hh. cbn [fst].
    set (h1 := list_to_map (reverse (call_fields st)) ∪ h0).
    unfold doc_expire, set_val, as_set. cbn. rewrite lookup_insert_eq. cbn.
    rewrite !(lookup_insert_ne _ _ ACTIVE_CALLS_SET_KEY) by done. unfold as_set in Hset.
    rewrite Hset. cbn. rewrite lookup_insert_eq. cbn. rewrite !insert_insert_eq. reflexivity. }
  erewrite St_bind_eq by exact E. eexists. split; [reflexivity|]. split; [|done]. split; cbn.
  - by rewrite lookup_insert_eq.
  - done.
  - by apply call_wf_new.
  - rewrite Hk, !(lookup_insert_ne _ _ (call_key id)), lookup_insert_eq by done. do 2 eexists. split; [done|]. apply stored_new.
  - destruct (decide (callee = caller)) as [->|]; [by rewrite lookup_insert_eq|].
    by rewrite lookup_insert_ne, lookup_insert_eq.
  - by rewrite lookup_insert_eq.
  - done.
Qed.

(** Another instance, which does not hold the call, reads the state of this one. *)
Lemma replica_load now_s now_ms s (s' : registry (P := P)) id st :
  mirror s id st -> redis s' = redis s -> calls s' !! id = None ->
  exists s2, load_call_state now_s now_ms id s' = (s2, Some st) /\
    calls s2 = <[id := st]> (calls s') /\ keys (redis s2) = keys (redis s') /\ Up (redis s2).
Proof using Hup.
  intros Hm Hred Hnone. unfold load_call_state. erewrite St_bind_eq by reflexivity. rewrite Hnone.
  destruct (mi_hash _ _ _ Hm) as (h & t & Hk & Hs).
  destruct (available_exact Up Hup (redis s') (HGETALL (call_key id)) (keys (redis s')) (RMap h))
    as (r' & E & Hk' & Hr');
    [rewrite Hred; apply Hm|done|rewrite Hred; cbn; unfold as_hash; by rewrite Hk|].
  erewrite St_bind_eq by (unfold on_redis, exec_map; rewrite E; reflexivity). cbn [mbind option_bind].
  assert (parse_call now_s now_ms id h = Some st) as Hp.
  { rewrite <- (mi_id _ _ _ Hm). apply parse_stored; [done|apply Hm]. }
  cbn. rewrite Hp. eexists. split; [reflexivity|]. cbn. by split_and!.
Qed.

(** ** Runs of operations on one call *)

Inductive call_op :=
| ORinging (now_s now_ms : Z)
| OConnected (now_s now_ms : Z) (dev : option string)
| OKeepalive (now_s now_ms : Z) (user : string)
| OMetadata (name : string) (avatar : bytes).

Definition run_op (id : string) (o : call_op) : St (P := P) (R := R) unit :=
  match o with
  | ORinging now_s now_ms => note_ringing now_s now_ms id
  | OConnected now_s now_ms dev => note_connected now_s now_ms id dev
  | OKeepalive now_s now_ms user => note_keepalive now_s now_ms user
  | OMetadata name avatar => store_call_metadata id name avatar
  end.

Fixpoint run_ops (id : string) (os : list call_op) : St (P := P) (R := R) unit :=
  match os with
  | [] => mret tt
  | o :: rest => _ ← run_op id o; run_ops id rest
  end.

(** What an operation means for the call, without memory or Redis. *)
Definition op_spec (st : CallState) (o : call_op) : CallState :=
  match o with
  | ORinging _ now_ms => match ringing_at_ms st with Some _ => st | None => with_ringing st now_ms end
  | OConnected _ now_ms dev => connected_state st dev now_ms
  | OKeepalive now_s _ user =>
      match role_of st user with
      | Some Caller => with_keepalives st now_s (callee_last_keepalive_at st)
      | _ => with_keepalives st (caller_last_keepalive_at st) now_s
      end
  | OMetadata _ _ => st
  end.

Definition op_ok (caller callee : string) (o : call_op) : Prop :=
  match o with
  | ORinging _ now_ms => in_i64 now_ms
  | OConnected _ now_ms dev => in_i64 now_ms /\ dev <> Some ""
  | OKeepalive now_s _ user => in_u64 now_s /\ (user = caller \/ user = callee)
  | OMetadata _ _ => True
  end.

Lemma op_spec_users st o :
  caller_user_id (op_spec st o) = caller_user_id st /\
  callee_user_id (op_spec st o) = callee_user_id st.
Proof using Type. destruct o; cbn; unfold connected_state; by repeat case_match. Qed.

Lemma run_op_mirror s id st o :
  mirror s id st -> op_ok (caller_user_id st) (callee_user_id st) o ->
  exists s', run_op id o s = (s', tt) /\ mirror s' id (op_spec st o).
Proof using Hup.
  intros Hm Hok. destruct o as [ns nm|ns nm dev|ns nm user|name avatar]; cbn in *.
  - by apply note_ringing_mirror.
  - apply note_connected_mirror; tauto.
  - destruct Hok as [Hn Hu]. apply note_keepalive_mirror; auto. unfold role_of.
    case_bool_decide; [done|]. case_bool_decide; [done|]. destruct Hu; congruence.
  - by apply store_metadata_mirror.
Qed.

Lemma run_ops_mirror os s id st :
  mirror s id st -> Forall (op_ok (caller_user_id st) (callee_user_id st)) os ->
  exists s', run_ops id os s = (s', tt) /\ mirror s' id (foldl op_spec st os).
Proof using Hup.
  revert s st. induction os as [|o os IH]; intros s st Hm Hall; [by exists s|].
  inversion Hall as [|? ? Ho Hall']; subst.
  destruct (run_op_mirror s id st o Hm Ho) as (s1 & E1 & Hm1). cbn.
  erewrite St_bind_eq by exact E1. apply IH; [done|].
  destruct (op_spec_users st o) as [-> ->]. done.
Qed.

(** ** Removal *)

Lemma remove_call_mirror s id st m0 :
  mirror s id st -> as_set (keys (redis s)) ACTIVE_CALLS_SET_KEY = Some m0 ->
  exists s', remove_call id s = (s', tt) /\ Up (redis s') /\
    calls s' = delete id (calls s) /\
    active_calls s' = delete (callee_user_id st) (delete (caller_user_id st) (active_calls s)) /\
    delivered s' = delivered s /\
    keys (redis s') !! call_key id = None /\
    keys (redis s') !! active_call_key (caller_user_id st) = None /\
    keys (redis s') !! active_call_key (callee_user_id st) = None.
Proof using Hup.
  intros Hm Hset. unfold remove_call. erewrite St_bind_eq by reflexivity.
  rewrite (mi_calls _ _ _ Hm). erewrite St_bind_eq by reflexivity.
  erewrite St_bind_eq by reflexivity. set (s1 := set_active _ _).
  set (ks := delete (active_call_key (callee_user_id st))
               (delete (active_call_key (caller_user_id st))
                  (delete (call_key id) (keys (redis s))))).
  edestruct (on_redis_pipe [DEL (call_key id); DEL (active_call_key (caller_user_id st));
     DEL (active_call_key (callee_user_id st)); SREM ACTIVE_CALLS_SET_KEY id] s1)
    as (r' & E & Hk & Hr'); [apply Hm| |].
  { cbn [pipe_doc cmd_doc fst]. change (redis s1) with (redis s). fold ks.
    assert (as_set ks ACTIVE_CALLS_SET_KEY = Some m0) as ->.
    { rewrite <- Hset. unfold as_set, ks. by rewrite !lookup_delete_ne by done. }
    cbn [fst]. reflexivity. }
  erewrite St_bind_eq by exact E. eexists. split; [reflexivity|]. cbn. rewrite Hk.
  assert (forall k, k <> ACTIVE_CALLS_SET_KEY -> ks !! k = None ->
    set_or_drop ks ACTIVE_CALLS_SET_KEY (bool_decide (m0 ∖ {[id]} = ∅)) (VSet (m0 ∖ {[id]})) !! k
    = None) as Hgone.
  { intros k Hne Hks. unfold set_or_drop, set_val. case_match;
      [by rewrite lookup_delete_ne|by rewrite lookup_insert_ne]. }
  split_and!; auto; apply Hgone; try done; unfold ks.
  - by rewrite !lookup_delete_ne, lookup_delete_eq by done.
  - destruct (decide (active_call_key (callee_user_id st) = active_call_key (caller_user_id st)))
      as [->|]; [by rewrite lookup_delete_eq|].
    by rewrite lookup_delete_ne, lookup_delete_eq.
  - by rewrite lookup_delete_eq.
Qed.

(** What a reader sees of a call with no hash and a user with no marker. *)
Lemma load_gone now_s now_ms (s : registry (P := P)) id :
  Up (redis s) -> calls s !! id = None -> keys (redis s) !! call_key id = None ->
  exists s', load_call_state now_s now_ms id s = (s', None).
Proof using Hup.
  intros Hr Hc Hk. unfold load_call_state. erewrite St_bind_eq by reflexivity. rewrite Hc.
  destruct (available_exact Up Hup (redis s) (HGETALL (call_key id)) (keys (redis s)) (RMap ∅))
    as (r' & E & Hk' & Hr'); [done|done|cbn; unfold as_hash; by rewrite Hk|].
  erewrite St_bind_eq by (unfold on_redis, exec_map; rewrite E; reflexivity).
  cbn. eexists. reflexivity.
Qed.

Lemma not_busy (s : registry (P := P)) user :
  Up (redis s) -> active_calls s !! user = None -> keys (redis s) !! active_call_key user = None ->
  exists s', is_user_busy user s = (s', false).
Proof using Hup.
  intros Hr Ha Hk. unfold is_user_busy, get_user_call.
  destruct (available_exact Up Hup (redis s) (GET (active_call_key user)) (keys (redis s)) RNil)
    as (r' & E & Hk' & Hr'); [done|done|cbn; by rewrite Hk|].
  unfold mbind, St_bind, gets. rewrite Ha. unfold on_redis, exec_opt_string. rewrite E.
  cbn. eexists. reflexivity.
Qed.

End Mirror.

(** ** Delivery *)

Section Delivery.
Context {P : Type} `{Wire P} {R : Type} `{RedisLaws R}.
Context (iter : gmap string nat -> list (string * nat)).

Definition for_target (target : option string) (device_id : string) : bool :=
  match target with Some t => bool_decide (device_id = t) | None => true end.

(** The channels a signal can reach: of the target device, or of every device,
    and with someone listening. *)
Definition reachable_channels (target : option string) (listening : gset nat)
    (targets : list (string * nat)) : list (string * nat) :=
  List.filter (fun p => for_target target (fst p) && bool_decide (snd p ∈ listening)) targets.

Lemma local_loop_spec target f targets sent (s : registry (P := P) (R := R)) :
  (sent <= MAX_SIGNAL_DESTINATIONS)%nat ->
  let reached := take (MAX_SIGNAL_DESTINATIONS - sent)
                   (reachable_channels target (live s) targets) in
  local_loop target f targets sent s
  = (set_delivered (delivered s ++ map (fun p => (snd p, f)) reached) s,
     (sent + length reached)%nat).
Proof using Type.
  revert sent s. induction targets as [|[d tx] targets IH]; intros sent s Hs; cbn [local_loop].
  - cbn. rewrite take_nil. cbn. rewrite app_nil_r, Nat.add_0_r. by destruct s.
  - unfold reachable_channels. cbn [List.filter fst snd]. fold (reachable_channels target (live s) targets).
    replace (match target with Some t => negb (bool_decide (d = t)) | None => false end)
      with (negb (for_target target d)) by by destruct target.
    destruct (for_target target d); cbn [negb andb]; [|by apply IH].
    destruct (Nat.leb_spec MAX_SIGNAL_DESTINATIONS sent).
    + replace (MAX_SIGNAL_DESTINATIONS - sent)%nat with 0%nat by lia. cbn.
      rewrite app_nil_r, Nat.add_0_r. by destruct s.
    + unfold mbind, St_bind, tx_send. case_bool_decide as Hlive; [|apply (IH sent s); lia].
      rewrite (IH (S sent)) by lia. cbn [live set_delivered].
      replace (MAX_SIGNAL_DESTINATIONS - sent)%nat
        with (S (MAX_SIGNAL_DESTINATIONS - S sent)) by lia. cbn [take map length].
      f_equal; [|lia]. unfold set_delivered. cbn. by rewrite <- app_assoc.
Qed.

(** Nothing but the Redis connection changed, and it only read or published. *)
Definition quiet (s s' : registry (P := P) (R := R)) : Prop :=
  exists r', s' = set_redis r' s /\ keys r' = keys (redis s) /\ moved (redis s) r'.

Lemma quiet_refl s : quiet s s.
Proof using Type. exists (redis s). split; [by destruct s|]. by split. Qed.

Lemma quiet_trans s1 s2 s3 : quiet s1 s2 -> quiet s2 s3 -> quiet s1 s3.
Proof using Type.
  intros (r1 & -> & Hk1 & Hm1) (r2 & -> & Hk2 & Hm2). exists r2. cbn in *.
  split_and!; [done|congruence|]. by etrans.
Qed.

Definition read_only (c : cmd) : Prop :=
  forall ks ks' rep, cmd_doc c ks = Some (ks', rep) -> ks' = ks.

Lemma on_redis_quiet {A} (run : R -> R * option A) (s : registry (P := P)) c :
  (forall r, fst (run r) = fst (exec r c)) -> read_only c ->
  exists s' o, on_redis run s = (s', o) /\ quiet s s'.
Proof using Type.
  intros Hrun Hro. unfold on_redis. specialize (Hrun (redis s)).
  destruct (run (redis s)) as [r' o], (exec (redis s) c) as [r2 o2] eqn:E. cbn in Hrun. subst r2.
  do 2 eexists. split; [done|]. exists r'. split_and!; [done|by eapply exec_read_keys|].
  pose proof (moved_exec (redis s) c) as Hm. by rewrite E in Hm.
Qed.

Ltac read_only_tac :=
  intros ks ks' rep; cbn; repeat case_match; intros; by simplify_eq.

Lemma publish_quiet inst env (s : registry (P := P)) :
  exists s' b, publish_to_instance inst env s = (s', b) /\ quiet s s'.
Proof using Type.
  unfold publish_to_instance. destruct (json_to_string env) as [payload|];
    [|eauto using quiet_refl].
  destruct (on_redis_quiet (fun r => exec_int r (PUBLISH (instance_channel inst) payload)) s
    (PUBLISH (instance_channel inst) payload)) as (s' & o & E & Hq).
  - intros r. unfold exec_int. by destruct (exec r _) as [? [[]|]].
  - read_only_tac.
  - erewrite St_bind_eq by exact E. eexists _, _. by split.
Qed.

Lemma list_online_quiet user (s : registry (P := P)) :
  exists s' l, list_online_devices user s = (s', l) /\ quiet s s'.
Proof using Type.
  unfold list_online_devices.
  destruct (on_redis_quiet (fun r => exec_pairs r (SCANGET ("signaling:online:" +:+ user +:+ ":"))) s
    (SCANGET ("signaling:online:" +:+ user +:+ ":"))) as (s' & o & E & Hq).
  - intros r. unfold exec_pairs. by destruct (exec r _) as [? [[]|]].
  - read_only_tac.
  - erewrite St_bind_eq by exact E. eexists _, _. by split.
Qed.

Lemma lookup_instance_quiet user dev (s : registry (P := P)) :
  exists s' l, lookup_device_instance user dev s = (s', l) /\ quiet s s'.
Proof using Type.
  unfold lookup_device_instance.
  destruct (on_redis_quiet (fun r => exec_opt_string r (GET (online_key user dev))) s
    (GET (online_key user dev))) as (s' & o & E & Hq).
  - intros r. unfold exec_opt_string. by destruct (exec r _) as [? [[]|]].
  - read_only_tac.
  - erewrite St_bind_eq by exact E. eexists _, _. by split.
Qed.

Lemma remote_loop_bounded user except self b64 devices n (s : registry (P := P)) :
  (n <= MAX_SIGNAL_DESTINATIONS)%nat ->
  exists s' k, remote_loop user except self b64 devices n s = (s', k) /\ quiet s s' /\
    (k <= MAX_SIGNAL_DESTINATIONS)%nat.
Proof using Type.
  revert n s. induction devices as [|[d inst] devices IH]; intros n s Hn; cbn [remote_loop].
  - eexists _, _. split_and!; eauto using quiet_refl.
  - destruct (Nat.leb_spec MAX_SIGNAL_DESTINATIONS n).
    + eexists _, _. split_and!; eauto using quiet_refl.
    + case_bool_decide; [by apply IH|]. case_bool_decide; [by apply IH|].
      edestruct (publish_quiet inst {| env_user_id := user; env_device_id := Some d;
        response_b64 := b64 |} s) as (s1 & b & E & Hq).
      erewrite St_bind_eq by exact E. cbn beta.
      destruct (IH (if b then S n else n) s1) as (s2 & k & E2 & Hq2 & Hk);
        [destruct b; lia|].
      exists s2, k. split_and!; [done|by eapply quiet_trans|done].
Qed.

Lemma send_remote_bounded user target except f (s : registry (P := P)) :
  exists s' k, send_remote_to_user user target except f s = (s', k) /\ quiet s s' /\
    (k <= MAX_SIGNAL_DESTINATIONS)%nat.
Proof using Type.
  unfold send_remote_to_user. erewrite St_bind_eq by reflexivity.
  assert (0 <= MAX_SIGNAL_DESTINATIONS)%nat by lia.
  destruct target as [d|].
  - case_bool_decide; [eexists _, _; split_and!; eauto using quiet_refl|].
    destruct (lookup_instance_quiet user d s) as (s1 & o & E & Hq). erewrite St_bind_eq by exact E.
    destruct o as [inst|]; [|eexists _, _; split_and!; eauto using quiet_refl].
    case_bool_decide; [eexists _, _; split_and!; eauto using quiet_refl|].
    edestruct (publish_quiet inst {| env_user_id := user; env_device_id := Some d;
      response_b64 := encode_signal_response_base64 (signal_response_from_forwarded f) |} s1)
      as (s2 & b & E2 & Hq2).
    erewrite St_bind_eq by exact E2. eexists _, _. split_and!; eauto using quiet_trans.
    unfold MAX_SIGNAL_DESTINATIONS. destruct b; lia.
  - destruct (list_online_quiet user s) as (s1 & l & E & Hq). erewrite St_bind_eq by exact E.
    destruct (remote_loop_bounded user except (instance_id s)
      (encode_signal_response_base64 (signal_response_from_forwarded f)) l 0 s1)
      as (s2 & k & E2 & Hq2 & Hk); [done|].
    exists s2, k. split_and!; [done|by eapply quiet_trans|done].
Qed.

Definition senders (s : registry (P := P) (R := R)) (user : string) : list (string * nat) :=
  match user_channels s !! user with Some devices => iter devices | None => [] end.

Lemma send_to_user_spec user target f (s : registry (P := P)) :
  let reached := take MAX_SIGNAL_DESTINATIONS
                   (reachable_channels target (live s) (senders s user)) in
  exists s' k, send_to_user iter user target f s = (s', (length reached + k)%nat) /\
    (k <= MAX_SIGNAL_DESTINATIONS)%nat /\
    quiet (set_delivered (delivered s ++ map (fun p => (snd p, f)) reached) s) s'.
Proof using Type.
  intros reached. unfold send_to_user, send_local_to_user.
  pose proof (local_loop_spec target f (senders s user) 0 s ltac:(lia)) as Hl.
  cbn zeta in Hl. rewrite Nat.sub_0_r in Hl. fold reached in Hl.
  erewrite St_bind_eq by (erewrite St_bind_eq by reflexivity; exact Hl).
  destruct (send_remote_bounded user target None f
    (set_delivered (delivered s ++ map (fun p => (snd p, f)) reached) s)) as (s2 & k & E & Hq & Hk).
  erewrite St_bind_eq by exact E. eexists _, _. split; [reflexivity|]. by split.
Qed.

End Delivery.

(** ** Cleanup decisions *)

(** A call the cleanup leaves alone, in plain arithmetic: at most five minutes
    old, both sides heard from within a minute, ringing or answered or offered
    within 45 seconds, and not ringing unanswered for 30 seconds with both sides
    silent for 30. *)
Definition spared (now_s now_ms : Z) (st : CallState) : Prop :=
  now_s - created_at st <= 300 /\
  (ringing_at_ms st = None -> answered_at_ms st = None -> now_ms - offered_at_ms st <= 45000) /\
  (forall t, ringing_at_ms st = Some t -> answered_at_ms st = None ->
     now_ms - t <= 30000 \/ now_s - caller_last_keepalive_at st <= 30 \/
     now_s - callee_last_keepalive_at st <= 30) /\
  now_s - caller_last_keepalive_at st <= 60 /\ now_s - callee_last_keepalive_at st <= 60.

Lemma ltb_sub_u64 k a b : 0 <= k -> (k <? saturating_sub_u64 a b) = (k <? a - b).
Proof.
  intros Hk. unfold saturating_sub_u64.
  destruct (Z.ltb_spec k (Z.max 0 (a - b))), (Z.ltb_spec k (a - b)); lia.
Qed.

Lemma ltb_sub_i64 k a b : 0 <= k < i64_max -> (k <? saturating_sub_i64 a b) = (k <? a - b).
Proof.
  intros Hk. unfold saturating_sub_i64, i64_min, i64_max in *.
  destruct (Z.ltb_spec k (Z.max (-9223372036854775808) (Z.min 9223372036854775807 (a - b)))),
    (Z.ltb_spec k (a - b)); lia.
Qed.

(** The pub/sub path, the two ends of it. *)
Definition envelope_of {P} `{Wire P} (user device : string) (f : ForwardedSignal P)
    : InstanceEnvelope :=
  {| env_user_id := user; env_device_id := Some device;
     response_b64 := encode_signal_response_base64 (signal_response_from_forwarded f) |}.

(** ** First events of a run *)

Fixpoint first_some {A B} (f : A -> option B) (l : list A) : option B :=
  match l with
  | [] => None
  | x :: rest => match f x with Some b => Some b | None => first_some f rest end
  end.

Definition device_named (o : call_op) : option string :=
  match o with OConnected _ _ dev => dev | _ => None end.
Definition time_connected (o : call_op) : option Z :=
  match o with OConnected _ now_ms _ => Some now_ms | _ => None end.
Definition time_ringing (o : call_op) : option Z :=
  match o with ORinging _ now_ms => Some now_ms | _ => None end.

Definition or_else {A} (o o' : option A) : option A :=
  match o with Some _ => o | None => o' end.

Lemma op_spec_history st o :
  accepted_callee_device_id (op_spec st o)
    = or_else (accepted_callee_device_id st) (device_named o) /\
  answered_at_ms (op_spec st o) = or_else (answered_at_ms st) (time_connected o) /\
  ringing_at_ms (op_spec st o) = or_else (ringing_at_ms st) (time_ringing o).
Proof.
  unfold or_else. destruct o as [ns nm|ns nm dev|ns nm user|name avatar]; cbn.
  - split_and!; repeat case_match; cbn; congruence.
  - unfold connected_state, with_answer. destruct (answered_at_ms st) as [t|] eqn:Ha, dev as [d|];
      cbn; rewrite ?Ha; split_and!; repeat case_match; cbn in *; congruence.
  - split_and!; repeat case_match; cbn; congruence.
  - split_and!; by repeat case_match.
Qed.

Lemma op_specs_history os st :
  let st' := foldl op_spec st os in
  accepted_callee_device_id st'
    = or_else (accepted_callee_device_id st) (first_some device_named os) /\
  answered_at_ms st' = or_else (answered_at_ms st) (first_some time_connected os) /\
  ringing_at_ms st' = or_else (ringing_at_ms st) (first_some time_ringing os).
Proof.
  revert st. induction os as [|o os IH]; intros st; cbn.
  - unfold or_else. split_and!; by case_match.
  - destruct (IH (op_spec st o)) as (-> & -> & ->). destruct (op_spec_history st o) as (-> & -> & ->).
    unfold or_else. split_and!; by repeat case_match.
Qed.

(** ** Properties *)

Section Properties.
Context {P : Type} `{Wire P} {R : Type} `{RedisLaws R}.


(** who answered, and when. In the state of [replica_agrees], the accepted
    callee device is the first device that any [Connected] named and never
    changes after, the answer time is that of the first [Connected] of either
    side, and the ringing time that of the first [Ringing]. *)
Theorem first_answer_wins (Up : R -> Prop) (a : registry (P := P) (R := R)) now_s id caller device
    callee offered ops h0 m0
  (Hup : available Up) (Hr : Up (redis a)) (Hnow : in_u64 now_s) (Hoff : in_i64 offered)
  (Hh : as_hash (keys (redis a)) (call_key id) = Some h0)
  (Hm : as_set (keys (redis a)) ACTIVE_CALLS_SET_KEY = Some m0)
  (Hops : Forall (op_ok caller callee) ops) :
  let a' := (run_ops id ops (create_call now_s id caller device callee offered a).1).1 in
  exists st, calls a' !! id = Some st /\
    accepted_callee_device_id st = first_some device_named ops /\
    answered_at_ms st = first_some time_connected ops /\
    ringing_at_ms st = first_some time_ringing ops.
Proof.
  destruct (create_call_mirror Up Hup now_s a id caller device callee offered h0 m0)
    as (a1 & E1 & Hm1 & _); auto.
  destruct (run_ops_mirror Up Hup ops a1 id _ Hm1 Hops) as (a2 & E2 & Hm2).
  rewrite E1. cbn [fst]. rewrite E2. cbn [fst]. eexists. split; [apply Hm2|]. apply op_specs_history.
Qed.

(** a removed call is gone everywhere. After [remove_call] of a call the
    instance holds (with Redis answering and agreeing on it), on every instance
    that shares the Redis and holds neither the call nor a marker for its parties
    - the removing one included - loading the call finds nothing and neither
    party is busy. *)
Theorem removed_everywhere (Up : R -> Prop) (a b : registry (P := P) (R := R)) id st m0 now_s now_ms
  (Hup : available Up) (Hmir : mirror Up a id st)
  (Hm : as_set (keys (redis a)) ACTIVE_CALLS_SET_KEY = Some m0)
  (Hb : calls b !! id = None) (Hb1 : active_calls b !! caller_user_id st = None)
  (Hb2 : active_calls b !! callee_user_id st = None) :
  let a' := (remove_call id a).1 in
  (forall c, c = a' \/ c = set_redis (redis a') b ->
   (load_call_state now_s now_ms id c).2 = None /\
   (is_user_busy (caller_user_id st) c).2 = false /\
   (is_user_busy (callee_user_id st) c).2 = false).
Proof.
  destruct (remove_call_mirror Up Hup a id st m0 Hmir Hm)
    as (a1 & E & Hr & Hc & Ha & _ & Hk & Hk1 & Hk2).
  intros a' c Hcase. assert (a' = a1) as -> by (unfold a'; by rewrite E).
  assert (Up (redis c) /\ keys (redis c) = keys (redis a1) /\ calls c !! id = None /\
    active_calls c !! caller_user_id st = None /\ active_calls c !! callee_user_id st = None)
    as (Hrc & Hkc & Hcc & Hc1 & Hc2).
  { destruct Hcase as [->| ->]; cbn; split_and!; auto.
    - by rewrite Hc, lookup_delete_eq.
    - rewrite Ha. destruct (decide (callee_user_id st = caller_user_id st)) as [->|];
        [by rewrite lookup_delete_eq|]. by rewrite lookup_delete_ne, lookup_delete_eq.
    - by rewrite Ha, lookup_delete_eq. }
  destruct (load_gone Up Hup now_s now_ms c id Hrc Hcc) as (c1 & ->); [by rewrite Hkc|].
  destruct (not_busy Up Hup c (caller_user_id st) Hrc Hc1) as (c2 & ->); [by rewrite Hkc|].
  destruct (not_busy Up Hup c (callee_user_id st) Hrc Hc2) as (c3 & ->); [by rewrite Hkc|]. done.
Qed.

(** delivery to a user is bounded and exact. [send_to_user] puts the signal on
    exactly the first five listening channels of the target device (of all the
    user's devices, without a target) in iteration order, publishes to at most
    five devices elsewhere, returns the sum, and changes no call, marker, channel
    or Redis key. *)
Theorem send_fanout (iter : gmap string nat -> list (string * nat))
    (s : registry (P := P) (R := R)) user target f :
  let reached := take MAX_SIGNAL_DESTINATIONS
                   (reachable_channels target (live s) (senders iter s user)) in
  let '(s', n) := send_to_user iter user target f s in
  delivered s' = delivered s ++ map (fun p => (snd p, f)) reached /\
  (length reached <= n <= length reached + MAX_SIGNAL_DESTINATIONS)%nat /\
  calls s' = calls s /\ active_calls s' = active_calls s /\
  user_channels s' = user_channels s /\ live s' = live s /\
  keys (redis s') = keys (redis s).
Proof.
  intros reached. destruct (send_to_user_spec iter user target f s) as (s' & k & -> & Hk & Hq).
  destruct Hq as (r' & -> & Hkeys & _). cbn in *. split_and!; auto; lia.
Qed.

(** what the cleanup spares. The decision on a call is empty exactly if the
    call is [spared]; every other decision ends with the removal of that call. *)
Theorem cleanup_spares_exactly now_s now_ms st :
  (cleanup_decide now_s now_ms st = [] <-> spared now_s now_ms st) /\
  (cleanup_decide now_s now_ms st = [] \/
   exists acts, cleanup_decide now_s now_ms st = acts ++ [RemoveCall (call_id st)]).
Proof.
  unfold cleanup_decide, spared. rewrite !ltb_sub_u64 by lia.
  destruct (Z.ltb_spec 300 (now_s - created_at st)); [split; [split; [done|lia]|right; by exists []]|].
  destruct (Z.ltb_spec 60 (now_s - caller_last_keepalive_at st)),
    (Z.ltb_spec 60 (now_s - callee_last_keepalive_at st)),
    (Z.ltb_spec 30 (now_s - caller_last_keepalive_at st)),
    (Z.ltb_spec 30 (now_s - callee_last_keepalive_at st)); cbn [orb andb]; try lia;
  destruct (ringing_at_ms st) as [t|], (answered_at_ms st) as [t'|];
  rewrite ?ltb_sub_i64 by (unfold i64_max; lia);
  try destruct (Z.ltb_spec 45000 (now_ms - offered_at_ms st));
  try destruct (Z.ltb_spec 30000 (now_ms - t)); cbn [andb];
  (split; [split; [try done; intros _|intros (Hx1 & Hx2 & Hx3 & Hx4 & Hx5); try done; exfalso]
          |first [by left|right; by eexists [_]]]).
  all: try (split_and!; auto; try lia; intros; simplify_eq; lia).
  all: try lia.
  all: try (specialize (Hx2 eq_refl eq_refl); lia).
  all: try (specialize (Hx3 _ eq_refl eq_refl); lia).
Qed.

(** one cleaner at a time. When an instance takes the cleanup lock, a tick of
    any other instance on the same Redis, while the lock's key lives, does
    nothing: no call, marker, delivery or Redis key changes. *)
Theorem cleanup_lock_exclusive (Up : R -> Prop) (iter : gmap string nat -> list (string * nat))
    (a b : registry (P := P) (R := R)) now_s now_ms
  (Hup : available Up) (Hr : Up (redis a)) (Hfree : keys (redis a) !! CLEANUP_LOCK_KEY = None) :
  let '(a', got) := try_acquire_cleanup_lock a in
  got = true /\
  let b1 := set_redis (redis a') b in
  let b2 := (cleanup_tick iter now_s now_ms b1).1 in
  calls b2 = calls b1 /\ active_calls b2 = active_calls b1 /\ delivered b2 = delivered b1 /\
  keys (redis b2) = keys (redis b1).
Proof.
  unfold try_acquire_cleanup_lock. erewrite St_bind_eq by reflexivity.
  edestruct (available_exact Up Hup (redis a) (SETNXEX CLEANUP_LOCK_KEY (instance_id a) 4))
    as (r1 & E1 & Hk1 & Hr1); [done|done|cbn; rewrite Hfree; reflexivity|].
  erewrite St_bind_eq by (unfold on_redis; rewrite E1; reflexivity). split; [done|].
  cbn zeta. set (b1 := set_redis _ b). unfold cleanup_tick, try_acquire_cleanup_lock.
  edestruct (available_exact Up Hup r1 (SETNXEX CLEANUP_LOCK_KEY (instance_id b1) 4))
    as (r2 & E2 & Hk2 & Hr2); [done|done|cbn; rewrite Hk1, lookup_insert_eq; reflexivity|].
  unfold mbind, St_bind, gets, on_redis. change (redis b1) with r1. rewrite E2. cbn.
  split_and!; congruence.
Qed.

(** a signal published for a device of another instance arrives unchanged.
    Whatever payload the JSON encoder gives for the envelope of a signal, the
    receiving instance handles it by sending exactly that signal to that device
    of that user. *)
Theorem pubsub_roundtrip `{!WireLaws P} (iter : gmap string nat -> list (string * nat))
    (s : registry (P := P) (R := R)) user device f payload
  (Hp : json_to_string (envelope_of user device f) = Some payload) :
  (handle_pubsub iter payload s).1 = (send_local_to_user iter user (Some device) f s).1.
Proof.
  unfold handle_pubsub. rewrite (json_from_to _ _ Hp). cbn [response_b64 envelope_of].
  unfold decode_signal_response_base64, encode_signal_response_base64.
  rewrite base64_decode_encode, decode_encode.
  assert (forwarded_from_signal_response (signal_response_from_forwarded f) = Some f) as ->
    by by destruct f.
  cbn [env_user_id env_device_id envelope_of]. unfold mbind, St_bind.
  by destruct (send_local_to_user iter user (Some device) f s).
Qed.

End Properties.

(** ** A concrete wire format

    The reference codec: a response is numbered, and its number written in
    binary, one byte a bit. *)

Fixpoint bits_of_pos (p : positive) : bytes :=
  match p with xH => [] | xO p => x00 :: bits_of_pos p | xI p => x01 :: bits_of_pos p end.
Fixpoint pos_of_bits (l : bytes) : positive :=
  match l with [] => xH | x00 :: l => xO (pos_of_bits l) | _ :: l => xI (pos_of_bits l) end.

Lemma pos_of_bits_of_pos p : pos_of_bits (bits_of_pos p) = p.
Proof. induction p; cbn; congruence. Qed.

#[global] Instance byte_countable : Countable byte :=
  inj_countable Byte.to_N Byte.of_N Byte.of_to_N.

#[global] Instance CallHangup_eq_dec : EqDecision CallHangup.
Proof. solve_decision. Defined.
#[global] Instance CallHangup_countable : Countable CallHangup.
Proof.
  refine (inj_countable' (fun h => (reason h, hangup_device_id h, hangup_at h, hangup_message h))
    (fun '(a, b, c, d) => Build_CallHangup a b c d) _). by intros [].
Defined.
#[global] Instance Signal_eq_dec : EqDecision (Signal unit).
Proof. solve_decision. Defined.
#[global] Instance Signal_countable : Countable (Signal unit).
Proof.
  refine (inj_countable' (B := Signal unit) (A := N + CallHangup)
    (fun s => match s with
              | Offer _ => inl 0%N | Answer _ => inl 1%N | IceCandidate _ => inl 2%N
              | IceCandidates _ => inl 3%N | MediaUpdate _ => inl 4%N | Ringing _ => inl 5%N
              | Connected _ => inl 6%N | Busy _ => inl 7%N | Hangup h => inr h end)
    (fun c => match c with
              | inl 0%N => Offer tt | inl 1%N => Answer tt | inl 2%N => IceCandidate tt
              | inl 3%N => IceCandidates tt | inl 4%N => MediaUpdate tt | inl 5%N => Ringing tt
              | inl 6%N => Connected tt | inl _ => Busy tt | inr h => Hangup h end) _).
  by intros [[]|[]|[]|[]|[]|[]|[]|[]|].
Defined.
#[global] Instance WebRtcSignal_eq_dec : EqDecision (WebRtcSignal unit).
Proof. solve_decision. Defined.
#[global] Instance WebRtcSignal_countable : Countable (WebRtcSignal unit).
Proof.
  refine (inj_countable' (fun s => (sig_call_id s, signal s, sender_device_id s, timestamp s))
    (fun '(a, b, c, d) => Build_WebRtcSignal unit a b c d) _). by intros [].
Defined.
#[global] Instance IncomingCall_eq_dec : EqDecision IncomingCall.
Proof. solve_decision. Defined.
#[global] Instance IncomingCall_countable : Countable IncomingCall.
Proof.
  refine (inj_countable' (fun c => (ic_call_id c, caller_id c, caller_name c, caller_avatar c,
                                    call_type c, offered_at c))
    (fun '(a, b, c, d, e, f) => Build_IncomingCall a b c d e f) _). by intros [].
Defined.
#[global] Instance SignalErrorInfo_eq_dec : EqDecision SignalErrorInfo.
Proof. solve_decision. Defined.
#[global] Instance SignalErrorInfo_countable : Countable SignalErrorInfo.
Proof.
  refine (inj_countable' (fun e => (err_code e, err_message e))
    (fun '(a, b) => Build_SignalErrorInfo a b) _). by intros [].
Defined.
#[global] Instance Response_eq_dec : EqDecision (Response unit).
Proof. solve_decision. Defined.
#[global] Instance Response_countable : Countable (Response unit).
Proof.
  refine (inj_countable' (B := Response unit)
    (A := (WebRtcSignal unit + IncomingCall) + (SignalErrorInfo + Z * Z))
    (fun r => match r with
              | RSignal s => inl (inl s) | RIncomingCall c => inl (inr c)
              | RError e => inr (inl e) | RPong a b => inr (inr (a, b)) end)
    (fun c => match c with
              | inl (inl s) => RSignal s | inl (inr c) => RIncomingCall c
              | inr (inl e) => RError e | inr (inr (a, b)) => RPong a b end) _).
  by intros [].
Defined.
#[global] Instance InstanceEnvelope_eq_dec : EqDecision InstanceEnvelope.
Proof. solve_decision. Defined.
#[global] Instance InstanceEnvelope_countable : Countable InstanceEnvelope.
Proof.
  refine (inj_countable' (fun e => (env_user_id e, env_device_id e, response_b64 e))
    (fun '(a, b, c) => Build_InstanceEnvelope a b c) _). by intros [].
Defined.

#[global] Instance ref_wire : Wire unit := {|
  encode_to_vec r := bits_of_pos (countable.encode r);
  decode b := countable.decode (pos_of_bits b);
  base64_encode := String.string_of_list_byte;
  base64_decode s := Some (String.list_byte_of_string s);
  json_to_string e := Some (String.string_of_list_byte (bits_of_pos (countable.encode e)));
  json_from_str s := countable.decode (pos_of_bits (String.list_byte_of_string s));
|}.

#[global] Instance ref_wire_laws : WireLaws unit.
Proof.
  split.
  - intros r. cbn. by rewrite pos_of_bits_of_pos, countable.decode_encode.
  - intros b. unfold base64_decode, base64_encode, ref_wire.
    by rewrite String.list_byte_of_string_of_list_byte.
  - intros e s [= <-]. unfold json_from_str, ref_wire.
    by rewrite String.list_byte_of_string_of_list_byte, pos_of_bits_of_pos,
      countable.decode_encode.
Qed.


(** *** Witnesses *)

Definition toy_iter (m : gmap string nat) : list (string * nat) := map_to_list m.
Definition toy_a : registry (P := unit) := new "A" (Mem ∅ true).
Definition toy_b : registry (P := unit) := new "B" (Mem ∅ true).
Definition toy_ops : list call_op :=
  [OMetadata "Alice" []; ORinging 1002 1002000; OConnected 1004 1004000 None;
   OConnected 1005 1005000 (Some "b-phone"); OKeepalive 1010 1010000 "bob"].

Lemma toy_ops_ok : Forall (op_ok "alice" "bob") toy_ops.
Proof.
  repeat (constructor; [vm_compute; intuition congruence|]). constructor.
Qed.


Lemma first_answer_wins_witness :
  exists st, calls (run_ops "c1" toy_ops
      (create_call 1000 "c1" "alice" "a-phone" "bob" 1000000 toy_a).1).1 !! "c1" = Some st /\
    accepted_callee_device_id st = Some "b-phone" /\ answered_at_ms st = Some 1004000.
Proof.
  destruct (first_answer_wins (fun r : mem => mem_up r = true) toy_a 1000 "c1" "alice" "a-phone"
    "bob" 1000000 toy_ops ∅ ∅ mem_available eq_refl) as (st & Hst & Ha & Hb & _).
  - vm_compute. intuition congruence.
  - vm_compute. intuition congruence.
  - reflexivity.
  - reflexivity.
  - apply toy_ops_ok.
  - exists st. split; [exact Hst|]. split; [exact Ha|exact Hb].
Defined.

Definition toy_call : registry (P := unit) :=
  (create_call 1000 "c1" "alice" "a-phone" "bob" 1000000 toy_a).1.

Lemma toy_mirror :
  mirror (fun r : mem => mem_up r = true) toy_call "c1"
    (new_call 1000 "c1" "alice" "a-phone" "bob" 1000000).
Proof.
  edestruct (create_call_mirror (fun r : mem => mem_up r = true) mem_available 1000 toy_a "c1"
    "alice" "a-phone" "bob" 1000000 ∅ ∅) as (s & E & Hm & _);
    [done|vm_compute; intuition congruence|vm_compute; intuition congruence|done|done|].
  unfold toy_call. by rewrite E.
Qed.

Lemma removed_everywhere_witness :
  let a' := (remove_call "c1" toy_call).1 in
  (load_call_state 2000 2000000 "c1" (set_redis (redis a') toy_b)).2 = None.
Proof.
  intros a'. apply (removed_everywhere (fun r : mem => mem_up r = true) toy_call toy_b "c1"
    (new_call 1000 "c1" "alice" "a-phone" "bob" 1000000) {["c1"]} 2000 2000000 mem_available
    toy_mirror eq_refl eq_refl eq_refl eq_refl). by right.
Defined.

Lemma cleanup_lock_exclusive_witness :
  calls (cleanup_tick toy_iter 1 1000
           (set_redis (redis (try_acquire_cleanup_lock toy_call).1) toy_b)).1 = ∅.
Proof.
  pose proof (cleanup_lock_exclusive (fun r : mem => mem_up r = true) toy_iter toy_call toy_b 1 1000
    mem_available eq_refl eq_refl) as Hx.
  destruct (try_acquire_cleanup_lock toy_call) as [a' got] eqn:E.
  destruct Hx as (_ & Hc & _). exact Hc.
Defined.

Definition toy_error : ForwardedSignal unit := FError {| err_code := 3; err_message := "x" |}.

Lemma pubsub_roundtrip_witness :
  exists payload, json_to_string (envelope_of "bob" "b-phone" toy_error) = Some payload /\
    (handle_pubsub toy_iter payload toy_b).1
    = (send_local_to_user toy_iter "bob" (Some "b-phone") toy_error toy_b).1.
Proof.
  eexists. split; [reflexivity|].
  exact (pubsub_roundtrip toy_iter toy_b "bob" "b-phone" toy_error _ eq_refl).
Defined.

(** ** Behaviours worth knowing *)

(** Bob is on another instance: his answer and his keepalive of second 1055 go
    to [toy_b] and to Redis, Alice's of the same second to [toy_a]. *)
Definition split_call : registry (P := unit) * registry (P := unit) :=
  let b1 := (note_connected 1004 1004000 "c1" (Some "b-phone")
               (set_redis (redis toy_call) toy_b)).1 in
  let b2 := (note_keepalive 1055 1055000 "bob" b1).1 in
  let a1 := (note_keepalive 1055 1055000 "alice" (set_redis (redis b2) toy_call)).1 in
  (a1, set_redis (redis a1) b2).


End CallRegistry.
