(* ===== verification/Signaling.v ===== *)
(** * The signaling service: rate limits, call set-up and the signal stream

    Models signaling-service/src/rate_limiter.rs, service.rs and turn.rs on top
    of the call registry (CallRegistry.v). The token of a request and the
    standing of a stream's token are decided by the shared authentication code
    and come in as values, as do the two database checks of a new call; a push
    to wake the callee is an output. The per-stream token bucket works in
    floating point: its verdict on a frame is part of the frame. *)

From S2P Require Import Prelude Text RedisStore CallRegistry.

Module Signaling.
Import Redis CallRegistry.

(** ** Rate limits *)

Record RateLimitConfig := {
  call_max : Z; call_window_secs : Z; peer_max : Z; peer_window_secs : Z;
  decline_cooldown_secs : Z; turn_max : Z; turn_window_secs : Z;
}.

Definition default_config : RateLimitConfig := {|
  call_max := 10; call_window_secs := 60; peer_max := 3; peer_window_secs := 60;
  decline_cooldown_secs := 60; turn_max := 10; turn_window_secs := 60;
|}.

Definition env_i64 (env : string -> option string) (key : string) (dflt : Z) : Z :=
  match env key ≫= parse_i64 with
  | Some n => if 0 <? n then n else dflt
  | None => dflt
  end.

Definition from_env (env : string -> option string) : RateLimitConfig :=
  let d := default_config in {|
  call_max := env_i64 env "RATE_LIMIT_CALL_MAX" (call_max d);
  call_window_secs := env_i64 env "RATE_LIMIT_CALL_WINDOW_SECS" (call_window_secs d);
  peer_max := env_i64 env "RATE_LIMIT_PEER_MAX" (peer_max d);
  peer_window_secs := env_i64 env "RATE_LIMIT_PEER_WINDOW_SECS" (peer_window_secs d);
  decline_cooldown_secs :=
    env_i64 env "RATE_LIMIT_DECLINE_COOLDOWN_SECS" (decline_cooldown_secs d);
  turn_max := env_i64 env "RATE_LIMIT_TURN_MAX" (turn_max d);
  turn_window_secs := env_i64 env "RATE_LIMIT_TURN_WINDOW_SECS" (turn_window_secs d);
|}.

Definition call_rate_key (user_id : string) : string := "ratelimit:calls:" +:+ user_id.
Definition peer_rate_key (user_id bucket : string) : string :=
  "ratelimit:calls:" +:+ user_id +:+ ":" +:+ bucket.
Definition cooldown_key (user_id bucket : string) : string :=
  "ratelimit:decline_cooldown:" +:+ user_id +:+ ":" +:+ bucket.
Definition turn_rate_key (user_id : string) : string := "ratelimit:turn:" +:+ user_id.

(** The database behind the pool: the two queries, by UUID. *)
Record Queries (U : Type) := {
  are_mutual_contacts : bytes -> bytes -> result bool unit;
  is_blocked_by : U -> U -> result bool unit;
}.
Arguments are_mutual_contacts {U}. Arguments is_blocked_by {U}.

Section Service.
Context {P : Type} `{Wire P} {R : Type} `{Redis R}.
Context (iter : gmap string nat -> list (string * nat)).

(** HMAC-SHA1 (third-party), keyed with the salt. *)
Context (hmac_sha1 : bytes -> bytes -> bytes).

Record RateLimiter := { peer_salt : string; config : RateLimitConfig }.

Definition peer_bucket (rl : RateLimiter) (peer_id : string) : string :=
  base64_encode (hmac_sha1 (as_bytes (peer_salt rl)) (as_bytes peer_id)).

Definition Reg : Type := registry (P := P) (R := R).
Definition M (A : Type) : Type := St (P := P) (R := R) A.

(** The counter script: [None] is a Redis error. *)
Definition incr_window (key : string) (window : Z) : M (option Z) :=
  on_redis (fun r => exec_int r (EVAL (incr_expire key window))).

Definition check_call_rate (rl : RateLimiter) (user_id : string) : M (option bool) :=
  o ← incr_window (call_rate_key user_id) (call_window_secs (config rl));
  mret (option_map (fun n => n <=? call_max (config rl)) o).

Definition check_peer_rate (rl : RateLimiter) (user_id peer_id : string) : M (option bool) :=
  o ← incr_window (peer_rate_key user_id (peer_bucket rl peer_id)) (peer_window_secs (config rl));
  mret (option_map (fun n => n <=? peer_max (config rl)) o).

Definition check_decline_cooldown (rl : RateLimiter) (user_id peer_id : string)
    : M (option bool) :=
  o ← on_redis (fun r => exec_bool r (EXISTS (cooldown_key user_id (peer_bucket rl peer_id))));
  mret (option_map negb o).

Definition set_decline_cooldown (rl : RateLimiter) (user_id peer_id : string) : M (option unit) :=
  on_redis (fun r => exec_unit r (SETEX (cooldown_key user_id (peer_bucket rl peer_id)) "1"
                                    (decline_cooldown_secs (config rl)))).

Definition check_turn_rate (rl : RateLimiter) (user_id : string) : M (option bool) :=
  o ← incr_window (turn_rate_key user_id) (turn_window_secs (config rl));
  mret (option_map (fun n => n <=? turn_max (config rl)) o).

(** ** Statuses *)

Definition call_refused : Status :=
  {| code := PermissionDenied; message := "Call not allowed" |}.
Definition invalid_argument (m : string) : Status := {| code := InvalidArgument; message := m |}.
Definition resource_exhausted (m : string) : Status :=
  {| code := ResourceExhausted; message := m |}.
(** The text of an internal error is the Redis error's and is not modelled. *)
Definition internal : Status := {| code := Internal; message := "redis" |}.

(** ** Call set-up *)

Record InitiateCallRequest := {
  req_call_id : string; req_callee_user_id : string; req_caller_name : string;
  req_caller_avatar : bytes; req_call_type : Z;
}.

Record InitiateCallResponse := { callee_online : bool; callee_has_webrtc : bool }.

Record VoipPush := {
  push_user_id : string; push_call_id : string; push_caller_id : string;
  push_caller_name : string; push_call_type : Z; push_offered_at : Z;
}.

Section Initiate.
Context {U : Type} (parse_uuid : string -> option U) (contact_link_hmac : U -> bytes).

(** The contact and block checks. *)
Definition contact_gate (pool : option (Queries U)) (caller callee : string)
    : result unit Status :=
  match pool with
  | None => Err call_refused
  | Some q =>
      match parse_uuid caller, parse_uuid callee with
      | Some caller_uuid, Some callee_uuid =>
          match are_mutual_contacts q (contact_link_hmac caller_uuid)
                  (contact_link_hmac callee_uuid) with
          | Ok true =>
              match is_blocked_by q callee_uuid caller_uuid with
              | Ok false => Ok tt
              | Ok true => Err call_refused
              | Err _ => Err call_refused
              end
          | Ok false => Err call_refused
          | Err _ => Err call_refused
          end
      | _, _ => Err (invalid_argument "Invalid user_id UUID")
      end
  end.

(** One rate check: an error of Redis is an internal error, a refusal is [m]. *)
Definition rate_gate (check : M (option bool)) (m : string) : M (result unit Status) :=
  o ← check;
  mret (match o with
        | None => Err internal
        | Some true => Ok tt
        | Some false => Err (resource_exhausted m)
        end).

Definition andthen {A B} (m : M (result A Status)) (f : A -> M (result B Status))
    : M (result B Status) :=
  r ← m; match r with Ok a => f a | Err e => mret (Err e) end.

Definition initiate_call (now_s now_ms : Z) (rl : RateLimiter) (pool : option (Queries U))
    (notify : bool) (auth_user auth_device : result string Status) (req : InitiateCallRequest)
    : M (result (InitiateCallResponse * list VoipPush) Status) :=
  match auth_user, auth_device with
  | Err e, _ => mret (Err e)
  | Ok _, Err e => mret (Err e)
  | Ok caller, Ok device =>
      let id := req_call_id req in
      let callee := req_callee_user_id req in
      let name := take_chars 128 (req_caller_name req) in
      let avatar := if (length (req_caller_avatar req) <=? 4096)%nat
                    then req_caller_avatar req else [] in
      if str_is_empty id || str_is_empty callee
      then mret (Err (invalid_argument "call_id and callee_user_id are required"))
      else
        andthen (mret (contact_gate pool caller callee)) (fun _ =>
        andthen (rate_gate (check_call_rate rl caller) "Call rate limit exceeded") (fun _ =>
        andthen (rate_gate (check_peer_rate rl caller callee) "Too many calls to this peer")
          (fun _ =>
        andthen (rate_gate (check_decline_cooldown rl caller callee)
                   "Callee declined recently (cooldown)") (fun _ =>
        busy ← is_user_busy callee;
        if (busy : bool)
        then mret (Err {| code := FailedPrecondition; message := "Callee is busy" |})
        else
          callee_devices ← list_online_devices callee;
          let online := match callee_devices with [] => false | _ => true end in
          _ ← create_call now_s id caller device callee now_ms;
          _ ← store_call_metadata id name avatar;
          let push := {| push_user_id := callee; push_call_id := id; push_caller_id := caller;
                         push_caller_name := name; push_call_type := req_call_type req;
                         push_offered_at := now_ms |} in
          pushes ← (if online then
                      delivered ← send_to_user iter callee None
                        (FIncomingCall {| ic_call_id := id; caller_id := caller;
                           caller_name := name; caller_avatar := avatar;
                           call_type := req_call_type req; offered_at := now_ms |});
                      mret (if (delivered =? 0)%nat && notify then [push] else [])
                    else mret (if notify then [push] else []));
          mret (Ok ({| callee_online := online; callee_has_webrtc := true |}, pushes))))))
  end.

End Initiate.

(** ** Signals from a client *)

Section Stream.
Context (now_s now_ms : Z).

Definition handle_outbound_signal (rl : RateLimiter) (user_id device_id : string)
    (routed : option (WebRtcSignal P)) : M (result unit Status) :=
  match routed with
  | None => mret (Err (invalid_argument "Missing routed_signal.signal"))
  | Some sig =>
      let id := sig_call_id sig in
      if negb (str_is_empty (sender_device_id sig))
         && negb (eq_ignore_ascii_case (sender_device_id sig) device_id)
      then mret (Err not_the_stream_device)
      else
        let forward := forward_signal iter now_s now_ms id user_id device_id (FSignal sig) in
        loaded ← load_call_state now_s now_ms id;
        match option_map (fun st => role_of st user_id) loaded with
        | Some None => mret (Err not_a_participant)
        | role =>
            let role := mjoin role in
            match signal sig with
            | Some (Offer _) | Some (Answer _) => mret (Ok tt)
            | Some (IceCandidate _) | Some (IceCandidates _) | Some (MediaUpdate _) => forward
            | Some (Ringing _) =>
                _ ← (if bool_decide (role = Some Callee) then note_ringing now_s now_ms id
                     else mret tt);
                forward
            | Some (Connected _) =>
                _ ← match role with
                    | Some r => note_connected now_s now_ms id
                                  (if bool_decide (r = Callee) then Some device_id else None)
                    | None => mret tt
                    end;
                forward
            | Some (Busy _) =>
                _ ← forward; _ ← remove_call id; mret (Ok tt)
            | Some (Hangup h) =>
                _ ← (if reason h =? HangupReason_Declined then
                       o ← load_call_state now_s now_ms id;
                       match o with
                       | Some st =>
                           if bool_decide (callee_user_id st = user_id) then
                             _ ← set_decline_cooldown rl (caller_user_id st) (callee_user_id st);
                             mret tt
                           else mret tt
                       | None => mret tt
                       end
                     else mret tt);
                _ ← forward; _ ← remove_call id; mret (Ok tt)
            | None => mret (Ok tt)
            end
        end
  end.

(** The end of a stream: the device goes, and the call it carried with it. *)
Definition stream_closed (user_id device_id : string) : M unit :=
  _ ← unregister_user user_id device_id;
  o ← call_ended_by_disconnect now_s now_ms user_id device_id;
  match o with
  | None => mret tt
  | Some st =>
      let hangup := server_hangup now_ms (call_id st) HangupReason_ConnectionFailed in
      _ ← send_to_user iter (caller_user_id st) (Some (caller_device_id st)) hangup;
      _ ← send_to_user iter (callee_user_id st) (accepted_callee_device_id st) hangup;
      remove_call (call_id st)
  end.

End Stream.

(** The start of a stream: the device's channel, with its receiver. *)
Definition stream_opened (user_id device_id : string) : M nat :=
  tx ← register_user user_id device_id;
  _ ← touch_online user_id device_id;
  _ ← subscribe tx;
  mret tx.

(** What a client sends. *)
Inductive Request := RoutedSignal (s : option (WebRtcSignal P)) | Ping (timestamp : Z).

(** A frame of the inbound stream: the message or the stream's error, the
    standing of the token when it arrives, the token bucket's verdict if it is
    asked, and the clock. *)
Record frame := {
  fr_msg : result (option Request) Status;
  fr_standing : result unit Status;
  fr_bucket : bool;
  fr_now_s : Z;
  fr_now_ms : Z;
}.

(** What the server writes to the outbound stream. *)
Definition output : Type := result (SignalResponse P) Status.

Definition rate_limited : SignalResponse P :=
  Some (RError {| err_code := SignalErrorCode_RateLimited;
                  err_message := "Signal rate limit exceeded (max 10/sec)" |}).

Definition serve_request (rl : RateLimiter) (user_id device_id : string) (fr : frame)
    (req : Request) : M (list output) :=
  match req with
  | RoutedSignal routed =>
      if negb (fr_bucket fr) then mret [Ok rate_limited]
      else
        _ ← touch_online user_id device_id;
        _ ← note_keepalive (fr_now_s fr) (fr_now_ms fr) user_id;
        _ ← handle_outbound_signal (fr_now_s fr) (fr_now_ms fr) rl user_id device_id routed;
        mret []
  | Ping t =>
      _ ← touch_online user_id device_id;
      _ ← note_keepalive (fr_now_s fr) (fr_now_ms fr) user_id;
      mret [Ok (Some (RPong t (fr_now_ms fr)))]
  end.

Fixpoint serve_inbound (rl : RateLimiter) (user_id device_id : string) (inbound : list frame)
    : M (list output) :=
  match inbound with
  | [] => mret []
  | fr :: rest =>
      match fr_standing fr with
      | Err status => mret [Err status]
      | Ok _ =>
          match fr_msg fr with
          | Err _ => mret []
          | Ok None => serve_inbound rl user_id device_id rest
          | Ok (Some req) =>
              out ← serve_request rl user_id device_id fr req;
              outs ← serve_inbound rl user_id device_id rest;
              mret (out ++ outs)
          end
      end
  end.

(** [forward_signals]: what a receiver got, each with the token's standing then;
    [open] outputs are taken before the client is gone. *)
Fixpoint forward_signals (rx : list (ForwardedSignal P * result unit Status)) (open : nat)
    : list output :=
  match rx with
  | [] => []
  | (f, standing) :: rest =>
      match standing with
      | Err status => match open with O => [] | S _ => [Err status] end
      | Ok _ =>
          match open with
          | O => []
          | S k => Ok (signal_response_from_forwarded f) :: forward_signals rest k
          end
      end
  end.

(** ** TURN *)

Definition get_turn_credentials {C} (rl : RateLimiter) (auth_user : result string Status)
    (generate : C) : M (result C Status) :=
  match auth_user with
  | Err e => mret (Err e)
  | Ok user_id =>
      o ← check_turn_rate rl user_id;
      mret (match o with
            | None => Err internal
            | Some true => Ok generate
            | Some false => Err (resource_exhausted "TURN credentials rate limit exceeded")
            end)
  end.

End Service.

(** ** Frames: what an operation leaves of Redis *)

Section Lemmas.
Context {P : Type} `{Wire P} {R : Type} `{RedisLaws R}.
Context (iter : gmap string nat -> list (string * nat)) (hmac_sha1 : bytes -> bytes -> bytes).

(** A computation whose every run leaves the key [k] of Redis. *)
Definition keeps {A} (k : string) (m : M (P := P) (R := R) A) : Prop :=
  forall s, keys (redis (m s).1) !! k = keys (redis s) !! k.

Lemma keeps_ret {A} k (a : A) : keeps k (mret a).
Proof using Type. done. Qed.

Lemma keeps_bind {A B} k (m : M A) (f : A -> M B) :
  keeps k m -> (forall a, keeps k (f a)) -> keeps k (m ≫= f).
Proof using Type.
  intros Hm Hf s. unfold mbind, St_bind. specialize (Hm s). destruct (m s) as [s1 a]. cbn in Hm.
  by rewrite Hf.
Qed.

Lemma keeps_gets {A} k (f : registry (P := P) (R := R) -> A) : keeps k (gets f).
Proof using Type. done. Qed.

Lemma keeps_modify k f :
  (forall s : registry (P := P) (R := R), redis (f s) = redis s) -> keeps k (modify f).
Proof using Type. intros Hf s. cbn. by rewrite Hf. Qed.

Lemma keeps_on_redis {A} k (run : R -> R * option A) :
  (forall r, keys (run r).1 !! k = keys r !! k) -> keeps k (on_redis run).
Proof using Type.
  intros Hr s. unfold on_redis. specialize (Hr (redis s)). by destruct (run (redis s)).
Qed.

(** The typed call moves the connection as the untyped one does. *)
Lemma exec_map_fst (r : R) c : (exec_map r c).1 = (exec r c).1.
Proof using Type. unfold exec_map. by destruct (exec r c) as [? [[]|]]. Qed.

Lemma keeps_incr k key window : k <> key -> 0 < window -> keeps k (incr_window key window).
Proof using Type.
  intros Hne Hw. apply keeps_on_redis. intros r. rewrite exec_int_fst. apply exec_frame.
  intros ks ks' rep Hd. cbn in Hd. destruct (incr_expire_spec _ _ _ _ _ Hd Hw) as (n & -> & _).
  by apply (incr_expire_counter _ _ _ _ _ Hd Hw).
Qed.

Lemma keeps_load k now_s now_ms id : keeps k (load_call_state (P := P) now_s now_ms id).
Proof using Type.
  apply keeps_bind; [apply keeps_gets|]. intros cs. destruct (cs !! id); [apply keeps_ret|].
  apply keeps_bind; [|].
  - apply keeps_on_redis. intros r. rewrite exec_map_fst. apply exec_frame.
    intros ks ks' rep. cbn. by destruct (as_hash ks (call_key id)); intros; simplify_eq.
  - intros o. destruct (o ≫= parse_call now_s now_ms id); [|apply keeps_ret].
    apply keeps_bind; [by apply keeps_modify|]. intros. apply keeps_ret.
Qed.

(** A call's keys, none of which is a rate limiter's. *)
Definition call_related (k : string) : Prop :=
  (exists id, k = call_key id) \/ (exists u, k = active_call_key u) \/ k = ACTIVE_CALLS_SET_KEY.

Lemma cooldown_not_call u b : ~ call_related (cooldown_key u b).
Proof using Type. by intros [[? ?]|[[? ?]|?]]. Qed.

Lemma keeps_remove k id : ~ call_related k -> keeps k (remove_call (P := P) id).
Proof using Type.
  intros Hk. apply keeps_bind; [apply keeps_gets|]. intros cs.
  destruct (cs !! id) as [st|]; [|apply keeps_ret].
  apply keeps_bind; [by apply keeps_modify|]. intros _.
  apply keeps_bind; [by apply keeps_modify|]. intros _.
  apply keeps_bind; [|intros; apply keeps_ret]. apply keeps_on_redis. intros r. apply pipe_frame.
  assert (forall id, k <> call_key id) as Hk1 by (intros i ->; apply Hk; left; eauto).
  assert (forall u, k <> active_call_key u) as Hk2 by (intros i ->; apply Hk; right; left; eauto).
  assert (k <> ACTIVE_CALLS_SET_KEY) as Hk3 by (intros ->; apply Hk; by right; right).
  repeat constructor; intros ks ks' rep; cbn.
  - intros [= <- <-]. by rewrite lookup_delete_ne.
  - intros [= <- <-]. by rewrite lookup_delete_ne.
  - intros [= <- <-]. by rewrite lookup_delete_ne.
  - destruct (as_set ks ACTIVE_CALLS_SET_KEY); [|done]. intros [= <- <-].
    unfold set_or_drop, set_val. case_match; [by rewrite lookup_delete_ne|by rewrite lookup_insert_ne].
Qed.

Lemma keeps_quiet {A} k (m : M (P := P) A) :
  (forall s, exists s' a d, m s = (s', a) /\ quiet (set_delivered d s) s') -> keeps k m.
Proof using Type.
  intros Hm s. destruct (Hm s) as (s' & a & d & -> & r' & -> & Hk & _). cbn in *. by rewrite Hk.
Qed.

Lemma except_loop_delivers except f targets n (s : registry (P := P) (R := R)) :
  exists d k, except_loop except f targets n s = (set_delivered d s, k).
Proof using Type.
  revert n s. induction targets as [|[dev tx] targets IH]; intros n s; cbn [except_loop].
  - exists (delivered s), n. by destruct s.
  - case_bool_decide; [apply IH|]. unfold mbind, St_bind, tx_send. case_bool_decide; [|apply IH].
    destruct (IH (S n) (set_delivered (delivered s ++ [(tx, f)]) s)) as (d & k & ->).
    by exists d, k.
Qed.

Lemma send_except_quiet user except f (s : registry (P := P) (R := R)) :
  exists s' n d, send_to_user_except iter user except f s = (s', n) /\ quiet (set_delivered d s) s'.
Proof using Type.
  unfold send_to_user_except. erewrite St_bind_eq by reflexivity.
  destruct (except_loop_delivers except f (senders iter s user) 0 s) as (d & k & E).
  erewrite St_bind_eq by exact E.
  destruct (send_remote_bounded user None (Some except) f (set_delivered d s))
    as (s2 & m & E2 & Hq & _).
  erewrite St_bind_eq by exact E2. by exists s2, (k + m)%nat, d.
Qed.

(** Forwarding a signal of a held call: only deliveries and publications. *)
Lemma forward_quiet now_s now_ms id user device f (s : registry (P := P) (R := R)) st :
  calls s !! id = Some st ->
  exists s' r d, forward_signal iter now_s now_ms id user device f s = (s', r) /\
    quiet (set_delivered d s) s'.
Proof using Type.
  intros Hc. unfold forward_signal.
  erewrite St_bind_eq by (unfold load_call_state; erewrite St_bind_eq by reflexivity;
    rewrite Hc; reflexivity). cbn iota beta.
  assert (forall tu td, exists s' n d,
    (if bool_decide (tu = user) then send_to_user_except iter tu device f
     else send_to_user iter tu td f) s = (s', n) /\ quiet (set_delivered d s) s') as Hsend.
  { intros tu td. case_bool_decide; [apply send_except_quiet|].
    destruct (send_to_user_spec iter tu td f s) as (s' & k & E & _ & Hq). eauto. }
  assert (forall e : Status, exists (s' : registry (P := P) (R := R)) (r : result unit Status) d,
    (s, Err e) = (s', r) /\ quiet (set_delivered d s) s') as Hnone.
  { intros e. exists s, (Err e), (delivered s). split; [done|].
    replace (set_delivered (delivered s) s) with s by by destruct s. apply quiet_refl. }
  case_bool_decide; [|case_bool_decide; [|apply Hnone]].
  - destruct (Hsend (callee_user_id st) (accepted_callee_device_id st)) as (s' & n & d & E & Hq).
    erewrite St_bind_eq by exact E. by eexists _, _, d.
  - destruct (Hsend (caller_user_id st) (Some (caller_device_id st))) as (s' & n & d & E & Hq).
    erewrite St_bind_eq by exact E. by eexists _, _, d.
Qed.

(** Loading a call changes at most what this instance holds of it. *)
Lemma load_frame now_s now_ms id (s s' : registry (P := P) (R := R)) o :
  load_call_state now_s now_ms id s = (s', o) ->
  active_calls s' = active_calls s /\ user_channels s' = user_channels s /\
  delivered s' = delivered s /\ keys (redis s') = keys (redis s) /\
  match o with
  | Some st => calls s' = calls s /\ calls s !! id = Some st \/
               calls s !! id = None /\ calls s' = <[id := st]> (calls s)
  | None => calls s' = calls s
  end.
Proof using Type.
  unfold load_call_state. erewrite St_bind_eq by reflexivity. destruct (calls s !! id) as [st|] eqn:Hc.
  { intros [= <- <-]. split_and!; auto. }
  destruct (on_redis_quiet (fun r => exec_map r (HGETALL (call_key id))) s (HGETALL (call_key id)))
    as (s1 & m & E & r' & -> & Hk & _).
  - intros r. apply exec_map_fst.
  - intros ks ks' rep. cbn. by destruct (as_hash ks (call_key id)); intros; simplify_eq.
  - erewrite St_bind_eq by exact E. destruct (m ≫= parse_call now_s now_ms id) as [st|].
    + erewrite St_bind_eq by reflexivity. intros [= <- <-]. cbn. split_and!; auto.
    + intros [= <- <-]. by split_and!.
Qed.

(** ** Gates *)

Lemma andthen_Ok {A B} (m : M (P := P) (R := R) (result A Status)) (f : A -> M (result B Status))
    s s' b :
  andthen m f s = (s', Ok b) -> exists s1 a, m s = (s1, Ok a) /\ f a s1 = (s', Ok b).
Proof using Type.
  unfold andthen, mbind, St_bind. destruct (m s) as [s1 [a|e]]; [eauto|done].
Qed.

Lemma andthen_step {A B} (m : M (P := P) (R := R) (result A Status)) (f : A -> M (result B Status))
    s s1 a :
  m s = (s1, Ok a) -> andthen m f s = f a s1.
Proof using Type. intros E. unfold andthen, mbind, St_bind. by rewrite E. Qed.

Lemma andthen_Err {A B} (m : M (P := P) (R := R) (result A Status)) (f : A -> M (result B Status))
    s s1 e :
  m s = (s1, Err e) -> andthen m f s = (s1, Err e).
Proof using Type. intros E. unfold andthen, mbind, St_bind. by rewrite E. Qed.

(** A check that only talks to Redis. *)
Lemma check_only_redis {A B} (run : R -> R * option A) (g : option A -> B) s :
  exists r' b, (o ← on_redis (P := P) run; mret (g o)) s = (set_redis r' s, b).
Proof using Type.
  unfold mbind, St_bind, on_redis. destruct (run (redis s)) as [r' o]. by exists r', (g o).
Qed.

Lemma rate_gate_only_redis check m s :
  (exists r' b, check s = (set_redis r' s, b)) ->
  exists r' b, rate_gate (P := P) (R := R) check m s = (set_redis r' s, b).
Proof using Type.
  intros (r' & b & E). unfold rate_gate. erewrite St_bind_eq by exact E. by eexists _, _.
Qed.

Lemma keeps_rate_gate k check m :
  keeps k check -> keeps k (rate_gate (P := P) (R := R) check m).
Proof using Type. intros Hk. apply keeps_bind; [done|]. intros. apply keeps_ret. Qed.

(** While the cooldown's key is there, the cooldown check does not let pass. *)
Lemma cooldown_gate_refuses rl caller callee m s e :
  keys (redis s) !! cooldown_key caller (peer_bucket (P := P) hmac_sha1 rl callee) = Some e ->
  exists r' err, rate_gate (check_decline_cooldown hmac_sha1 rl caller callee) m s
                 = (set_redis r' s, Err err).
Proof using Type.
  intros Hk. unfold rate_gate, check_decline_cooldown, mbind, St_bind, on_redis.
  destruct (exec_bool (redis s) _) as [r' [b|]] eqn:E; [|by eexists _, _].
  apply exec_bool_exists in E as [_ Hb].
  rewrite Hb, Hk, bool_decide_true by done. by eexists _, _.
Qed.

Lemma initiate_cooled {U} (parse_uuid : string -> option U) link now_s now_ms rl pool notify caller
    device req s e :
  0 < call_window_secs (config rl) -> 0 < peer_window_secs (config rl) ->
  keys (redis s) !! cooldown_key caller (peer_bucket (P := P) hmac_sha1 rl (req_callee_user_id req))
    = Some e ->
  exists r' err, initiate_call iter hmac_sha1 parse_uuid link now_s now_ms rl pool notify
                   (Ok caller) device req s = (set_redis r' s, Err err).
Proof using Type.
  intros Hw1 Hw2 Hk. unfold initiate_call.
  assert (exists r' (err : Status), (s, Err (A := InitiateCallResponse * list VoipPush) err)
    = (set_redis r' s, Err err)) as Hself.
  { exists (redis s), internal. by destruct s. }
  assert (forall err : Status, exists r' (err' : Status),
    (s, Err (A := InitiateCallResponse * list VoipPush) err) = (set_redis r' s, Err err')) as Herr.
  { intros err. exists (redis s), err. by destruct s. }
  destruct device as [dev|err]; [|apply Herr].
  destruct (str_is_empty (req_call_id req) || str_is_empty (req_callee_user_id req)); [apply Herr|].
  destruct (contact_gate parse_uuid link pool caller (req_callee_user_id req)) as [[]|err] eqn:Hg.
  2:{ erewrite andthen_Err by reflexivity. apply Herr. }
  erewrite andthen_step by reflexivity.
  set (ck := cooldown_key caller _) in *.
  destruct (rate_gate_only_redis (check_call_rate rl caller) "Call rate limit exceeded" s
    (check_only_redis _ _ _)) as (r1 & [[]|err] & E1);
    [|erewrite andthen_Err by exact E1; by eexists _, _].
  erewrite andthen_step by exact E1.
  assert (keys r1 !! ck = Some e) as Hk1.
  { pose proof (keeps_rate_gate ck (check_call_rate rl caller) "Call rate limit exceeded") as Hkeep.
    specialize (Hkeep ltac:(apply keeps_bind; [by apply keeps_incr|intros; apply keeps_ret]) s).
    rewrite E1 in Hkeep. cbn in Hkeep. congruence. }
  destruct (rate_gate_only_redis (check_peer_rate hmac_sha1 rl caller (req_callee_user_id req))
    "Too many calls to this peer" (set_redis r1 s) (check_only_redis _ _ _)) as (r2 & [[]|err] & E2);
    [|erewrite andthen_Err by exact E2; by eexists _, _].
  erewrite andthen_step by exact E2.
  assert (keys r2 !! ck = Some e) as Hk2.
  { pose proof (keeps_rate_gate ck (check_peer_rate hmac_sha1 rl caller (req_callee_user_id req))
      "Too many calls to this peer") as Hkeep.
    specialize (Hkeep ltac:(apply keeps_bind; [by apply keeps_incr|intros; apply keeps_ret])
      (set_redis r1 s)). rewrite E2 in Hkeep. cbn in Hkeep. congruence. }
  destruct (cooldown_gate_refuses rl caller (req_callee_user_id req)
    "Callee declined recently (cooldown)" (set_redis r2 (set_redis r1 s)) e Hk2) as (r3 & err & E3).
  erewrite andthen_Err by exact E3. by eexists _, _.
Qed.

End Lemmas.

(** ** Properties *)

(** A run of checks of one window. *)
Fixpoint check_run {P R} `{Redis R} (check : M (P := P) (R := R) (option bool)) (n : nat)
    (s : registry (P := P) (R := R)) : registry (P := P) (R := R) * list bool :=
  match n with
  | O => (s, [])
  | S k =>
      let '(s1, o) := check s in
      let '(s2, bs) := check_run check k s1 in
      (s2, default false o :: bs)
  end.

Section Properties.
Context {P : Type} `{Wire P} {R : Type} `{RedisLaws R}.
Context (iter : gmap string nat -> list (string * nat)) (hmac_sha1 : bytes -> bytes -> bytes).

(** One check of a window while Redis answers. *)
Lemma incr_window_up (Up : R -> Prop) key window (s : registry (P := P) (R := R)) c :
  available Up -> Up (redis s) -> 0 < window ->
  counter (keys (redis s)) key = Some c -> 0 <= c < i64_max ->
  exists r', incr_window key window s = (set_redis r' s, Some (c + 1)) /\ Up r' /\
    counter (keys r') key = Some (c + 1).
Proof using Type.
  intros Hup Hr Hw Hc Hcr. destruct (incr_expire_total key window _ c Hc) as [[ks rep] Hd]; [lia|].
  destruct (incr_expire_spec _ _ _ _ _ Hd Hw) as (n & -> & _).
  destruct (incr_expire_counter _ _ _ _ _ Hd Hw) as (Hn & _ & _).
  destruct (Hn c Hc Hcr) as [-> Hc'].
  destruct (available_exact Up Hup (redis s) (EVAL (incr_expire key window)) ks (RInt (c + 1)))
    as (r' & E & Hk & Hr'); [done..|].
  exists r'. unfold incr_window, on_redis, exec_int. rewrite E. by rewrite Hk.
Qed.

(** the call rate limit. While Redis answers, [n] call attempts of a user, in a
    window whose counter stands at [c], are admitted exactly as far as the
    configured maximum goes, and every attempt counts. *)
Theorem call_rate_ceiling (Up : R -> Prop) rl user n (s : registry (P := P) (R := R)) c
  (Hup : available Up) (Hr : Up (redis s)) (Hw : 0 < call_window_secs (config rl))
  (Hmax : 0 < call_max (config rl))
  (Hc : counter (keys (redis s)) (call_rate_key user) = Some c) (Hc0 : 0 <= c)
  (Hlen : c + Z.of_nat n < i64_max) :
  let '(s', bs) := check_run (check_call_rate rl user) n s in
  count_true bs = Z.min (Z.of_nat n) (Z.max 0 (call_max (config rl) - c)) /\
  counter (keys (redis s')) (call_rate_key user) = Some (c + Z.of_nat n).
Proof using Type.
  assert (forall (s : registry (P := P) (R := R)) c,
    Up (redis s) -> counter (keys (redis s)) (call_rate_key user) = Some c ->
    0 <= c -> c + Z.of_nat n < i64_max ->
    let '(s', bs) := check_run (check_call_rate rl user) n s in
    bs = map (fun i => c + Z.of_nat i <=? call_max (config rl)) (seq 1 n) /\
    counter (keys (redis s')) (call_rate_key user) = Some (c + Z.of_nat n)) as Hrun.
  { clear s c Hr Hc Hc0 Hlen. induction n as [|n IH]; intros s c Hr Hc Hc0 Hlen.
    - cbn. by rewrite Z.add_0_r.
    - cbn [check_run]. unfold check_call_rate at 1.
      destruct (incr_window_up Up (call_rate_key user) (call_window_secs (config rl)) s c)
        as (r' & E & Hr' & Hc'); auto; [lia|].
      erewrite St_bind_eq by exact E. cbn [mret St_ret option_map].
      specialize (IH (set_redis r' s) (c + 1) Hr' Hc' ltac:(lia) ltac:(lia)).
      destruct (check_run _ n (set_redis r' s)) as [s2 bs]. destruct IH as [-> Hc2]. split.
      + cbn [seq map]. f_equal. rewrite <- (seq_shift n 1), map_map. apply map_ext.
        intros i. f_equal. lia.
      + rewrite Hc2. f_equal. lia. }
  specialize (Hrun s c Hr Hc Hc0 Hlen). destruct (check_run _ n s) as [s' bs].
  destruct Hrun as [-> Hcount]. split; [|done]. rewrite count_true_threshold by done. lia.
Qed.

(** C13: only its two parties touch a call. A signal for an existing call from
    anyone else is refused with a permission error, and leaves the call, the
    markers, the deliveries and Redis as they were; at most this instance now
    holds a copy of the call. *)
Theorem outsider_changes_nothing now_s now_ms rl user device sig st
    (s : registry (P := P) (R := R))
  (Hload : (load_call_state now_s now_ms (sig_call_id sig) s).2 = Some st)
  (Hout : role_of st user = None) :
  let '(s', r) := handle_outbound_signal iter hmac_sha1 now_s now_ms rl user device (Some sig) s in
  (r = Err not_a_participant \/ r = Err not_the_stream_device) /\
  active_calls s' = active_calls s /\ user_channels s' = user_channels s /\
  delivered s' = delivered s /\ keys (redis s') = keys (redis s) /\
  (calls s' = calls s \/
   calls s !! sig_call_id sig = None /\ calls s' = <[sig_call_id sig := st]> (calls s)).
Proof using Type.
  unfold handle_outbound_signal.
  destruct (negb (str_is_empty (sender_device_id sig)) && _); [split_and!; auto|].
  destruct (load_call_state now_s now_ms (sig_call_id sig) s) as [s1 o] eqn:E. cbn in Hload. subst o.
  erewrite St_bind_eq by exact E. cbn [option_map]. rewrite Hout.
  apply load_frame in E as (? & ? & ? & ? & Hc). split_and!; auto. destruct Hc as [[? ?]|?]; auto.
Qed.

(** a declined caller cannot ring again at once. When the callee of a call
    declines it (with Redis answering), whatever happens to the forwarded hangup,
    the next [initiate_call] of the same caller to the same callee is refused: it
    registers no call, delivers no signal and sends no push, even if Redis fails
    from then on. *)
Theorem declined_caller_refused {U} (parse_uuid : string -> option U) link (Up : R -> Prop)
    now_s now_ms now_s' now_ms' rl pool notify user device sig h id st dev' req
    (s : registry (P := P) (R := R))
  (Hup : available Up) (Hm : mirror Up s id st)
  (Huser : user = callee_user_id st) (Hdiff : caller_user_id st <> user)
  (Hid : sig_call_id sig = id) (Hdev : sender_device_id sig = "")
  (Hsig : signal sig = Some (Hangup h)) (Hdecl : reason h = HangupReason_Declined)
  (Hcd : 0 < decline_cooldown_secs (config rl)) (Hw1 : 0 < call_window_secs (config rl))
  (Hw2 : 0 < peer_window_secs (config rl)) (Hreq : req_callee_user_id req = callee_user_id st) :
  let s1 := (handle_outbound_signal iter hmac_sha1 now_s now_ms rl user device (Some sig) s).1 in
  exists r' err,
    initiate_call iter hmac_sha1 parse_uuid link now_s' now_ms' rl pool notify
      (Ok (caller_user_id st)) dev' req s1 = (set_redis r' s1, Err err).
Proof using Type.
  intros s1. set (ck := cooldown_key (caller_user_id st)
    (peer_bucket (P := P) hmac_sha1 rl (callee_user_id st))).
  enough (exists e, keys (redis s1) !! ck = Some e) as [e He].
  { apply (initiate_cooled _ _ _ _ _ _ _ _ _ _ _ _ _ e); auto. by rewrite Hreq. }
  unfold s1, handle_outbound_signal. rewrite Hid, Hdev. cbn [str_is_empty negb andb].
  erewrite St_bind_eq by (eapply load_mirror; exact Hm). cbn [option_map].
  assert (role_of st user = Some Callee) as ->.
  { unfold role_of. by rewrite bool_decide_false, bool_decide_true. }
  cbn [mjoin option_join]. rewrite Hsig, Hdecl, Z.eqb_refl.
  destruct (available_exact Up Hup (redis s) (SETEX ck "1" (decline_cooldown_secs (config rl)))
    (<[ck := Entry (VStr "1") (Some (decline_cooldown_secs (config rl)))]> (keys (redis s))) ROk)
    as (r1 & E1 & Hk1 & Hr1); [apply Hm|done|cbn; by destruct (Z.leb_spec (decline_cooldown_secs
      (config rl)) 0); [lia|]|].
  erewrite St_bind_eq.
  2:{ erewrite St_bind_eq by (eapply load_mirror; exact Hm). cbn iota beta.
      rewrite bool_decide_true by done.
      erewrite St_bind_eq by (unfold set_decline_cooldown, on_redis, exec_unit; fold ck;
        rewrite E1; reflexivity). reflexivity. }
  cbn beta. unfold mbind, St_bind at 1.
  destruct (forward_quiet iter now_s now_ms id user device (FSignal sig) (set_redis r1 s) st)
    as (s2 & r & d & E2 & Hq); [apply Hm|]. rewrite E2.
  pose proof (keeps_remove ck id (cooldown_not_call _ _) s2) as Hrem.
  unfold St_bind. destruct (remove_call id s2) as [s3 []]. cbn [fst mret St_ret] in *. rewrite Hrem.
  destruct Hq as (r2 & -> & Hkeys & _). cbn in *. rewrite Hkeys, Hk1. eexists.
  by rewrite lookup_insert_eq.
Qed.

(** What an instance holds after registering a call, answered or not by Redis. *)
Lemma create_call_held now_s id caller device callee offered (s : registry (P := P) (R := R)) :
  exists r', create_call now_s id caller device callee offered s =
    (set_redis r' (set_active (<[callee := id]> (<[caller := id]> (active_calls s)))
       (set_calls (<[id := new_call now_s id caller device callee offered]> (calls s)) s)), tt).
Proof.
  unfold create_call, mbind, St_bind, modify, on_redis. destruct (pipe _ _) as [r' o].
  by exists r'.
Qed.

Lemma store_metadata_held id name avatar (s : registry (P := P) (R := R)) :
  exists r', store_call_metadata id name avatar s = (set_redis r' s, tt).
Proof.
  unfold store_call_metadata, mbind, St_bind, on_redis. destruct (pipe _ _) as [r' o]. by exists r'.
Qed.

Lemma list_online_held user (s : registry (P := P) (R := R)) :
  exists r' l, list_online_devices user s = (set_redis r' s, l).
Proof.
  destruct (list_online_quiet user s) as (s' & l & E & r' & -> & _). by exists r', l.
Qed.

(** A successful set-up: the gates it passed and the call it registered. *)
Lemma initiate_call_registers {U} (parse_uuid : string -> option U) link now_s now_ms rl pool notify
    auth_user auth_device req (s s' : registry (P := P) (R := R)) resp pushes
  (Hok : initiate_call iter hmac_sha1 parse_uuid link now_s now_ms rl pool notify auth_user
           auth_device req s = (s', Ok (resp, pushes))) :
  exists caller device q cu ku,
    auth_user = Ok caller /\ auth_device = Ok device /\
    req_call_id req <> "" /\ req_callee_user_id req <> "" /\
    pool = Some q /\ parse_uuid caller = Some cu /\ parse_uuid (req_callee_user_id req) = Some ku /\
    are_mutual_contacts q (link cu) (link ku) = Ok true /\ is_blocked_by q ku cu = Ok false /\
    calls s' !! req_call_id req
      = Some (new_call now_s (req_call_id req) caller device (req_callee_user_id req) now_ms) /\
    active_calls s' !! caller = Some (req_call_id req) /\
    active_calls s' !! req_callee_user_id req = Some (req_call_id req) /\
    (length pushes <= 1)%nat /\
    Forall (fun p => notify = true /\ push_user_id p = req_callee_user_id req) pushes.
Proof.
  unfold initiate_call in Hok. destruct auth_user as [caller|], auth_device as [device|]; try done.
  destruct (str_is_empty (req_call_id req)) eqn:He1; [done|].
  destruct (str_is_empty (req_callee_user_id req)) eqn:He2; [done|]. cbn [orb] in Hok.
  apply andthen_Ok in Hok as (s1 & [] & E1 & Hok). injection E1 as <- Hg.
  unfold contact_gate in Hg. destruct pool as [q|]; [|done].
  destruct (parse_uuid caller) as [cu|] eqn:Hcu; [|done].
  destruct (parse_uuid (req_callee_user_id req)) as [ku|] eqn:Hku; [|done].
  destruct (are_mutual_contacts q (link cu) (link ku)) as [[]|] eqn:Hmut; try done.
  destruct (is_blocked_by q ku cu) as [[]|] eqn:Hbl; try done.
  apply andthen_Ok in Hok as (s2 & [] & E2 & Hok). apply andthen_Ok in Hok as (s3 & [] & E3 & Hok).
  apply andthen_Ok in Hok as (s4 & [] & E4 & Hok).
  destruct (is_user_busy (req_callee_user_id req) s4) as [s5 busy] eqn:E5.
  erewrite St_bind_eq in Hok by exact E5. destruct busy; [done|].
  destruct (list_online_held (req_callee_user_id req) s5) as (r6 & devs & E6).
  erewrite St_bind_eq in Hok by exact E6.
  destruct (create_call_held now_s (req_call_id req) caller device (req_callee_user_id req) now_ms
    (set_redis r6 s5)) as (r7 & E7).
  erewrite St_bind_eq in Hok by exact E7.
  set (s7 := set_redis r7 _) in Hok.
  destruct (store_metadata_held (req_call_id req) (take_chars 128 (req_caller_name req))
    (if (length (req_caller_avatar req) <=? 4096)%nat then req_caller_avatar req else []) s7)
    as (r8 & E8).
  erewrite St_bind_eq in Hok by exact E8.
  set (push := {| push_user_id := _; push_call_id := _; push_caller_id := _; push_caller_name := _;
                  push_call_type := _; push_offered_at := _ |}) in Hok.
  set (ask := if match devs with [] => false | _ => true end then _ else _) in Hok.
  assert (exists s9 ps, ask (set_redis r8 s7) = (s9, ps) /\ calls s9 = calls s7 /\
    active_calls s9 = active_calls s7 /\ (ps = [] \/ ps = [push] /\ notify = true))
    as (s9 & ps & E9 & Hc9 & Ha9 & Hps).
  { unfold ask. destruct devs as [|d devs].
    - exists (set_redis r8 s7), (if notify then [push] else []). split_and!; auto.
      destruct notify; auto.
    - match goal with |- context [send_to_user iter ?u None ?f] =>
        destruct (send_to_user_spec iter u None f (set_redis r8 s7)) as (s9 & k & E & _ & Hq) end.
      erewrite St_bind_eq by exact E. eexists _, _. split; [reflexivity|].
      destruct Hq as (r9 & -> & _). split_and!; auto. by destruct (_ =? 0)%nat, notify; auto. }
  erewrite St_bind_eq in Hok by exact E9. injection Hok as <- _ <-.
  exists caller, device, q, cu, ku. rewrite Hc9, Ha9. unfold s7. cbn.
  split_and!; auto.
  - intros Hx. by rewrite Hx in He1.
  - intros Hx. by rewrite Hx in He2.
  - by rewrite lookup_insert_eq.
  - destruct (decide (req_callee_user_id req = caller)) as [->|]; [by rewrite lookup_insert_eq|].
    by rewrite lookup_insert_ne, lookup_insert_eq.
  - by rewrite lookup_insert_eq.
  - destruct Hps as [->|[-> _]]; cbn; lia.
  - destruct Hps as [->|[-> ->]]; repeat constructor.
Qed.

(** a call is set up only past every gate. If [initiate_call] succeeds, the
    caller and the device were authenticated, the identifiers are not empty, both
    are UUIDs of mutual contacts and the callee has not blocked the caller; the
    call is then registered for exactly these two parties and this device, newly
    created, both are marked as in it, and at most one push goes out, to the
    callee, and only if pushes are configured. *)
Theorem initiate_call_gates {U} (parse_uuid : string -> option U) link now_s now_ms rl pool notify
    auth_user auth_device req (s s' : registry (P := P) (R := R)) resp pushes
  (Hok : initiate_call iter hmac_sha1 parse_uuid link now_s now_ms rl pool notify auth_user
           auth_device req s = (s', Ok (resp, pushes))) :
  exists caller device q cu ku,
    auth_user = Ok caller /\ auth_device = Ok device /\
    req_call_id req <> "" /\ req_callee_user_id req <> "" /\
    pool = Some q /\ parse_uuid caller = Some cu /\ parse_uuid (req_callee_user_id req) = Some ku /\
    are_mutual_contacts q (link cu) (link ku) = Ok true /\ is_blocked_by q ku cu = Ok false /\
    calls s' !! req_call_id req
      = Some (new_call now_s (req_call_id req) caller device (req_callee_user_id req) now_ms) /\
    active_calls s' !! caller = Some (req_call_id req) /\
    active_calls s' !! req_callee_user_id req = Some (req_call_id req) /\
    (length pushes <= 1)%nat /\
    Forall (fun p => notify = true /\ push_user_id p = req_callee_user_id req) pushes.
Proof. by eapply initiate_call_registers. Qed.

(** a known call id can be taken over. [initiate_call] does not ask whether the
    call id is in use: if an attacker's call set-up with the id of someone else's
    call succeeds, the call's former caller is no longer a party to it, the
    attacker is its caller, and the former caller's hangup is refused as an
    outsider's. *)
Theorem call_id_takeover {U} (parse_uuid : string -> option U) link now_s now_ms rl pool notify
    attacker device req st (s s' : registry (P := P) (R := R)) resp pushes vdev sig now_s' now_ms'
  (Hheld : calls s !! req_call_id req = Some st)
  (Hne1 : attacker <> caller_user_id st) (Hne2 : req_callee_user_id req <> caller_user_id st)
  (Hok : initiate_call iter hmac_sha1 parse_uuid link now_s now_ms rl pool notify (Ok attacker)
           (Ok device) req s = (s', Ok (resp, pushes)))
  (Hsig : sig_call_id sig = req_call_id req) (Hdev : sender_device_id sig = "") :
  (exists st', calls s' !! req_call_id req = Some st' /\
     role_of st' (caller_user_id st) = None /\ role_of st' attacker = Some Caller) /\
  handle_outbound_signal iter hmac_sha1 now_s' now_ms' rl (caller_user_id st) vdev (Some sig) s'
    = (s', Err not_a_participant).
Proof.
  destruct (initiate_call_registers _ _ _ _ _ _ _ _ _ _ _ _ _ _ Hok)
    as (caller & dev & q & cu & ku & [= <-] & [= <-] & _ & _ & _ & _ & _ & _ & _ & Hc & _).
  set (st' := new_call _ _ _ _ _ _) in Hc.
  assert (role_of st' (caller_user_id st) = None) as Hrole.
  { unfold role_of. cbn. by rewrite !bool_decide_false. }
  split.
  - exists st'. split_and!; auto. unfold role_of. cbn. by rewrite bool_decide_true.
  - unfold handle_outbound_signal. rewrite Hsig, Hdev. cbn [str_is_empty negb andb].
    erewrite St_bind_eq by (unfold load_call_state; erewrite St_bind_eq by reflexivity;
      rewrite Hc; reflexivity). cbn [option_map]. by rewrite Hrole.
Qed.

(** a stream ends with its token. When a frame finds the token no longer good,
    the stream has served exactly the frames before it: the state is the one they
    left, the outputs are theirs followed by the refusal, and neither that frame
    nor any after it has an effect. *)
Theorem revoked_stream_stops rl user device pre fr post status
    (s : registry (P := P) (R := R))
  (Hpre : Forall (fun f => fr_standing f = Ok tt /\ is_ok (fr_msg f) = true) pre)
  (Hbad : fr_standing fr = Err status) :
  serve_inbound iter hmac_sha1 rl user device (pre ++ fr :: post) s =
  let '(s', outs) := serve_inbound iter hmac_sha1 rl user device pre s in
  (s', outs ++ [Err status]).
Proof using Type.
  revert s. induction Hpre as [|f pre [Hst Hmsg] _ IH]; intros s; cbn [app serve_inbound].
  - by rewrite Hbad.
  - rewrite Hst. destruct (fr_msg f) as [[req|]|]; [| |done]; [|apply IH].
    unfold mbind, St_bind. destruct (serve_request _ _ _ _ _ _ _ s) as [s1 out].
    rewrite IH. destruct (serve_inbound _ _ _ _ _ pre s1) as [s2 outs]. cbn.
    by rewrite app_assoc.
Qed.

(** Nothing is delivered past a revocation. While the client reads, what
    [forward_signals] writes is the responses of the signals received before the
    token stopped being good, each once and in order, then the refusal. *)
Lemma delivery_stops_at_revocation (pre post : list (ForwardedSignal P * result unit Status))
    f status open
  (Hpre : Forall (fun p => snd p = Ok tt) pre) (Hopen : (length pre < open)%nat) :
  forward_signals (pre ++ (f, Err status) :: post) open
  = map (fun p => Ok (signal_response_from_forwarded (fst p))) pre ++ [Err status].
Proof using Type.
  revert open Hopen. induction Hpre as [|[g st] pre Hst _ IH]; intros open Hopen; cbn in *.
  - by destruct open; [lia|].
  - subst st. destruct open as [|k]; [lia|]. by rewrite IH by lia.
Qed.

Lemma mirror_quiet (Up : R -> Prop) (s s' : registry (P := P) (R := R)) id st d :
  available Up -> mirror Up s id st -> quiet (set_delivered d s) s' -> mirror Up s' id st.
Proof.
  intros Hup Hm (r' & -> & Hk & Hmv). destruct Hm. split; cbn in *; auto.
  - by rewrite Hk.
  - by eapply moved_up.
Qed.

Lemma unregister_mirror (Up : R -> Prop) (s : registry (P := P) (R := R)) id st user device :
  available Up -> mirror Up s id st ->
  exists s', unregister_user user device s = (s', tt) /\ mirror Up s' id st /\
    delivered s' = delivered s /\ live s' = live s /\
    keys (redis s') !! ACTIVE_CALLS_SET_KEY = keys (redis s) !! ACTIVE_CALLS_SET_KEY /\
    (forall u, u <> user -> user_channels s' !! u = user_channels s !! u).
Proof.
  intros Hup Hm. unfold unregister_user. erewrite St_bind_eq by reflexivity.
  destruct (user_channels s !! user) as [devices|] eqn:Hu; [|exists s; by split_and!].
  erewrite St_bind_eq by reflexivity. set (s1 := set_channels _ s).
  edestruct (available_exact Up Hup (redis s1) (DEL (online_key user device)))
    as (r' & E & Hk & Hr'); [apply Hm|done|reflexivity|].
  erewrite St_bind_eq by (unfold on_redis, exec_unit; rewrite E; reflexivity).
  eexists. split; [reflexivity|]. split_and!.
  - destruct Hm. split; cbn in *; auto. rewrite Hk. by rewrite lookup_delete_ne.
  - done.
  - done.
  - cbn. rewrite Hk. by rewrite lookup_delete_ne.
  - intros u Hne. unfold s1. cbn.
    case_bool_decide; [by rewrite lookup_delete_ne|by rewrite lookup_insert_ne].
Qed.

(** a caller that disconnects ends the call. When the stream of the calling
    device closes (with Redis answering and agreeing on the call), the hangup is
    put on the listening channels of the callee's accepted device, of all the
    callee's devices if none accepted (the first five), and the call is gone from
    memory and from Redis with both parties' markers. *)
Theorem caller_disconnect_ends_call (Up : R -> Prop) now_s now_ms id st m0
    (s : registry (P := P) (R := R))
  (Hup : available Up) (Hm : mirror Up s id st)
  (Hset : as_set (keys (redis s)) ACTIVE_CALLS_SET_KEY = Some m0)
  (Hdiff : callee_user_id st <> caller_user_id st) :
  let s' := (stream_closed iter now_s now_ms (caller_user_id st) (caller_device_id st) s).1 in
  let hangup := server_hangup now_ms id HangupReason_ConnectionFailed in
  calls s' !! id = None /\ active_calls s' !! caller_user_id st = None /\
  active_calls s' !! callee_user_id st = None /\ keys (redis s') !! call_key id = None /\
  (forall p, p ∈ take MAX_SIGNAL_DESTINATIONS (reachable_channels (accepted_callee_device_id st)
                  (live s) (senders iter s (callee_user_id st))) ->
     (snd p, hangup) ∈ delivered s').
Proof.
  intros s' hangup. unfold s', stream_closed.
  destruct (unregister_mirror Up s id st (caller_user_id st) (caller_device_id st) Hup Hm)
    as (s1 & E1 & Hm1 & Hd1 & Hlive1 & Hset1 & Hch1).
  erewrite St_bind_eq by exact E1.
  destruct (get_user_call_mirror Up Hup s1 id st (caller_user_id st) Hm1) as (r2 & E2 & Hk2 & Hr2);
    [apply Hm1|].
  assert (mirror Up (set_redis r2 s1) id st) as Hm2 by by apply mirror_set_redis.
  erewrite St_bind_eq.
  2:{ unfold call_ended_by_disconnect. erewrite St_bind_eq by exact E2. cbn iota beta.
      erewrite St_bind_eq by (eapply load_mirror; exact Hm2). cbn iota beta.
      rewrite !bool_decide_true by done. reflexivity. }
  cbn iota beta. rewrite (mi_id _ _ _ _ Hm). fold hangup. set (s2 := set_redis r2 s1) in *.
  destruct (send_to_user_spec iter (caller_user_id st) (Some (caller_device_id st)) hangup s2)
    as (s3 & k3 & E3 & _ & Hq3).
  erewrite St_bind_eq by exact E3.
  pose proof (mirror_quiet Up _ _ _ _ _ Hup Hm2 Hq3) as Hm3.
  destruct (send_to_user_spec iter (callee_user_id st) (accepted_callee_device_id st) hangup s3)
    as (s4 & k4 & E4 & _ & Hq4).
  erewrite St_bind_eq by exact E4.
  pose proof (mirror_quiet Up _ _ _ _ _ Hup Hm3 Hq4) as Hm4.
  destruct Hq3 as (r3 & -> & Hk3 & _). destruct Hq4 as (r4 & -> & Hk4 & _). cbn in Hk3, Hk4.
  destruct (remove_call_mirror Up Hup _ id st m0 Hm4) as (s5 & -> & _ & Hc & Ha & Hd & Hk & _ & _).
  { cbn. rewrite Hk4, Hk3. unfold as_set in *. unfold s2. cbn. by rewrite Hk2, Hset1. }
  cbn [fst]. rewrite Hc, Ha, Hd. split_and!.
  - by rewrite lookup_delete_eq.
  - rewrite lookup_delete_ne by done. by rewrite lookup_delete_eq.
  - by rewrite lookup_delete_eq.
  - done.
  - intros p Hp. cbn [delivered set_redis set_delivered]. apply elem_of_app. right.
    apply list_elem_of_fmap. exists p. split; [done|]. cbn [live set_redis set_delivered s2].
    rewrite Hlive1. unfold senders in *. cbn. by rewrite Hch1.
Qed.

End Properties.

(** *** Witnesses *)

Definition toy_hmac (k m : bytes) : bytes := k ++ m.
Definition toy_rl : RateLimiter := {| peer_salt := "salt"; config := default_config |}.
Definition toy_uuid (s : string) : option string := if str_is_empty s then None else Some s.
Definition toy_queries : Queries string :=
  {| are_mutual_contacts := fun _ _ => Ok true; is_blocked_by := fun _ _ => Ok false |}.
Definition up (r : mem) : Prop := mem_up r = true.

Lemma call_rate_ceiling_witness :
  count_true (check_run (check_call_rate toy_rl "alice") 12 toy_a).2 = 10.
Proof.
  pose proof (call_rate_ceiling up toy_rl "alice" 12 toy_a 0 mem_available eq_refl eq_refl eq_refl
    eq_refl ltac:(lia) ltac:(vm_compute; done)) as Hc.
  destruct (check_run _ _ _) as [s' bs]. apply Hc.
Defined.

Definition toy_signal (body : Signal unit) : WebRtcSignal unit :=
  {| sig_call_id := "c1"; signal := Some body; sender_device_id := ""; timestamp := 1020000 |}.
Definition toy_hangup (why : Z) : CallHangup :=
  {| reason := why; hangup_device_id := "b-phone"; hangup_at := 1020000; hangup_message := None |}.
Definition toy_state : CallState := new_call 1000 "c1" "alice" "a-phone" "bob" 1000000.

Lemma outsider_changes_nothing_witness :
  let '(s', r) := handle_outbound_signal toy_iter toy_hmac 1020 1020000 toy_rl "mallory" "m-phone"
                    (Some (toy_signal (Busy tt))) toy_call in
  (r = Err not_a_participant \/ r = Err not_the_stream_device) /\
  keys (redis s') = keys (redis toy_call).
Proof.
  pose proof (outsider_changes_nothing toy_iter toy_hmac 1020 1020000 toy_rl "mallory" "m-phone"
    (toy_signal (Busy tt)) toy_state toy_call eq_refl eq_refl) as Hx.
  destruct (handle_outbound_signal _ _ _ _ _ _ _ _ _) as [s' r].
  split; [apply Hx|apply Hx].
Defined.

Definition toy_request (id callee : string) : InitiateCallRequest :=
  {| req_call_id := id; req_callee_user_id := callee; req_caller_name := "A";
     req_caller_avatar := []; req_call_type := 1 |}.

Lemma declined_caller_refused_witness :
  let s1 := (handle_outbound_signal toy_iter toy_hmac 1020 1020000 toy_rl "bob" "b-phone"
               (Some (toy_signal (Hangup (toy_hangup 3)))) toy_call).1 in
  exists r' err, initiate_call toy_iter toy_hmac toy_uuid as_bytes 1021 1021000 toy_rl
    (Some toy_queries) true (Ok "alice") (Ok "a-phone") (toy_request "c2" "bob") s1
  = (set_redis r' s1, Err err).
Proof.
  apply (declined_caller_refused toy_iter toy_hmac toy_uuid as_bytes up 1020 1020000 1021 1021000
    toy_rl (Some toy_queries) true "bob" "b-phone" (toy_signal (Hangup (toy_hangup 3)))
    (toy_hangup 3) "c1" toy_state (Ok "a-phone") (toy_request "c2" "bob") toy_call mem_available
    toy_mirror); done.
Defined.

Lemma toy_initiate_ok :
  exists s' resp pushes,
    initiate_call toy_iter toy_hmac toy_uuid as_bytes 1010 1010000 toy_rl (Some toy_queries) true
      (Ok "mallory") (Ok "m-phone") (toy_request "c1" "carol") toy_call = (s', Ok (resp, pushes)).
Proof. do 3 eexists. vm_compute. reflexivity. Qed.

Lemma initiate_call_gates_witness :
  exists s' resp pushes,
    initiate_call toy_iter toy_hmac toy_uuid as_bytes 1010 1010000 toy_rl (Some toy_queries) true
      (Ok "mallory") (Ok "m-phone") (toy_request "c1" "carol") toy_call = (s', Ok (resp, pushes)) /\
    (length pushes <= 1)%nat.
Proof.
  destruct toy_initiate_ok as (s' & resp & pushes & E). exists s', resp, pushes. split; [exact E|].
  destruct (initiate_call_gates toy_iter toy_hmac toy_uuid as_bytes 1010 1010000 toy_rl
    (Some toy_queries) true (Ok "mallory") (Ok "m-phone") (toy_request "c1" "carol") toy_call s'
    resp pushes E) as (c & d & q & cu & ku & Hx). apply Hx.
Defined.

Lemma call_id_takeover_witness :
  exists s', handle_outbound_signal toy_iter toy_hmac 1020 1020000 toy_rl "alice" "a-phone"
    (Some (toy_signal (Hangup (toy_hangup 1)))) s' = (s', Err not_a_participant).
Proof.
  destruct toy_initiate_ok as (s' & resp & pushes & E). exists s'.
  exact (proj2 (call_id_takeover toy_iter toy_hmac toy_uuid as_bytes 1010 1010000 toy_rl
    (Some toy_queries) true "mallory" "m-phone" (toy_request "c1" "carol") toy_state toy_call s'
    resp pushes "a-phone" (toy_signal (Hangup (toy_hangup 1))) 1020 1020000 eq_refl
    ltac:(discriminate) ltac:(discriminate) E eq_refl eq_refl)).
Defined.

Definition unauthenticated : Status :=
  {| code := Unauthenticated; message := "Invalid or expired token" |}.
Definition toy_frame (m : Request (P := unit)) (ok : result unit Status) : frame (P := unit) :=
  {| fr_msg := Ok (Some m); fr_standing := ok; fr_bucket := true; fr_now_s := 1020;
     fr_now_ms := 1020000 |}.

Lemma revoked_stream_stops_witness :
  (serve_inbound toy_iter toy_hmac toy_rl "alice" "a-phone"
     ([toy_frame (Ping 5) (Ok tt)] ++
      toy_frame (RoutedSignal (Some (toy_signal (Busy tt)))) (Err unauthenticated) ::
      [toy_frame (Ping 6) (Ok tt)]) toy_call).2
  = [Ok (Some (RPong 5 1020000)); Err unauthenticated].
Proof.
  rewrite (revoked_stream_stops toy_iter toy_hmac toy_rl "alice" "a-phone"
    [toy_frame (Ping 5) (Ok tt)]
    (toy_frame (RoutedSignal (Some (toy_signal (Busy tt)))) (Err unauthenticated))
    [toy_frame (Ping 6) (Ok tt)] unauthenticated toy_call
    ltac:(repeat constructor) eq_refl).
  vm_compute. reflexivity.
Defined.

Lemma caller_disconnect_ends_call_witness :
  calls (stream_closed toy_iter 1020 1020000 "alice" "a-phone" toy_call).1 !! "c1" = None.
Proof.
  apply (caller_disconnect_ends_call toy_iter up 1020 1020000 "c1" toy_state {["c1"]} toy_call
    mem_available toy_mirror eq_refl). discriminate.
Defined.

End Signaling.
