(* ===== verification/SealedSend.v ===== *)
(** * Sealed sends: delivery tags and Privacy Pass tokens

    Models messaging-service/src/spent_tag.rs (the anti-replay cache of delivery
    tags) and token_redeem.rs (redemption of a token, double-spend marker and
    the unit of envelopes one token pays for). Both are conversations with Redis
    (RedisStore.v); every function returns the connection and its verdict. The
    Lua scripts are functions on the keyspace, so they are atomic. SHA-256 and hex
    are third-party code and parameters; so are the decryption of a sealed token
    and the VOPRF check (construct-crypto/src/privacy_pass.rs), which are calls of
    third-party curve and AEAD code. *)

From S2P Require Import Prelude RedisStore.

Module SealedSend.
Import Redis.

Definition EXACT_TTL_SECS : Z := 300.
Definition SEEN_TTL_SECS : Z := 86400.
Definition SPENT_TTL_SECS : Z := 30 * 24 * 60 * 60.
Definition SPEND_UNIT_TTL_SECS : Z := 2 * 60 * 60.
Definition MAX_ENVELOPES_PER_SPEND_UNIT : Z := 256.
Definition SPEND_ID_LEN : nat := 32.

Inductive DeliveryTagStatus := New | ExactCacheHit | SeenCacheHit.
#[global] Instance DeliveryTagStatus_eq_dec : EqDecision DeliveryTagStatus.
Proof. solve_decision. Defined.

Inductive TokenRedeemResult :=
| TOk | UnitCovered | MissingToken | DecryptFailed | InvalidToken | DoubleSpent | UnitExhausted
| TRedisError | NotConfigured.
#[global] Instance TokenRedeemResult_eq_dec : EqDecision TokenRedeemResult.
Proof. solve_decision. Defined.

Definition is_accept (t : TokenRedeemResult) : bool :=
  match t with TOk | UnitCovered => true | _ => false end.

Inductive UnitLookup := Covered | Exhausted | NeedToken | LookupError.

(** ** The scripts *)

Definition exists_key (ks : keyspace) (k : string) : bool :=
  match ks !! k with Some _ => true | None => false end.

Definition setex (k v : string) (ttl : Z) (ks : keyspace) : keyspace :=
  <[k := Entry (VStr v) (Some ttl)]> ks.

Definition mark_script (exact_key seen_key : string) (exact_ttl seen_ttl : Z) (ks : keyspace)
    : option (keyspace * reply) :=
  if exists_key ks exact_key then Some (ks, RInt 1)
  else if exists_key ks seen_key then Some (ks, RInt 2)
  else Some (setex seen_key "1" seen_ttl (setex exact_key "1" exact_ttl ks), RInt 0).

(** [tonumber] of the counter: the scripts write only decimal integers. *)
Definition cover_script (key : string) (max : Z) (ks : keyspace) : option (keyspace * reply) :=
  match ks !! key with
  | None => Some (ks, RInt 0)
  | Some (Entry (VStr v) _) =>
      match parse_i64 v with
      | None => Some (ks, RInt 0)
      | Some n =>
          if max <=? n then Some (ks, RInt (-1))
          else let* p := doc_incr ks key in Some (fst p, RInt 1)
      end
  | Some _ => None
  end.

Definition open_script (key : string) (ttl : Z) (ks : keyspace) : option (keyspace * reply) :=
  match ks !! key with
  | None => Some (setex key "1" ttl ks, RInt 1)
  | Some _ => let* p := doc_incr ks key in Some (fst p, RInt 0)
  end.

Section WithRedis.
Context {R : Type} `{Redis R}.
Context (sha256 : bytes -> bytes) (hex_encode : bytes -> string).

(** ** Delivery tags *)

Definition exact_key (tag : bytes) : string := "sealed:exact:" +:+ hex_encode (sha256 tag).
Definition seen_key (tag : bytes) : string := "sealed:seen:" +:+ hex_encode (sha256 tag).

Definition check_and_mark_delivery_tag (r : R) (tag : bytes) : R * option DeliveryTagStatus :=
  match exec_int r (EVAL (mark_script (exact_key tag) (seen_key tag) EXACT_TTL_SECS SEEN_TTL_SECS))
  with
  | (r', None) => (r', None)
  | (r', Some n) =>
      (r', Some (if n =? 1 then ExactCacheHit else if n =? 2 then SeenCacheHit else New))
  end.

Definition unmark_delivery_tag (r : R) (tag : bytes) : R * option unit :=
  match exec_int r (DEL2 (exact_key tag) (seen_key tag)) with
  | (r', Some _) => (r', Some tt)
  | (r', None) => (r', None)
  end.

(** ** Tokens *)

Context (open_sealed_token_bytes : bytes -> bytes -> option bytes)
        (verify_token : bytes -> bytes -> bytes -> bool).

Definition spent_key (nonce : bytes) : string := "spent:" +:+ hex_encode (sha256 nonce).

Definition redeem_token (r : R) (issuer_key server_secret token_nonce token_bytes : bytes)
    : R * TokenRedeemResult :=
  if (length token_nonce =? 0)%nat || (length token_bytes =? 0)%nat then (r, MissingToken)
  else if negb (length token_nonce =? 32)%nat then (r, InvalidToken)
  else
    match open_sealed_token_bytes token_bytes server_secret with
    | None => (r, DecryptFailed)
    | Some token =>
        if negb (length token =? 32)%nat then (r, InvalidToken)
        else if negb (verify_token token token_nonce issuer_key) then (r, InvalidToken)
        else
          match exec_opt_string r (SETNXEX (spent_key token_nonce) "1" SPENT_TTL_SECS) with
          | (r', Some (Some _)) => (r', TOk)
          | (r', Some None) => (r', DoubleSpent)
          | (r', None) => (r', TRedisError)
          end
    end.

Definition normalize_spend_id (raw : bytes) : result (option bytes) unit :=
  if (length raw =? 0)%nat then Ok None
  else if negb (length raw =? SPEND_ID_LEN)%nat then Err tt
  else Ok (Some raw).

Definition unit_key (spend_id : bytes) (recipient_user_id : string) : string :=
  "pp:unit:" +:+ hex_encode (sha256 (spend_id ++ as_bytes "|" ++ as_bytes recipient_user_id)).

Definition try_cover_with_paid_unit (r : R) (spend_id : bytes) (recipient : string)
    : R * UnitLookup :=
  match exec_int r (EVAL (cover_script (unit_key spend_id recipient) MAX_ENVELOPES_PER_SPEND_UNIT))
  with
  | (r', None) => (r', LookupError)
  | (r', Some n) => (r', if n =? 1 then Covered else if n =? -1 then Exhausted else NeedToken)
  end.

Definition open_spend_unit (r : R) (spend_id : bytes) (recipient : string) : R * option unit :=
  match exec_int r (EVAL (open_script (unit_key spend_id recipient) SPEND_UNIT_TTL_SECS)) with
  | (r', Some _) => (r', Some tt)
  | (r', None) => (r', None)
  end.

Definition redeem_for_sealed_send (r : R) (issuer_key server_secret token_nonce token_bytes
    token_spend_id : bytes) (recipient : string) : R * TokenRedeemResult :=
  match normalize_spend_id token_spend_id with
  | Err _ => (r, InvalidToken)
  | Ok spend_id =>
      let '(r1, lookup) := match spend_id with
                           | Some id => try_cover_with_paid_unit r id recipient
                           | None => (r, NeedToken)
                           end in
      match lookup with
      | Covered => (r1, UnitCovered)
      | Exhausted => (r1, UnitExhausted)
      | LookupError => (r1, TRedisError)
      | NeedToken =>
          let '(r2, res) := redeem_token r1 issuer_key server_secret token_nonce token_bytes in
          match res, spend_id with
          | TOk, Some id => ((open_spend_unit r2 id recipient).1, TOk)
          | _, _ => (r2, res)
          end
      end
  end.

Definition redeem_token_checked (r : R) (issuer_key server_secret : option bytes)
    (token_nonce token_bytes token_spend_id : bytes) (recipient : string)
    : R * TokenRedeemResult :=
  match issuer_key, server_secret with
  | Some k, Some secret =>
      redeem_for_sealed_send r k secret token_nonce token_bytes token_spend_id recipient
  | _, _ => (r, NotConfigured)
  end.

(** ** Runs *)

Record attempt := {
  at_issuer : option bytes; at_secret : option bytes; at_nonce : bytes; at_token : bytes;
  at_spend_id : bytes; at_recipient : string;
}.

Definition redeem (r : R) (a : attempt) : R * TokenRedeemResult :=
  redeem_token_checked r (at_issuer a) (at_secret a) (at_nonce a) (at_token a) (at_spend_id a)
    (at_recipient a).

Fixpoint redeem_run (r : R) (ats : list attempt) : R * list (attempt * TokenRedeemResult) :=
  match ats with
  | [] => (r, [])
  | a :: rest =>
      let '(r1, res) := redeem r a in
      let '(r2, out) := redeem_run r1 rest in
      (r2, (a, res) :: out)
  end.

Fixpoint mark_run (r : R) (tags : list bytes) : R * list (bytes * option DeliveryTagStatus) :=
  match tags with
  | [] => (r, [])
  | t :: rest =>
      let '(r1, res) := check_and_mark_delivery_tag r t in
      let '(r2, out) := mark_run r1 rest in
      (r2, (t, res) :: out)
  end.

End WithRedis.

(** ** What a call may have done to a key

    A call that did not answer may have been executed: a property of the
    keyspace that the documented effect keeps is kept either way. *)

Section Laws.
Context {R : Type} `{RedisLaws R}.

Lemma exec_keeps (I : keyspace -> Prop) (r : R) c :
  (forall ks ks' rep, I ks -> cmd_doc c ks = Some (ks', rep) -> I ks') ->
  I (keys r) -> I (keys (exec r c).1).
Proof using Type.
  intros Hc Hi. destruct (exec r c) as [r' [rep|]] eqn:E; cbn.
  - destruct (exec_ok _ _ _ _ E) as (doc & Hd & _). by eapply Hc.
  - destruct (exec_err _ _ _ E) as [->|[rep Hd]]; [done|]. by eapply Hc.
Qed.

Lemma exec_int_keeps (I : keyspace -> Prop) (r : R) c r' o :
  exec_int r c = (r', o) ->
  (forall ks ks' rep, I ks -> cmd_doc c ks = Some (ks', rep) -> I ks') ->
  I (keys r) -> I (keys r').
Proof using Type.
  intros E Hc Hi. pose proof (exec_keeps I r c Hc Hi) as Hk. unfold exec_int in E.
  destruct (exec r c) as [r1 [[]|]]; by simplify_eq/=.
Qed.

Lemma exec_opt_keeps (I : keyspace -> Prop) (r : R) c r' o :
  exec_opt_string r c = (r', o) ->
  (forall ks ks' rep, I ks -> cmd_doc c ks = Some (ks', rep) -> I ks') ->
  I (keys r) -> I (keys r').
Proof using Type.
  intros E Hc Hi. pose proof (exec_keeps I r c Hc Hi) as Hk. unfold exec_opt_string in E.
  destruct (exec r c) as [r1 [[]|]]; by simplify_eq/=.
Qed.

(** *** What each script does *)

Lemma doc_incr_spec ks k ks' rep :
  doc_incr ks k = Some (ks', rep) ->
  exists n, rep = RInt (n + 1) /\ counter ks k = Some n /\ n < i64_max /\
    ks' = set_val ks k (VStr (to_string (n + 1))).
Proof using Type.
  unfold doc_incr, counter. intros Hd.
  destruct (match ks !! k with None => Some 0 | Some (Entry (VStr s) _) => parse_i64 s | Some _ => None
            end) as [n|]; [|done].
  destruct (Z.leb_spec i64_max n); [done|]. injection Hd as <- <-. by exists n.
Qed.

Lemma set_val_other ks k v j : j <> k -> set_val ks k v !! j = ks !! j.
Proof using Type. intros Hj. unfold set_val. by rewrite lookup_insert_ne. Qed.

Lemma set_val_counter ks k n :
  i64_min <= n <= i64_max -> counter (set_val ks k (VStr (to_string n))) k = Some n.
Proof using Type.
  intros Hn. unfold counter, set_val. rewrite lookup_insert_eq. by apply parse_i64_to_string.
Qed.

Lemma cover_script_other key max ks ks' rep j :
  cover_script key max ks = Some (ks', rep) -> j <> key -> ks' !! j = ks !! j.
Proof using Type.
  unfold cover_script. intros Hc Hj. destruct (ks !! key) as [[[v| | | |] t]|]; simplify_eq; [|done].
  destruct (parse_i64 v) as [n|]; [|by simplify_eq].
  destruct (max <=? n); [by simplify_eq|]. destruct (doc_incr ks key) as [[ks1 rep1]|] eqn:E; [|done].
  simplify_eq/=. destruct (doc_incr_spec _ _ _ _ E) as (m & _ & _ & _ & ->).
  by apply set_val_other.
Qed.

Lemma open_script_other key ttl ks ks' rep j :
  open_script key ttl ks = Some (ks', rep) -> j <> key -> ks' !! j = ks !! j.
Proof using Type.
  unfold open_script, setex. intros Hc Hj. destruct (ks !! key); simplify_eq.
  - destruct (doc_incr ks key) as [[ks1 rep1]|] eqn:E; [|done]. simplify_eq/=.
    destruct (doc_incr_spec _ _ _ _ E) as (m & _ & _ & _ & ->). by apply set_val_other.
  - by rewrite lookup_insert_ne.
Qed.

Context (sha256 : bytes -> bytes) (hex_encode : bytes -> string)
        (open_sealed : bytes -> bytes -> option bytes)
        (verify_token : bytes -> bytes -> bytes -> bool).

(** ** A token is spent at most once *)

(** Once a nonce's marker is there it stays, whatever is redeemed. *)
Definition marked (k : string) (ks : keyspace) : Prop := is_Some (ks !! k).

Lemma redeem_token_marked r ik ss nonce tok r' res n :
  redeem_token sha256 hex_encode open_sealed verify_token r ik ss nonce tok = (r', res) ->
  (marked (spent_key sha256 hex_encode n) (keys r) ->
   marked (spent_key sha256 hex_encode n) (keys r')) /\
  (res = TOk -> ~ marked (spent_key sha256 hex_encode nonce) (keys r) /\
                marked (spent_key sha256 hex_encode nonce) (keys r')).
Proof using Type.
  unfold redeem_token. intros E.
  repeat match type of E with
  | (if ?b then _ else _) = _ => destruct b; [by simplify_eq|]
  | match open_sealed ?x ?y with _ => _ end = _ => destruct (open_sealed x y); [|by simplify_eq]
  end.
  set (k := spent_key sha256 hex_encode nonce) in *.
  destruct (exec_opt_string r (SETNXEX k "1" SPENT_TTL_SECS)) as [r1 o] eqn:Ex.
  split.
  - intros Hm. assert (r' = r1) as -> by by destruct o as [[]|]; simplify_eq.
    eapply (exec_opt_keeps (marked (spent_key sha256 hex_encode n))); [exact Ex| |done].
    intros ks ks' rep Hks Hd. cbn in Hd. change (SPENT_TTL_SECS <=? 0) with false in Hd. cbn iota in Hd.
    destruct (ks !! k) eqn:Hk; simplify_eq; [done|].
    unfold marked. destruct (decide (spent_key sha256 hex_encode n = k)) as [->|];
      [by rewrite lookup_insert_eq|by rewrite lookup_insert_ne].
  - intros ->. destruct o as [[v|]|]; simplify_eq. unfold exec_opt_string in Ex.
    destruct (exec r (SETNXEX k "1" SPENT_TTL_SECS)) as [r2 [rep|]] eqn:E2; [|done].
    pose proof (exec_exact _ _ _ _ E2 eq_refl) as Hd. cbn in Hd.
    change (SPENT_TTL_SECS <=? 0) with false in Hd. cbn iota in Hd.
    destruct (keys r !! k) eqn:Hk; simplify_eq; unfold marked.
    split; [by rewrite Hk; intros [? ?]|].
    match goal with Hk' : <[_ := _]> _ = keys _ |- _ => rewrite <- Hk' end.
    by rewrite lookup_insert_eq.
Qed.

Lemma redeem_marked r a r' res n :
  redeem sha256 hex_encode open_sealed verify_token r a = (r', res) ->
  (marked (spent_key sha256 hex_encode n) (keys r) ->
   marked (spent_key sha256 hex_encode n) (keys r')) /\
  (res = TOk -> ~ marked (spent_key sha256 hex_encode (at_nonce a)) (keys r) /\
                marked (spent_key sha256 hex_encode (at_nonce a)) (keys r')).
Proof using Type.
  unfold redeem, redeem_token_checked. destruct (at_issuer a) as [ik|], (at_secret a) as [ss|];
    try (intros; by simplify_eq).
  unfold redeem_for_sealed_send. destruct (normalize_spend_id (at_spend_id a)) as [sid|];
    [|intros; by simplify_eq].
  destruct (match sid with Some id => _ | None => (r, NeedToken) end) as [r1 lookup] eqn:E1.
  assert (forall m, keys r1 !! spent_key sha256 hex_encode m
                    = keys r !! spent_key sha256 hex_encode m) as Hsame.
  { intros m. destruct sid as [id|]; [|by simplify_eq]. unfold try_cover_with_paid_unit in E1.
    destruct (exec_int r _) as [r2 o] eqn:Ex. assert (r2 = r1) as -> by by destruct o; simplify_eq.
    pose proof (exec_frame r (EVAL (cover_script (unit_key sha256 hex_encode id (at_recipient a))
      MAX_ENVELOPES_PER_SPEND_UNIT)) (spent_key sha256 hex_encode m)) as Hf.
    rewrite <- Hf; [|intros ks ks' rep Hd; by eapply cover_script_other].
    unfold exec_int in Ex. by destruct (exec r _) as [? [[]|]]; simplify_eq/=. }
  destruct lookup; try (intros; simplify_eq; unfold marked; rewrite !Hsame; done).
  destruct (redeem_token sha256 hex_encode open_sealed verify_token r1 ik ss (at_nonce a) (at_token a))
    as [r2 res2] eqn:E2. intros E.
  destruct (redeem_token_marked _ _ _ _ _ _ _ n E2) as [Hm Hok].
  unfold marked in *. rewrite !Hsame in *.
  assert (res = res2 /\ forall m, keys r' !! spent_key sha256 hex_encode m
                                  = keys r2 !! spent_key sha256 hex_encode m) as [-> Hr'].
  { destruct res2, sid as [id|]; simplify_eq; try done. split; [done|]. intros m.
    unfold open_spend_unit.
    pose proof (exec_frame r2 (EVAL (open_script (unit_key sha256 hex_encode id (at_recipient a))
      SPEND_UNIT_TTL_SECS)) (spent_key sha256 hex_encode m)) as Hf.
    rewrite <- Hf; [|intros ks ks' rep Hd; by eapply open_script_other].
    unfold exec_int. by destruct (exec r2 _) as [? [[]|]]. }
  rewrite !Hr'. done.
Qed.

Definition spends (nonce : bytes) (p : attempt * TokenRedeemResult) : bool :=
  bool_decide (spent_key sha256 hex_encode (at_nonce (fst p)) = spent_key sha256 hex_encode nonce)
  && bool_decide (snd p = TOk).

Lemma redeem_run_once nonce ats r :
  count_if (spends nonce) (redeem_run sha256 hex_encode open_sealed verify_token r ats).2
  <= (if bool_decide (marked (spent_key sha256 hex_encode nonce) (keys r)) then 0 else 1).
Proof using Type.
  revert r. induction ats as [|a ats IH]; intros r; cbn [redeem_run].
  { case_bool_decide; vm_compute; discriminate. }
  destruct (redeem sha256 hex_encode open_sealed verify_token r a) as [r1 res] eqn:E.
  destruct (redeem_marked _ _ _ _ nonce E) as [Hm Hok]. specialize (IH r1).
  destruct (redeem_run sha256 hex_encode open_sealed verify_token r1 ats) as [r2 out].
  cbn [snd] in *. unfold count_if in *. cbn [List.filter].
  destruct (spends nonce (a, res)) eqn:Hs; cbn [length].
  - unfold spends in Hs. apply andb_true_iff in Hs as [Hkey Hres].
    apply bool_decide_eq_true in Hkey, Hres. cbn in *. subst res.
    destruct (Hok eq_refl) as [Hno Hyes]. rewrite Hkey in Hno, Hyes. rewrite bool_decide_true in IH by done.
    rewrite bool_decide_false by done. lia.
  - etrans; [exact IH|]. repeat case_bool_decide; try lia. tauto.
Qed.

(** ** A unit covers a bounded number of envelopes *)

(** [cov] envelopes were covered by the unit [u], and its counter is ahead of
    them; a unit that is there was paid for. *)
Definition unit_inv (u : string) (cov : Z) (paid : bool) (ks : keyspace) : Prop :=
  match ks !! u with
  | None => cov = 0
  | Some _ => exists n, counter ks u = Some n /\ 1 <= n /\ cov <= n - 1 /\
                cov <= MAX_ENVELOPES_PER_SPEND_UNIT - 1 /\ paid = true
  end.

Lemma unit_inv_same u cov paid ks ks' :
  ks' !! u = ks !! u -> unit_inv u cov paid ks -> unit_inv u cov paid ks'.
Proof using Type. intros E. unfold unit_inv, counter. by rewrite E. Qed.

Lemma unit_inv_incr u cov' paid ks ks' rep n :
  doc_incr ks u = Some (ks', rep) -> counter ks u = Some n -> 1 <= n ->
  cov' <= n -> cov' <= MAX_ENVELOPES_PER_SPEND_UNIT - 1 -> paid = true ->
  unit_inv u cov' paid ks'.
Proof using Type.
  intros Hd Hn H1' Hc Hc' Hp. destruct (doc_incr_spec _ _ _ _ Hd) as (m & _ & Hm & Hlt & ->).
  rewrite Hn in Hm. injection Hm as <-. unfold unit_inv.
  assert (set_val ks u (VStr (to_string (n + 1))) !! u <> None) as Hsome
    by (unfold set_val; by rewrite lookup_insert_eq).
  destruct (set_val ks u _ !! u); [|done]. exists (n + 1).
  rewrite set_val_counter by (unfold i64_min; lia). split_and!; auto; lia.
Qed.

Lemma cover_script_inv u cov paid ks ks' rep :
  cover_script u MAX_ENVELOPES_PER_SPEND_UNIT ks = Some (ks', rep) -> unit_inv u cov paid ks ->
  unit_inv u cov paid ks' /\ (rep = RInt 1 -> unit_inv u (cov + 1) paid ks').
Proof using Type.
  unfold cover_script. intros Hs Hi. pose proof Hi as Hinv. unfold unit_inv in Hi.
  destruct (ks !! u) as [[[v| | | |] t]|] eqn:Hk; try done; [|by simplify_eq].
  destruct Hi as (n & Hn & Hn1 & Hc1 & Hc2 & Hp).
  assert (parse_i64 v = Some n) as Hv by (unfold counter in Hn; by rewrite Hk in Hn).
  rewrite Hv in Hs. unfold MAX_ENVELOPES_PER_SPEND_UNIT in *.
  destruct (Z.leb_spec 256 n); [by simplify_eq|].
  destruct (doc_incr ks u) as [[ks1 rep1]|] eqn:Hd; [|done]. simplify_eq/=.
  split; [|intros _]; eapply unit_inv_incr; eauto; unfold MAX_ENVELOPES_PER_SPEND_UNIT; lia.
Qed.

Lemma open_script_inv u cov paid ks ks' rep :
  open_script u SPEND_UNIT_TTL_SECS ks = Some (ks', rep) -> unit_inv u cov paid ks ->
  unit_inv u cov true ks'.
Proof using Type.
  unfold open_script. intros Hs Hi. unfold unit_inv in Hi.
  destruct (ks !! u) as [e|] eqn:Hk.
  - destruct Hi as (n & Hn & Hn1 & Hc1 & Hc2 & Hp).
    destruct (doc_incr ks u) as [[ks1 rep1]|] eqn:Hd; [|done]. simplify_eq/=.
    eapply unit_inv_incr; eauto; lia.
  - simplify_eq. unfold unit_inv, setex. rewrite lookup_insert_eq. exists 1.
    unfold counter. rewrite lookup_insert_eq. cbn. unfold MAX_ENVELOPES_PER_SPEND_UNIT.
    split_and!; auto; lia.
Qed.

(** The unit an attempt names, if any. *)
Definition unit_of (a : attempt) : option string :=
  match normalize_spend_id (at_spend_id a) with
  | Ok (Some id) => Some (unit_key sha256 hex_encode id (at_recipient a))
  | _ => None
  end.

Definition uses (u : string) (want : TokenRedeemResult) (p : attempt * TokenRedeemResult) : bool :=
  bool_decide (unit_of (fst p) = Some u) && bool_decide (snd p = want).

Lemma try_cover_inv u cov paid r id recipient r1 l :
  try_cover_with_paid_unit sha256 hex_encode r id recipient = (r1, l) ->
  unit_inv u cov paid (keys r) ->
  unit_inv u cov paid (keys r1) /\
  (l = Covered -> unit_key sha256 hex_encode id recipient = u -> unit_inv u (cov + 1) paid (keys r1)).
Proof using Type.
  intros E Hi. unfold try_cover_with_paid_unit in E.
  set (k := unit_key sha256 hex_encode id recipient) in *.
  destruct (exec_int r _) as [r2 o] eqn:Ex. assert (r2 = r1) as -> by by destruct o; simplify_eq.
  split.
  - eapply (exec_int_keeps (unit_inv u cov paid)); [exact Ex| |done]. cbn. intros ks ks' rep Hks Hd.
    destruct (decide (u = k)) as [->|Hne].
    + by destruct (cover_script_inv _ _ _ _ _ _ Hd Hks).
    + eapply unit_inv_same; [|exact Hks]. by eapply cover_script_other.
  - intros -> Hku. subst u. destruct o as [n|]; [|done].
    pose proof (exec_int_ok _ _ _ _ Ex eq_refl) as Hd. cbn in Hd.
    assert (n = 1) as ->.
    { destruct (Z.eqb_spec n 1); [done|]. by destruct (n =? -1). }
    destruct (cover_script_inv _ cov paid _ _ _ Hd Hi) as [_ Hc]. by apply Hc.
Qed.

Lemma redeem_token_frame r ik ss nonce tok r' res u :
  redeem_token sha256 hex_encode open_sealed verify_token r ik ss nonce tok = (r', res) ->
  (exists x, u = "pp:unit:" +:+ x) -> keys r' !! u = keys r !! u.
Proof using Type.
  unfold redeem_token. intros E [x ->].
  repeat match type of E with
  | (if ?b then _ else _) = _ => destruct b; [by simplify_eq|]
  | match open_sealed ?x ?y with _ => _ end = _ => destruct (open_sealed x y); [|by simplify_eq]
  end.
  destruct (exec_opt_string r _) as [r1 o] eqn:Ex.
  assert (r' = r1) as -> by by destruct o as [[]|]; simplify_eq.
  pose proof (exec_frame r (SETNXEX (spent_key sha256 hex_encode nonce) "1" SPENT_TTL_SECS)
    ("pp:unit:" +:+ x)) as Hf.
  unfold exec_opt_string in Ex. destruct (exec r _) as [r2 o2] eqn:E2. cbn [fst] in Hf.
  assert (r1 = r2) as -> by by destruct o2 as [[]|]; simplify_eq. apply Hf.
  intros ks ks' rep Hd. cbn in Hd. change (SPENT_TTL_SECS <=? 0) with false in Hd. cbn iota in Hd.
  destruct (ks !! spent_key sha256 hex_encode nonce); simplify_eq; [done|].
  by rewrite lookup_insert_ne.
Qed.

Lemma redeem_unit_inv u cov paid r a r' res :
  (exists x, u = "pp:unit:" +:+ x) ->
  redeem sha256 hex_encode open_sealed verify_token r a = (r', res) ->
  unit_inv u cov paid (keys r) ->
  unit_inv u (cov + (if uses u UnitCovered (a, res) then 1 else 0))
    (paid || uses u TOk (a, res)) (keys r').
Proof using Type.
  intros Hu E Hi.
  assert (forall ks, unit_inv u cov paid ks -> res <> UnitCovered ->
    unit_inv u (cov + (if uses u UnitCovered (a, res) then 1 else 0)) (paid || uses u TOk (a, res)) ks)
    as Hweak.
  { intros ks Hks Hne. unfold uses at 1. cbn [snd].
    rewrite (bool_decide_false (res = UnitCovered)), andb_false_r, Z.add_0_r by done.
    unfold unit_inv in *. destruct (ks !! u); [|done]. destruct Hks as (n & ? & ? & ? & ? & ->).
    exists n. by split_and!. }
  unfold redeem, redeem_token_checked in E.
  destruct (at_issuer a) as [ik|]; [|simplify_eq; by apply Hweak].
  destruct (at_secret a) as [ss|]; [|simplify_eq; by apply Hweak].
  unfold redeem_for_sealed_send in E.
  destruct (normalize_spend_id (at_spend_id a)) as [sid|] eqn:Hsid; [|simplify_eq; by apply Hweak].
  destruct (match sid with Some id => _ | None => (r, NeedToken) end) as [r1 l] eqn:E1.
  assert (unit_inv u cov paid (keys r1) /\
    (l = Covered -> unit_of a = Some u -> unit_inv u (cov + 1) paid (keys r1)) /\
    (l = Covered -> sid <> None)) as (Hi1 & Hcov & Hsome).
  { destruct sid as [id|]; [|by simplify_eq]. unfold unit_of. rewrite Hsid.
    destruct (try_cover_inv u cov paid r id (at_recipient a) r1 l E1 Hi) as [? Hc].
    split_and!; [done| |done]. intros ? [= <-]. by apply Hc. }
  destruct l; try (simplify_eq; by apply Hweak).
  - simplify_eq. unfold uses. cbn [fst snd]. rewrite (bool_decide_true (UnitCovered = UnitCovered)),
      (bool_decide_false (UnitCovered = TOk)), andb_true_r, andb_false_r, orb_false_r by done.
    case_bool_decide; [by apply Hcov|]. by rewrite Z.add_0_r.
  - destruct (redeem_token sha256 hex_encode open_sealed verify_token r1 ik ss (at_nonce a)
      (at_token a)) as [r2 res2] eqn:E2.
    pose proof (redeem_token_frame _ _ _ _ _ _ _ u E2 Hu) as Hsame.
    assert (unit_inv u cov paid (keys r2)) as Hi2 by by eapply unit_inv_same.
    assert (res2 <> UnitCovered) as Hres2.
    { intros ->. unfold redeem_token in E2. split_matches_in E2. }
    destruct res2, sid as [id|]; simplify_eq; try (by apply Hweak).
    unfold uses. cbn [fst snd]. rewrite (bool_decide_false (TOk = UnitCovered)),
      (bool_decide_true (TOk = TOk)), andb_false_r, andb_true_r, Z.add_0_r by done.
    unfold open_spend_unit. set (k := unit_key sha256 hex_encode id (at_recipient a)).
    unfold unit_of. rewrite Hsid. fold k.
    destruct (exec_int r2 _) as [r3 o] eqn:Ex.
    replace (match o with Some _ => (r3, Some tt) | None => (r3, None) end).1 with r3
      by by destruct o.
    case_bool_decide as Hku.
    + injection Hku as <-. rewrite orb_true_r.
      assert (unit_inv k cov paid (keys r3) \/ unit_inv k cov true (keys r3)) as [Hx|Hx]; [| |done].
      * unfold exec_int in Ex. destruct (exec r2 _) as [r4 o4] eqn:E4.
        assert (r4 = r3) as -> by by destruct o4 as [[]|]; simplify_eq.
        destruct o4 as [rep|].
        -- right. pose proof (exec_exact _ _ _ _ E4 eq_refl) as Hd. by eapply open_script_inv.
        -- destruct (exec_err _ _ _ E4) as [Hk|[rep Hd]]; [left; by rewrite Hk|right].
           by eapply open_script_inv.
      * unfold unit_inv in *. destruct (keys r3 !! k); [|done].
        destruct Hx as (n & ? & ? & ? & ? & ->). exists n. by split_and!.
    + rewrite orb_false_r. eapply (exec_int_keeps (unit_inv u cov paid)); [exact Ex| |done].
      cbn. intros ks ks' rep Hks Hd. eapply unit_inv_same; [|exact Hks].
      eapply open_script_other; [exact Hd|]. congruence.
Qed.

Lemma redeem_run_unit u ats r cov paid :
  (exists x, u = "pp:unit:" +:+ x) -> unit_inv u cov paid (keys r) ->
  let out := (redeem_run sha256 hex_encode open_sealed verify_token r ats).2 in
  exists paid' ks, unit_inv u (cov + count_if (uses u UnitCovered) out) paid' ks /\
    (paid' = true -> paid = true \/ exists a, (a, TOk) ∈ out /\ unit_of a = Some u).
Proof using Type.
  intros Hu. revert r cov paid. induction ats as [|a ats IH]; intros r cov paid Hi; cbn [redeem_run].
  { exists paid, (keys r). cbn. rewrite Z.add_0_r. auto. }
  destruct (redeem sha256 hex_encode open_sealed verify_token r a) as [r1 res] eqn:E.
  pose proof (redeem_unit_inv u cov paid r a r1 res Hu E Hi) as Hi1.
  destruct (IH r1 _ _ Hi1) as (paid' & ks & Hinv & Hp).
  destruct (redeem_run sha256 hex_encode open_sealed verify_token r1 ats) as [r2 out]. cbn [snd] in *.
  exists paid', ks. split.
  - unfold count_if in *. cbn [List.filter]. destruct (uses u UnitCovered (a, res)); cbn [length];
      [|by rewrite Z.add_0_r in Hinv].
    replace (cov + Z.of_nat (S (length (List.filter (uses u UnitCovered) out))))
      with (cov + 1 + Z.of_nat (length (List.filter (uses u UnitCovered) out))) by lia. done.
  - intros Ht. destruct (Hp Ht) as [Hor|(b & Hb & Hbu)].
    + apply orb_true_iff in Hor as [?|Hus]; [by left|]. right. exists a. unfold uses in Hus.
      apply andb_true_iff in Hus as [H1' H2']. apply bool_decide_eq_true in H1', H2'. cbn in *.
      subst res. split; [by left|done].
    + right. exists b. split; [by right|done].
Qed.

End Laws.

(** ** Delivery tags *)

Section Tags.
Context {R : Type} `{RedisLaws R}.
Context (sha256 : bytes -> bytes) (hex_encode : bytes -> string).

Lemma mark_script_seen ek sk ks ks' rep j :
  mark_script ek sk EXACT_TTL_SECS SEEN_TTL_SECS ks = Some (ks', rep) -> marked j ks -> marked j ks'.
Proof using Type.
  unfold mark_script, marked, setex. destruct (exists_key ks ek); [by intros; simplify_eq|].
  destruct (exists_key ks sk); intros [= <- <-] Hj; [done|].
  destruct (decide (j = sk)) as [->|]; [by rewrite lookup_insert_eq|].
  rewrite lookup_insert_ne by done.
  destruct (decide (j = ek)) as [->|]; [by rewrite lookup_insert_eq|by rewrite lookup_insert_ne].
Qed.

Lemma check_and_mark_seen r tag r' st t :
  check_and_mark_delivery_tag sha256 hex_encode r tag = (r', st) ->
  (marked (seen_key sha256 hex_encode t) (keys r) -> marked (seen_key sha256 hex_encode t) (keys r'))
  /\ (st = Some New -> ~ marked (seen_key sha256 hex_encode tag) (keys r) /\
                       marked (seen_key sha256 hex_encode tag) (keys r')).
Proof using Type.
  unfold check_and_mark_delivery_tag. set (ek := exact_key sha256 hex_encode tag).
  set (sk := seen_key sha256 hex_encode tag).
  destruct (exec_int r _) as [r1 o] eqn:Ex. intros E.
  assert (r1 = r') as -> by by destruct o; simplify_eq. split.
  - intros Hm. eapply (exec_int_keeps (marked _)); [exact Ex| |exact Hm].
    cbn. intros ks ks' rep Hks Hd. by eapply mark_script_seen.
  - intros ->. destruct o as [n|]; [|done].
    pose proof (exec_int_ok _ _ _ _ Ex eq_refl) as Hd. cbn in Hd. unfold mark_script, exists_key in Hd.
    destruct (keys r !! ek); [by simplify_eq|]. unfold marked.
    destruct (keys r !! sk) eqn:Hs; [by simplify_eq|]. injection Hd as <- _.
    split; [by intros [? ?]|]. unfold setex. by rewrite lookup_insert_eq.
Qed.

Definition is_new (tag : bytes) (p : bytes * option DeliveryTagStatus) : bool :=
  bool_decide (seen_key sha256 hex_encode (fst p) = seen_key sha256 hex_encode tag)
  && bool_decide (snd p = Some New).

Lemma mark_run_once tag tags r :
  count_if (is_new tag) (mark_run sha256 hex_encode r tags).2
  <= (if bool_decide (marked (seen_key sha256 hex_encode tag) (keys r)) then 0 else 1).
Proof using Type.
  revert r. induction tags as [|t tags IH]; intros r; cbn [mark_run].
  { case_bool_decide; vm_compute; discriminate. }
  destruct (check_and_mark_delivery_tag sha256 hex_encode r t) as [r1 st] eqn:E.
  destruct (check_and_mark_seen _ _ _ _ tag E) as [Hm Hok]. specialize (IH r1).
  destruct (mark_run sha256 hex_encode r1 tags) as [r2 out].
  cbn [snd] in *. unfold count_if in *. cbn [List.filter].
  destruct (is_new tag (t, st)) eqn:Hs; cbn [length].
  - unfold is_new in Hs. apply andb_true_iff in Hs as [Hkey Hres].
    apply bool_decide_eq_true in Hkey, Hres. cbn in *. subst st.
    destruct (Hok eq_refl) as [Hno Hyes]. rewrite Hkey in Hno, Hyes.
    rewrite bool_decide_true in IH by done. rewrite bool_decide_false by done. lia.
  - etrans; [exact IH|]. repeat case_bool_decide; try lia. tauto.
Qed.

Context (Up : R -> Prop) (Hup : available Up).

Lemma unmark_then_new r tag :
  Up r ->
  exists r1, unmark_delivery_tag sha256 hex_encode r tag = (r1, Some tt) /\ Up r1 /\
    (check_and_mark_delivery_tag sha256 hex_encode r1 tag).2 = Some New.
Proof using Hup.
  intros Hr. unfold unmark_delivery_tag, check_and_mark_delivery_tag.
  set (ek := exact_key sha256 hex_encode tag). set (sk := seen_key sha256 hex_encode tag).
  edestruct (available_exact Up Hup r (DEL2 ek sk)) as (r1 & E1 & Hk1 & Hr1);
    [done|done|reflexivity|].
  unfold exec_int at 1. rewrite E1. exists r1. split_and!; [done|done|].
  edestruct (available_exact Up Hup r1 (EVAL (mark_script ek sk EXACT_TTL_SECS SEEN_TTL_SECS)))
    as (r2 & E2 & _ & _); [done|done| |].
  { cbn. unfold mark_script, exists_key. rewrite Hk1.
    rewrite (lookup_delete_ne _ sk ek), lookup_delete_eq, lookup_delete_eq by done. reflexivity. }
  unfold exec_int. by rewrite E2.
Qed.

End Tags.

(** ** Properties *)

Section Properties.
Context {R : Type} `{RedisLaws R}.
Context (sha256 : bytes -> bytes) (hex_encode : bytes -> string)
        (open_sealed : bytes -> bytes -> option bytes)
        (verify_token : bytes -> bytes -> bytes -> bool).

(** A token that opens and verifies, with its marker absent, is accepted. *)
Lemma redeem_token_fresh (Up : R -> Prop) (r : R) k secret nonce tb token :
  available Up -> Up r -> keys r !! spent_key sha256 hex_encode nonce = None ->
  length nonce = 32%nat -> tb <> [] -> open_sealed tb secret = Some token ->
  length token = 32%nat -> verify_token token nonce k = true ->
  (redeem_token sha256 hex_encode open_sealed verify_token r k secret nonce tb).2 = TOk.
Proof.
  intros Hup Hr Hk Hn Htb Ho Ht Hv. unfold redeem_token. rewrite Hn, Ho, Ht, Hv.
  destruct tb as [|b tb]; [done|]. cbn [length Nat.eqb orb negb].
  edestruct (available_exact Up Hup r (SETNXEX (spent_key sha256 hex_encode nonce) "1"
    SPENT_TTL_SECS)) as (r1 & E & _); [done|done| |].
  { cbn. rewrite Hk. reflexivity. }
  unfold exec_opt_string. by rewrite E.
Qed.

(** C4: a token is spent exactly once. In any sequence of redemption attempts, with
    Redis failing or losing answers at any call, at most one attempt whose nonce
    has a given marker key is answered [Ok], and none if the marker was there
    before, as long as the marker has not expired. While Redis answers, a token
    whose marker is absent and which opens and verifies is accepted. *)
Theorem token_spent_once nonce ats (r : R) :
  let oks := count_if (spends sha256 hex_encode nonce)
               (redeem_run sha256 hex_encode open_sealed verify_token r ats).2 in
  oks <= 1 /\ (is_Some (keys r !! spent_key sha256 hex_encode nonce) -> oks = 0) /\
  (forall Up k secret tb token,
     available Up -> Up r -> keys r !! spent_key sha256 hex_encode nonce = None ->
     length nonce = 32%nat -> tb <> [] -> open_sealed tb secret = Some token ->
     length token = 32%nat -> verify_token token nonce k = true ->
     (redeem_token sha256 hex_encode open_sealed verify_token r k secret nonce tb).2 = TOk).
Proof.
  intros oks. pose proof (redeem_run_once sha256 hex_encode open_sealed verify_token nonce ats r) as Ho.
  fold oks in Ho. assert (0 <= oks) by (unfold oks, count_if; lia). split_and!.
  - case_bool_decide; lia.
  - intros Hs. rewrite bool_decide_true in Ho by done. lia.
  - intros. by eapply redeem_token_fresh.
Qed.

(** C27: one token covers one message to one recipient. In any sequence of
    attempts, with Redis failing or losing answers at any call, from a state where
    the unit of a spend id and a recipient is not open: at most 255 envelopes are
    covered by the unit, and one is covered only if a token was spent on an
    envelope of the same unit. *)
Theorem spend_unit_bounded spend_id recipient ats (r : R)
  (Hclosed : keys r !! unit_key sha256 hex_encode spend_id recipient = None) :
  let u := unit_key sha256 hex_encode spend_id recipient in
  let out := (redeem_run sha256 hex_encode open_sealed verify_token r ats).2 in
  let covered := count_if (uses sha256 hex_encode u UnitCovered) out in
  covered <= MAX_ENVELOPES_PER_SPEND_UNIT - 1 /\
  (0 < covered -> exists a, (a, TOk) ∈ out /\ unit_of sha256 hex_encode a = Some u).
Proof.
  intros u out covered.
  destruct (redeem_run_unit sha256 hex_encode open_sealed verify_token u ats r 0 false)
    as (paid & ks & Hinv & Hp).
  - by eexists.
  - unfold unit_inv, u. by rewrite Hclosed.
  - fold out in Hinv, Hp. fold covered in Hinv. unfold unit_inv in Hinv.
    destruct (ks !! u); [|unfold MAX_ENVELOPES_PER_SPEND_UNIT in *; lia].
    destruct Hinv as (n & _ & _ & _ & Hc & ->). split; [lia|]. intros _.
    destruct (Hp eq_refl) as [?|?]; done.
Qed.

(** a delivery tag is new once. In any sequence of checks, with Redis failing or
    losing answers at any call, at most one check of a tag says [New], and none if
    the tag was seen before; and while Redis answers, a tag unmarked after a failed
    delivery is new again. *)
Theorem delivery_tag_once (Up : R -> Prop) tag tags (r r0 : R)
  (Hup : available Up) (Hr : Up r0) :
  let news := count_if (is_new sha256 hex_encode tag) (mark_run sha256 hex_encode r tags).2 in
  news <= 1 /\ (is_Some (keys r !! seen_key sha256 hex_encode tag) -> news = 0) /\
  exists r1, unmark_delivery_tag sha256 hex_encode r0 tag = (r1, Some tt) /\
    (check_and_mark_delivery_tag sha256 hex_encode r1 tag).2 = Some New.
Proof.
  intros news. pose proof (mark_run_once sha256 hex_encode tag tags r) as Ho. fold news in Ho.
  assert (0 <= news) by (unfold news, count_if; lia). split_and!.
  - case_bool_decide; lia.
  - intros Hs. rewrite bool_decide_true in Ho by done. lia.
  - destruct (unmark_then_new sha256 hex_encode Up Hup r0 tag Hr) as (r1 & E & _ & En). eauto.
Qed.

End Properties.

(** *** Witnesses *)

Definition toy_hash (b : bytes) : bytes := b.
Definition toy_hex (b : bytes) : string := String.string_of_list_byte b.
Definition toy_open (b s : bytes) : option bytes := Some (take 32 b).
Definition toy_verify (t n k : bytes) : bool := true.
Definition toy_attempt (token : bool) : attempt := {|
  at_issuer := Some []; at_secret := Some [];
  at_nonce := if token then replicate 32 x05 else []; at_token := replicate 40 x06;
  at_spend_id := replicate 32 x07; at_recipient := "bob" |}.

(** The first envelope pays, the next two are covered. *)
Example toy_unit_runs :
  map snd (redeem_run toy_hash toy_hex toy_open toy_verify (Mem ∅ true)
             [toy_attempt true; toy_attempt false; toy_attempt false]).2
  = [TOk; UnitCovered; UnitCovered].
Proof. vm_compute. reflexivity. Qed.

Lemma token_spent_once_witness :
  (redeem_token toy_hash toy_hex toy_open toy_verify (Mem ∅ true) [] [] (replicate 32 x05)
     (replicate 40 x06)).2 = TOk.
Proof.
  by apply (token_spent_once toy_hash toy_hex toy_open toy_verify (replicate 32 x05)
    [toy_attempt true; toy_attempt true] (Mem ∅ true)) with (Up := fun r : mem => mem_up r = true)
    (token := replicate 32 x06); [apply mem_available|..].
Defined.

Lemma spend_unit_bounded_witness :
  count_if (uses toy_hash toy_hex (unit_key toy_hash toy_hex (replicate 32 x07) "bob") UnitCovered)
    (redeem_run toy_hash toy_hex toy_open toy_verify (Mem ∅ true)
       [toy_attempt true; toy_attempt false; toy_attempt false]).2 <= 255.
Proof.
  apply (spend_unit_bounded (R := mem) toy_hash toy_hex toy_open toy_verify (replicate 32 x07) "bob"
    [toy_attempt true; toy_attempt false; toy_attempt false] (Mem ∅ true)).
  reflexivity.
Defined.

Lemma delivery_tag_once_witness :
  count_if (is_new toy_hash toy_hex [x01]) (mark_run toy_hash toy_hex (Mem ∅ true) [[x01]; [x01]]).2
  <= 1.
Proof.
  apply (delivery_tag_once toy_hash toy_hex (fun r : mem => mem_up r = true) [x01] [[x01]; [x01]]
    (Mem ∅ true) (Mem ∅ true) mem_available eq_refl).
Defined.

End SealedSend.
