(* ===== verification/TokenFlow.v ===== *)
(** * A token from its issue to its redemption

    Composes three components: the issuing of tokens (identity-service,
    [Issuance.issue_tokens]), their cryptography ([PrivacyPass]) and their redemption with
    a sealed envelope (messaging-service, [SealedSend.redeem_token]). The redemption is
    instantiated with the verification and the box opening of [PrivacyPass], as the service
    is; the two services hold the same issuer key. *)

From S2P Require Import Prelude Text RedisStore PrivacyPass Issuance SealedSend.

Module TokenFlow.
Import Redis PrivacyPass Issuance.

Section Flow.
Context {R : Type} `{RedisLaws R}.
Context {Scalar Point : Type} `{RistrettoLaws Scalar Point} `{PrimitivesLaws}.
Context (sha256 : bytes -> bytes) (hex_encode : bytes -> string).

(** What the client keeps of one blinded point. *)
Record ticket := { tk_nonce : bytes; tk_blinding : Scalar }.

Definition ticket_ok (t : ticket) : Prop :=
  length (tk_nonce t) = 32%nat /\ tk_blinding t <> scalar_zero /\ hash_to_ristretto (Scalar := Scalar) (tk_nonce t) <> identity.

Definition blinded_point (t : ticket) : Point := scale (tk_blinding t) (hash_to_ristretto (tk_nonce t)).
Definition ask (t : ticket) : bytes := blind (tk_nonce t) (tk_blinding t).

Definition redeem (r : R) (key secret nonce box : bytes) : R * SealedSend.TokenRedeemResult :=
  SealedSend.redeem_token sha256 hex_encode (fun b s => result_ok (open_sealed_token_bytes b s))
    (verify_token (Scalar := Scalar)) r key secret nonce box.

Lemma blinded_not_identity t : ticket_ok t -> blinded_point t <> identity.
Proof. intros (_ & Hr & Hh) E. by destruct (scale_integral _ _ E). Qed.

Lemma decode_ask t : ticket_ok t -> decode_point (ask t) = Ok (blinded_point t).
Proof.
  intros Ht. unfold decode_point, ask, blind, from_slice. rewrite compress_length. cbn [Nat.eqb negb ok_or].
  rewrite decompress_compress. cbn [ok_or]. rewrite bool_decide_false; [done|]. by apply blinded_not_identity.
Qed.

Lemma decode_asks ts : Forall ticket_ok ts -> decode_points (map ask ts) = Ok (map (fun t => (blinded_point t, ask t)) ts).
Proof.
  intros Hts. induction Hts as [|t ts Ht _ IH]; [done|]. cbn [map decode_points]. by rewrite (decode_ask t Ht), IH.
Qed.

(** The client's token, sealed to the server, is redeemed. *)
Lemma finalized_redeems (Up : R -> Prop) r key secret t eph box_nonce box token :
  available Up -> Up r -> ticket_ok t -> keys r !! SealedSend.spent_key sha256 hex_encode (tk_nonce t) = None ->
  finalize (tk_nonce t) (tk_blinding t) (evaluate_point key (blinded_point t)) = Some token ->
  length box_nonce = NONCE_LEN -> seal_box (x25519_public secret) eph box_nonce token = Some box ->
  (redeem r key secret (tk_nonce t) box).2 = SealedSend.TOk.
Proof.
  intros Hup Hr (Hn & Hb & _) Hk Hf Hbn Hbox. pose proof (open_seal secret eph box_nonce token box Hbn Hbox) as Ho.
  unfold finalize, evaluate_point in Hf. rewrite decompress_compress in Hf. injection Hf as <-.
  eapply (SealedSend.redeem_token_fresh sha256 hex_encode _ _ Up); [done|done|done|done| |by rewrite Ho| |].
  - intros ->. by vm_compute in Ho.
  - apply hkdf_sha512_length. lia.
  - by apply token_verifies.
Qed.

(** C7: tokens work from end to end. An honest client whose request the hourly cap leaves
    room for is answered with as many evaluations as it grants and a proof that verifies
    against the commitment in the answer; and each token the client makes of them, sealed to
    the messaging service with any ephemeral key, is redeemed there as long as its nonce
    was not spent before and Redis answers. *)
Theorem issued_tokens_redeem cfg user hour (Up : R -> Prop) r registered now clock ts c key secret :
  0 <= token_issuance_max_per_hour cfg <= u32_max -> 0 <= token_issuance_young_max_per_hour cfg ->
  available Up -> Up r -> (forall i, (clock i).1 / 3600 = hour /\ (clock i).2 / 3600 = hour) ->
  token_issuer_key cfg = Some key -> from_bytes_mod_order key <> scalar_zero ->
  holds_count user hour (keys r) c -> 0 <= c <= u32_max ->
  Forall ticket_ok ts -> (1 <= length ts <= 20)%nat ->
  let cap := (effective_issuance_cap registered now (token_issuance_maturity_hours cfg)
               (token_issuance_young_max_per_hour cfg) (token_issuance_max_per_hour cfg)).1 in
  let grant := Z.to_nat (issuance_grant c (Z.of_nat (length ts)) cap) in
  grant <> 0%nat ->
  exists r' resp, issue_tokens cfg (Some user) registered now clock r (map ask ts) = (r', Ok resp) /\
    length (evaluated_points resp) = grant /\
    verify_dleq_proof (server_pubkey resp) (take grant (map ask ts)) (evaluated_points resp) (dleq_proof resp) = true /\
    forall i t z, ts !! i = Some t -> evaluated_points resp !! i = Some z ->
      exists token, finalize (tk_nonce t) (tk_blinding t) z = Some token /\
        forall r2 eph box_nonce box, Up r2 -> keys r2 !! SealedSend.spent_key sha256 hex_encode (tk_nonce t) = None ->
          length box_nonce = NONCE_LEN -> seal_box (x25519_public secret) eph box_nonce token = Some box ->
          (redeem r2 key secret (tk_nonce t) box).2 = SealedSend.TOk.
Proof.
  intros Hmax Hyoung Hup Hr Hclock Hkey Hk0 Hc Hc0 Hts Hlen cap grant Hg.
  pose proof (issue_answer cfg user hour Hmax Up r
    {| rq_registered := registered; rq_now := now; rq_clock := clock; rq_points := map ask ts |} c key
    Hup Hr Hclock Hkey Hc Hc0 Hyoung) as Ha.
  cbn [rq_registered rq_now rq_clock rq_points] in Ha. rewrite length_map in Ha. specialize (Ha Hlen). cbn zeta in Ha.
  rewrite (decode_asks ts Hts) in Ha. fold cap in Ha.
  assert ((issuance_grant c (Z.of_nat (length ts)) cap =? 0) = false) as Hgz by (apply Z.eqb_neq; lia).
  assert (grant <= length ts)%nat as Hgl by (unfold grant, issuance_grant; lia).
  rewrite Hgz in Ha. fold grant in Ha. destruct (issue_tokens _ _ _ _ _ _ _) as [r' res]. destruct Ha as [-> _].
  set (ps := map blinded_point (take grant ts)).
  replace (map _ (take grant (map _ ts))) with (map (evaluate_point key) ps) by (unfold ps; by rewrite List.firstn_map, !map_map).
  replace (map snd (take grant (map _ ts))) with (map compress ps) by (unfold ps; by rewrite List.firstn_map, !map_map).
  replace (take grant (map ask ts)) with (map compress ps) by (unfold ps; by rewrite List.firstn_map, map_map).
  assert (Forall (fun p => p <> identity) ps) as Hps.
  { apply List.Forall_map, Forall_take. eapply list.Forall_impl; [exact Hts|]. intros t. apply blinded_not_identity. }
  destruct (honest_proof key ps) as (proof & Eg & _ & Hv); [|done|done|].
  { unfold ps. destruct ts; [cbn in Hlen; lia|]. destruct grant; [lia|done]. }
  rewrite Eg. eexists r', _. split; [reflexivity|]. cbn [evaluated_points server_pubkey dleq_proof default].
  split_and!; [unfold ps; rewrite !length_map, length_take; lia|exact Hv|].
  intros i t z Ht Hz. unfold ps in Hz. rewrite map_map in Hz.
  apply list_lookup_fmap_Some in Hz as (t' & -> & Ht'). apply lookup_take_Some in Ht' as [Ht' _].
  assert (t' = t) as -> by congruence. unfold finalize at 1, evaluate_point at 1. rewrite decompress_compress.
  eexists. split; [reflexivity|]. intros. eapply finalized_redeems; try done.
  - by eapply Forall_lookup_1.
  - unfold finalize, evaluate_point. by rewrite decompress_compress.
Qed.

End Flow.

(** ** The theorem at work *)

Definition sample_tickets : list (ticket (Scalar := F5)) :=
  [{| tk_nonce := repeat Byte.x01 32; tk_blinding := N3 |}; {| tk_nonce := repeat Byte.x02 32; tk_blinding := N2 |}].

Lemma sample_tickets_ok : Forall (ticket_ok (Scalar := F5)) sample_tickets.
Proof. repeat constructor; done. Qed.

Lemma issued_tokens_redeem_witness :
  exists r' resp, issue_tokens (Scalar := F5) sample_issuer (Some "alice") None 0 (fun _ => (0, 0)) (Mem ∅ true)
      (map ask sample_tickets) = (r', Ok resp) /\
    length (evaluated_points resp) = 2%nat /\
    verify_dleq_proof (Scalar := F5) (server_pubkey resp) (map ask sample_tickets) (evaluated_points resp) (dleq_proof resp) = true.
Proof.
  destruct (issued_tokens_redeem (Scalar := F5) (fun b => b) String.string_of_list_byte sample_issuer "alice" 0
    (fun r : mem => mem_up r = true) (Mem ∅ true) None 0 (fun _ => (0, 0)) sample_tickets 0 sample_key [])
    as (r' & resp & E & El & Ev & _).
  - cbn. unfold u32_max. lia.
  - cbn. lia.
  - exact mem_available.
  - reflexivity.
  - by intros i.
  - reflexivity.
  - done.
  - by left.
  - unfold u32_max. lia.
  - apply sample_tickets_ok.
  - cbn. lia.
  - vm_compute. done.
  - exists r', resp. by split_and!.
Defined.

End TokenFlow.
