(* ===== verification/Tokens.v ===== *)
(** * Session and device-link tokens

    Models crates/construct-queue/src/tokens.rs: refresh tokens with their
    per-user reverse index, the blocklists of access tokens and devices, and the
    one-time tokens of device linking. All state is in Redis (RedisStore.v): every
    operation takes the connection and returns it with a result, whose error is
    [Err tt]. Bytes stored in Redis are strings of those bytes. *)

From S2P Require Import Prelude Text RedisStore.

Module Tokens.
Import Redis.

Definition invalidated_token_key (jti : string) : string := "invalidated_token:" +:+ jti.
Definition refresh_key (jti : string) : string := "refresh_token:" +:+ jti.
Definition index_key (user_id : string) : string := "user_tokens:" +:+ user_id.
Definition revoked_device_key (device_id : string) : string := "revoked_device:" +:+ device_id.
Definition device_link_key (token : string) : string := "device_link:" +:+ token.
Definition link_result_key (token : string) : string := "device_link_result:" +:+ token.
Definition join_request_key (id : string) : string := "join_req:" +:+ id.
Definition join_approved_key (id : string) : string := "join_approved:" +:+ id.

(** ** Link results: two length-prefixed ids, then the proof *)

Definition encode_link_result (user_id device_id : string) (proof : bytes) : result bytes unit :=
  let u := as_bytes user_id in
  let d := as_bytes device_id in
  if (length u <=? 255)%nat && (length d <=? 255)%nat then
    Ok (byte_of_Z (Z.of_nat (length u)) :: u ++ byte_of_Z (Z.of_nat (length d)) :: d ++ proof)
  else Err tt.

(** [v.get(a..b)]. *)
Definition get_range (v : bytes) (a b : nat) : option bytes :=
  if (a <=? b)%nat && (b <=? length v)%nat then Some (take (b - a) (drop a v)) else None.
Definition get_from (v : bytes) (a : nat) : option bytes :=
  if (a <=? length v)%nat then Some (drop a v) else None.

Definition decode_link_result (v : bytes) : option (string * string * bytes) :=
  let* first := head v in
  let ul := Z.to_nat (Z_of_byte first) in
  let* ub := get_range v 1 (1 + ul) in
  let* user := from_utf8 ub in
  let* rest := get_from v (1 + ul) in
  let* second := head rest in
  let dl := Z.to_nat (Z_of_byte second) in
  let* db := get_range rest 1 (1 + dl) in
  let* device := from_utf8 db in
  let* proof := get_from rest (1 + dl) in
  Some (user, device, proof).

(** ** Operations *)

(** The rotation script. Its commands fail only on a key of another type; the
    prefixes of the keys rule that out. *)
Definition rotate_script (old_key new_key idx : string) (ttl : Z) (user_id new_jti : string)
    (ks : keyspace) : option (keyspace * reply) :=
  match ks !! old_key with
  | None => Some (ks, RNil)
  | Some (Entry (VStr val) _) =>
      let ks1 := delete old_key ks in
      let* p2 := cmd_doc (SETEX new_key user_id ttl) ks1 in
      let* p3 := cmd_doc (SADD idx [new_jti]) (fst p2) in
      let* p4 := cmd_doc (EXPIRE idx ttl) (fst p3) in
      Some (fst p4, RBulk val)
  | Some _ => None
  end.

Section WithRedis.
Context {R : Type} `{Redis R}.

Definition run {A} (m : R * option A) : R * result A unit :=
  match m with (r, Some a) => (r, Ok a) | (r, None) => (r, Err tt) end.

Definition store_refresh_token (r : R) (jti user_id : string) (ttl : Z) : R * result unit unit :=
  match exec_unit r (SETEX (refresh_key jti) user_id (wrap_u64 ttl)) with
  | (r1, None) => (r1, Err tt)
  | (r1, Some _) =>
      match exec_int r1 (SADD (index_key user_id) [jti]) with
      | (r2, None) => (r2, Err tt)
      | (r2, Some _) => run (exec_unit r2 (EXPIRE (index_key user_id) ttl))
      end
  end.

Definition rotate_refresh_token (r : R) (old_jti new_jti user_id : string) (ttl : Z)
    : R * result (option string) unit :=
  match exec r (EVAL (rotate_script (refresh_key old_jti) (refresh_key new_jti) (index_key user_id)
                        ttl user_id new_jti)) with
  | (r', Some (RBulk s)) => (r', Ok (Some s))
  | (r', Some _) => (r', Ok None)
  | (r', None) => (r', Err tt)
  end.

Fixpoint del_tokens (r : R) (jtis : list string) : R :=
  match jtis with
  | [] => r
  | jti :: rest => del_tokens (exec_int r (DEL (refresh_key jti))).1 rest
  end.

Definition revoke_all_user_tokens (r : R) (user_id : string) : R * result unit unit :=
  let '(r1, jtis) := match exec r (SMEMBERS (index_key user_id)) with
                     | (r', Some (RList l)) => (r', l)
                     | (r', _) => (r', [])
                     end in
  let r2 := del_tokens r1 jtis in
  let r3 := (exec_int r2 (DEL (index_key user_id))).1 in
  (r3, Ok tt).

Definition invalidate_access_token (r : R) (jti : string) (ttl : Z) : R * result unit unit :=
  run (exec_unit r (SETEX (invalidated_token_key jti) "1" (wrap_u64 ttl))).

Definition is_token_invalidated (r : R) (jti : string) : R * result bool unit :=
  run (exec_bool r (EXISTS (invalidated_token_key jti))).

Definition mark_device_revoked (r : R) (device_id : string) (ttl : Z) : R * result unit unit :=
  run (exec_unit r (SETEX (revoked_device_key device_id) "1" (Z.max ttl 1))).

Definition is_device_revoked (r : R) (device_id : string) : R * result bool unit :=
  run (exec_bool r (EXISTS (revoked_device_key device_id))).

Definition store_device_link_token (r : R) (token user_id : string) : R * result unit unit :=
  run (exec_unit r (SETEX (device_link_key token) user_id (15 * 60))).

Definition consume_device_link_token (r : R) (token : string) : R * result (option string) unit :=
  run (exec_opt_string r (GETDEL (device_link_key token))).

Definition peek_device_link_token (r : R) (token : string) : R * result (option string) unit :=
  run (exec_opt_string r (GET (device_link_key token))).

Definition store_device_link_result (r : R) (token user_id device_id : string) (proof : bytes)
    : R * result unit unit :=
  match encode_link_result user_id device_id proof with
  | Err e => (r, Err e)
  | Ok value => run (exec_unit r (SETEX (link_result_key token) (String.string_of_list_byte value)
                                    (15 * 60)))
  end.

Definition get_device_link_result (r : R) (token : string)
    : R * result (option (string * string * bytes)) unit :=
  match run (exec_opt_string r (GET (link_result_key token))) with
  | (r', Ok value) => (r', Ok (value ≫= fun v => decode_link_result (as_bytes v)))
  | (r', Err e) => (r', Err e)
  end.

Definition store_join_request (r : R) (id : string) (payload : bytes) : R * result unit unit :=
  run (exec_unit r (SETEX (join_request_key id) (String.string_of_list_byte payload) (10 * 60))).

Definition get_join_request (r : R) (id : string) : R * result (option bytes) unit :=
  match run (exec_opt_string r (GET (join_request_key id))) with
  | (r', Ok v) => (r', Ok (option_map as_bytes v))
  | (r', Err e) => (r', Err e)
  end.

Definition consume_join_request (r : R) (id : string) : R * result (option bytes) unit :=
  match run (exec_opt_string r (GETDEL (join_request_key id))) with
  | (r', Ok v) => (r', Ok (option_map as_bytes v))
  | (r', Err e) => (r', Err e)
  end.

Definition store_join_approved (r : R) (id value : string) : R * result unit unit :=
  run (exec_unit r (SETEX (join_approved_key id) value (2 * 60))).

Definition get_join_approved (r : R) (id : string) : R * result (option string) unit :=
  run (exec_opt_string r (GET (join_approved_key id))).

End WithRedis.

(** ** Link results *)

Lemma Z_of_byte_len n : (n <= 255)%nat -> Z.to_nat (Z_of_byte (byte_of_Z (Z.of_nat n))) = n.
Proof. intros Hn. rewrite Z_of_byte_of_Z, Z.mod_small by lia. lia. Qed.

Lemma get_range_prefix b (u rest : bytes) :
  get_range (b :: u ++ rest) 1 (1 + length u) = Some u.
Proof.
  unfold get_range. cbn [length]. rewrite length_app.
  destruct (Nat.leb_spec 1 (1 + length u)); [|lia].
  destruct (Nat.leb_spec (1 + length u) (S (length u + length rest))); [|lia]. cbn [andb].
  replace (1 + length u - 1)%nat with (length u) by lia. change (drop 1 (b :: u ++ rest)) with (u ++ rest). by rewrite take_app_length.
Qed.

Lemma get_from_prefix b (u rest : bytes) : get_from (b :: u ++ rest) (1 + length u) = Some rest.
Proof.
  unfold get_from. cbn [length]. rewrite length_app.
  destruct (Nat.leb_spec (1 + length u) (S (length u + length rest))); [|lia].
  change (drop (1 + length u) (b :: u ++ rest)) with (drop (length u) (u ++ rest)).
  by rewrite drop_app_length.
Qed.

(** ** The reverse index *)

(** Time passes: a key whose time to live is over is gone. *)
Definition elapse (d : Z) (ks : keyspace) : keyspace :=
  omap (fun e => match e_ttl e with
                 | None => Some e
                 | Some t => if t <=? d then None else Some (Entry (e_val e) (Some (t - d)))
                 end) ks.

(** Every refresh token is in the index of its user, which outlives it. *)
Definition indexed (T : Z) (ks : keyspace) : Prop :=
  forall jti e, ks !! refresh_key jti = Some e ->
    exists u t m ti, e = Entry (VStr u) (Some t) /\ t <= T /\
      ks !! index_key u = Some (Entry (VSet m) (Some ti)) /\ jti ∈ m /\ t <= ti.

Lemma refresh_key_inj a b : refresh_key a = refresh_key b -> a = b.
Proof. unfold refresh_key. intros E. by simplify_eq/=. Qed.
Lemma index_key_inj a b : index_key a = index_key b -> a = b.
Proof. unfold index_key. intros E. by simplify_eq/=. Qed.

Lemma indexed_elapse T d ks : 0 <= d -> indexed T ks -> indexed T (elapse d ks).
Proof.
  intros Hd Hi jti e He. unfold elapse in *. rewrite lookup_omap in He.
  destruct (ks !! refresh_key jti) as [e0|] eqn:E0; [|done]. cbn in He.
  destruct (Hi _ _ E0) as (u & t & m & ti & -> & Ht & Hidx & Hin & Hle). cbn in He.
  destruct (Z.leb_spec t d); [done|]. injection He as <-. exists u, (t - d), m, (ti - d).
  rewrite lookup_omap, Hidx. cbn. destruct (Z.leb_spec ti d); [lia|]. split_and!; auto; lia.
Qed.

(** Adding a token with its index entry, the time to live the longest there is. *)
Lemma indexed_add T ks jti u m :
  0 < T -> indexed T ks -> as_set ks (index_key u) = Some m ->
  indexed T (<[index_key u := Entry (VSet ({[jti]} ∪ m)) (Some T)]>
               (<[refresh_key jti := Entry (VStr u) (Some T)]> ks)).
Proof.
  intros HT Hi Hset j e He. rewrite lookup_insert_ne in He by done.
  destruct (decide (j = jti)) as [->|Hne].
  - rewrite lookup_insert_eq in He. injection He as <-. exists u, T, ({[jti]} ∪ m), T.
    rewrite lookup_insert_eq. split_and!; auto; [lia|set_solver|lia].
  - rewrite lookup_insert_ne in He by by intros ?%refresh_key_inj.
    destruct (Hi _ _ He) as (v & t & m' & ti & -> & Ht & Hidx & Hin & Hle).
    destruct (decide (v = u)) as [->|Hvu].
    + exists u, t, ({[jti]} ∪ m), T. rewrite lookup_insert_eq.
      unfold as_set in Hset. rewrite Hidx in Hset. injection Hset as ->.
      split_and!; auto; set_solver.
    + exists v, t, m', ti. rewrite lookup_insert_ne by by intros ?%index_key_inj.
      rewrite lookup_insert_ne by done. by split_and!.
Qed.

Lemma indexed_delete T ks jti : indexed T ks -> indexed T (delete (refresh_key jti) ks).
Proof.
  intros Hi j e He. apply lookup_delete_Some in He as [Hne He].
  destruct (Hi _ _ He) as (u & t & m & ti & ? & ? & ? & ? & ?). exists u, t, m, ti.
  rewrite lookup_delete_ne by done. by split_and!.
Qed.

(** A run of rotations, by any instances: (old, new, user), and what each returned. *)
Fixpoint rotate_run {R} `{Redis R} (T : Z) (r : R) (l : list (string * string * string))
    : R * list (string * result (option string) unit) :=
  match l with
  | [] => (r, [])
  | (old, new, u) :: rest =>
      let '(r1, res) := rotate_refresh_token r old new u T in
      let '(r2, out) := rotate_run T r1 rest in
      (r2, (old, res) :: out)
  end.

Definition redeemed (j : string) (x : string * result (option string) unit) : bool :=
  match x with (old, Ok (Some _)) => bool_decide (old = j) | _ => false end.

Section Laws.
Context {R : Type} `{RedisLaws R}.

Lemma store_doc r jti u T r' :
  0 < T -> in_u64 T -> store_refresh_token r jti u T = (r', Ok tt) ->
  exists m, as_set (keys r) (index_key u) = Some m /\
    keys r' = <[index_key u := Entry (VSet ({[jti]} ∪ m)) (Some T)]>
                (<[refresh_key jti := Entry (VStr u) (Some T)]> (keys r)).
Proof using Type.
  intros HT HTu. unfold store_refresh_token. rewrite wrap_u64_id by done.
  destruct (exec_unit r _) as [r1 [[]|]] eqn:E1; [|done].
  apply exec_setex_ok in E1 as [Hk1 _].
  destruct (exec_int r1 _) as [r2 [n|]] eqn:E2; [|done].
  pose proof (exec_int_ok _ _ _ _ E2 eq_refl) as Hd2. cbn in Hd2.
  destruct (as_set (keys r1) (index_key u)) as [m|] eqn:Hm; [|done]. injection Hd2 as Hk2 _.
  destruct (exec_unit r2 _) as [r3 [[]|]] eqn:E3; cbn; [|done]. intros [= <-].
  destruct (exec_unit_ok _ _ _ E3) as (rep & Hd3). cbn in Hd3. unfold doc_expire in Hd3.
  rewrite <- Hk2 in Hd3. unfold set_val in Hd3. rewrite lookup_insert_eq in Hd3. cbn in Hd3.
  destruct (Z.leb_spec T 0); [lia|]. injection Hd3 as Hd3 _. exists m. split.
  - rewrite <- Hm, Hk1. unfold as_set. by rewrite lookup_insert_ne.
  - rewrite <- Hd3, insert_insert_eq, Hk1. by rewrite (right_id_L ∅ (∪)).
Qed.

(** What the rotation script does: nothing without the old token, and otherwise
    everything. *)
Definition rotated (old new u : string) (T : Z) (ks ks' : keyspace) (o : option string) : Prop :=
  (ks !! refresh_key old = None /\ o = None /\ ks' = ks) \/
  (exists v t m, ks !! refresh_key old = Some (Entry (VStr v) t) /\ o = Some v /\
     as_set ks (index_key u) = Some m /\
     ks' = <[index_key u := Entry (VSet ({[new]} ∪ m)) (Some T)]>
             (<[refresh_key new := Entry (VStr u) (Some T)]> (delete (refresh_key old) ks))).

Lemma rotate_script_doc old new u T ks ks' rep :
  0 < T ->
  rotate_script (refresh_key old) (refresh_key new) (index_key u) T u new ks = Some (ks', rep) ->
  exists o, rotated old new u T ks ks' o /\ rep = match o with Some v => RBulk v | None => RNil end.
Proof using Type.
  intros HT Hd. unfold rotate_script in Hd.
  destruct (ks !! refresh_key old) as [[[v| | | |] t]|] eqn:Hk; try done.
  2:{ injection Hd as <- <-. exists None. split; [by left|done]. }
  cbn in Hd. destruct (Z.leb_spec T 0); [lia|]. cbn in Hd.
  assert (as_set (<[refresh_key new := Entry (VStr u) (Some T)]>
    (delete (refresh_key old) ks)) (index_key u) = as_set ks (index_key u)) as Hset.
  { unfold as_set. by rewrite lookup_insert_ne, lookup_delete_ne. }
  rewrite Hset in Hd. destruct (as_set ks (index_key u)) as [m|] eqn:Hm; [|done].
  cbn in Hd. unfold set_val, doc_expire in Hd. rewrite lookup_insert_eq in Hd. cbn in Hd.
  destruct (Z.leb_spec T 0); [lia|]. rewrite insert_insert_eq, (right_id_L ∅ (∪)) in Hd.
  injection Hd as <- <-. exists (Some v). split; [|done]. right. exists v, t, m. by split_and!.
Qed.

Lemma rotate_doc r old new u T r' o :
  0 < T -> rotate_refresh_token r old new u T = (r', Ok o) ->
  rotated old new u T (keys r) (keys r') o.
Proof using Type.
  intros HT. unfold rotate_refresh_token. destruct (exec r _) as [r1 [rep|]] eqn:E; [|done].
  pose proof (exec_exact _ _ _ _ E eq_refl) as Hd. cbn in Hd.
  destruct (rotate_script_doc _ _ _ _ _ _ _ HT Hd) as (o' & Hrot & ->).
  destruct o'; by intros [= <- <-].
Qed.

Lemma rotate_err r old new u T r' e :
  0 < T -> rotate_refresh_token r old new u T = (r', Err e) ->
  keys r' = keys r \/ exists o, rotated old new u T (keys r) (keys r') o.
Proof using Type.
  intros HT. unfold rotate_refresh_token. destruct (exec r _) as [r1 [rep|]] eqn:E.
  { destruct rep; intros [= <- <-]. }
  intros [= <- <-]. apply exec_err in E as [?|[rep Hd]]; [by left|right].
  cbn in Hd. destruct (rotate_script_doc _ _ _ _ _ _ _ HT Hd) as (o & Hrot & _). by exists o.
Qed.

(** A token never issued again stays used. *)
Lemma rotated_absent j old new u T ks ks' o :
  new <> j -> rotated old new u T ks ks' o ->
  (ks !! refresh_key j = None -> ks' !! refresh_key j = None) /\
  (old = j -> is_Some o -> is_Some (ks !! refresh_key j) /\ ks' !! refresh_key j = None).
Proof using Type.
  intros Hne [(Hn & -> & ->)|(v & t & m & Hk & -> & _ & ->)].
  - split; [done|]. intros _ [? [=]].
  - rewrite lookup_insert_ne, lookup_insert_ne by (done || by intros ?%refresh_key_inj).
    split; [intros Hn; rewrite lookup_delete_None; by right|].
    intros -> _. rewrite lookup_delete_eq. eauto.
Qed.

Lemma rotate_run_once T j l (r : R) :
  0 < T -> Forall (fun x => x.1.2 <> j) l ->
  count_if (redeemed j) (rotate_run T r l).2
  <= (if bool_decide (is_Some (keys r !! refresh_key j)) then 1 else 0).
Proof using Type.
  intros HT. revert r. induction l as [|[[old new] u] l IH]; intros r Hl; cbn [rotate_run].
  { case_bool_decide; vm_compute; discriminate. }
  apply Forall_cons_1 in Hl as [Hne Hl]. cbn in Hne.
  destruct (rotate_refresh_token r old new u T) as [r1 res] eqn:E. specialize (IH r1 Hl).
  assert ((keys r !! refresh_key j = None -> keys r1 !! refresh_key j = None) /\
    (redeemed j (old, res) = true ->
       is_Some (keys r !! refresh_key j) /\ keys r1 !! refresh_key j = None)) as [Hn Hred].
  { destruct res as [o|e].
    - destruct (rotated_absent j _ _ _ _ _ _ _ Hne (rotate_doc _ _ _ _ _ _ _ HT E)) as [? Hr].
      split; [done|]. destruct o; [|done]. cbn. intros ->%bool_decide_eq_true. eauto.
    - split; [|done]. destruct (rotate_err _ _ _ _ _ _ _ HT E) as [->|[o Ho]]; [done|].
      by apply (rotated_absent j _ _ _ _ _ _ _ Hne Ho). }
  destruct (rotate_run T r1 l) as [r2 out]. cbn [snd] in *. unfold count_if in *.
  cbn [List.filter]. destruct (redeemed j (old, res)).
  - destruct (Hred eq_refl) as [Hs Hnone]. rewrite Hnone in IH.
    rewrite bool_decide_false in IH by by intros []. rewrite bool_decide_true by done.
    cbn [length]. lia.
  - etrans; [exact IH|]. destruct (keys r !! refresh_key j).
    + rewrite (bool_decide_true (is_Some (Some _))) by done. case_bool_decide; lia.
    + rewrite Hn by done. lia.
Qed.

Context (Up : R -> Prop) (Hup : available Up).

Lemma del_tokens_up l r :
  Up r ->
  Up (del_tokens r l) /\
  (forall k, keys (del_tokens r l) !! k
     = if bool_decide (k ∈ map refresh_key l) then None else keys r !! k).
Proof using Hup.
  revert r. induction l as [|jti l IH]; intros r Hr; cbn [del_tokens map].
  { split; [done|]. intros k. by rewrite bool_decide_false by apply not_elem_of_nil. }
  edestruct (available_exact Up Hup r (DEL (refresh_key jti))) as (r1 & E1 & Hk1 & Hr1);
    [done|done|reflexivity|].
  assert ((exec_int r (DEL (refresh_key jti))).1 = r1) as -> by (unfold exec_int; by rewrite E1).
  destruct (IH r1 Hr1) as [Hr2 Hk2]. split; [done|]. intros k. rewrite Hk2, Hk1.
  destruct (decide (k = refresh_key jti)) as [->|Hne].
  - rewrite (bool_decide_true (refresh_key jti ∈ refresh_key jti :: _)) by by left.
    case_bool_decide; [done|]. by rewrite lookup_delete_eq.
  - rewrite lookup_delete_ne by done. erewrite bool_decide_ext; [reflexivity|].
    rewrite elem_of_cons. split; [by right|by intros [?|?]].
Qed.

Lemma revoke_all_up r u T :
  Up r -> indexed T (keys r) ->
  exists r', revoke_all_user_tokens r u = (r', Ok tt) /\ Up r' /\ indexed T (keys r') /\
    (forall jti t, keys r' !! refresh_key jti <> Some (Entry (VStr u) t)).
Proof using Hup.
  intros Hr Hi. unfold revoke_all_user_tokens.
  destruct (exec r (SMEMBERS (index_key u))) as [r1 o1] eqn:E1.
  assert (Up r1) as Hr1 by (pose proof (moved_exec r (SMEMBERS (index_key u))) as Hm;
    rewrite E1 in Hm; by eapply moved_up).
  assert (keys r1 = keys r) as Hk1.
  { eapply exec_read_keys; [exact E1|]. intros ks ks' rep. cbn.
    by destruct (as_set ks (index_key u)); intros; simplify_eq. }
  set (l := match o1 with Some (RList l) => l | _ => [] end).
  replace (match o1 with Some (RList l) => (r1, l) | _ => (r1, []) end) with (r1, l)
    by by destruct o1 as [[]|].
  destruct (del_tokens_up l r1 Hr1) as [Hr2 Hk2].
  edestruct (available_exact Up Hup (del_tokens r1 l) (DEL (index_key u))) as (r3 & E3 & Hk3 & Hr3);
    [done|done|reflexivity|].
  assert ((exec_int (del_tokens r1 l) (DEL (index_key u))).1 = r3) as ->
    by (unfold exec_int; by rewrite E3).
  exists r3. split; [done|]. split; [done|].
  assert (forall jti t, keys r !! refresh_key jti = Some (Entry (VStr u) t) -> jti ∈ l) as Hall.
  { intros jti t Hj. destruct (Hi _ _ Hj) as (u' & t' & m & ti & [= <- ->] & _ & Hidx & Hin & _).
    assert (cmd_doc (SMEMBERS (index_key u)) (keys r) = Some (keys r, RList (elements m))) as Hd.
    { cbn. unfold as_set. by rewrite Hidx. }
    destruct (available_exec Up Hup _ _ _ _ Hr Hd) as (r' & rep & E & Ha & _).
    rewrite E in E1. injection E1 as -> <-. cbn in Ha.
    destruct Ha as (l0 & l' & [= <-] & -> & Hp). unfold l. rewrite Hp. by apply elem_of_elements. }
  assert (forall jti e, keys r3 !! refresh_key jti = Some e ->
    keys r !! refresh_key jti = Some e /\ jti ∉ l) as Hleft.
  { intros jti e He. rewrite Hk3, lookup_delete_ne, Hk2, Hk1 in He by done.
    case_bool_decide as Hn; [done|]. split; [done|]. intros Hin. apply Hn.
    by apply (list_elem_of_fmap_2 refresh_key). }
  split.
  - intros jti e He. destruct (Hleft _ _ He) as [He0 Hnl].
    destruct (Hi _ _ He0) as (v & t & m & ti & -> & Ht & Hidx & Hin & Hle).
    exists v, t, m, ti. split_and!; auto.
    assert (v <> u) by (intros ->; by apply Hnl, (Hall jti (Some t))).
    rewrite Hk3, lookup_delete_ne, Hk2, Hk1 by by intros ?%index_key_inj.
    rewrite bool_decide_false; [done|]. intros Hx. apply list_elem_of_fmap in Hx as (? & ? & _). done.
  - intros jti t He. destruct (Hleft _ _ He) as [He0 Hnl]. by apply Hnl, (Hall jti t).
Qed.

(** One operation on the tokens, answered by Redis, or time passing. *)
Inductive step (T : Z) : R -> R -> Prop :=
| st_store r jti u r' : store_refresh_token r jti u T = (r', Ok tt) -> Up r' -> step T r r'
| st_rotate r old new u r' o :
    rotate_refresh_token r old new u T = (r', Ok o) -> Up r' -> step T r r'
| st_revoke r u : step T r (revoke_all_user_tokens r u).1
| st_elapse r r' d : 0 <= d -> keys r' = elapse d (keys r) -> Up r' -> step T r r'.

Lemma step_indexed T r r' :
  0 < T -> in_u64 T -> step T r r' -> Up r -> indexed T (keys r) -> Up r' /\ indexed T (keys r').
Proof using Hup.
  intros HT HTu Hst Hr Hi. destruct Hst as [r jti u r' E Hr'|r old new u r' o E Hr'|r u|r r' d Hd Hk Hr'].
  - destruct (store_doc _ _ _ _ _ HT HTu E) as (m & Hm & ->). split; [done|]. by apply indexed_add.
  - split; [done|]. destruct (rotate_doc _ _ _ _ _ _ _ HT E) as [(_ & _ & ->)|(v & t & m & _ & _ & Hm & ->)];
      [done|]. apply indexed_add; [done|by apply indexed_delete|].
    rewrite <- Hm. unfold as_set. by rewrite lookup_delete_ne.
  - destruct (revoke_all_up r u T Hr Hi) as (r' & -> & ? & ? & _). done.
  - split; [done|]. rewrite Hk. by apply indexed_elapse.
Qed.

Lemma steps_indexed T r r' :
  0 < T -> in_u64 T -> rtc (step T) r r' -> Up r -> indexed T (keys r) ->
  Up r' /\ indexed T (keys r').
Proof using Hup.
  intros HT HTu. induction 1 as [|r1 r2 r3 Hs _ IH]; [done|]. intros Hr Hi.
  destruct (step_indexed T r1 r2); auto.
Qed.

End Laws.

Lemma indexed_empty T : indexed T ∅.
Proof. intros j e He. by rewrite lookup_empty in He. Qed.

(** ** Claims *)

(** C19: logout from all devices leaves no session. In any history of token
    issues, rotations, earlier logouts and expiries from an empty store, answered by
    Redis and with the one configured life time, [revoke_all_user_tokens] succeeds
    and no refresh token of the user is left: none can be rotated any more. *)
Theorem logout_all_revokes {R} `{RedisLaws R} (Up : R -> Prop) (Hup : available Up) T (r0 r : R) u :
  Up r0 -> keys r0 = ∅ -> 0 < T -> in_u64 T -> rtc (step Up T) r0 r ->
  exists r', revoke_all_user_tokens r u = (r', Ok tt) /\
    (forall jti t, keys r' !! refresh_key jti <> Some (Entry (VStr u) t)) /\
    (forall jti new w r2, rotate_refresh_token r' jti new w T <> (r2, Ok (Some u))).
Proof.
  intros Hr0 Hk0 HT HTu Hst.
  destruct (steps_indexed Up Hup T r0 r HT HTu Hst Hr0) as [Hr Hi].
  { rewrite Hk0. apply indexed_empty. }
  destruct (revoke_all_up Up Hup r u T Hr Hi) as (r' & E & _ & _ & Hno). exists r'.
  split_and!; [done|done|]. intros jti new w r2 Erot.
  destruct (rotate_doc _ _ _ _ _ _ _ HT Erot) as [(_ & ? & _)|(v & t & m & Hv & [= ->] & _)];
    [done|]. by apply (Hno jti t).
Qed.

(** C26: a refresh token is used once. In any run of rotations over any
    connections in turn, where Redis may fail or lose an answer at each, at most one
    returns the owner of a given token that is not issued again, and none does if
    the token was not in store; and one answered rotation of a stored token
    succeeds. *)
Theorem rotation_once {R} `{RedisLaws R} T j l (r : R) :
  0 < T -> Forall (fun x => x.1.2 <> j) l ->
  let n := count_if (redeemed j) (rotate_run T r l).2 in
  n <= 1 /\ (keys r !! refresh_key j = None -> n = 0) /\
  (forall new u v t r' o, keys r !! refresh_key j = Some (Entry (VStr v) t) ->
     rotate_refresh_token r j new u T = (r', Ok o) ->
     o = Some v /\ keys r' !! refresh_key new = Some (Entry (VStr u) (Some T))).
Proof.
  intros HT Hl n. pose proof (rotate_run_once T j l r HT Hl) as Hn. fold n in Hn.
  assert (0 <= n) by (unfold n, count_if; lia). split_and!.
  - case_bool_decide; lia.
  - intros E. rewrite E in Hn. rewrite bool_decide_false in Hn by by intros []. lia.
  - intros new u v t r' o Hk E.
    destruct (rotate_doc _ _ _ _ _ _ _ HT E) as [(Hk' & _)|(v' & t' & m & Hk' & -> & _ & ->)];
      [congruence|]. rewrite Hk in Hk'. injection Hk' as -> ->. split; [done|].
    by rewrite lookup_insert_ne, lookup_insert_eq.
Qed.

(** the stored result of a device link reads back as it was written, whatever
    the proof and also an empty one, for ids that are UTF-8 and at most 255 bytes
    long; longer ids are refused. *)
Theorem link_result_roundtrip (user device : string) (proof : bytes) :
  utf8_valid (as_bytes user) = true -> utf8_valid (as_bytes device) = true ->
  if (length (as_bytes user) <=? 255)%nat && (length (as_bytes device) <=? 255)%nat
  then exists v, encode_link_result user device proof = Ok v /\
         decode_link_result v = Some (user, device, proof)
  else encode_link_result user device proof = Err tt.
Proof.
  intros Hu Hd. unfold encode_link_result.
  destruct (Nat.leb_spec (length (as_bytes user)) 255) as [Hul|]; cbn [andb]; [|done].
  destruct (Nat.leb_spec (length (as_bytes device)) 255) as [Hdl|]; cbn [andb]; [|done].
  eexists. split; [reflexivity|]. unfold decode_link_result. cbn [head].
  rewrite Z_of_byte_len, get_range_prefix, from_utf8_as_bytes, get_from_prefix by done.
  cbn [head]. by rewrite Z_of_byte_len, get_range_prefix, from_utf8_as_bytes, get_from_prefix.
Qed.

(** While Redis is unreachable, logout from all devices still reports success,
    whatever tokens the store holds: it revoked what one failing call after the
    other was asked to. *)
Lemma revoke_all_outage (ks : keyspace) u :
  revoke_all_user_tokens (Mem ks false) u = (Mem ks false, Ok tt).
Proof. reflexivity. Qed.

(** *** Witnesses *)

Lemma logout_all_revokes_witness :
  let r1 := (store_refresh_token (Mem ∅ true) "j1" "alice" 3600).1 in
  exists r', revoke_all_user_tokens r1 "alice" = (r', Ok tt) /\
    forall jti t, keys r' !! refresh_key jti <> Some (Entry (VStr "alice") t).
Proof.
  intros r1.
  destruct (logout_all_revokes (fun r : mem => mem_up r = true) mem_available 3600 (Mem ∅ true) r1
    "alice" eq_refl eq_refl) as (r' & E & Hno & _).
  - lia.
  - unfold in_u64, u64_max. lia.
  - apply rtc_once, (st_store _ _ _ "j1" "alice"); vm_compute; reflexivity.
  - by exists r'.
Defined.

Lemma rotation_once_witness :
  count_if (redeemed "j1")
    (rotate_run 3600 (store_refresh_token (Mem ∅ true) "j1" "alice" 3600).1
       [("j1", "j2", "alice"); ("j1", "j3", "alice")]).2 <= 1.
Proof.
  apply (rotation_once (R := mem) 3600 "j1" [("j1", "j2", "alice"); ("j1", "j3", "alice")]).
  - lia.
  - repeat constructor; done.
Defined.

Lemma link_result_roundtrip_witness :
  exists v, encode_link_result "alice" "phone" [] = Ok v /\
    decode_link_result v = Some ("alice", "phone", []).
Proof. apply (link_result_roundtrip "alice" "phone" []); vm_compute; reflexivity. Defined.

End Tokens.
