(* ===== verification/DeviceAuth.v ===== *)
(** * Registration and login of devices

    Models construct-auth-service/src/devices.rs: the endpoint that hands out challenges,
    [register_device_core] and [authenticate_device_core] with its lockout, over the store
    of challenges ([Pow]), the queue's counters ([Issuance]), the refresh tokens ([Tokens])
    and two tables. Of construct-db it translates the statements the handlers issue, with
    the unique keys of the migrations; a query may fail. SHA-256, HMAC, hex, Ed25519, the
    signing of access tokens, random values and the clock are arguments. *)

From S2P Require Import Prelude Text RedisStore Net PrivacyPass Issuance Tokens Pow.

Module DeviceAuth.
Import Redis Pow.

(** ** Data *)

(** The two headers, where present and readable as text. *)
Record Headers := { x_forwarded_for : option string; x_real_ip : option string }.

Definition extract_client_ip (h : Headers) : string :=
  let real := match x_real_ip h with Some val => trim val | None => "unknown" end in
  match x_forwarded_for h with
  | Some val =>
      let ip := trim (default "" (list.last (split_char "," val))) in
      if str_is_empty ip then real else ip
  | None => real
  end.

Record DevicePublicKeysBinary := {
  verifying_key : bytes;
  identity_public : bytes;
  signed_prekey_public : bytes;
  signed_prekey_signature : bytes;
  crypto_suite : string;
  supports_pq_ratchet : bool;
}.

Record PowSolution := { challenge : string; nonce : Z; hash : string }.

Record RegisterDeviceResponse := {
  rr_user_id : string;
  access_token : string;
  refresh_token : string;
  expires_in : Z;
}.

Record ChallengeResponse := {
  cr_challenge : string;
  cr_difficulty : Z;
  cr_expires_at : Z;
  cr_retry_after : option Z;                   (* the [Retry-After] header *)
}.

Record Config := {
  max_failed_login_attempts : Z;
  rate_limit_block_duration_seconds : Z;
  max_pow_challenges_per_hour : Z;
  max_registrations_per_hour : Z;
  pow_difficulty : Z;
  username_hmac_secret : bytes;
  hash_salt : string;
  instance_domain : string;
  refresh_token_ttl_days : Z;
}.

Inductive ValidationError :=
| RegistrationLimit (max : Z) | DeviceIdLength | DeviceIdHex | DeviceIdCase | UsernameLength | UsernameChars
| KeyLength | SignatureLength | KeyInvalid | PrekeySignature | DeviceIdMismatch
| ChallengeInvalid | ChallengeExpired | ChallengeUsed | BadSolution | TimestampExpired.

Inductive ConflictError := DeviceExists | UsernameTaken | IdentityKeyRegistered.
Inductive DeviceRefusal := NotFound | Removed.

Inductive AppError :=
| Validation (e : ValidationError)
| TooManyRequests (n : Z)                       (* the number its text names *)
| Conflict (e : ConflictError)
| Internal
| Unknown
| Auth (blocked : option string)
| DeviceRefused (e : DeviceRefusal)
| Panicked.

(** ** The tables *)

Record Device := {
  dv_device_id : string;
  dv_server_hostname : string;
  dv_user_id : option string;
  dv_verifying_key : bytes;
  dv_identity_public : bytes;
  dv_signed_prekey_public : bytes;
  dv_signed_prekey_signature : option bytes;
  dv_crypto_suites : string;
  dv_is_active : bool;
  dv_supports_pq_ratchet : bool;
}.

Record CreateDeviceData := {
  cd_device_id : string;
  cd_server_hostname : string;
  cd_verifying_key : bytes;
  cd_identity_public : bytes;
  cd_signed_prekey_public : bytes;
  cd_signed_prekey_signature : bytes;
  cd_crypto_suites : string;
  cd_supports_pq_ratchet : bool;
}.

Record User := { us_id : string; us_username_hash : option bytes; us_primary_device_id : option string }.

Record Db := { devices : gmap string Device; users : gmap string User }.

(** An [anyhow] error: one that carries a database error of sqlx, with its code and
    constraint, or one made of a message. *)
Inductive DbError := Sqlx (code constraint : string) | Message (text : string).

Definition device_exists (up : bool) (db : Db) (device_id : string) : option bool :=
  if up then Some (bool_decide (is_Some (devices db !! device_id))) else None.

Definition get_device_by_id (up : bool) (db : Db) (device_id : string) : option (option Device) :=
  if up then Some (devices db !! device_id) else None.

Definition get_user_by_username_hash (up : bool) (db : Db) (username_hash : bytes) : option (option User) :=
  if up then
    Some (snd <$> List.find (fun u => bool_decide (us_username_hash u.2 = Some username_hash)) (map_to_list (users db)))
  else None.

Definition insert_device_impl (jsonb : string -> bool) (up : bool) (db : Db) (data : CreateDeviceData)
    (user_id : option string) : result (Device * Db) DbError :=
  if negb up || negb (jsonb (cd_crypto_suites data)) || bool_decide (is_Some (devices db !! cd_device_id data))
  then Err (Message "Failed to create device")
  else if bool_decide (map_Exists (fun _ d => dv_identity_public d = cd_identity_public data) (devices db))
  then Err (Message "IDENTITY_KEY_CONFLICT: identity key already registered by another device")
  else
    let d := {| dv_device_id := cd_device_id data; dv_server_hostname := cd_server_hostname data; dv_user_id := user_id;
                dv_verifying_key := cd_verifying_key data; dv_identity_public := cd_identity_public data;
                dv_signed_prekey_public := cd_signed_prekey_public data;
                dv_signed_prekey_signature := Some (cd_signed_prekey_signature data);
                dv_crypto_suites := cd_crypto_suites data; dv_is_active := true;
                dv_supports_pq_ratchet := cd_supports_pq_ratchet data |} in
    Ok (d, {| devices := <[cd_device_id data := d]> (devices db); users := users db |}).

(** One transaction: an error of any statement leaves the tables as they were. The id of
    the user is the random one the database draws. *)
Definition create_user_with_first_device (jsonb : string -> bool) (up : bool) (db : Db) (fresh_id : string)
    (username_hash : option bytes) (data : CreateDeviceData) : result (User * Db) DbError :=
  if negb up || bool_decide (is_Some (users db !! fresh_id)) ||
     match username_hash with
     | Some h => bool_decide (map_Exists (fun _ u => us_username_hash u = Some h) (users db))
     | None => false
     end
  then Err (Message "Failed to create user")
  else
    let user := {| us_id := fresh_id; us_username_hash := username_hash; us_primary_device_id := None |} in
    let? p := insert_device_impl jsonb up {| devices := devices db; users := <[fresh_id := user]> (users db) |} data (Some fresh_id) in
    let user' := {| us_id := fresh_id; us_username_hash := username_hash; us_primary_device_id := Some (dv_device_id p.1) |} in
    Ok (user', {| devices := devices p.2; users := <[fresh_id := user']> (users p.2) |}).

(** The mapping of its error in [register_device_core]. *)
Definition create_error (e : DbError) : AppError :=
  match e with
  | Sqlx code constraint =>
      if String.eqb code "23505" && str_contains "identity_public" constraint then Conflict IdentityKeyRegistered else Unknown
  | Message _ => Unknown
  end.

(** ** Libraries and the environment of a request *)

Class Libs := {
  l_to_json : PowChallengeRecord -> string;
  l_from_json : string -> option PowChallengeRecord;
  l_sha256 : bytes -> bytes;
  l_hmac_sha256 : bytes -> bytes -> bytes;
  l_hex : bytes -> string;
  l_to_lowercase : string -> string;           (* [str::to_lowercase], of every alphabet *)
  l_key_ok : bytes -> bool;                    (* [VerifyingKey::from_bytes] *)
  l_verify : bytes -> bytes -> bytes -> bool;  (* key, message, signature *)
  l_jsonb : string -> bool;                    (* the cast to jsonb succeeds *)
  l_create_token : string -> string -> option (string * Z);
  l_create_refresh_token : string -> string -> option (string * string);
  l_Params : Type;                             (* Argon2, see [Pow.verify_pow_solution] *)
  l_build_params : Z -> Z -> Z -> Z -> option l_Params;
  l_encode_b64 : bytes -> option string;
  l_hash_password : l_Params -> bytes -> string -> option (option bytes);
}.

Record Env := {
  t_count : Z; t_check : Z; t_mark : Z; t_answer : Z;   (* the clock where the code reads it *)
  up_exists : bool; up_username : bool; up_create : bool;
  fresh_user_id : string;
}.

Definition wrap_i64 (z : Z) : Z := (z + (i64_max + 1)) mod (u64_max + 1) - (i64_max + 1).
Definition abs_i64 (z : Z) : Z := if z <? 0 then wrap_i64 (- z) else z.

Section Handlers.
Context {R : Type} `{Redis R} {libs : Libs}.
Context (cfg : Config).

Definition hash_client_ip (ip salt : string) : string :=
  if String.eqb ip "unknown" then "unknown"
  else l_hex (take 8 (l_sha256 (as_bytes "client-ip:" ++ as_bytes salt ++ as_bytes ip))).

Definition hash_username (secret : bytes) (username : string) : bytes :=
  l_hmac_sha256 secret (as_bytes (l_to_lowercase (trim username))).

(** *** Challenges *)

Definition issue_challenge (r : R) (headers : Headers) (generated : string) (t1 t2 t3 : Z)
    : R * result ChallengeResponse AppError :=
  let client_ip := hash_client_ip (extract_client_ip headers) (hash_salt cfg) in
  let known := negb (String.eqb client_ip "unknown") in
  let max_challenges := max_pow_challenges_per_hour cfg in
  let '(r1, counted) :=
    if (0 <? max_challenges) && known then count_pow_challenges_by_ip r client_ip 60 t1 else (r, Ok 0) in
  match counted with
  | Err _ => (r1, Err Internal)
  | Ok count =>
      if (0 <? max_challenges) && (max_challenges <=? count) then (r1, Err (TooManyRequests max_challenges))
      else
        let base_difficulty := pow_difficulty cfg in
        let '(r2, reg_count) :=
          if known then
            match count_pow_registrations_by_ip r1 client_ip 60 t2 with
            | (r', Ok n) => (r', n)
            | (r', Err _) => (r', 0)
            end
          else (r1, 0) in
        let params := stricter_params (adaptive_pow_params_registration base_difficulty reg_count)
                        (adaptive_pow_params base_difficulty count) in
        match create_pow_challenge l_to_json r2 generated (as_i16 (ap_difficulty params))
                (if known then Some client_ip else None) 600 t3 with
        | (r3, Err _) => (r3, Err Internal)
        | (r3, Ok rec) =>
            (r3, Ok {| cr_challenge := generated; cr_difficulty := ap_difficulty params;
                       cr_expires_at := timestamp (expires_at rec);
                       cr_retry_after := if 0 <? retry_after_secs params then Some (retry_after_secs params) else None |})
        end
  end.

(** *** Registration *)

(** Step 0: the limit of registrations of an address. *)
Definition registration_gate (r : R) (client_ip : string) (now : Z) : R * result unit AppError :=
  let max_registrations := max_registrations_per_hour cfg in
  if (0 <? max_registrations) && negb (String.eqb client_ip "unknown") then
    match count_pow_registrations_by_ip r client_ip 60 now with
    | (r1, Err _) => (r1, Err Internal)
    | (r1, Ok count) =>
        if max_registrations <=? count then
          let retry := retry_after_secs (adaptive_pow_params (pow_difficulty cfg) count) in
          (r1, Err (if 0 <? retry then TooManyRequests retry else Validation (RegistrationLimit max_registrations)))
        else (r1, Ok tt)
    end
  else (r, Ok tt).

Definition validate_username (username : option string) : result (option string) AppError :=
  match l_to_lowercase <$> username with
  | None => Ok None
  | Some uname =>
      if (String.length uname <? 3)%nat || (20 <? String.length uname)%nat then Err (Validation UsernameLength)
      else if negb (str_all (fun a => is_ascii_alphanumeric a || Ascii.eqb a "_") uname) then Err (Validation UsernameChars)
      else Ok (Some uname)
  end.

Definition prekey_message (signed_prekey : bytes) : bytes :=
  as_bytes "KonstruktX3DH-v1" ++ [Byte.x00; Byte.x01] ++ signed_prekey.

(** Steps 1 to 4. *)
Definition validate_request (username : option string) (device_id : string) (keys : DevicePublicKeysBinary)
    : result (option string) AppError :=
  if negb (String.length device_id =? 32)%nat then Err (Validation DeviceIdLength)
  else if negb (str_all PrivacyPass.is_ascii_hexdigit device_id) then Err (Validation DeviceIdHex)
  else if negb (String.eqb (to_lowercase device_id) device_id) then Err (Validation DeviceIdCase)
  else
    let? normalized_username := validate_username username in
    if negb (length (verifying_key keys) =? 32)%nat then Err (Validation KeyLength)
    else if negb (length (signed_prekey_signature keys) =? 64)%nat then Err (Validation SignatureLength)
    else if negb (l_key_ok (verifying_key keys)) then Err (Validation KeyInvalid)
    else if negb (l_verify (verifying_key keys) (prekey_message (signed_prekey_public keys)) (signed_prekey_signature keys))
    then Err (Validation PrekeySignature)
    else if negb (String.eqb (l_hex (take 16 (l_sha256 (identity_public keys)))) device_id)
    then Err (Validation DeviceIdMismatch)
    else Ok normalized_username.

(** Step 6, up to the mark. *)
Definition check_pow (r : R) (sol : PowSolution) (now : Z) : R * result unit AppError :=
  match get_pow_challenge l_from_json r (challenge sol) with
  | (r1, Err _) => (r1, Err Internal)
  | (r1, Ok None) => (r1, Err (Validation ChallengeInvalid))
  | (r1, Ok (Some c)) =>
      if expires_at c <? now then (r1, Err (Validation ChallengeExpired))
      else if used c then (r1, Err (Validation ChallengeUsed))
      else match verify_pow_solution l_build_params l_encode_b64 l_hash_password l_hex
                   (challenge sol) (nonce sol) (hash sol) (i16_as_u32 (difficulty c)) with
           | None => (r1, Err Panicked)
           | Some false => (r1, Err (Validation BadSolution))
           | Some true => (r1, Ok tt)
           end
  end.

(** The part of the handler that only reads: steps 0 to 6. *)
Definition register_check (r : R) (db : Db) (headers : Headers) (username : option string) (device_id : string)
    (keys : DevicePublicKeysBinary) (sol : PowSolution) (e : Env) : R * result (option string) AppError :=
  let client_ip := hash_client_ip (extract_client_ip headers) (hash_salt cfg) in
  match registration_gate r client_ip (t_count e) with
  | (r1, Err err) => (r1, Err err)
  | (r1, Ok _) =>
      match validate_request username device_id keys with
      | Err err => (r1, Err err)
      | Ok normalized_username =>
          if default false (device_exists (up_exists e) db device_id) then (r1, Err (Conflict DeviceExists))
          else match check_pow r1 sol (t_check e) with
               | (r2, Err err) => (r2, Err err)
               | (r2, Ok _) => (r2, Ok normalized_username)
               end
      end
  end.

Definition device_data (device_id : string) (keys : DevicePublicKeysBinary) : CreateDeviceData := {|
  cd_device_id := device_id; cd_server_hostname := instance_domain cfg; cd_verifying_key := verifying_key keys;
  cd_identity_public := identity_public keys; cd_signed_prekey_public := signed_prekey_public keys;
  cd_signed_prekey_signature := signed_prekey_signature keys;
  cd_crypto_suites := String (Ascii.ascii_of_nat 91) (String (Ascii.ascii_of_nat 34) (crypto_suite keys +:+
                      String (Ascii.ascii_of_nat 34) (String (Ascii.ascii_of_nat 93) "")));
  cd_supports_pq_ratchet := supports_pq_ratchet keys |}.

(** Tokens for a device of a user; a refresh token that cannot be stored is only logged. *)
Definition grant_tokens (r : R) (user_id device_id : string) (now : Z) : R * result RegisterDeviceResponse AppError :=
  match l_create_token user_id device_id with
  | None => (r, Err Unknown)
  | Some (access, exp) =>
      match l_create_refresh_token user_id device_id with
      | None => (r, Err Unknown)
      | Some (refresh, jti) =>
          let r1 := (Tokens.store_refresh_token r jti user_id (refresh_token_ttl_days cfg * 86400)).1 in
          (r1, Ok {| rr_user_id := user_id; access_token := access; refresh_token := refresh;
                     expires_in := wrap_u64 (exp - now) |})
      end
  end.

(** The mark and the creation of the account: steps 6 (end) to 9. *)
Definition register_commit (r : R) (db : Db) (device_id : string) (keys : DevicePublicKeysBinary) (sol : PowSolution)
    (normalized_username : option string) (e : Env) : R * Db * result RegisterDeviceResponse AppError :=
  match mark_pow_challenge_used l_to_json l_from_json r (challenge sol) (t_mark e) with
  | (r1, Err _) => (r1, db, Err Internal)
  | (r1, Ok _) =>
      let username_hash :=
        match normalized_username with
        | Some uname => if str_is_empty uname then None else Some (hash_username (username_hmac_secret cfg) uname)
        | None => None
        end in
      let taken := match username_hash with
                   | Some h => match get_user_by_username_hash (up_username e) db h with Some (Some _) => true | _ => false end
                   | None => false
                   end in
      if taken then (r1, db, Err (Conflict UsernameTaken))
      else match create_user_with_first_device l_jsonb (up_create e) db (fresh_user_id e) username_hash (device_data device_id keys) with
           | Err err => (r1, db, Err (create_error err))
           | Ok (user, db1) => let '(r2, res) := grant_tokens r1 (us_id user) device_id (t_answer e) in (r2, db1, res)
           end
  end.

Definition register_device_core (r : R) (db : Db) (headers : Headers) (username : option string) (device_id : string)
    (keys : DevicePublicKeysBinary) (sol : PowSolution) (e : Env) : R * Db * result RegisterDeviceResponse AppError :=
  match register_check r db headers username device_id keys sol e with
  | (r1, Err err) => (r1, db, Err err)
  | (r1, Ok normalized_username) => register_commit r1 db device_id keys sol normalized_username e
  end.

(** *** Login *)

Definition block_reason (count max_failed : Z) : string :=
  "Too many failed auth attempts (" +:+ to_string count +:+ "/" +:+ to_string max_failed +:+ ")".

Definition record_failed_login_attempt (r : R) (device_id : string) : R :=
  match Issuance.increment_failed_login_count r device_id with
  | (r1, Err _) => r1
  | (r1, Ok count) =>
      if count <? max_failed_login_attempts cfg then r1
      else (Issuance.block_user_temporarily r1 device_id (rate_limit_block_duration_seconds cfg)
              (block_reason count (max_failed_login_attempts cfg))).1
  end.

Definition timestamp_ok (now ts : Z) : bool := negb (300 <? abs_i64 (wrap_i64 (now - ts))).

Definition authenticate_device_core (r : R) (db : Db) (up_db : bool) (device_id : string) (ts : Z) (signature : bytes)
    (now : Z) : R * result RegisterDeviceResponse AppError :=
  if negb (timestamp_ok now ts) then (r, Err (Validation TimestampExpired))
  else
    match Issuance.is_user_blocked r device_id with
    | (r1, Ok (Some reason)) => (r1, Err (Auth (Some reason)))
    | (r1, _) =>
        match get_device_by_id up_db db device_id with
        | None => (r1, Err Internal)
        | Some None => (r1, Err (DeviceRefused NotFound))
        | Some (Some device) =>
            if negb (dv_is_active device) then (r1, Err (DeviceRefused Removed))
            else if negb (length signature =? 64)%nat then (r1, Err (Validation SignatureLength))
            else if negb (length (dv_verifying_key device) =? 32)%nat || negb (l_key_ok (dv_verifying_key device))
            then (r1, Err Internal)
            else if negb (l_verify (dv_verifying_key device) (as_bytes (device_id +:+ to_string ts)) signature)
            then (record_failed_login_attempt r1 device_id, Err (Auth None))
            else
              let r2 := (Issuance.reset_failed_login_count r1 device_id).1 in
              match dv_user_id device with
              | None => (r2, Err Internal)
              | Some user_id => grant_tokens r2 user_id (dv_device_id device) now
              end
        end
    end.

End Handlers.

(** ** A challenge registers one account *)

Section Registration.
Context {R : Type} `{RedisLaws R} {libs : Libs}.
Context (cfg : Config).
Context (json_roundtrip : forall c, l_from_json (l_to_json c) = Some c).

Record request := {
  q_headers : Headers; q_username : option string; q_device_id : string; q_keys : DevicePublicKeysBinary;
  q_sol : PowSolution; q_env : Env;
}.

Definition register (r : R) (db : Db) (q : request) : R * Db * result RegisterDeviceResponse AppError :=
  register_device_core cfg r db (q_headers q) (q_username q) (q_device_id q) (q_keys q) (q_sol q) (q_env q).

(** Registrations one after the other, with time passing in between; the list holds the
    challenge of each and whether it succeeded. *)
Inductive registrations : R -> Db -> list (string * bool) -> Prop :=
| no_more r db : registrations r db []
| one_more r db q r' db' res l :
    register r db q = (r', db', res) -> registrations r' db' l ->
    registrations r db ((challenge (q_sol q), is_ok res) :: l)
| time_passes r r' db l : expires (keys r) (keys r') -> registrations r' db l -> registrations r db l.

#[local] Abbreviation gone ch r := (spent l_from_json ch (keys r)).

Lemma gate_keeps (r : R) ip now ch : gone ch r -> gone ch (registration_gate cfg r ip now).1.
Proof.
  intros Hs. unfold registration_gate. destruct (_ && _); [|done].
  pose proof (count_frame r (IPREG_PREFIX +:+ ip) 60 now _ (ipreg_not_challenge ip ch)) as Hf.
  unfold count_pow_registrations_by_ip. destruct (count_pow_window r _ _ _) as [r1 [n|]]; [destruct (_ <=? _)|];
    by eapply spent_frame.
Qed.

Lemma refresh_not_challenge jti ch : Tokens.refresh_key jti <> CH_PREFIX +:+ ch.
Proof. done. Qed.
Lemma index_not_challenge u ch : Tokens.index_key u <> CH_PREFIX +:+ ch.
Proof. done. Qed.

Lemma store_frame (r : R) jti user ttl k :
  Tokens.refresh_key jti <> k -> Tokens.index_key user <> k ->
  keys (Tokens.store_refresh_token r jti user ttl).1 !! k = keys r !! k.
Proof.
  intros Hr Hi. unfold Tokens.store_refresh_token.
  pose proof (single_key_frame r (SETEX (Tokens.refresh_key jti) user (wrap_u64 ttl)) _ k eq_refl Hr) as H1.
  rewrite <- exec_unit_fst in H1. destruct (exec_unit r _) as [r1 [[]|]]; [|done]. cbn [fst] in H1.
  pose proof (single_key_frame r1 (SADD (Tokens.index_key user) [jti]) _ k eq_refl Hi) as H2.
  rewrite <- exec_int_fst in H2. destruct (exec_int r1 _) as [r2 [n|]]; cbn [fst] in H2 |- *; [|congruence].
  pose proof (single_key_frame r2 (EXPIRE (Tokens.index_key user) ttl) _ k eq_refl Hi) as H3.
  rewrite <- exec_unit_fst in H3. unfold Tokens.run. destruct (exec_unit r2 _) as [r3 [[]|]]; cbn [fst] in H3 |- *; congruence.
Qed.

Lemma grant_keeps (r : R) user device now ch : gone ch r -> gone ch (grant_tokens cfg r user device now).1.
Proof.
  intros Hs. unfold grant_tokens. destruct (l_create_token user device) as [[a x]|]; [|done].
  destruct (l_create_refresh_token user device) as [[rt jti]|]; [|done]. cbn [fst].
  eapply spent_frame; [|done]. by apply store_frame.
Qed.

Lemma check_keeps (r : R) sol now ch : gone ch r -> gone ch (check_pow r sol now).1.
Proof.
  intros Hs. unfold check_pow. pose proof (get_challenge_keys l_from_json r (challenge sol)) as Hk.
  destruct (get_pow_challenge _ r _) as [r1 [[c|]|]]; cbn [fst] in Hk |- *; [|by rewrite Hk..].
  repeat case_match; cbn [fst]; by rewrite Hk.
Qed.

(** A spent challenge fails the check. *)
Lemma check_spent (r : R) sol now r' : gone (challenge sol) r -> check_pow r sol now <> (r', Ok tt).
Proof.
  intros Hs E. unfold check_pow in E. destruct (get_pow_challenge _ r _) as [r1 [[c|]|]] eqn:Eg; [|done..].
  apply get_spent in Eg; [|done]. rewrite Eg in E. by destruct (_ <? _).
Qed.

Lemma register_check_keeps (r : R) db q ch :
  gone ch r -> gone ch (register_check cfg r db (q_headers q) (q_username q) (q_device_id q) (q_keys q) (q_sol q) (q_env q)).1.
Proof.
  intros Hs. unfold register_check. set (ip := hash_client_ip _ _).
  pose proof (gate_keeps r ip (t_count (q_env q)) ch Hs) as H1. destruct (registration_gate _ _ _ _) as [r1 [u|]]; [|done].
  destruct (validate_request _ _ _); [|done]. destruct (default _ _); [done|].
  pose proof (check_keeps r1 (q_sol q) (t_check (q_env q)) ch H1) as H2. by destruct (check_pow r1 _ _) as [r2 [v|]].
Qed.

Lemma register_commit_keeps (r : R) db q name ch :
  gone ch r -> gone ch (register_commit cfg r db (q_device_id q) (q_keys q) (q_sol q) name (q_env q)).1.1.
Proof using json_roundtrip.
  intros Hs. unfold register_commit. pose proof (mark_keeps _ _ json_roundtrip r ch (challenge (q_sol q)) (t_mark (q_env q)) Hs) as H1.
  destruct (mark_pow_challenge_used _ _ r _ _) as [r1 [u|]]; [|done]. cbn [fst] in H1. set (h := match name with Some _ => _ | None => _ end).
  destruct (match h with Some _ => _ | None => false end); [done|]. destruct (create_user_with_first_device _ _ _ _ _ _) as [[us db1]|]; [|done].
  pose proof (grant_keeps r1 (us_id us) (q_device_id q) (t_answer (q_env q)) ch H1) as H2. by destruct (grant_tokens _ _ _ _ _).
Qed.

Lemma register_keeps (r : R) db q r' db' res ch : register r db q = (r', db', res) -> gone ch r -> gone ch r'.
Proof using json_roundtrip.
  unfold register, register_device_core. intros E Hs. pose proof (register_check_keeps r db q ch Hs) as H1.
  destruct (register_check _ _ _ _ _ _ _ _ _) as [r1 [name|]]; [|by injection E as <- _ _]. cbn [fst] in H1.
  pose proof (register_commit_keeps r1 db q name ch H1) as H2. by rewrite E in H2.
Qed.

(** A registration that succeeds found its challenge unspent and spends it. *)
Lemma register_success (r : R) db q r' db' resp :
  register r db q = (r', db', Ok resp) -> ~ gone (challenge (q_sol q)) r /\ gone (challenge (q_sol q)) r'.
Proof using json_roundtrip.
  unfold register, register_device_core. intros E. destruct (register_check _ _ _ _ _ _ _ _ _) as [r1 [name|]] eqn:Ec; [|done]. split.
  - intros Hs. unfold register_check in Ec. set (ip := hash_client_ip _ _) in Ec.
    pose proof (gate_keeps r ip (t_count (q_env q)) _ Hs) as H1.
    destruct (registration_gate _ _ _ _) as [r0 [u|]]; [|done]. destruct (validate_request _ _ _); [|done]. destruct (default _ _); [done|].
    destruct (check_pow r0 _ _) as [r2 [[]|]] eqn:Ep; [|done]. by apply check_spent in Ep.
  - clear Ec. unfold register_commit in E.
    destruct (mark_pow_challenge_used _ _ r1 _ _) as [r2 [[]|]] eqn:Em; [|done].
    apply (mark_spends _ _ json_roundtrip) in Em. set (h := match name with Some _ => _ | None => _ end) in E.
    destruct (match h with Some _ => _ | None => false end); [done|]. destruct (create_user_with_first_device _ _ _ _ _ _) as [[us db1]|]; [|done].
    pose proof (grant_keeps r2 (us_id us) (q_device_id q) (t_answer (q_env q)) _ Em) as H2.
    destruct (grant_tokens _ _ _ _ _) as [r3 res]. by injection E as <- _ _.
Qed.

(** C10: a challenge registers at most one account. In any sequence of registrations that
    run one after the other, with time passing and Redis failing or losing answers at any
    call, at most one that presents a given challenge succeeds, and none once the challenge
    is marked as used or has expired. *)
Theorem challenge_single_use ch (r : R) db l :
  registrations r db l ->
  let successes := count_if (fun p => String.eqb p.1 ch && p.2) l in
  successes <= 1 /\ (spent l_from_json ch (keys r) -> successes = 0).
Proof using json_roundtrip.
  intros Hl. cbn zeta. induction Hl as [r db|r db q r' db' res l E _ [IH1 IH0]|r r' db l He _ [IH1 IH0]].
  - by cbn.
  - unfold count_if in *. cbn [List.filter fst snd]. destruct (String.eqb_spec (challenge (q_sol q)) ch) as [<-|Hne].
    + destruct res as [resp|err]; cbn [is_ok andb length].
      * apply register_success in E as [Hn Hs]. specialize (IH0 Hs). split; [lia|]. by intros.
      * split; [lia|]. intros Hs. apply IH0. by eapply register_keeps.
    + cbn [andb]. split; [lia|]. intros Hs. apply IH0. by eapply register_keeps.
  - split; [done|]. intros Hs. apply IH0. by eapply expiry_keeps.
Qed.

Lemma get_stored (r : R) ch r' c :
  get_pow_challenge l_from_json r ch = (r', Ok (Some c)) ->
  exists s ttl, keys r !! (CH_PREFIX +:+ ch) = Some (Entry (VStr s) ttl) /\ l_from_json s = Some c.
Proof.
  unfold get_pow_challenge. destruct (exec_opt_string r _) as [r1 [[s|]|]] eqn:E; [|done..].
  destruct (l_from_json s) as [c'|] eqn:Ej; [|done]. intros [= <- <-]. apply exec_get_ok in E as [_ E].
  destruct (keys r !! _) as [[v ttl]|]; [|done]. destruct E as (s' & Ev & [= <-]). cbn in Ev. subst v. by exists s, ttl.
Qed.

(** What the checks of a registration establish. *)
Lemma validated username device_id ks name :
  validate_request username device_id ks = Ok name ->
  l_hex (take 16 (l_sha256 (identity_public ks))) = device_id /\ length (verifying_key ks) = 32%nat /\
  l_key_ok (verifying_key ks) = true /\
  l_verify (verifying_key ks) (prekey_message (signed_prekey_public ks)) (signed_prekey_signature ks) = true.
Proof.
  unfold validate_request. repeat case_match; try done; intros _.
  rewrite ?negb_false_iff in *. by repeat match goal with E : (_ =? _)%nat = true |- _ => apply Nat.eqb_eq in E | E : String.eqb _ _ = true |- _ => apply String.eqb_eq in E end.
Qed.

Lemma created jsonb up db uid uh data user db' :
  create_user_with_first_device jsonb up db uid uh data = Ok (user, db') ->
  devices db !! cd_device_id data = None /\ users db !! uid = None /\ us_id user = uid /\
  (forall k d, devices db !! k = Some d -> dv_identity_public d <> cd_identity_public data) /\
  exists d, devices db' = <[cd_device_id data := d]> (devices db) /\ users db' = <[uid := user]> (users db) /\
    dv_user_id d = Some uid /\ dv_verifying_key d = cd_verifying_key data /\ dv_is_active d = true /\
    dv_device_id d = cd_device_id data.
Proof.
  unfold create_user_with_first_device, insert_device_impl. cbn [devices users].
  destruct (negb up); [done|]. cbn [orb]. case_bool_decide as Hu; [done|]. cbn [orb].
  destruct (match uh with Some _ => _ | None => _ end); [done|]. destruct (negb _); [done|]. cbn [orb].
  case_bool_decide as Hd; [done|]. case_bool_decide as Hi; [done|]. intros [= <- <-]. cbn.
  apply eq_None_not_Some in Hu, Hd. split_and!; [done|done|done| |].
  - intros k d Hk He. apply Hi. by exists k, d.
  - eexists. split_and!; [done|by rewrite insert_insert_eq|done..].
Qed.

(** C15: what a registration establishes. If it succeeds, then the device id is the hash of
    the identity key, the prekey is signed by the verifying key, the challenge was stored,
    unused and unexpired and the solution meets its difficulty; no device had that id or
    that identity key and no user the new id; and the tables gain exactly this active device
    with this key and its user, whose id is answered. *)
Theorem registration_sound (r : R) db q r' db' resp :
  register r db q = (r', db', Ok resp) ->
  let ks := q_keys q in
  let uid := fresh_user_id (q_env q) in
  l_hex (take 16 (l_sha256 (identity_public ks))) = q_device_id q /\
  l_verify (verifying_key ks) (prekey_message (signed_prekey_public ks)) (signed_prekey_signature ks) = true /\
  (exists s ttl c, keys r !! (CH_PREFIX +:+ challenge (q_sol q)) = Some (Entry (VStr s) ttl) /\ l_from_json s = Some c /\
     used c = false /\ t_check (q_env q) <= expires_at c /\
     verify_pow_solution l_build_params l_encode_b64 l_hash_password l_hex (challenge (q_sol q)) (nonce (q_sol q))
       (hash (q_sol q)) (i16_as_u32 (difficulty c)) = Some true) /\
  devices db !! q_device_id q = None /\ users db !! uid = None /\
  (forall k d, devices db !! k = Some d -> dv_identity_public d <> identity_public ks) /\
  exists d user, devices db' = <[q_device_id q := d]> (devices db) /\ users db' = <[uid := user]> (users db) /\
    dv_user_id d = Some uid /\ dv_verifying_key d = verifying_key ks /\ dv_is_active d = true /\ rr_user_id resp = uid.
Proof using Type.
  cbn zeta. unfold register, register_device_core, register_check. intros E. set (ip := hash_client_ip _ _) in E.
  pose proof (fun ch => count_frame r (IPREG_PREFIX +:+ ip) 60 (t_count (q_env q)) _ (ipreg_not_challenge ip ch)) as Hf.
  assert (forall ch, keys (registration_gate cfg r ip (t_count (q_env q))).1 !! (CH_PREFIX +:+ ch) = keys r !! (CH_PREFIX +:+ ch)) as Hg.
  { intros ch. specialize (Hf ch). unfold registration_gate, count_pow_registrations_by_ip. destruct (_ && _); [|done].
    destruct (count_pow_window r _ _ _) as [r1 [n|]]; [destruct (_ <=? _)|]; exact Hf. }
  destruct (registration_gate _ _ _ _) as [r0 [u|]]; [|done]. cbn [fst] in Hg.
  destruct (validate_request _ _ _) as [name|] eqn:Ev; [|done]. apply validated in Ev as (Hid & _ & _ & Hsig).
  destruct (default _ _); [done|]. destruct (check_pow r0 _ _) as [r1 [v|]] eqn:Ep; [|done].
  assert (exists s ttl c, keys r !! (CH_PREFIX +:+ challenge (q_sol q)) = Some (Entry (VStr s) ttl) /\ l_from_json s = Some c /\
     used c = false /\ t_check (q_env q) <= expires_at c /\
     verify_pow_solution l_build_params l_encode_b64 l_hash_password l_hex (challenge (q_sol q)) (nonce (q_sol q))
       (hash (q_sol q)) (i16_as_u32 (difficulty c)) = Some true) as Hpow.
  { unfold check_pow in Ep. destruct (get_pow_challenge _ r0 _) as [r2 [[c|]|]] eqn:Eg; [|done..].
    apply get_stored in Eg as (s & ttl & Hk & Hj). rewrite Hg in Hk. exists s, ttl, c.
    destruct (Z.ltb_spec (expires_at c) (t_check (q_env q))); [done|]. destruct (used c); [done|].
    by destruct (verify_pow_solution _ _ _ _ _ _ _ _) as [[]|]. }
  clear Ep. unfold register_commit in E. destruct (mark_pow_challenge_used _ _ r1 _ _) as [r2 [w|]]; [|done].
  set (h := match name with Some _ => _ | None => _ end) in E.
  destruct (match h with Some _ => _ | None => false end); [done|].
  destruct (create_user_with_first_device _ _ _ _ _ _) as [[user db1]|] eqn:Ecr; [|done].
  apply created in Ecr as (Hd & Hu & Hus & Hi & d & Hd' & Hu' & Hdu & Hdk & Hda & _). cbn in Hd, Hd', Hdk, Hi.
  assert (rr_user_id resp = us_id user /\ db1 = db') as [Hr ->].
  { unfold grant_tokens in E. destruct (l_create_token _ _) as [[a x]|]; [|done].
    destruct (l_create_refresh_token _ _) as [[rt jti]|]; [|done]. by injection E as _ -> <-. }
  split_and!; try done. exists d, user. split_and!; try done. by rewrite Hr.
Qed.

(** The statements of the database wrap their errors in a message. *)
Lemma create_message jsonb up db uid uh data e :
  create_user_with_first_device jsonb up db uid uh data = Err e -> exists text, e = Message text.
Proof.
  unfold create_user_with_first_device, insert_device_impl. cbn [devices users].
  destruct (_ || _ || _); [intros [= <-]; eauto|]. destruct (_ || _ || _); [intros [= <-]; eauto|].
  case_bool_decide; [intros [= <-]; eauto|done].
Qed.

Lemma check_refusal (r : R) db q r' e :
  register_check cfg r db (q_headers q) (q_username q) (q_device_id q) (q_keys q) (q_sol q) (q_env q) = (r', Err e) ->
  e <> Conflict IdentityKeyRegistered.
Proof.
  unfold register_check, registration_gate, validate_request, validate_username, check_pow. intros E ->.
  repeat case_match; simplify_eq.
Qed.

(** the conflict of identity keys is never reported as one. Whatever the request and the
    tables, a registration does not answer the conflict its code has for an identity key
    that another device registered: a refusal of the tables is always the unknown error. *)
Theorem identity_conflict_unreported (r : R) db q :
  (register r db q).2 <> Err (Conflict IdentityKeyRegistered) /\
  (forall r1 name, register_check cfg r db (q_headers q) (q_username q) (q_device_id q) (q_keys q) (q_sol q) (q_env q) = (r1, Ok name) ->
   name = None -> (exists k d, devices db !! k = Some d /\ dv_identity_public d = identity_public (q_keys q)) ->
   (register r db q).2 = Err Unknown \/ (register r db q).2 = Err Internal).
Proof using Type.
  unfold register, register_device_core.
  destruct (register_check _ _ _ _ _ _ _ _ _) as [r1 [name|e]] eqn:Ec; cycle 1.
  { split; [|done]. apply check_refusal in Ec. cbn. congruence. }
  unfold register_commit. destruct (mark_pow_challenge_used _ _ r1 _ _) as [r2 [[]|]]; cycle 1.
  { split; [done|]. intros. by right. }
  set (h := match name with Some _ => _ | None => _ end).
  destruct (match h with Some _ => _ | None => false end) eqn:Et.
  { split; [done|]. intros ? ? [= <- <-] Hn. subst name. by cbn in Et. }
  destruct (create_user_with_first_device _ _ _ _ _ _) as [[user db1]|e] eqn:Ecr.
  - apply created in Ecr as (_ & _ & _ & Hi & _). split.
    + unfold grant_tokens. by repeat case_match; simplify_eq.
    + intros _ _ _ _ (k & d & Hk & He). by destruct (Hi k d Hk).
  - apply create_message in Ecr as [text ->]. split; [done|]. intros. by left.
Qed.

End Registration.

(** ** Login and lockout *)

Section Login.
Context {R : Type} `{RedisLaws R} {libs : Libs}.
Context (cfg : Config).
Context (Up : R -> Prop) (Hup : available Up).

#[local] Abbreviation login := (authenticate_device_core cfg).
#[local] Abbreviation blocked_key id := ("blocked:" +:+ id).

Definition blocked (id : string) (ks : keyspace) (reason : string) : Prop :=
  exists ttl, ks !! blocked_key id = Some (Entry (VStr reason) ttl).

Lemma wrap_i64_small z : i64_min <= z <= i64_max -> wrap_i64 z = z.
Proof. unfold wrap_i64, i64_min, i64_max, u64_max. intros. rewrite Z.mod_small; lia. Qed.

Lemma timestamp_ok_exact now ts :
  0 <= now < 2 ^ 62 -> - 2 ^ 62 <= ts < 2 ^ 62 -> timestamp_ok now ts = true <-> Z.abs (now - ts) <= 300.
Proof.
  intros Hn Ht. unfold timestamp_ok, abs_i64.
  rewrite (wrap_i64_small (now - ts)) by (unfold i64_min, i64_max; lia).
  destruct (Z.ltb_spec (now - ts) 0).
  - rewrite wrap_i64_small by (unfold i64_min, i64_max; lia). destruct (Z.ltb_spec 300 (- (now - ts))); cbn [negb]; split; [done|intros; exfalso; lia|intros _; lia|done].
  - destruct (Z.ltb_spec 300 (now - ts)); cbn [negb]; split; [done|intros; exfalso; lia|intros _; lia|done].
Qed.

(** The lookup of a block while Redis answers: nothing changes, and a reason is found
    exactly if one is stored. *)
Lemma block_lookup r id :
  Up r -> exists r1 res, Issuance.is_user_blocked r id = (r1, res) /\ Up r1 /\ keys r1 = keys r /\
    forall reason, res = Ok (Some reason) <-> blocked id (keys r) reason.
Proof using Hup.
  intros Hr. unfold Issuance.is_user_blocked. pose proof (read_get r (blocked_key id)) as Hk.
  pose proof (proj1 (Hup r (GET (blocked_key id)) Hr)) as Hu. rewrite <- exec_opt_string_fst in Hu.
  destruct (exec_opt_string r _) as [r1 o] eqn:E. cbn [fst] in Hk, Hu.
  destruct o as [v|]; eexists r1, _; (split_and!; [reflexivity|done|done|]); intros reason.
  - apply exec_get_ok in E as [_ E]. unfold blocked. destruct (keys r !! _) as [[w ttl]|]; cycle 1.
    { subst v. split; [done|]. by intros [? ?]. }
    destruct E as (s & Es & ->). cbn in Es. subst w. split; [intros [= <-]; eauto|]. by intros [? [= -> _]].
  - split; [done|]. intros [ttl Hb]. exfalso. unfold exec_opt_string in E.
    edestruct (available_exact Up Hup r (GET (blocked_key id))) as (r2 & E2 & _); [done|done|cbn; by rewrite Hb|].
    by rewrite E2 in E.
Qed.

(** A device that may log in: its row, its key and the signature over its id and the time. *)
Definition may_login (db : Db) (id : string) (ts : Z) (signature : bytes) (d : Device) (uid : string) : Prop :=
  devices db !! id = Some d /\ dv_is_active d = true /\ length signature = 64%nat /\
  length (dv_verifying_key d) = 32%nat /\ l_key_ok (dv_verifying_key d) = true /\
  l_verify (dv_verifying_key d) (as_bytes (id +:+ to_string ts)) signature = true /\ dv_user_id d = Some uid /\
  is_Some (l_create_token uid (dv_device_id d)) /\ is_Some (l_create_refresh_token uid (dv_device_id d)).

Lemma grant_ok (r : R) uid id now :
  is_Some (l_create_token uid id) -> is_Some (l_create_refresh_token uid id) ->
  exists r' resp, grant_tokens cfg r uid id now = (r', Ok resp) /\ rr_user_id resp = uid.
Proof.
  intros [[a x] Ha] [[rt jti] Hr]. unfold grant_tokens. rewrite Ha, Hr. eexists _, _. by split.
Qed.

Lemma grant_inv (r : R) uid id now r' resp :
  grant_tokens cfg r uid id now = (r', Ok resp) ->
  rr_user_id resp = uid /\ is_Some (l_create_token uid id) /\ is_Some (l_create_refresh_token uid id).
Proof.
  unfold grant_tokens. destruct (l_create_token _ _) as [[a x]|]; [|done].
  destruct (l_create_refresh_token _ _) as [[rt jti]|]; [|done]. intros [= _ <-]. by split_and!; eauto.
Qed.

(** C23: login is exact. With Redis and the database answering and the times in range, a
    login succeeds for a user exactly if the time is within 300 seconds, no block is stored
    for the device, and its active row holds a key that verifies the signature over the
    device id and the time and names that user, for whom tokens can be made. *)
Theorem login_exact r db id ts signature now uid :
  Up r -> 0 <= now < 2 ^ 62 -> - 2 ^ 62 <= ts < 2 ^ 62 ->
  (exists r' resp, login r db true id ts signature now = (r', Ok resp) /\ rr_user_id resp = uid) <->
  Z.abs (now - ts) <= 300 /\ (forall reason, ~ blocked id (keys r) reason) /\
  exists d, may_login db id ts signature d uid.
Proof using Hup.
  intros Hr Hn Ht. pose proof (timestamp_ok_exact now ts Hn Ht) as Htime.
  destruct (block_lookup r id Hr) as (r1 & res & Eb & _ & _ & Hb). unfold authenticate_device_core. rewrite Eb.
  split.
  - intros (r' & resp & E & <-). destruct (timestamp_ok now ts); [|done]. split; [by apply Htime|]. cbn [negb] in E.
    assert (forall reason, res <> Ok (Some reason)) as Hres by (intros reason ->; done).
    split; [intros reason Hx; by eapply Hres, Hb|].
    assert (match get_device_by_id true db id with Some (Some d) => may_login db id ts signature d (rr_user_id resp) | _ => False end) as Hm.
    { cbn in E |- *. unfold may_login. destruct res as [[reason|]|]; [by destruct (Hres reason)|..];
        repeat case_match; simplify_eq;
        rewrite ?negb_false_iff, ?orb_false_iff in *; destruct_and?;
        rewrite ?negb_false_iff in *;
        repeat match goal with Hx : (_ =? _)%nat = true |- _ => apply Nat.eqb_eq in Hx end;
        apply grant_inv in E as (-> & ? & ?); by split_and!. }
    cbn in Hm. destruct (devices db !! id) as [d|]; [|done]. by exists d.
  - intros (Ha & Hnb & d & Hd & Hact & Hsl & Hkl & Hko & Hv & Hu & Hct & Hcr). apply Htime in Ha. rewrite Ha. cbn [negb].
    destruct res as [[reason|]|]; [destruct (Hnb reason); by apply Hb|..];
      cbn [get_device_by_id]; rewrite Hd, Hact, Hsl, Hkl, Hko, Hv, Hu; cbn [negb Nat.eqb orb]; by apply grant_ok.
Qed.

(** the check of the time wraps. For every time of the clock there is a time stamp more
    than 2^62 seconds away that the check accepts, because the difference and its absolute
    value are computed in 64 bits. *)
Theorem timestamp_wraps now :
  0 <= now < 2 ^ 62 -> let ts := now - 2 ^ 63 in in_i64 ts /\ timestamp_ok now ts = true /\ 2 ^ 62 < Z.abs (now - ts).
Proof using Type.
  cbn zeta. intros Hn. unfold in_i64, i64_min, i64_max. split; [lia|]. split; [|lia].
  unfold timestamp_ok. replace (now - (now - 2 ^ 63)) with (2 ^ 63) by lia. reflexivity.
Qed.

(** *** Failed attempts *)

Context (db : Db) (id : string) (d : Device).
Context (Hd : devices db !! id = Some d) (Hactive : dv_is_active d = true).
Context (Hkey : length (dv_verifying_key d) = 32%nat) (Hkey_ok : l_key_ok (dv_verifying_key d) = true).
Context (Hmax : 0 < max_failed_login_attempts cfg <= u32_max).
Context (Hduration : 0 < rate_limit_block_duration_seconds cfg <= u64_max).

Record attempt := { at_ts : Z; at_signature : bytes; at_now : Z }.

Definition bad (a : attempt) : Prop :=
  timestamp_ok (at_now a) (at_ts a) = true /\ length (at_signature a) = 64%nat /\
  l_verify (dv_verifying_key d) (as_bytes (id +:+ to_string (at_ts a))) (at_signature a) = false.

Definition try_login (r : R) (a : attempt) : R * result RegisterDeviceResponse AppError :=
  login r db true id (at_ts a) (at_signature a) (at_now a).

Fixpoint login_run (r : R) (atts : list attempt) : R * list (result RegisterDeviceResponse AppError) :=
  match atts with
  | [] => (r, [])
  | a :: rest => let '(r1, res) := try_login r a in let '(r2, out) := login_run r1 rest in (r2, res :: out)
  end.

#[local] Abbreviation fail_key := (Issuance.login_key id).
#[local] Abbreviation max_failed := (max_failed_login_attempts cfg).

(** [c] failures are counted and no block is stored. *)
Definition failed (c : Z) (r : R) : Prop :=
  Up r /\ counter (keys r) fail_key = Some c /\ keys r !! blocked_key id = None.

Definition locked (r : R) : Prop := Up r /\ blocked id (keys r) (block_reason max_failed max_failed).

Lemma incr_doc ks k c : counter ks k = Some c -> c < i64_max ->
  cmd_doc (INCR k) ks = Some (set_val ks k (VStr (to_string (c + 1))), RInt (c + 1)).
Proof.
  unfold counter. intros Hc Hm. cbn [cmd_doc]. unfold doc_incr.
  destruct (ks !! k) as [[v ttl]|]; [destruct v; try done; rewrite Hc|injection Hc as <-];
    by case_match; [lia|].
Qed.

Lemma blocked_ne_fail : blocked_key id <> fail_key.
Proof. done. Qed.

(** Counting one failure. *)
Lemma increment_effect r c : failed c r -> 0 <= c < u32_max ->
  exists r1, Issuance.increment_failed_login_count r id = (r1, Ok (c + 1)) /\ failed (c + 1) r1.
Proof using All.
  intros (Hr & Hc & Hb) Hcm. assert (c < i64_max) by (unfold u32_max, i64_max in *; lia).
  destruct (available_exact Up Hup r (INCR fail_key) _ _ Hr eq_refl (incr_doc _ _ _ Hc ltac:(lia))) as (r1 & E1 & Hk1 & Hu1).
  unfold Issuance.increment_failed_login_count, exec_int at 1. rewrite E1, wrap_u32_small by lia.
  assert (counter (keys r1) fail_key = Some (c + 1)) as Hc1.
  { rewrite Hk1. apply Issuance.counter_set_val. unfold in_i64, i64_min, i64_max, u32_max in *. lia. }
  assert (keys r1 !! blocked_key id = None) as Hb1 by (rewrite Hk1; unfold set_val; by rewrite lookup_insert_ne).
  destruct (c + 1 =? 1); [|by exists r1].
  pose proof (Issuance.counter_expire (keys r1) fail_key 900 ltac:(lia)) as Hce.
  destruct (doc_expire (keys r1) fail_key 900) as [ks2 rep2] eqn:Ed. cbn [fst] in Hce.
  assert (ks2 !! blocked_key id = None /\ exists n, rep2 = RInt n) as [Hb2 [n ->]].
  { unfold doc_expire in Ed. destruct (keys r1 !! fail_key); injection Ed as <- <-; (split; [|by eexists]); [|done].
    by rewrite lookup_insert_ne. }
  destruct (available_exact Up Hup r1 (EXPIRE fail_key Issuance.FAILED_LOGIN_WINDOW_SECS) ks2 (RInt n) Hu1 eq_refl) as (r2 & E2 & Hk2 & Hu2).
  { cbn. by rewrite <- Ed. }
  unfold exec_bool. rewrite E2. exists r2. split; [done|]. unfold failed. by rewrite Hk2, Hce.
Qed.

(** One bad attempt counts, and the last one locks. *)
Lemma bad_step r a c : failed c r -> bad a -> 0 <= c < max_failed ->
  exists r', try_login r a = (r', Err (Auth None)) /\ if c + 1 <? max_failed then failed (c + 1) r' else locked r'.
Proof using All.
  intros Hf (Ht & Hl & Hv) Hc. destruct (block_lookup r id (proj1 Hf)) as (r1 & res & Eb & Hu1 & Hk1 & Hb).
  assert (failed c r1) as Hf1 by (destruct Hf as (_ & ? & ?); unfold failed; by rewrite Hk1).
  destruct (increment_effect r1 c Hf1 ltac:(lia)) as (r2 & Ei & Hf2).
  exists (record_failed_login_attempt cfg r1 id). split.
  - unfold try_login, authenticate_device_core. rewrite Ht, Eb. cbn [negb get_device_by_id].
    destruct res as [[reason|]|]; [destruct (proj1 (Hb reason) eq_refl) as [ttl Hx]; by rewrite (proj2 (proj2 Hf)) in Hx|..];
      rewrite Hd, Hactive, Hl, Hkey, Hkey_ok, Hv; reflexivity.
  - unfold record_failed_login_attempt. rewrite Ei. destruct (Z.ltb_spec (c + 1) max_failed); [done|].
    assert (c + 1 = max_failed) as -> by lia. unfold Issuance.block_user_temporarily, exec_unit.
    rewrite wrap_u64_id by (unfold in_u64; lia). set (dur := rate_limit_block_duration_seconds cfg) in *.
    assert (forall v, cmd_doc (SETEX (blocked_key id) v dur) (keys r2) =
      Some (<[blocked_key id := Entry (VStr v) (Some dur)]> (keys r2), ROk)) as Hset.
    { intros v. cbn. by destruct (Z.leb_spec dur 0); [lia|]. }
    destruct (available_exact Up Hup r2 (SETEX (blocked_key id) (block_reason max_failed max_failed) dur) _ _ (proj1 Hf2) eq_refl (Hset _))
      as (r3 & E3 & Hk3 & Hu3).
    rewrite E3. cbn [fst]. split; [done|]. rewrite Hk3. eexists. apply lookup_insert_eq.
Qed.

(** A locked device stays locked, whatever is tried. *)
Lemma locked_step r a : locked r -> timestamp_ok (at_now a) (at_ts a) = true ->
  exists r', try_login r a = (r', Err (Auth (Some (block_reason max_failed max_failed)))) /\ locked r'.
Proof using All.
  intros [Hr Hb] Ht. destruct (block_lookup r id Hr) as (r1 & res & Eb & Hu1 & Hk1 & Hiff).
  exists r1. unfold try_login, authenticate_device_core. rewrite Ht, Eb. apply Hiff in Hb as Hres. rewrite Hres.
  split; [done|]. unfold locked. by rewrite Hk1.
Qed.

Lemma locked_run r atts : locked r -> Forall bad atts ->
  exists r', login_run r atts = (r', repeat (Err (Auth (Some (block_reason max_failed max_failed)))) (length atts)) /\ locked r'.
Proof using All.
  intros Hr Hall. revert r Hr. induction Hall as [|a atts [Ht _] _ IH]; intros r Hr; [by exists r|].
  cbn [login_run length repeat]. destruct (locked_step r a Hr Ht) as (r1 & -> & Hr1). destruct (IH r1 Hr1) as (r2 & -> & Hr2).
  by exists r2.
Qed.

Lemma bad_run r c atts : failed c r -> Forall bad atts -> 0 <= c < max_failed ->
  let k := Z.to_nat (max_failed - c) in
  exists r', login_run r atts = (r', repeat (Err (Auth None)) (Nat.min (length atts) k) ++
      repeat (Err (Auth (Some (block_reason max_failed max_failed)))) (length atts - k)) /\
    if (length atts <? k)%nat then failed (c + Z.of_nat (length atts)) r' else locked r'.
Proof using All.
  intros Hr Hall. revert r c Hr. induction Hall as [|a atts Ha Hall IH]; intros r c Hr Hc k.
  { exists r. split; [done|]. cbn [length]. destruct (Nat.ltb_spec 0 k); [|lia]. by replace (c + Z.of_nat 0) with c by lia. }
  cbn [login_run length]. destruct (bad_step r a c Hr Ha Hc) as (r1 & -> & Hr1).
  destruct k as [|k'] eqn:Ek; [lia|]. cbn [Nat.min Nat.sub repeat app]. destruct (Z.ltb_spec (c + 1) max_failed) as [Hlt|Hge].
  - destruct (IH r1 (c + 1) Hr1 ltac:(lia)) as (r2 & -> & Hr2). replace (Z.to_nat (max_failed - (c + 1))) with k' in * by lia.
    exists r2. split; [done|]. change (S (length atts) <? S k')%nat with (length atts <? k')%nat.
    replace (c + Z.of_nat (S (length atts))) with (c + 1 + Z.of_nat (length atts)) by lia. exact Hr2.
  - assert (k' = 0%nat) as -> by lia. destruct (locked_run r1 atts Hr1 Hall) as (r2 & -> & Hr2). exists r2.
    rewrite Nat.min_0_r, Nat.sub_0_r. split; [done|]. by destruct (Nat.ltb_spec (S (length atts)) 1); [lia|].
Qed.


End Login.

(** ** The theorems at work *)

Definition device_a : string := "aaaaaaaaaaaaaaaaaaaaaaaaaaaaaaaa".
Definition device_b : string := "bbbbbbbbbbbbbbbbbbbbbbbbbbbbbbbb".

(** An identity key starts with its device's letter, a signature is valid if it starts with
    a byte of value one, and every nonce solves a challenge. *)
#[export] Instance sample_libs : Libs := {|
  l_to_json := sample_to_json; l_from_json := sample_from_json;
  l_sha256 := fun b => b; l_hmac_sha256 := fun _ b => b;
  l_hex := fun b => match b with Byte.x61 :: _ => device_a | Byte.x62 :: _ => device_b | _ => "000f" end;
  l_to_lowercase := to_lowercase;
  l_key_ok := fun _ => true;
  l_verify := fun _ _ sig => match sig with Byte.x01 :: _ => true | _ => false end;
  l_jsonb := fun _ => true;
  l_create_token := fun u _ => Some (u, 3600);
  l_create_refresh_token := fun u d => Some (u, d);
  l_Params := unit; l_build_params := sample_build; l_encode_b64 := sample_b64; l_hash_password := sample_hash |}.

Definition sample_config : Config := {|
  max_failed_login_attempts := 3; rate_limit_block_duration_seconds := 900; max_pow_challenges_per_hour := 5;
  max_registrations_per_hour := 3; pow_difficulty := 8; username_hmac_secret := []; hash_salt := "salt";
  instance_domain := "example.org"; refresh_token_ttl_days := 30 |}.

Definition good_signature : bytes := Byte.x01 :: repeat Byte.x00 63.
Definition bad_signature : bytes := repeat Byte.x00 64.

Definition sample_keys (letter : byte) : DevicePublicKeysBinary := {|
  verifying_key := repeat letter 32; identity_public := repeat letter 32; signed_prekey_public := repeat letter 32;
  signed_prekey_signature := good_signature; crypto_suite := "s"; supports_pq_ratchet := false |}.

Definition sample_env (uid : string) : Env := {|
  t_count := 0; t_check := 0; t_mark := 0; t_answer := 0; up_exists := true; up_username := true; up_create := true;
  fresh_user_id := uid |}.

Definition sample_request (device uid : string) (letter : byte) : request := {|
  q_headers := {| x_forwarded_for := None; x_real_ip := None |}; q_username := None; q_device_id := device;
  q_keys := sample_keys letter; q_sol := {| challenge := "c1"; nonce := 7; hash := "000f" |}; q_env := sample_env uid |}.

Definition request_a : request := sample_request device_a "u1" Byte.x61.
Definition request_b : request := sample_request device_b "u2" Byte.x62.

Definition no_rows : Db := {| devices := ∅; users := ∅ |}.
Definition after_challenge : mem := (create_pow_challenge l_to_json (Mem ∅ true) "c1" 8 None 600 0).1.

Definition first_registration := register sample_config after_challenge no_rows request_a.

Definition second_registration := register sample_config first_registration.1.1 first_registration.1.2 request_b.

Lemma challenge_single_use_witness :
  count_if (fun p => String.eqb p.1 "c1" && p.2) [("c1", is_ok first_registration.2); ("c1", is_ok second_registration.2)] <= 1.
Proof.
  apply (challenge_single_use (libs := sample_libs) sample_config sample_json "c1" after_challenge no_rows).
  apply (one_more sample_config after_challenge no_rows request_a first_registration.1.1 first_registration.1.2 first_registration.2).
  - unfold first_registration. by destruct (register sample_config after_challenge no_rows request_a) as [[? ?] ?].
  - apply (one_more sample_config _ _ request_b second_registration.1.1 second_registration.1.2 second_registration.2); [|constructor].
    unfold second_registration. by destruct (register sample_config _ _ request_b) as [[? ?] ?].
Defined.

Example first_succeeds_second_fails :
  is_ok first_registration.2 = true /\ second_registration.2 = Err (Validation ChallengeUsed).
Proof. split; vm_compute; reflexivity. Qed.

Lemma registration_sound_witness :
  devices first_registration.1.2 !! device_a <> None /\ devices no_rows !! device_a = None.
Proof.
  destruct (registration_sound sample_config after_challenge no_rows request_a first_registration.1.1 first_registration.1.2
    {| rr_user_id := "u1"; access_token := "u1"; refresh_token := "u1"; expires_in := 3600 |})
    as (_ & _ & _ & Hn & _ & _ & d & user & Hd & _).
  - vm_compute. reflexivity.
  - rewrite Hd. split; [|exact Hn]. by rewrite lookup_insert_eq.
Defined.

(** Two registrations that run at the same time: both check the challenge before either
    marks it. *)
Definition interleaved (q1 q2 : request) (r : mem) (db : Db) :=
  let chk (r : mem) q := register_check sample_config r db (q_headers q) (q_username q) (q_device_id q) (q_keys q) (q_sol q) (q_env q) in
  match chk r q1 with
  | (r1, Ok n1) =>
      match chk r1 q2 with
      | (r2, Ok n2) =>
          let '(r3, db1, res1) := register_commit sample_config r2 db (q_device_id q1) (q_keys q1) (q_sol q1) n1 (q_env q1) in
          let '(r4, db2, res2) := register_commit sample_config r3 db1 (q_device_id q2) (q_keys q2) (q_sol q2) n2 (q_env q2) in
          Some (db2, res1, res2)
      | _ => None
      end
  | _ => None
  end.


Definition registered : Db := first_registration.1.2.

Definition row_a : Device := {|
  dv_device_id := device_a; dv_server_hostname := "example.org"; dv_user_id := Some "u1"; dv_verifying_key := repeat Byte.x61 32;
  dv_identity_public := repeat Byte.x61 32; dv_signed_prekey_public := repeat Byte.x61 32;
  dv_signed_prekey_signature := Some good_signature; dv_crypto_suites := cd_crypto_suites (device_data sample_config device_a (sample_keys Byte.x61));
  dv_is_active := true; dv_supports_pq_ratchet := false |}.

Lemma identity_conflict_sample :
  (register sample_config after_challenge registered {| q_headers := q_headers request_a; q_username := None; q_device_id := device_a;
     q_keys := sample_keys Byte.x61; q_sol := q_sol request_a;
     q_env := {| t_count := 0; t_check := 0; t_mark := 0; t_answer := 0; up_exists := false; up_username := true; up_create := true; fresh_user_id := "u2" |} |}).2
  = Err Unknown.
Proof. vm_compute. reflexivity. Qed.

Lemma login_exact_witness :
  exists r' resp, authenticate_device_core sample_config (Mem ∅ true) registered true device_a 100 good_signature 200 = (r', Ok resp) /\
    rr_user_id resp = "u1".
Proof.
  apply (login_exact sample_config (fun r : mem => mem_up r = true) mem_available (Mem ∅ true) registered device_a 100 good_signature 200 "u1").
  - reflexivity.
  - lia.
  - lia.
  - split; [lia|]. split; [by intros reason [ttl Hx]|]. exists row_a. unfold may_login. split_and!; try (vm_compute; reflexivity); by eexists.
Defined.

Lemma timestamp_wraps_witness : timestamp_ok 1700000000 (1700000000 - 2 ^ 63) = true.
Proof. apply (timestamp_wraps 1700000000). lia. Defined.

Definition sample_attempt : attempt := {| at_ts := 100; at_signature := bad_signature; at_now := 200 |}.


End DeviceAuth.
