(* ===== verification/Intake.v ===== *)
(** * Intake credentials

    Models messaging-service/src/intake.rs: the tags a recipient publishes for the
    epochs ahead, kept in Redis under the generation of the account's key, and the
    check of the tag a sealed envelope carries instead of a token. The publish script
    is a function on the keyspace; where a command of it fails, the error reply comes
    with what the commands before it did, as Redis does not roll back. The seal of a
    tag, SHA-256 and hex are third-party code and parameters. *)

From S2P Require Import Prelude Text RedisStore.

Module Intake.
Import Redis.

Definition INTAKE_TAG_LEN : nat := 16.
Definition INTAKE_EPOCH_SECONDS : Z := 86400.
Definition INTAKE_TAG_GRACE_EPOCHS : Z := 1.
Definition MAX_PUBLISHED_EPOCHS : nat := 14.
Definition MAX_TAGS_PER_EPOCH : Z := 32.

Inductive UnrecognisedReason := NoServerKey | UnsealFailed | WrongLength | NothingPublished | NoMatch.

Inductive IntakeCheck :=
| Vouched
| Absent
| Unrecognised (why : UnrecognisedReason)
| Unavailable.

#[global] Instance UnrecognisedReason_eq_dec : EqDecision UnrecognisedReason.
Proof. solve_decision. Defined.
#[global] Instance IntakeCheck_eq_dec : EqDecision IntakeCheck.
Proof. solve_decision. Defined.

Inductive IntakeVerdict := VUnspecified | VNone | VAccepted | VNotAccepted | VUnchecked.

Definition verdict (c : IntakeCheck) : IntakeVerdict :=
  match c with
  | Vouched => VAccepted
  | Absent => VNone
  | Unrecognised (NoMatch | NothingPublished | WrongLength) => VNotAccepted
  | Unrecognised (NoServerKey | UnsealFailed) | Unavailable => VUnchecked
  end.

Definition unrecognised_reason (c : IntakeCheck) : option UnrecognisedReason :=
  match c with Unrecognised why => Some why | _ => None end.

Definition owes_token (c : IntakeCheck) : bool := negb (bool_decide (c = Vouched)).

Definition intake_epoch (unix_seconds : Z) : Z := unix_seconds / INTAKE_EPOCH_SECONDS.

(** Arithmetic on [u64], wrapping as in a release build. *)
Definition tag_ttl_seconds (epoch now_epoch : Z) : option Z :=
  let last_live_epoch := wrap_u64 (epoch + INTAKE_TAG_GRACE_EPOCHS) in
  if last_live_epoch <? now_epoch then None
  else Some (wrap_u64 (wrap_u64 (last_live_epoch + 1 - now_epoch) * INTAKE_EPOCH_SECONDS)).

Definition acceptable_epochs (now_epoch : Z) : list Z :=
  now_epoch :: (if INTAKE_TAG_GRACE_EPOCHS <=? now_epoch then [now_epoch - 1] else []).

Definition tag_matches (presented stored : bytes) : bool :=
  if negb (length presented =? INTAKE_TAG_LEN)%nat || negb (length stored =? INTAKE_TAG_LEN)%nat
  then false else bool_decide (presented = stored).

Definition any_tag_matches (presented : bytes) (stored : list bytes) : bool :=
  fold_left (fun found candidate => tag_matches presented candidate || found) stored false.

Record PublishableTag := { pt_epoch : Z; pt_tag : bytes; pt_ttl : Z }.

Definition publishable_tags (entries : list (Z * bytes)) (now_unix : Z) : list PublishableTag :=
  let now_epoch := intake_epoch now_unix in
  omap (fun e => option_map (fun ttl => {| pt_epoch := fst e; pt_tag := snd e; pt_ttl := ttl |})
                   (tag_ttl_seconds (fst e) now_epoch))
    (List.filter (fun e => (length (snd e) =? INTAKE_TAG_LEN)%nat) (take MAX_PUBLISHED_EPOCHS entries)).

Inductive PublishOutcome :=
| FirstGeneration | Rotated | Added | AddedPreGeneration | RefusedPreGeneration | RefusedStale.

Definition publish_outcome (before sent : Z) : PublishOutcome :=
  match sent ?= before with
  | Gt => if before =? 0 then FirstGeneration else Rotated
  | Eq => if before =? 0 then AddedPreGeneration else Added
  | Lt => if sent =? 0 then RefusedPreGeneration else RefusedStale
  end.

(** ** The publish script *)

(** One entry of the script: the key of its set, the legacy key, the tag, its time to live. *)
Record script_entry := { se_set : string; se_legacy : string; se_tag : string; se_ttl : Z }.

Definition script_error : reply := RErr "ERR script".

(** The largest time to live the server takes. *)
Section Script.
Context (expire_limit : Z).

(** The loop; the keyspace reached and, unless a command failed, the count. *)
Fixpoint store_entries (replace : bool) (cap : Z) (l : list script_entry) (cleared : list string)
    (accepted : Z) (ks : keyspace) : keyspace * option Z :=
  match l with
  | [] => (ks, Some accepted)
  | e :: rest =>
      let clear := replace && negb (bool_decide (se_set e ∈ cleared)) in
      let ks1 := if clear then delete (se_legacy e) (delete (se_set e) ks) else ks in
      let cleared1 := if clear then se_set e :: cleared else cleared in
      match as_set ks1 (se_set e) with
      | None => (ks1, None)
      | Some m =>
          if bool_decide (se_tag e ∈ m) || (Z.of_nat (size m) <? cap) then
            let ks2 := set_val ks1 (se_set e) (VSet ({[se_tag e]} ∪ m)) in
            if expire_limit <? se_ttl e then (ks2, None)
            else store_entries replace cap rest cleared1 (accepted + 1) (doc_expire ks2 (se_set e) (se_ttl e)).1
          else store_entries replace cap rest cleared1 accepted ks1
      end
  end.

Definition persist (k : string) (ks : keyspace) : keyspace :=
  match ks !! k with Some e => <[k := Entry (e_val e) None]> ks | None => ks end.

Definition publish_script (gen_key : string) (generation cap : Z) (l : list script_entry)
    (ks : keyspace) : option (keyspace * reply) :=
  match counter ks gen_key with
  | None => Some (ks, script_error)
  | Some current =>
      if generation <? current then
        Some (ks, RValue (RvArray [RvInt current; RvInt 0; RvInt current]))
      else
        let replace := current <? generation in
        let ks1 := if replace then <[gen_key := Entry (VStr (to_string generation)) None]> ks
                   else if 0 <? generation then persist gen_key ks else ks in
        match store_entries replace cap l [] 0 ks1 with
        | (ks2, None) => Some (ks2, script_error)
        | (ks2, Some accepted) =>
            Some (ks2, RValue (RvArray [RvInt (Z.max current generation); RvInt accepted; RvInt current]))
        end
  end.

End Script.

Section WithRedis.
Context {R : Type} `{Redis R}.
Context (sha256 : bytes -> bytes) (hex_encode : bytes -> string).
Context (open_sealed_token_bytes : bytes -> bytes -> option bytes).
Context (expire_limit : Z).

Definition account_name (user_id : string) : bytes := as_bytes (to_lowercase (trim user_id)).

Definition account_epoch_digest (recipient_user_id : string) (epoch : Z) : string :=
  hex_encode (sha256 (account_name recipient_user_id ++ as_bytes "|" ++ be_bytes 8 epoch)).

Definition tag_key (recipient_user_id : string) (epoch : Z) : string :=
  "intake:v2:" +:+ account_epoch_digest recipient_user_id epoch.
Definition legacy_tag_key (recipient_user_id : string) (epoch : Z) : string :=
  "intake:" +:+ account_epoch_digest recipient_user_id epoch.
Definition intake_generation_key (account_user_id : string) : string :=
  "intake:gen:" +:+ hex_encode (sha256 (account_name account_user_id ++ as_bytes "|generation")).

Definition exec_members (r : R) (k : string) : R * option (list string) :=
  match exec r (SMEMBERS k) with
  | (r', Some (RList l)) => (r', Some l)
  | (r', _) => (r', None)
  end.

Fixpoint check_epochs (r : R) (presented : bytes) (recipient_user_id : string) (epochs : list Z)
    (any_published : bool) : R * IntakeCheck :=
  match epochs with
  | [] => (r, Unrecognised (if any_published then NoMatch else NothingPublished))
  | epoch :: rest =>
      let '(r1, members) := exec_members r (tag_key recipient_user_id epoch) in
      let '(r2, legacy) := exec_opt_string r1 (GET (legacy_tag_key recipient_user_id epoch)) in
      match members, legacy with
      | Some members, Some legacy =>
          let published := any_published || negb (length members =? 0)%nat || bool_decide (is_Some legacy) in
          if any_tag_matches presented (map as_bytes (members ++ option_list legacy)) then (r2, Vouched)
          else check_epochs r2 presented recipient_user_id rest published
      | _, _ => (r2, Unavailable)
      end
  end.

Definition check_intake_credential (r : R) (server_secret : option bytes) (intake_tag_sealed : bytes)
    (recipient_user_id : string) (now_unix : Z) : R * IntakeCheck :=
  if (length intake_tag_sealed =? 0)%nat then (r, Absent)
  else match server_secret with
       | None => (r, Unrecognised NoServerKey)
       | Some secret =>
           match open_sealed_token_bytes intake_tag_sealed secret with
           | None => (r, Unrecognised UnsealFailed)
           | Some presented =>
               if negb (length presented =? INTAKE_TAG_LEN)%nat then (r, Unrecognised WrongLength)
               else check_epochs r presented recipient_user_id
                      (acceptable_epochs (intake_epoch now_unix)) false
           end
       end.

Definition entry_of (account_user_id : string) (t : PublishableTag) : script_entry := {|
  se_set := tag_key account_user_id (pt_epoch t); se_legacy := legacy_tag_key account_user_id (pt_epoch t);
  se_tag := String.string_of_list_byte (pt_tag t); se_ttl := pt_ttl t |}.

Definition publish_tags (r : R) (account_user_id : string) (generation : Z) (tags : list PublishableTag)
    : R * result (Z * Z * PublishOutcome) unit :=
  match exec r (EVAL (publish_script expire_limit (intake_generation_key account_user_id) generation
                        MAX_TAGS_PER_EPOCH (map (entry_of account_user_id) tags))) with
  | (r', Some (RValue (RvArray [RvInt after; RvInt accepted; RvInt before]))) =>
      (r', Ok (after, accepted, publish_outcome before generation))
  | (r', _) => (r', Err tt)
  end.

Definition intake_state (r : R) (account_user_id : string) (now_unix : Z) : R * result (Z * bool) unit :=
  let epoch := intake_epoch now_unix in
  let '(r1, generation) := exec_opt_string r (GET (intake_generation_key account_user_id)) in
  let '(r2, tags) := exec_int r1 (SCARD (tag_key account_user_id epoch)) in
  let '(r3, legacy) := exec_bool r2 (EXISTS (legacy_tag_key account_user_id epoch)) in
  match generation, tags, legacy with
  | Some None, Some n, Some b => (r3, Ok (0, (0 <? n) || b))
  | Some (Some g), Some n, Some b =>
      match parse_u64 g with
      | Some v => if v <=? u32_max then (r3, Ok (v, (0 <? n) || b)) else (r3, Err tt)
      | None => (r3, Err tt)
      end
  | _, _, _ => (r3, Err tt)
  end.

End WithRedis.
(** ** What the script leaves in the sets *)

(** The members of a set; a key that is not a set has none. *)
Definition members_of (ks : keyspace) (k : string) : gset string := default ∅ (as_set ks k).

Lemma as_set_members ks k m : as_set ks k = Some m -> members_of ks k = m.
Proof. unfold members_of. by intros ->. Qed.

Lemma members_delete ks k j t : t ∈ members_of (delete k ks) j -> t ∈ members_of ks j.
Proof.
  unfold members_of, as_set. destruct (decide (j = k)) as [->|Hne].
  - rewrite lookup_delete_eq. cbn. set_solver.
  - by rewrite lookup_delete_ne.
Qed.

Lemma members_cleared ks k l : members_of (delete l (delete k ks)) k = ∅.
Proof.
  unfold members_of, as_set. destruct (decide (k = l)) as [->|Hne].
  - by rewrite lookup_delete_eq.
  - by rewrite lookup_delete_ne, lookup_delete_eq.
Qed.

Lemma members_set ks k m j : members_of (set_val ks k (VSet m)) j = if decide (j = k) then m else members_of ks j.
Proof.
  unfold members_of, as_set, set_val. case_decide as Hj; [subst; by rewrite lookup_insert_eq|].
  by rewrite lookup_insert_ne.
Qed.

Lemma members_expire ks k ttl j t : t ∈ members_of (doc_expire ks k ttl).1 j -> t ∈ members_of ks j.
Proof.
  unfold doc_expire. destruct (ks !! k) as [e|] eqn:Ek; [|done]. cbn. destruct (ttl <=? 0); [apply members_delete|].
  unfold members_of, as_set. destruct (decide (j = k)) as [->|Hne].
  - rewrite lookup_insert_eq, Ek. by destruct e as [[] ?].
  - by rewrite lookup_insert_ne.
Qed.

Lemma members_expire_keep ks k ttl j : 0 < ttl -> members_of (doc_expire ks k ttl).1 j = members_of ks j.
Proof.
  intros Ht. unfold doc_expire. destruct (ks !! k) as [e|] eqn:Ek; [|done]. cbn.
  destruct (Z.leb_spec ttl 0); [lia|]. unfold members_of, as_set. destruct (decide (j = k)) as [->|Hne].
  - rewrite lookup_insert_eq, Ek. by destruct e as [[] ?].
  - by rewrite lookup_insert_ne.
Qed.

Section Store.
Context (expire_limit cap : Z).

(** After a replacing publish that succeeded, a set it named holds only its tags. *)
Lemma store_replaces l cl acc ks ks' n k t :
  store_entries expire_limit true cap l cl acc ks = (ks', Some n) -> t ∈ members_of ks' k ->
  (exists e, e ∈ l /\ se_set e = k /\ se_tag e = t) \/
  (t ∈ members_of ks k /\ (k ∈ cl \/ forall e, e ∈ l -> se_set e <> k)).
Proof using Type.
  revert cl acc ks. induction l as [|e l IH]; intros cl acc ks E Ht; cbn [store_entries] in E.
  { injection E as <- _. right. split; [done|]. right. intros e He. by apply elem_of_nil in He. }
  set (clear := true && negb (bool_decide (se_set e ∈ cl))) in E.
  set (ks1 := if clear then _ else ks) in E. set (cl1 := if clear then _ else cl) in E.
  destruct (as_set ks1 (se_set e)) as [m|] eqn:Em; [|done].
  assert (forall j, t ∈ members_of ks1 j -> t ∈ members_of ks j /\ (j = se_set e -> j ∈ cl)) as H1.
  { intros j Hj. subst ks1 clear. cbn in Hj. case_bool_decide as Hc; cbn in Hj; [by split; [|intros ->]|].
    split; [by do 2 apply members_delete in Hj|]. intros ->. rewrite members_cleared in Hj. set_solver. }
  assert (forall j, j ∈ cl1 -> j ∈ cl \/ j = se_set e) as Hcl.
  { intros j. subst cl1. destruct clear; [intros [->|?]%elem_of_cons; auto|auto]. }
  assert (forall ks2, (forall j, t ∈ members_of ks2 j -> t ∈ members_of ks1 j \/ j = se_set e /\ t = se_tag e) ->
    (exists e0, e0 ∈ l /\ se_set e0 = k /\ se_tag e0 = t) \/
      (t ∈ members_of ks2 k /\ (k ∈ cl1 \/ (forall e0, e0 ∈ l -> se_set e0 <> k))) ->
    (exists e0, e0 ∈ e :: l /\ se_set e0 = k /\ se_tag e0 = t) \/
      (t ∈ members_of ks k /\ (k ∈ cl \/ (forall e0, e0 ∈ e :: l -> se_set e0 <> k)))) as Hstep.
  { intros ks2 H2 [(e0 & He & Hk & Htag)|[Hm Hc]]; [left; exists e0; split; [by right|done]|].
    destruct (H2 k Hm) as [Hm1|[-> ->]]; [|left; exists e; split; [by left|done]].
    destruct (H1 k Hm1) as [Hm0 Hself]. right. split; [done|].
    destruct (decide (k = se_set e)) as [Hk|Hk]; [left; by apply Hself|].
    destruct Hc as [Hc|Hc]; [destruct (Hcl k Hc) as [?|?]; [by left|done]|]. right.
    intros e0 [->|He]%elem_of_cons; [congruence|by apply Hc]. }
  destruct (_ || _).
  - destruct (expire_limit <? se_ttl e); [done|]. eapply Hstep; [|by eapply IH].
    intros j Hj%members_expire. rewrite members_set in Hj. case_decide as Hd; [|by left].
    apply elem_of_union in Hj as [?%elem_of_singleton|?]; [by right|left]. subst j.
    by rewrite (as_set_members _ _ _ Em).
  - eapply Hstep; [|by eapply IH]. intros j Hj. by left.
Qed.

(** A publish that accepted all its tags stored them. *)
Lemma store_count replace l cl acc ks ks' n :
  store_entries expire_limit replace cap l cl acc ks = (ks', Some n) -> n <= acc + Z.of_nat (length l).
Proof using Type.
  revert cl acc ks. induction l as [|e l IH]; intros cl acc ks E; cbn [store_entries] in E.
  { injection E as _ <-. cbn. lia. }
  cbn [length]. destruct (as_set _ (se_set e)) as [m|]; [|done]. destruct (_ || _).
  - destruct (_ <? _); [done|]. apply IH in E. lia.
  - apply IH in E. lia.
Qed.

Lemma store_accepts replace l cl acc ks ks' n :
  (forall e e', e ∈ l -> e' ∈ l -> se_legacy e <> se_set e') -> (forall e, e ∈ l -> 0 < se_ttl e) ->
  store_entries expire_limit replace cap l cl acc ks = (ks', Some n) ->
  n = acc + Z.of_nat (length l) ->
  (forall e, e ∈ l -> se_tag e ∈ members_of ks' (se_set e)) /\
  (forall k t, k ∈ cl -> (forall e, e ∈ l -> se_legacy e <> k) -> t ∈ members_of ks k -> t ∈ members_of ks' k) /\
  (replace = false -> forall k t, t ∈ members_of ks k -> t ∈ members_of ks' k).
Proof using Type.
  revert cl acc ks. induction l as [|e l IH]; intros cl acc ks Hleg Httl E Hn; cbn [store_entries] in E.
  { injection E as <- _. split_and!; [|done|done]. intros e He. by apply elem_of_nil in He. }
  set (clear := replace && negb (bool_decide (se_set e ∈ cl))) in E.
  set (ks1 := if clear then _ else ks) in E. set (cl1 := if clear then _ else cl) in E.
  destruct (as_set ks1 (se_set e)) as [m|] eqn:Em; [|done]. cbn [length] in Hn.
  destruct (_ || _).
  2: { apply store_count in E. lia. }
  destruct (expire_limit <? se_ttl e); [done|].
  assert (0 < se_ttl e) as Ht by (apply Httl; by left).
  set (ks2 := (doc_expire _ _ _).1) in E.
  destruct (IH cl1 (acc + 1) ks2) as (Hall & Hkeep & Hadd); [| |exact E|lia|].
  { intros e1 e2 H1 H2. apply Hleg; by right. } { intros e1 H1. apply Httl. by right. }
  assert (forall j t, t ∈ members_of ks1 j -> t ∈ members_of ks2 j) as H12.
  { intros j t Hj. subst ks2. rewrite members_expire_keep by done. rewrite members_set. case_decide; [|done].
    subst j. rewrite (as_set_members _ _ _ Em) in Hj. by apply elem_of_union_r. }
  assert (se_tag e ∈ members_of ks2 (se_set e)) as Hme.
  { subst ks2. rewrite members_expire_keep, members_set by done. case_decide; [|done]. by apply elem_of_union_l, elem_of_singleton. }
  assert (forall k t, k ∈ cl -> se_legacy e <> k -> t ∈ members_of ks k -> t ∈ members_of ks1 k) as H01.
  { intros k t Hk Hl Hm. subst ks1. destruct clear eqn:Ec; [|done]. subst clear.
    apply andb_true_iff in Ec as [_ Ec%negb_true_iff%bool_decide_eq_false].
    unfold members_of, as_set. rewrite !lookup_delete_ne; [done|by intros <-|done]. }
  split_and!.
  - intros e0 [->|He]%elem_of_cons; [|by apply Hall].
    destruct replace eqn:Er; [|by apply Hadd]. apply Hkeep; [|intros e1 H1; apply Hleg; [by right|by left]|done].
    subst cl1 clear. cbn. case_bool_decide; cbn; [done|by left].
  - intros k t Hk Hl Hm. apply Hkeep.
    + subst cl1. destruct clear; [by right|done].
    + intros e1 H1. apply Hl. by right.
    + apply H12, H01; [done|apply Hl; by left|done].
  - intros -> k t Hm. apply Hadd; [done|]. apply H12. subst ks1 clear. done.
Qed.

(** A key that is no set of the publish is as before, or deleted. *)
Lemma store_other replace l cl acc ks ks' o j :
  (forall e, e ∈ l -> se_set e <> j) ->
  store_entries expire_limit replace cap l cl acc ks = (ks', o) -> ks' !! j = ks !! j \/ ks' !! j = None.
Proof using Type.
  revert cl acc ks. induction l as [|e l IH]; intros cl acc ks Hj E; cbn [store_entries] in E.
  { injection E as <- _. by left. }
  set (clear := replace && negb (bool_decide (se_set e ∈ cl))) in E.
  set (ks1 := if clear then _ else ks) in E. set (cl1 := if clear then _ else cl) in E.
  assert (se_set e <> j) as Hne by (apply Hj; by left).
  assert (ks1 !! j = ks !! j \/ ks1 !! j = None) as H1.
  { subst ks1. destruct clear; [|by left]. destruct (decide (j = se_legacy e)) as [->|Hl].
    - right. by rewrite lookup_delete_eq.
    - left. by rewrite !lookup_delete_ne. }
  assert (forall ks2 : keyspace, ks2 !! j = ks1 !! j -> ks' !! j = ks2 !! j \/ ks' !! j = None ->
    ks' !! j = ks !! j \/ ks' !! j = None) as Hend by (intros ks2 E2 [E3|?]; [|by right]; rewrite E3, E2; tauto).
  assert (forall e0, e0 ∈ l -> se_set e0 <> j) as Hrest by (intros e0 He; apply Hj; by right).
  destruct (as_set ks1 (se_set e)) as [m|]; [|injection E as <- _; done]. destruct (_ || _).
  - set (ks2 := set_val ks1 _ _) in E.
    assert (ks2 !! j = ks1 !! j) as H2 by (subst ks2; unfold set_val; by rewrite lookup_insert_ne).
    destruct (expire_limit <? se_ttl e).
    { injection E as <- _. apply (Hend ks2 H2). by left. }
    apply (Hend (doc_expire ks2 (se_set e) (se_ttl e)).1); [|by eapply IH]. rewrite <- H2.
    unfold doc_expire. destruct (ks2 !! se_set e); cbn; [|done].
    by destruct (_ <=? 0); [rewrite lookup_delete_ne|rewrite lookup_insert_ne].
  - apply (Hend ks1); [done|by eapply IH].
Qed.

Lemma store_legacy l cl acc ks ks' n e :
  (forall e e', e ∈ l -> e' ∈ l -> se_legacy e <> se_set e') ->
  (forall e e', e ∈ l -> e' ∈ l -> se_set e = se_set e' -> se_legacy e = se_legacy e') ->
  store_entries expire_limit true cap l cl acc ks = (ks', Some n) ->
  e ∈ l -> se_set e ∉ cl \/ ks !! se_legacy e = None -> ks' !! se_legacy e = None.
Proof using Type.
  revert cl acc ks. induction l as [|e0 l IH]; intros cl acc ks Hleg Hsame E He Hcl; [by apply elem_of_nil in He|].
  assert (forall e', e' ∈ e0 :: l -> se_set e' <> se_legacy e) as Hne.
  { intros e' He' Heq. by apply (Hleg e e' He He'). }
  destruct (decide (ks !! se_legacy e = None)) as [Hn|Hn].
  { destruct (store_other _ _ _ _ _ _ _ _ Hne E) as [->|?]; done. }
  destruct Hcl as [Hcl|?]; [|done]. cbn [store_entries] in E.
  set (clear := true && negb (bool_decide (se_set e0 ∈ cl))) in E.
  set (ks1 := if clear then _ else ks) in E. set (cl1 := if clear then _ else cl) in E.
  destruct (decide (se_set e = se_set e0)) as [Heq|Hdiff].
  - assert (ks1 !! se_legacy e = None) as H1.
    { subst ks1 clear. rewrite <- Heq, bool_decide_false by done. cbn.
      rewrite (Hsame e e0 He ltac:(by left) Heq). by rewrite lookup_delete_eq. }
    assert (forall (ks2 : keyspace) acc2, ks2 !! se_legacy e = None ->
      store_entries expire_limit true cap l cl1 acc2 ks2 = (ks', Some n) -> ks' !! se_legacy e = None) as Hend.
    { intros ks2 acc2 H2 E2. destruct (store_other _ _ _ _ _ _ _ (se_legacy e)
        (fun e' H' => Hne e' ltac:(by right)) E2) as [->|?]; done. }
    destruct (as_set ks1 (se_set e0)) as [m|]; [|done]. destruct (_ || _); [|by eapply Hend].
    destruct (expire_limit <? se_ttl e0); [done|]. eapply Hend; [|exact E].
    assert (se_set e0 <> se_legacy e) as Hne0 by (apply Hne; by left).
    unfold doc_expire, set_val. rewrite lookup_insert_eq. cbn.
    by destruct (_ <=? 0); [rewrite lookup_delete_ne, lookup_insert_ne|rewrite lookup_insert_ne, lookup_insert_ne].
  - assert (e ∈ l) as He' by (by apply elem_of_cons in He as [->|?]).
    assert (se_set e ∉ cl1) as Hcl1 by (subst cl1; destruct clear; [|done]; intros [?|?]%elem_of_cons; done).
    destruct (as_set ks1 (se_set e0)) as [m|]; [|done].
    destruct (_ || _); [destruct (expire_limit <? se_ttl e0); [done|]|];
      (eapply IH; [| |exact E|exact He'|by left]); intros; try (apply Hleg; by right); apply Hsame; by right || done.
Qed.

End Store.
(** ** The check and the publish *)

Lemma any_tag_matches_elem p l : any_tag_matches p l = true <-> length p = INTAKE_TAG_LEN /\ p ∈ l.
Proof.
  unfold any_tag_matches. assert (forall b, fold_left (fun f c => tag_matches p c || f) l b = true <->
    b = true \/ length p = INTAKE_TAG_LEN /\ p ∈ l) as Hg.
  { induction l as [|c l IH]; intros b; cbn.
    { split; [by left|]. intros [?|[_ Hp]]; [done|by apply elem_of_nil in Hp]. }
    rewrite IH, orb_true_iff, elem_of_cons. unfold tag_matches.
    destruct (Nat.eqb_spec (length p) INTAKE_TAG_LEN) as [Hl|Hl]; cbn.
    - destruct (Nat.eqb_spec (length c) INTAKE_TAG_LEN) as [Hc|Hc]; cbn.
      + rewrite bool_decide_eq_true. tauto.
      + assert (p <> c) by congruence. split; [intros [[?|?]|[? ?]]; [done|by left|right; by auto]|]. intros [?|[? [?|?]]]; [by left; right|done|by right].
    - split; [intros [[?|?]|[? _]]; [done|by left|done]|]. intros [?|[? _]]; [by left; right|done]. }
  rewrite Hg. split; [intros [?|?]; done|by right].
Qed.

Section Checks.
Context {R : Type} `{RedisLaws R}.
Context (sha256 : bytes -> bytes) (hex_encode : bytes -> string).
Context (open_sealed_token_bytes : bytes -> bytes -> option bytes) (expire_limit : Z).
Context (Hcolon : forall b, str_all (fun a => negb (Ascii.eqb a ":")) (hex_encode b) = true).

#[local] Abbreviation tkey := (tag_key sha256 hex_encode).
#[local] Abbreviation lkey := (legacy_tag_key sha256 hex_encode).
#[local] Abbreviation check := (check_intake_credential sha256 hex_encode open_sealed_token_bytes).

(** A tag that an epoch of the account accepts. *)
Definition accepted (ks : keyspace) (user : string) (epoch : Z) (tag : bytes) : Prop :=
  exists s, as_bytes s = tag /\
    (s ∈ members_of ks (tkey user epoch) \/ option_map e_val (ks !! lkey user epoch) = Some (VStr s)).

Lemma members_keys r k r' o : exec_members r k = (r', o) ->
  keys r' = keys r /\ forall l, o = Some l -> forall s, s ∈ l <-> s ∈ members_of (keys r) k.
Proof using Type.
  unfold exec_members. destruct (exec r (SMEMBERS k)) as [r1 a] eqn:E. intros E2.
  assert (keys r1 = keys r) as Hk.
  { eapply exec_read_keys; [exact E|]. intros ks ks' rep Hd. cbn in Hd.
    by destruct (as_set ks k); simplify_eq. }
  assert (r' = r1) as -> by (by destruct a as [[]|]; simplify_eq). split; [done|]. intros l ->.
  destruct a as [[]|]; simplify_eq. destruct (exec_ok _ _ _ _ E) as (doc & Hd & l0 & l1 & -> & [= <-] & Hp).
  cbn in Hd. destruct (as_set (keys r) k) as [m|] eqn:Em; [|done]. injection Hd as _ <-.
  intros s. rewrite Hp, elem_of_elements. by rewrite (as_set_members _ _ _ Em).
Qed.

Lemma get_keys r k r' o : exec_opt_string r (GET k) = (r', o) ->
  keys r' = keys r /\ forall s, o = Some (Some s) -> option_map e_val (keys r !! k) = Some (VStr s).
Proof using Type.
  intros E. destruct o as [o|].
  - destruct (exec_get_ok _ _ _ _ E) as [Hk Ho]. split; [done|]. intros s [= ->].
    destruct (keys r !! k) as [e|]; [|done]. destruct Ho as (s' & Hv & [= ->]). cbn. by rewrite Hv.
  - split; [|done]. unfold exec_opt_string in E. destruct (exec r (GET k)) as [r1 a] eqn:Ex.
    assert (r' = r1) as -> by (by destruct a as [[]|]; simplify_eq).
    eapply exec_read_keys; [exact Ex|]. intros ks ks' rep Hd. cbn in Hd.
    by destruct (ks !! k) as [[[] ?]|]; simplify_eq.
Qed.

Lemma check_epochs_sound r p user eps b r' res :
  check_epochs sha256 hex_encode r p user eps b = (r', res) ->
  keys r' = keys r /\ (res = Vouched -> length p = INTAKE_TAG_LEN /\
    exists ep, ep ∈ eps /\ accepted (keys r) user ep p).
Proof using Type.
  revert r b. induction eps as [|ep eps IH]; intros r b E; cbn in E.
  { injection E as <- <-. split; [done|]. by destruct b. }
  destruct (exec_members r (tkey user ep)) as [r1 ms] eqn:Em.
  destruct (exec_opt_string r1 (GET (lkey user ep))) as [r2 lg] eqn:Eg.
  destruct (members_keys _ _ _ _ Em) as [Hk1 Hms]. destruct (get_keys _ _ _ _ Eg) as [Hk2 Hlg].
  destruct ms as [ms|]; [|injection E as <- <-; split; [congruence|done]].
  destruct lg as [lg|]; [|injection E as <- <-; split; [congruence|done]].
  destruct (any_tag_matches p _) eqn:Ea.
  - injection E as <- <-. split; [congruence|]. intros _. apply any_tag_matches_elem in Ea as [Hl Hin].
    split; [done|]. exists ep. split; [by left|]. apply list_elem_of_fmap in Hin as (s & -> & Hs).
    exists s. split; [done|]. apply elem_of_app in Hs as [Hs|Hs]; [left; by apply (Hms ms eq_refl)|right].
    rewrite <- Hk1. apply Hlg. destruct lg as [x|]; cbn in Hs; [|by apply elem_of_nil in Hs].
    by apply list_elem_of_singleton in Hs as ->.
  - destruct (IH _ _ E) as [Hk Hv]. split; [congruence|]. intros Hr. destruct (Hv Hr) as (Hl & ep' & Hep & Hac).
    split; [done|]. exists ep'. split; [by right|]. by rewrite Hk2, Hk1 in Hac.
Qed.

Lemma check_sound r secret sealed user now r' :
  check r secret sealed user now = (r', Vouched) ->
  exists s p ep, secret = Some s /\ open_sealed_token_bytes sealed s = Some p /\ length p = INTAKE_TAG_LEN /\
    ep ∈ acceptable_epochs (intake_epoch now) /\ accepted (keys r) user ep p.
Proof using Type.
  unfold check_intake_credential. destruct (_ =? 0)%nat; [done|]. destruct secret as [s|]; [|done].
  destruct (open_sealed_token_bytes sealed s) as [p|] eqn:Eo; [|done].
  destruct (Nat.eqb_spec (length p) INTAKE_TAG_LEN); [|done]. cbn [negb]. intros E.
  destruct (check_epochs_sound _ _ _ _ _ _ _ E) as [_ Hv]. destruct Hv as (_ & ep & Hep & Ha); [done|].
  by exists s, p, ep.
Qed.

(** The check only reads. *)
Lemma check_keys r secret sealed user now r' res : check r secret sealed user now = (r', res) -> keys r' = keys r.
Proof using Type.
  unfold check_intake_credential. destruct (_ =? 0)%nat; [by intros [= <- _]|].
  destruct secret as [s|]; [|by intros [= <- _]].
  destruct (open_sealed_token_bytes sealed s) as [p|]; [|by intros [= <- _]].
  destruct (negb _); [by intros [= <- _]|]. intros E. by apply check_epochs_sound in E as [? _].
Qed.

(** A credential is honoured only if it was issued. With Redis failing or losing
    answers, an envelope that owes no token carries a sealed tag of sixteen bytes that
    the store holds for this recipient in the epoch of the check or the one before; no
    other outcome frees the envelope of its token. *)
Theorem vouched_was_published r secret sealed user now r' res :
  check r secret sealed user now = (r', res) -> owes_token res = false ->
  exists s p ep, secret = Some s /\ open_sealed_token_bytes sealed s = Some p /\
    length p = INTAKE_TAG_LEN /\ accepted (keys r) user ep p /\
    (ep = now / INTAKE_EPOCH_SECONDS \/ ep = now / INTAKE_EPOCH_SECONDS - 1).
Proof using Type.
  intros E Ho. unfold owes_token in Ho. apply negb_false_iff, bool_decide_eq_true in Ho as ->.
  destruct (check_sound _ _ _ _ _ _ E) as (s & p & ep & Hs & Hp & Hl & Hep & Ha).
  exists s, p, ep. split_and!; try done. unfold acceptable_epochs, intake_epoch in Hep.
  apply elem_of_cons in Hep as [?|Hep]; [by left|right]. destruct (_ <=? _).
  - by apply list_elem_of_singleton in Hep.
  - by apply elem_of_nil in Hep.
Qed.

(** *** Publishing *)

#[local] Abbreviation gkey := (intake_generation_key sha256 hex_encode).

Lemma legacy_not_set user ep ep' : lkey user ep <> tkey user ep'.
Proof using Hcolon.
  unfold legacy_tag_key, tag_key. intros E.
  change ("intake:v2:" +:+ account_epoch_digest sha256 hex_encode user ep')
    with ("intake:" +:+ ("v2:" +:+ account_epoch_digest sha256 hex_encode user ep')) in E.
  apply str_app_cancel in E as E'.
  pose proof (Hcolon (sha256 (account_name user ++ as_bytes "|" ++ be_bytes 8 ep))) as Hc.
  unfold account_epoch_digest in E'. by rewrite E' in Hc.
Qed.

Lemma gen_not_tag user user' ep : gkey user <> tkey user' ep /\ gkey user <> lkey user' ep.
Proof using Hcolon.
  split; [discriminate|]. unfold legacy_tag_key, intake_generation_key. intros E.
  change ("intake:gen:" +:+ ?x) with ("intake:" +:+ ("gen:" +:+ x)) in E.
  apply str_app_cancel in E as E'. symmetry in E'.
  pose proof (Hcolon (sha256 (account_name user' ++ as_bytes "|" ++ be_bytes 8 ep))) as Hc.
  unfold account_epoch_digest in E'. by rewrite E' in Hc.
Qed.

(** What an answered publish did. *)
Lemma publish_ok r user gen tags r' after n oc :
  publish_tags sha256 hex_encode expire_limit r user gen tags = (r', Ok (after, n, oc)) ->
  exists before, counter (keys r) (gkey user) = Some before /\ oc = publish_outcome before gen /\
    after = Z.max before gen /\
    (gen < before -> keys r' = keys r /\ n = 0) /\
    (before <= gen -> exists ks1, (forall j, j <> gkey user -> ks1 !! j = keys r !! j) /\
       store_entries expire_limit (before <? gen) MAX_TAGS_PER_EPOCH (map (entry_of sha256 hex_encode user) tags)
         [] 0 ks1 = (keys r', Some n)).
Proof using Type.
  unfold publish_tags. set (c := EVAL _).
  destruct (exec r c) as [r1 [[| | | | | | | |v|]|]] eqn:E; try done.
  destruct v as [| | | |[|[] [|[] [|[] []]]]|]; try done. intros [= <- <- <- <-].
  pose proof (exec_exact _ _ _ _ E eq_refl) as Hd. cbn in Hd. unfold publish_script in Hd.
  destruct (counter (keys r) (gkey user)) as [before|]; [|done]. exists before. split; [done|].
  destruct (Z.ltb_spec gen before) as [Hlt|Hge].
  - injection Hd as Hk <- <- <-. split_and!; [done|lia|by split|lia].
  - set (ks1 := if before <? gen then _ else _) in Hd.
    destruct (store_entries _ _ _ _ _ _ ks1) as [ks2 [m|]] eqn:Es; [|done].
    injection Hd as Hk <- <- <-. subst ks2. split_and!; [done|done|lia|]. intros _. exists ks1.
    split; [|done]. intros j Hj. subst ks1. destruct (before <? gen); [by rewrite lookup_insert_ne|].
    destruct (0 <? gen); [|done]. unfold persist. destruct (keys r !! gkey user); [by rewrite lookup_insert_ne|done].
Qed.

(** C20: A rotation takes effect at once in the epochs it publishes. After an answered
    publish of a higher generation, in a day whose accepted epochs were all in the
    publish, the only tags that free an envelope of its token are those of the
    publish; an answered publish of a lower generation changes nothing. *)
Theorem rotation_revokes r user gen tags r' after n oc before :
  publish_tags sha256 hex_encode expire_limit r user gen tags = (r', Ok (after, n, oc)) ->
  counter (keys r) (gkey user) = Some before ->
  (gen < before -> keys r' = keys r) /\
  (before < gen -> forall secret sealed now r2,
     (forall ep, ep ∈ acceptable_epochs (intake_epoch now) -> exists t, t ∈ tags /\ pt_epoch t = ep) ->
     check r' (Some secret) sealed user now = (r2, Vouched) ->
     exists t, t ∈ tags /\ open_sealed_token_bytes sealed secret = Some (pt_tag t)).
Proof using Hcolon.
  intros E Hb. destruct (publish_ok _ _ _ _ _ _ _ _ E) as (b & Hb' & _ & _ & Hlo & Hhi).
  rewrite Hb in Hb'. injection Hb' as <-. split; [intros Hlt; by apply Hlo|].
  intros Hlt secret sealed now r2 Hcov Hc. destruct (Hhi ltac:(lia)) as (ks1 & Hks1 & Es).
  assert ((before <? gen) = true) as Hr by lia. rewrite Hr in Es.
  destruct (check_sound _ _ _ _ _ _ Hc) as (s & p & ep & [= <-] & Hp & _ & Hep & (x & Hx & Hin)).
  destruct (Hcov ep Hep) as (t0 & Ht0 & Hep0).
  assert (entry_of sha256 hex_encode user t0 ∈ map (entry_of sha256 hex_encode user) tags) as Hent
    by by apply list_elem_of_fmap_2.
  assert (forall e e', e ∈ map (entry_of sha256 hex_encode user) tags -> e' ∈ map (entry_of sha256 hex_encode user) tags ->
    se_legacy e <> se_set e' /\ (se_set e = se_set e' -> se_legacy e = se_legacy e')) as Hkeys.
  { intros e e' (t & -> & _)%list_elem_of_fmap (t' & -> & _)%list_elem_of_fmap. cbn. split; [apply legacy_not_set|].
    unfold tag_key, legacy_tag_key. intros Eq. f_equal. by apply str_app_cancel in Eq. }
  destruct Hin as [Hin|Hleg].
  - rewrite <- Hep0 in Hin. destruct (store_replaces _ _ _ _ _ _ _ _ _ _ Es Hin) as [(e & He & _ & Htag)|[_ [Hbad|Hbad]]].
    + apply list_elem_of_fmap in He as (t & -> & Ht). exists t. split; [done|]. rewrite Hp. f_equal.
      cbn in Htag. rewrite <- Hx, <- Htag. apply String.list_byte_of_string_of_list_byte.
    + by apply elem_of_nil in Hbad.
    + by apply Hbad in Hent.
  - exfalso. assert (keys r' !! lkey user ep = None) as Hn; [|by rewrite Hn in Hleg].
    rewrite <- Hep0. apply (store_legacy _ _ _ _ _ _ _ _ _ (fun e e' H1 H2 => proj1 (Hkeys e e' H1 H2))
      (fun e e' H1 H2 => proj2 (Hkeys e e' H1 H2)) Es Hent). left. by intros ?%elem_of_nil.
Qed.

Context (Up : R -> Prop) (Hup : available Up).

(** The keys of an epoch hold what they should. *)
Definition typed_epoch (ks : keyspace) (user : string) (ep : Z) : Prop :=
  is_Some (as_set ks (tkey user ep)) /\
  match ks !! lkey user ep with None | Some (Entry (VStr _) _) => True | _ => False end.

Lemma check_epochs_vouched r p user eps b :
  Up r -> (forall ep, ep ∈ eps -> typed_epoch (keys r) user ep) -> length p = INTAKE_TAG_LEN ->
  (exists ep s, ep ∈ eps /\ as_bytes s = p /\ s ∈ members_of (keys r) (tkey user ep)) ->
  (check_epochs sha256 hex_encode r p user eps b).2 = Vouched.
Proof using Hup.
  revert r b. induction eps as [|ep eps IH]; intros r b Hr Hty Hlen (ep0 & s & Hep & Hs & Hin); [by apply elem_of_nil in Hep|].
  cbn. destruct (Hty ep ltac:(by left)) as [[m Hm] Hl].
  assert (exists r1 ms, exec_members r (tkey user ep) = (r1, Some ms) /\ Up r1) as (r1 & ms & E1 & Hr1).
  { unfold exec_members. set (c := SMEMBERS _).
    destruct (available_exec Up Hup r c (keys r) (RList (elements m)) Hr) as (r1 & rep & -> & Ha & _ & Hr1);
      [cbn; by rewrite Hm|]. destruct Ha as (l0 & l & _ & -> & _). eauto. }
  destruct (members_keys _ _ _ _ E1) as [Hk1 Hms]. rewrite E1.
  assert (exists r2 lg, exec_opt_string r1 (GET (lkey user ep)) = (r2, Some lg) /\ Up r2) as (r2 & lg & E2 & Hr2).
  { unfold exec_opt_string. set (c := GET _).
    assert (exists rep, cmd_doc c (keys r1) = Some (keys r1, rep) /\ (rep = RNil \/ exists x, rep = RBulk x)) as (rep & Hd & Hrep).
    { cbn. rewrite Hk1. destruct (keys r !! lkey user ep) as [[[] ?]|]; try done; eauto. }
    destruct (available_exact Up Hup r1 c _ _ Hr1 eq_refl Hd) as (r2 & -> & _ & Hr2).
    destruct Hrep as [->|[x ->]]; eauto. }
  destruct (get_keys _ _ _ _ E2) as [Hk2 _]. rewrite E2.
  destruct (any_tag_matches p _) eqn:Ea; [done|]. apply IH; [done| |done|].
  - intros ep1 H1. rewrite Hk2, Hk1. apply Hty. by right.
  - exists ep0, s. rewrite Hk2, Hk1. split_and!; try done.
    apply elem_of_cons in Hep as [->|?]; [|done]. exfalso.
    apply not_true_iff_false in Ea. apply Ea, any_tag_matches_elem. split; [done|].
    apply list_elem_of_fmap. exists s. split; [done|]. apply elem_of_app. left. by apply (Hms ms eq_refl).
Qed.

(** What is published is honoured. If an answered publish accepted all its tags and
    Redis goes on answering, an envelope that carries one of them under the server's
    seal owes no token in the tag's epoch and in the one after it. *)
Theorem published_is_vouched r user gen tags r' after n oc t secret sealed now :
  publish_tags sha256 hex_encode expire_limit r user gen tags = (r', Ok (after, n, oc)) ->
  n = Z.of_nat (length tags) -> tags <> [] -> (forall u, u ∈ tags -> 0 < pt_ttl u) -> t ∈ tags ->
  length (pt_tag t) = INTAKE_TAG_LEN -> 0 <= pt_epoch t ->
  intake_epoch now = pt_epoch t \/ intake_epoch now = pt_epoch t + 1 ->
  Up r' -> (forall ep, ep ∈ acceptable_epochs (intake_epoch now) -> typed_epoch (keys r') user ep) ->
  sealed <> [] -> open_sealed_token_bytes sealed secret = Some (pt_tag t) ->
  owes_token (check r' (Some secret) sealed user now).2 = false.
Proof using Hcolon Hup.
  intros E Hn Hne Httl Ht Hlen Hpos Hnow Hr Hty Hse Hop.
  destruct (publish_ok _ _ _ _ _ _ _ _ E) as (b & _ & _ & _ & Hlo & Hhi).
  destruct (Z.lt_ge_cases gen b) as [Hlt|Hge].
  { destruct (Hlo Hlt) as [_ ->]. destruct tags; [done|]. cbn in Hn. lia. }
  destruct (Hhi Hge) as (ks1 & _ & Es).
  eapply store_accepts in Es as [Hall _]; [| | |rewrite length_map; lia].
  2: { intros e e' (u & -> & _)%list_elem_of_fmap (u' & -> & _)%list_elem_of_fmap. apply legacy_not_set. }
  2: { intros e (u & -> & Hu)%list_elem_of_fmap. by apply Httl. }
  unfold owes_token, check_intake_credential. destruct (Nat.eqb_spec (length sealed) 0); [by destruct sealed|].
  rewrite Hop, Hlen. cbn [negb Nat.eqb INTAKE_TAG_LEN]. rewrite check_epochs_vouched; [by rewrite bool_decide_true|done..|].
  exists (pt_epoch t), (String.string_of_list_byte (pt_tag t)). split_and!.
  - unfold acceptable_epochs. destruct Hnow as [->| ->]; [by left|]. right.
    unfold INTAKE_TAG_GRACE_EPOCHS. destruct (Z.leb_spec 1 (pt_epoch t + 1)); [|lia].
    apply list_elem_of_singleton. lia.
  - apply String.list_byte_of_string_of_list_byte.
  - apply (Hall (entry_of sha256 hex_encode user t)). by apply list_elem_of_fmap_2.
Qed.

End Checks.
(** ** Concrete runs *)

Definition hex_digit (n : N) : ascii := ascii_of_N (if (n <? 10)%N then 48 + n else 87 + n).

Fixpoint sample_hex (l : bytes) : string :=
  match l with
  | [] => ""
  | b :: rest => String (hex_digit (Byte.to_N b / 16)) (String (hex_digit (Byte.to_N b mod 16)) (sample_hex rest))
  end.

Lemma sample_hex_colon b : str_all (fun a => negb (Ascii.eqb a ":")) (sample_hex b) = true.
Proof. induction b as [|x b IH]; [done|]. cbn [sample_hex str_all]. rewrite IH. by destruct x. Qed.

Definition day : Z := INTAKE_EPOCH_SECONDS.
Definition sample_limit : Z := i64_max / 1000.
Definition tag_a : bytes := repeat Byte.x41 16.
Definition tag_b : bytes := repeat Byte.x42 16.
Definition sample_tag (tag : bytes) (ep : Z) : PublishableTag := {| pt_epoch := ep; pt_tag := tag; pt_ttl := 2 * day |}.

#[local] Abbreviation sample_publish := (publish_tags (H := mem_redis) (fun b => b) sample_hex sample_limit).
#[local] Abbreviation sample_check :=
  (check_intake_credential (H := mem_redis) (fun b => b) sample_hex (fun sealed _ => Some sealed)).

Lemma vouched_was_published_witness :
  let r := (sample_publish (Mem ∅ true) "alice" 1 [sample_tag tag_a 5]).1 in
  exists ep, accepted (fun b => b) sample_hex (keys r) "alice" ep tag_a /\ (ep = 5 \/ ep = 4).
Proof.
  intros r. destruct (vouched_was_published (fun b => b) sample_hex (fun sealed _ => Some sealed) r (Some []) tag_a "alice"
    (5 * day) (sample_check r (Some []) tag_a "alice" (5 * day)).1 Vouched)
    as (s & p & ep & _ & [= <-] & _ & Ha & Hep).
  - vm_compute. reflexivity.
  - reflexivity.
  - exists ep. split; [exact Ha|exact Hep].
Defined.

Lemma rotation_revokes_witness :
  let r1 := (sample_publish (Mem ∅ true) "alice" 1 [sample_tag tag_a 4; sample_tag tag_a 5]).1 in
  let r2 := (sample_publish r1 "alice" 2 [sample_tag tag_b 4; sample_tag tag_b 5]).1 in
  (sample_check r2 (Some []) tag_a "alice" (5 * day)).2 <> Vouched.
Proof.
  intros r1 r2. intros Hv.
  destruct (rotation_revokes (fun b => b) sample_hex (fun sealed _ => Some sealed) sample_limit sample_hex_colon
    r1 "alice" 2 [sample_tag tag_b 4; sample_tag tag_b 5] r2 2 2 Rotated 1) as [_ Hrot].
  - vm_compute. reflexivity.
  - vm_compute. reflexivity.
  - destruct (Hrot eq_refl [] tag_a (5 * day) (sample_check r2 (Some []) tag_a "alice" (5 * day)).1) as (t & Ht & Hop).
    + intros ep Hep. vm_compute in Hep.
      apply elem_of_cons in Hep as [->|Hep]; [exists (sample_tag tag_b 5); split; [by right; left|reflexivity]|].
      apply list_elem_of_singleton in Hep as ->. exists (sample_tag tag_b 4). split; [by left|reflexivity].
    + rewrite <- Hv. by destruct (sample_check r2 (Some []) tag_a "alice" (5 * day)).
    + by apply elem_of_cons in Ht as [->|Ht]; [|apply list_elem_of_singleton in Ht as ->].
Defined.

Lemma published_is_vouched_witness :
  let r := (sample_publish (Mem ∅ true) "alice" 1 [sample_tag tag_a 5]).1 in
  owes_token (sample_check r (Some []) tag_a "alice" (6 * day)).2 = false.
Proof.
  intros r. apply (published_is_vouched (fun b => b) sample_hex (fun sealed _ => Some sealed) sample_limit sample_hex_colon
    (fun r : mem => mem_up r = true) mem_available (Mem ∅ true) "alice" 1 [sample_tag tag_a 5] r 1 1 FirstGeneration
    (sample_tag tag_a 5)).
  - vm_compute. reflexivity.
  - reflexivity.
  - discriminate.
  - intros u Hu. apply list_elem_of_singleton in Hu as ->. by vm_compute.
  - by left.
  - reflexivity.
  - by vm_compute.
  - right. reflexivity.
  - reflexivity.
  - intros ep Hep. vm_compute in Hep.
    apply elem_of_cons in Hep as [->|Hep]; [|apply list_elem_of_singleton in Hep as ->];
      (split; [apply (bool_decide_unpack _)|]; vm_compute; exact I).
  - discriminate.
  - reflexivity.
Defined.

(** A rotation leaves the day before accepted. An account publishes generation 1 for
    day 5; on day 6 it rotates to generation 2, publishing from day 6 on; a tag of the
    former key for day 5 still frees an envelope of its token on day 6. *)
Theorem rotation_keeps_grace :
  let r1 := (sample_publish (Mem ∅ true) "alice" 1 (publishable_tags [(5, tag_a)] (5 * day))).1 in
  let '(r2, res) := sample_publish r1 "alice" 2 (publishable_tags [(6, tag_b); (7, tag_b)] (6 * day)) in
  res = Ok (2, 2, Rotated) /\ (sample_check r2 (Some []) tag_a "alice" (6 * day)).2 = Vouched.
Proof. vm_compute. split; reflexivity. Qed.

(** A publish that fails may have stored. A tag for an epoch so far ahead that the
    server refuses its time to live is answered as an error, and the tag stays in the
    store without a time to live. *)
Theorem failed_publish_stores :
  let '(r, res) := sample_publish (Mem ∅ true) "alice" 0 (publishable_tags [(2 ^ 40, tag_a)] 0) in
  res = Err tt /\
  keys r !! tag_key (fun b => b) sample_hex "alice" (2 ^ 40)
    = Some (Entry (VSet {[String.string_of_list_byte tag_a]}) None).
Proof. vm_compute. split; reflexivity. Qed.

End Intake.
