(* ===== verification/Mailbox.v ===== *)
(** * Mailboxes

    Models the mailbox half of crates/construct-queue: delivery.rs (writing,
    reading, trimming, purging and deleting the Redis streams of an account),
    gap.rs (the report that a mailbox lost entries), dedup.rs (the idempotency key
    of a delivery) and, of lib.rs, the fan-out of an envelope and the merged read
    of a device's and an account's stream. A mailbox is a stream of RedisStore.v;
    the clock of the server and how much it evicts beyond MAXLEN are inputs of
    every write. MessagePack is third-party code, the class [MsgPack]; SHA-256
    and hex are parameters. *)

From S2P Require Import Prelude Text RedisStore.

(** ** Envelopes *)

Inductive MessageType :=
| DirectMessage | ControlMessage | MLSMessage | MLSKeyPackage | MLSWelcome | MLSCommit
| MLSProposal | FederatedMessage | SealedSender | Receipt | SenderSync.

Record MessageEnvelope := {
  message_id : string;
  sender_id : string;
  recipient_id : string;
  timestamp : Z;
  message_type : MessageType;
  ephemeral_public_key : option string;
  message_number : option Z;
  mls_payload : option string;
  group_id : option string;
  encrypted_payload : bytes;
  content_hash : string;
  crypto_suite_id : Z;
  origin_server : option string;
  federated : bool;
  server_signature : option string;
  is_sealed_sender : bool;
  sealed_inner : option bytes;
  max_queue_len : option Z;
  proto_content_type : option Z;
  recipient_device : option string;
}.

#[global] Instance MessageType_eq_dec : EqDecision MessageType.
Proof. solve_decision. Defined.
#[global] Instance MessageEnvelope_eq_dec : EqDecision MessageEnvelope.
Proof. solve_decision. Defined.

(** [rmp_serde::encode::to_vec_named] and [rmp_serde::from_slice]. *)
Class MsgPack := {
  to_vec_named : MessageEnvelope -> string;
  from_slice : string -> option MessageEnvelope;
}.

Module Mailbox.
Import Redis.

Record Config := {
  delivery_queue_prefix : string;
  queue_maxlen_standard : Z;
  mailbox_user_write : bool;
  session_ttl_days : Z;
  user_key_prefix : string;
}.

Definition SECONDS_PER_DAY : Z := 86400.
Definition PUSH_OUTSTANDING_TTL_SECONDS : Z := 600.
Definition push_outstanding_key (device_id : string) : string := "push:outstanding:" +:+ device_id.

(** ** Stream ids *)

Definition sid_compare (a b : sid) : comparison :=
  match a.1 ?= b.1 with Eq => a.2 ?= b.2 | c => c end.

(** [stream_id] of gap.rs; the local [parse] of the two comparisons is the same. *)
Definition stream_id (id : string) : option sid :=
  let '(ms, seq) := match split_once "-" id with Some p => p | None => (id, "0") end in
  let* m := parse_u64 ms in
  let* q := parse_u64 seq in
  Some (m, q).

Definition compare_stream_id_watermarks (a b : string) : comparison :=
  match stream_id a, stream_id b with
  | Some x, Some y => sid_compare x y
  | _, _ => String.compare a b
  end.

Definition is_valid_stream_id (id : string) : bool :=
  if String.eqb id "0" || String.eqb id "$" || String.eqb id "*" then true
  else match split_char "-" id with
       | [a; b] => bool_decide (is_Some (parse_u64 a)) && bool_decide (is_Some (parse_u64 b))
       | _ => false
       end.

Definition normalize_stream_id (id : string) : option string :=
  if is_valid_stream_id id then Some id
  else if bool_decide (is_Some (parse_u64 id)) then Some (id +:+ "-0")
  else None.

(** ** Gaps *)

Record MailboxGap := { after_cursor : string; resumes_at : string }.

Record StreamInfo := {
  max_deleted : option string;
  first_entry : option string;
  last_generated : option string;
  si_length : Z;
  entries_added : Z;
}.

Definition default_info : StreamInfo := {|
  max_deleted := None; first_entry := None; last_generated := None;
  si_length := 0; entries_added := 0 |}.

Definition text (v : rvalue) : option string :=
  match v with
  | RvBulkString s => from_utf8 (as_bytes s)
  | RvSimpleString s => Some s
  | _ => None
  end.

Definition int (v : rvalue) : Z :=
  match v with
  | RvInt n => Z.max n 0
  | other => default 0 (text other ≫= parse_u64)
  end.

Fixpoint pairs_of (l : list rvalue) : list (rvalue * rvalue) :=
  match l with k :: v :: rest => (k, v) :: pairs_of rest | _ => [] end.

Definition info_field (info : StreamInfo) (kv : rvalue * rvalue) : StreamInfo :=
  let '(k, v) := kv in
  match text k with
  | Some key =>
      if String.eqb key "max-deleted-entry-id" then
        {| max_deleted := text v; first_entry := first_entry info;
           last_generated := last_generated info; si_length := si_length info;
           entries_added := entries_added info |}
      else if String.eqb key "last-generated-id" then
        {| max_deleted := max_deleted info; first_entry := first_entry info;
           last_generated := text v; si_length := si_length info;
           entries_added := entries_added info |}
      else if String.eqb key "length" then
        {| max_deleted := max_deleted info; first_entry := first_entry info;
           last_generated := last_generated info; si_length := int v;
           entries_added := entries_added info |}
      else if String.eqb key "entries-added" then
        {| max_deleted := max_deleted info; first_entry := first_entry info;
           last_generated := last_generated info; si_length := si_length info;
           entries_added := int v |}
      else if String.eqb key "first-entry" then
        match v with
        | RvArray entry =>
            {| max_deleted := max_deleted info; first_entry := head entry ≫= text;
               last_generated := last_generated info; si_length := si_length info;
               entries_added := entries_added info |}
        | _ => info
        end
      else info
  | None => info
  end.

Definition parse_xinfo_stream (reply : rvalue) : StreamInfo :=
  let pairs := match reply with
               | RvArray items => pairs_of items
               | RvMap items => items
               | _ => []
               end in
  fold_left info_field pairs default_info.

Definition first_entry_id (reply : rvalue) : option string :=
  match reply with
  | RvArray entries =>
      match head entries with
      | Some (RvArray entry) => head entry ≫= text
      | _ => None
      end
  | _ => None
  end.

Definition mailbox_gap_rule (after : string) (stream : StreamInfo) (cap : Z) : option MailboxGap :=
  let* after_id := stream_id after in
  let gap := {| after_cursor := after; resumes_at := default "" (first_entry stream) |} in
  let by_mark := match max_deleted stream ≫= stream_id with
                 | Some deleted => negb (bool_decide (deleted = (0, 0))) && sid_ltb after_id deleted
                 | None => false
                 end in
  if by_mark then Some gap
  else
    let lost_some := si_length stream <? entries_added stream in
    let at_cap := (0 <? cap) && (saturating_mul_u64 cap 9 / 10 <=? si_length stream) in
    let before_all := match first_entry stream ≫= stream_id with
                      | Some first => sid_ltb after_id first
                      | None => true
                      end in
    if lost_some && at_cap && before_all then Some gap else None.

(** [a >= b] on [Option<(u64, u64)>]. *)
Definition opt_sid_geb (a b : option sid) : bool :=
  match a, b with
  | _, None => true
  | None, Some _ => false
  | Some x, Some y => negb (sid_ltb x y)
  end.

Section WithRedis.
Context {R : Type} `{Redis R} `{MsgPack}.
Context (sha256 : bytes -> bytes) (hex_encode : bytes -> string).
Context (cfg : Config).

(** ** The idempotency key *)

Definition dedup_field (field : string) : bytes :=
  be_bytes 8 (Z.of_nat (String.length field)) ++ as_bytes field.

Definition MessageDedupKey_new (sender recipient : string) (device : option string)
    (message : string) : string :=
  "msg:dedup:v2:" +:+ hex_encode (sha256 (dedup_field sender ++ dedup_field recipient ++
     dedup_field (default "" device) ++ dedup_field message)).

Definition for_envelope (e : MessageEnvelope) : string :=
  MessageDedupKey_new (sender_id e) (recipient_id e) (recipient_device e) (message_id e).

(** ** Writing *)

Definition mailbox_maxlen : Z := Z.max (queue_maxlen_standard cfg) 1.

Definition user_stream (user_id : string) : string :=
  delivery_queue_prefix cfg +:+ ":offline:" +:+ user_id.
Definition device_stream (user_id device_id : string) : string :=
  delivery_queue_prefix cfg +:+ ":offline:" +:+ user_id +:+ ":" +:+ device_id.

Definition publish_inbox_wakeup (r : R) (user_id : string) : R :=
  (exec r (PUBLISH ("inbox:wakeup:" +:+ user_id) "1")).1.

(** The clock of the server and its eviction, for each stream written. *)
Abbreviation server := (string -> Z * nat).

Definition xadd_envelope (r : R) (srv : server) (stream_key : string) (e : MessageEnvelope)
    : R * result string unit :=
  match exec r (XADD stream_key (srv stream_key).1 (srv stream_key).2 mailbox_maxlen
                  [("message_id", message_id e); ("payload", to_vec_named e)]) with
  | (r', Some (RBulk id)) => (r', Ok id)
  | (r', _) => (r', Err tt)
  end.

Definition write_message_to_user_stream (r : R) (srv : server) (user_id : string)
    (e : MessageEnvelope) : R * result string unit :=
  xadd_envelope r srv (user_stream user_id) e.

Definition write_message_to_device_stream (r : R) (srv : server) (user_id device_id : string)
    (e : MessageEnvelope) : R * result unit unit :=
  match xadd_envelope r srv (device_stream user_id device_id) e with
  | (r', Ok _) => (r', Ok tt)
  | (r', Err err) => (r', Err err)
  end.

Fixpoint write_devices (r : R) (srv : server) (user_id : string) (devices : list string)
    (e : MessageEnvelope) : R * nat :=
  match devices with
  | [] => (r, 0%nat)
  | d :: rest =>
      let '(r1, res) := write_message_to_device_stream r srv user_id d e in
      let '(r2, n) := write_devices r1 srv user_id rest e in
      (r2, match res with Ok _ => S n | Err _ => n end)
  end.

Definition write_message_to_device_streams (r : R) (srv : server) (user_id : string)
    (device_ids : list string) (e : MessageEnvelope) : R * result unit unit :=
  let write_user := mailbox_user_write cfg in
  let '(r1, user_res) := if write_user then write_message_to_user_stream r srv user_id e
                         else (r, Ok "") in
  match user_res with
  | Err err => (r1, Err err)
  | Ok _ =>
      let '(r2, device_writes_ok) := write_devices r1 srv user_id device_ids e in
      if negb write_user && (device_writes_ok =? 0)%nat then (r2, Err tt)
      else (publish_inbox_wakeup r2 user_id, Ok tt)
  end.

(** ** Reading *)

Definition read_stream_messages (r : R) (stream_key : string) (since : option string) (count : Z)
    : R * result (list (string * gmap string string)) unit :=
  let start := match since with
               | Some id => default "0" (normalize_stream_id id)
               | None => "0"
               end in
  match exec r (XREAD stream_key start count) with
  | (r', Some (REntries l)) => (r', Ok l)
  | (r', Some (RErr msg)) =>
      if str_contains "no such key" msg || str_contains "WRONGTYPE" msg then (r', Ok [])
      else (r', Err tt)
  | (r', _) => (r', Err tt)
  end.

Definition parse_stream_message (fields : gmap string string) (user_id : string)
    : result (option MessageEnvelope) unit :=
  let? mid := ok_or (fields !! "message_id") tt in
  let? checked := ok_or (from_utf8 (as_bytes mid)) tt in
  let? payload := ok_or (fields !! "payload") tt in
  let? envelope := ok_or (from_slice payload) tt in
  if String.eqb (recipient_id envelope) user_id then Ok (Some envelope) else Ok None.

Definition parse_entry (user_id : string) (x : string * gmap string string)
    : string * option MessageEnvelope :=
  (x.1, match parse_stream_message x.2 user_id with Ok o => o | Err _ => None end).

Definition read_parsed (r : R) (key user_id : string) (since : option string) (count : Z)
    : R * result (list (string * option MessageEnvelope)) unit :=
  match read_stream_messages r key since count with
  | (r', Ok messages) => (r', Ok (map (parse_entry user_id) messages))
  | (r', Err e) => (r', Err e)
  end.

Definition read_user_messages_from_stream (r : R) (user_id : string) (since : option string)
    (count : Z) : R * result (list (string * option MessageEnvelope)) unit :=
  read_parsed r (user_stream user_id) user_id since count.

Definition read_device_messages_from_stream (r : R) (user_id device_id : string)
    (since : option string) (count : Z)
    : R * result (list (string * option MessageEnvelope)) unit :=
  read_parsed r (device_stream user_id device_id) user_id since count.

(** ** The merged page *)

Record MailboxPage := {
  entries : list (string * option MessageEnvelope);
  user_only_ids : list string;
  sibling_skipped : nat;
  user_examined_through : option string;
  has_more : bool;
}.

Definition user_only (p : MailboxPage) : nat := length (user_only_ids p).

(** [Iterator::min_by] keeps the first minimum, [max_by] the last maximum. *)
Fixpoint min_by (l : list string) : option string :=
  match l with
  | [] => None
  | x :: rest =>
      match min_by rest with
      | None => Some x
      | Some y => match compare_stream_id_watermarks x y with Gt => Some y | _ => Some x end
      end
  end.

Fixpoint max_by (l : list string) : option string :=
  match l with
  | [] => None
  | x :: rest =>
      match max_by rest with
      | None => Some x
      | Some y => match compare_stream_id_watermarks x y with Gt => Some x | _ => Some y end
      end
  end.

Definition resume_after (p : MailboxPage) (since : option string) : option string :=
  let delivered := option_map fst (list.last (entries p)) in
  max_by (option_list delivered ++ option_list (user_examined_through p) ++ option_list since).

(** [sort_by] is stable: an element goes before the first that is greater. *)
Fixpoint insert_by {A} (cmp : A -> A -> comparison) (x : A) (l : list A) : list A :=
  match l with
  | [] => [x]
  | y :: rest => match cmp x y with Gt => y :: insert_by cmp x rest | _ => x :: l end
  end.

Definition sort_by {A} (cmp : A -> A -> comparison) (l : list A) : list A :=
  fold_right (insert_by cmp) [] l.

Definition is_sibling (reader_device : string) (e : MessageEnvelope) : bool :=
  match recipient_device e with Some named => negb (String.eqb named reader_device) | None => false end.

Abbreviation page_entry := (string * option MessageEnvelope)%type.
Abbreviation by_id := (gmap string (string * MessageEnvelope)).

(** The order a [HashMap]'s values come in. *)
Context (into_values : by_id -> list (string * MessageEnvelope)).

Definition user_step (reader : string) (acc : by_id * list page_entry * nat) (x : page_entry)
    : by_id * list page_entry * nat :=
  let '(m, orphans, skipped) := acc in
  match x with
  | (i, Some e) =>
      if is_sibling reader e then (m, orphans, S skipped)
      else (<[for_envelope e := (i, e)]> m, orphans, skipped)
  | (i, None) => (m, orphans ++ [(i, None)], skipped)
  end.

Definition device_step (acc : by_id * list page_entry) (x : page_entry)
    : by_id * list page_entry :=
  let '(m, orphans) := acc in
  match x with
  | (i, Some e) => (<[for_envelope e := (i, e)]> m, orphans)
  | (i, None) => (m, orphans ++ [(i, None)])
  end.

Definition full_read_end (limit : Z) (read : list page_entry) : option string :=
  if limit <=? Z.of_nat (length read) then option_map fst (list.last read) else None.

Definition past_horizon (horizon : option string) (id : string) : bool :=
  match horizon with
  | Some h => match compare_stream_id_watermarks id h with Gt => true | _ => false end
  | None => false
  end.

Definition merge_mailbox_pages (device_msgs user_msgs : list page_entry) (count source_limit : Z)
    (reader_device : string) : MailboxPage :=
  let device_ids : gset string :=
    list_to_set (omap (fun x => option_map for_envelope (snd x)) device_msgs) in
  let user_last_id := option_map fst (list.last user_msgs) in
  let horizon := min_by (option_list (full_read_end source_limit device_msgs)
                         ++ option_list (full_read_end source_limit user_msgs)) in
  let '(m1, orphans1, sibling_skipped) := fold_left (user_step reader_device) user_msgs (∅, [], 0%nat) in
  let '(m2, orphans) := fold_left device_step device_msgs (m1, orphans1) in
  let merged := sort_by (fun a b => compare_stream_id_watermarks (fst a) (fst b))
                  (map (fun p => (fst p, Some (snd p))) (into_values m2) ++ orphans) in
  let merged := List.filter (fun x => negb (past_horizon horizon (fst x))) merged in
  let cut_by_count := count <? Z.of_nat (length merged) in
  let merged := take (Z.to_nat count) merged in
  {| entries := merged;
     user_only_ids := map message_id
       (List.filter (fun e => negb (bool_decide (for_envelope e ∈ device_ids))) (omap snd merged));
     sibling_skipped := sibling_skipped;
     user_examined_through :=
       if cut_by_count then None
       else option_map (fun id => if past_horizon horizon id then default id horizon else id)
              user_last_id;
     has_more := cut_by_count || bool_decide (is_Some horizon) |}.

Definition non_empty (o : option string) : option string :=
  match o with Some d => if str_is_empty d then None else Some d | None => None end.

Definition read_mailbox_messages (r : R) (user_id : string) (device_id since user_since : option string)
    (count : Z) : R * result MailboxPage unit :=
  match non_empty device_id with
  | None =>
      match read_user_messages_from_stream r user_id since count with
      | (r', Ok l) =>
          (r', Ok {| entries := l; user_only_ids := []; sibling_skipped := 0;
                     user_examined_through := None;
                     has_more := Z.of_nat (length l) =? count |})
      | (r', Err e) => (r', Err e)
      end
  | Some device =>
      let per_source := saturating_mul_u64 count 2 in
      match read_device_messages_from_stream r user_id device since per_source with
      | (r1, Err e) => (r1, Err e)
      | (r1, Ok device_msgs) =>
          match read_user_messages_from_stream r1 user_id user_since per_source with
          | (r2, Err e) => (r2, Err e)
          | (r2, Ok user_msgs) =>
              (r2, Ok (merge_mailbox_pages device_msgs user_msgs count per_source device))
          end
      end
  end.

(** ** Gaps, idempotency, presence *)

Fixpoint gap_of_keys (r : R) (since : string) (keys : list string)
    : R * result (option MailboxGap) unit :=
  match keys with
  | [] => (r, Ok None)
  | key :: rest =>
      match exec r (XINFO key) with
      | (r', Some (RValue info)) =>
          match mailbox_gap_rule since (parse_xinfo_stream info) mailbox_maxlen with
          | Some found => (r', Ok (Some found))
          | None => gap_of_keys r' since rest
          end
      | (r', Some (RErr msg)) =>
          if str_contains "no such key" (to_lowercase msg) then gap_of_keys r' since rest
          else (r', Err tt)
      | (r', _) => (r', Err tt)
      end
  end.

Definition mailbox_gap (r : R) (user_id : string) (device_id : option string) (since : string)
    : R * result (option MailboxGap) unit :=
  gap_of_keys r since
    (match non_empty device_id with Some d => [device_stream user_id d] | None => [] end
     ++ [user_stream user_id]).

Definition run {A} (m : R * option A) : R * result A unit :=
  match m with (r, Some a) => (r, Ok a) | (r, None) => (r, Err tt) end.

Definition is_message_duplicate (r : R) (key : string) : R * result bool unit :=
  run (exec_bool r (EXISTS key)).

Definition mark_message_dispatched (r : R) (key : string) : R * result unit unit :=
  run (exec_unit r (SETEX key "1" (24 * 60 * 60))).

Definition instance_key (user_id : string) : string :=
  user_key_prefix cfg +:+ user_id +:+ ":server_instance_id".

Definition track_user_online (r : R) (user_id instance : string) : R * result unit unit :=
  run (exec_unit r (SETEX (instance_key user_id) instance
                      (wrap_u64 (session_ttl_days cfg * SECONDS_PER_DAY)))).

Definition untrack_user_online (r : R) (user_id : string) : R * result Z unit :=
  run (exec_int r (DEL (instance_key user_id))).

Definition get_user_server_instance (r : R) (user_id : string) : R * result (option string) unit :=
  run (exec_opt_string r (GET (instance_key user_id))).

Definition try_mark_push_outstanding (r : R) (device_id : string) : R * result bool unit :=
  match run (exec_opt_string r (SETNXEX (push_outstanding_key device_id) "1"
                                  PUSH_OUTSTANDING_TTL_SECONDS)) with
  | (r', Ok set) => (r', Ok (bool_decide (is_Some set)))
  | (r', Err e) => (r', Err e)
  end.

Definition clear_push_outstanding (r : R) (device_id : string) : R * result unit unit :=
  match run (exec_int r (DEL (push_outstanding_key device_id))) with
  | (r', Ok _) => (r', Ok tt)
  | (r', Err e) => (r', Err e)
  end.

(** ** Retention *)

Definition scan_keys (r : R) (prefix : string) : R * result (list string) unit :=
  match exec r (SCAN prefix) with
  | (r', Some (RList l)) => (r', Ok l)
  | (r', _) => (r', Err tt)
  end.

Definition delete_mailbox (r : R) (user_id : string) : R * result Z unit :=
  match scan_keys r (user_stream user_id +:+ ":") with
  | (r', Err e) => (r', Err e)
  | (r', Ok found) => run (exec_int r' (DELS (user_stream user_id :: found)))
  end.

(** One round of [record_deleted]: [Some] is its return, [None] a failed [XSETID]. *)
Definition record_deleted_round (r : R) (key removed : string) : R * option (result unit unit) :=
  match exec r (XINFO key) with
  | (r1, Some (RValue info)) =>
      let stream := parse_xinfo_stream info in
      match last_generated stream with
      | None => (r1, Some (Ok tt))
      | Some lst =>
          if opt_sid_geb (max_deleted stream ≫= stream_id) (stream_id removed) then (r1, Some (Ok tt))
          else match exec_unit r1 (XSETID key lst removed) with
               | (r2, Some _) => (r2, Some (Ok tt))
               | (r2, None) => (r2, None)
               end
      end
  | (r1, _) => (r1, Some (Err tt))
  end.

Definition record_deleted (r : R) (key removed : string) : R * result unit unit :=
  match record_deleted_round r key removed with
  | (r1, Some res) => (r1, res)
  | (r1, None) =>
      match record_deleted_round r1 key removed with
      | (r2, Some res) => (r2, res)
      | (r2, None) => (r2, Err tt)
      end
  end.

Definition trim_one (r : R) (key : string) (minid : sid) : R * Z :=
  let '(r1, newest_removed) :=
    match exec r (XREVRANGE1 key minid) with
    | (r', Some (RValue v)) => (r', first_entry_id v)
    | (r', _) => (r', None)
    end in
  let '(r2, trimmed) :=
    match exec_int r1 (XTRIM_MINID key minid) with
    | (r', Some n) => (r', n)
    | (r', None) => (r', 0)
    end in
  match newest_removed with
  | Some removed =>
      if 0 <? trimmed then ((record_deleted r2 key removed).1, trimmed) else (r2, trimmed)
  | None => (r2, trimmed)
  end.

Fixpoint trim_keys (r : R) (keys : list string) (minid : sid) : R * Z :=
  match keys with
  | [] => (r, 0)
  | key :: rest =>
      let '(r1, n) := trim_one r key minid in
      let '(r2, total) := trim_keys r1 rest minid in
      (r2, n + total)
  end.

Definition trim_streams_by_age (r : R) (now_ms max_age_seconds : Z) : R * result Z unit :=
  let cutoff_ms := Z.max 0 (now_ms - max_age_seconds * 1000) in
  match scan_keys r (delivery_queue_prefix cfg +:+ ":offline:") with
  | (r1, Err e) => (r1, Err e)
  | (r1, Ok keys) => let '(r2, n) := trim_keys r1 keys (cutoff_ms, 0) in (r2, Ok n)
  end.

(** ** Purging a blocked sender *)

Definition to_delete (target : string) (x : string * gmap string string) : option string :=
  let* payload := snd x !! "payload" in
  let* e := from_slice payload in
  if is_sealed_sender e || str_is_empty (sender_id e) then None
  else if String.eqb (sender_id e) target then Some (fst x) else None.

Definition purge_sender_from_one_stream (r : R) (stream_key target : string) : R * result Z unit :=
  match exec r (XRANGE stream_key) with
  | (r1, Some (REntries l)) =>
      let ids_to_delete := omap (to_delete target) l in
      match ids_to_delete with
      | [] => (r1, Ok 0)
      | _ =>
          match exec_int r1 (XDEL stream_key ids_to_delete) with
          | (r2, Some _) => (r2, Ok (Z.of_nat (length ids_to_delete)))
          | (r2, None) => (r2, Err tt)
          end
      end
  | (r1, _) => (r1, Err tt)
  end.

Fixpoint purge_keys (r : R) (keys : list string) (target : string) : R * Z :=
  match keys with
  | [] => (r, 0)
  | key :: rest =>
      let '(r1, res) := purge_sender_from_one_stream r key target in
      let '(r2, total) := purge_keys r1 rest target in
      (r2, match res with Ok n => n | Err _ => 0 end + total)
  end.

Definition purge_messages_from_sender (r : R) (recipient sender : string) : R * result Z unit :=
  let '(r1, n) := purge_keys r [user_stream recipient] sender in
  match scan_keys r1 (user_stream recipient +:+ ":") with
  | (r2, Err e) => (r2, Err e)
  | (r2, Ok keys) => let '(r3, total) := purge_keys r2 keys sender in (r3, Ok (n + total))
  end.

End WithRedis.
(** ** Concrete values, for examples *)

Definition sample_envelope (id : string) : MessageEnvelope := {|
  message_id := id; sender_id := "bob"; recipient_id := "alice"; timestamp := 1;
  message_type := DirectMessage; ephemeral_public_key := None; message_number := None;
  mls_payload := None; group_id := None; encrypted_payload := as_bytes id; content_hash := "";
  crypto_suite_id := 1; origin_server := None; federated := false; server_signature := None;
  is_sealed_sender := false; sealed_inner := None; max_queue_len := None;
  proto_content_type := None; recipient_device := None |}.

Definition sample_pack : MsgPack := {|
  to_vec_named := message_id; from_slice := fun s => Some (sample_envelope s) |}.

Definition sample_cfg_cap (cap : Z) : Config := {|
  delivery_queue_prefix := "dq"; queue_maxlen_standard := cap; mailbox_user_write := true;
  session_ttl_days := 30; user_key_prefix := "user:" |}.

Definition sample_cfg : Config := sample_cfg_cap 1000.

Definition sample_values (m : gmap string (string * MessageEnvelope)) : list (string * MessageEnvelope) :=
  (map_to_list m).*2.

Definition sample_hex (l : bytes) : string := String.string_of_list_byte l.

End Mailbox.
