(* ===== verification/MailboxPaging.v ===== *)
(** * Reading a mailbox page by page

    The merged read of [Mailbox] against what it is for: a reader that follows its
    cursors gets every envelope of its mailbox. The file holds the order of stream
    ids, what a page contains, and the paging loops with their termination. *)

From Stdlib Require Import Sorting.Sorted DecimalString.
From S2P Require Import Prelude Text RedisStore Mailbox.

Module Paging.
Import Redis Mailbox.

(** ** Ids and their order *)

Definition sid_lt (a b : sid) : Prop := a.1 < b.1 \/ (a.1 = b.1 /\ a.2 < b.2).
Definition sid_le (a b : sid) : Prop := a.1 < b.1 \/ (a.1 = b.1 /\ a.2 <= b.2).

Definition sid_ok (i : sid) : Prop := in_u64 i.1 /\ in_u64 i.2.

(** Decides goals about the order of ids. *)
Ltac sid_order :=
  unfold sid_lt, sid_le in *; cbn [fst snd] in *; try lia.

Lemma sid_ltb_spec a b : reflect (sid_lt a b) (sid_ltb a b).
Proof.
  apply iff_reflect. unfold sid_ltb, sid_lt.
  destruct (Z.ltb_spec a.1 b.1), (Z.eqb_spec a.1 b.1), (Z.ltb_spec a.2 b.2); cbn; split; try done; lia.
Qed.

Lemma sid_compare_spec a b : CompareSpec (a = b) (sid_lt a b) (sid_lt b a) (sid_compare a b).
Proof.
  unfold sid_compare. destruct a as [a1 a2], b as [b1 b2]. cbn.
  destruct (Z.compare_spec a1 b1); [|by constructor; sid_order..].
  destruct (Z.compare_spec a2 b2); constructor; [by subst|sid_order..].
Qed.

Lemma dec_digits n : str_all (fun a => negb (Ascii.eqb a "-")) (dec_of_N n) = true.
Proof.
  unfold dec_of_N, NilZero.string_of_uint. destruct (N.to_uint n) as [|d|d|d|d|d|d|d|d|d|d] eqn:E;
    [done|..]; clear E; cbn; by induction d.
Qed.

Lemma show_sid_digits i : sid_ok i ->
  str_all (fun a => negb (Ascii.eqb a "-")) (to_string i.1) = true /\
  str_all (fun a => negb (Ascii.eqb a "-")) (to_string i.2) = true.
Proof.
  intros [H1 H2]. unfold to_string, in_u64 in *. destruct (Z.ltb_spec i.1 0); [lia|].
  destruct (Z.ltb_spec i.2 0); [lia|]. split; apply dec_digits.
Qed.

Lemma show_sid_once i : sid_ok i -> split_once "-" (show_sid i) = Some (to_string i.1, to_string i.2).
Proof.
  intros Hi. unfold show_sid. change ("-" +:+ to_string i.2) with (String "-" (to_string i.2)).
  apply split_once_app. by apply show_sid_digits.
Qed.

Lemma stream_id_show i : sid_ok i -> stream_id (show_sid i) = Some i.
Proof.
  intros Hi. unfold stream_id. rewrite show_sid_once by done.
  rewrite !parse_u64_to_string by apply Hi. by destruct i.
Qed.

(** The id the server reads and the two checks of a cursor agree with it. *)
Lemma read_sid_show i : sid_ok i -> read_sid (show_sid i) = Some i.
Proof.
  intros Hi. unfold read_sid. rewrite show_sid_once by done.
  rewrite !parse_u64_to_string by apply Hi. by destruct i.
Qed.

Lemma normalize_show i : sid_ok i -> normalize_stream_id (show_sid i) = Some (show_sid i).
Proof.
  intros Hi. unfold normalize_stream_id. assert (is_valid_stream_id (show_sid i) = true) as ->; [|done].
  unfold is_valid_stream_id. destruct (_ || _); [done|]. unfold show_sid.
  change ("-" +:+ to_string i.2) with (String "-" (to_string i.2)).
  destruct (show_sid_digits i Hi). rewrite split_char_app, split_char_none by done.
  rewrite !parse_u64_to_string by apply Hi. by rewrite !bool_decide_true.
Qed.

Lemma show_sid_inj i j : sid_ok i -> sid_ok j -> show_sid i = show_sid j -> i = j.
Proof.
  intros Hi Hj E. apply (f_equal stream_id) in E. rewrite !stream_id_show in E by done. congruence.
Qed.

Lemma compare_show a b :
  sid_ok a -> sid_ok b -> compare_stream_id_watermarks (show_sid a) (show_sid b) = sid_compare a b.
Proof. intros Ha Hb. unfold compare_stream_id_watermarks. by rewrite !stream_id_show. Qed.

(** ** Mailboxes in the keyspace *)

(** The stream a read of [k] sees. *)
Definition stream_of (ks : keyspace) (k : string) : stream :=
  match ks !! k with Some (Entry (VStream s) _) => s | _ => no_stream end.

(** Ids grow and are in range. *)
Definition stream_ok (s : stream) : Prop :=
  StronglySorted (fun a b => sid_lt a.1 b.1) (s_entries s) /\
  Forall (fun x => sid_ok x.1) (s_entries s).

(** ** Stable sorting *)

Section Sort.
Context {A : Type} (cmp : A -> A -> comparison) (le : A -> A -> Prop) (P : A -> Prop).
Context (Hgt : forall a b, P a -> P b -> cmp a b = Gt -> le b a)
        (Hle : forall a b, P a -> P b -> cmp a b <> Gt -> le a b)
        (Htrans : forall a b c, le a b -> le b c -> le a c).

Lemma insert_by_perm x l : insert_by cmp x l ≡ₚ x :: l.
Proof using Type.
  induction l as [|y l IH]; cbn; [done|]. destruct (cmp x y); try done.
  rewrite IH. apply perm_swap.
Qed.

Lemma sort_by_perm l : sort_by cmp l ≡ₚ l.
Proof using Type.
  induction l as [|x l IH]; cbn; [done|]. rewrite insert_by_perm. by rewrite IH.
Qed.

Lemma insert_by_sorted x l :
  P x -> Forall P l -> StronglySorted le l -> StronglySorted le (insert_by cmp x l).
Proof using Hgt Hle Htrans.
  intros Hx HP. induction 1 as [|y l Hs IH Hy]; cbn; [by repeat constructor|].
  apply Forall_cons_1 in HP as [HPy HPl].
  assert (cmp x y <> Gt -> StronglySorted le (x :: y :: l)) as Hfront.
  { intros Hc. pose proof (Hle _ _ Hx HPy Hc). constructor; [by constructor|].
    constructor; [done|]. eapply list.Forall_impl; [exact Hy|]. eauto. }
  destruct (cmp x y) eqn:E; [by apply Hfront..|].
  constructor; [by apply IH|]. rewrite insert_by_perm. constructor; [|done]. by apply Hgt.
Qed.

Lemma sort_by_sorted l : Forall P l -> StronglySorted le (sort_by cmp l).
Proof using Hgt Hle Htrans.
  induction 1 as [|x l Hx Hl IH]; cbn; [constructor|]. apply insert_by_sorted; [done| |done].
  change (fold_right (insert_by cmp) [] l) with (sort_by cmp l). by rewrite sort_by_perm.
Qed.

End Sort.

(** Sorting what was printed prints what was sorted. *)
Lemma sort_by_map {A B} (f : A -> B) cmpA cmpB (P : A -> Prop) l :
  (forall a b, P a -> P b -> cmpB (f a) (f b) = cmpA a b) -> Forall P l ->
  sort_by cmpB (map f l) = map f (sort_by cmpA l).
Proof.
  intros Hc. induction 1 as [|x l Hx Hl IH]; cbn; [done|].
  change (fold_right (insert_by ?c) [] ?k) with (sort_by c k). rewrite IH.
  assert (Forall P (sort_by cmpA l)) as Hs by by rewrite sort_by_perm.
  clear IH. induction Hs as [|y k Hy Hk IHk]; cbn; [done|].
  rewrite Hc by done. destruct (cmpA x y); cbn; try done. by rewrite IHk.
Qed.

(** ** What a page is made of

    A read returns a list of entries; [show_e] prints their ids. *)

Abbreviation entry := (sid * option MessageEnvelope)%type.

Definition show_e (x : entry) : string * option MessageEnvelope := (show_sid x.1, x.2).

(** An entry of the account's stream that is this reader's. *)
Definition mine (reader : string) (x : entry) : bool :=
  match x.2 with Some e => negb (is_sibling reader e) | None => true end.

Section Page.
Context (key : MessageEnvelope -> string).

Definition inserts (l : list entry) (m : gmap string (string * MessageEnvelope))
    : gmap string (string * MessageEnvelope) :=
  fold_left (fun m x => match x.2 with
                        | Some e => <[key e := (show_sid x.1, e)]> m
                        | None => m
                        end) l m.

Definition nones (l : list entry) : list entry := List.filter (fun x => bool_decide (x.2 = None)) l.

Lemma inserts_spec l m k :
  (exists i e, (i, Some e) ∈ l /\ key e = k /\ inserts l m !! k = Some (show_sid i, e)) \/
  ((forall i e, (i, Some e) ∈ l -> key e <> k) /\ inserts l m !! k = m !! k).
Proof using Type.
  induction l as [|[i o] l IH] using rev_ind.
  { right. split; [|done]. intros i e Hin. by apply not_elem_of_nil in Hin. }
  unfold inserts in *. rewrite fold_left_app. cbn. destruct o as [e|].
  - destruct (decide (key e = k)) as [<-|Hne].
    + left. exists i, e. rewrite lookup_insert_eq. split; [apply elem_of_app; right; by left|done].
    + rewrite lookup_insert_ne by done. destruct IH as [(j & e' & Hin & Hk & Hl)|[Hno Hl]].
      * left. exists j, e'. split_and!; [apply elem_of_app; by left|done|done].
      * right. split; [|done]. intros j e' Hin. apply elem_of_app in Hin as [Hin|Hin]; [by eapply Hno|].
        apply list_elem_of_singleton in Hin. by simplify_eq.
  - destruct IH as [(j & e' & Hin & Hk & Hl)|[Hno Hl]].
    + left. exists j, e'. split_and!; [apply elem_of_app; by left|done|done].
    + right. split; [|done]. intros j e' Hin. apply elem_of_app in Hin as [Hin|Hin]; [by eapply Hno|].
      apply list_elem_of_singleton in Hin. by simplify_eq.
Qed.

Lemma inserts_last l i e m : inserts (l ++ [(i, Some e)]) m !! key e = Some (show_sid i, e).
Proof using Type. unfold inserts. rewrite fold_left_app. cbn. by rewrite lookup_insert_eq. Qed.

(** What the merge collects from a read of the device's stream [D] and one of the
    account's [U]: one entry for every envelope key, the device's if it has one,
    and every entry that did not parse. *)
Record merged_spec (reader : string) (D U A : list entry) : Prop := {
  ms_ok : Forall (fun x => sid_ok x.1) A;
  ms_from x : x ∈ A -> x ∈ D \/ (x ∈ U /\ mine reader x = true);
  ms_none i : (i, None) ∈ D \/ (i, None) ∈ U -> (i, None) ∈ A;
  ms_key i e : (i, Some e) ∈ D \/ ((i, Some e) ∈ U /\ is_sibling reader e = false) ->
    exists j e', (j, Some e') ∈ A /\ key e' = key e;
  ms_last x : list.last D = Some x -> x ∈ A;
  ms_uniq i j e e' : (i, Some e) ∈ A -> (j, Some e') ∈ A -> key e = key e' -> (i, e) = (j, e');
}.

Definition pos (id : string) : sid := default (0, 0) (stream_id id).

Lemma pos_show i : sid_ok i -> pos (show_sid i) = i.
Proof using Type. intros Hi. unfold pos. by rewrite stream_id_show. Qed.

Context (into_values : gmap string (string * MessageEnvelope) -> list (string * MessageEnvelope))
        (Hvals : forall m, into_values m ≡ₚ (map_to_list m).*2).

Definition collected (l : list entry) (rest : list entry) : list entry :=
  map (fun p => (pos p.1, Some p.2)) (into_values (inserts l ∅)) ++ rest.

Lemma value_of_inserts l p :
  Forall (fun x => sid_ok x.1) l -> p ∈ into_values (inserts l ∅) ->
  exists i, sid_ok i /\ p = (show_sid i, p.2) /\ (i, Some p.2) ∈ l /\
    inserts l ∅ !! key p.2 = Some p.
Proof using Hvals.
  intros Hok Hp. rewrite Hvals in Hp. apply list_elem_of_fmap in Hp as ([k v] & -> & Hkv).
  apply elem_of_map_to_list in Hkv. cbn.
  destruct (inserts_spec l ∅ k) as [(i & e & Hin & <- & Hl)|[_ Hl]]; rewrite Hl in Hkv; [|done].
  injection Hkv as <-. exists i. cbn. rewrite list.Forall_forall in Hok. split_and!; [|done..].
  by apply (Hok _ Hin).
Qed.

Lemma elem_collected l rest i e :
  Forall (fun x => sid_ok x.1) l -> Forall (fun x => x.2 = None) rest ->
  (i, Some e) ∈ collected l rest <->
  (i, Some e) ∈ l /\ sid_ok i /\ inserts l ∅ !! key e = Some (show_sid i, e).
Proof using Hvals.
  intros Hok Hrest. unfold collected. rewrite elem_of_app. split.
  - intros [Hin|Hin].
    + apply list_elem_of_fmap in Hin as ([s e0] & [= -> ->] & Hp).
      destruct (value_of_inserts _ _ Hok Hp) as (i & Hi & [= ->] & Hin & Hl). cbn in *.
      by rewrite pos_show.
    + rewrite list.Forall_forall in Hrest. by apply Hrest in Hin.
  - intros (Hin & Hi & Hl). left. apply list_elem_of_fmap. exists (show_sid i, e). cbn.
    rewrite pos_show by done. split; [done|]. rewrite Hvals. apply list_elem_of_fmap.
    exists (key e, (show_sid i, e)). split; [done|]. by apply elem_of_map_to_list.
Qed.

Lemma elem_nones l x : x ∈ nones l <-> x ∈ l /\ x.2 = None.
Proof using Type.
  unfold nones. rewrite !list_elem_of_In, filter_In, bool_decide_eq_true. done.
Qed.

Lemma elem_mine reader l x : x ∈ List.filter (mine reader) l <-> x ∈ l /\ mine reader x = true.
Proof using Type. by rewrite !list_elem_of_In, filter_In. Qed.

Lemma collected_spec reader D U :
  Forall (fun x => sid_ok x.1) D -> Forall (fun x => sid_ok x.1) U ->
  merged_spec reader D U (collected (List.filter (mine reader) U ++ D) (nones U ++ nones D)).
Proof using Hvals.
  intros HD HU. set (l := List.filter (mine reader) U ++ D).
  assert (Forall (fun x => sid_ok x.1) l) as Hl.
  { apply list.Forall_app. split; [|done]. rewrite list.Forall_forall in *. intros x [Hx _]%elem_mine. by apply HU. }
  assert (Forall (fun x : entry => x.2 = None) (nones U ++ nones D)) as Hnn.
  { apply list.Forall_forall. intros x [Hx|Hx]%elem_of_app; by apply elem_nones in Hx as [_ ?]. }
  pose proof (fun i e => elem_collected l (nones U ++ nones D) i e Hl Hnn) as Hel.
  assert (forall i, (i, None) ∈ collected l (nones U ++ nones D) <-> (i, None) ∈ U ++ D) as Hno.
  { intros i. unfold collected. rewrite !elem_of_app, !elem_nones. split.
    - intros [Hin|[[? _]|[? _]]]; [|by left|by right].
      by apply list_elem_of_fmap in Hin as (? & ? & _).
    - intros [?|?]; right; [by left|by right]. }
  assert (forall i e, (i, Some e) ∈ l -> exists j e', (j, Some e') ∈ collected l (nones U ++ nones D)
            /\ key e' = key e) as Hkey.
  { intros i e Hin. destruct (inserts_spec l ∅ (key e)) as [(j & e' & Hj & Hk & Hlk)|[Hnot _]].
    - exists j, e'. split; [|done]. apply Hel. rewrite Hk. split_and!; auto.
      rewrite list.Forall_forall in Hl. by apply (Hl _ Hj).
    - by destruct (Hnot i e Hin). }
  split.
  - apply list.Forall_forall. intros [i [e|]] Hx; [by apply Hel in Hx as (_ & ? & _)|].
    apply Hno, elem_of_app in Hx. rewrite list.Forall_forall in HD, HU.
    destruct Hx as [Hx|Hx]; [by apply (HU _ Hx)|by apply (HD _ Hx)].
  - intros [i [e|]] Hx.
    + apply Hel in Hx as [Hx _]. apply elem_of_app in Hx as [Hx|Hx]; [right|by left].
      by apply elem_mine in Hx.
    + apply Hno, elem_of_app in Hx as [Hx|Hx]; [by right|by left].
  - intros i Hi. apply Hno, elem_of_app. tauto.
  - intros i e Hi. apply (Hkey i e), elem_of_app. destruct Hi as [?|[? Hs]]; [by right|left].
    apply elem_mine. split; [done|]. unfold mine. cbn. by rewrite Hs.
  - intros [i [e|]] Hx; apply list.last_Some in Hx as [D0 ->].
    + apply Hel. subst l. split_and!.
      * apply elem_of_app. right. apply elem_of_app. right. by left.
      * apply list.Forall_app in HD as [_ HD]. by inversion HD.
      * rewrite app_assoc. apply inserts_last.
    + apply Hno, elem_of_app. right. apply elem_of_app. right. by left.
  - intros i j e e' (_ & Hi & H1)%Hel (_ & Hj & H2)%Hel Hk. rewrite Hk, H2 in H1.
    injection H1 as E ->. f_equal. apply (f_equal stream_id) in E.
    rewrite !stream_id_show in E by done. by injection E.
Qed.

End Page.
(** ** The page, on ids *)

Section Merge.
Context (sha256 : bytes -> bytes) (hex_encode : bytes -> string).
Context (into_values : gmap string (string * MessageEnvelope) -> list (string * MessageEnvelope))
        (Hvals : forall m, into_values m ≡ₚ (map_to_list m).*2).

#[local] Abbreviation key := (for_envelope sha256 hex_encode).

Definition merged_of (reader : string) (D U : list entry) : list entry :=
  collected key into_values (List.filter (mine reader) U ++ D) (nones U ++ nones D).

Definition full_end (limit : Z) (l : list entry) : option sid :=
  if limit <=? Z.of_nat (length l) then option_map fst (list.last l) else None.

Definition horizon_of (limit : Z) (D U : list entry) : option sid :=
  match full_end limit D, full_end limit U with
  | Some a, Some b => Some (if sid_ltb b a then b else a)
  | Some a, None => Some a
  | None, o => o
  end.

Definition within (h : option sid) (i : sid) : bool :=
  match h with Some h => negb (sid_ltb h i) | None => true end.

Definition page_body (limit : Z) (reader : string) (D U : list entry) : list entry :=
  List.filter (fun x => within (horizon_of limit D U) x.1)
    (sort_by (fun a b => sid_compare a.1 b.1) (merged_of reader D U)).

Lemma user_fold reader l m o n :
  exists n', fold_left (user_step sha256 hex_encode reader) (map show_e l) (m, o, n)
  = (inserts key (List.filter (mine reader) l) m, o ++ map show_e (nones l), n').
Proof using Type.
  revert m o n. induction l as [|[i [e|]] l IH]; intros m o n; cbn; [by rewrite app_nil_r; eauto|..].
  - unfold mine. cbn. destruct (is_sibling reader e); cbn; apply IH.
  - destruct (IH m (o ++ [(show_sid i, None)]) n) as [n' ->]. exists n'. by rewrite <- app_assoc.
Qed.

Lemma device_fold l m o :
  fold_left (device_step sha256 hex_encode) (map show_e l) (m, o)
  = (inserts key l m, o ++ map show_e (nones l)).
Proof using Type.
  revert m o. induction l as [|[i [e|]] l IH]; intros m o; cbn; [by rewrite app_nil_r|apply IH|].
  rewrite IH. by rewrite <- app_assoc.
Qed.

Lemma inserts_app l k m : inserts key (l ++ k) m = inserts key k (inserts key l m).
Proof using Type. unfold inserts. by rewrite fold_left_app. Qed.

Lemma last_map_fst l : option_map fst (list.last (map show_e l)) = option_map show_sid (option_map fst (list.last l)).
Proof using Type. change (map show_e l) with (show_e <$> l). rewrite fmap_last. by destruct (list.last l). Qed.

Lemma full_end_show limit l :
  full_read_end limit (map show_e l) = option_map show_sid (full_end limit l).
Proof using Type.
  unfold full_read_end, full_end. rewrite length_map, last_map_fst. by destruct (limit <=? _).
Qed.

Lemma full_end_in limit l h :
  Forall (fun x => sid_ok x.1) l -> full_end limit l = Some h ->
  sid_ok h /\ exists x, list.last l = Some x /\ x.1 = h /\ limit <= Z.of_nat (length l).
Proof using Type.
  intros Hok. unfold full_end. destruct (Z.leb_spec limit (Z.of_nat (length l))); [|done].
  destruct (list.last l) as [x|] eqn:E; [|done]. intros [= <-]. split; [|by eauto].
  rewrite list.Forall_forall in Hok. apply Hok. by eapply last_Some_elem_of.
Qed.

Lemma horizon_show limit D U :
  Forall (fun x => sid_ok x.1) D -> Forall (fun x => sid_ok x.1) U ->
  min_by (option_list (full_read_end limit (map show_e D)) ++ option_list (full_read_end limit (map show_e U)))
  = option_map show_sid (horizon_of limit D U).
Proof using Type.
  intros HD HU. rewrite !full_end_show. unfold horizon_of.
  destruct (full_end limit D) as [a|] eqn:Ea, (full_end limit U) as [b|] eqn:Eb; cbn; try done.
  apply full_end_in in Ea as [Ha _]; [|done]. apply full_end_in in Eb as [Hb _]; [|done].
  rewrite compare_show by done.
  destruct (sid_compare_spec a b), (sid_ltb_spec b a); subst; try done; sid_order.
Qed.

Lemma horizon_ok limit D U h :
  Forall (fun x => sid_ok x.1) D -> Forall (fun x => sid_ok x.1) U ->
  horizon_of limit D U = Some h -> sid_ok h.
Proof using Type.
  intros HD HU. unfold horizon_of.
  destruct (full_end limit D) as [a|] eqn:Ea, (full_end limit U) as [b|] eqn:Eb; intros [= <-].
  - destruct (sid_ltb b a); [by eapply full_end_in in Eb as [? _]|by eapply full_end_in in Ea as [? _]].
  - by eapply full_end_in in Ea as [? _].
  - by eapply full_end_in in Eb as [? _].
Qed.

Lemma past_show h i :
  (forall x, h = Some x -> sid_ok x) -> sid_ok i ->
  past_horizon (option_map show_sid h) (show_sid i) = negb (within h i).
Proof using Type.
  intros Hh Hi. destruct h as [h|]; cbn; [|done]. rewrite compare_show by auto.
  destruct (sid_compare_spec i h), (sid_ltb_spec h i); subst; try done; sid_order.
Qed.

Lemma map_collected l rest :
  Forall (fun x => sid_ok x.1) l ->
  map (fun p => (p.1, Some p.2)) (into_values (inserts key l ∅)) ++ map show_e rest
  = map show_e (collected key into_values l rest).
Proof using Hvals.
  intros Hl. unfold collected. rewrite map_app, map_map. f_equal. apply map_ext_in.
  intros p Hp. apply list_elem_of_In in Hp.
  destruct (value_of_inserts _ _ Hvals _ _ Hl Hp) as (i & Hi & E & _). rewrite E. unfold show_e. cbn.
  by rewrite pos_show.
Qed.

Lemma filter_map_show (f : entry -> bool) g l :
  Forall (fun x => sid_ok x.1) l -> (forall x, sid_ok x.1 -> g (show_e x) = f x) ->
  List.filter g (map show_e l) = map show_e (List.filter f l).
Proof using Type.
  intros Hl Hg. induction Hl as [|x l Hx Hl IH]; cbn; [done|]. rewrite Hg, IH by done.
  by destruct (f x).
Qed.

(** The last user entry examined, cut back to the horizon. *)
Definition examined_of (limit : Z) (D U : list entry) : option sid :=
  option_map (fun i => if within (horizon_of limit D U) i then i
                       else default i (horizon_of limit D U)) (option_map fst (list.last U)).

Lemma page_show count limit reader D U :
  Forall (fun x => sid_ok x.1) D -> Forall (fun x => sid_ok x.1) U ->
  let page := merge_mailbox_pages sha256 hex_encode into_values (map show_e D) (map show_e U)
                count limit reader in
  let body := page_body limit reader D U in
  let cut := count <? Z.of_nat (length body) in
  entries page = map show_e (take (Z.to_nat count) body) /\
  user_examined_through page
    = (if cut then None else option_map show_sid (examined_of limit D U)) /\
  has_more page = cut || bool_decide (is_Some (horizon_of limit D U)).
Proof using Hvals.
  intros HD HU page body cut. subst page. unfold merge_mailbox_pages.
  rewrite horizon_show by done. destruct (user_fold reader U ∅ [] 0%nat) as [n' ->].
  rewrite device_fold, <- inserts_app. cbn [app].
  set (l := List.filter (mine reader) U ++ D).
  assert (Forall (fun x => sid_ok x.1) l) as Hl.
  { apply list.Forall_app. split; [|done]. rewrite list.Forall_forall in *.
    intros x [Hx _]%elem_mine. by apply HU. }
  assert (merged_spec key reader D U (merged_of reader D U)) as Hms by by apply collected_spec.
  rewrite <- map_app. rewrite map_collected by done.
  change (collected key into_values l (nones U ++ nones D)) with (merged_of reader D U).
  rewrite (sort_by_map show_e (fun a b => sid_compare a.1 b.1) _ (fun x => sid_ok x.1));
    [|intros a b Ha Hb; by apply compare_show|by apply Hms].
  rewrite (filter_map_show (fun x => within (horizon_of limit D U) x.1)).
  - change (List.filter _ (sort_by _ (merged_of reader D U))) with body.
    rewrite length_map. fold cut. cbn. split_and!.
    + unfold show_e. by rewrite firstn_map.
    + destruct cut; [done|]. rewrite last_map_fst. unfold examined_of.
      destruct (list.last U) as [x|] eqn:E; cbn; [|done]. f_equal.
      assert (sid_ok x.1) as Hx.
      { rewrite list.Forall_forall in HU. apply HU. by eapply last_Some_elem_of. }
      rewrite past_show by (try done; intros ? Hh; exact (horizon_ok _ _ _ _ HD HU Hh)).
      destruct (within _ x.1); cbn; [done|]. by destruct (horizon_of limit D U).
    + f_equal. apply bool_decide_ext. destruct (horizon_of limit D U); cbn; split; intros []; eauto; done.
  - rewrite sort_by_perm. apply Hms.
  - intros x Hx. change (fst (show_e x)) with (show_sid x.1).
    rewrite past_show by (try done; intros ? Hh; exact (horizon_ok _ _ _ _ HD HU Hh)).
    by rewrite negb_involutive.
Qed.

(** ** Reads of a stream *)

Definition ordered (l : list entry) : Prop := StronglySorted (fun a b => sid_lt a.1 b.1) l.

Definition after (l : list entry) (c : sid) : list entry := List.filter (fun x => sid_ltb c x.1) l.

Definition read (l : list entry) (c : sid) (n : Z) : list entry := take (Z.to_nat n) (after l c).

Lemma elem_after l c x : x ∈ after l c <-> x ∈ l /\ sid_lt c x.1.
Proof using Type.
  unfold after. rewrite !list_elem_of_In, filter_In. by destruct (sid_ltb_spec c x.1); intuition.
Qed.

Lemma elem_read l c n x : x ∈ read l c n -> x ∈ l /\ sid_lt c x.1.
Proof using Type. intros Hx. apply elem_after. unfold read in Hx. by apply elem_of_take in Hx as (? & Hx%list_elem_of_lookup_2 & _). Qed.

Lemma sorted_filter {A} (Rel : A -> A -> Prop) f l : StronglySorted Rel l -> StronglySorted Rel (List.filter f l).
Proof using Type.
  induction 1 as [|x l Hs IH Hx]; cbn; [constructor|]. destruct (f x); [|done]. constructor; [done|].
  rewrite list.Forall_forall in *. intros y Hy. apply Hx. apply list_elem_of_In in Hy.
  apply list_elem_of_In. by apply filter_In in Hy as [? _].
Qed.

Lemma sorted_lookup_lt {A} (Rel : A -> A -> Prop) l i j x y :
  StronglySorted Rel l -> (i < j)%nat -> l !! i = Some x -> l !! j = Some y -> Rel x y.
Proof using Type.
  intros Hs. revert i j. induction Hs as [|z l Hs IH Hz]; intros i j Hij Hx Hy; [done|].
  destruct j as [|j]; [lia|]. destruct i as [|i]; cbn in *.
  - injection Hx as ->. rewrite list.Forall_forall in Hz. apply Hz. by eapply list_elem_of_lookup_2.
  - by apply (IH i j); [lia|..].
Qed.

(** What comes after a prefix of a sorted list. *)
Lemma sorted_beyond {A} (Rel : A -> A -> Prop) n l x :
  StronglySorted Rel l -> x ∈ l -> x ∉ take n l ->
  length (take n l) = n /\ forall y, y ∈ take n l -> Rel y x.
Proof using Type.
  intros Hs Hx Hn. rewrite <- (take_drop n l) in Hs, Hx. apply elem_of_app in Hx as [?|Hx]; [done|].
  split.
  - rewrite length_take. destruct (decide (n <= length l)%nat); [lia|].
    rewrite drop_ge in Hx by lia. by apply not_elem_of_nil in Hx.
  - intros y Hy. clear Hn. induction (take n l) as [|z k IH]; [by apply not_elem_of_nil in Hy|].
    inversion Hs as [|? ? Hs' Hz]; subst. apply elem_of_cons in Hy as [->|Hy]; [|by apply IH].
    rewrite list.Forall_forall in Hz. apply Hz, elem_of_app. by right.
Qed.

Lemma not_read l c n x :
  ordered l -> x ∈ l -> sid_lt c x.1 -> x ∉ read l c n -> 0 < n ->
  exists h, full_end n (read l c n) = Some h /\ sid_lt h x.1.
Proof using Type.
  intros Hs Hx Hc Hn Hpos. unfold read in *.
  destruct (sorted_beyond _ (Z.to_nat n) (after l c) x (sorted_filter _ _ _ Hs)) as [Hlen Hlt];
    [by apply elem_after|done|]. unfold full_end. rewrite Hlen.
  destruct (Z.leb_spec n (Z.of_nat (Z.to_nat n))); [|lia].
  destruct (list.last (take (Z.to_nat n) (after l c))) as [y|] eqn:E.
  - exists y.1. split; [done|]. apply Hlt. by eapply last_Some_elem_of.
  - apply last_None in E. rewrite E in Hlen. cbn in Hlen. lia.
Qed.

Lemma ordered_unique l x y : ordered l -> x ∈ l -> y ∈ l -> x.1 = y.1 -> x = y.
Proof using Type.
  induction 1 as [|z l Hs IH Hz]; intros Hx Hy E; [by apply not_elem_of_nil in Hx|].
  rewrite list.Forall_forall in Hz. rewrite elem_of_cons in Hx, Hy.
  destruct Hx as [->|Hx], Hy as [->|Hy]; [done|..|by apply IH].
  - apply Hz in Hy. rewrite E in Hy. sid_order.
  - apply Hz in Hx. rewrite E in Hx. sid_order.
Qed.

(** ** One page of two fixed streams *)

Context (reader : string) (Dev Acc : list entry) (count : Z).
Context (Hdev : ordered Dev) (Hacc : ordered Acc).
Context (Hdok : Forall (fun x => sid_ok x.1) Dev) (Haok : Forall (fun x => sid_ok x.1) Acc).
Context (Hcount : 0 < count).

(** An id that both streams use, names the same delivery in both. *)
Definition no_clash : Prop :=
  forall i o o', (i, o) ∈ Dev -> (i, o') ∈ Acc -> mine reader (i, o') = true ->
    match o, o' with
    | Some e, Some e' => key e = key e'
    | None, None => True
    | _, _ => False
    end.

Context (Hclash : no_clash).

#[local] Abbreviation limit := (2 * count).

(** Where a delivery of this reader still is, past the positions [cd] and [cu]. *)
Definition waits (k : string) (cd cu i : sid) : Prop :=
  exists e, key e = k /\
    ((i, Some e) ∈ Dev /\ sid_lt cd i \/
     (i, Some e) ∈ Acc /\ sid_lt cu i /\ is_sibling reader e = false).

Definition pending (k : string) (cd cu : sid) : Prop := exists i, waits k cd cu i.

Section At.
Context (cd cu : sid).

#[local] Abbreviation D := (read Dev cd limit).
#[local] Abbreviation U := (read Acc cu limit).
#[local] Abbreviation body := (page_body limit reader D U).
#[local] Abbreviation horizon := (horizon_of limit D U).

Definition page : list entry := take (Z.to_nat count) body.
Definition cut : bool := count <? Z.of_nat (length body).

(** Past what a page covers: its last entry if it was cut, the horizon otherwise. *)
Definition beyond (i : sid) : Prop :=
  if cut then exists l, list.last page = Some l /\ sid_lt l.1 i
  else exists h, horizon = Some h /\ sid_lt h i.

Lemma read_ok l c n : Forall (fun x => sid_ok x.1) l -> Forall (fun x => sid_ok x.1) (read l c n).
Proof using Type.
  rewrite !list.Forall_forall. intros Hl x Hx. by apply Hl, (elem_read _ c n).
Qed.

Lemma page_merged : merged_spec key reader D U (merged_of reader D U).
Proof using Hvals Hdok Haok. apply collected_spec; [done|by apply read_ok..]. Qed.

Lemma elem_body x : x ∈ body <-> x ∈ merged_of reader D U /\ within horizon x.1 = true.
Proof using Type.
  unfold page_body. rewrite list_elem_of_In, filter_In, <- list_elem_of_In. by rewrite sort_by_perm.
Qed.

Lemma body_sorted : StronglySorted (fun a b => sid_le a.1 b.1) body.
Proof using Type.
  apply sorted_filter, (sort_by_sorted _ _ (fun _ => True)).
  - intros a b _ _ E. destruct (sid_compare_spec a.1 b.1); try done. sid_order.
  - intros a b _ _ E. destruct (sid_compare_spec a.1 b.1) as [->| |]; try done; sid_order.
  - intros a b c. sid_order.
  - by apply list.Forall_forall.
Qed.

Lemma cut_last : cut = true -> exists l, list.last page = Some l /\ l ∈ body.
Proof using Hcount.
  unfold cut, page. intros Hc. apply Z.ltb_lt in Hc.
  destruct (list.last (take (Z.to_nat count) body)) as [l|] eqn:E.
  - exists l. split; [done|]. apply last_Some_elem_of in E.
    by apply elem_of_take in E as (? & E%list_elem_of_lookup_2 & _).
  - apply last_None in E. apply (f_equal length) in E. rewrite length_take in E. cbn in E. lia.
Qed.

Lemma within_le x : within horizon x = true -> forall h, horizon = Some h -> sid_le x h.
Proof using Type.
  intros Hw h Hh. rewrite Hh in Hw. cbn in Hw. destruct (sid_ltb_spec h x); [done|]. sid_order.
Qed.

(** An id past the horizon is past the page. *)
Lemma horizon_beyond h i : horizon = Some h -> sid_lt h i -> beyond i.
Proof using Hcount.
  intros Hh Hi. unfold beyond. destruct cut eqn:Hc; [|by eauto].
  destruct (cut_last Hc) as (l & Hl & Hb). exists l. split; [done|].
  apply elem_body in Hb as [_ Hw]. pose proof (within_le _ Hw _ Hh). sid_order.
Qed.

Lemma unread_beyond l c x :
  (l = Dev /\ c = cd) \/ (l = Acc /\ c = cu) ->
  x ∈ l -> sid_lt c x.1 -> x ∉ read l c limit -> beyond x.1.
Proof using Hcount Hdev Hacc.
  intros Hlc Hx Hc Hn.
  destruct (not_read l c limit x) as (h & Hh & Hlt); [by destruct Hlc as [[-> _]|[-> _]]|done..|lia|].
  assert (exists h', horizon = Some h' /\ sid_le h' h) as (h' & Hh' & Hle).
  { unfold horizon_of. destruct Hlc as [[-> ->]|[-> ->]]; rewrite Hh.
    - destruct (full_end limit U) as [b|]; [|exists h; split; [done|sid_order]].
      eexists. split; [done|]. destruct (sid_ltb_spec b h); sid_order.
    - destruct (full_end limit D) as [a|]; [|exists h; split; [done|sid_order]].
      eexists. split; [done|]. destruct (sid_ltb_spec h a); sid_order. }
  eapply horizon_beyond; [done|]. sid_order.
Qed.

(** An entry of the merge is an entry of one of the streams, past its position. *)
Lemma merged_from x :
  x ∈ merged_of reader D U ->
  x ∈ Dev /\ sid_lt cd x.1 \/ x ∈ Acc /\ sid_lt cu x.1 /\ mine reader x = true.
Proof using Hvals Hdok Haok.
  intros Hx. apply (ms_from _ _ _ _ _ page_merged) in Hx as [Hx|[Hx Hm]]; apply elem_read in Hx; tauto.
Qed.

Lemma merged_waits j e :
  (j, Some e) ∈ merged_of reader D U -> waits (key e) cd cu j.
Proof using Hvals Hdok Haok.
  intros Hx. exists e. split; [done|]. destruct (merged_from _ Hx) as [?|(? & ? & Hm)]; [by left|right].
  unfold mine in Hm. cbn in Hm. by apply negb_true_iff in Hm.
Qed.

(** Two entries of the merge with the same id are the same delivery. *)
Lemma merged_same_id i o e :
  (i, o) ∈ merged_of reader D U -> (i, Some e) ∈ merged_of reader D U -> (i, o) = (i, Some e).
Proof using Hvals Hdok Haok Hdev Hacc Hclash.
  intros Hx Hy.
  assert (forall o1 o2, (i, o1) ∈ Dev -> (i, o2) ∈ Acc -> mine reader (i, o2) = true ->
    (i, o1) ∈ merged_of reader D U -> (i, o2) ∈ merged_of reader D U -> o1 <> None \/ o2 <> None ->
    o1 = o2) as Hboth.
  { intros o1 o2 H1 H2 Hm M1 M2 Hsome. pose proof (Hclash _ _ _ H1 H2 Hm) as Hc.
    destruct o1 as [e1|], o2 as [e2|]; try done.
    by pose proof (ms_uniq _ _ _ _ _ page_merged _ _ _ _ M1 M2 Hc) as [= ->]. }
  destruct (merged_from _ Hx) as [[H1 _]|(H1 & _ & Hm1)], (merged_from _ Hy) as [[H2 _]|(H2 & _ & Hm2)].
  - by apply (ordered_unique Dev).
  - f_equal. by apply Hboth; auto.
  - f_equal. symmetry. apply Hboth; auto.
  - by apply (ordered_unique Acc).
Qed.

(** An entry of the body that the cut left out has a greater id than the page. *)
Lemma cut_beyond j e : (j, Some e) ∈ body -> (j, Some e) ∉ page -> beyond j.
Proof using Hvals Hdok Haok Hdev Hacc Hclash Hcount.
  intros Hbody Hn. destruct (sorted_beyond _ (Z.to_nat count) _ _ body_sorted Hbody Hn) as [Hlen Hle].
  unfold beyond. destruct cut eqn:Hcut.
  - destruct (cut_last Hcut) as ([l o] & Hl & Hlb). exists (l, o). split; [done|].
    pose proof (Hle _ (last_Some_elem_of _ _ Hl)) as Hlj. cbn in *.
    destruct (sid_compare_spec l j) as [->| |]; [|done|sid_order].
    exfalso. apply Hn. apply elem_body in Hlb as [Hlm _], Hbody as [Hj _].
    rewrite <- (merged_same_id _ _ _ Hlm Hj). by eapply last_Some_elem_of.
  - exfalso. apply Hn. unfold page, cut in *. apply Z.ltb_ge in Hcut. by rewrite take_ge by lia.
Qed.

(** What waits is in the page, or still waits past what the page covers. *)
Lemma pending_step k :
  pending k cd cu ->
  (exists i e, (i, Some e) ∈ page /\ key e = k) \/ (exists i, waits k cd cu i /\ beyond i).
Proof using Hvals Hdok Haok Hdev Hacc Hclash Hcount.
  intros (i & e & <- & Hi).
  assert (((i, Some e) ∈ D \/ (i, Some e) ∈ U /\ is_sibling reader e = false) \/ beyond i) as [Hr|Hb].
  { destruct Hi as [[Hin Hlt]|(Hin & Hlt & Hs)].
    - destruct (decide ((i, Some e) ∈ D)) as [?|Hn]; [by left; left|]. right.
      by apply (unread_beyond Dev cd (i, Some e)); auto.
    - destruct (decide ((i, Some e) ∈ U)) as [?|Hn]; [by left; right|]. right.
      by apply (unread_beyond Acc cu (i, Some e)); auto. }
  2:{ right. exists i. split; [by exists e|done]. }
  destruct (ms_key _ _ _ _ _ page_merged i e Hr) as (j & e' & Hj & <-).
  destruct (decide ((j, Some e') ∈ page)) as [?|Hn]; [by left; eauto|right]. exists j.
  split; [by apply merged_waits|]. destruct (within horizon j) eqn:Hw.
  - apply (cut_beyond j e'); [by apply elem_body|done].
  - unfold within in Hw. destruct horizon as [h|] eqn:Hh; [|done]. apply negb_false_iff in Hw.
    destruct (sid_ltb_spec h j); [|done]. by apply (horizon_beyond h).
Qed.

Definition more : bool := cut || bool_decide (is_Some horizon).

(** The last page: nothing is beyond it. *)
Lemma no_more_beyond i : more = false -> ~ beyond i.
Proof using Type.
  unfold more, beyond. intros [-> Hh]%orb_false_iff (h & E & _). apply bool_decide_eq_false in Hh.
  rewrite E in Hh. by destruct Hh.
Qed.

Lemma page_in_body x : x ∈ page -> x ∈ body.
Proof using Type. unfold page. intros Hx. by apply elem_of_take in Hx as (? & Hx%list_elem_of_lookup_2 & _). Qed.

(** A page with nothing in it that says there is more, read user entries. *)
Lemma empty_page_reads :
  page = [] -> more = true -> exists y, list.last U = Some y /\ within horizon y.1 = true /\ cut = false.
Proof using Hvals Hdok Haok Hcount.
  intros Hp Hm. assert (cut = false) as Hc.
  { destruct cut eqn:Hc; [|done]. destruct (cut_last Hc) as (l & Hl & _). by rewrite Hp in Hl. }
  unfold more in Hm. rewrite Hc in Hm. cbn in Hm. apply bool_decide_eq_true in Hm as [h Hh].
  assert (forall x, list.last D = Some x -> within horizon x.1 = false) as Hd.
  { intros x Hx. destruct (within horizon x.1) eqn:Hw; [|done]. exfalso.
    assert (x ∈ body) as Hb.
    { apply elem_body. split; [|done]. by apply (ms_last _ _ _ _ _ page_merged). }
    unfold page, cut in *. apply Z.ltb_ge in Hc. rewrite take_ge in Hp by lia. rewrite Hp in Hb.
    by apply not_elem_of_nil in Hb. }
  assert (full_end limit D <> Some h) as Hnd.
  { intros (_ & x & Hx & <- & _)%full_end_in; [|by apply read_ok]. apply Hd in Hx.
    rewrite Hh in Hx. cbn in Hx. destruct (sid_ltb_spec x.1 x.1); [sid_order|done]. }
  assert (full_end limit U = Some h) as Hu.
  { unfold horizon_of in Hh. destruct (full_end limit D), (full_end limit U); try done.
    destruct (sid_ltb _ _); [done|]. by destruct Hnd. }
  apply full_end_in in Hu as (_ & y & Hy & Hyh & _); [|by apply read_ok]. exists y.
  split_and!; [done| |done]. rewrite Hh, Hyh. cbn. destruct (sid_ltb_spec h h); [sid_order|done].
Qed.

(** Cut back to the horizon, the user read ends where the device read does. *)
Lemma examined_cases y :
  list.last U = Some y ->
  examined_of limit D U = Some y.1 \/
  (exists h, examined_of limit D U = Some h /\ full_end limit D = Some h /\ horizon = Some h).
Proof using Haok.
  intros Hy. unfold examined_of. rewrite Hy. cbn. destruct (within horizon y.1) eqn:Hw; [by left|right].
  unfold within in Hw. destruct horizon as [h|] eqn:Hh; [|done]. exists h. split_and!; [done| |done].
  apply negb_false_iff in Hw. destruct (sid_ltb_spec h y.1) as [Hlt|]; [|done].
  unfold horizon_of in Hh. destruct (full_end limit D) as [a|] eqn:Ea, (full_end limit U) as [b|] eqn:Eb;
    try done.
  - apply full_end_in in Eb as (_ & y' & Hy' & <- & _); [|by apply read_ok].
    rewrite Hy in Hy'. injection Hy' as <-. injection Hh as <-.
    destruct (sid_ltb y.1 a); [sid_order|done].
  - apply full_end_in in Eb as (_ & y' & Hy' & <- & _); [|by apply read_ok].
    rewrite Hy in Hy'. injection Hy' as <-. injection Hh as <-. sid_order.
Qed.

Lemma examined_le_horizon x h :
  examined_of limit D U = Some x -> horizon = Some h -> sid_le x h.
Proof using Type.
  unfold examined_of. destruct (list.last U) as [y|]; cbn; [|done]. intros [= <-] Hh. rewrite Hh. cbn.
  destruct (sid_ltb_spec h y.1); cbn; sid_order.
Qed.

Lemma examined_none : examined_of limit D U = None -> list.last U = None.
Proof using Type. unfold examined_of. by destruct (list.last U). Qed.

End At.

(** ** Moving on *)

Lemma after_le l c c' : sid_le c c' -> (length (after l c') <= length (after l c))%nat.
Proof using Type.
  intros Hc. unfold after. induction l as [|x l IH]; cbn; [done|].
  destruct (sid_ltb_spec c' x.1), (sid_ltb_spec c x.1); cbn; try lia. sid_order.
Qed.

Lemma after_lt l c c' x :
  sid_le c c' -> x ∈ l -> sid_lt c x.1 -> sid_le x.1 c' -> (length (after l c') < length (after l c))%nat.
Proof using Type.
  intros Hc Hx H1 H2. induction l as [|y l IH]; [by apply not_elem_of_nil in Hx|].
  apply elem_of_cons in Hx as [->|Hx].
  - pose proof (after_le l c c' Hc). unfold after in *. cbn.
    destruct (sid_ltb_spec c' y.1), (sid_ltb_spec c y.1); cbn; try lia; sid_order.
  - specialize (IH Hx). unfold after in *. cbn.
    destruct (sid_ltb_spec c' y.1), (sid_ltb_spec c y.1); cbn; try lia; sid_order.
Qed.

Lemma after_suffix l c c' : ordered l -> sid_le c c' -> exists pre, after l c = pre ++ after l c'.
Proof using Type.
  intros Hl Hc. induction Hl as [|x l Hs [pre IH] Hx]; [by exists []|]. unfold after in *. cbn.
  destruct (sid_ltb_spec c' x.1), (sid_ltb_spec c x.1).
  - assert (forall d, sid_le d c' -> List.filter (fun y => sid_ltb d y.1) l = l) as Hall.
    { intros d Hd. clear IH pre Hs. induction Hx as [|y k Hy Hk IHk]; cbn; [done|].
      destruct (sid_ltb_spec d y.1); [by rewrite IHk|sid_order]. }
    exists []. rewrite !Hall by sid_order. done.
  - sid_order.
  - exists (x :: pre). cbn. by rewrite IH.
  - by exists pre.
Qed.

Lemma full_end_lookup n l h :
  0 < n -> full_end n (take (Z.to_nat n) l) = Some h <->
  exists x, l !! (Z.to_nat n - 1)%nat = Some x /\ x.1 = h.
Proof using Type.
  intros Hn. unfold full_end. rewrite length_take.
  destruct (Z.leb_spec n (Z.of_nat (Z.to_nat n `min` length l))) as [Hle|Hlt].
  - rewrite last_lookup, length_take, lookup_take_lt by lia.
    replace (pred (Z.to_nat n `min` length l)) with (Z.to_nat n - 1)%nat by lia.
    destruct (l !! (Z.to_nat n - 1)%nat) as [x|]; cbn.
    + split; [intros [= <-]; by eauto|by intros (? & [= ->] & <-)].
    + split; [done|by intros (? & ? & _)].
  - split; [done|]. intros (x & Hx & _). apply lookup_lt_Some in Hx. lia.
Qed.

(** A later read that is full ends later. *)
Lemma full_end_mono l n c c' h' :
  ordered l -> 0 < n -> sid_le c c' -> full_end n (read l c' n) = Some h' ->
  exists h, full_end n (read l c n) = Some h /\ sid_le h h'.
Proof using Type.
  intros Hl Hn Hc. unfold read. rewrite full_end_lookup by done. intros (x' & Hx' & <-).
  destruct (after_suffix l c c' Hl Hc) as [pre Hpre].
  assert (ordered (pre ++ after l c')) as Ho by (rewrite <- Hpre; by apply sorted_filter).
  assert (Z.to_nat n - 1 < length (pre ++ after l c'))%nat as Hlen.
  { rewrite length_app. apply lookup_lt_Some in Hx'. lia. }
  apply lookup_lt_is_Some in Hlen as [x Hx]. exists x.1. split.
  { apply full_end_lookup; [done|]. rewrite Hpre. by eauto. }
  assert (exists k, (Z.to_nat n - 1 <= k)%nat /\ (pre ++ after l c') !! k = Some x') as (k & Hk & Hxk).
  { exists (length pre + (Z.to_nat n - 1))%nat. split; [lia|]. rewrite lookup_app_r by lia.
    by replace (length pre + (Z.to_nat n - 1) - length pre)%nat with (Z.to_nat n - 1)%nat by lia. }
  destruct (decide (k = Z.to_nat n - 1)%nat) as [->|Hne]; [rewrite Hx in Hxk; injection Hxk as ->; sid_order|].
  assert (sid_lt x.1 x'.1); [|sid_order].
  eapply (sorted_lookup_lt _ _ _ _ _ _ Ho); [|exact Hx|exact Hxk]. lia.
Qed.

(** ** A stream's reader: two positions

    The delivery cursor [cd], and [us], how far the account's stream was examined. *)

Definition user_position (cd us : sid) : sid := sid_max cd us.

Definition next_last (cd cu : sid) : sid := from_option fst cd (list.last (page cd cu)).

Definition next_examined (us cd cu : sid) : sid :=
  if cut cd cu then us else default us (examined_of limit (read Dev cd limit) (read Acc cu limit)).

(** The account's stream is never read past where a full device read ends. *)
Definition in_step (cd us : sid) : Prop :=
  forall h, full_end limit (read Dev cd limit) = Some h -> sid_le us h.

Definition measure (cd cu : sid) : nat := (length (after Dev cd) + length (after Acc cu))%nat.

Lemma sid_max_le a b : sid_le a (sid_max a b) /\ sid_le b (sid_max a b).
Proof using Type. unfold sid_max. destruct (sid_ltb_spec a b); sid_order. Qed.

Lemma sid_max_lub a b c : sid_le a c -> sid_le b c -> sid_le (sid_max a b) c.
Proof using Type. unfold sid_max. by destruct (sid_ltb a b). Qed.

Lemma page_id_from cd cu x :
  x ∈ page cd cu -> x ∈ Dev /\ sid_lt cd x.1 \/ x ∈ Acc /\ sid_lt cu x.1.
Proof using Hvals Hdok Haok.
  intros Hx%page_in_body%elem_body. destruct Hx as [Hx _]. apply merged_from in Hx. tauto.
Qed.

Section TwoCursors.
Context (cd us : sid).

#[local] Abbreviation cu := (user_position cd us).
#[local] Abbreviation cd' := (next_last cd cu).
#[local] Abbreviation us' := (next_examined us cd cu).
#[local] Abbreviation cu' := (user_position cd' us').

Lemma next_last_mono : sid_le cd cd'.
Proof using Hvals Hdok Haok.
  unfold next_last. destruct (list.last (page cd cu)) as [l|] eqn:E; cbn; [|sid_order].
  apply last_Some_elem_of, page_id_from in E. pose proof (sid_max_le cd us) as [? _].
  unfold user_position in *. destruct E as [[_ ?]|[_ ?]]; sid_order.
Qed.

Lemma next_examined_mono : in_step cd us -> sid_le us us'.
Proof using Haok.
  intros Hin. unfold next_examined. destruct (cut cd cu); [sid_order|].
  destruct (examined_of limit _ _) as [x|] eqn:E; cbn; [|sid_order].
  destruct (list.last (read Acc cu limit)) as [y|] eqn:Ey.
  - destruct (examined_cases cd cu y Ey) as [Hx|(h & Hx & Hd & _)]; rewrite E in Hx; injection Hx as ->.
    + apply last_Some_elem_of, elem_read in Ey as [_ Hy]. pose proof (sid_max_le cd us) as [_ ?].
      unfold user_position in *. sid_order.
    + by apply Hin.
  - unfold examined_of in E. by rewrite Ey in E.
Qed.

Lemma in_step_next : in_step cd us -> in_step cd' us'.
Proof using Hvals Hdok Haok Hdev Hcount.
  intros Hin h' Hh'.
  destruct (full_end_mono Dev limit cd cd' h' Hdev ltac:(lia) next_last_mono Hh') as (h & Hh & Hle).
  specialize (Hin h Hh). unfold next_examined. destruct (cut cd cu); [sid_order|].
  destruct (examined_of limit _ _) as [x|] eqn:E; cbn; [|sid_order].
  assert (exists h0, horizon_of limit (read Dev cd limit) (read Acc cu limit) = Some h0 /\ sid_le h0 h)
    as (h0 & Hh0 & Hle0).
  { unfold horizon_of. rewrite Hh. destruct (full_end limit (read Acc cu limit)) as [b|].
    - eexists. split; [done|]. destruct (sid_ltb_spec b h); sid_order.
    - exists h. split; [done|sid_order]. }
  pose proof (examined_le_horizon _ _ _ _ E Hh0). sid_order.
Qed.

(** A page that says there is more, moves the reader over an entry. *)
Lemma progress :
  in_step cd us -> more cd cu = true -> (measure cd' cu' < measure cd cu)%nat.
Proof using Hvals Hdok Haok Hcount.
  intros Hin Hm. unfold measure. pose proof next_last_mono as Hcd.
  pose proof (next_examined_mono Hin) as Hus.
  pose proof (sid_max_le cd' us') as [Hm1 Hm2]. fold cu' in Hm1, Hm2.
  assert (sid_le cu cu') as Hcu by (apply sid_max_lub; sid_order).
  pose proof (after_le Dev _ _ Hcd). pose proof (after_le Acc _ _ Hcu).
  destruct (list.last (page cd cu)) as [l|] eqn:El.
  - pose proof (page_id_from _ _ _ (last_Some_elem_of _ _ El)) as Hl.
    assert (cd' = l.1) as Hcd' by (unfold next_last; by rewrite El).
    destruct Hl as [[Hl Hlt]|[Hl Hlt]].
    + pose proof (after_lt Dev cd cd' l Hcd Hl Hlt ltac:(rewrite Hcd'; sid_order)). lia.
    + pose proof (after_lt Acc cu cu' l Hcu Hl Hlt ltac:(rewrite <- Hcd'; done)). lia.
  - apply last_None in El. destruct (empty_page_reads cd cu El Hm) as (y & Hy & Hw & Hc).
    assert (us' = y.1) as Hus'.
    { unfold next_examined. rewrite Hc. unfold examined_of. rewrite Hy. cbn. by rewrite Hw. }
    apply last_Some_elem_of, elem_read in Hy as [Hy Hlt].
    pose proof (after_lt Acc cu cu' y Hcu Hy Hlt ltac:(rewrite <- Hus'; done)). lia.
Qed.

(** What waits past the page, waits past the new positions. *)
Lemma beyond_next k i : waits k cd cu i -> beyond cd cu i -> waits k cd' cu' i.
Proof using Hvals Hdok Haok Hcount.
  intros (e & Hk & Hi) Hb. exists e. split; [done|].
  assert (sid_lt cd i -> sid_lt cd' i) as Hcd.
  { intros Hlt. unfold next_last. destruct (list.last (page cd cu)) as [l|] eqn:El; cbn; [|done].
    unfold beyond in Hb. rewrite El in Hb.
    destruct (cut cd cu); [by destruct Hb as (l' & [= <-] & ?)|].
    destruct Hb as (h & Hh & Hlt'). apply last_Some_elem_of, page_in_body, elem_body in El as [_ Hw].
    pose proof (within_le cd cu _ Hw _ Hh). sid_order. }
  destruct Hi as [[Hin Hlt]|(Hin & Hlt & Hs)]; [left; by auto|right]. split_and!; [done| |done].
  pose proof (sid_max_le cd us) as [H1 H2]. fold cu in H1, H2.
  assert (sid_lt cd' i) by (apply Hcd; sid_order).
  unfold user_position at 1. unfold sid_max. destruct (sid_ltb _ _); [|done].
  unfold next_examined. unfold beyond in Hb. destruct (cut cd cu); [sid_order|].
  destruct Hb as (h & Hh & Hlt'). destruct (examined_of limit _ _) as [x|] eqn:E; cbn; [|sid_order].
  pose proof (examined_le_horizon _ _ _ _ E Hh). sid_order.
Qed.

End TwoCursors.

(** Reading on while there is more. *)
Fixpoint poll_pages (fuel : nat) (cd us : sid) : option (list entry * sid * sid) :=
  match fuel with
  | O => None
  | S fuel' =>
      let cu := user_position cd us in
      let cd' := next_last cd cu in
      let us' := next_examined us cd cu in
      if negb (more cd cu) then Some (page cd cu, cd', us')
      else if bool_decide (cd' = cd /\ us' = us) then Some (page cd cu, cd', us')
      else match poll_pages fuel' cd' us' with
           | Some (out, c, u) => Some (page cd cu ++ out, c, u)
           | None => None
           end
  end.

Lemma page_sound cd cu x :
  x ∈ page cd cu -> (x ∈ Dev /\ sid_lt cd x.1) \/ (x ∈ Acc /\ sid_lt cu x.1 /\ mine reader x = true).
Proof using Hvals Hdok Haok.
  intros Hx%page_in_body%elem_body. by apply merged_from, Hx.
Qed.

Theorem poll_pages_complete fuel cd us :
  in_step cd us -> (measure cd (user_position cd us) < fuel)%nat ->
  exists out cd' us', poll_pages fuel cd us = Some (out, cd', us') /\
    (forall k, pending k cd (user_position cd us) -> exists i e, (i, Some e) ∈ out /\ key e = k) /\
    (forall x, x ∈ out -> x ∈ Dev \/ x ∈ Acc /\ mine reader x = true).
Proof using Hvals Hdok Haok Hdev Hacc Hclash Hcount.
  revert cd us. induction fuel as [|fuel IH]; intros cd us Hin Hf; [lia|]. cbn [poll_pages].
  set (cu := user_position cd us) in *.
  assert (forall x, x ∈ page cd cu -> x ∈ Dev \/ x ∈ Acc /\ mine reader x = true) as Hpage.
  { intros x Hx%page_sound. tauto. }
  destruct (more cd cu) eqn:Hm; cbn [negb].
  - pose proof (progress cd us Hin Hm) as Hp. fold cu in Hp.
    rewrite bool_decide_false by (intros [E1 E2]; rewrite E1, E2 in Hp; fold cu in Hp; lia).
    destruct (IH (next_last cd cu) (next_examined us cd cu)) as (out & c & u & E & Hall & Hout).
    { by apply in_step_next. } { lia. }
    rewrite E. do 3 eexists. split; [done|]. split.
    + intros k Hk. destruct (pending_step cd cu k Hk) as [(i & e & Hi & Hke)|(i & Hw & Hb)].
      * exists i, e. split; [apply elem_of_app; by left|done].
      * destruct (Hall k) as (j & e & Hj & Hke); [exists i; by apply beyond_next|].
        exists j, e. split; [apply elem_of_app; by right|done].
    + intros x [Hx|Hx]%elem_of_app; auto.
  - do 3 eexists. split; [done|]. split; [|done]. intros k Hk.
    destruct (pending_step cd cu k Hk) as [?|(i & _ & Hb)]; [done|].
    by apply no_more_beyond in Hb.
Qed.

(** A reader that starts at a cursor has examined nothing yet. *)
Lemma in_step_start cd : in_step cd (0, 0).
Proof using Hdok.
  intros h Hh. apply full_end_in in Hh as [[[? _] [? _]] _]; [|by apply read_ok]. sid_order.
Qed.

(** ** One cursor for both streams *)

Definition resume_sid (c : sid) : sid :=
  sid_max (sid_max c (next_last c c)) (next_examined c c c).

Fixpoint catch_up (fuel : nat) (c : sid) : option (list entry * sid) :=
  match fuel with
  | O => None
  | S fuel' =>
      if negb (more c c) then Some (page c c, resume_sid c)
      else match catch_up fuel' (resume_sid c) with
           | Some (out, c') => Some (page c c ++ out, c')
           | None => None
           end
  end.

Lemma resume_mono c : sid_le c (resume_sid c).
Proof using Type.
  unfold resume_sid. pose proof (sid_max_le c (next_last c c)).
  pose proof (sid_max_le (sid_max c (next_last c c)) (next_examined c c c)). sid_order.
Qed.

Lemma resume_progress c : more c c = true -> (measure (resume_sid c) (resume_sid c) < measure c c)%nat.
Proof using Hvals Hdok Haok Hcount.
  intros Hm. unfold measure. pose proof (resume_mono c) as Hc.
  pose proof (after_le Dev _ _ Hc). pose proof (after_le Acc _ _ Hc).
  pose proof (sid_max_le c (next_last c c)) as [_ H1].
  pose proof (sid_max_le (sid_max c (next_last c c)) (next_examined c c c)) as [H2 H3].
  fold (resume_sid c) in H2, H3.
  destruct (list.last (page c c)) as [l|] eqn:El.
  - pose proof (page_id_from _ _ _ (last_Some_elem_of _ _ El)) as Hl.
    assert (sid_le l.1 (resume_sid c)) as Hle.
    { unfold next_last in H1 at 1. rewrite El in H1. cbn in H1. sid_order. }
    destruct Hl as [[Hl Hlt]|[Hl Hlt]].
    + pose proof (after_lt Dev c _ l Hc Hl Hlt Hle). lia.
    + pose proof (after_lt Acc c _ l Hc Hl Hlt Hle). lia.
  - apply last_None in El. destruct (empty_page_reads c c El Hm) as (y & Hy & Hw & Hcut).
    assert (sid_le y.1 (resume_sid c)) as Hle.
    { unfold next_examined in H3 at 1. rewrite Hcut in H3. unfold examined_of in H3. rewrite Hy in H3.
      cbn in H3. by rewrite Hw in H3. }
    apply last_Some_elem_of, elem_read in Hy as [Hy Hlt].
    pose proof (after_lt Acc c _ y Hc Hy Hlt Hle). lia.
Qed.

Lemma resume_beyond c i : sid_lt c i -> beyond c c i -> sid_lt (resume_sid c) i.
Proof using Type.
  intros Hlt Hb.
  assert (sid_lt (next_last c c) i) as Hl.
  { unfold next_last. destruct (list.last (page c c)) as [l|] eqn:El; cbn; [|done].
    unfold beyond in Hb. rewrite El in Hb. destruct (cut c c); [by destruct Hb as (l' & [= <-] & ?)|].
    destruct Hb as (h & Hh & Hlt'). apply last_Some_elem_of, page_in_body, elem_body in El as [_ Hw].
    pose proof (within_le c c _ Hw _ Hh). sid_order. }
  assert (sid_lt (next_examined c c c) i) as He.
  { unfold next_examined. unfold beyond in Hb. destruct (cut c c); [done|].
    destruct Hb as (h & Hh & Hlt'). destruct (examined_of limit _ _) as [x|] eqn:E; cbn; [|done].
    pose proof (examined_le_horizon _ _ _ _ E Hh). sid_order. }
  unfold resume_sid, sid_max. by repeat case_match.
Qed.

Theorem catch_up_complete fuel c :
  (measure c c < fuel)%nat ->
  exists out c', catch_up fuel c = Some (out, c') /\
    (forall k, pending k c c -> exists i e, (i, Some e) ∈ out /\ key e = k) /\
    (forall x, x ∈ out -> x ∈ Dev \/ x ∈ Acc /\ mine reader x = true).
Proof using Hvals Hdok Haok Hdev Hacc Hclash Hcount.
  revert c. induction fuel as [|fuel IH]; intros c Hf; [lia|]. cbn [catch_up].
  assert (forall x, x ∈ page c c -> x ∈ Dev \/ x ∈ Acc /\ mine reader x = true) as Hpage.
  { intros x Hx%page_sound. tauto. }
  destruct (more c c) eqn:Hm; cbn [negb].
  - pose proof (resume_progress c Hm) as Hp.
    destruct (IH (resume_sid c)) as (out & c' & E & Hall & Hout); [lia|]. rewrite E.
    do 2 eexists. split; [done|]. split.
    + intros k Hk. destruct (pending_step c c k Hk) as [(i & e & Hi & Hke)|(i & (e & Hk' & Hi) & Hb)].
      * exists i, e. split; [apply elem_of_app; by left|done].
      * destruct (Hall k) as (j & e' & Hj & Hke).
        { exists i, e. split; [done|]. destruct Hi as [[? ?]|(? & ? & ?)];
            [left|right]; split_and!; try done; by apply resume_beyond. }
        exists j, e'. split; [apply elem_of_app; by right|done].
    + intros x [Hx|Hx]%elem_of_app; auto.
  - do 2 eexists. split; [done|]. split; [|done]. intros k Hk.
    destruct (pending_step c c k Hk) as [?|(i & _ & Hb)]; [done|].
    by apply no_more_beyond in Hb.
Qed.

End Merge.
End Paging.
