(* ===== verification/MailboxGaps.v ===== *)
(** * Lost entries are reported

    A mailbox loses entries in three ways: a write at the cap evicts the oldest, a
    purge deletes those of a blocked sender, the sweep trims by age. The file shows
    that [mailbox_gap] of Mailbox.v reports every loss past a cursor: an invariant of
    a stream and the ids ever written to it, preserved by the three operations. *)

From Stdlib Require Import Sorting.Sorted.
From S2P Require Import Prelude Text RedisStore Mailbox MailboxPaging.

Module Gaps.
Import Redis Mailbox Paging.

(** ** Reading [XINFO] *)

Definition is_ascii (s : string) : Prop := Forall (fun b => in_range 0 127 b = true) (as_bytes s).

Lemma ascii_app s t : is_ascii s -> is_ascii t -> is_ascii (s +:+ t).
Proof.
  intros Hs Ht. induction s as [|a s IH]; [exact Ht|].
  change (is_ascii (String a (s +:+ t))). apply list.Forall_cons in Hs as [Ha Hs].
  constructor; [done|]. by apply IH.
Qed.

Lemma dec_ascii n : is_ascii (dec_of_N n).
Proof.
  unfold is_ascii, dec_of_N, DecimalString.NilZero.string_of_uint.
  destruct (N.to_uint n) as [|d|d|d|d|d|d|d|d|d|d] eqn:E; clear E;
    [by repeat constructor|..]; cbn; constructor; try done; induction d; cbn; by constructor.
Qed.

Lemma ascii_valid s : is_ascii s -> utf8_valid (as_bytes s) = true.
Proof.
  unfold is_ascii, as_bytes. generalize (String.list_byte_of_string s). intros l Hl.
  induction Hl as [|b l Hb _ IH]; [done|]. cbn [utf8_valid]. by rewrite Hb.
Qed.

Lemma text_show i : sid_ok i -> text (RvBulkString (show_sid i)) = Some (show_sid i).
Proof.
  intros [[H1 _] [H2 _]]. cbn. apply from_utf8_as_bytes. apply ascii_valid.
  unfold show_sid, to_string. destruct (Z.ltb_spec i.1 0); [lia|]. destruct (Z.ltb_spec i.2 0); [lia|].
  apply ascii_app; [apply dec_ascii|]. apply ascii_app; [by repeat constructor|]. apply dec_ascii.
Qed.

(** What the gap rule sees of a stream. *)
Definition info_of (s : stream) : StreamInfo := {|
  max_deleted := Some (show_sid (s_max_deleted s));
  first_entry := option_map (fun e => show_sid e.1) (head (s_entries s));
  last_generated := Some (show_sid (s_last s));
  si_length := Z.of_nat (length (s_entries s));
  entries_added := s_added s |}.

Definition marks_ok (s : stream) : Prop :=
  sid_ok (s_last s) /\ sid_ok (s_max_deleted s) /\ 0 <= s_added s /\ stream_ok s.

Lemma pairs_of_flat l : pairs_of (flat_fields l) = l.
Proof. induction l as [|[k v] l IH]; [done|]. cbn. by f_equal. Qed.

(** One field of the reply at a time. *)
Lemma info_field_length i v : info_field i (RvBulkString "length", v) = {|
  max_deleted := max_deleted i; first_entry := first_entry i; last_generated := last_generated i;
  si_length := int v; entries_added := entries_added i |}.
Proof. reflexivity. Qed.

Lemma info_field_last i v : info_field i (RvBulkString "last-generated-id", v) = {|
  max_deleted := max_deleted i; first_entry := first_entry i; last_generated := text v;
  si_length := si_length i; entries_added := entries_added i |}.
Proof. reflexivity. Qed.

Lemma info_field_deleted i v : info_field i (RvBulkString "max-deleted-entry-id", v) = {|
  max_deleted := text v; first_entry := first_entry i; last_generated := last_generated i;
  si_length := si_length i; entries_added := entries_added i |}.
Proof. reflexivity. Qed.

Lemma info_field_added i v : info_field i (RvBulkString "entries-added", v) = {|
  max_deleted := max_deleted i; first_entry := first_entry i; last_generated := last_generated i;
  si_length := si_length i; entries_added := int v |}.
Proof. reflexivity. Qed.

Lemma info_field_first i x l : info_field i (RvBulkString "first-entry", RvArray (x :: l)) = {|
  max_deleted := max_deleted i; first_entry := text x; last_generated := last_generated i;
  si_length := si_length i; entries_added := entries_added i |}.
Proof. reflexivity. Qed.

Lemma info_field_rest i v :
  info_field i (RvBulkString "groups", v) = i /\ info_field i (RvBulkString "last-entry", v) = i /\
  info_field i (RvBulkString "first-entry", RvNil) = i.
Proof. by destruct i. Qed.

Lemma parse_info_map s : marks_ok s -> parse_xinfo_stream (RvMap (info_fields s)) = info_of s.
Proof.
  intros (Hl & Hm & Ha & _ & Hs). unfold parse_xinfo_stream, info_fields. cbn [fold_left].
  rewrite info_field_length, info_field_last, info_field_deleted, info_field_added.
  rewrite !text_show by done. cbn [max_deleted last_generated first_entry si_length entries_added].
  rewrite (proj1 (info_field_rest _ _)), (proj1 (proj2 (info_field_rest _ _))).
  assert (int (RvInt (s_added s)) = s_added s) as -> by (cbn; lia).
  assert (forall n, int (RvInt (Z.of_nat n)) = Z.of_nat n) as -> by (intros; cbn; lia).
  unfold info_of. destruct (s_entries s) as [|x l] eqn:E.
  - change (option_value (head [])) with RvNil. by rewrite (proj2 (proj2 (info_field_rest _ RvNil))).
  - apply list.Forall_cons in Hs as [Hx _].
    change (option_value (head (x :: l))) with (entry_value x). unfold entry_value.
    rewrite info_field_first, text_show by done. done.
Qed.

Lemma parse_info_flat s :
  marks_ok s -> parse_xinfo_stream (RvArray (flat_fields (info_fields s))) = info_of s.
Proof.
  intros Hs. rewrite <- parse_info_map by done. unfold parse_xinfo_stream. by rewrite pairs_of_flat.
Qed.

(** ** The invariant of a stream and the ids ever written to it *)

Section Invariant.
Context (cap : Z) (Hcap : 0 < cap).

Definition ids (s : stream) : list sid := map fst (s_entries s).

Record tracked (A : list sid) (s : stream) : Prop := {
  tr_sorted : StronglySorted sid_lt A;
  tr_pos : Forall (fun i => sid_lt (0, 0) i) A;
  tr_last : Forall (fun i => sid_le i (s_last s)) A;
  tr_marks : sid_ok (s_last s) /\ sid_ok (s_max_deleted s);
  tr_deleted : sid_le (s_max_deleted s) (s_last s);
  tr_added : s_added s = Z.of_nat (length A);
  tr_stream : stream_ok s;
  tr_ids : forall i, i ∈ ids s -> i ∈ A;
  tr_lost : forall i, i ∈ A -> i ∉ ids s ->
    sid_le i (s_max_deleted s) \/
    cap <= Z.of_nat (length (s_entries s)) /\ forall j, j ∈ ids s -> sid_lt i j;
}.

Lemma tracked_marks A s : tracked A s -> marks_ok s.
Proof using Type. intros []. unfold marks_ok. split_and!; try tauto. lia. Qed.

Lemma ids_sorted s : stream_ok s -> StronglySorted sid_lt (ids s).
Proof using Type.
  intros [Hs _]. unfold ids. induction Hs as [|x l _ IH Hx]; cbn; constructor; [done|].
  by rewrite List.Forall_map.
Qed.

Lemma sorted_NoDup l : StronglySorted sid_lt l -> NoDup l.
Proof using Type.
  induction 1 as [|x l _ IH Hx]; constructor; [|done]. intros Hin.
  rewrite list.Forall_forall in Hx. specialize (Hx x Hin). sid_order.
Qed.

(** Something lost means fewer entries than additions. *)
Lemma lost_fewer A s i : tracked A s -> i ∈ A -> i ∉ ids s -> Z.of_nat (length (s_entries s)) < s_added s.
Proof using Type.
  intros Ht Hi Hn. rewrite (tr_added _ _ Ht).
  assert (NoDup (i :: ids s)) as Hnd.
  { constructor; [done|]. apply sorted_NoDup, ids_sorted, (tr_stream _ _ Ht). }
  assert (length (i :: ids s) <= length A)%nat as Hle.
  { apply submseteq_length, NoDup_submseteq; [done|]. intros j [->|Hj]%elem_of_cons; [done|].
    by apply (tr_ids _ _ Ht). }
  unfold ids in Hle. cbn in Hle. rewrite length_map in Hle. lia.
Qed.

Lemma gap_rule_sound A s i c :
  tracked A s -> i ∈ A -> i ∉ ids s -> sid_ok c -> sid_lt c i ->
  is_Some (mailbox_gap_rule (show_sid c) (info_of s) cap).
Proof using Hcap.
  intros Ht Hi Hn Hc Hlt. unfold mailbox_gap_rule. rewrite stream_id_show by done.
  change (max_deleted (info_of s)) with (Some (show_sid (s_max_deleted s))).
  destruct (tr_marks _ _ Ht) as [_ Hmok]. cbn [mbind option_bind]. rewrite stream_id_show by done.
  destruct (tr_lost _ _ Ht i Hi Hn) as [Hd|[Hl Hbefore]].
  - destruct Hc as [[? _] [? _]]. rewrite bool_decide_false.
    2: { intros E. rewrite E in Hd. sid_order. }
    destruct (sid_ltb_spec c (s_max_deleted s)); [by eexists|]. sid_order.
  - destruct (_ && _); [by eexists|]. pose proof (lost_fewer A s i Ht Hi Hn) as Hf.
    cbn [si_length entries_added info_of first_entry].
    assert ((Z.of_nat (length (s_entries s)) <? s_added s) = true) as -> by lia.
    assert ((0 <? cap) && (saturating_mul_u64 cap 9 / 10 <=? Z.of_nat (length (s_entries s))) = true) as ->.
    { apply andb_true_iff. split; [lia|]. apply Z.leb_le. unfold saturating_mul_u64.
      etrans; [|exact Hl]. etrans; [apply Z.div_le_mono; [lia|apply Z.le_min_r]|].
      apply Z.div_le_upper_bound; lia. }
    cbn [andb]. destruct (s_entries s) as [|x l] eqn:E; [by eexists|]. cbn.
    assert (sid_ok x.1) as Hx.
    { destruct (tr_stream _ _ Ht) as [_ Hok]. rewrite E in Hok. by apply list.Forall_cons in Hok as [? _]. }
    rewrite stream_id_show by done. destruct (sid_ltb_spec c x.1) as [|Hx']; [by eexists|].
    assert (sid_lt i x.1) by (apply Hbefore; unfold ids; rewrite E; by left). sid_order.
Qed.

(** ** The three ways to lose entries *)

Lemma tracked_empty : tracked [] no_stream.
Proof using Type.
  constructor; cbn; [constructor..|split; split; by vm_compute|right; split; [done|lia]|done
    |split; constructor|intros i Hi; by apply elem_of_nil in Hi|intros i Hi; by apply elem_of_nil in Hi].
Qed.

Lemma next_sid_lt now last : 0 <= last.1 -> 0 <= last.2 -> sid_lt last (next_sid now last).
Proof using Type.
  intros H1 H2. unfold next_sid. destruct (Z.ltb_spec last.1 now); [sid_order|].
  destruct (Z.ltb_spec last.2 u64_max); sid_order.
Qed.

Lemma sorted_snoc {X} (Rel : X -> X -> Prop) l x :
  StronglySorted Rel l -> Forall (fun y => Rel y x) l -> StronglySorted Rel (l ++ [x]).
Proof using Type.
  intros Hs Hx. induction Hs as [|y l Hs IH Hy]; cbn; [by repeat constructor|].
  apply list.Forall_cons in Hx as [Hyx Hx]. constructor; [by apply IH|].
  apply list.Forall_app. split; [done|]. by constructor.
Qed.

Lemma sorted_drop {X} (Rel : X -> X -> Prop) k l : StronglySorted Rel l -> StronglySorted Rel (drop k l).
Proof using Type.
  revert l. induction k as [|k IH]; intros l Hl; [done|]. destruct Hl as [|x l Hl Hx]; [constructor|].
  cbn. by apply IH.
Qed.

Lemma drop_subset {X} k (l : list X) x : x ∈ drop k l -> x ∈ l.
Proof using Type. intros Hx. rewrite <- (take_drop k l), elem_of_app. by right. Qed.

(** What is dropped from the front is before what stays. *)
Lemma sorted_dropped {X} (Rel : X -> X -> Prop) k l x y :
  StronglySorted Rel l -> x ∈ l -> x ∉ drop k l -> y ∈ drop k l -> Rel x y.
Proof using Type.
  revert l. induction k as [|k IH]; intros l Hl Hx Hn Hy; [by cbn in Hn|].
  destruct Hl as [|z l Hl Hz]; [by apply elem_of_nil in Hx|]. cbn in *.
  apply elem_of_cons in Hx as [->|Hx]; [|by eapply IH].
  rewrite list.Forall_forall in Hz. apply Hz. by eapply drop_subset.
Qed.

Lemma tracked_add A s now evict f :
  tracked A s -> sid_ok (next_sid now (s_last s)) ->
  tracked (A ++ [next_sid now (s_last s)]) (stream_add now evict cap f s).
Proof using Hcap.
  intros Ht Hok. set (i := next_sid now (s_last s)) in *.
  destruct (tr_marks _ _ Ht) as [[[Hl1 _] [Hl2 _]] Hmok].
  assert (sid_lt (s_last s) i) as Hi by by apply next_sid_lt.
  pose proof (tr_last _ _ Ht) as HAl. pose proof (tr_stream _ _ Ht) as [Hsort Hsok].
  assert (forall x, x ∈ s_entries s -> sid_lt x.1 i) as Hxi.
  { intros x Hx. rewrite list.Forall_forall in HAl.
    assert (sid_le x.1 (s_last s)) by (apply HAl, (tr_ids _ _ Ht); by apply list_elem_of_fmap_2).
    sid_order. }
  set (l := s_entries s ++ [(i, f)]). set (k := Nat.min evict (length l - Z.to_nat cap)).
  assert (StronglySorted (fun a b => sid_lt a.1 b.1) l) as Hl.
  { apply sorted_snoc; [done|]. by apply list.Forall_forall. }
  assert (forall j, j ∈ map fst l <-> j ∈ ids s \/ j = i) as Hel.
  { intros j. unfold l, ids. rewrite map_app, elem_of_app. cbn. by rewrite list_elem_of_singleton. }
  assert (forall j, j ∈ map fst (drop k l) -> j ∈ ids s \/ j = i) as Hdrop.
  { intros j Hj. apply Hel. rewrite <- skipn_map in Hj. by eapply drop_subset. }
  assert (StronglySorted sid_lt (map fst l)) as Hls.
  { clear -Hl. induction Hl as [|x l' _ IH Hx]; cbn; constructor; [done|]. by rewrite List.Forall_map. }
  constructor; cbn; fold i l k.
  - apply sorted_snoc; [apply (tr_sorted _ _ Ht)|]. eapply list.Forall_impl; [exact HAl|]. intros x Hx. sid_order.
  - apply list.Forall_app. split; [apply (tr_pos _ _ Ht)|]. constructor; [sid_order|done].
  - apply list.Forall_app. split; [|constructor; [sid_order|done]].
    eapply list.Forall_impl; [exact HAl|]. intros x Hx. sid_order.
  - done.
  - pose proof (tr_deleted _ _ Ht). sid_order.
  - rewrite length_app, (tr_added _ _ Ht). cbn. lia.
  - split; cbn; fold i l k; [by apply sorted_drop|]. apply list.Forall_drop, list.Forall_app.
    split; [done|]. by constructor.
  - intros j Hj. apply elem_of_app. destruct (Hdrop j Hj) as [Hj'| -> ]; [left; by apply (tr_ids _ _ Ht)|].
    right. by apply list_elem_of_singleton.
  - intros j Hj Hn. unfold ids in Hn |- *. cbn in Hn |- *. fold i l k in Hn |- *. rewrite length_drop.
    assert (length l = S (length (s_entries s))) as Hlen by (unfold l; rewrite length_app; cbn; lia).
    apply elem_of_app in Hj. destruct (decide (j ∈ map fst l)) as [Hin|Hout].
    + right. split.
      * assert (k <> 0%nat) by (intros E; rewrite E in Hn; done). lia.
      * intros j' Hj'. rewrite <- skipn_map in Hn, Hj'. by eapply sorted_dropped.
    + assert (j ∈ A /\ j ∉ ids s) as [HjA Hjn].
      { rewrite Hel in Hout. destruct Hj as [?|Hj%list_elem_of_singleton]; [|tauto]. tauto. }
      destruct (tr_lost _ _ Ht j HjA Hjn) as [?|[Hlc Hb]]; [by left|right]. split; [lia|].
      intros j' [Hj'| -> ]%Hdrop; [by apply Hb|]. rewrite list.Forall_forall in HAl.
      specialize (HAl j HjA). sid_order.
Qed.

Lemma fold_sid_max l m :
  sid_le m (fold_left sid_max l m) /\ (forall i, i ∈ l -> sid_le i (fold_left sid_max l m)) /\
  fold_left sid_max l m ∈ m :: l.
Proof using Type.
  revert m. induction l as [|x l IH]; intros m; cbn.
  { split_and!; [sid_order| |by left]. intros i Hi. by apply elem_of_nil in Hi. }
  destruct (IH (sid_max m x)) as (H1 & H2 & H3). pose proof (sid_max_le m x) as [H4 H5]. split_and!.
  - sid_order.
  - intros i [->|Hi]%elem_of_cons; [sid_order|by apply H2].
  - apply elem_of_cons in H3 as [E|H3]; [|by do 2 right]. rewrite E. unfold sid_max.
    destruct (sid_ltb m x); [right; by left|by left].
Qed.

(** Any removal that marks an id at least as large as everything it removes. *)
Lemma tracked_remove A s (keep : sid * gmap string string -> bool) m :
  tracked A s ->
  let l := List.filter keep (s_entries s) in
  sid_le (s_max_deleted s) m -> sid_ok m -> sid_le m (s_last s) ->
  (forall x, x ∈ s_entries s -> keep x = false -> sid_le x.1 m) ->
  tracked A (Stream l (s_last s) m (s_added s)).
Proof using Type.
  intros Ht l Hm Hmok Hml Hgone. destruct (tr_stream _ _ Ht) as [Hsort Hsok].
  assert (forall x, x ∈ l <-> x ∈ s_entries s /\ keep x = true) as Hel.
  { intros x. unfold l. by rewrite !list_elem_of_In, filter_In. }
  assert (forall j, j ∈ map fst l -> j ∈ ids s) as Hsub.
  { intros j (x & -> & Hx)%list_elem_of_fmap. apply Hel in Hx as [Hx _]. by apply list_elem_of_fmap_2. }
  constructor; cbn; try apply Ht; try done.
  - split; [apply (tr_marks _ _ Ht)|done].
  - split; cbn; [by apply sorted_filter|]. rewrite list.Forall_forall in Hsok |- *.
    intros x [Hx _]%Hel. by apply Hsok.
  - intros j Hj. apply (tr_ids _ _ Ht), Hsub, Hj.
  - intros j Hj Hn. unfold ids in Hn |- *. cbn in Hn |- *.
    destruct (decide (j ∈ ids s)) as [Hin|Hout].
    { left. apply list_elem_of_fmap in Hin as (x & -> & Hx). apply Hgone; [done|].
      apply not_true_is_false. intros Hk. apply Hn, list_elem_of_fmap_2, Hel. done. }
    destruct (tr_lost _ _ Ht j Hj Hout) as [?|[Hc Hb]]; [left; sid_order|].
    destruct (forallb keep (s_entries s)) eqn:Hall.
    + right. unfold l. rewrite forallb_filter_id by done. by split.
    + left. assert (exists x, x ∈ s_entries s /\ keep x = false) as (x & Hx & Hk).
      { clear -Hall. induction (s_entries s) as [|y t IH]; [done|]. cbn in Hall.
        destruct (keep y) eqn:Ey; [|exists y; split; [by left|done]].
        destruct (IH Hall) as (x & Hx & Hk). exists x. split; [by right|done]. }
      assert (sid_lt j x.1) by (apply Hb; by apply list_elem_of_fmap_2).
      specialize (Hgone x Hx Hk). sid_order.
Qed.

Lemma entry_marks A s x : tracked A s -> x ∈ s_entries s -> sid_ok x.1 /\ sid_le x.1 (s_last s).
Proof using Type.
  intros Ht Hx. split.
  - destruct (tr_stream _ _ Ht) as [_ Hok]. rewrite list.Forall_forall in Hok. by apply Hok.
  - pose proof (tr_last _ _ Ht) as Hl. rewrite list.Forall_forall in Hl.
    apply Hl, (tr_ids _ _ Ht). by apply list_elem_of_fmap_2.
Qed.

Lemma tracked_del A s ds : tracked A s -> tracked A (stream_del ds s).
Proof using Type.
  intros Ht. unfold stream_del.
  set (gone := List.filter (fun e => bool_decide (e.1 ∈ ds)) (s_entries s)).
  destruct (fold_sid_max (map fst gone) (s_max_deleted s)) as (H1 & H2 & H3).
  assert (forall x, x ∈ gone <-> x ∈ s_entries s /\ x.1 ∈ ds) as Hel.
  { intros x. unfold gone. by rewrite (list_elem_of_In (List.filter _ _)), filter_In, bool_decide_eq_true, <- list_elem_of_In. }
  assert (sid_ok (fold_left sid_max (map fst gone) (s_max_deleted s)) /\
          sid_le (fold_left sid_max (map fst gone) (s_max_deleted s)) (s_last s)) as [Hok Hle].
  { apply elem_of_cons in H3 as [E|H3].
    - rewrite E. split; [apply (tr_marks _ _ Ht)|apply (tr_deleted _ _ Ht)].
    - apply list_elem_of_fmap in H3 as (x & E & [Hx _]%Hel). rewrite E. by eapply entry_marks. }
  apply (tracked_remove A s (fun e => negb (bool_decide (e.1 ∈ ds)))); try done.
  intros x Hx Hk. apply H2, list_elem_of_fmap_2, Hel. split; [done|].
  apply negb_false_iff in Hk. by apply bool_decide_eq_true in Hk.
Qed.

Lemma tracked_sweep A s min x :
  tracked A s -> list.last (List.filter (fun e => sid_ltb e.1 min) (s_entries s)) = Some x ->
  tracked A (Stream (s_entries (stream_trim min s)) (s_last s) (sid_max (s_max_deleted s) x.1) (s_added s)).
Proof using Type.
  intros Ht Hx. set (below := List.filter _ _) in Hx.
  assert (forall y, y ∈ below <-> y ∈ s_entries s /\ sid_ltb y.1 min = true) as Hel.
  { intros y. unfold below. by rewrite !list_elem_of_In, filter_In. }
  pose proof (last_Some_elem_of _ _ Hx) as Hin. apply Hel in Hin as [Hin _].
  destruct (entry_marks _ _ _ Ht Hin) as [Hok Hle].
  pose proof (sid_max_le (s_max_deleted s) x.1) as [H1 H2].
  apply (tracked_remove A s (fun e => negb (sid_ltb e.1 min))); try done.
  - unfold sid_max. destruct (sid_ltb _ _); [done|]. apply (tr_marks _ _ Ht).
  - apply sid_max_lub; [apply (tr_deleted _ _ Ht)|done].
  - intros y Hy Hk. apply negb_false_iff in Hk. assert (sid_le y.1 x.1); [|sid_order].
    assert (y ∈ below) as Hyb by by apply Hel.
    assert (StronglySorted (fun a b => sid_lt a.1 b.1) below) as Hs
      by (apply sorted_filter; apply (tr_stream _ _ Ht)).
    apply list_elem_of_lookup in Hyb as [j Hj]. rewrite last_lookup in Hx.
    destruct (decide (j = pred (length below))) as [->|Hne]; [simplify_eq; sid_order|].
    apply lookup_lt_Some in Hj as Hjl.
    assert (sid_lt y.1 x.1) by (eapply (sorted_lookup_lt (fun a b => sid_lt a.1 b.1) below j (pred (length below))); eauto; lia).
    sid_order.
Qed.

Lemma trim_nothing s min :
  list.last (List.filter (fun e => sid_ltb e.1 min) (s_entries s)) = None ->
  s_entries (stream_trim min s) = s_entries s.
Proof using Type.
  intros Hn%last_None. cbn. apply forallb_filter_id, forallb_forall. intros x Hx.
  apply negb_true_iff, not_true_is_false. intros Hlt.
  assert (In x (List.filter (fun e => sid_ltb e.1 min) (s_entries s))) as Hf by by apply filter_In.
  by rewrite Hn in Hf.
Qed.

End Invariant.
(** ** The operations on Redis *)

Section Operations.
Context {R : Type} `{RedisLaws R} `{MsgPack}.
Context (Up : R -> Prop) (Hup : available Up).
Context (cfg : Config) (k : string).

#[local] Abbreviation cap := (mailbox_maxlen cfg).

Lemma cap_pos : 0 < cap.
Proof using Type. unfold mailbox_maxlen. lia. Qed.

(** The mailbox [k] holds a stream and [A] are the ids written to it. *)
Definition live (A : list sid) (r : R) : Prop :=
  Up r /\ is_Some (as_stream (keys r) k) /\ tracked cap A (stream_of (keys r) k).

Lemma stream_of_as ks o : as_stream ks k = Some o -> stream_of ks k = default no_stream o.
Proof using Type.
  unfold as_stream, stream_of. by destruct (ks !! k) as [[[] ?]|]; intros; simplify_eq.
Qed.

Lemma set_stream ks s :
  as_stream (set_val ks k (VStream s)) k = Some (Some s) /\ stream_of (set_val ks k (VStream s)) k = s.
Proof using Type. unfold as_stream, stream_of, set_val. by rewrite lookup_insert_eq. Qed.

Lemma live_same A r r' : live A r -> Up r' -> keys r' !! k = keys r !! k -> live A r'.
Proof using Type.
  intros (Hr & Ha & Ht) Hr' Hk. unfold live, as_stream, stream_of in *. by rewrite Hk.
Qed.

Lemma live_set A r' ks s : Up r' -> keys r' = set_val ks k (VStream s) -> tracked cap A s -> live A r'.
Proof using Type.
  intros Hr Hk Ht. destruct (set_stream ks s) as [Ha Hs]. split_and!; [done|rewrite Hk|rewrite Hk].
  - by rewrite Ha.
  - by rewrite Hs.
Qed.

Lemma live_write A r srv e r' id :
  live A r -> sid_ok (next_sid (srv k).1 (s_last (stream_of (keys r) k))) ->
  xadd_envelope cfg r srv k e = (r', Ok id) ->
  live (A ++ [next_sid (srv k).1 (s_last (stream_of (keys r) k))]) r'.
Proof using Hup.
  intros (Hr & [o Ho] & Ht) Hok. unfold xadd_envelope. set (c := XADD _ _ _ _ _).
  pose proof (Hup r c Hr) as [Hr' _]. destruct (exec r c) as [r1 [[]|]] eqn:E; intros [= <- <-].
  pose proof (exec_exact _ _ _ _ E eq_refl) as Hd. cbn in Hd. rewrite Ho in Hd. cbn in Hd.
  injection Hd as Hk _. rewrite (stream_of_as _ _ Ho) in *.
  eapply live_set; [exact Hr'|by symmetry|]. by apply tracked_add; [apply cap_pos|..].
Qed.

(** A read leaves the mailbox as it is. *)
Lemma live_read A r c :
  live A r -> (forall ks ks' rep, cmd_doc c ks = Some (ks', rep) -> ks' !! k = ks !! k) ->
  live A (exec r c).1.
Proof using Hup.
  intros Hl Hc. pose proof Hl as (Hr & _). eapply live_same; [exact Hl|by apply Hup|by apply exec_frame].
Qed.

Lemma live_del A r l : live A r -> live A (exec_int r (XDEL k l)).1.
Proof using Hup.
  intros Hl. pose proof Hl as (Hr & [o Ho] & Ht). unfold exec_int.
  pose proof (Hup r (XDEL k l) Hr) as [Hr' _].
  assert (live A (exec r (XDEL k l)).1) as Hl'.
  { assert (forall ks' rep, cmd_doc (XDEL k l) (keys r) = Some (ks', rep) ->
      keys (exec r (XDEL k l)).1 = ks' -> live A (exec r (XDEL k l)).1) as Hdo.
    { intros ks' rep Hd Hk. cbn in Hd. rewrite Ho in Hd. cbn in Hd.
      destruct (mapM read_sid l) as [ds|]; [|done]. cbn in Hd. rewrite (stream_of_as _ _ Ho) in Ht.
      destruct o as [s|]; injection Hd as Hd _.
      - eapply live_set; [exact Hr'|by rewrite Hk, <- Hd|]. by apply tracked_del.
      - eapply live_same; [exact Hl|exact Hr'|]. by rewrite Hk, <- Hd. }
    destruct (exec r (XDEL k l)) as [r1 [rep|]] eqn:E; cbn in *.
    - apply (Hdo _ _ (exec_exact _ _ _ _ E eq_refl)). done.
    - destruct (exec_err _ _ _ E) as [Hk|[rep Hd]]; [|by apply (Hdo _ _ Hd)].
      eapply live_same; [exact Hl|exact Hr'|]. by rewrite Hk. }
  by destruct (exec r (XDEL k l)) as [r1 [[]|]].
Qed.

Lemma live_purge A r target : live A r -> live A (purge_sender_from_one_stream r k target).1.
Proof using Hup.
  intros Hl. unfold purge_sender_from_one_stream.
  assert (live A (exec r (XRANGE k)).1) as Hl1.
  { apply live_read; [done|]. intros ks ks' rep. cbn. by destruct (as_stream ks k); intros; simplify_eq. }
  destruct (exec r (XRANGE k)) as [r1 [[]|]]; try exact Hl1. cbn in Hl1.
  destruct (omap (to_delete target) l) as [|d ds] eqn:E; [done|].
  pose proof (live_del A r1 (d :: ds) Hl1) as Hl2. by destruct (exec_int r1 _) as [r2 [n|]].
Qed.

(** The reply of [XINFO], in either shape, reads back as the stream. *)
Lemma xinfo_up r s :
  Up r -> as_stream (keys r) k = Some (Some s) -> marks_ok s ->
  exists r' v, exec r (XINFO k) = (r', Some (RValue v)) /\ parse_xinfo_stream v = info_of s /\
    keys r' = keys r /\ Up r'.
Proof using Hup.
  intros Hr Ho Hm. assert (cmd_doc (XINFO k) (keys r) = Some (keys r, RValue (RvMap (info_fields s)))) as Hd.
  { cbn. unfold as_stream in Ho. by destruct (keys r !! k) as [[[] ?]|]; simplify_eq. }
  destruct (available_exec Up Hup r (XINFO k) _ _ Hr Hd) as (r' & rep & -> & Ha & Hk & Hr').
  destruct Ha as [->|(l & [= <-] & ->)]; do 2 eexists; (split; [done|]); split; auto using parse_info_map, parse_info_flat.
Qed.

(** Recording a removed id makes the mark at least that id. *)
Lemma record_deleted_up r s x :
  Up r -> as_stream (keys r) k = Some (Some s) -> marks_ok s ->
  sid_ok x -> sid_le x (s_last s) -> sid_le (s_max_deleted s) (s_last s) ->
  sid_le (last_entry_id s) (s_last s) ->
  let r' := (record_deleted r k (show_sid x)).1 in
  Up r' /\ exists s', as_stream (keys r') k = Some (Some s') /\
    s' = Stream (s_entries s) (s_last s) (sid_max (s_max_deleted s) x) (s_added s).
Proof using Hup.
  intros Hr Ho Hm Hx Hxl Hml Hel. unfold record_deleted, record_deleted_round.
  destruct (xinfo_up r s Hr Ho Hm) as (r1 & v & -> & -> & Hk1 & Hr1).
  cbn [last_generated info_of max_deleted mbind option_bind].
  destruct Hm as (Hlok & Hmok & _). rewrite !stream_id_show by done. cbn [opt_sid_geb].
  unfold sid_max. destruct (sid_ltb_spec (s_max_deleted s) x) as [Hlt|Hge]; cbn [negb].
  - assert (cmd_doc (XSETID k (show_sid (s_last s)) (show_sid x)) (keys r1)
            = Some (set_val (keys r1) k (VStream (Stream (s_entries s) (s_last s) x (s_added s))), ROk)) as Hd.
    { cbn. rewrite !read_sid_show by done. cbn. rewrite Hk1. unfold as_stream in Ho.
      destruct (keys r !! k) as [[[] ?]|]; simplify_eq.
      destruct (sid_ltb_spec (s_last s) (last_entry_id s)); [sid_order|].
      destruct (sid_ltb_spec (s_last s) (s_max_deleted s)); [sid_order|].
      by destruct (sid_ltb_spec (s_last s) x); [sid_order|]. }
    set (c := XSETID _ _ _) in *. unfold exec_unit.
    destruct (available_exact Up Hup r1 c _ _ Hr1 eq_refl Hd) as (r2 & -> & Hk2 & Hr2). cbn.
    split; [done|]. eexists. split; [|done]. rewrite Hk2. by apply set_stream.
  - cbn. split; [done|]. exists s. rewrite Hk1. split; [done|]. by destruct s.
Qed.

Lemma newest_below r s min :
  Up r -> as_stream (keys r) k = Some (Some s) -> stream_ok s ->
  exists r' v, exec r (XREVRANGE1 k min) = (r', Some (RValue v)) /\ keys r' = keys r /\ Up r' /\
    first_entry_id v = option_map (fun x => show_sid x.1)
      (list.last (List.filter (fun e => sid_ltb e.1 min) (s_entries s))).
Proof using Hup.
  intros Hr Ho [_ Hok]. set (c := XREVRANGE1 k min).
  destruct (available_exact Up Hup r c _ _ Hr eq_refl ltac:(cbn; rewrite Ho; reflexivity)) as (r' & -> & Hk & Hr').
  do 2 eexists. split; [done|]. split_and!; [done|done|]. cbn [default].
  destruct (list.last _) as [x|] eqn:E; [|done]. apply last_Some_elem_of in E.
  cbn [option_list map]. unfold first_entry_id, entry_value. cbn [head mbind option_bind option_map].
  apply text_show. apply list_elem_of_In, filter_In in E as [E _]. apply list_elem_of_In in E.
  rewrite list.Forall_forall in Hok. by apply Hok.
Qed.

Lemma trim_shrinks s min x :
  x ∈ s_entries s -> sid_ltb x.1 min = true ->
  0 < Z.of_nat (length (s_entries s)) - Z.of_nat (length (s_entries (stream_trim min s))).
Proof using Type.
  intros Hin Hlt. assert (length (s_entries (stream_trim min s)) < length (s_entries s))%nat; [|lia]. cbn.
  induction (s_entries s) as [|y l IH]; [by apply elem_of_nil in Hin|]. cbn.
  pose proof (filter_length_le (fun e => negb (sid_ltb e.1 min)) l).
  apply elem_of_cons in Hin as [<-|Hin]; [rewrite Hlt; cbn; lia|]. specialize (IH Hin).
  destruct (negb (sid_ltb y.1 min)); cbn; lia.
Qed.

Lemma live_sweep A r min : live A r -> live A (trim_one r k min).1.
Proof using Hup.
  intros Hl. pose proof Hl as (Hr & [o Ho] & Ht). rewrite (stream_of_as _ _ Ho) in Ht. unfold trim_one.
  destruct o as [s|]; cbn [default from_option id] in Ht.
  2: { set (c := XREVRANGE1 k min).
       destruct (available_exact Up Hup r c _ _ Hr eq_refl ltac:(cbn; rewrite Ho; reflexivity)) as (r1 & -> & Hk1 & Hr1).
       cbn [first_entry_id head map option_list list.last List.filter s_entries no_stream default].
       set (c2 := XTRIM_MINID k min). unfold exec_int.
       destruct (available_exact Up Hup r1 c2 _ _ Hr1 eq_refl ltac:(cbn; rewrite Hk1, Ho; reflexivity))
         as (r2 & -> & Hk2 & Hr2). cbn. eapply live_same; [exact Hl|done|]. by rewrite Hk2. }
  destruct (newest_below r s min Hr Ho (tr_stream _ _ _ Ht)) as (r1 & v & -> & Hk1 & Hr1 & ->).
  set (c2 := XTRIM_MINID k min). unfold exec_int.
  destruct (available_exact Up Hup r1 c2 _ _ Hr1 eq_refl ltac:(cbn; rewrite Hk1, Ho; reflexivity))
    as (r2 & -> & Hk2 & Hr2).
  destruct (list.last _) as [x|] eqn:Ex; cbn [option_map].
  - pose proof (tracked_sweep _ A s min x Ht Ex) as Ht'.
    apply last_Some_elem_of, list_elem_of_In, filter_In in Ex as [Hin Hlt]. apply list_elem_of_In in Hin.
    destruct (entry_marks _ _ _ _ Ht Hin) as [Hxok Hxl].
    pose proof (trim_shrinks s min x Hin Hlt) as Hpos.
    cbn [stream_trim s_entries] in Hpos |- *. destruct (Z.ltb_spec 0 (Z.of_nat (length (s_entries s)) - Z.of_nat
      (length (List.filter (fun e => negb (sid_ltb e.1 min)) (s_entries s))))); [|lia].
    destruct (set_stream (keys r) (stream_trim min s)) as [Hs2 _]. rewrite <- Hk2 in Hs2.
    destruct (tr_marks _ _ _ Ht') as [Hlok _]. pose proof (tr_stream _ _ _ Ht') as Hok'.
    destruct (record_deleted_up r2 (stream_trim min s) x.1) as (Hr3 & s' & Hs3 & ->); try done.
    + split_and!; [done|apply (tr_marks _ _ _ Ht)|apply (tracked_marks _ _ _ Ht)|exact Hok'].
    + apply (tr_deleted _ _ _ Ht).
    + unfold last_entry_id. destruct (list.last (s_entries (stream_trim min s))) as [y|] eqn:Ey; cbn.
      * apply last_Some_elem_of, list_elem_of_In in Ey. cbn in Ey. apply filter_In in Ey as [Ey _].
        apply list_elem_of_In in Ey. by eapply entry_marks.
      * destruct (tr_marks _ _ _ Ht) as [[[? _] [? _]] _]. sid_order.
    + cbn [fst]. split_and!; [done|by rewrite Hs3|]. by rewrite (stream_of_as _ _ Hs3).
  - cbn [fst]. eapply live_set; [exact Hr2|exact Hk2|]. apply trim_nothing in Ex.
    replace (stream_trim min s) with s; [done|]. destruct s as [es l m a]. unfold stream_trim in *. cbn in *. by rewrite Ex.
Qed.

(** What happens to a mailbox: writes, purges of a sender, the sweep by age, and any
    command that does not touch it. The ids written so far are kept along. *)
Inductive mailbox_step : R * list sid -> R * list sid -> Prop :=
| step_write r A srv e r' id :
    sid_ok (next_sid (srv k).1 (s_last (stream_of (keys r) k))) ->
    xadd_envelope cfg r srv k e = (r', Ok id) ->
    mailbox_step (r, A) (r', A ++ [next_sid (srv k).1 (s_last (stream_of (keys r) k))])
| step_purge r A target :
    mailbox_step (r, A) ((purge_sender_from_one_stream r k target).1, A)
| step_sweep r A min :
    mailbox_step (r, A) ((trim_one r k min).1, A)
| step_other r A c :
    (forall ks ks' rep, cmd_doc c ks = Some (ks', rep) -> ks' !! k = ks !! k) ->
    mailbox_step (r, A) ((exec r c).1, A).

Lemma live_step x y : mailbox_step x y -> live x.2 x.1 -> live y.2 y.1.
Proof using Hup.
  destruct 1; cbn; intros Hl; [by eapply live_write|by apply live_purge|by apply live_sweep|by apply live_read].
Qed.

Lemma live_steps x y : rtc mailbox_step x y -> live x.2 x.1 -> live y.2 y.1.
Proof using Hup. induction 1; eauto using live_step. Qed.

Lemma live_start r : Up r -> keys r !! k = None -> live [] r.
Proof using Type.
  intros Hr Hk. unfold live, as_stream, stream_of. rewrite Hk. split_and!; [done|by eexists|].
  apply tracked_empty.
Qed.

(** The check of the keys finds a gap in [k], whatever the keys before it hold. *)
Lemma gap_found r A ks i c :
  live A r -> i ∈ A -> i ∉ ids (stream_of (keys r) k) -> sid_ok c -> sid_lt c i ->
  k ∈ ks -> Forall (fun k' => is_Some (as_stream (keys r) k')) ks ->
  exists r' g, gap_of_keys cfg r (show_sid c) ks = (r', Ok (Some g)).
Proof using Hup.
  intros Hl Hi Hn Hc Hlt Hk Hall. revert r Hl Hn Hall Hk.
  induction ks as [|k' ks IH]; intros r Hl Hn Hall Hk; [by apply elem_of_nil in Hk|].
  apply list.Forall_cons in Hall as [Hk' Hall]. pose proof Hl as (Hr & [o Ho] & Ht). cbn [gap_of_keys].
  destruct (decide (k' = k)) as [->|Hne].
  - rewrite (stream_of_as _ _ Ho) in Ht, Hn. destruct o as [s|].
    2: { pose proof (tr_added _ _ _ Ht) as Ha. by destruct A; [apply elem_of_nil in Hi|]. }
    destruct (xinfo_up r s Hr Ho (tracked_marks _ _ _ Ht)) as (r1 & v & -> & -> & _).
    destruct (gap_rule_sound cap cap_pos A s i c Ht Hi Hn Hc Hlt) as [g ->]. by eexists _, _.
  - apply elem_of_cons in Hk as [->|Hk]; [done|].
    assert (live A (exec r (XINFO k')).1 /\ keys (exec r (XINFO k')).1 = keys r) as [Hl1 Hk1].
    { assert (forall ks0 ks' rep, cmd_doc (XINFO k') ks0 = Some (ks', rep) -> ks' = ks0) as Hro.
      { intros ks0 ks' rep. cbn. by destruct (ks0 !! k') as [[[] ?]|]; intros; simplify_eq. }
      split; [apply live_read; [done|]; intros ks0 ks' rep Hd; by rewrite (Hro _ _ _ Hd)|].
      destruct (exec r (XINFO k')) as [r1 a] eqn:E. by eapply exec_read_keys. }
    assert (exists rep, (exec r (XINFO k')).2 = Some rep /\
      ((exists v, rep = RValue v) \/ rep = RErr NO_SUCH_KEY)) as (rep & Hrep & Hshape).
    { destruct Hk' as [o' Ho']. unfold as_stream in Ho'.
      assert (exists doc, cmd_doc (XINFO k') (keys r) = Some (keys r, doc) /\
        ((exists v, doc = RValue v) \/ doc = RErr NO_SUCH_KEY)) as (doc & Hd & Hs).
      { cbn. destruct (keys r !! k') as [[[] ?]|]; simplify_eq; eauto. }
      destruct (available_exec Up Hup r (XINFO k') _ _ Hr Hd) as (r' & rep & -> & Ha & _).
      exists rep. split; [done|]. destruct Ha as [->|(l & -> & ->)]; eauto. }
    destruct (exec r (XINFO k')) as [r1 a]. cbn in Hrep, Hl1, Hk1. subst a. rewrite <- Hk1 in Hn, Hall.
    destruct Hshape as [[v ->]| -> ].
    + destruct (mailbox_gap_rule _ _ _); [by eexists _, _|]. by apply IH.
    + change (str_contains "no such key" (to_lowercase NO_SUCH_KEY)) with true. by apply IH.
Qed.

(** C6: A mailbox never hides a loss. After any history of writes (at the cap they
    evict), purges of a blocked sender and age sweeps of a stream that began empty,
    with Redis answering and other traffic in between, if an id that was written past
    a cursor is no longer in the stream, then the gap check of that cursor reports a
    gap. *)
Theorem gap_never_hidden user device r0 r A i c :
  str_is_empty device = false ->
  k ∈ [device_stream cfg user device; user_stream cfg user] ->
  Up r0 -> keys r0 !! k = None -> rtc mailbox_step (r0, []) (r, A) ->
  Forall (fun k' => is_Some (as_stream (keys r) k')) [device_stream cfg user device; user_stream cfg user] ->
  i ∈ A -> i ∉ ids (stream_of (keys r) k) -> sid_ok c -> sid_lt c i ->
  exists r' g, mailbox_gap cfg r user (Some device) (show_sid c) = (r', Ok (Some g)).
Proof using Hup.
  intros Hdev Hk Hr0 Hk0 Hrun Hall Hi Hn Hc Hlt. unfold mailbox_gap, non_empty. rewrite Hdev. cbn [app].
  eapply gap_found; try done. apply (live_steps _ _ Hrun). by apply live_start.
Qed.

End Operations.
(** Two writes at a cap of one: the first id is gone, and a reader from the start
    is told. *)
Lemma gap_never_hidden_witness :
  let cfg := sample_cfg_cap 1 in
  let k := device_stream cfg "alice" "phone" in
  let r1 := (xadd_envelope (H0 := sample_pack) cfg (Mem ∅ true) (fun _ => (10, 5%nat)) k (sample_envelope "a")).1 in
  let r2 := (xadd_envelope (H0 := sample_pack) cfg r1 (fun _ => (20, 5%nat)) k (sample_envelope "b")).1 in
  ids (stream_of (keys r2) k) = [(20, 0)] /\
  exists r' g, mailbox_gap cfg r2 "alice" (Some "phone") (show_sid (0, 0)) = (r', Ok (Some g)).
Proof.
  intros cfg k r1 r2. assert (ids (stream_of (keys r2) k) = [(20, 0)]) as Hids by (vm_compute; reflexivity).
  split; [exact Hids|].
  assert (next_sid 10 (s_last (stream_of (keys (Mem ∅ true)) k)) = (10, 0)) as E1 by (vm_compute; reflexivity).
  assert (next_sid 20 (s_last (stream_of (keys r1) k)) = (20, 0)) as E2 by (vm_compute; reflexivity).
  assert (rtc (mailbox_step (H1 := sample_pack) cfg k) (Mem ∅ true, []) (r2, [(10, 0); (20, 0)])) as Hrun.
  { apply (rtc_l _ _ (r1, [(10, 0)])).
    - rewrite <- E1 at 1. apply (step_write (H1 := sample_pack) cfg k (Mem ∅ true) [] (fun _ => (10, 5%nat)) (sample_envelope "a") r1 "10-0").
      + cbn [fst]. rewrite E1. split; by vm_compute.
      + vm_compute. reflexivity.
    - apply rtc_once. change [(10, 0); (20, 0)] with ([(10, 0)] ++ [(20, 0)]). rewrite <- E2 at 1.
      apply (step_write (H1 := sample_pack) cfg k r1 [(10, 0)] (fun _ => (20, 5%nat)) (sample_envelope "b") r2 "20-0").
      + cbn [fst]. rewrite E2. split; by vm_compute.
      + vm_compute. reflexivity. }
  assert (Forall (fun k' => is_Some (as_stream (keys r2) k')) [device_stream cfg "alice" "phone"; user_stream cfg "alice"]) as Hall.
  { constructor; [|constructor; [|constructor]]; eexists; vm_compute; reflexivity. }
  clearbody r2.
  destruct (gap_never_hidden (H1 := sample_pack) (fun r : mem => mem_up r = true) mem_available cfg k
    "alice" "phone" (Mem ∅ true) r2 [(10, 0); (20, 0)] (10, 0) (0, 0)) as (r' & g & E).
  - reflexivity.
  - left.
  - reflexivity.
  - reflexivity.
  - exact Hrun.
  - exact Hall.
  - left.
  - rewrite Hids. intros Hin. by apply list_elem_of_singleton in Hin.
  - split; by vm_compute.
  - by left.
  - exists r', g. exact E.
Defined.

End Gaps.
