(* ===== verification/Delivery.v ===== *)
(** * Dispatch and delivery of envelopes

    Models, of the messaging service, core.rs (where an envelope is written: the
    idempotency check, the block check, the choice of devices, the write and the
    wake push), the reading half of stream.rs (the cursors of a message stream, the
    poll that reads on while there is more, the Subscribe request), envelope.rs
    [convert_envelope_to_proto], receipts.rs and [get_pending_messages] of grpc.rs.
    They run on the mailboxes of Mailbox.v. The database answers two questions,
    as a record of functions that may fail; UUID parsing and the JSON of a receipt
    are third-party parameters. The client's end of a stream accepts a number of
    responses and then is gone. Metrics and log lines are not modelled. *)

From S2P Require Import Prelude Text RedisStore Mailbox Tokens.

Module Delivery.
Import Redis Mailbox.

(** ** Choosing mailboxes *)

Definition should_send_wake_push (recipient_online : bool) : bool := negb recipient_online.

Definition normalize_device_id (device_id : string) : option string :=
  if str_is_empty device_id then None else Some device_id.

Definition named_recipient_device (recipient_device : option string) : option string :=
  recipient_device ≫= normalize_device_id.

Definition select_target_devices (active_devices : list string) (named_device : option string)
    : list string * string :=
  match non_empty named_device with
  | None => (active_devices, "unnamed")
  | Some named =>
      if bool_decide (named ∈ active_devices) then ([named], "named")
      else (active_devices, "unknown_device")
  end.

Definition push_announces (sender_id recipient_id : string) : bool :=
  str_is_empty sender_id || negb (eq_ignore_ascii_case sender_id recipient_id).

Definition reported_active_devices (addressed_by_key names_a_device_of_recipient : bool)
    (active_devices : list string) : list string :=
  if addressed_by_key && negb names_a_device_of_recipient then []
  else sort_by String.compare active_devices.

Definition is_user_message (t : MessageType) : bool :=
  match t with DirectMessage | MLSMessage | SenderSync => true | _ => false end.

Section Uuid.
Context {Uuid : Type} `{EqDecision Uuid} (parse_str : string -> option Uuid).

(** What the database answers; [None] is an error. *)
Record Db := {
  is_blocked_by : Uuid -> Uuid -> option bool;
  get_devices_by_user_id : Uuid -> option (list string);
  get_device_user : string -> option (option (option Uuid));
}.

Definition is_own_copy (sender_id recipient_id : string) : bool :=
  match parse_str sender_id, parse_str recipient_id with
  | Some s, Some r => bool_decide (s = r)
  | _, _ => false
  end.

Definition fetch_recipient_device_ids (db : Db) (recipient_id : string) : list string :=
  match parse_str recipient_id with
  | None => []
  | Some uid => default [] (get_devices_by_user_id db uid)
  end.

Definition names_a_device_of (db : Db) (recipient_id : string) (named : option string)
    (active_devices : list string) : bool :=
  match named with
  | None => false
  | Some named =>
      if bool_decide (named ∈ active_devices) then true
      else match parse_str recipient_id with
           | None => false
           | Some recipient =>
               match get_device_user db named with
               | Some (Some owner) => bool_decide (owner = Some recipient)
               | _ => false
               end
           end
  end.

(** ** Dispatch *)

Section WithRedis.
Context {R : Type} `{Redis R} `{MsgPack}.
Context (sha256 : bytes -> bytes) (hex_encode : bytes -> string).
Context (cfg : Config).

(** Is the sender blocked by the recipient, as far as the database says? *)
Definition blocked_by_recipient (db : Db) (e : MessageEnvelope) : bool :=
  is_user_message (message_type e) &&
  match parse_str (sender_id e), parse_str (recipient_id e) with
  | Some s, Some r => default false (is_blocked_by db r s)
  | _, _ => false
  end.

(** The wake push asked for, with whether it may show a banner. *)
Definition wake_push := option bool.

Definition dispatch_envelope (db : Db) (notify : bool) (srv : string -> Z * nat) (r : R)
    (e : MessageEnvelope) : R * result unit unit * wake_push :=
  let dedup_key := MessageDedupKey_new sha256 hex_encode (sender_id e) (recipient_id e)
                     (recipient_device e) (message_id e) in
  let user_message := is_user_message (message_type e) in
  let '(r1, duplicate) :=
    if user_message then
      match is_message_duplicate r dedup_key with
      | (r', Ok b) => (r', b)
      | (r', Err _) => (r', false)
      end
    else (r, false) in
  if duplicate then (r1, Ok tt, None)
  else if blocked_by_recipient db e then (r1, Ok tt, None)
  else
    let active_devices := fetch_recipient_device_ids db (recipient_id e) in
    let '(device_ids, _) := select_target_devices active_devices (recipient_device e) in
    match write_message_to_device_streams cfg r1 srv (recipient_id e) device_ids e with
    | (r2, Err err) => (r2, Err err, None)
    | (r2, Ok _) =>
        let r3 := if user_message then (mark_message_dispatched r2 dedup_key).1 else r2 in
        let '(r4, online) := match get_user_server_instance cfg r3 (recipient_id e) with
                             | (r', Ok (Some _)) => (r', true)
                             | (r', _) => (r', false)
                             end in
        (r4, Ok tt,
         if notify && should_send_wake_push online then
           match parse_str (recipient_id e) with
           | Some _ => Some (push_announces (sender_id e) (recipient_id e))
           | None => None
           end
         else None)
    end.

End WithRedis.
End Uuid.

(** ** Responses *)

Definition CT_E2EE_SIGNAL : Z := 1.
Definition CT_SESSION_RESET : Z := 21.
Definition CT_KEY_SYNC : Z := 22.

(** [ContentType::try_from]: the numbers the enum has. *)
Definition is_content_type (ct : Z) : bool :=
  bool_decide (ct ∈ [0; 1; 2; 10; 11; 12; 13; 14; 20; 21; 22; 23; 24; 25; 26; 27; 28; 29; 30]).

(** The fields of [core::Envelope] that are not constant. *)
Record ProtoEnvelope := {
  pe_sender : option string;
  pe_recipient : string;
  pe_content_type : Z;
  pe_message_id : string;
  pe_timestamp : Z;
  pe_encrypted_payload : bytes;
  pe_sealed_inner : option bytes;
}.

Definition content_type_of (e : MessageEnvelope) : Z :=
  match proto_content_type e with
  | Some ct => if is_content_type ct then ct else CT_E2EE_SIGNAL
  | None =>
      match message_type e with
      | ControlMessage =>
          let label := default "" (from_utf8 (encrypted_payload e)) in
          if String.eqb label "SESSION_RESET" || String.eqb label "END_SESSION" then CT_SESSION_RESET
          else if String.eqb label "KEY_SYNC" then CT_KEY_SYNC
          else CT_E2EE_SIGNAL
      | _ => CT_E2EE_SIGNAL
      end
  end.

Definition payload_for (ct : Z) (e : MessageEnvelope) : bytes :=
  if (ct =? CT_SESSION_RESET) || (ct =? CT_KEY_SYNC) then [] else encrypted_payload e.

Definition convert_envelope_to_proto (e : MessageEnvelope) : ProtoEnvelope :=
  if is_sealed_sender e then
    {| pe_sender := None; pe_recipient := recipient_id e; pe_content_type := CT_E2EE_SIGNAL;
       pe_message_id := message_id e; pe_timestamp := timestamp e; pe_encrypted_payload := [];
       pe_sealed_inner := Some (default [] (sealed_inner e)) |}
  else
    let ct := content_type_of e in
    {| pe_sender := Some (sender_id e); pe_recipient := recipient_id e; pe_content_type := ct;
       pe_message_id := message_id e; pe_timestamp := timestamp e;
       pe_encrypted_payload := payload_for ct e; pe_sealed_inner := None |}.

Record DirectReceipt := {
  dr_message_ids : list string;
  dr_status : Z;
  dr_timestamp : Z;
  dr_recipient_user_id : string;
}.

Inductive response :=
| RMessage (e : ProtoEnvelope) (cursor : string)
| RReceipt (d : DirectReceipt) (cursor : string)
| RGap (g : MailboxGap)
| RRemoved.                               (* the refusal of a removed device *)

Record PendingMessage := {
  pm_message_id : string;
  pm_sender_id : string;
  pm_encrypted_payload : bytes;
  pm_timestamp : Z;
  pm_content_type : Z;
  pm_sealed_inner_data : bytes;
}.

Definition pending_message (e : MessageEnvelope) : option PendingMessage :=
  if bool_decide (message_type e = Receipt) then None
  else
    let ct := content_type_of e in
    Some {| pm_message_id := message_id e;
            pm_sender_id := if is_sealed_sender e then "" else sender_id e;
            pm_encrypted_payload := if is_sealed_sender e then [] else payload_for ct e;
            pm_timestamp := timestamp e;
            pm_content_type := ct;
            pm_sealed_inner_data :=
              if is_sealed_sender e then default [] (sealed_inner e) else [] |}.

(** ** Cursors *)

Definition compare_stream_ids (a b : string) : comparison :=
  match stream_id a, stream_id b with
  | Some x, Some y => sid_compare x y
  | _, _ => Lt
  end.

Definition is_valid_redis_stream_cursor (cursor : string) : bool :=
  if String.eqb cursor "0" || String.eqb cursor "$" then true
  else match split_once "-" cursor with
       | Some (ts, seq) => bool_decide (is_Some (parse_u64 ts)) && bool_decide (is_Some (parse_u64 seq))
       | None => bool_decide (is_Some (parse_u64 cursor))
       end.

Definition apply_since_cursor (cursor : string) (last_stream_id : option string) : option string :=
  match last_stream_id with
  | None => Some cursor
  | Some current => match compare_stream_ids cursor current with Gt => Some cursor | _ => Some current end
  end.

Definition user_read_position (user_stream_id last_stream_id : option string) : option string :=
  match user_stream_id, last_stream_id with
  | Some u, Some d => match compare_stream_ids u d with Gt => Some u | _ => Some d end
  | Some u, None => Some u
  | None, d => d
  end.

Record StreamCatchupState := {
  last_stream_id : option string;
  user_stream_id : option string;
  subscribe_with_cursor_seen : bool;
  initial_catchup_done : bool;
}.

Definition set_last (id : string) (c : StreamCatchupState) : StreamCatchupState := {|
  last_stream_id := Some id; user_stream_id := user_stream_id c;
  subscribe_with_cursor_seen := subscribe_with_cursor_seen c;
  initial_catchup_done := initial_catchup_done c |}.

Definition set_user (o : option string) (c : StreamCatchupState) : StreamCatchupState := {|
  last_stream_id := last_stream_id c;
  user_stream_id := match o with Some _ => o | None => user_stream_id c end;
  subscribe_with_cursor_seen := subscribe_with_cursor_seen c;
  initial_catchup_done := initial_catchup_done c |}.

(** The sending half of a stream: what was sent, and how many more the client
    takes before it is gone. *)
Record Tx := { sent : list response; open : nat }.

Definition send (x : response) (tx : Tx) : option Tx :=
  match open tx with
  | O => None
  | S n => Some {| sent := sent tx ++ [x]; open := n |}
  end.

(** ** Polling a mailbox *)

Definition STREAM_MAILBOX_PAGE : Z := 50.

Section Poll.
Context {R : Type} `{Redis R} `{MsgPack}.
Context (sha256 : bytes -> bytes) (hex_encode : bytes -> string).
Context (cfg : Config).
Context (into_values : gmap string (string * MessageEnvelope) -> list (string * MessageEnvelope)).
(** [serde_json::from_slice::<ReceiptPayload>]: ids, status and time. *)
Context (parse_receipt : bytes -> option (list string * string * Z)).

Definition build_receipt_response (e : MessageEnvelope) : option DirectReceipt :=
  let* p := parse_receipt (encrypted_payload e) in
  let '(ids, status, at_time) := p in
  Some {| dr_message_ids := ids;
          dr_status := if String.eqb status "read" then 2
                       else if String.eqb status "failed" then 3 else 1;
          dr_timestamp := at_time;
          dr_recipient_user_id := sender_id e |}.

Definition response_of (id : string) (e : MessageEnvelope) : option response :=
  if bool_decide (message_type e = Receipt) then
    option_map (fun d => RReceipt d id) (build_receipt_response e)
  else Some (RMessage (convert_envelope_to_proto e) id).

(** Sends a page, moving the cursor past each entry; [false] if the client is gone. *)
Fixpoint deliver (messages : list (string * option MessageEnvelope)) (c : StreamCatchupState) (tx : Tx)
    : StreamCatchupState * Tx * bool :=
  match messages with
  | [] => (c, tx, true)
  | (id, None) :: rest => deliver rest (set_last id c) tx
  | (id, Some e) :: rest =>
      match response_of id e with
      | None => deliver rest (set_last id c) tx
      | Some x =>
          match send x tx with
          | None => (c, tx, false)
          | Some tx' => deliver rest (set_last id c) tx'
          end
      end
  end.

Definition cursors (c : StreamCatchupState) : option string * option string :=
  (last_stream_id c, user_stream_id c).

(** One turn of the loop: [Some] ends it with a result, [None] goes on. *)
Definition poll_once (user_id : string) (device_id : option string) (r : R) (c : StreamCatchupState)
    (tx : Tx) : R * StreamCatchupState * Tx * option (result unit unit) :=
  if (open tx =? 0)%nat then (r, c, tx, Some (Err tt))
  else
    let '(r1, removed) := match non_empty device_id with
                          | Some device =>
                              match Tokens.is_device_revoked r device with
                              | (r', Ok b) => (r', b)
                              | (r', Err _) => (r', false)
                              end
                          | None => (r, false)
                          end in
    if removed then (r1, c, default tx (send RRemoved tx), Some (Err tt))
    else
      let user_since := user_read_position (user_stream_id c) (last_stream_id c) in
      match read_mailbox_messages sha256 hex_encode cfg into_values r1 user_id device_id
              (last_stream_id c) user_since STREAM_MAILBOX_PAGE with
      | (r2, Err e) => (r2, c, tx, Some (Err e))
      | (r2, Ok page) =>
          let r3 := match entries page, non_empty device_id with
                    | _ :: _, Some device => (clear_push_outstanding r2 device).1
                    | _, _ => r2
                    end in
          let '(c1, tx1, ok) := deliver (entries page) c tx in
          if negb ok then (r3, c1, tx1, Some (Err tt))
          else
            let c2 := set_user (user_examined_through page) c1 in
            if negb (has_more page) then (r3, c2, tx1, Some (Ok tt))
            else if bool_decide (cursors c2 = cursors c) then (r3, c2, tx1, Some (Ok tt))
            else (r3, c2, tx1, None)
      end.

(** The loop; [None] is out of fuel. *)
Fixpoint poll_messages (fuel : nat) (user_id : string) (device_id : option string) (r : R)
    (c : StreamCatchupState) (tx : Tx) : R * StreamCatchupState * Tx * option (result unit unit) :=
  match fuel with
  | O => (r, c, tx, None)
  | S fuel' =>
      match poll_once user_id device_id r c tx with
      | (r', c', tx', None) => poll_messages fuel' user_id device_id r' c' tx'
      | done => done
      end
  end.

(** The Subscribe request of a stream of [user_id]; [false] if the client is gone. *)
Definition handle_subscribe (fuel : nat) (user_id : string) (device_id since_cursor : option string)
    (r : R) (c : StreamCatchupState) (tx : Tx) : R * StreamCatchupState * Tx * bool :=
  let '(r1, c1, tx1, alive) :=
    match non_empty since_cursor with
    | None => (r, c, tx, true)
    | Some cursor =>
        if negb (is_valid_redis_stream_cursor cursor) then (r, c, tx, true)
        else
          let c' := {| last_stream_id := apply_since_cursor cursor (last_stream_id c);
                       user_stream_id := user_stream_id c; subscribe_with_cursor_seen := true;
                       initial_catchup_done := initial_catchup_done c |} in
          if initial_catchup_done c then (r, c', tx, true)
          else match mailbox_gap cfg r user_id device_id cursor with
               | (r', Ok (Some gap)) =>
                   match send (RGap gap) tx with
                   | Some tx' => (r', c', tx', true)
                   | None => (r', c', tx, false)
                   end
               | (r', _) => (r', c', tx, true)
               end
    end in
  if negb alive then (r1, c1, tx1, false)
  else if initial_catchup_done c1 then (r1, c1, tx1, true)
  else
    let '(r2, c2, tx2, _) := poll_messages fuel user_id device_id r1 c1 tx1 in
    (r2, {| last_stream_id := last_stream_id c2; user_stream_id := user_stream_id c2;
            subscribe_with_cursor_seen := subscribe_with_cursor_seen c2;
            initial_catchup_done := true |}, tx2, true).

Record PendingResponse := {
  pr_messages : list PendingMessage;
  pr_next_cursor : string;
  pr_has_more : bool;
  pr_gap : option MailboxGap;
}.

Definition get_pending_messages (r : R) (user_id : string) (device_id since_cursor : option string)
    (limit : option Z) : R * result PendingResponse unit :=
  let limit := Z.min (default 50 limit) 100 in
  let since := match non_empty since_cursor with
               | Some c => if is_valid_redis_stream_cursor c then Some c else None
               | None => None
               end in
  match read_mailbox_messages sha256 hex_encode cfg into_values r user_id device_id since since limit with
  | (r1, Err e) => (r1, Err e)
  | (r1, Ok page) =>
      let r2 := match non_empty device_id with
                | Some device => (clear_push_outstanding r1 device).1
                | None => r1
                end in
      let '(r3, gap) := match since with
                        | Some cursor =>
                            match mailbox_gap cfg r2 user_id device_id cursor with
                            | (r', Ok gap) => (r', gap)
                            | (r', Err _) => (r', None)
                            end
                        | None => (r2, None)
                        end in
      (r3, Ok {| pr_messages := omap (fun x => snd x ≫= pending_message) (entries page);
                 pr_next_cursor := default "0-0" (resume_after page since);
                 pr_has_more := has_more page;
                 pr_gap := gap |})
  end.

End Poll.
End Delivery.
