(* ===== verification/Catchup.v ===== *)
(** * Catching up

    What the reading half of the messaging service is for: a device that polls its
    mailbox, or fetches its pending messages page by page, receives every envelope
    that waits for it. The merged read of Mailbox.v and the loops of Delivery.v are
    related to the pages of MailboxPaging.v, whose completeness is proved there. *)

From Stdlib Require Import Sorting.Sorted.
From S2P Require Import Prelude Text RedisStore Mailbox MailboxPaging Tokens Delivery.

Module Catchup.
Import Redis Mailbox Paging Delivery.

(** ** Cursors *)

(** A position in a stream: a cursor of the client, or its absence. *)
Definition at_pos (o : option string) (i : sid) : Prop :=
  sid_ok i /\ (o = None /\ i = (0, 0) \/ o = Some (show_sid i)).

Lemma at_pos_inj o i j : at_pos o i -> at_pos o j -> i = j.
Proof.
  intros [Hi [[-> ->]| -> ]] [Hj [[E ->]|E]]; try done. injection E as E. by apply show_sid_inj.
Qed.

Lemma sid_le_antisym a b : sid_le a b -> sid_le b a -> a = b.
Proof. destruct a, b. unfold sid_le. cbn. intros. f_equal; lia. Qed.

Lemma max_by_show l x :
  Forall sid_ok (x :: l) ->
  exists m, max_by (map show_sid (x :: l)) = Some (show_sid m) /\ m ∈ x :: l /\
    Forall (fun y => sid_le y m) (x :: l).
Proof.
  revert x. induction l as [|y l IH]; intros x Hok.
  { exists x. cbn. split_and!; [done|by left|]. constructor; [sid_order|done]. }
  apply list.Forall_cons in Hok as [Hx Hl]. destruct (IH y Hl) as (m & E & Hin & Hmax).
  assert (sid_ok m) as Hm by (by apply (proj1 (list.Forall_forall _ _) Hl)).
  change (map show_sid (x :: y :: l)) with (show_sid x :: map show_sid (y :: l)).
  cbn [max_by]. rewrite E. rewrite compare_show by done.
  destruct (sid_compare_spec x m) as [->|Hlt|Hlt].
  - exists m. split_and!; [done|by left|]. constructor; [sid_order|done].
  - exists m. split_and!; [done|by right|]. constructor; [sid_order|done].
  - exists x. split_and!; [done|by left|]. constructor; [sid_order|].
    eapply list.Forall_impl; [exact Hmax|]. intros z Hz. sid_order.
Qed.

(** The largest of the last id sent, the id examined and the cursor. *)
Lemma max_by_three (L X : option sid) o i :
  at_pos o i -> (forall x, L = Some x -> sid_ok x) -> (forall x, X = Some x -> sid_ok x) ->
  let M := sid_max (sid_max i (default i L)) (default i X) in
  default "0-0" (max_by (option_list (option_map show_sid L) ++ option_list (option_map show_sid X)
                         ++ option_list o)) = show_sid M /\ sid_ok M.
Proof.
  intros [Hi Ho] HL HX M.
  assert (sid_ok M) as HM by (subst M; unfold sid_max; destruct L, X; cbn; repeat case_match; eauto).
  split; [|done]. remember (option_list L ++ option_list X ++ (if o is Some _ then [i] else [])) as l eqn:El.
  assert (option_list (option_map show_sid L) ++ option_list (option_map show_sid X) ++ option_list o
          = map show_sid l) as ->.
  { subst l. destruct Ho as [[-> _]| -> ]; by destruct L, X. }
  assert (Forall sid_ok l) as Hok.
  { subst l. apply list.Forall_forall. intros y.
    destruct L, X, o; cbn; set_unfold; intros; destruct_or?; subst; by eauto. }
  assert (o = None -> i = (0, 0)) as Hoi by (by destruct Ho as [[-> ?]| -> ]).
  assert (forall y, y ∈ l -> sid_le y M) as HlM.
  { pose proof (sid_max_le i (default i L)). pose proof (sid_max_le (sid_max i (default i L)) (default i X)) as Hb.
    change (sid_max (sid_max i (default i L)) (default i X)) with M in Hb. intros y. subst l. clearbody M.
    destruct L, X, o; cbn in *; set_unfold; intros; destruct_or?; subst; try done; sid_order. }
  destruct l as [|x l].
  { destruct L, X, o; try done. cbn in M. subst M. rewrite Hoi by done. reflexivity. }
  destruct (max_by_show l x Hok) as (m & -> & Hin & Hmax). cbn. f_equal.
  rewrite list.Forall_forall in Hmax, Hok. apply sid_le_antisym; [by apply HlM|].
  assert (sid_le i m) as Him.
  { destruct o; [apply Hmax; rewrite El, !elem_of_app; right; right; by left|]. rewrite Hoi by done.
    destruct (Hok m Hin) as [[? _] [? _]]. sid_order. }
  rewrite El in Hmax. apply sid_max_lub; [apply sid_max_lub; [done|]|].
  - destruct L; cbn; [|done]. apply Hmax. rewrite !elem_of_app. left. by left.
  - destruct X; cbn; [|done]. apply Hmax. rewrite !elem_of_app. right. left. by left.
Qed.

Section Reads.
Context {R : Type} `{RedisLaws R} `{MsgPack}.
Context (Up : R -> Prop) (Hup : available Up).
Context (sha256 : bytes -> bytes) (hex_encode : bytes -> string).
Context (into_values : gmap string (string * MessageEnvelope) -> list (string * MessageEnvelope))
        (Hvals : forall m, into_values m ≡ₚ (map_to_list m).*2).
Context (cfg : Config).
Context (parse_receipt : bytes -> option (list string * string * Z)).
Context (user device : string) (Hdevice : str_is_empty device = false).

#[local] Abbreviation key := (for_envelope sha256 hex_encode).
#[local] Abbreviation dkey := (device_stream cfg user device).
#[local] Abbreviation ukey := (user_stream cfg user).

(** The parsed entries of a stream. *)
Definition parsed (s : stream) : list entry :=
  map (fun x => (x.1, (parse_entry user (show_sid x.1, x.2)).2)) (s_entries s).

Lemma parsed_ordered s : stream_ok s -> ordered (parsed s).
Proof using Type.
  intros [Hs _]. unfold parsed, ordered. induction Hs as [|x l Hs IH Hx]; cbn; constructor; [done|].
  rewrite List.Forall_map. by eapply list.Forall_impl; [exact Hx|].
Qed.

Lemma parsed_ok s : stream_ok s -> Forall (fun x => sid_ok x.1) (parsed s).
Proof using Type.
  intros [_ Hs]. unfold parsed. rewrite List.Forall_map. by eapply list.Forall_impl; [exact Hs|].
Qed.

Lemma elem_parsed s i e :
  (i, Some e) ∈ parsed s <->
  exists f, (i, f) ∈ s_entries s /\ parse_stream_message f user = Ok (Some e).
Proof using Type.
  unfold parsed. rewrite list_elem_of_fmap. split.
  - intros ([j f] & [= <- Hp] & Hin). exists f. split; [done|].
    destruct (parse_stream_message f user) as [o|]; by subst.
  - intros (f & Hin & Hp). exists (i, f). cbn. by rewrite Hp.
Qed.

Lemma start_read_sid o i :
  at_pos o i ->
  let start := match o with Some id => default "0" (normalize_stream_id id) | None => "0" end in
  String.eqb start "$" = false /\ read_sid start = Some i.
Proof using Type.
  intros [Hi [[-> ->]| -> ]]; cbn; [by split|]. rewrite normalize_show by done. cbn.
  split; [|by apply read_sid_show]. apply String.eqb_neq. intros E.
  pose proof (read_sid_show i Hi) as Hr. by rewrite E in Hr.
Qed.

Lemma map_filter {A B} (f : A -> B) (p : B -> bool) l :
  List.filter p (map f l) = map f (List.filter (fun x => p (f x)) l).
Proof using Type. induction l as [|x l IH]; cbn; [done|]. rewrite IH. by destruct (p (f x)). Qed.

Lemma after_parsed s i :
  after (parsed s) i = map (fun x => (x.1, (parse_entry user (show_sid x.1, x.2)).2)) (stream_after i s).
Proof using Type. unfold after, parsed. by rewrite map_filter. Qed.

(** A read answers the entries past the cursor, whatever is stored under the key. *)
Lemma read_parsed_up r k o i count :
  Up r -> at_pos o i -> 0 < count ->
  exists r', read_parsed r k user o count
               = (r', Ok (map show_e (read (parsed (stream_of (keys r) k)) i count))) /\
             keys r' = keys r /\ Up r'.
Proof using Hup.
  intros Hr Ho Hc. unfold read_parsed, read_stream_messages.
  destruct (start_read_sid o i Ho) as [Hd Hs].
  set (start := match o with Some id => default "0" (normalize_stream_id id) | None => "0" end) in *.
  assert (exists rep, cmd_doc (XREAD k start count) (keys r) = Some (keys r, rep) /\
    (rep = RErr WRONGTYPE /\ s_entries (stream_of (keys r) k) = [] \/
     rep = REntries (show_entries (take (Z.to_nat count) (stream_after i (stream_of (keys r) k))))))
    as (rep & Hdoc & Hrep).
  { cbn. unfold stream_of, as_stream. destruct (Z.leb_spec count 0); [lia|].
    destruct (keys r !! k) as [[[] ?]|]; cbn; rewrite ?Hd, ?Hs; cbn; eauto. }
  destruct (available_exact Up Hup r (XREAD k start count) _ _ Hr eq_refl Hdoc) as (r' & -> & Hk & Hr').
  exists r'. split; [|done]. unfold read. rewrite after_parsed. destruct Hrep as [[-> Hl]| -> ].
  - change (str_contains "no such key" WRONGTYPE || str_contains "WRONGTYPE" WRONGTYPE) with true.
    unfold stream_after. rewrite Hl. cbn. by rewrite firstn_nil.
  - do 2 f_equal. unfold show_entries. rewrite firstn_map, !map_map. reflexivity.
Qed.

(** The merged read is one page of the two streams. *)
Lemma read_mailbox_up r od ou cd cu count :
  Up r -> at_pos od cd -> at_pos ou cu -> 0 < count -> 2 * count <= u64_max ->
  stream_ok (stream_of (keys r) dkey) -> stream_ok (stream_of (keys r) ukey) ->
  let Dev := parsed (stream_of (keys r) dkey) in
  let Acc := parsed (stream_of (keys r) ukey) in
  exists r' p,
    read_mailbox_messages sha256 hex_encode cfg into_values r user (Some device) od ou count = (r', Ok p) /\
    keys r' = keys r /\ Up r' /\
    entries p = map show_e (page sha256 hex_encode into_values device Dev Acc count cd cu) /\
    user_examined_through p =
      (if cut sha256 hex_encode into_values device Dev Acc count cd cu then None
       else option_map show_sid (examined_of (2 * count) (read Dev cd (2 * count)) (read Acc cu (2 * count)))) /\
    has_more p = more sha256 hex_encode into_values device Dev Acc count cd cu.
Proof using Hup Hvals Hdevice.
  intros Hr Hod Hou Hc Hmax Hsd Hsu Dev Acc. unfold read_mailbox_messages, non_empty.
  rewrite Hdevice. unfold saturating_mul_u64.
  replace (Z.min u64_max (count * 2)) with (2 * count) by lia.
  destruct (read_parsed_up r dkey od cd (2 * count) Hr Hod ltac:(lia)) as (r1 & E1 & Hk1 & Hr1).
  unfold read_device_messages_from_stream. rewrite E1.
  destruct (read_parsed_up r1 ukey ou cu (2 * count) Hr1 Hou ltac:(lia)) as (r2 & E2 & Hk2 & Hr2).
  unfold read_user_messages_from_stream. rewrite E2, Hk1. do 2 eexists. split; [done|].
  split; [congruence|]. split; [done|].
  destruct (page_show sha256 hex_encode into_values Hvals count (2 * count) device
              (read Dev cd (2 * count)) (read Acc cu (2 * count))) as (He & Hx & Hm).
  { apply read_ok. by apply parsed_ok. } { apply read_ok. by apply parsed_ok. }
  split_and!; [exact He|exact Hx|exact Hm].
Qed.

(** ** One turn of the poll *)

Context (Hpushd : push_outstanding_key device <> dkey) (Hpushu : push_outstanding_key device <> ukey).
Context (sd su : stream) (Hsd : stream_ok sd) (Hsu : stream_ok su).

#[local] Abbreviation Dev := (parsed sd).
#[local] Abbreviation Acc := (parsed su).

(** Redis answers, the device is not revoked, the mailbox holds [sd] and [su]. *)
Definition serving (r : R) : Prop :=
  Up r /\ keys r !! Tokens.revoked_device_key device = None /\
  stream_of (keys r) dkey = sd /\ stream_of (keys r) ukey = su.

Lemma not_revoked_up r :
  serving r -> exists r', Tokens.is_device_revoked r device = (r', Ok false) /\ serving r'.
Proof using Hup.
  intros (Hr & Hrev & Hd & Hu). unfold Tokens.is_device_revoked, exec_bool.
  set (c := EXISTS (Tokens.revoked_device_key device)).
  assert (cmd_doc c (keys r) = Some (keys r, RInt 0)) as Hdoc by (cbn; by rewrite Hrev).
  destruct (available_exact Up Hup r c _ _ Hr eq_refl Hdoc) as (r' & -> & Hk & Hr').
  exists r'. split; [done|]. unfold serving. by rewrite Hk.
Qed.

Lemma clear_push_up r : serving r -> serving (clear_push_outstanding r device).1.
Proof using Hup Hpushd Hpushu.
  intros (Hr & Hrev & Hd & Hu). unfold clear_push_outstanding, exec_int.
  set (c := DEL (push_outstanding_key device)).
  destruct (available_exec Up Hup r c _ _ Hr eq_refl) as (r' & rep & -> & Ha & Hk & Hr').
  cbn in Ha. subst rep. cbn. unfold serving. rewrite Hk. unfold stream_of in *.
  by rewrite !lookup_delete_ne.
Qed.

Definition respond (x : entry) : option response :=
  x.2 ≫= response_of parse_receipt (show_sid x.1).

Lemma deliver_all P c tx :
  (length P <= open tx)%nat ->
  exists c' tx', deliver parse_receipt (map show_e P) c tx = (c', tx', true) /\
    last_stream_id c' = from_option (fun x => Some (show_sid x.1)) (last_stream_id c) (list.last P) /\
    user_stream_id c' = user_stream_id c /\
    sent tx' = sent tx ++ omap respond P /\ (open tx <= open tx' + length P)%nat.
Proof using Type.
  revert c tx. induction P as [|[i o] P IH]; intros c tx Hlen.
  { exists c, tx. cbn. rewrite app_nil_r. split_and!; (done || lia). }
  assert (forall tx1, (length P <= open tx1)%nat -> (open tx <= open tx1 + 1)%nat ->
    sent tx1 = sent tx ++ option_list (respond (i, o)) ->
    exists c' tx', deliver parse_receipt (map show_e P) (set_last (show_sid i) c) tx1 = (c', tx', true) /\
      last_stream_id c' = from_option (fun x => Some (show_sid x.1)) (last_stream_id c) (list.last ((i, o) :: P)) /\
      user_stream_id c' = user_stream_id c /\
      sent tx' = sent tx ++ omap respond ((i, o) :: P) /\
      (open tx <= open tx' + length ((i, o) :: P))%nat) as Hgo.
  { intros tx1 Hl Ho Hs. destruct (IH (set_last (show_sid i) c) tx1 Hl) as (c' & tx' & E & Hc & Hu & Hs' & Ho').
    exists c', tx'. rewrite E. split_and!; [done| |done| |cbn; lia].
    - rewrite Hc. rewrite last_cons. by destruct (list.last P).
    - rewrite Hs', Hs, <- app_assoc. f_equal. cbn [omap list_omap]. by destruct (respond (i, o)). }
  cbn in Hlen. cbn [map show_e fst snd deliver]. destruct o as [e|].
  - destruct (response_of parse_receipt (show_sid i) e) as [x|] eqn:Ex;
      change (response_of _ _ e) with (respond (i, Some e)) in Ex.
    + unfold send. destruct (open tx) as [|n] eqn:En; [lia|]. apply Hgo; cbn [open sent]; [lia|lia|].
      by rewrite Ex.
    + apply Hgo; [lia|lia|]. by rewrite Ex, app_nil_r.
  - apply Hgo; [lia|lia|]. cbn. by rewrite app_nil_r.
Qed.

#[local] Abbreviation pageS := (page sha256 hex_encode into_values device Dev Acc).
#[local] Abbreviation moreS := (more sha256 hex_encode into_values device Dev Acc).
#[local] Abbreviation lastS := (next_last sha256 hex_encode into_values device Dev Acc).
#[local] Abbreviation examinedS := (next_examined sha256 hex_encode into_values device Dev Acc).

Lemma user_read_position_at ou od us cd :
  at_pos ou us -> at_pos od cd -> at_pos (user_read_position ou od) (user_position cd us).
Proof using Type.
  intros [Hu Eu] [Hd Ed]. unfold user_position, user_read_position, compare_stream_ids, sid_max.
  split; [by destruct (sid_ltb cd us)|]. destruct Eu as [[-> ->]| -> ].
  - destruct (sid_ltb_spec cd (0, 0)); [|done]. destruct Hd as [[? _] [? _]]. sid_order.
  - destruct Ed as [[-> ->]| -> ].
    + right. destruct (sid_ltb_spec (0, 0) us); [done|]. do 2 f_equal.
      destruct us as [a b], Hu as [[? _] [? _]]. unfold sid_lt in *. cbn in *. f_equal; lia.
    + rewrite !stream_id_show by done. right.
      destruct (sid_compare_spec us cd), (sid_ltb_spec cd us); try done; subst; try done; sid_order.
Qed.

Lemma page_ids_ok n cd cu x : x ∈ pageS n cd cu -> sid_ok x.1.
Proof using Hvals Hsd Hsu.
  intros Hx. apply page_id_from in Hx; auto using parsed_ok.
  pose proof (parsed_ok _ Hsd) as Hd. pose proof (parsed_ok _ Hsu) as Hu. rewrite list.Forall_forall in Hd, Hu.
  destruct Hx as [[Hx _]|[Hx _]]; auto.
Qed.

Lemma next_last_at n o cd cu :
  at_pos o cd ->
  at_pos (from_option (fun x => Some (show_sid x.1)) o (list.last (pageS n cd cu))) (lastS n cd cu).
Proof using Hvals Hsd Hsu.
  intros Ho. unfold next_last. destruct (list.last _) as [x|] eqn:E; cbn; [|done].
  split; [|by right]. by apply last_Some_elem_of, page_ids_ok in E.
Qed.

Lemma examined_ok n cd cu x :
  examined_of (2 * n) (read Dev cd (2 * n)) (read Acc cu (2 * n)) = Some x -> sid_ok x.
Proof using Hsd Hsu.
  intros Hx. pose proof (read_ok _ cd (2 * n) (parsed_ok _ Hsd)) as Hd.
  pose proof (read_ok _ cu (2 * n) (parsed_ok _ Hsu)) as Hu.
  unfold examined_of in Hx. destruct (list.last (read Acc cu _)) as [y|] eqn:Ey; [|done].
  injection Hx as <-. apply last_Some_elem_of in Ey. pose proof Hu as Hu'. rewrite list.Forall_forall in Hu'.
  destruct (within _ y.1); [by apply Hu'|]. destruct (horizon_of _ _ _) as [h|] eqn:Eh; [|by apply Hu'].
  exact (horizon_ok _ _ _ _ Hd Hu Eh).
Qed.

Lemma set_user_at n c us cd cu :
  at_pos (user_stream_id c) us ->
  at_pos (user_stream_id (set_user
    (if cut sha256 hex_encode into_values device Dev Acc n cd cu then None
     else option_map show_sid (examined_of (2 * n) (read Dev cd (2 * n)) (read Acc cu (2 * n)))) c))
    (examinedS n us cd cu).
Proof using Hsd Hsu.
  intros Ho. unfold next_examined. destruct (cut _ _ _ _ _ _ _ _ _); [done|].
  destruct (examined_of _ _ _) as [x|] eqn:E; cbn; [|done]. split; [|by right]. by eapply examined_ok.
Qed.

#[local] Abbreviation N50 := STREAM_MAILBOX_PAGE.
#[local] Abbreviation step := (poll_once sha256 hex_encode cfg into_values parse_receipt user (Some device)).
#[local] Abbreviation instep := (in_step Dev N50).

Lemma length_page n cd cu : (length (pageS n cd cu) <= Z.to_nat n)%nat.
Proof using Type. unfold page. rewrite length_take. lia. Qed.

Lemma poll_turn r c tx cd us :
  serving r -> at_pos (last_stream_id c) cd -> at_pos (user_stream_id c) us ->
  instep cd us -> (50 < open tx)%nat ->
  let cu := user_position cd us in
  exists r' c' tx',
    step r c tx = (r', c', tx', if moreS N50 cd cu then None else Some (Ok tt)) /\
    serving r' /\ at_pos (last_stream_id c') (lastS N50 cd cu) /\
    at_pos (user_stream_id c') (examinedS N50 us cd cu) /\
    sent tx' = sent tx ++ omap respond (pageS N50 cd cu) /\ (open tx <= open tx' + 50)%nat.
Proof using Hup Hvals Hdevice Hpushd Hpushu Hsd Hsu.
  intros Hr Hl Hu Hin Ho cu. unfold poll_once. destruct (Nat.eqb_spec (open tx) 0); [lia|].
  unfold non_empty at 1. rewrite Hdevice.
  destruct (not_revoked_up r Hr) as (r1 & -> & Hr1). pose proof Hr1 as (Hr1up & _ & Hd1 & Hu1).
  assert (at_pos (user_read_position (user_stream_id c) (last_stream_id c)) cu) as Hcu
    by by apply user_read_position_at.
  pose proof (read_mailbox_up r1 _ _ cd cu N50 Hr1up Hl Hcu ltac:(by vm_compute) ltac:(by vm_compute)) as Hread.
  rewrite Hd1, Hu1 in Hread. destruct (Hread Hsd Hsu) as (r2 & p & -> & Hk2 & Hr2 & He & Hx & Hm).
  assert (serving r2) as Hs2 by (destruct Hr1 as (? & ? & ? & ?); unfold serving; by rewrite Hk2).
  set (r3 := match entries p with [] => _ | _ => _ end).
  assert (serving r3) as Hs3.
  { subst r3. unfold non_empty. rewrite Hdevice. destruct (entries p); [done|]. by apply clear_push_up. }
  clearbody r3. rewrite He. pose proof (length_page N50 cd cu) as Hlen.
  destruct (deliver_all (pageS N50 cd cu) c tx) as (c' & tx' & -> & Hlast & Huser & Hsent & Hopen).
  { change (Z.to_nat N50) with 50%nat in Hlen. lia. }
  cbn [negb]. rewrite Hx, Hm.
  pose proof (next_last_at N50 _ _ cu Hl) as Hl'. rewrite <- Hlast in Hl'.
  rewrite <- Huser in Hu. pose proof (set_user_at N50 c' us cd cu Hu) as Hu'.
  set (c2 := set_user _ c') in *. change (last_stream_id c') with (last_stream_id c2) in Hl'.
  assert (forall o : option (result unit unit), exists r' c2' tx'', (r3, c2, tx', o) = (r', c2', tx'', o) /\ serving r' /\
     at_pos (last_stream_id c2') (lastS N50 cd cu) /\ at_pos (user_stream_id c2') (examinedS N50 us cd cu) /\
     sent tx'' = sent tx ++ omap respond (pageS N50 cd cu) /\ (open tx <= open tx'' + 50)%nat) as Hend.
  { intros o. exists r3, c2, tx'. split_and!; try done.
    change (Z.to_nat N50) with 50%nat in Hlen. lia. }
  destruct (moreS N50 cd cu) eqn:Em; [|apply Hend]. cbn [negb].
  rewrite bool_decide_false; [apply Hend|]. intros E. apply pair_equal_spec in E as [E1 E2].
  rewrite E1 in Hl'.
  rewrite E2, <- Huser in Hu'.
  pose proof (at_pos_inj _ _ _ Hl Hl') as Ecd. pose proof (at_pos_inj _ _ _ Hu Hu') as Eus.
  pose proof (progress sha256 hex_encode into_values Hvals device Dev Acc N50 (parsed_ok _ Hsd)
                (parsed_ok _ Hsu) ltac:(by vm_compute) cd us Hin Em) as Hp.
  fold cu in Hp. rewrite <- Ecd, <- Eus in Hp. fold cu in Hp. lia.
Qed.

Lemma poll_runs fuel r c tx cd us out cd' us' :
  poll_pages sha256 hex_encode into_values device Dev Acc N50 fuel cd us = Some (out, cd', us') ->
  serving r -> at_pos (last_stream_id c) cd -> at_pos (user_stream_id c) us ->
  instep cd us -> (50 * fuel < open tx)%nat ->
  exists r' c' tx',
    poll_messages sha256 hex_encode cfg into_values parse_receipt fuel user (Some device) r c tx
      = (r', c', tx', Some (Ok tt)) /\
    serving r' /\ at_pos (last_stream_id c') cd' /\ at_pos (user_stream_id c') us' /\
    sent tx' = sent tx ++ omap respond out.
Proof using Hup Hvals Hdevice Hpushd Hpushu Hsd Hsu.
  revert r c tx cd us out. induction fuel as [|fuel IH]; intros r c tx cd us out Hp Hr Hl Hu Hin Ho; [done|].
  cbn [poll_pages] in Hp. set (cu := user_position cd us) in *.
  destruct (poll_turn r c tx cd us Hr Hl Hu Hin ltac:(lia)) as (r1 & c1 & tx1 & E & Hr1 & Hl1 & Hu1 & Hs1 & Ho1).
  cbn [poll_messages]. rewrite E. fold cu in Hl1, Hu1, Hs1 |- *.
  destruct (moreS N50 cd cu) eqn:Em; cbn [negb] in Hp.
  - rewrite bool_decide_false in Hp.
    2: { intros [Ec Eu]. pose proof (progress sha256 hex_encode into_values Hvals device Dev Acc N50
           (parsed_ok _ Hsd) (parsed_ok _ Hsu) ltac:(by vm_compute) cd us Hin Em) as Hpr.
         fold cu in Hpr. rewrite Ec, Eu in Hpr. fold cu in Hpr. lia. }
    destruct (poll_pages _ _ _ _ _ _ _ fuel _ _) as [[[out' c'] u']|] eqn:Ep; [|done].
    injection Hp as <- <- <-.
    destruct (IH r1 c1 tx1 _ _ _ Ep Hr1 Hl1 Hu1) as (r2 & c2 & tx2 & E2 & Hr2 & Hl2 & Hu2 & Hs2).
    { by apply in_step_next; auto using parsed_ok, parsed_ordered. } { lia. }
    exists r2, c2, tx2. split_and!; try done. rewrite Hs2, Hs1, omap_app. by rewrite app_assoc.
  - injection Hp as <- <- <-. by exists r1, c1, tx1.
Qed.

(** An entry of a stream that is for this reader. *)
Definition holds (s : stream) (i : sid) (e : MessageEnvelope) : Prop :=
  exists f, (i, f) ∈ s_entries s /\ parse_stream_message f user = Ok (Some e).

(** The envelope is waiting past the cursor, in the device's stream or, unless it
    names another device, in the account's. *)
Definition waiting (cd : sid) (e : MessageEnvelope) : Prop :=
  exists i, sid_lt cd i /\ (holds sd i e \/ holds su i e /\ is_sibling device e = false).

Definition reached (new : list response) (e : MessageEnvelope) : Prop :=
  exists j e', key e' = key e /\
    forall x, response_of parse_receipt (show_sid j) e' = Some x -> x ∈ new.

Definition from_mailbox (x : response) : Prop :=
  exists j e, (holds sd j e \/ holds su j e /\ is_sibling device e = false) /\
    response_of parse_receipt (show_sid j) e = Some x.

Lemma waiting_pending cd e :
  waiting cd e -> pending sha256 hex_encode device Dev Acc (key e) cd cd.
Proof using Type.
  intros (i & Hlt & Hi). exists i, e. split; [done|].
  destruct Hi as [Hi%elem_parsed|[Hi%elem_parsed Hs]]; [by left|by right].
Qed.

Lemma out_reached (out : list entry) e :
  (exists i e', (i, Some e') ∈ out /\ key e' = key e) -> reached (omap respond out) e.
Proof using Type.
  intros (i & e' & Hin & Hk). exists i, e'. split; [done|]. intros x Hx. apply list_elem_of_omap.
  by exists (i, Some e').
Qed.

Lemma out_from (out : list entry) x :
  (forall y, y ∈ out -> y ∈ Dev \/ y ∈ Acc /\ mine device y = true) ->
  x ∈ omap respond out -> from_mailbox x.
Proof using Type.
  intros Hout ([i [e|]] & Hin & Hx)%list_elem_of_omap; [|done]. exists i, e. split; [|done].
  apply Hout in Hin as [Hin%elem_parsed|[Hin%elem_parsed Hm]]; [by left|right]. split; [done|].
  cbn in Hm. by destruct (is_sibling device e).
Qed.

Lemma measure_bound cd cu :
  (measure Dev Acc cd cu <= length (s_entries sd) + length (s_entries su))%nat.
Proof using Type.
  unfold measure, after. rewrite <- (length_map (fun x => (x.1, (parse_entry user (show_sid x.1, x.2)).2)) (s_entries sd)).
  rewrite <- (length_map (fun x => (x.1, (parse_entry user (show_sid x.1, x.2)).2)) (s_entries su)).
  apply Nat.add_le_mono; apply filter_length_le.
Qed.

Lemma sid_max_zero cd : sid_ok cd -> user_position cd (0, 0) = cd.
Proof using Type.
  intros [[? _] [? _]]. unfold user_position, sid_max. destruct (sid_ltb_spec cd (0, 0)); [sid_order|done].
Qed.

(** The poll sends what the pages hold, and the pages hold every pending delivery. *)
Lemma poll_sends fuel r c tx cd :
  no_clash sha256 hex_encode device Dev Acc ->
  serving r -> at_pos (last_stream_id c) cd -> user_stream_id c = None ->
  (length (s_entries sd) + length (s_entries su) < fuel)%nat -> (50 * fuel < open tx)%nat ->
  exists r' c' tx' (out : list entry),
    poll_messages sha256 hex_encode cfg into_values parse_receipt fuel user (Some device) r c tx
      = (r', c', tx', Some (Ok tt)) /\
    serving r' /\ sent tx' = sent tx ++ omap respond out /\
    (forall k, pending sha256 hex_encode device Dev Acc k cd cd ->
       exists i e, (i, Some e) ∈ out /\ key e = k) /\
    (forall x, x ∈ out -> x ∈ Dev \/ x ∈ Acc /\ mine device x = true).
Proof using Hup Hvals Hdevice Hpushd Hpushu Hsd Hsu.
  intros Hclash Hr Hl Hu Hf Ho. pose proof (sid_max_zero cd (proj1 Hl)) as Hpos.
  assert (instep cd (0, 0)) as Hin by (apply in_step_start; by apply parsed_ok).
  pose proof (measure_bound cd cd) as Hm.
  destruct (poll_pages_complete sha256 hex_encode into_values Hvals device Dev Acc N50) with
    (fuel := fuel) (cd := cd) (us := (0, 0) : sid) as (out & cd' & us' & E & Hall & Hout);
    auto using parsed_ok, parsed_ordered; [by vm_compute|rewrite Hpos; lia|].
  destruct (poll_runs fuel r c tx cd (0, 0) _ _ _ E Hr Hl) as (r' & c' & tx' & E' & Hr' & _ & _ & Hs); auto.
  { split; [by vm_compute|]. by left. }
  rewrite Hpos in Hall. by exists r', c', tx', out.
Qed.


(** ** Fetching the pending messages

    A client of [get_pending_messages] asks again from the returned cursor while
    there is more; [None] is out of fuel. *)
Fixpoint fetch_all (fuel : nat) (limit : option Z) (r : R) (since : option string)
    : R * option (result (list PendingMessage) unit) :=
  match fuel with
  | O => (r, None)
  | S fuel' =>
      match get_pending_messages sha256 hex_encode cfg into_values r user (Some device) since limit with
      | (r1, Err e) => (r1, Some (Err e))
      | (r1, Ok p) =>
          if pr_has_more p then
            match fetch_all fuel' limit r1 (Some (pr_next_cursor p)) with
            | (r2, Some (Ok l)) => (r2, Some (Ok (pr_messages p ++ l)))
            | other => other
            end
          else (r1, Some (Ok (pr_messages p)))
      end
  end.

#[local] Abbreviation cutS := (cut sha256 hex_encode into_values device Dev Acc).
#[local] Abbreviation resumeS := (resume_sid sha256 hex_encode into_values device Dev Acc).

(** The cursor of the answer is where the one-cursor reader goes on. *)
Lemma resume_after_show n p o i :
  at_pos o i ->
  entries p = map show_e (pageS n i i) ->
  user_examined_through p =
    (if cutS n i i then None
     else option_map show_sid (examined_of (2 * n) (read Dev i (2 * n)) (read Acc i (2 * n)))) ->
  default "0-0" (resume_after p o) = show_sid (resumeS n i) /\ sid_ok (resumeS n i).
Proof using Hvals Hsd Hsu.
  intros Ho He Hx. unfold resume_after. rewrite He, Hx, last_map_fst.
  set (X := if cutS n i i then None else examined_of (2 * n) (read Dev i (2 * n)) (read Acc i (2 * n))).
  assert (resumeS n i = sid_max (sid_max i (default i (option_map fst (list.last (pageS n i i))))) (default i X)) as ->.
  { unfold resume_sid, next_last, next_examined. subst X. f_equal; [f_equal|].
    - by destruct (list.last (pageS n i i)).
    - by destruct (cutS n i i). }
  replace (if cutS n i i then None else _) with (option_map show_sid X)
    by (subst X; by destruct (cutS n i i)).
  apply max_by_three; [done| |].
  - intros x. destruct (list.last (pageS n i i)) as [y|] eqn:E; [|done]. intros [= <-].
    by apply last_Some_elem_of, page_ids_ok in E.
  - subst X. intros x. destruct (cutS n i i); [done|]. apply examined_ok.
Qed.

(** The gap check only reads. *)
Lemma gap_of_keys_serving r since ks :
  serving r -> serving (gap_of_keys cfg r since ks).1.
Proof using Hup.
  revert r. induction ks as [|k ks IH]; intros r Hr; [done|]. cbn.
  assert (serving (exec r (XINFO k)).1) as Hr1.
  { destruct Hr as (Hr & Hrest). destruct (exec r (XINFO k)) as [r1 o] eqn:E. cbn.
    pose proof (exec_read_keys _ _ _ _ E) as Hk. pose proof (Hup r (XINFO k) Hr) as [Hr1 _].
    rewrite E in Hr1. split; [done|]. rewrite Hk; [done|]. intros ks0 ks' rep. cbn.
    by destruct (ks0 !! k) as [[[] ?]|]; intros; simplify_eq. }
  destruct (exec r (XINFO k)) as [r1 [[]|]]; try exact Hr1; cbn in Hr1.
  - destruct (mailbox_gap_rule _ _ _); [done|]. by apply IH.
  - destruct (str_contains _ _); [by apply IH|done].
Qed.

Lemma show_sid_cursor i : sid_ok i ->
  non_empty (Some (show_sid i)) = Some (show_sid i) /\ is_valid_redis_stream_cursor (show_sid i) = true.
Proof using Type.
  intros Hi. split.
  - cbn. destruct (str_is_empty (show_sid i)) eqn:E; [|done]. apply str_is_empty_spec in E.
    pose proof (read_sid_show i Hi) as Hr. by rewrite E in Hr.
  - unfold is_valid_redis_stream_cursor. destruct (_ || _); [done|]. rewrite show_sid_once by done.
    rewrite !parse_u64_to_string by apply Hi. by rewrite !bool_decide_true.
Qed.

Definition pend (x : entry) : option PendingMessage := x.2 ≫= pending_message.

Context (limit : option Z) (Hlimit : 0 < default 50 limit).
#[local] Abbreviation n := (Z.min (default 50 limit) 100).

Lemma pending_turn r o i :
  serving r -> at_pos o i ->
  exists r' p, get_pending_messages sha256 hex_encode cfg into_values r user (Some device) o limit = (r', Ok p) /\
    serving r' /\ pr_messages p = omap pend (pageS n i i) /\ pr_has_more p = moreS n i i /\
    pr_next_cursor p = show_sid (resumeS n i) /\ sid_ok (resumeS n i).
Proof using Hup Hvals Hdevice Hpushd Hpushu Hsd Hsu Hlimit.
  intros Hr Ho. unfold get_pending_messages.
  assert (match non_empty o with Some c => if is_valid_redis_stream_cursor c then Some c else None
          | None => None end = o) as ->.
  { destruct Ho as [Hi [[-> _]| -> ]]; [done|]. destruct (show_sid_cursor i Hi) as [-> ->]. done. }
  pose proof Hr as (Hrup & Hrev & Hd1 & Hu1).
  pose proof (read_mailbox_up r _ _ i i n Hrup Ho Ho ltac:(lia) ltac:(unfold u64_max; lia)) as Hread.
  rewrite Hd1, Hu1 in Hread. destruct (Hread Hsd Hsu) as (r2 & p & -> & Hk2 & Hr2 & He & Hx & Hm).
  assert (serving r2) as Hs2 by (unfold serving; by rewrite Hk2).
  assert (non_empty (Some device) = Some device) as -> by (unfold non_empty; by rewrite Hdevice).
  set (r3 := (clear_push_outstanding r2 device).1).
  assert (serving r3) as Hs3 by by apply clear_push_up.
  destruct (resume_after_show n p o i Ho He Hx) as [Hres Hok].
  set (g := match o with
            | Some cursor => match mailbox_gap cfg r3 user (Some device) cursor with
                             | (r', Ok gap) => (r', gap) | (r', Err _) => (r', None) end
            | None => (r3, None) end).
  assert (serving g.1) as Hg.
  { subst g. destruct o as [c|]; [|exact Hs3].
    pose proof (gap_of_keys_serving r3 c
      (match non_empty (Some device) with Some d => [device_stream cfg user d] | None => [] end
       ++ [ukey]) Hs3) as Hgk.
    unfold mailbox_gap. destruct (gap_of_keys cfg r3 c _) as [r5 [gp|?]]; exact Hgk. }
  destruct g as [r4 gap]. cbn in Hg. do 2 eexists. split; [done|]. cbn. split_and!; try done.
  rewrite He. unfold pend. clear. induction (pageS n i i) as [|[j [e|]] l IH]; cbn; [done| |done].
  by rewrite IH.
Qed.

Lemma fetch_runs fuel r o i out i' :
  catch_up sha256 hex_encode into_values device Dev Acc n fuel i = Some (out, i') ->
  serving r -> at_pos o i ->
  exists r', fetch_all fuel limit r o = (r', Some (Ok (omap pend out))) /\ serving r'.
Proof using Hup Hvals Hdevice Hpushd Hpushu Hsd Hsu Hlimit.
  revert r o i out. induction fuel as [|fuel IH]; intros r o i out Hc Hr Ho; [done|].
  destruct (pending_turn r o i Hr Ho) as (r1 & p & E & Hr1 & Hmsg & Hm & Hn & Hok).
  cbn [fetch_all catch_up] in *. rewrite E, Hm. destruct (moreS n i i); cbn [negb] in Hc.
  - destruct (catch_up _ _ _ _ _ _ _ fuel _) as [[out' c']|] eqn:Ec; [|done]. injection Hc as <- <-.
    destruct (IH r1 (Some (pr_next_cursor p)) _ _ Ec Hr1) as (r2 & E2 & Hr2).
    { rewrite Hn. split; [done|]. by right. }
    rewrite E2, Hmsg. exists r2. split; [|done]. by rewrite omap_app.
  - injection Hc as <- <-. rewrite Hmsg. by exists r1.
Qed.


End Reads.
(** ** A concrete mailbox *)

Definition sample_stream (l : list (Z * string)) : stream :=
  Stream (map (fun x => ((x.1, 0), list_to_map [("message_id", x.2); ("payload", x.2)])) l)
    (100, 0) (0, 0) (Z.of_nat (length l)).

Definition sample_redis (dev acc : list (Z * string)) : mem :=
  Mem (<[device_stream sample_cfg "alice" "phone" := Entry (VStream (sample_stream dev)) None]>
       (<[user_stream sample_cfg "alice" := Entry (VStream (sample_stream acc)) None]> ∅)) true.

Definition sample_state : StreamCatchupState := {|
  last_stream_id := None; user_stream_id := None; subscribe_with_cursor_seen := false;
  initial_catchup_done := false |}.

Lemma sample_no_clash :
  no_clash (fun b => b) sample_hex "phone" (parsed (H1 := sample_pack) "alice" (sample_stream [(1, "a")]))
    (parsed (H1 := sample_pack) "alice" (sample_stream [(2, "b")])).
Proof.
  intros i o o' Hd Ha _. vm_compute in Hd, Ha.
  apply list_elem_of_singleton in Hd, Ha. by simplify_eq.
Qed.

Lemma sample_ok l : Sorted Z.lt l.*1 -> Forall (fun x => in_u64 x.1) l -> stream_ok (sample_stream l).
Proof.
  intros Hs Hf. split; cbn.
  - apply Sorted_StronglySorted in Hs; [|intros ? ? ?; lia].
    induction l as [|x l IH]; cbn in *; inversion Hs; inversion Hf; constructor; subst; [by apply IH|].
    rewrite List.Forall_map. match goal with Hx : Forall (Z.lt _) _ |- _ => rename Hx into Hlt end.
    rewrite List.Forall_map in Hlt. eapply list.Forall_impl; [exact Hlt|]. intros y Hy. left. exact Hy.
  - rewrite List.Forall_map. eapply list.Forall_impl; [exact Hf|]. intros y Hy. split; [exact Hy|].
    by vm_compute.
Qed.




End Catchup.
