(* ===== verification/MailboxProps.v ===== *)
(** * Keys, purges and hidden senders

    Three facts about single mailboxes and envelopes: the idempotency key binds the
    delivery it names, the purge of a blocked sender removes exactly the entries it
    means to, and what a device is shown of a sealed envelope does not depend on who
    sent it. *)

From Stdlib Require Import Sorting.Sorted.
From S2P Require Import Prelude Text RedisStore Mailbox MailboxPaging MailboxGaps Tokens Delivery Catchup.

Module MailboxProps.
Import Redis Mailbox Paging Gaps Delivery Catchup.

(** ** The idempotency key *)

Definition field_ok (s : string) : Prop := Z.of_nat (String.length s) <= u64_max.

Lemma dedup_field_inj s t x y :
  field_ok s -> field_ok t -> dedup_field s ++ x = dedup_field t ++ y -> s = t /\ x = y.
Proof.
  unfold field_ok, dedup_field, u64_max. intros Hs Ht E. rewrite <- !app_assoc in E.
  apply app_inj_same_length in E as [El E]; [|by rewrite !length_be_bytes].
  apply be_bytes_inj in El; [|cbn; lia..].
  apply app_inj_same_length in E as [E1 E2]; [|rewrite !length_as_bytes; lia].
  split; [by apply as_bytes_inj|done].
Qed.

(** The bytes that are hashed. *)
Definition dedup_input (s r : string) (d : option string) (m : string) : bytes :=
  dedup_field s ++ dedup_field r ++ dedup_field (default "" d) ++ dedup_field m.

(** Two deliveries share an idempotency key only if sender, recipient, device and
    message id are the same (no device counts as the empty name), or these two encoded
    inputs are a collision of SHA-256. *)
Theorem dedup_key_binding sha256 hex_encode s r d m s' r' d' m' :
  (forall a b, hex_encode a = hex_encode b -> a = b) ->
  Forall field_ok [s; r; default "" d; m] -> Forall field_ok [s'; r'; default "" d'; m'] ->
  MessageDedupKey_new sha256 hex_encode s r d m = MessageDedupKey_new sha256 hex_encode s' r' d' m' ->
  (s = s' /\ r = r' /\ default "" d = default "" d' /\ m = m') \/
  (dedup_input s r d m <> dedup_input s' r' d' m' /\
   sha256 (dedup_input s r d m) = sha256 (dedup_input s' r' d' m')).
Proof.
  intros Hhex Hf Hf' E. unfold MessageDedupKey_new in E.
  apply str_app_cancel, Hhex in E.
  destruct (decide (dedup_input s r d m = dedup_input s' r' d' m')) as [Hxy|Hxy]; [left|by right].
  unfold dedup_input in Hxy. rewrite !list.Forall_cons in Hf, Hf'.
  destruct Hf as (? & ? & ? & ? & _), Hf' as (? & ? & ? & ? & _).
  apply dedup_field_inj in Hxy as [-> Hxy]; [|done..]. apply dedup_field_inj in Hxy as [-> Hxy]; [|done..].
  apply dedup_field_inj in Hxy as [-> Hxy]; [|done..].
  rewrite <- (app_nil_r (dedup_field m)), <- (app_nil_r (dedup_field m')) in Hxy.
  by apply dedup_field_inj in Hxy as [-> _].
Qed.

Lemma dedup_key_binding_witness :
  let key := MessageDedupKey_new (fun b => b) sample_hex in
  key "bob" "alice" None "m1" = key "bob" "alice" (Some "") "m1" /\
  key "bob" "alice" (Some "a") "bc" <> key "bob" "alice" (Some "ab") "c".
Proof.
  intros key. split; [reflexivity|]. intros E.
  destruct (dedup_key_binding (fun b => b) sample_hex "bob" "alice" (Some "a") "bc" "bob" "alice" (Some "ab") "c")
    as [(_ & _ & Hd & _)|[Hne Hxy]].
  - intros a b Hab. unfold sample_hex in Hab.
    apply (f_equal String.list_byte_of_string) in Hab.
    by rewrite !String.list_byte_of_string_of_list_byte in Hab.
  - repeat constructor; by vm_compute.
  - repeat constructor; by vm_compute.
  - exact E.
  - discriminate.
  - by apply Hne.
Defined.

(** ** Purging a sender *)

Section Purge.
Context {R : Type} `{RedisLaws R} `{MsgPack}.

(** The entry is of this sender, and is not sealed. *)
Definition purged (target : string) (x : sid * gmap string string) : bool :=
  bool_decide (is_Some (to_delete target (show_sid x.1, x.2))).

Lemma purge_ids target l :
  omap (to_delete target) (show_entries l) = map (fun x => show_sid x.1) (List.filter (purged target) l).
Proof using Type.
  induction l as [|x l IH]; [done|]. cbn [show_entries map omap list_omap List.filter].
  fold (show_entries l). rewrite IH.
  assert (forall d, to_delete target (show_sid x.1, x.2) = Some d -> d = show_sid x.1) as Hd.
  { intros d. unfold to_delete. cbn. destruct (x.2 !! "payload"); cbn; [|done].
    destruct (from_slice _); cbn; [|done]. by repeat case_match; intros; simplify_eq. }
  destruct (to_delete target (show_sid x.1, x.2)) as [d|] eqn:E.
  - unfold purged at 2. rewrite E, bool_decide_true by done. cbn. by rewrite (Hd d eq_refl).
  - unfold purged at 2. by rewrite E, bool_decide_false by by intros [].
Qed.

Lemma mapM_read_show l : Forall (fun x : sid * gmap string string => sid_ok x.1) l ->
  mapM read_sid (map (fun x => show_sid x.1) l) = Some (map fst l).
Proof using Type.
  induction 1 as [|x l Hx _ IH]; [done|]. cbn. rewrite read_sid_show by done. cbn. by rewrite IH.
Qed.

(** The purge of a blocked sender removes from a stream exactly the entries whose
    envelope names that sender and is not sealed, keeps the others in order, and
    answers how many it removed; on any failure it answers an error. *)
Theorem purge_exact r k target r' n :
  stream_ok (stream_of (keys r) k) ->
  purge_sender_from_one_stream r k target = (r', Ok n) ->
  let l := s_entries (stream_of (keys r) k) in
  s_entries (stream_of (keys r') k) = List.filter (fun x => negb (purged target x)) l /\
  n = Z.of_nat (length (List.filter (purged target) l)).
Proof using Type.
  intros [Hs Hok] E l. unfold purge_sender_from_one_stream in E.
  destruct (exec r (XRANGE k)) as [r1 [[]|]] eqn:E1; try done.
  pose proof (exec_exact _ _ _ _ E1 eq_refl) as Hd. cbn in Hd.
  destruct (as_stream (keys r) k) as [o|] eqn:Ho; [|done]. cbn in Hd. injection Hd as Hk1 <-.
  fold l in Hs, Hok. assert (s_entries (default no_stream o) = l) as El
    by (unfold l; by rewrite (stream_of_as _ _ _ Ho)). rewrite El in E. clearbody l.
  assert (stream_of (keys r1) k = default no_stream o) as Hs1 by (rewrite <- Hk1; by apply stream_of_as).
  rewrite purge_ids in E. destruct (List.filter (purged target) l) as [|x gone] eqn:Eg; cbn [map] in E.
  { injection E as <- <-. rewrite Hs1, El. split; [|done]. symmetry. apply forallb_filter_id, forallb_forall.
    intros x Hx. apply negb_true_iff, not_true_is_false. intros Hp.
    assert (In x (List.filter (purged target) l)) as Hf by by apply filter_In. by rewrite Eg in Hf. }
  change (show_sid x.1 :: map (fun y => show_sid y.1) gone) with (map (fun y : sid * gmap string string => show_sid y.1) (x :: gone)) in E.
  rewrite <- Eg in E |- *. set (c := XDEL k _) in E. unfold exec_int in E.
  destruct (exec r1 c) as [r2 [[]|]] eqn:E2; try done. injection E as <- <-.
  pose proof (exec_exact _ _ _ _ E2 eq_refl) as Hd. cbn in Hd. rewrite <- Hk1, Ho in Hd. cbn in Hd.
  assert (Forall (fun x => sid_ok x.1) (List.filter (purged target) l)) as Hokf.
  { apply list.Forall_forall. intros y Hy. apply list_elem_of_In, filter_In in Hy as [Hy _].
    rewrite list.Forall_forall in Hok. by apply Hok, list_elem_of_In. }
  rewrite mapM_read_show in Hd by done. cbn in Hd. rewrite length_map. split; [|done].
  destruct o as [s|]; [|cbn in El; by rewrite <- El in Eg].
  injection Hd as Hk2 _. rewrite <- Hk2. destruct (set_stream k (keys r) (stream_del (map fst (List.filter (purged target) l)) s)) as [_ ->].
  cbn in El |- *. rewrite El. apply filter_ext_in. intros y Hy. f_equal. apply eq_true_iff_eq. rewrite bool_decide_eq_true. split.
  - intros (z & Ez & Hz)%list_elem_of_fmap. apply list_elem_of_In, filter_In in Hz as [Hz Hpz].
    assert (y = z) as ->; [|done].
    apply list_elem_of_In, list_elem_of_lookup in Hy as [i Hi].
    apply list_elem_of_In, list_elem_of_lookup in Hz as [j Hj].
    destruct (Nat.lt_trichotomy i j) as [Hij|[->|Hij]]; [|congruence|].
    + pose proof (sorted_lookup_lt _ _ _ _ _ _ Hs Hij Hi Hj) as Hlt. cbn in Hlt. rewrite Ez in Hlt. sid_order.
    + pose proof (sorted_lookup_lt _ _ _ _ _ _ Hs Hij Hj Hi) as Hlt. cbn in Hlt. rewrite Ez in Hlt. sid_order.
  - intros Hp. apply list_elem_of_fmap_2, list_elem_of_In, filter_In. done.
Qed.

End Purge.

Lemma purge_exact_witness :
  let k := device_stream sample_cfg "alice" "phone" in
  exists r', purge_sender_from_one_stream (H0 := sample_pack) (sample_redis [(1, "a"); (2, "b")] []) k "bob"
               = (r', Ok 2) /\ s_entries (stream_of (keys r') k) = [].
Proof.
  intros k. eexists. split; [vm_compute; reflexivity|].
  match goal with |- s_entries (stream_of (keys ?x) _) = _ => set (r' := x) end.
  destruct (purge_exact (H1 := sample_pack) (sample_redis [(1, "a"); (2, "b")] []) k "bob" r' 2) as [Hl _].
  - apply sample_ok; repeat constructor; by vm_compute.
  - vm_compute. reflexivity.
  - rewrite Hl. vm_compute. reflexivity.
Defined.

(** ** Hidden senders *)

Definition with_sender (s : string) (e : MessageEnvelope) : MessageEnvelope := {|
  message_id := message_id e; sender_id := s; recipient_id := recipient_id e; timestamp := timestamp e;
  message_type := message_type e; ephemeral_public_key := ephemeral_public_key e;
  message_number := message_number e; mls_payload := mls_payload e; group_id := group_id e;
  encrypted_payload := encrypted_payload e; content_hash := content_hash e;
  crypto_suite_id := crypto_suite_id e; origin_server := origin_server e; federated := federated e;
  server_signature := server_signature e; is_sealed_sender := is_sealed_sender e;
  sealed_inner := sealed_inner e; max_queue_len := max_queue_len e;
  proto_content_type := proto_content_type e; recipient_device := recipient_device e |}.

(** Of a sealed envelope that is not a receipt, both ways to the device (the stream
    and the pending messages) show the same whoever the sender is, and no payload but
    the sealed one; of an envelope that is not sealed, both show its sender. *)
Theorem sealed_sender_hidden parse_receipt id e :
  message_type e <> Receipt ->
  if is_sealed_sender e then
    (forall s, response_of parse_receipt id (with_sender s e) = response_of parse_receipt id e /\
               pending_message (with_sender s e) = pending_message e) /\
    pe_encrypted_payload (convert_envelope_to_proto e) = [] /\
    pe_sender (convert_envelope_to_proto e) = None
  else
    response_of parse_receipt id e = Some (RMessage (convert_envelope_to_proto e) id) /\
    pe_sender (convert_envelope_to_proto e) = Some (sender_id e) /\
    option_map pm_sender_id (pending_message e) = Some (sender_id e).
Proof.
  intros Hr. destruct (is_sealed_sender e) eqn:Es.
  - split; [|unfold convert_envelope_to_proto; by rewrite Es]. intros s.
    unfold response_of, pending_message, convert_envelope_to_proto. cbn.
    by rewrite Es, bool_decide_false by done.
  - unfold response_of, pending_message, convert_envelope_to_proto.
    rewrite Es, bool_decide_false by done. done.
Qed.

Lemma sealed_sender_hidden_witness :
  response_of (fun _ => None) "1-0" (sample_envelope "a")
    = Some (RMessage (convert_envelope_to_proto (sample_envelope "a")) "1-0").
Proof. apply (sealed_sender_hidden (fun _ => None) "1-0" (sample_envelope "a")). discriminate. Defined.
End MailboxProps.
