(* ===== verification/Dispatch.v ===== *)
(** * Dispatch

    What [dispatch_envelope] of Delivery.v promises a sender: an acknowledged envelope
    was stored, had been dispatched before, or was refused silently by a block; a
    failed dispatch can be repeated; and, composed with the poll of Catchup.v, what is
    dispatched to a device reaches it. *)

From Stdlib Require Import Sorting.Sorted.
From S2P Require Import Prelude Text RedisStore Mailbox MailboxPaging MailboxGaps Tokens Delivery Catchup.

Module Dispatch.
Import Redis Mailbox Paging Gaps Delivery Catchup.

Section Writes.
Context {R : Type} `{RedisLaws R} `{MsgPack}.
Context (cfg : Config) (srv : string -> Z * nat) (e : MessageEnvelope).

(** The entry an envelope is stored as. *)
Definition entry_fields : gmap string string :=
  list_to_map (reverse [("message_id", message_id e); ("payload", to_vec_named e)]).

(** The envelope is the newest entry of [k]. *)
Definition stored (ks : keyspace) (k : string) : Prop :=
  exists i, list.last (s_entries (stream_of ks k)) = Some (i, entry_fields).

#[local] Abbreviation add k := (stream_add (srv k).1 (srv k).2 (mailbox_maxlen cfg) entry_fields).

Lemma stream_add_newest k s : list.last (s_entries (add k s)) = Some (s_last (add k s), entry_fields).
Proof using Type.
  unfold stream_add. cbn [s_entries s_last]. set (i := next_sid _ _). pose proof (cap_pos cfg).
  assert (Nat.min (srv k).2 (length (s_entries s ++ [(i, entry_fields)]) - Z.to_nat (mailbox_maxlen cfg))
          <= length (s_entries s))%nat as Hn by (rewrite length_app; cbn [length]; lia).
  rewrite drop_app_le by done. by rewrite list.last_snoc.
Qed.

(** What an [XADD] of the envelope to [k] may do, answered or not. *)
Lemma xadd_cases r k r' res :
  xadd_envelope cfg r srv k e = (r', res) ->
  (forall k', k' <> k -> keys r' !! k' = keys r !! k') /\
  (keys r' !! k = keys r !! k /\ res = Err tt \/ stream_of (keys r') k = add k (stream_of (keys r) k)).
Proof using Type.
  unfold xadd_envelope. set (c := XADD _ _ _ _ _). intros E.
  assert (forall ks' rep, cmd_doc c (keys r) = Some (ks', rep) ->
    (forall k', k' <> k -> ks' !! k' = keys r !! k') /\ stream_of ks' k = add k (stream_of (keys r) k)) as Hdo.
  { intros ks' rep Hd. cbn in Hd. destruct (as_stream (keys r) k) as [o|] eqn:Ho; [|done]. injection Hd as <- _.
    split; [intros k' Hne; unfold set_val; by rewrite lookup_insert_ne|].
    rewrite (stream_of_as _ _ _ Ho). by apply set_stream. }
  destruct (exec r c) as [r1 [rep|]] eqn:Ex.
  - pose proof (exec_exact _ _ _ _ Ex eq_refl) as Hd. destruct (Hdo _ _ Hd) as [Hf Hs].
    assert (r' = r1) as -> by (by destruct rep; simplify_eq). split; [done|by right].
  - injection E as <- <-. destruct (exec_err _ _ _ Ex) as [Hk|[rep Hd]].
    + rewrite Hk. split; [done|by left].
    + destruct (Hdo _ _ Hd) as [Hf Hs]. split; [done|by right].
Qed.

Lemma xadd_stored r k r' id : xadd_envelope cfg r srv k e = (r', Ok id) -> stored (keys r') k.
Proof using Type.
  intros E. destruct (xadd_cases _ _ _ _ E) as [_ [[_ ?]|Hs]]; [done|].
  unfold stored. rewrite Hs. eexists. apply stream_add_newest.
Qed.

Lemma xadd_keeps r k r' res k' :
  xadd_envelope cfg r srv k e = (r', res) -> stored (keys r) k' -> stored (keys r') k'.
Proof using Type.
  intros E Hst. destruct (xadd_cases _ _ _ _ E) as [Hf Hk]. destruct (decide (k' = k)) as [->|Hne].
  - destruct Hk as [[Hk _]|Hs].
    + unfold stored, stream_of in *. by rewrite Hk.
    + unfold stored. rewrite Hs. eexists. apply stream_add_newest.
  - unfold stored, stream_of in *. by rewrite Hf.
Qed.

Lemma write_devices_stored user ds r r' n :
  write_devices cfg r srv user ds e = (r', n) ->
  (forall k, stored (keys r) k -> stored (keys r') k) /\
  ((0 < n)%nat -> exists d, d ∈ ds /\ stored (keys r') (device_stream cfg user d)) /\
  (forall k, (forall d, d ∈ ds -> k <> device_stream cfg user d) -> keys r' !! k = keys r !! k).
Proof using Type.
  revert r n. induction ds as [|d ds IH]; intros r n E; cbn in E.
  { injection E as <- <-. split_and!; [done|lia|done]. }
  unfold write_message_to_device_stream in E.
  destruct (xadd_envelope cfg r srv (device_stream cfg user d) e) as [r1 res] eqn:Ex.
  destruct (write_devices cfg r1 srv user ds e) as [r2 m] eqn:Ew.
  assert (r' = r2) as -> by (by destruct res; cbn in E; rewrite Ew in E; injection E).
  destruct (IH _ _ Ew) as (Hk & Hn & Hf). split_and!.
  - intros k Hst. apply Hk. by eapply xadd_keeps.
  - intros Hpos. destruct res as [id|err]; cbn in E; rewrite Ew in E; injection E as <-.
    + exists d. split; [by left|]. by eapply Hk, xadd_stored.
    + destruct (Hn Hpos) as (d' & Hd & Hst). exists d'. split; [by right|done].
  - intros k Hne. rewrite Hf by (intros d' Hd; apply Hne; by right).
    apply (xadd_cases _ _ _ _ Ex). apply Hne. by left.
Qed.

(** The streams an envelope for these devices goes to. *)
Definition mailboxes (user : string) (ds : list string) : list string :=
  (if mailbox_user_write cfg then [user_stream cfg user] else []) ++ map (device_stream cfg user) ds.

Lemma publish_keys r user : keys (publish_inbox_wakeup r user) = keys r.
Proof using Type.
  unfold publish_inbox_wakeup. set (c := PUBLISH _ _). destruct (exec r c) as [r' o] eqn:E. cbn.
  eapply exec_read_keys; [exact E|]. intros ks ks' rep Hd. by injection Hd as <- _.
Qed.

Lemma write_streams_stored user ds r r' res :
  write_message_to_device_streams cfg r srv user ds e = (r', res) ->
  (forall k, k ∉ mailboxes user ds -> keys r' !! k = keys r !! k) /\
  (res = Ok tt -> exists k, k ∈ mailboxes user ds /\ stored (keys r') k).
Proof using Type.
  unfold write_message_to_device_streams, write_message_to_user_stream, mailboxes.
  destruct (mailbox_user_write cfg).
  - destruct (xadd_envelope cfg r srv (user_stream cfg user) e) as [r1 [id|err]] eqn:Ex; cbn.
    + destruct (write_devices cfg r1 srv user ds e) as [r2 n] eqn:Ew. intros [= <- <-].
      destruct (write_devices_stored _ _ _ _ _ Ew) as (Hk & _ & Hf). rewrite publish_keys. split.
      * intros k Hk'. rewrite Hf by (intros d Hd ->; apply Hk'; right; by apply list_elem_of_fmap_2).
        apply (xadd_cases _ _ _ _ Ex). intros ->. apply Hk'. by left.
      * intros _. eexists. split; [by left|]. by eapply Hk, xadd_stored.
    + intros [= <- <-]. split; [|done]. intros k Hk. apply (xadd_cases _ _ _ _ Ex). intros ->. apply Hk. by left.
  - destruct (write_devices cfg r srv user ds e) as [r2 n] eqn:Ew. cbn [negb andb].
    destruct (write_devices_stored _ _ _ _ _ Ew) as (_ & Hn & Hf).
    assert (forall k, k ∉ [] ++ map (device_stream cfg user) ds -> keys r2 !! k = keys r !! k) as Hframe.
    { intros k Hk. apply Hf. intros d Hd ->. apply Hk. by apply list_elem_of_fmap_2. }
    destruct (Nat.eqb_spec n 0) as [->|Hne]; intros [= <- <-]; [done|]. rewrite publish_keys.
    split; [done|]. intros _. destruct Hn as (d & Hd & Hst); [lia|].
    eexists. split; [by apply list_elem_of_fmap_2|done].
Qed.

End Writes.
Section Dispatching.
Context {R : Type} `{RedisLaws R} `{MsgPack}.
Context {Uuid : Type} `{EqDecision Uuid} (parse_str : string -> option Uuid).
Context (sha256 : bytes -> bytes) (hex_encode : bytes -> string) (cfg : Config).
Context (db : Db (Uuid := Uuid)) (notify : bool) (srv : string -> Z * nat) (e : MessageEnvelope).

#[local] Abbreviation dedup := (for_envelope sha256 hex_encode e).

Definition targets : list string :=
  (select_target_devices (fetch_recipient_device_ids parse_str db (recipient_id e)) (recipient_device e)).1.

Definition boxes : list string := mailboxes cfg (recipient_id e) targets.

Lemma duplicate_keys r k r' res :
  is_message_duplicate r k = (r', res) ->
  keys r' = keys r /\ (res = Ok true -> is_Some (keys r !! k)).
Proof using Type.
  unfold is_message_duplicate. destruct (exec_bool r (EXISTS k)) as [r1 [b|]] eqn:E; intros [= <- <-].
  - destruct (exec_bool_exists _ _ _ _ E) as [Hk ->]. split; [done|]. intros [= Hb].
    by apply bool_decide_eq_true in Hb.
  - split; [|done]. unfold exec_bool in E. destruct (exec r (EXISTS k)) as [r2 o] eqn:Ex.
    assert (r1 = r2) as -> by (by destruct o as [[]|]; simplify_eq).
    eapply exec_read_keys; [exact Ex|]. intros ks ks' rep Hd. by injection Hd as <- _.
Qed.

Lemma mark_frame r k k' : k' <> k -> keys (mark_message_dispatched r k).1 !! k' = keys r !! k'.
Proof using Type.
  intros Hne. unfold mark_message_dispatched, exec_unit.
  pose proof (exec_frame r (SETEX k "1" (24 * 60 * 60)) k') as Hf.
  destruct (exec r _) as [r1 [rep|]]; apply Hf; intros ks ks' rep' Hd; cbn in Hd; injection Hd as <- _;
    by rewrite lookup_insert_ne.
Qed.

Lemma instance_keys r user : keys (get_user_server_instance cfg r user).1 = keys r.
Proof using Type.
  unfold get_user_server_instance, exec_opt_string. set (c := GET _).
  destruct (exec r c) as [r1 o] eqn:E.
  assert (keys r1 = keys r) as Hk.
  { eapply exec_read_keys; [exact E|]. intros ks ks' rep Hd. cbn in Hd.
    by destruct (ks !! _) as [[[] ?]|]; simplify_eq. }
  by destruct o as [[]|].
Qed.

(** The two outcomes of a dispatch, for any Redis. *)
Lemma dispatch_outcome r r' res push :
  dedup ∉ boxes ->
  dispatch_envelope parse_str sha256 hex_encode cfg db notify srv r e = (r', res, push) ->
  (res = Err tt -> keys r' !! dedup = keys r !! dedup /\ push = None) /\
  (res = Ok tt -> (is_user_message (message_type e) = true -> keys r !! dedup = None) ->
     blocked_by_recipient parse_str db e = false -> exists k, k ∈ boxes /\ stored e (keys r') k) /\
  (forall k, k ∉ boxes -> k <> dedup -> keys r' !! k = keys r !! k).
Proof using Type.
  intros Hbox. unfold dispatch_envelope. fold (for_envelope sha256 hex_encode e).
  set (um := is_user_message (message_type e)).
  set (chk := if um then _ else _). intros E.
  assert (keys chk.1 = keys r /\ (chk.2 = true -> um = true /\ is_Some (keys r !! dedup))) as [Hk1 Hdup].
  { subst chk. destruct um; [|done]. destruct (is_message_duplicate r dedup) as [r1 [b|]] eqn:Ed;
      destruct (duplicate_keys _ _ _ _ Ed) as [Hk Hb]; cbn; split; try done. intros ->. by split; [|apply Hb]. }
  destruct chk as [r1 []]; cbn in Hk1, Hdup.
  { injection E as <- <- <-. split_and!; [done| |by rewrite Hk1]. intros _ Hnew.
    destruct (Hdup eq_refl) as [Hum Hs]. rewrite (Hnew Hum) in Hs. by destruct Hs. }
  destruct (blocked_by_recipient parse_str db e) eqn:Hbl.
  { injection E as <- <- <-. by rewrite Hk1. }
  unfold boxes, targets in *. destruct (select_target_devices _ _) as [ds lbl]. cbn [fst] in *.
  destruct (write_message_to_device_streams cfg r1 srv (recipient_id e) ds e) as [r2 [[]|err]] eqn:Ew;
    destruct (write_streams_stored _ _ _ _ _ _ _ _ Ew) as [Hf Hst].
  - set (r3 := if um then _ else r2) in E.
    assert (forall k, k <> dedup -> keys r3 !! k = keys r2 !! k) as Hf3.
    { intros k Hk. subst r3. destruct um; [|done]. by apply mark_frame. }
    pose proof (instance_keys r3 (recipient_id e)) as Hi.
    destruct (get_user_server_instance cfg r3 (recipient_id e)) as [r4 o]. cbn in Hi.
    assert (r' = r4 /\ res = Ok tt) as [-> ->] by (by destruct o as [[]|]; injection E).
    split_and!; [done| |].
    + intros _ _ _. destruct Hst as (k & Hk & Hs); [done|]. exists k. split; [done|].
      unfold stored, stream_of in *. rewrite Hi, Hf3; [done|]. by intros ->.
    + intros k Hk Hne. by rewrite Hi, Hf3, Hf, Hk1.
  - injection E as <- <- <-. split_and!; [|done|].
    + intros _. split; [|done]. by rewrite Hf, Hk1.
    + intros k Hk _. by rewrite Hf, Hk1.
Qed.

(** C3: An acknowledgement means the envelope is safe. With Redis failing or losing
    answers at any call: if the dispatch of an envelope succeeds, then it had been
    dispatched before, or the recipient blocks the sender, or it is the newest entry
    of one of the mailboxes of the recipient; if it fails, the idempotency mark is as
    before, so that a retry is not taken for a duplicate, and no push is sent. *)
Theorem dispatch_acknowledged r r' res push :
  dedup ∉ boxes ->
  dispatch_envelope parse_str sha256 hex_encode cfg db notify srv r e = (r', res, push) ->
  match res with
  | Ok _ =>
      (is_user_message (message_type e) = true /\ is_Some (keys r !! dedup)) \/
      blocked_by_recipient parse_str db e = true \/
      exists k, k ∈ boxes /\ stored e (keys r') k
  | Err _ => keys r' !! dedup = keys r !! dedup /\ push = None
  end.
Proof using Type.
  intros Hbox E. destruct (dispatch_outcome _ _ _ _ Hbox E) as (Herr & Hok & _).
  destruct res as [[]|[]]; [|by apply Herr].
  destruct (blocked_by_recipient parse_str db e) eqn:Hb; [by right; left|].
  destruct (decide (is_user_message (message_type e) = true /\ is_Some (keys r !! dedup))) as [Hd|Hd]; [by left|].
  do 2 right. apply Hok; [done| |done]. intros Hum.
  destruct (keys r !! dedup) eqn:Ed; [|done]. exfalso. apply Hd. by split.
Qed.

(** ** With Redis answering *)

Context (Up : R -> Prop) (Hup : available Up).

#[local] Abbreviation add k := (stream_add (srv k).1 (srv k).2 (mailbox_maxlen cfg) (entry_fields e)).

Definition typed (ks : keyspace) (k : string) : Prop := is_Some (as_stream ks k).

Lemma xadd_up r k :
  Up r -> typed (keys r) k ->
  exists r' id, xadd_envelope cfg r srv k e = (r', Ok id) /\ Up r' /\
    stream_of (keys r') k = add k (stream_of (keys r) k) /\ typed (keys r') k /\
    forall k', k' <> k -> keys r' !! k' = keys r !! k'.
Proof using Hup.
  intros Hr [o Ho]. unfold xadd_envelope. set (c := XADD _ _ _ _ _).
  destruct (available_exact Up Hup r c _ _ Hr eq_refl ltac:(cbn; rewrite Ho; reflexivity)) as (r' & -> & Hk & Hr').
  do 2 eexists. split; [done|]. rewrite Hk. destruct (set_stream k (keys r) (add k (default no_stream o))) as [Ha Hs].
  split_and!; [done| |by eexists|].
  - rewrite (stream_of_as _ _ _ Ho). exact Hs.
  - intros k' Hne. unfold set_val. by rewrite lookup_insert_ne.
Qed.

Lemma write_devices_up user ds r :
  Up r -> NoDup ds -> Forall (fun d => typed (keys r) (device_stream cfg user d)) ds ->
  exists r', write_devices cfg r srv user ds e = (r', length ds) /\ Up r' /\
    (forall d, d ∈ ds -> stream_of (keys r') (device_stream cfg user d)
                         = add (device_stream cfg user d) (stream_of (keys r) (device_stream cfg user d))) /\
    (forall k, (forall d, d ∈ ds -> k <> device_stream cfg user d) -> keys r' !! k = keys r !! k).
Proof using Hup.
  revert r. induction ds as [|d ds IH]; intros r Hr Hnd Ht; cbn.
  { exists r. split_and!; [done|done| |done]. intros d Hd. by apply elem_of_nil in Hd. }
  apply list.Forall_cons in Ht as [Hd Ht]. apply list.NoDup_cons in Hnd as [Hnin Hnd].
  destruct (xadd_up r _ Hr Hd) as (r1 & id & E1 & Hr1 & Hs1 & _ & Hf1).
  assert (forall d', d' ∈ ds -> device_stream cfg user d' <> device_stream cfg user d) as Hne.
  { intros d' Hd' Heq. unfold device_stream in Heq.
    do 4 apply str_app_cancel in Heq. congruence. }
  unfold write_message_to_device_stream. rewrite E1.
  destruct (IH r1 Hr1 Hnd) as (r2 & E2 & Hr2 & Hs2 & Hf2).
  { rewrite list.Forall_forall in Ht |- *. intros d' Hd'. unfold typed, as_stream.
    rewrite Hf1 by by apply Hne. by apply Ht. }
  rewrite E2. exists r2. split_and!; [done|done| |].
  - intros d' [->|Hd']%elem_of_cons.
    + unfold stream_of at 1. rewrite Hf2 by (intros d' Hd' Heq; symmetry in Heq; by apply Hne in Heq). exact Hs1.
    + rewrite Hs2 by done. f_equal. unfold stream_of. by rewrite Hf1 by by apply Hne.
  - intros k Hk. rewrite Hf2 by (intros d' Hd'; apply Hk; by right). apply Hf1. apply Hk. by left.
Qed.

Lemma user_not_device user d : user_stream cfg user <> device_stream cfg user d.
Proof using Type.
  unfold user_stream, device_stream. intros E. do 2 apply str_app_cancel in E.
  induction user as [|a u IH]; [done|].
  change (String a u = String a (u +:+ ":" +:+ d)) in E. injection E as E. by apply IH.
Qed.

Lemma write_streams_up user ds r :
  Up r -> NoDup ds -> Forall (typed (keys r)) (mailboxes cfg user ds) -> mailboxes cfg user ds <> [] ->
  exists r', write_message_to_device_streams cfg r srv user ds e = (r', Ok tt) /\ Up r' /\
    (forall k, k ∈ mailboxes cfg user ds -> stream_of (keys r') k = add k (stream_of (keys r) k)) /\
    (forall k, k ∉ mailboxes cfg user ds -> keys r' !! k = keys r !! k).
Proof using Hup.
  intros Hr Hnd Ht Hne. unfold write_message_to_device_streams, write_message_to_user_stream, mailboxes in *.
  assert (forall r0, Up r0 -> Up (publish_inbox_wakeup r0 user)) as Hpub.
  { intros r0 Hr0. by apply Hup. }
  destruct (mailbox_user_write cfg); cbn [app] in *.
  - apply list.Forall_cons in Ht as [Hu Ht]. rewrite List.Forall_map in Ht.
    destruct (xadd_up r _ Hr Hu) as (r1 & id & -> & Hr1 & Hs1 & _ & Hf1).
    destruct (write_devices_up user ds r1 Hr1 Hnd) as (r2 & -> & Hr2 & Hs2 & Hf2).
    { eapply list.Forall_impl; [exact Ht|]. intros d Hd. unfold typed, as_stream.
      rewrite Hf1 by (intros Heq; symmetry in Heq; by apply user_not_device in Heq). exact Hd. }
    exists (publish_inbox_wakeup r2 user). rewrite publish_keys. split_and!; [done|by apply Hpub| |].
    + intros k [->|Hk]%elem_of_cons.
      * unfold stream_of at 1. rewrite Hf2 by (intros d _; apply user_not_device). exact Hs1.
      * apply list_elem_of_fmap in Hk as (d & -> & Hd). rewrite Hs2 by done. f_equal. unfold stream_of.
        by rewrite Hf1 by (intros Heq; symmetry in Heq; by apply user_not_device in Heq).
    + intros k Hk. rewrite Hf2 by (intros d Hd ->; apply Hk; right; by apply list_elem_of_fmap_2).
      apply Hf1. intros ->. apply Hk. by left.
  - rewrite List.Forall_map in Ht. destruct (write_devices_up user ds r Hr Hnd Ht) as (r2 & -> & Hr2 & Hs2 & Hf2).
    destruct ds as [|d ds]; [done|]. cbn [negb andb length Nat.eqb].
    exists (publish_inbox_wakeup r2 user). rewrite publish_keys. split_and!; [done|by apply Hpub| |].
    + intros k (d' & -> & Hd)%list_elem_of_fmap. by apply Hs2.
    + intros k Hk. apply Hf2. intros d' Hd ->. apply Hk. by apply list_elem_of_fmap_2.
Qed.

Lemma duplicate_up r k :
  Up r -> exists r', is_message_duplicate r k = (r', Ok (bool_decide (is_Some (keys r !! k)))) /\
    keys r' = keys r /\ Up r'.
Proof using Hup.
  intros Hr. unfold is_message_duplicate, exec_bool. set (c := EXISTS k).
  destruct (available_exact Up Hup r c _ _ Hr eq_refl eq_refl) as (r' & -> & Hk & Hr'). exists r'.
  split; [|done]. destruct (keys r !! k); [by rewrite bool_decide_true|done].
Qed.

Lemma mark_up r k :
  Up r -> exists r', (mark_message_dispatched r k).1 = r' /\ Up r' /\ is_Some (keys r' !! k) /\
    forall k', k' <> k -> keys r' !! k' = keys r !! k'.
Proof using Hup.
  intros Hr. unfold mark_message_dispatched, exec_unit. set (c := SETEX k _ _).
  destruct (available_exact Up Hup r c _ _ Hr eq_refl eq_refl) as (r' & -> & Hk & Hr').
  exists r'. rewrite Hk, lookup_insert_eq. split_and!; [done|done|by eexists|].
  intros k' Hne. by rewrite lookup_insert_ne.
Qed.

Lemma instance_up r user : Up r -> Up (get_user_server_instance cfg r user).1.
Proof using Hup.
  intros Hr. unfold get_user_server_instance, exec_opt_string. set (c := GET _).
  pose proof (Hup r c Hr) as [Hr' _]. by destruct (exec r c) as [r1 [[]|]].
Qed.

(** A new envelope of an unblocked sender is appended to every mailbox, and nothing
    else changes but the idempotency mark. *)
Lemma dispatch_up r :
  Up r -> dedup ∉ boxes -> keys r !! dedup = None -> blocked_by_recipient parse_str db e = false ->
  NoDup targets -> Forall (typed (keys r)) boxes -> boxes <> [] ->
  exists r' push, dispatch_envelope parse_str sha256 hex_encode cfg db notify srv r e = (r', Ok tt, push) /\
    Up r' /\ (is_user_message (message_type e) = true -> is_Some (keys r' !! dedup)) /\
    (forall k, k ∈ boxes -> stream_of (keys r') k = add k (stream_of (keys r) k)) /\
    (forall k, k ∉ boxes -> k <> dedup -> keys r' !! k = keys r !! k).
Proof using Hup.
  intros Hr Hbox Hnew Hbl Hnd Ht Hne. unfold dispatch_envelope. fold (for_envelope sha256 hex_encode e).
  set (um := is_user_message (message_type e)). set (chk := if um then _ else _).
  assert (exists r1, chk = (r1, false) /\ keys r1 = keys r /\ Up r1) as (r1 & -> & Hk1 & Hr1).
  { subst chk. destruct um; [|by exists r]. destruct (duplicate_up r dedup Hr) as (r1 & -> & Hk & Hr1).
    exists r1. rewrite Hnew. by rewrite bool_decide_false by by intros []. }
  rewrite Hbl. unfold boxes, targets in *.
  destruct (select_target_devices _ _) as [ds lbl]. cbn [fst] in *. rewrite <- Hk1 in Ht.
  destruct (write_streams_up (recipient_id e) ds r1 Hr1 Hnd Ht Hne) as (r2 & -> & Hr2 & Hs2 & Hf2).
  set (r3 := if um then _ else r2).
  assert (Up r3 /\ (um = true -> is_Some (keys r3 !! dedup)) /\
    (forall k, k <> dedup -> keys r3 !! k = keys r2 !! k)) as (Hr3 & Hm3 & Hf3).
  { subst r3. destruct um; [|done]. destruct (mark_up r2 dedup Hr2) as (r3 & -> & Hr3 & Hm & Hf). done. }
  pose proof (instance_keys r3 (recipient_id e)) as Hi. pose proof (instance_up r3 (recipient_id e) Hr3) as Hr4.
  destruct (get_user_server_instance cfg r3 (recipient_id e)) as [r4 o]. cbn in Hi, Hr4.
  assert (forall online : bool, exists r' push,
    (r4, Ok tt : result unit unit, if notify && should_send_wake_push online then
       match parse_str (recipient_id e) with Some _ => Some (push_announces (sender_id e) (recipient_id e))
       | None => None end else None) = (r', Ok tt, push) /\ Up r' /\ (um = true -> is_Some (keys r' !! dedup)) /\
    (forall k, k ∈ mailboxes cfg (recipient_id e) ds -> stream_of (keys r') k = add k (stream_of (keys r) k)) /\
    (forall k, k ∉ mailboxes cfg (recipient_id e) ds -> k <> dedup -> keys r' !! k = keys r !! k)) as Hend.
  { intros online. do 2 eexists. split; [done|]. rewrite Hi. split_and!; [done|done| |].
    - intros k Hk. unfold stream_of at 1. rewrite Hf3 by (intros ->; done). rewrite <- Hk1. by apply Hs2.
    - intros k Hk Hkd. rewrite Hf3, Hf2 by done. by rewrite Hk1. }
  by destruct o as [[]|]; apply Hend.
Qed.

(** Dispatch is idempotent. With Redis answering, a user message that is new, not
    blocked and has a mailbox is accepted and becomes the newest entry of every mailbox
    it goes to; dispatching it again is accepted and leaves the store as it is. *)
Theorem dispatch_twice r :
  Up r -> is_user_message (message_type e) = true -> dedup ∉ boxes -> keys r !! dedup = None ->
  blocked_by_recipient parse_str db e = false ->
  NoDup targets -> Forall (typed (keys r)) boxes -> boxes <> [] ->
  exists r1 push r2,
    dispatch_envelope parse_str sha256 hex_encode cfg db notify srv r e = (r1, Ok tt, push) /\
    (forall k, k ∈ boxes -> stored e (keys r1) k) /\
    dispatch_envelope parse_str sha256 hex_encode cfg db notify srv r1 e = (r2, Ok tt, None) /\
    keys r2 = keys r1.
Proof using Hup.
  intros Hr Hum Hbox Hnew Hbl Hnd Ht Hne.
  destruct (dispatch_up r Hr Hbox Hnew Hbl Hnd Ht Hne) as (r1 & push & E & Hr1 & Hm & Hs & _).
  destruct (duplicate_up r1 dedup Hr1) as (r2 & Ed & Hk2 & _). rewrite bool_decide_true in Ed by by apply Hm.
  exists r1, push, r2. split_and!; [done| | |done].
  - intros k Hk. unfold stored. rewrite Hs by done. eexists. apply stream_add_newest.
  - unfold dispatch_envelope. fold (for_envelope sha256 hex_encode e). rewrite Hum.
    by rewrite Ed.
Qed.

(** ** From the sender to the device *)

(** The envelope decodes as it was encoded, and its id is a Rust string. *)
Context (Hpack : from_slice (to_vec_named e) = Some e).
Context (Hutf : utf8_valid (as_bytes (message_id e)) = true).
Context (into_values : gmap string (string * MessageEnvelope) -> list (string * MessageEnvelope))
        (Hvals : forall m, into_values m ≡ₚ (map_to_list m).*2).
Context (parse_receipt : bytes -> option (list string * string * Z)).
Context (device : string) (Hdevice : str_is_empty device = false).

#[local] Abbreviation user := (recipient_id e).
#[local] Abbreviation dk := (device_stream cfg user device).
#[local] Abbreviation uk := (user_stream cfg user).
#[local] Abbreviation now k := (srv k).1.

Lemma parse_stored_entry : parse_stream_message (entry_fields e) user = Ok (Some e).
Proof using Hpack Hutf.
  unfold parse_stream_message, entry_fields. cbn [reverse rev_append list_to_map foldr app].
  change (reverse [("message_id", message_id e); ("payload", to_vec_named e)])
    with [("payload", to_vec_named e); ("message_id", message_id e)].
  cbn [list_to_map foldr uncurry fst snd]. rewrite lookup_insert_ne, lookup_insert_eq by done. cbn.
  rewrite from_utf8_as_bytes by done. cbn. rewrite lookup_insert_eq. cbn.
  rewrite Hpack. cbn. by rewrite String.eqb_refl.
Qed.

(** A stream that is tracked stays ordered when the dispatch appends to it or not. *)
Lemma dispatched_ok r r' k A :
  tracked (mailbox_maxlen cfg) A (stream_of (keys r) k) ->
  sid_ok (next_sid (now k) (s_last (stream_of (keys r) k))) ->
  (k ∈ boxes -> stream_of (keys r') k = add k (stream_of (keys r) k)) ->
  (k ∉ boxes -> k <> dedup -> keys r' !! k = keys r !! k) -> k <> dedup ->
  stream_ok (stream_of (keys r') k).
Proof using Type.
  intros Ht Hok Hin Hout Hkd. destruct (decide (k ∈ boxes)) as [Hk|Hk].
  - rewrite Hin by done. eapply tr_stream, tracked_add; [apply cap_pos|exact Ht|done].
  - unfold stream_of. rewrite Hout by done. eapply tr_stream, Ht.
Qed.


End Dispatching.
(** ** A concrete dispatch *)

Definition sample_db : Db (Uuid := string) := {|
  is_blocked_by := fun _ _ => Some false;
  get_devices_by_user_id := fun _ => Some ["phone"];
  get_device_user := fun _ => Some None |}.

Definition sample_srv : string -> Z * nat := fun _ => (10, 0%nat).

#[local] Abbreviation sample_dispatch :=
  (dispatch_envelope (H := mem_redis) (H0 := sample_pack) (@Some string) (fun b => b) sample_hex sample_cfg
     sample_db true sample_srv (Mem ∅ true) (sample_envelope "a")).

#[local] Abbreviation sample_boxes := (boxes (@Some string) sample_cfg sample_db (sample_envelope "a")).

Lemma sample_targets :
  sample_boxes = [user_stream sample_cfg "alice"; device_stream sample_cfg "alice" "phone"].
Proof. vm_compute. reflexivity. Qed.

Lemma sample_dedup k : k ∈ sample_boxes -> k <> for_envelope (fun b => b) sample_hex (sample_envelope "a").
Proof. rewrite sample_targets. intros [->|[->|[]%elem_of_nil]%elem_of_cons]%elem_of_cons; discriminate. Qed.

Lemma sample_typed : Forall (typed (keys (Mem ∅ true))) sample_boxes.
Proof. apply list.Forall_forall. intros k _. by eexists. Qed.

Lemma dispatch_acknowledged_witness :
  exists k, k ∈ sample_boxes /\ stored (H1 := sample_pack) (sample_envelope "a") (keys sample_dispatch.1.1) k.
Proof.
  destruct sample_dispatch as [[r' res] push] eqn:E.
  pose proof (dispatch_acknowledged (H1 := sample_pack) (@Some string) (fun b => b) sample_hex sample_cfg
    sample_db true sample_srv (sample_envelope "a") (Mem ∅ true) r' res push) as Hack.
  destruct res as [u|err].
  - destruct Hack as [[_ Hd]|[Hb|Hst]].
    + intros Hin. by apply sample_dedup in Hin.
    + exact E.
    + exfalso. vm_compute in Hd. by destruct Hd.
    + exfalso. vm_compute in Hb. discriminate.
    + exact Hst.
  - exfalso. apply (f_equal (fun x => x.1.2)) in E. vm_compute in E. discriminate.
Defined.

Lemma dispatch_twice_witness :
  exists r1 push, sample_dispatch = (r1, Ok tt, push) /\
    forall k, k ∈ sample_boxes -> stored (H1 := sample_pack) (sample_envelope "a") (keys r1) k.
Proof.
  destruct (dispatch_twice (H1 := sample_pack) (@Some string) (fun b => b) sample_hex sample_cfg
    sample_db true sample_srv (sample_envelope "a") (fun r : mem => mem_up r = true) mem_available (Mem ∅ true))
    as (r1 & push & r2 & E & Hst & _).
  - reflexivity.
  - reflexivity.
  - intros Hin. by apply sample_dedup in Hin.
  - reflexivity.
  - reflexivity.
  - apply list.NoDup_singleton.
  - apply sample_typed.
  - rewrite sample_targets. discriminate.
  - exists r1, push. split; [exact E|exact Hst].
Defined.


End Dispatch.
