(* ===== verification/SealedDispatch.v ===== *)
(** * Sealed sends, end to end

    Models messaging-service/src/envelope.rs [token_gate_action] and
    [dispatch_sealed_sender], which routes a sealed envelope: to another server, or to a
    mailbox of this one after the intake credential (Intake.v), the token redemption and
    the replay cache (SealedSend.v), through the dispatch of Delivery.v; and, of
    construct-message/src/types.rs, [from_sealed_sender]. The federation client, the
    protobuf decoder of the inner envelope and the account lookup by route id are
    parameters; the random ids and the clocks are inputs. *)

From S2P Require Import Prelude Text RedisStore Mailbox MailboxPaging UserIds SealedSend Intake Tokens Delivery Catchup MailboxGaps Dispatch.

Module SealedDispatch.
Import Redis Mailbox SealedSend Intake Delivery Paging.

Inductive StealthTokenPolicy := Off | Warn | Enforce.
#[global] Instance StealthTokenPolicy_eq_dec : EqDecision StealthTokenPolicy.
Proof. solve_decision. Defined.

Inductive TokenGateAction := Deliver | DeliverUnchecked | Reject.

Definition token_gate_action (policy : StealthTokenPolicy) (res : TokenRedeemResult) : TokenGateAction :=
  if is_accept res then Deliver
  else match policy, res with
       | Off, _ => Deliver
       | _, TRedisError => DeliverUnchecked
       | Enforce, _ => Reject
       | Warn, _ => Deliver
       end.

(** The fields of [SealedInner] the server reads. *)
Record SealedInner := {
  si_recipient_user_id : string;
  si_intake_tag_sealed : bytes;
  si_token_nonce : bytes;
  si_token_bytes : bytes;
  si_token_spend_id : bytes;
  si_recipient_device : string;
  si_delivery_tag : bytes;
}.

Record SealedSenderEnvelope := {
  se_recipient_server : string;
  se_sealed_inner : bytes;
  se_timestamp : Z;
}.

Record SendMessageResponse := {
  rs_message_id : string;
  rs_success : bool;
  rs_intake_verdict : IntakeVerdict;
  rs_recipient_active_devices : list string;
}.

Inductive SealedError :=
| FederationFailed | DecodeFailed | RecipientRequired | InvalidAddress | DbError
| TokenRejected (why : TokenRedeemResult)
| DispatchFailed.

Section Sealed.
Context {R : Type} `{Redis R} `{MsgPack}.
Context {Uuid : Type} `{EqDecision Uuid}.
Context (uuid_parse_str : string -> option Uuid) (uuid_to_string : Uuid -> string).
Context (sha256 : bytes -> bytes) (hex_encode : bytes -> string) (hex_decode : string -> option bytes).
Context (is_alphanumeric_wide : string -> bool).
Context (open_sealed_token_bytes : bytes -> bytes -> option bytes)
        (verify_token : bytes -> bytes -> bytes -> bool).
Context (decode_inner : bytes -> option SealedInner).
(** [FederationClient::send_sealed_message] of a message id to a server: did it succeed? *)
Context (send_sealed_message : string -> string -> bytes -> Z -> bool).

(** The configuration and keys of the instance. *)
Record Context_ := {
  cx_domain : string;
  cx_policy : StealthTokenPolicy;
  cx_issuer_key : option bytes;
  cx_enc_secret : option bytes;
  cx_queue : Config;
  cx_db : Db (Uuid := Uuid);
  get_user_by_route_id : string -> option (option Uuid);
  cx_notify : bool;
}.

(** The inputs of one request: two random ids, the clock, the server of each stream. *)
Record Request := {
  rq_message_id : string;
  rq_replay_id : string;
  rq_now : Z;
  rq_srv : string -> Z * nat;
}.

Definition from_sealed_sender (mid recipient : string) (device : option string) (inner : bytes)
    (now : Z) : MessageEnvelope := {|
  message_id := mid; sender_id := ""; recipient_id := recipient; timestamp := now;
  message_type := SealedSender; ephemeral_public_key := None; message_number := None;
  mls_payload := None; group_id := None; encrypted_payload := [];
  content_hash := hex_encode (sha256 (as_bytes mid ++ inner)); crypto_suite_id := 0;
  origin_server := None; federated := false; server_signature := None; is_sealed_sender := true;
  sealed_inner := Some inner; max_queue_len := None; proto_content_type := None;
  recipient_device := device |}.

#[local] Abbreviation check_intake := (check_intake_credential sha256 hex_encode open_sealed_token_bytes).
#[local] Abbreviation redeem_checked := (redeem_token_checked sha256 hex_encode open_sealed_token_bytes verify_token).
#[local] Abbreviation outcome := (R * result SendMessageResponse SealedError * wake_push)%type.

Definition response (rq_id : string) (v : IntakeVerdict) (devices : list string) : SendMessageResponse :=
  {| rs_message_id := rq_id; rs_success := true; rs_intake_verdict := v;
     rs_recipient_active_devices := devices |}.

(** A key address that has no account here: answered as accepted, nothing stored. *)
Definition unresolved (cx : Context_) (rq : Request) (r : R) (inner : SealedInner) (address : string) : outcome :=
  match cx_policy cx with
  | Off => (r, Ok (response (rq_message_id rq) VUnspecified []), None)
  | _ =>
      let '(r1, c) := check_intake r (cx_enc_secret cx) (si_intake_tag_sealed inner) address (rq_now rq) in
      (r1, Ok (response (rq_message_id rq) (verdict c) []), None)
  end.

(** The intake credential and the token: the verdict, or the refusal. *)
Definition pay (cx : Context_) (rq : Request) (r : R) (inner : SealedInner) (recipient : string)
    : R * result IntakeVerdict SealedError :=
  match cx_policy cx with
  | Off => (r, Ok VUnspecified)
  | policy =>
      let '(r1, intake) := check_intake r (cx_enc_secret cx) (si_intake_tag_sealed inner) recipient (rq_now rq) in
      if owes_token intake then
        let '(r2, res) := redeem_checked r1 (cx_issuer_key cx) (cx_enc_secret cx) (si_token_nonce inner)
                            (si_token_bytes inner) (si_token_spend_id inner) recipient in
        match token_gate_action policy res with
        | Reject => (r2, Err (TokenRejected res))
        | DeliverUnchecked | Deliver => (r2, Ok (verdict intake))
        end
      else (r1, Ok (verdict intake))
  end.

(** The replay check: may the envelope be delivered? *)
Definition replay_check (r : R) (tag : bytes) : R * bool :=
  if (length tag =? 0)%nat then (r, true)
  else match check_and_mark_delivery_tag sha256 hex_encode r tag with
       | (r1, Some New) => (r1, true)
       | (r1, Some _) => (r1, false)
       | (r1, None) => (r1, true)
       end.

(** Delivery to an account of this server, past the address. *)
Definition deliver_local (cx : Context_) (rq : Request) (r : R) (sealed : SealedSenderEnvelope)
    (inner : SealedInner) (addressed_by_key : bool) (recipient : string) : outcome :=
  match pay cx rq r inner recipient with
  | (r1, Err e) => (r1, Err e, None)
  | (r1, Ok intake_verdict) =>
      let device := normalize_device_id (si_recipient_device inner) in
      let active_devices := fetch_recipient_device_ids uuid_parse_str (cx_db cx) recipient in
      let names := addressed_by_key
                   && names_a_device_of uuid_parse_str (cx_db cx) recipient device active_devices in
      let devices := reported_active_devices addressed_by_key names active_devices in
      match replay_check r1 (si_delivery_tag inner) with
      | (r2, false) => (r2, Ok (response (rq_replay_id rq) intake_verdict devices), None)
      | (r2, true) =>
          let envelope := from_sealed_sender (rq_message_id rq) recipient device
                            (se_sealed_inner sealed) (rq_now rq) in
          match dispatch_envelope uuid_parse_str sha256 hex_encode (cx_queue cx) (cx_db cx) (cx_notify cx)
                  (rq_srv rq) r2 envelope with
          | (r3, Ok _, push) => (r3, Ok (response (rq_message_id rq) intake_verdict devices), push)
          | (r3, Err _, push) =>
              let r4 := if (length (si_delivery_tag inner) =? 0)%nat then r3
                        else (unmark_delivery_tag sha256 hex_encode r3 (si_delivery_tag inner)).1 in
              (r4, Err DispatchFailed, push)
          end
      end
  end.

Definition dispatch_sealed_sender (cx : Context_) (rq : Request) (r : R) (sealed : SealedSenderEnvelope)
    : outcome :=
  if negb (str_is_empty (se_recipient_server sealed))
     && negb (String.eqb (se_recipient_server sealed) (cx_domain cx)) then
    if send_sealed_message (se_recipient_server sealed) (rq_message_id rq) (se_sealed_inner sealed) (se_timestamp sealed)
    then (r, Ok (response (rq_message_id rq) VUnspecified []), None)
    else (r, Err FederationFailed, None)
  else
    match decode_inner (se_sealed_inner sealed) with
    | None => (r, Err DecodeFailed, None)
    | Some inner =>
        let address := si_recipient_user_id inner in
        if str_is_empty address then (r, Err RecipientRequired, None)
        else if String.prefix "ed25519:" address then
          match UserIds.parse uuid_parse_str hex_encode hex_decode sha256 is_alphanumeric_wide address with
          | Err _ => (r, Err InvalidAddress, None)
          | Ok parsed =>
              match UserIds.route_id parsed with
              | None => (r, Err InvalidAddress, None)
              | Some rid =>
                  match get_user_by_route_id cx rid with
                  | None => (r, Err DbError, None)
                  | Some None => unresolved cx rq r inner address
                  | Some (Some id) => deliver_local cx rq r sealed inner true (uuid_to_string id)
                  end
              end
          end
        else deliver_local cx rq r sealed inner false address
    end.

End Sealed.
(** ** Payment *)

Section Payment.
Context {R : Type} `{RedisLaws R}.
Context (sha256 : bytes -> bytes) (hex_encode : bytes -> string).
Context (open_sealed_token_bytes : bytes -> bytes -> option bytes)
        (verify_token : bytes -> bytes -> bytes -> bool).

(** The keys a redemption may write. *)
Definition payment_key (nonce : bytes) (recipient : string) (k : string) : Prop :=
  k = spent_key sha256 hex_encode nonce \/ exists id, k = unit_key sha256 hex_encode id recipient.

Lemma exec_int_frame (r : R) c k r' o :
  (forall ks ks' rep, cmd_doc c ks = Some (ks', rep) -> ks' !! k = ks !! k) ->
  exec_int r c = (r', o) -> keys r' !! k = keys r !! k.
Proof using Type.
  intros Hf E. pose proof (exec_frame r c k Hf) as Hk. unfold exec_int in E.
  destruct (exec r c) as [r1 [[]|]]; by simplify_eq/=.
Qed.

Lemma redeem_frame r ik ss nonce tok spend recipient r' res k :
  redeem_token_checked sha256 hex_encode open_sealed_token_bytes verify_token r ik ss nonce tok spend recipient
    = (r', res) ->
  ~ payment_key nonce recipient k -> keys r' !! k = keys r !! k.
Proof using Type.
  unfold redeem_token_checked, redeem_for_sealed_send. intros E Hk.
  destruct ik as [ik|]; [|by simplify_eq]. destruct ss as [ss|]; [|by simplify_eq].
  destruct (normalize_spend_id spend) as [sid_|]; [|by simplify_eq].
  set (look := match sid_ with Some id => _ | None => _ end) in E.
  assert (keys look.1 !! k = keys r !! k) as Hl.
  { subst look. destruct sid_ as [id|]; [|done]. unfold try_cover_with_paid_unit.
    destruct (exec_int r _) as [r1 o] eqn:Ex.
    assert (keys r1 !! k = keys r !! k) as Hf.
    { eapply exec_int_frame; [|exact Ex]. cbn. intros ks ks' rep Hd. eapply cover_script_other; [exact Hd|].
      intros ->. apply Hk. right. by exists id. }
    by destruct o. }
  destruct look as [r1 l]. cbn in Hl. destruct l; try (by simplify_eq).
  destruct (redeem_token _ _ _ _ r1 ik ss nonce tok) as [r2 res2] eqn:Er.
  assert (keys r2 !! k = keys r1 !! k) as H2.
  { unfold redeem_token in Er.
    repeat match type of Er with
    | (if ?b then _ else _) = _ => destruct b; [by simplify_eq|]
    | match open_sealed_token_bytes ?x ?y with _ => _ end = _ =>
        destruct (open_sealed_token_bytes x y); [|by simplify_eq]
    end.
    set (c := SETNXEX _ _ _) in Er. pose proof (exec_frame r1 c k) as Hf. unfold exec_opt_string in Er.
    destruct (exec r1 c) as [r3 o] eqn:E3. cbn [fst] in Hf.
    assert (r2 = r3) as -> by (destruct o as [[]|]; by simplify_eq). apply Hf.
    intros ks ks' rep Hd. cbn in Hd. change (SPENT_TTL_SECS <=? 0) with false in Hd. cbn iota in Hd.
    destruct (ks !! spent_key sha256 hex_encode nonce); simplify_eq; [done|].
    rewrite lookup_insert_ne; [done|]. intros <-. apply Hk. by left. }
  destruct res2; try (simplify_eq; congruence). destruct sid_ as [id|]; [|simplify_eq; congruence].
  injection E as <- _. unfold open_spend_unit. destruct (exec_int r2 _) as [r3 o] eqn:E3.
  assert (keys r3 !! k = keys r2 !! k) as H3.
  { eapply exec_int_frame; [|exact E3]. cbn. intros ks ks' rep Hd. eapply open_script_other; [exact Hd|].
    intros ->. apply Hk. right. by exists id. }
  destruct o; cbn; congruence.
Qed.

Lemma mark_tag_frame r tag r' st k :
  check_and_mark_delivery_tag sha256 hex_encode r tag = (r', st) ->
  k <> exact_key sha256 hex_encode tag -> k <> seen_key sha256 hex_encode tag -> keys r' !! k = keys r !! k.
Proof using Type.
  unfold check_and_mark_delivery_tag. intros E H1 H2. destruct (exec_int r _) as [r1 o] eqn:Ex.
  assert (r' = r1) as -> by (destruct o; by simplify_eq). eapply exec_int_frame; [|exact Ex].
  cbn. unfold mark_script, setex. intros ks ks' rep Hd. repeat (destruct (exists_key _ _); [by simplify_eq|]).
  injection Hd as <- _. by rewrite !lookup_insert_ne.
Qed.

(** A tag that no cache holds is not taken for a replay. *)
Lemma mark_tag_fresh r tag r' st :
  check_and_mark_delivery_tag sha256 hex_encode r tag = (r', st) ->
  keys r !! exact_key sha256 hex_encode tag = None -> keys r !! seen_key sha256 hex_encode tag = None ->
  st = Some New \/ st = None.
Proof using Type.
  unfold check_and_mark_delivery_tag. intros E H1 H2. destruct (exec_int r _) as [r1 [n|]] eqn:Ex; [|by simplify_eq; right].
  pose proof (exec_int_ok _ _ _ _ Ex eq_refl) as Hd. cbn in Hd. unfold mark_script, exists_key in Hd.
  rewrite H1, H2 in Hd. injection Hd as _ <-. simplify_eq. by left.
Qed.

(** A tag in the cache is a replay, if the check is answered. *)
Lemma mark_tag_seen r tag r' st :
  check_and_mark_delivery_tag sha256 hex_encode r tag = (r', Some st) ->
  is_Some (keys r !! seen_key sha256 hex_encode tag) -> st <> New /\ keys r' = keys r.
Proof using Type.
  unfold check_and_mark_delivery_tag. intros E [x Hs]. destruct (exec_int r _) as [r1 [n|]] eqn:Ex; [|done].
  pose proof (exec_int_ok _ _ _ _ Ex eq_refl) as Hd. cbn in Hd. unfold mark_script, exists_key in Hd.
  rewrite Hs in Hd. destruct (keys r !! exact_key sha256 hex_encode tag); injection Hd as Hk <-; by simplify_eq.
Qed.

End Payment.
(** ** What a sealed send promises *)

Section Promises.
Context {R : Type} `{RedisLaws R} `{MsgPack}.
Context {Uuid : Type} `{EqDecision Uuid}.
Context (uuid_parse_str : string -> option Uuid) (uuid_to_string : Uuid -> string).
Context (sha256 : bytes -> bytes) (hex_encode : bytes -> string) (hex_decode : string -> option bytes).
Context (is_alphanumeric_wide : string -> bool).
Context (open_sealed_token_bytes : bytes -> bytes -> option bytes)
        (verify_token : bytes -> bytes -> bytes -> bool).
Context (decode_inner : bytes -> option SealedInner).
Context (send_sealed_message : string -> string -> bytes -> Z -> bool).
Context (cx : Context_ (Uuid := Uuid)) (rq : Request) (sealed : SealedSenderEnvelope).

#[local] Abbreviation dispatch := (dispatch_sealed_sender uuid_parse_str uuid_to_string sha256 hex_encode
  hex_decode is_alphanumeric_wide open_sealed_token_bytes verify_token decode_inner send_sealed_message cx rq).
#[local] Abbreviation local := (deliver_local uuid_parse_str sha256 hex_encode open_sealed_token_bytes
  verify_token cx rq).
#[local] Abbreviation check := (check_intake_credential sha256 hex_encode open_sealed_token_bytes).
#[local] Abbreviation redeem := (redeem_token_checked sha256 hex_encode open_sealed_token_bytes verify_token).

(** The local account a sealed envelope is for, and whether it was addressed by key. *)
Definition local_recipient : option (SealedInner * bool * string) :=
  if negb (str_is_empty (se_recipient_server sealed))
     && negb (String.eqb (se_recipient_server sealed) (cx_domain cx)) then None
  else
    let* inner := decode_inner (se_sealed_inner sealed) in
    let address := si_recipient_user_id inner in
    if str_is_empty address then None
    else if String.prefix "ed25519:" address then
      match UserIds.parse uuid_parse_str hex_encode hex_decode sha256 is_alphanumeric_wide address with
      | Ok parsed =>
          let* rid := UserIds.route_id parsed in
          match get_user_by_route_id cx rid with
          | Some (Some id) => Some (inner, true, uuid_to_string id)
          | _ => None
          end
      | Err _ => None
      end
    else Some (inner, false, address).

Lemma dispatch_local r inner by_key recipient :
  local_recipient = Some (inner, by_key, recipient) ->
  dispatch r sealed = local r sealed inner by_key recipient.
Proof using Type.
  unfold local_recipient, dispatch_sealed_sender. destruct (_ && _); [done|].
  destruct (decode_inner _) as [i|]; [|done]. cbn. destruct (str_is_empty _); [done|].
  destruct (String.prefix _ _); [|by intros [= -> <- <-]].
  destruct (UserIds.parse _ _ _ _ _ _) as [u|]; [|done]. destruct (UserIds.route_id u) as [rid|]; [|done]. cbn.
  destruct (get_user_by_route_id cx rid) as [[id|]|]; try done. by intros [= -> <- <-].
Qed.

(** C39: A key address reveals whether the key has an account. Under enforcement, a local
    envelope to a well-formed key address that carries neither an intake tag nor a token
    is refused when the key has an account on this server and acknowledged when it has
    none, in every state of Redis: the answer is the oracle that the unresolved branch
    means not to be. *)
Theorem key_address_oracle r inner parsed rid :
  cx_policy cx = Enforce -> se_recipient_server sealed = "" ->
  decode_inner (se_sealed_inner sealed) = Some inner ->
  String.prefix "ed25519:" (si_recipient_user_id inner) = true ->
  UserIds.parse uuid_parse_str hex_encode hex_decode sha256 is_alphanumeric_wide (si_recipient_user_id inner) = Ok parsed ->
  UserIds.route_id parsed = Some rid ->
  si_intake_tag_sealed inner = [] -> si_token_nonce inner = [] -> si_token_spend_id inner = [] ->
  let answer := (dispatch_sealed_sender uuid_parse_str uuid_to_string sha256 hex_encode hex_decode is_alphanumeric_wide
    open_sealed_token_bytes verify_token decode_inner send_sealed_message cx rq r sealed).1.2 in
  (forall id, get_user_by_route_id cx rid = Some (Some id) -> exists why, answer = Err (TokenRejected why)) /\
  (get_user_by_route_id cx rid = Some None -> exists resp, answer = Ok resp /\ rs_success resp = true).
Proof using Type.
  intros Hp Hsrv Hdec Hpre Hparse Hrid Htag Hnonce Hspend answer. subst answer. unfold dispatch_sealed_sender. rewrite Hsrv, Hdec. cbn -[String.prefix].
  assert (str_is_empty (si_recipient_user_id inner) = false) as ->
    by (by destruct (si_recipient_user_id inner)).
  rewrite Hpre, Hparse, Hrid. split.
  - intros id ->. unfold deliver_local, pay. rewrite Hp, Htag, Hnonce, Hspend. cbn. unfold redeem_token_checked.
    destruct (cx_issuer_key cx); [|by eexists]. destruct (cx_enc_secret cx); [|by eexists]. cbn. by eexists.
  - intros ->. unfold unresolved. rewrite Hp, Htag. cbn. by eexists.
Qed.

Context (inner : SealedInner) (by_key : bool) (recipient : string).
Context (Hlocal : local_recipient = Some (inner, by_key, recipient)).

#[local] Abbreviation ek := (exact_key sha256 hex_encode (si_delivery_tag inner)).
#[local] Abbreviation sk := (seen_key sha256 hex_encode (si_delivery_tag inner)).

Definition envelope : MessageEnvelope :=
  from_sealed_sender sha256 hex_encode (rq_message_id rq) recipient (normalize_device_id (si_recipient_device inner))
    (se_sealed_inner sealed) (rq_now rq).

#[local] Abbreviation boxes := (Dispatch.boxes uuid_parse_str (cx_queue cx) (cx_db cx) envelope).
#[local] Abbreviation dedup := (for_envelope sha256 hex_encode envelope).

Lemma pay_frame r r1 res k :
  pay sha256 hex_encode open_sealed_token_bytes verify_token cx rq r inner recipient = (r1, res) ->
  ~ payment_key sha256 hex_encode (si_token_nonce inner) recipient k -> keys r1 !! k = keys r !! k.
Proof using Type.
  unfold pay. intros E Hk. destruct (cx_policy cx); [by simplify_eq| |];
    (destruct (check r _ _ _ _) as [r0 c] eqn:Ec; apply check_keys in Ec;
     destruct (owes_token c); [|simplify_eq; by rewrite Ec];
     destruct (redeem r0 _ _ _ _ _ _) as [r2 t] eqn:Er; pose proof (redeem_frame _ _ _ _ _ _ _ _ _ _ _ _ _ k Er Hk) as Hf;
     destruct (token_gate_action _ t); simplify_eq; by rewrite Hf, Ec).
Qed.

(** C12: Under enforcement a sealed send is paid for or refused. If the intake credential
    does not free the envelope of its token and the redemption neither accepts it nor
    fails for want of Redis, then the send is refused with that result, no push is
    sent, and nothing in the store changes but the record of the redemption. *)
Theorem unpaid_send_refused r r1 c r2 t :
  cx_policy cx = Enforce ->
  check r (cx_enc_secret cx) (si_intake_tag_sealed inner) recipient (rq_now rq) = (r1, c) ->
  owes_token c = true ->
  redeem r1 (cx_issuer_key cx) (cx_enc_secret cx) (si_token_nonce inner) (si_token_bytes inner)
    (si_token_spend_id inner) recipient = (r2, t) ->
  is_accept t = false -> t <> TRedisError ->
  dispatch r sealed = (r2, Err (TokenRejected t), None) /\
  forall k, ~ payment_key sha256 hex_encode (si_token_nonce inner) recipient k -> keys r2 !! k = keys r !! k.
Proof using Hlocal.
  intros Hp Hc Ho Hr Ha Ht. split.
  - rewrite (dispatch_local _ _ _ _ Hlocal). unfold deliver_local, pay. rewrite Hp, Hc, Ho, Hr.
    unfold token_gate_action. rewrite Ha. by destruct t.
  - intros k Hk. rewrite (redeem_frame _ _ _ _ _ _ _ _ _ _ _ _ _ k Hr Hk).
    by rewrite (check_keys _ _ _ _ _ _ _ _ _ _ Hc).
Qed.


End Promises.
(** ** A concrete sealed send *)

Definition sample_inner (address : string) : SealedInner := {|
  si_recipient_user_id := address; si_intake_tag_sealed := []; si_token_nonce := [];
  si_token_bytes := []; si_token_spend_id := []; si_recipient_device := "phone";
  si_delivery_tag := [Byte.x01] |}.

Definition sample_key : string := "ed25519:0123456789abcdef0123456789abcdef".

(** The sealed bytes ["k"] are to a key address, every other bytes to alice. *)
Definition sample_decode (b : bytes) : option SealedInner :=
  Some (sample_inner (match b with [Byte.x6b] => sample_key | _ => "alice" end)).

Definition sample_sealed (b : bytes) : SealedSenderEnvelope := {|
  se_recipient_server := ""; se_sealed_inner := b; se_timestamp := 0 |}.

Definition sample_cx (policy : StealthTokenPolicy) (account : option string) : Context_ (Uuid := string) := {|
  cx_domain := "here"; cx_policy := policy; cx_issuer_key := Some []; cx_enc_secret := Some [];
  cx_queue := sample_cfg; cx_db := Dispatch.sample_db; get_user_by_route_id := fun _ => Some account;
  cx_notify := true |}.

Definition sample_rq : Request := {|
  rq_message_id := "m1"; rq_replay_id := "m2"; rq_now := 5; rq_srv := Dispatch.sample_srv |}.

#[local] Abbreviation sample_send policy account r b := (dispatch_sealed_sender (H := mem_redis) (H0 := sample_pack)
  (@Some string) (fun u => u) toy_hash toy_hex (fun s => Some (as_bytes s)) (fun _ => false) toy_open toy_verify
  sample_decode (fun _ _ _ _ => true) (sample_cx policy account) sample_rq r (sample_sealed b)).

Lemma key_address_oracle_witness :
  (exists why, (sample_send Enforce (Some "alice") (Mem ∅ true) [Byte.x6b]).1.2 = Err (TokenRejected why)) /\
  (exists resp, (sample_send Enforce None (Mem ∅ true) [Byte.x6b]).1.2 = Ok resp /\ rs_success resp = true).
Proof.
  assert (forall account, exists parsed rid,
    UserIds.parse (@Some string) toy_hex (fun s => Some (as_bytes s)) toy_hash (fun _ => false) sample_key = Ok parsed /\
    UserIds.route_id parsed = Some rid /\ get_user_by_route_id (sample_cx Enforce account) rid = Some account) as Hkey
    by (intros account; do 2 eexists; split; [vm_compute; reflexivity|by split]).
  split.
  - destruct (Hkey (Some "alice")) as (parsed & rid & Hp & Hr & Hg).
    by apply (key_address_oracle (H1 := sample_pack) (@Some string) (fun u => u) toy_hash toy_hex (fun s => Some (as_bytes s))
      (fun _ => false) toy_open toy_verify sample_decode (fun _ _ _ _ => true) (sample_cx Enforce (Some "alice"))
      sample_rq (sample_sealed [Byte.x6b]) (Mem ∅ true) (sample_inner sample_key) parsed rid) with (id := "alice").
  - destruct (Hkey None) as (parsed & rid & Hp & Hr & Hg).
    by apply (key_address_oracle (H1 := sample_pack) (@Some string) (fun u => u) toy_hash toy_hex (fun s => Some (as_bytes s))
      (fun _ => false) toy_open toy_verify sample_decode (fun _ _ _ _ => true) (sample_cx Enforce None)
      sample_rq (sample_sealed [Byte.x6b]) (Mem ∅ true) (sample_inner sample_key) parsed rid).
Defined.

Lemma unpaid_send_refused_witness :
  sample_send Enforce None (Mem ∅ true) [] = (Mem ∅ true, Err (TokenRejected MissingToken), None).
Proof.
  by apply (unpaid_send_refused (H1 := sample_pack) (@Some string) (fun u => u) toy_hash toy_hex
    (fun s => Some (as_bytes s)) (fun _ => false) toy_open toy_verify sample_decode (fun _ _ _ _ => true)
    (sample_cx Enforce None) sample_rq (sample_sealed []) (sample_inner "alice") false "alice" eq_refl
    (Mem ∅ true) (Mem ∅ true) Absent).
Defined.


End SealedDispatch.
